(* ===== verification/_CoqProject ===== *)
-Q . S2P
Prelude.v
External.v
Keyed.v
Reference.v
Slot.v
Transport.v
Frame.v
Topics.v
RateLimit.v
Session.v
Registry.v
Invariants.v
RegistryTypes.v
Retained.v
Router.v
Connect.v
Subscribe.v
Publish.v
PublishProofs.v
Disconnect.v
Connection.v
System.v
Lifetimes.v
Contract.v
Abstraction.v
Refinement.v
Fairness.v
Settlement.v
Transparency.v
Executions.v
Suite.v
ZeroInit.v
TestsCore.v
TestsConnect.v
TestsSubscribe.v
TestsPublish.v
TestsDisconnect.v
TestsConnection.v
Schema.v
Compiler.v
Crc.v
PostcardRef.v
Serialization.v
Storage.v
ConfigManager.v
TestsConfig.v
TlsIdentity.v
TlsPsk.v
TlsLink.v
Firmware.v
FirmwarePlain.v
Bootstrap.v
Boot.v
HostServer.v
HostClient.v
KeySchedule.v
Pool.v
SpinMutex.v
SpinOnce.v
SpinRwLock.v
TestsSpin.v
TestsTls.v
