(* ===== verification/Prelude.v ===== *)
(** * GatoMQTT and smartbox-config: verification library

    The repository has two [no_std] Rust crates.  [crates/GatoMQTT] is an
    MQTT 3.1.1 broker for microcontrollers: fixed-capacity tables, one async
    task per connection, plain TCP or TLS-PSK underneath.
    [crates/smartbox-config] validates a house configuration, compiles it for
    each board and moves it through storage slots.  The two crates do not call
    each other.  Around them are an ESP32-C3 example firmware
    ([examples/esp32c3_mqtt_server]) that runs the broker on a pool of worker
    tasks and carries a copy of the [spin] crate, and three host tools for its
    TLS.  This library models all of these and proves them correct; paths below
    are relative to [src/crates/GatoMQTT/src], [src/crates/smartbox-config/src]
    or [src].

    ** Conventions

    - A machine integer is a [Z], with wrapping, saturating and checked
      arithmetic written out ([wrapping_add], [saturating_add],
      [checked_add]) and its width in the invariants ([is_u8] to [is_u64]).  A
      [usize] used as an index or length is a [nat].
    - [&str] and [String<N>] are [string], counted in bytes; [&[u8]] and
      [Vec<u8, N>] are [list Z]; a bounded container is the list of its
      elements, with its capacity at the operations that can overflow it.
    - [Result<A, E>] is [result E A], and [?] is the monadic bind.  A
      computation over a transport or a store is a
      [prog S E A := S → outcome (result E A) * S]; [outcome] tells a normal
      return ([Done]) from a future that never completes or is dropped at its
      await ([Pending]) and from a panic ([Panic]).
    - [&mut self] is explicit state passing: an operation returns the new
      state next to its answer, on error paths too.  [get_mut] followed by
      writes is [get] followed by [put].
    - Clock readings ([Instant::now]) are arguments.
    - Log lines are left out.

    ** Other crates

    heapless, embassy-time, embassy-sync, mqttrs, postcard and sha2 are
    classes in [External.v], the sockets and TLS sessions under the transports
    are classes in [Transport.v], and the GatoPSKTLS engine is a class in
    [TlsPsk.v], with the record protection of RFC 8446 as its laws in
    [TlsLink.v].  The radio, the random source, the sockets, mbedTLS and the
    MACs of the example and the tools are classes or arguments in their files.
    Each class has the operations the sources call and, as named laws, the
    documented behaviour they rely on.  [Reference.v] and [PostcardRef.v] give
    concrete instances, as do small engines in [TlsPsk.v], [TlsLink.v] and
    [HostClient.v] and a SHA-256 in [KeySchedule.v]: the laws can hold, and the
    witnesses evaluate.

    ** The broker

    - [Slot.v]: [slot.rs].  The tagged cell behaves as an [Option] even from
      zero-filled memory, so the tables of the other files hold [option]s.
    - [Topics.v]: [qos.rs], [topics.rs], [topic_matches] and
      [is_valid_filter].  Both decide their declarative reading of MQTT filters.
    - [RateLimit.v]: [session/rate_limit.rs].  The rate is bounded over any
      sequence of calls, and a bucket recovers.
    - [Session.v]: [session/state.rs], [config.rs].  Packet identifiers,
      keepalive, the length of the loop's sleep.
    - [Registry.v], [Invariants.v]: [session/registry.rs].  The table
      invariant: capacities, widths, one session per client id, and reference
      counts of stored publishes equal to the number of in-flight entries that
      hold them; one preservation lemma per operation.
    - [RegistryTypes.v]: the same interface under any sequence of well-typed
      calls, also ones the broker never makes: bounds and widths still hold.
    - [Keyed.v], [Retained.v]: [router/retained.rs] refines a bounded finite
      map.
    - [Router.v]: [router/dispatcher.rs], [collect_subscribers].  Delivery
      lists are exact and never truncated.
    - [Transport.v]: [transport/*.rs], [session/notify.rs].  The trait is a
      class; writes hand over every byte once.  [Link] is the interface of a
      working connection, against which everything that reads is proved; the
      test transport and the adapters are instances.
    - [Frame.v]: [codec/frame.rs].  Framing is independent of chunking, and no
      input overruns a buffer of at least five bytes.
    - [Connect.v], [Subscribe.v], [Publish.v] with [PublishProofs.v],
      [Disconnect.v]: the handlers under [handler/].  Each keeps the broker
      invariant; authentication, takeover and resumption; SUBSCRIBE and
      UNSUBSCRIBE as updates of a map; a publish reaches exactly its audience,
      a rate-limited one nobody; commands are forwarded once; retries never
      meet a dangling handle.
    - [Connection.v]: [handler/connection.rs] as a machine.  A [phase] is a
      stretch of code between two points where other tasks can run;
      [conn_step] is one stretch, as a function of the shared broker state
      (registry, retained store, signals, command handler), the task's
      transport and the step's [input].
    - [System.v]: any number of tasks and firmware publishes interleaved
      ([reachable]).  In every reachable state the invariant holds, no task has
      panicked and no wake-up is lost; flushing ends and keeps the order; a
      will goes to exactly its audience.
    - [Lifetimes.v]: traces of [System.v].  A QoS 1 delivery stays in flight
      until it is acknowledged or its session ends, an expired one is resent
      unchanged, and a signalled task that is scheduled writes what is queued.
    - [Contract.v]: what the broker promises, without tables, slots, signals or
      tasks: clients with subscriptions, a queue and unacknowledged messages,
      retained messages, pending wills, and the events that change them.
    - [Abstraction.v], [Refinement.v]: every action of [System.v] is the event
      it stands for in [Contract.v] ([system_refines_contract]); hence what a
      client is sent is, in order and without gaps, what was published for it
      ([deliveries_in_order]).
    - [Fairness.v]: infinite executions.  If no ready task is passed over
      forever, every queued frame is eventually sent, unless its session ends
      ([eventual_delivery]), and so every message let through reaches the
      transport of its subscribers ([published_is_sent]).
    - [Settlement.v]: the same executions with time.  If the tasks of a session
      keep running, its flushes end and its retry timers run out, no QoS 1
      delivery stays in flight: it is acknowledged, or the retries are used up
      and the session is removed ([qos1_eventually_settled]).
    - [Transparency.v]: the connection task behaves alike over any two working
      connections that carry the same frames.
    - [ZeroInit.v]: [tests/zero_init_registry.rs].  The system started from
      zero-filled statics is as safe as from [new()].
    - [Executions.v]: concrete runs with outcomes the theorems do not rule
      out, which the code probably does not intend.
    - [TlsIdentity.v]: [tls/mod.rs].  The storage format is exact, and an
      identity survives reboots.
    - [TlsPsk.v]: [tls/embedded_tls_psk.rs].  No data before the handshake;
      reads deliver the plaintext in order, once and completely.
    - [TlsLink.v]: the layers of the TLS build composed.  From the bytes on the
      wire, handshake included, to the broker's state and the bytes the client
      recovers: MQTT over TLS is MQTT ([mqtt_over_tls]).

    ** The configuration crate

    - [Schema.v]: [ids.rs], [schema.rs]; [fits] is the invariant the const
      generics give.
    - [Compiler.v]: [compiler.rs].  Validation accepts exactly the valid
      configurations, errors blame real defects, compilation gives each board
      a closed share, and the shares partition the configuration.
    - [Crc.v], [Serialization.v]: [serialization.rs].  Burst detection, round
      trip, and only encodings are accepted.
    - [Storage.v]: [active_slot.rs], [storage.rs].  The active version is
      monotone in the slot state machine.
    - [ConfigManager.v]: [pipeline.rs], [manager.rs].  An activated update
      boots into its compilation; a damaged one into safe mode; preparing never
      activates.

    ** The example firmware and the host tools

    - [Firmware.v]: [main.rs] with the [tls] feature, [tls_support.rs].  The
      accept task and the workers share [UnsafeCell]s; [fw_reachable]
      interleaves them with the broker.  No two live sockets share buffers, no
      socket in a cell is overwritten, a worker takes what it is handed, and
      the broker stays safe.
    - [FirmwarePlain.v]: [main.rs] without the feature, and the inbound
      channel of both builds.
    - [Bootstrap.v]: [bootstrap.rs], the wait for an address and the task that
      keeps the station connected.
    - [Boot.v]: [main], [bootstrap_stack] and what the runtime tasks spawn.  A
      boot ends with the tasks the files above start from, and panics only if
      the hardware does not come up ([main_boots]).
    - [HostServer.v]: [tools/host_tls_psk_server], from [main] to the
      connections.  Each writes only its flight and echoes, and ends.
    - [HostClient.v]: [tools/host_tls_mqtt_client], in C.  Its hand-written
      CONNECT is the standard one, and it and the broker agree on whether it is
      admitted ([host_client_admitted]).
    - [KeySchedule.v]: [tools/tls-spike].  [hkdf_expand_label] is the recursion
      of RFC 5869 within its bound, and the run finds the values of RFC 8448.

    ** The vendored [spin] crate

    [examples/esp32c3_mqtt_server/vendor/spin-0.5.2], which no other code of the
    repository calls.  [Pool.v] is the setting: calls and guards as actors whose
    steps are single atomic operations on a shared word, in any interleaving.

    - [SpinMutex.v]: [mutex.rs].  The flag is set exactly while one call holds
      the lock ([mutex_excludes]); the counter of the crate's [lots_and_lots]
      test is exact for all schedules ([mutex_counter_exact]).
    - [SpinOnce.v]: [once.rs].  At most one builder runs and everybody gets its
      value ([once_runs_once]); once it is done nobody waits ([once_returns]).
    - [SpinRwLock.v]: [rw_lock.rs].  The lock implements an abstract lock that
      grants compatible guards only ([rwlock_refines_spec]), while the number of
      readers fits its count; past that it does not ([rwlock_count_wraps]).

    ** The crates' own tests

    [Suite.v] says how a [#[test]] becomes a list of assertions about the
    model; [TestsCore.v], [TestsConnect.v], [TestsSubscribe.v],
    [TestsPublish.v], [TestsDisconnect.v], [TestsConnection.v], [TestsConfig.v]
    and [TestsTls.v] replay all of them by evaluation, but for one that prints
    the size of a type; [TestsSpin.v] replays those of the [spin] crate whose
    subject is the lock.  They validate the translation and are no substitute
    for the theorems.

    ** Fuel

    Loops over a list or a bounded counter are structural.  [write_loop],
    [read_exact_loop] and [fill] take as fuel the number of bytes still to
    move: every round moves at least one byte or ends, and [write_loop_fuel]
    and [read_exact_fuel] show that more fuel changes nothing.  The header loop
    of [read_packet] reads at most four length bytes ([read_header_fuel]).  The
    loops of [TlsPsk.v] that skip dummy records have no bound in the source;
    their fuel is a parameter, running out of it is [Pending], and
    [psk_read_delivers] says that one round more than the waiting dummies is
    enough.  The loops of [HostServer.v] take the length of the input, which
    [host_connection_ends] shows to be enough, and [expand_loop] of
    [KeySchedule.v] the requested length, as every round adds a block
    ([expand_loop_spec]).  The calls mbedTLS asks the C client to repeat have no
    bound in the source either; [talk_verdict] takes the number of repetitions.
    The connection loop and the tasks of the firmware do not end by
    themselves and are step relations, without fuel; so are the retry loops of
    the [spin] locks.

    ** Not modelled

    - the GatoPSKTLS engine and the other third-party crates (parameters);
    - heap, clocks, interrupts and the stack's runner in the example's start-up:
      hardware, and values handed to other crates;
    - the parsing of the command lines, and the output and the pause of the C
      client;
    - memory orderings: atomics are sequentially consistent, as they are on the
      one core of the ESP32-C3;
    - [Debug] formatting, logging, module declarations, [serde] derives (behind
      the postcard class), and timing side channels: [ct_eq] is shown to decide
      equality, not to take constant time. *)

From Stdlib Require Export Ascii.
From stdpp Require Export base tactics list option strings numbers sets.
From Stdlib Require Export ZArith Lia Sorted.

(** ** Results

    [Result<T, E>] of the Rust sources.  The error type comes first so that
    [result E] is a monad; [x ← c; k] is the source's [let x = c?;]. *)
Inductive result (E A : Type) : Type :=
| Ok (a : A)
| Err (e : E).
Arguments Ok {E A} a.
Arguments Err {E A} e.

#[global] Instance result_eq_dec {E A} `{EqDecision E, EqDecision A} : EqDecision (result E A).
Proof. solve_decision. Defined.

#[global] Instance result_ret {E} : MRet (result E) := @Ok E.
#[global] Instance result_bind {E} : MBind (result E) :=
  λ A B f r, match r with Ok a => f a | Err e => Err e end.
#[global] Instance result_fmap {E} : FMap (result E) :=
  λ A B f r, match r with Ok a => Ok (f a) | Err e => Err e end.

Definition map_err {E F A} (f : E → F) (r : result E A) : result F A :=
  match r with Ok a => Ok a | Err e => Err (f e) end.

Definition is_ok {E A} (r : result E A) : bool :=
  match r with Ok _ => true | Err _ => false end.

Definition ok_or {E A} (e : E) (o : option A) : result E A :=
  match o with Some a => Ok a | None => Err e end.

(** [r.ok()] *)
Definition result_ok {E A} (r : result E A) : option A :=
  match r with Ok a => Some a | Err _ => None end.

(** ** Outcome of running a piece of code

    [Done] is a normal return, [Pending] an [.await] that has not completed,
    [Panic] a Rust panic (an out-of-range slice, [unwrap] on [None]). *)
Inductive outcome (A : Type) : Type :=
| Done (a : A)
| Pending
| Panic.
Arguments Done {A} a.
Arguments Pending {A}.
Arguments Panic {A}.

(** ** Stateful computations

    Code that threads a state [S], returns [Result<A, E>], can panic and can
    be dropped at an await. *)
Definition prog (S E A : Type) : Type := S → outcome (result E A) * S.

Definition io_ret {S E A} (a : A) : prog S E A := λ s, (Done (Ok a), s).
Definition io_fail {S E A} (e : E) : prog S E A := λ s, (Done (Err e), s).
Definition io_panic {S E A} : prog S E A := λ s, (Panic, s).
Definition io_lift {S E A} (r : result E A) : prog S E A := λ s, (Done r, s).

(** [c.await?] *)
Definition io_bind {S E A B} (c : prog S E A) (k : A → prog S E B) : prog S E B := λ s,
  match c s with
  | (Done (Ok a), s) => k a s
  | (Done (Err e), s) => (Done (Err e), s)
  | (Pending, s) => (Pending, s)
  | (Panic, s) => (Panic, s)
  end.

(** [c.await.map_err(f)] *)
Definition io_map_err {S E F A} (f : E → F) (c : prog S E A) : prog S F A := λ s,
  match c s with
  | (Done r, s) => (Done (map_err f r), s)
  | (Pending, s) => (Pending, s)
  | (Panic, s) => (Panic, s)
  end.

Lemma io_bind_ok {S E A B} (c : prog S E A) (k : A → prog S E B) s s' a :
  c s = (Done (Ok a), s') → io_bind c k s = k a s'.
Proof. unfold io_bind. by intros ->. Qed.

Lemma io_bind_no_panic {S E A B} (c : prog S E A) (k : A → prog S E B) s :
  (c s).1 ≠ Panic → (∀ a s', c s = (Done (Ok a), s') → (k a s').1 ≠ Panic) →
  (io_bind c k s).1 ≠ Panic.
Proof. unfold io_bind. destruct (c s) as [[[a|e]| |] s']; naive_solver. Qed.

(** A relation between the states before and after, through a sequence. *)
Lemma io_bind_rel {S E A B} (R : relation S) `{!Transitive R} (c : prog S E A)
    (k : A → prog S E B) s :
  R s (c s).2 → (∀ a s1, R s1 (k a s1).2) → R s (io_bind c k s).2.
Proof.
  intros Hc Hk. unfold io_bind. destruct (c s) as [[[a|e]| |] s1]; simpl in *; try done.
  etrans; [exact Hc|]. apply Hk.
Qed.

(** ** Machine integers

    A [uN] is a [Z] in [0, 2^N).  The wrapping, saturating and checked
    operations of the standard library are written out at their width. *)
Open Scope Z_scope.

Definition U8_MAX : Z := 255.
Definition U16_MAX : Z := 65535.
Definition U32_MAX : Z := 4294967295.
Definition U64_MAX : Z := 18446744073709551615.

Definition is_u8 (x : Z) : Prop := 0 ≤ x ≤ U8_MAX.
Definition is_u16 (x : Z) : Prop := 0 ≤ x ≤ U16_MAX.
Definition is_u32 (x : Z) : Prop := 0 ≤ x ≤ U32_MAX.
Definition is_u64 (x : Z) : Prop := 0 ≤ x ≤ U64_MAX.

Definition saturating_add (max a b : Z) : Z := Z.min (a + b) max.
Definition saturating_sub (a b : Z) : Z := Z.max (a - b) 0.
Definition saturating_mul (max a b : Z) : Z := Z.min (a * b) max.
Definition wrapping_add (max a b : Z) : Z := (a + b) mod (max + 1).
Definition checked_add (max a b : Z) : option Z :=
  if decide (a + b ≤ max) then Some (a + b) else None.

Create HintDb ints discriminated.
#[export] Hint Unfold is_u8 is_u16 is_u32 is_u64 U8_MAX U16_MAX U32_MAX U64_MAX : ints.

(** Arithmetic over the machine integers of the model. *)
Ltac int_lia :=
  unfold is_u8, is_u16, is_u32, is_u64, saturating_add, saturating_sub,
    saturating_mul in *;
  unfold U8_MAX, U16_MAX, U32_MAX, U64_MAX in *; lia.

Lemma wrapping_add_range max a b : 0 ≤ max → 0 ≤ wrapping_add max a b ≤ max.
Proof. intros. unfold wrapping_add. pose proof (Z.mod_pos_bound (a + b) (max + 1)). lia. Qed.

Lemma wrapping_add_small max a b :
  0 ≤ a + b ≤ max → wrapping_add max a b = a + b.
Proof. intros. unfold wrapping_add. apply Z.mod_small. lia. Qed.

Lemma checked_add_Some max a b c :
  checked_add max a b = Some c ↔ c = a + b ∧ a + b ≤ max.
Proof. unfold checked_add. case_decide; naive_solver. Qed.

(** ** Tactics *)

(** Split the hypotheses the way Rust's early returns split a function: every
    [match]/[if] of a hypothesis that equates a computation with a value. *)
Ltac case_hyp H :=
  repeat match type of H with
  | context [match ?x with _ => _ end] => destruct x eqn:?; simplify_eq/=
  end.

(** Case analysis on every [match] of the goal. *)
Ltac case_goal :=
  repeat (case_match; simplify_eq/=).

(** ** Strings

    A Rust [&str] is the sequence of its UTF-8 bytes; a [string] of eight-bit
    characters is that sequence, so [String.length] is [str::len]. *)
Definition byte_of_ascii (c : Ascii.ascii) : Z := Z.of_N (Ascii.N_of_ascii c).

Definition as_bytes (s : string) : list Z :=
  byte_of_ascii <$> String.list_ascii_of_string s.

Lemma byte_of_ascii_inj : Inj (=) (=) byte_of_ascii.
Proof.
  intros a b H. unfold byte_of_ascii in H. apply N2Z.inj in H.
  by rewrite <-(Ascii.ascii_N_embedding a), <-(Ascii.ascii_N_embedding b), H.
Qed.
#[export] Existing Instance byte_of_ascii_inj.

Lemma byte_of_ascii_range c : is_u8 (byte_of_ascii c).
Proof. unfold byte_of_ascii. pose proof (Ascii.N_ascii_bounded c). int_lia. Qed.

Lemma as_bytes_inj s1 s2 : as_bytes s1 = as_bytes s2 → s1 = s2.
Proof.
  intros H. apply (inj (fmap byte_of_ascii)) in H.
  by rewrite <-(String.string_of_list_ascii_of_string s1), H,
    String.string_of_list_ascii_of_string.
Qed.

Lemma length_as_bytes s : length (as_bytes s) = String.length s.
Proof. unfold as_bytes. rewrite length_fmap. induction s; simpl; congruence. Qed.

Lemma as_bytes_u8 s : Forall is_u8 (as_bytes s).
Proof. unfold as_bytes. apply Forall_fmap, Forall_true. intros; apply byte_of_ascii_range. Qed.

(** ** Prefixes cut at the length *)
Lemma take_min_length {A} n (l : list A) : take (Nat.min n (length l)) l = take n l.
Proof.
  destruct (decide (n ≤ length l)%nat); [by rewrite Nat.min_l|]. by rewrite Nat.min_r, !take_ge by lia.
Qed.

Lemma drop_min_length {A} n (l : list A) : drop (Nat.min n (length l)) l = drop n l.
Proof.
  destruct (decide (n ≤ length l)%nat); [by rewrite Nat.min_l|]. by rewrite Nat.min_r, !drop_ge by lia.
Qed.

(** ** Sums over slots *)
Lemma sum_list_with_insert {A} (f : A → nat) (l : list A) i x y :
  l !! i = Some x →
  (sum_list_with f (<[i:=y]> l) + f x = sum_list_with f l + f y)%nat.
Proof.
  revert i. induction l as [|z l IH]; intros [|i] Hi; simplify_eq/=; [lia|].
  specialize (IH i Hi). lia.
Qed.

Lemma list_find_fst_None {A} (P : A → Prop) `{∀ x, Decision (P x)} (l : list A) :
  (fst <$> list_find P l) = None ↔ Forall (λ x, ¬ P x) l.
Proof. rewrite fmap_None. apply list_find_None. Qed.

Lemma list_lookup_insert_cases {A} (l : list A) i x j y :
  <[i := x]> l !! j = Some y → y = x ∨ l !! j = Some y.
Proof. rewrite list_lookup_insert. case_decide; [intros [= <-]|]; auto. Qed.

Lemma sorted_NoDup (l : list nat) : StronglySorted lt l → NoDup l.
Proof.
  induction 1 as [|x l _ IH Hall]; constructor; [|done].
  intros Hin. rewrite Forall_forall in Hall. specialize (Hall _ Hin). lia.
Qed.
