(* ===== verification/External.v ===== *)
(** * External: the third-party crates the broker is built on

    [heapless], [embassy-time], [mqttrs], [embassy-sync], [postcard] and
    [sha2] are not part of the repository.  Each is a class: the operations
    the sources call, together with the documented behaviour the sources rely
    on as named laws.  Every definition of the development that calls one of
    these crates takes the class as an argument; [Reference.v] and, for
    postcard, [PostcardRef.v] give concrete instances, so the laws are known to
    be satisfiable and the examples evaluate. *)

From S2P Require Import Prelude.

(** ** heapless

    A [Vec<T, N>] or [Deque<T, N>] is the list of its elements, a [String<N>]
    the string it holds; the capacity [N] is an argument of the operations
    that can run out of it.  Removing an element, popping the front and
    reading are total on lists and need no law. *)
Class Heapless := {
  vec_push {A : Type} (cap : nat) (v : list A) (x : A) : option (list A);
  vec_from_slice {A : Type} (cap : nat) (s : list A) : option (list A);
  deque_push_back {A : Type} (cap : nat) (q : list A) (x : A) : option (list A);
  string_try_from (cap : nat) (s : string) : option string;
  vec_extend {A : Type} (cap : nat) (v s : list A) : option (list A);
  string_push (cap : nat) (s : string) (c : Ascii.ascii) : option string;
  (** [push] appends, or gives the element back when the vector is full. *)
  vec_push_spec {A} cap (v : list A) x :
    vec_push cap v x = if decide (length v < cap)%nat then Some (v ++ [x]) else None;
  (** [from_slice] copies the slice, or fails when it does not fit. *)
  vec_from_slice_spec {A} cap (s : list A) :
    vec_from_slice cap s = if decide (length s ≤ cap)%nat then Some s else None;
  deque_push_back_spec {A} cap (q : list A) x :
    deque_push_back cap q x = if decide (length q < cap)%nat then Some (q ++ [x]) else None;
  string_try_from_spec cap s :
    string_try_from cap s = if decide (String.length s ≤ cap)%nat then Some s else None;
  (** [extend_from_slice] appends all of the slice, or fails. *)
  vec_extend_spec {A} cap (v s : list A) :
    vec_extend cap v s = if decide (length v + length s ≤ cap)%nat then Some (v ++ s) else None;
  string_push_spec cap s c :
    string_push cap s c =
      if decide (String.length s < cap)%nat then Some (s +:+ String c EmptyString) else None;
}.

Section heapless_lemmas.
Context `{Heapless}.

Lemma vec_push_Some {A} cap (v v' : list A) x :
  vec_push cap v x = Some v' ↔ (length v < cap)%nat ∧ v' = v ++ [x].
Proof. rewrite vec_push_spec. case_decide; naive_solver. Qed.

Lemma vec_push_None {A} cap (v : list A) x :
  vec_push cap v x = None ↔ (cap ≤ length v)%nat.
Proof. rewrite vec_push_spec. case_decide; split; (done || lia || naive_solver lia). Qed.

Lemma vec_from_slice_Some {A} cap (s s' : list A) :
  vec_from_slice cap s = Some s' ↔ (length s ≤ cap)%nat ∧ s' = s.
Proof. rewrite vec_from_slice_spec. case_decide; naive_solver. Qed.

Lemma vec_from_slice_None {A} cap (s : list A) :
  vec_from_slice cap s = None ↔ (cap < length s)%nat.
Proof. rewrite vec_from_slice_spec. case_decide; split; (done || lia || naive_solver lia). Qed.

Lemma deque_push_back_Some {A} cap (q q' : list A) x :
  deque_push_back cap q x = Some q' ↔ (length q < cap)%nat ∧ q' = q ++ [x].
Proof. rewrite deque_push_back_spec. case_decide; naive_solver. Qed.

Lemma deque_push_back_None {A} cap (q : list A) x :
  deque_push_back cap q x = None ↔ (cap ≤ length q)%nat.
Proof. rewrite deque_push_back_spec. case_decide; split; (done || lia || naive_solver lia). Qed.

Lemma string_try_from_Some cap s s' :
  string_try_from cap s = Some s' ↔ (String.length s ≤ cap)%nat ∧ s' = s.
Proof. rewrite string_try_from_spec. case_decide; naive_solver. Qed.

Lemma string_try_from_None cap s :
  string_try_from cap s = None ↔ (cap < String.length s)%nat.
Proof. rewrite string_try_from_spec. case_decide; split; (done || lia || naive_solver lia). Qed.
End heapless_lemmas.

(** ** embassy-time

    [Instant] and [Duration] count ticks in a [u64]; [TICK_HZ] is fixed by a
    cargo feature of the build, so it stays a parameter. *)
Abbreviation Instant := Z (only parsing).
Abbreviation Duration := Z (only parsing).

Definition INSTANT_MAX : Instant := U64_MAX.

(** [Instant::checked_duration_since] and [Instant::checked_add]. *)
Definition checked_duration_since (now earlier : Instant) : option Duration :=
  if decide (earlier ≤ now) then Some (now - earlier) else None.
Definition instant_checked_add (t : Instant) (d : Duration) : option Instant :=
  checked_add U64_MAX t d.

Class EmbassyTime := {
  TICK_HZ : Z;
  TICK_HZ_pos : 0 < TICK_HZ;
  duration_from_secs : Z → Duration;
  duration_from_millis : Z → Duration;
  duration_as_secs : Duration → Z;
  duration_from_secs_spec s :
    0 ≤ s → s * TICK_HZ ≤ U64_MAX → duration_from_secs s = s * TICK_HZ;
  (** Milliseconds are rounded up to a whole number of ticks. *)
  duration_from_millis_spec ms :
    0 ≤ ms → ms * TICK_HZ ≤ U64_MAX →
    1000 * (duration_from_millis ms - 1) < ms * TICK_HZ ≤ 1000 * duration_from_millis ms;
  duration_as_secs_spec d : 0 ≤ d → duration_as_secs d = d / TICK_HZ;
}.

(** ** mqttrs: the packet types *)
Inductive QoS := AtMostOnce | AtLeastOnce | ExactlyOnce.
#[global] Instance QoS_eq_dec : EqDecision QoS.
Proof. solve_decision. Defined.

(** A [Pid] wraps a non-zero [u16]; [Pid.get()] is the number. *)
Abbreviation Pid := Z (only parsing).

Inductive QosPid :=
| QP_AtMostOnce
| QP_AtLeastOnce (pid : Pid)
| QP_ExactlyOnce (pid : Pid).
#[global] Instance QosPid_eq_dec : EqDecision QosPid.
Proof. solve_decision. Defined.

(** [QosPid::qos] *)
Definition qospid_qos (q : QosPid) : QoS :=
  match q with
  | QP_AtMostOnce => AtMostOnce
  | QP_AtLeastOnce _ => AtLeastOnce
  | QP_ExactlyOnce _ => ExactlyOnce
  end.

Record Publish := {
  pub_dup : bool;
  pub_qospid : QosPid;
  pub_retain : bool;
  pub_topic_name : string;
  pub_payload : list Z;
}.
#[global] Instance Publish_eq_dec : EqDecision Publish.
Proof. solve_decision. Defined.

Inductive Protocol := MQTT311 | MQIsdp.
#[global] Instance Protocol_eq_dec : EqDecision Protocol.
Proof. solve_decision. Defined.

Record LastWill := {
  lw_topic : string;
  lw_message : list Z;
  lw_qos : QoS;
  lw_retain : bool;
}.
#[global] Instance LastWill_eq_dec : EqDecision LastWill.
Proof. solve_decision. Defined.

Record Connect := {
  cn_protocol : Protocol;
  cn_keep_alive : Z;
  cn_client_id : string;
  cn_clean_session : bool;
  cn_last_will : option LastWill;
  cn_username : option string;
  cn_password : option (list Z);
}.
#[global] Instance Connect_eq_dec : EqDecision Connect.
Proof. solve_decision. Defined.

Inductive ConnectReturnCode :=
| Accepted
| RefusedProtocolVersion
| RefusedIdentifierRejected
| ServerUnavailable
| BadUsernamePassword
| NotAuthorized.
#[global] Instance ConnectReturnCode_eq_dec : EqDecision ConnectReturnCode.
Proof. solve_decision. Defined.

Record Connack := { ca_session_present : bool; ca_code : ConnectReturnCode }.
#[global] Instance Connack_eq_dec : EqDecision Connack.
Proof. solve_decision. Defined.

Record SubscribeTopic := { st_topic_path : string; st_qos : QoS }.
#[global] Instance SubscribeTopic_eq_dec : EqDecision SubscribeTopic.
Proof. solve_decision. Defined.

(** mqttrs holds the topics of a SUBSCRIBE in a vector of capacity five. *)
Record Subscribe := { sub_pid : Pid; sub_topics : list SubscribeTopic }.
#[global] Instance Subscribe_eq_dec : EqDecision Subscribe.
Proof. solve_decision. Defined.

Inductive SubscribeReturnCodes := SrcSuccess (q : QoS) | SrcFailure.
#[global] Instance SubscribeReturnCodes_eq_dec : EqDecision SubscribeReturnCodes.
Proof. solve_decision. Defined.

Record Suback := { sa_pid : Pid; sa_return_codes : list SubscribeReturnCodes }.
#[global] Instance Suback_eq_dec : EqDecision Suback.
Proof. solve_decision. Defined.

Record Unsubscribe := { un_pid : Pid; un_topics : list string }.
#[global] Instance Unsubscribe_eq_dec : EqDecision Unsubscribe.
Proof. solve_decision. Defined.

(** [OtherPacket] stands for the QoS 2 acknowledgements, which the broker never
    builds and only matches with a wildcard. *)
Inductive Packet :=
| PConnect (c : Connect)
| PConnack (c : Connack)
| PPublish (p : Publish)
| PPuback (pid : Pid)
| PSubscribe (s : Subscribe)
| PSuback (s : Suback)
| PUnsubscribe (u : Unsubscribe)
| PUnsuback (pid : Pid)
| PPingreq
| PPingresp
| PDisconnect
| OtherPacket (header : Z) (pid : Pid).
#[global] Instance Packet_eq_dec : EqDecision Packet.
Proof. solve_decision. Defined.

(** What the types of a decoded packet guarantee: the keep-alive is a [u16], a
    packet identifier a non-zero one, a SUBSCRIBE has at most five topics. *)
Definition packet_wf (p : Packet) : Prop :=
  match p with
  | PConnect c => is_u16 (cn_keep_alive c)
  | PPuback pid => 1 ≤ pid ≤ U16_MAX
  | PSubscribe s => (length (sub_topics s) ≤ 5)%nat
  | _ => True
  end.
#[global] Instance packet_wf_dec p : Decision (packet_wf p).
Proof. destruct p; unfold packet_wf, is_u16; apply _. Defined.

(** ** mqttrs: the codec *)
Class Mqttrs := {
  mqtt_error : Type;
  InvalidHeader : mqtt_error;
  InvalidLength : mqtt_error;
  (** [encode_slice packet buf], with the buffer reduced to its length: the
      bytes written to its front. *)
  encode_slice (packet : Packet) (buf_len : nat) : result mqtt_error (list Z);
  (** [decode_slice bytes]: [Ok None] asks for more bytes. *)
  decode_slice (bytes : list Z) : result mqtt_error (option Packet);
  (** [Pid::try_from], [Pid::new] and [Pid + u16]. *)
  pid_try_from (n : Z) : option Pid;
  pid_new : Pid;
  pid_add (p : Pid) (n : Z) : Pid;
  (** What is written fits the buffer. *)
  encode_slice_fits p n bs : encode_slice p n = Ok bs → (length bs ≤ n)%nat;
  (** A packet that fits is encoded the same way in every larger buffer. *)
  encode_slice_mono p n m bs :
    encode_slice p n = Ok bs → (length bs ≤ m)%nat → encode_slice p m = Ok bs;
  (** What is decoded has the types of [packet_wf]. *)
  decode_slice_wf bs p : decode_slice bs = Ok (Some p) → packet_wf p;
  (** Zero is not a packet identifier, every other [u16] is. *)
  pid_try_from_spec n :
    is_u16 n → pid_try_from n = if decide (n = 0) then None else Some n;
  pid_new_spec : pid_new = 1;
  (** Identifiers wrap around and skip zero. *)
  pid_add_one p : 1 ≤ p ≤ U16_MAX → pid_add p 1 = if decide (p = U16_MAX) then 1 else p + 1;
}.

(** ** embassy-sync: [Signal<_, ()>]

    A one-place notification: [signal] raises it, [reset] lowers it, and
    [wait] completes (and lowers it) once it is raised. *)
Class EmbassySignal := {
  Signal : Type;
  signal_new : Signal;
  signal_signal : Signal → Signal;
  signal_reset : Signal → Signal;
  signal_signaled : Signal → bool;
  signaled_new : signal_signaled signal_new = false;
  signaled_signal s : signal_signaled (signal_signal s) = true;
  signaled_reset s : signal_signaled (signal_reset s) = false;
}.

(** ** postcard

    The wire format of a type [T], restricted to the values [valid] the Rust
    type can hold (integers in range, vectors within their capacity). *)
Class Postcard (T : Type) (valid : T → Prop) := {
  (** [postcard::to_slice value buf], with the buffer reduced to its length. *)
  to_slice (value : T) (buf_len : nat) : option (list Z);
  (** [postcard::from_bytes bytes] *)
  from_bytes (bytes : list Z) : option T;
  (** What is written is bytes that fit the buffer. *)
  to_slice_bytes v n bs : to_slice v n = Some bs → (length bs ≤ n)%nat ∧ Forall is_u8 bs;
  (** What was serialised is deserialised to the same value. *)
  from_bytes_to_slice v n bs : valid v → to_slice v n = Some bs → from_bytes bs = Some v;
}.

(** ** sha2 *)
Class Sha2 := {
  (** The digest of one [update] with the whole input. *)
  sha256 (bytes : list Z) : list Z;
  sha256_length bs : length (sha256 bs) = 32%nat;
  sha256_bytes bs : Forall is_u8 (sha256 bs);
}.
