(* ===== verification/Keyed.v ===== *)
(** * Keyed: vectors with one element per key

    The broker keeps subscriptions and retained messages in vectors that are
    searched linearly and hold at most one element per key.  Such a vector
    stands for a finite map; these lemmas say how the three updates the
    sources perform (delete, overwrite in place, append) act on the map. *)

From stdpp Require Export gmap.
From S2P Require Import Prelude.

Section keyed.
Context {A B : Type} (key : A → string) (val : A → B).

Definition key_position (k : string) (l : list A) : option nat :=
  fst <$> list_find (λ e, key e = k) l.

Definition kmap (l : list A) : gmap string B := list_to_map ((λ e, (key e, val e)) <$> l).

Lemma kmap_keys (l : list A) : ((λ e, (key e, val e)) <$> l).*1 = key <$> l.
Proof. by rewrite <-list_fmap_compose. Qed.

Lemma kmap_Some l k v :
  NoDup (key <$> l) → kmap l !! k = Some v ↔ ∃ e, e ∈ l ∧ key e = k ∧ val e = v.
Proof.
  intros Hnd. unfold kmap. rewrite <-elem_of_list_to_map by (by rewrite kmap_keys).
  rewrite list_elem_of_fmap. naive_solver.
Qed.

Lemma kmap_None l k : kmap l !! k = None ↔ k ∉ (key <$> l).
Proof. unfold kmap. by rewrite <-not_elem_of_list_to_map, kmap_keys. Qed.

Lemma kmap_size l : NoDup (key <$> l) → size (kmap l) = length l.
Proof.
  induction l as [|e l IH]; [done|]. rewrite fmap_cons, NoDup_cons. intros [Hni Hnd].
  change (kmap (e :: l)) with (<[key e := val e]> (kmap l)).
  rewrite map_size_insert_None; [by rewrite IH|]. by apply kmap_None.
Qed.

(** Splitting the vector at the position of a key. *)
Lemma key_position_split k l i :
  key_position k l = Some i → ∃ l1 e l2, l = l1 ++ e :: l2 ∧ length l1 = i ∧ key e = k.
Proof.
  unfold key_position. intros ([j e] & (Hk & He & _)%list_find_Some & ->)%fmap_Some.
  exists (take j l), e, (drop (S j) l). split_and!; [by rewrite take_drop_middle| |done].
  apply length_take_le. apply lookup_lt_Some in Hk. simpl. lia.
Qed.

Lemma key_position_None k l : key_position k l = None → k ∉ (key <$> l).
Proof.
  unfold key_position. rewrite list_find_fst_None. intros Hall.
  rewrite list_elem_of_fmap. intros (e & -> & He).
  rewrite Forall_forall in Hall. by apply (Hall e).
Qed.

Lemma kmap_split l1 e l2 :
  NoDup (key <$> (l1 ++ e :: l2)) →
  kmap (l1 ++ e :: l2) = <[key e := val e]> (kmap (l1 ++ l2)) ∧
  kmap (l1 ++ l2) !! key e = None ∧ NoDup (key <$> (l1 ++ l2)).
Proof.
  intros Hnd. assert (key e ∉ (key <$> (l1 ++ l2)) ∧ NoDup (key <$> (l1 ++ l2))) as [Hni Hnd'].
  { rewrite fmap_app, fmap_cons, <-Permutation_middle, <-fmap_app in Hnd.
    by apply NoDup_cons in Hnd. }
  split_and!; [|by apply kmap_None|done].
  unfold kmap. rewrite !fmap_app, fmap_cons.
  rewrite (list_to_map_proper _ (((key e, val e)) :: ((λ e, (key e, val e)) <$> l1) ++
    ((λ e, (key e, val e)) <$> l2))); [done| |by rewrite Permutation_middle].
  rewrite fmap_app, fmap_cons, !kmap_keys. by rewrite fmap_app, fmap_cons in Hnd.
Qed.

(** The three updates. *)
Lemma kmap_delete_at l1 e l2 :
  NoDup (key <$> (l1 ++ e :: l2)) →
  kmap (l1 ++ l2) = delete (key e) (kmap (l1 ++ e :: l2)).
Proof. intros Hnd. destruct (kmap_split _ _ _ Hnd) as (-> & ? & _). by rewrite delete_insert_id. Qed.

Lemma kmap_replace_at l1 e e' l2 :
  NoDup (key <$> (l1 ++ e :: l2)) → key e' = key e →
  NoDup (key <$> (l1 ++ e' :: l2)) ∧
  kmap (l1 ++ e' :: l2) = <[key e := val e']> (kmap (l1 ++ e :: l2)).
Proof.
  intros Hnd He. assert (NoDup (key <$> (l1 ++ e' :: l2))) as Hnd'.
  { rewrite fmap_app, fmap_cons, He. by rewrite fmap_app, fmap_cons in Hnd. }
  split; [done|].
  destruct (kmap_split _ _ _ Hnd) as (-> & _), (kmap_split _ _ _ Hnd') as (-> & _).
  by rewrite He, insert_insert_eq.
Qed.

Lemma kmap_append l e :
  NoDup (key <$> l) → key e ∉ (key <$> l) →
  NoDup (key <$> (l ++ [e])) ∧ kmap (l ++ [e]) = <[key e := val e]> (kmap l).
Proof.
  intros Hnd Hni. assert (NoDup (key <$> (l ++ [e]))) as Hnd'.
  { rewrite fmap_app. apply NoDup_app. split_and!; [done| |apply NoDup_singleton].
    intros x Hx ->%list_elem_of_singleton. done. }
  split; [done|]. destruct (kmap_split _ _ _ Hnd') as (-> & _). by rewrite app_nil_r.
Qed.
End keyed.

Lemma alter_middle {A} (f : A → A) (l1 : list A) x l2 :
  alter f (length l1) (l1 ++ x :: l2) = l1 ++ f x :: l2.
Proof. induction l1; simpl; [done|by f_equal]. Qed.
