(* ===== verification/Reference.v ===== *)
(** * Reference: concrete instances of the external crates

    A list-based [heapless], a microsecond [embassy-time] and an MQTT 3.1.1
    codec, written from the public documentation of the crates and of the
    protocol.  No theorem about the broker depends on them: they show that
    the laws of [External.v] are consistent, and the witnesses evaluate the
    broker with them. *)

From S2P Require Import Prelude External.

#[global] Instance heapless_list : Heapless.
Proof.
  refine {|
    vec_push A cap v x := if decide (length v < cap)%nat then Some (v ++ [x]) else None;
    vec_from_slice A cap s := if decide (length s ≤ cap)%nat then Some s else None;
    deque_push_back A cap q x := if decide (length q < cap)%nat then Some (q ++ [x]) else None;
    string_try_from cap s := if decide (String.length s ≤ cap)%nat then Some s else None;
    vec_extend A cap v s := if decide (length v + length s ≤ cap)%nat then Some (v ++ s) else None;
    string_push cap s c :=
      if decide (String.length s < cap)%nat then Some (s +:+ String c EmptyString) else None;
  |}; reflexivity.
Defined.

(** A microsecond clock, the default tick rate of embassy-time. *)
#[global] Instance embassy_time_us : EmbassyTime.
Proof.
  refine {|
    TICK_HZ := 1000000;
    duration_from_secs s := s * 1000000;
    duration_from_millis ms := ms * 1000;
    duration_as_secs d := d / 1000000;
  |}; intros; lia.
Defined.

(** ** An MQTT 3.1.1 codec *)
Module RefCodec.

Inductive error := EHeader | ELength | EWriteZero.

Fixpoint varint (fuel : nat) (n : Z) : list Z :=
  match fuel with
  | O => []
  | S fuel => if decide (n < 128) then [n] else (n mod 128 + 128) :: varint fuel (n / 128)
  end.

Definition be16 (n : Z) : list Z := [n / 256; n mod 256].

Definition mstr (bs : list Z) : list Z := be16 (Z.of_nat (length bs)) ++ bs.

Definition qos_bits (q : QoS) : Z :=
  match q with AtMostOnce => 0 | AtLeastOnce => 1 | ExactlyOnce => 2 end.

Definition code_bits (c : ConnectReturnCode) : Z :=
  match c with
  | Accepted => 0 | RefusedProtocolVersion => 1 | RefusedIdentifierRejected => 2
  | ServerUnavailable => 3 | BadUsernamePassword => 4 | NotAuthorized => 5
  end.

Definition connect_body (c : Connect) : list Z :=
  mstr (as_bytes (match cn_protocol c with MQTT311 => "MQTT" | MQIsdp => "MQIsdp" end)) ++
  [match cn_protocol c with MQTT311 => 4 | MQIsdp => 3 end] ++
  [(if cn_username c then 128 else 0) + (if cn_password c then 64 else 0) +
   (match cn_last_will c with
    | Some w => (if lw_retain w then 32 else 0) + 8 * qos_bits (lw_qos w) + 4
    | None => 0 end) + (if cn_clean_session c then 2 else 0)] ++
  be16 (cn_keep_alive c) ++ mstr (as_bytes (cn_client_id c)) ++
  (match cn_last_will c with
   | Some w => mstr (as_bytes (lw_topic w)) ++ mstr (lw_message w) | None => [] end) ++
  (match cn_username c with Some u => mstr (as_bytes u) | None => [] end) ++
  (match cn_password c with Some p => mstr p | None => [] end).

(** First header byte and body of a packet. *)
Definition body (p : Packet) : Z * list Z :=
  match p with
  | PConnect c => (16, connect_body c)
  | PConnack c => (32, [if ca_session_present c then 1 else 0; code_bits (ca_code c)])
  | PPublish p =>
      (48 + (if pub_dup p then 8 else 0) + 2 * qos_bits (qospid_qos (pub_qospid p)) +
         (if pub_retain p then 1 else 0),
       mstr (as_bytes (pub_topic_name p)) ++
       match pub_qospid p with
       | QP_AtMostOnce => [] | QP_AtLeastOnce i | QP_ExactlyOnce i => be16 i end ++
       pub_payload p)
  | PPuback i => (64, be16 i)
  | PSubscribe s =>
      (130, be16 (sub_pid s) ++
        concat ((λ t, mstr (as_bytes (st_topic_path t)) ++ [qos_bits (st_qos t)]) <$> sub_topics s))
  | PSuback s =>
      (144, be16 (sa_pid s) ++
        ((λ r, match r with SrcSuccess q => qos_bits q | SrcFailure => 128 end)
           <$> sa_return_codes s))
  | PUnsubscribe u => (162, be16 (un_pid u) ++ concat ((λ t, mstr (as_bytes t)) <$> un_topics u))
  | PUnsuback i => (176, be16 i)
  | PPingreq => (192, [])
  | PPingresp => (208, [])
  | PDisconnect => (224, [])
  | OtherPacket h i => (h, be16 i)
  end.

Definition encode (p : Packet) (n : nat) : result error (list Z) :=
  let '(h, b) := body p in
  let bs := h :: varint 4 (Z.of_nat (length b)) ++ b in
  if decide (length bs ≤ n)%nat then Ok bs else Err EWriteZero.

Definition str_of_bytes (bs : list Z) : string :=
  String.string_of_list_ascii ((λ b, Ascii.ascii_of_N (Z.to_N b)) <$> bs).

Lemma str_of_bytes_as_bytes s : str_of_bytes (as_bytes s) = s.
Proof.
  unfold str_of_bytes, as_bytes. rewrite <-list_fmap_compose.
  rewrite (list_fmap_ext _ id), list_fmap_id, String.string_of_list_ascii_of_string; [done|].
  intros i c _. unfold byte_of_ascii. simpl. by rewrite N2Z.id, Ascii.ascii_N_embedding.
Qed.

(** A length-prefixed field and the rest of the input. *)
Definition take_field (bs : list Z) : option (list Z * list Z) :=
  match bs with
  | h :: l :: rest =>
      let n := Z.to_nat (h * 256 + l) in
      if decide (n ≤ length rest)%nat then Some (take n rest, drop n rest) else None
  | _ => None
  end.

Definition take_if (b : bool) (bs : list Z) : option (option (list Z) * list Z) :=
  if b then '(f, rest) ← take_field bs; Some (Some f, rest) else Some (None, bs).

Definition qos_of_bits (n : Z) : option QoS :=
  if decide (n = 0) then Some AtMostOnce else if decide (n = 1) then Some AtLeastOnce
  else if decide (n = 2) then Some ExactlyOnce else None.

Definition decode_connect (bs : list Z) : option Connect :=
  '(proto, bs) ← take_field bs;
  match bs with
  | _level :: flags :: k1 :: k2 :: bs =>
      '(cid, bs) ← take_field bs;
      '(wt, bs) ← take_if (Z.testbit flags 2) bs;
      '(wm, bs) ← take_if (Z.testbit flags 2) bs;
      '(user, bs) ← take_if (Z.testbit flags 7) bs;
      '(pass, bs) ← take_if (Z.testbit flags 6) bs;
      wq ← qos_of_bits (Z.land (Z.shiftr flags 3) 3);
      Some {| cn_protocol := if decide (proto = as_bytes "MQTT") then MQTT311 else MQIsdp;
              cn_keep_alive := k1 * 256 + k2;
              cn_client_id := str_of_bytes cid;
              cn_clean_session := Z.testbit flags 1;
              cn_last_will := match wt, wm with
                | Some t, Some m => Some {| lw_topic := str_of_bytes t; lw_message := m;
                    lw_qos := wq; lw_retain := Z.testbit flags 5 |}
                | _, _ => None end;
              cn_username := str_of_bytes <$> user; cn_password := pass |}
  | _ => None
  end.

Definition decode_publish (h : Z) (bs : list Z) : option Publish :=
  '(topic, bs) ← take_field bs;
  q ← qos_of_bits (Z.land (Z.shiftr h 1) 3);
  let mk qp payload := {| pub_dup := Z.testbit h 3; pub_qospid := qp;
    pub_retain := Z.testbit h 0; pub_topic_name := str_of_bytes topic; pub_payload := payload |} in
  match q, bs with
  | AtMostOnce, _ => Some (mk QP_AtMostOnce bs)
  | AtLeastOnce, i1 :: i2 :: bs => Some (mk (QP_AtLeastOnce (i1 * 256 + i2)) bs)
  | ExactlyOnce, i1 :: i2 :: bs => Some (mk (QP_ExactlyOnce (i1 * 256 + i2)) bs)
  | _, _ => None
  end.

Fixpoint decode_topics (fuel : nat) (bs : list Z) : option (list SubscribeTopic) :=
  match fuel, bs with
  | S fuel, _ :: _ =>
      '(t, bs) ← take_field bs;
      match bs with
      | q :: bs => q ← qos_of_bits q; rest ← decode_topics fuel bs;
          Some ({| st_topic_path := str_of_bytes t; st_qos := q |} :: rest)
      | [] => None
      end
  | O, _ :: _ => None
  | _, [] => Some []
  end.

Fixpoint decode_filters (fuel : nat) (bs : list Z) : option (list string) :=
  match fuel, bs with
  | S fuel, _ :: _ => '(t, bs) ← take_field bs; rest ← decode_filters fuel bs;
      Some (str_of_bytes t :: rest)
  | O, _ :: _ => None
  | _, [] => Some []
  end.

Definition code_of_bits (n : Z) : option ConnectReturnCode :=
  match n with
  | 0 => Some Accepted | 1 => Some RefusedProtocolVersion | 2 => Some RefusedIdentifierRejected
  | 3 => Some ServerUnavailable | 4 => Some BadUsernamePassword | 5 => Some NotAuthorized
  | _ => None
  end.

Definition decode_connack (bs : list Z) : option Connack :=
  match bs with
  | present :: code :: _ =>
      (λ c, {| ca_session_present := Z.testbit present 0; ca_code := c |}) <$> code_of_bits code
  | _ => None
  end.

Definition return_code_of_bits (n : Z) : option SubscribeReturnCodes :=
  if decide (n = 128) then Some SrcFailure else SrcSuccess <$> qos_of_bits n.

Fixpoint skip_varint (fuel : nat) (bs : list Z) : list Z :=
  match fuel, bs with
  | S fuel, b :: bs => if decide (b < 128) then bs else skip_varint fuel bs
  | _, _ => bs
  end.

Definition decode (bs : list Z) : result error (option Packet) :=
  match bs with
  | [] => Ok None
  | h :: bs =>
      let bs := skip_varint 4 bs in
      let pid k := match bs with i1 :: i2 :: rest => k (i1 * 256 + i2) rest | _ => None end in
      let p := match Z.shiftr h 4 with
        | 1 => PConnect <$> decode_connect bs
        | 2 => PConnack <$> decode_connack bs
        | 3 => PPublish <$> decode_publish h bs
        | 4 => pid (λ i _, Some (PPuback i))
        | 8 => pid (λ i rest, (λ ts, PSubscribe {| sub_pid := i; sub_topics := ts |})
                                <$> decode_topics 5 rest)
        | 9 => pid (λ i rest, (λ cs, PSuback {| sa_pid := i; sa_return_codes := cs |})
                                <$> mapM return_code_of_bits rest)
        | 10 => pid (λ i rest, (λ ts, PUnsubscribe {| un_pid := i; un_topics := ts |})
                                <$> decode_filters 5 rest)
        | 11 => pid (λ i _, Some (PUnsuback i))
        | 12 => Some PPingreq
        | 13 => Some PPingresp
        | 14 => Some PDisconnect
        | _ => pid (λ i _, Some (OtherPacket h i))
        end in
      match p with
      | Some p => if decide (packet_wf p) then Ok (Some p) else Err ELength
      | None => Err ELength
      end
  end.

End RefCodec.

#[global] Instance mqttrs_ref : Mqttrs.
Proof.
  refine {|
    mqtt_error := RefCodec.error;
    InvalidHeader := RefCodec.EHeader;
    InvalidLength := RefCodec.ELength;
    encode_slice := RefCodec.encode;
    decode_slice := RefCodec.decode;
    pid_try_from n := if decide (n = 0) then None else Some n;
    pid_new := 1;
    pid_add p n := if decide (p + n ≤ U16_MAX) then p + n else (p + n) mod U16_MAX;
  |}.
  - unfold RefCodec.encode. intros p n bs. destruct (RefCodec.body p).
    case_decide; intros; by simplify_eq.
  - unfold RefCodec.encode. intros p n m bs. destruct (RefCodec.body p).
    repeat case_decide; intros; simplify_eq; done.
  - unfold RefCodec.decode. intros [|h bs] p; [done|]. simpl.
    match goal with |- context [match ?x with Some _ => _ | None => _ end = _ → _] =>
      destruct x end; [|done].
    case_decide; [|done]. by intros [= <-].
  - done.
  - done.
  - intros p Hp. unfold U16_MAX in *. repeat case_decide; try lia.
    subst. reflexivity.
Defined.

Section examples.
Let topic := "devices/kitchen/temp".
Let pub := PPublish {| pub_dup := false; pub_qospid := QP_AtLeastOnce 7;
  pub_retain := true; pub_topic_name := topic; pub_payload := as_bytes "hello" |}.

Example ref_publish_round_trip :
  (bs ← encode_slice pub 192; decode_slice bs) = Ok (Some pub).
Proof. reflexivity. Qed.
End examples.

(** ** A signal is a flag *)
#[global] Instance signal_bool : EmbassySignal.
Proof.
  refine {| Signal := bool; signal_new := false; signal_signal _ := true;
    signal_reset _ := false; signal_signaled b := b |}; done.
Defined.
