(* ===== verification/Slot.v ===== *)
(** * Slot: the explicitly tagged storage cell of [slot.rs]

    A [Slot<T>] is an occupancy flag next to a [MaybeUninit<T>].  Reading the
    cell while it is uninitialised is undefined behaviour, so the model keeps
    that outcome apart ([Uninit]).  The main result is a simulation: every
    sequence of operations, started from [EMPTY] or from zero-filled memory,
    answers exactly what an [Option<T>] answers and never reads uninitialised
    memory.  The other components use [option] for their slots on the strength
    of that theorem. *)

From S2P Require Import Prelude.

(** The result of an access to a [MaybeUninit]. *)
Inductive access (A : Type) := Val (a : A) | Uninit.
Arguments Val {A} a.
Arguments Uninit {A}.

Module Slot.

(** [state] is [None] while the [MaybeUninit] holds no value. *)
Record Slot (T : Type) := mkSlot { occupied : bool; state : option T }.
Arguments mkSlot {T} _ _.
Arguments occupied {T} _.
Arguments state {T} _.

Section ops.
Context {T : Type}.
Implicit Types s : Slot T.

Definition EMPTY : Slot T := {| occupied := false; state := None |}.

(** [MaybeUninit::assume_init_ref] / [assume_init_read]. *)
Definition assume_init (m : option T) : access T :=
  match m with Some v => Val v | None => Uninit end.

Definition is_some s : bool := occupied s.
Definition is_none s : bool := negb (occupied s).

Definition as_ref s : access (option T) :=
  if occupied s then
    match assume_init (state s) with Val v => Val (Some v) | Uninit => Uninit end
  else Val None.

(** [replace]: the old value, and the slot after the write. *)
Definition replace s (value : T) : access (option T) * Slot T :=
  let old :=
    if occupied s then
      match assume_init (state s) with Val v => Val (Some v) | Uninit => Uninit end
    else Val None in
  (old, {| occupied := true; state := Some value |}).

(** [take] clears the flag; the bits of the value stay where they were. *)
Definition take s : access (option T) * Slot T :=
  if occupied s then
    (match assume_init (state s) with Val v => Val (Some v) | Uninit => Uninit end,
     {| occupied := false; state := state s |})
  else (Val None, s).

(** [Drop]: the value that is dropped in place, if any. *)
Definition drop s : access (option T) :=
  if occupied s then
    match assume_init (state s) with Val v => Val (Some v) | Uninit => Uninit end
  else Val None.

Definition clone s : access (Slot T) :=
  match as_ref s with
  | Val (Some v) => Val (snd (replace EMPTY v))
  | Val None => Val EMPTY
  | Uninit => Uninit
  end.

Definition eq `{EqDecision T} (s1 s2 : Slot T) : access bool :=
  match as_ref s1, as_ref s2 with
  | Val a, Val b => Val (bool_decide (a = b))
  | _, _ => Uninit
  end.

(** The invariant of the safety comments: an occupied slot was written. *)
Definition slot_wf s : Prop := occupied s = true → is_Some (state s).

(** The [Option] a slot stands for. *)
Definition to_option s : option T := if occupied s then state s else None.

Lemma slot_wf_cases s :
  slot_wf s → (occupied s = false ∧ to_option s = None)
            ∨ (∃ v, s = {| occupied := true; state := Some v |} ∧ to_option s = Some v).
Proof.
  destruct s as [[] [v|]]; unfold slot_wf, to_option; simpl; intros Hwf; eauto.
  by destruct (Hwf eq_refl).
Qed.
End ops.

(** ** Operation sequences *)
Inductive op (T : Type) :=
| OpIsSome
| OpIsNone
| OpAsRef
| OpReplace (v : T)
| OpTake
| OpClone.
Arguments OpIsSome {T}.
Arguments OpIsNone {T}.
Arguments OpAsRef {T}.
Arguments OpReplace {T} v.
Arguments OpTake {T}.
Arguments OpClone {T}.

(** What an operation answers. *)
Inductive answer (T : Type) := AnsBool (b : bool) | AnsOpt (o : option T).
Arguments AnsBool {T} b.
Arguments AnsOpt {T} o.

Section simulation.
Context {T : Type}.

Definition lift (a : access (option T)) : access (answer T) :=
  match a with Val o => Val (AnsOpt o) | Uninit => Uninit end.

(** One operation on a slot; [OpClone] continues with the clone. *)
Definition step (s : Slot T) (o : op T) : access (answer T) * Slot T :=
  match o with
  | OpIsSome => (Val (AnsBool (is_some s)), s)
  | OpIsNone => (Val (AnsBool (is_none s)), s)
  | OpAsRef => (lift (as_ref s), s)
  | OpReplace v => let '(old, s') := replace s v in (lift old, s')
  | OpTake => let '(old, s') := take s in (lift old, s')
  | OpClone => match clone s with
      | Val s' => (lift (as_ref s'), s')
      | Uninit => (Uninit, s)
      end
  end.

(** The same operation on an [Option<T>]. *)
Definition ostep (x : option T) (o : op T) : answer T * option T :=
  match o with
  | OpIsSome => (AnsBool (bool_decide (is_Some x)), x)
  | OpIsNone => (AnsBool (negb (bool_decide (is_Some x))), x)
  | OpAsRef => (AnsOpt x, x)
  | OpReplace v => (AnsOpt x, Some v)
  | OpTake => (AnsOpt x, None)
  | OpClone => (AnsOpt x, x)
  end.

Fixpoint run (s : Slot T) (os : list (op T)) : list (access (answer T)) :=
  match os with
  | [] => []
  | o :: os => let '(a, s') := step s o in a :: run s' os
  end.

Fixpoint orun (x : option T) (os : list (op T)) : list (answer T) :=
  match os with
  | [] => []
  | o :: os => let '(a, x') := ostep x o in a :: orun x' os
  end.

(** One operation is simulated and keeps the invariant. *)
Lemma step_simulates (s : Slot T) o :
  slot_wf s →
  let '(a, s') := step s o in
  let '(b, x') := ostep (to_option s) o in
  a = Val b ∧ slot_wf s' ∧ to_option s' = x'.
Proof.
  intros [[Hocc Hopt]|[v [-> Hopt]]]%slot_wf_cases; rewrite Hopt;
    destruct o; simpl;
    unfold is_some, is_none, as_ref, replace, take, clone, as_ref, to_option, slot_wf in *;
    rewrite ?Hocc; simpl; rewrite ?Hocc; simpl; eauto 10;
    try (split_and!; eauto; intros; by rewrite Hocc in *).
Qed.

Lemma run_simulates (s : Slot T) os :
  slot_wf s → run s os = Val <$> orun (to_option s) os.
Proof.
  revert s. induction os as [|o os IH]; intros s Hwf; [done|].
  pose proof (step_simulates s o Hwf) as Hstep. simpl.
  destruct (step s o) as [a s'], (ostep (to_option s) o) as [b x'].
  destruct Hstep as (-> & Hwf' & <-). simpl. by rewrite IH.
Qed.

(** Started from zero-filled memory, whatever bytes the value part
    happens to hold, any sequence of slot operations answers what the same
    sequence answers on [None], and no operation reads an uninitialised
    value. *)
Lemma zeroed_slot_refines_option (garbage : option T) (os : list (op T)) :
  run {| occupied := false; state := garbage |} os = Val <$> orun None os.
Proof. apply run_simulates. by intros. Qed.

(** Dropping a slot after any such sequence drops exactly the value the
    [Option] holds. *)
Lemma drop_wf (s : Slot T) : slot_wf s → drop s = Val (to_option s).
Proof.
  intros [[Hocc Hopt]|[v [-> Hopt]]]%slot_wf_cases; unfold drop; rewrite ?Hocc, Hopt; done.
Qed.

Lemma eq_wf `{EqDecision T} (s1 s2 : Slot T) :
  slot_wf s1 → slot_wf s2 →
  eq s1 s2 = Val (bool_decide (to_option s1 = to_option s2)).
Proof.
  intros [[Ho1 E1]|[v1 [-> E1]]]%slot_wf_cases [[Ho2 E2]|[v2 [-> E2]]]%slot_wf_cases;
    unfold eq, as_ref; rewrite ?Ho1, ?Ho2, E1, E2; done.
Qed.
End simulation.

End Slot.
