(* ===== verification/Transport.v ===== *)
(** * Transport: the byte streams under the broker ([transport/mod.rs],
    [transport/tcp.rs], [transport/tls.rs], [session/notify.rs])

    [Transport] is the trait of [transport/mod.rs] as a class; the TCP and the
    TLS transport are instances over an abstract socket and an abstract TLS
    session.  The clients of the trait ([Frame.v], [Connection.v]) are proved
    against the class.  [write_all] shows that both [write] loops hand over
    every byte exactly once and in order.  [Link] and [Pipe] say what a working
    connection is; the adapters turn a [Pipe] into a [Link]. *)

From S2P Require Import Prelude External.

(** ** The trait

    [read] with a buffer of [n] bytes gives the bytes placed at its front
    (none at end of stream); it is [None] when the future has not completed by
    the time its owner drops it.  Writes and [close] run to completion. *)
Class Transport (T E : Type) := {
  t_read : T → nat → option (result E (list Z)) * T;
  t_write : T → list Z → result E unit * T;
  t_close : T → T;
  t_read_fits t n bs t' : t_read t n = (Some (Ok bs), t') → (length bs ≤ n)%nat;
}.

(** ** Working connections

    [link t inb out]: on [t] the bytes [inb] are waiting to be read and the
    bytes [out] have been written.  Reads make progress in pieces of any size
    while something is waiting; writes succeed.  Nothing is said of a read when
    nothing is waiting. *)
Class Link `{Transport T E} (link : T → list Z → list Z → Prop) : Prop := {
  link_read t inb out n :
    link t inb out → inb ≠ [] → n ≠ 0%nat →
    ∃ k t', (1 ≤ k ≤ n)%nat ∧ (k ≤ length inb)%nat ∧
      t_read t n = (Some (Ok (take k inb)), t') ∧ link t' (drop k inb) out;
  link_write t inb out bs :
    link t inb out → ∃ t', t_write t bs = (Ok tt, t') ∧ link t' inb (out ++ bs);
}.

Module Mock.
(** ** The in-memory transport of the test suite *)
Record MockTransport := {
  rx_queue : list (list Z);
  tx_log : list (list Z);
  closed : bool;
}.

Definition new : MockTransport := {| rx_queue := []; tx_log := []; closed := false |}.

Definition feed (t : MockTransport) (data : list Z) : MockTransport :=
  {| rx_queue := rx_queue t ++ [data]; tx_log := tx_log t; closed := closed t |}.

Definition mock_read (t : MockTransport) (n : nat) : option (result unit (list Z)) * MockTransport :=
  match rx_queue t with
  | [] => (Some (Ok []), t)
  | chunk :: rest =>
      let read_len := Nat.min n (length chunk) in
      let queue := if decide (read_len < length chunk)%nat
                   then drop read_len chunk :: rest else rest in
      (Some (Ok (take read_len chunk)),
       {| rx_queue := queue; tx_log := tx_log t; closed := closed t |})
  end.

Definition mock_write (t : MockTransport) (buf : list Z) : result unit unit * MockTransport :=
  (Ok tt, {| rx_queue := rx_queue t; tx_log := tx_log t ++ [buf]; closed := closed t |}).

Definition mock_close (t : MockTransport) : MockTransport :=
  {| rx_queue := rx_queue t; tx_log := tx_log t; closed := true |}.

#[global] Instance mock_transport : Transport MockTransport unit.
Proof.
  refine {| t_read := mock_read; t_write := mock_write; t_close := mock_close |}.
  intros t n bs t'. unfold mock_read. destruct (rx_queue t); intros; simplify_eq; simpl; [lia|].
  rewrite length_take. lia.
Defined.

(** The queue holds [inb], cut into non-empty chunks in some way. *)
Definition stream (t : MockTransport) (inb out : list Z) : Prop :=
  Forall (λ c, c ≠ []) (rx_queue t) ∧ concat (rx_queue t) = inb ∧ concat (tx_log t) = out.

#[global] Instance mock_link : Link stream.
Proof.
  split.
  - intros t inb out n (Hne & Hin & Hout) Hnn Hn. simpl. unfold mock_read.
    destruct (rx_queue t) as [|c q] eqn:Hq; simpl in Hin; [congruence|].
    apply Forall_cons in Hne as [Hc Hne]. assert (length c ≠ 0)%nat by (by destruct c).
    exists (Nat.min n (length c)). eexists. rewrite <-Hin.
    split_and!; [lia|lia|rewrite length_app; lia|by rewrite take_app_le by lia|].
    split_and!; simpl; [| |done].
    + case_decide; [|done]. constructor; [|done]. intros Hd%(f_equal length).
      rewrite length_drop in Hd. simpl in Hd. lia.
    + rewrite drop_app_le by lia. case_decide; simpl; [done|]. by rewrite drop_ge by lia.
  - intros t inb out bs (Hne & Hin & Hout). eexists. split; [done|]. split_and!; [done|done|].
    simpl. rewrite concat_app, Hout. simpl. by rewrite app_nil_r.
Qed.
End Mock.

(** ** Writing a buffer through a partial write

    [embassy_net]'s socket and the [TlsSession] trait both accept a prefix of
    what they are given.  [sent] is the ghost trace of the bytes accepted so
    far. *)
Class PartialWriter (K E : Type) := {
  pw_write : K → list Z → result E nat * K;
  sent : K → list Z;
  pw_write_ok s bs n s' :
    pw_write s bs = (Ok n, s') → (n ≤ length bs)%nat ∧ sent s' = sent s ++ take n bs;
  pw_write_err s bs e s' : pw_write s bs = (Err e, s') → sent s' = sent s;
}.

Module WriteLoop.
Inductive WriteFailure (E : Type) := Inner (e : E) | WriteZero.
Arguments Inner {E} e.
Arguments WriteZero {E}.

Section loop.
Context `{PartialWriter K E}.

(** [while written < buf.len()], on the bytes that remain.  Every round that
    does not return takes at least one byte, so [length buf] rounds are
    enough: see [write_all_unfold]. *)
Fixpoint write_loop (fuel : nat) (s : K) (buf : list Z) : result (WriteFailure E) unit * K :=
  match buf with
  | [] => (Ok tt, s)
  | _ :: _ =>
      match fuel with
      | O => (Err WriteZero, s)
      | S fuel =>
          match pw_write s buf with
          | (Err e, s) => (Err (Inner e), s)
          | (Ok count, s) =>
              if decide (count = 0%nat) then (Err WriteZero, s)
              else write_loop fuel s (drop count buf)
          end
      end
  end.

Definition write_all (s : K) (buf : list Z) : result (WriteFailure E) unit * K :=
  write_loop (length buf) s buf.

Lemma write_loop_fuel f1 f2 s buf :
  (length buf ≤ f1)%nat → (length buf ≤ f2)%nat → write_loop f1 s buf = write_loop f2 s buf.
Proof.
  revert f2 s buf. induction f1 as [|f1 IH]; intros f2 s [|b buf] H1 H2; destruct f2;
    simpl in *; try done; try lia.
  destruct (pw_write s (b :: buf)) as [[n|e] s']; [|done]. case_decide; [done|].
  apply IH; rewrite length_drop; simpl; lia.
Qed.

(** The loop without fuel. *)
Lemma write_all_unfold s buf :
  write_all s buf =
  if decide (buf = []) then (Ok tt, s)
  else match pw_write s buf with
       | (Err e, s) => (Err (Inner e), s)
       | (Ok count, s) => if decide (count = 0%nat) then (Err WriteZero, s)
                          else write_all s (drop count buf)
       end.
Proof.
  unfold write_all. destruct buf as [|b buf]; [done|]. rewrite decide_False by done.
  simpl length. cbn [write_loop]. destruct (pw_write s (b :: buf)) as [[n|e] s']; [|done].
  case_decide; [done|]. apply write_loop_fuel; rewrite length_drop; simpl; lia.
Qed.

(** Success hands over exactly [buf], failure a strict prefix of it. *)
Lemma write_loop_sent f s buf :
  (length buf ≤ f)%nat →
  let '(r, s') := write_loop f s buf in
  match r with
  | Ok _ => sent s' = sent s ++ buf
  | Err _ => ∃ n, (n < length buf)%nat ∧ sent s' = sent s ++ take n buf
  end.
Proof.
  revert s buf. induction f as [|f IH]; intros s [|b buf] Hle; simpl in Hle; try lia;
    try (simpl; by rewrite app_nil_r).
  cbn [write_loop]. destruct (pw_write s (b :: buf)) as [[n|e] s'] eqn:Hw.
  2:{ apply pw_write_err in Hw. exists 0%nat. simpl. rewrite app_nil_r. split; [lia|done]. }
  apply pw_write_ok in Hw as [Hn Hs]. case_decide as Hz.
  { subst. exists 0%nat. split; [simpl; lia|done]. }
  specialize (IH s' (drop n (b :: buf))). rewrite length_drop in IH. simpl length in *.
  specialize (IH ltac:(lia)). destruct (write_loop f s' _) as [[u|e] s''].
  - by rewrite IH, Hs, <-app_assoc, take_drop.
  - destruct IH as (m & Hm & ->). exists (n + m)%nat.
    simpl in *. split; [lia|]. rewrite Hs, <-app_assoc. f_equal. apply take_take_drop.
Qed.

Lemma write_all_sent s buf :
  let '(r, s') := write_all s buf in
  match r with
  | Ok _ => sent s' = sent s ++ buf
  | Err _ => ∃ n, (n < length buf)%nat ∧ sent s' = sent s ++ take n buf
  end.
Proof. by apply write_loop_sent. Qed.
End loop.
End WriteLoop.

(** ** Working connections below the adapters

    The same for a socket or a TLS session, whose writes take a non-empty
    prefix of what they are given. *)
Class Pipe `{PartialWriter K E} (rd : K → nat → option (result E (list Z)) * K)
  (wire : K → list Z → list Z → Prop) : Prop := {
  pipe_read k inb out n :
    wire k inb out → inb ≠ [] → n ≠ 0%nat →
    ∃ m k', (1 ≤ m ≤ n)%nat ∧ (m ≤ length inb)%nat ∧
      rd k n = (Some (Ok (take m inb)), k') ∧ wire k' (drop m inb) out;
  pipe_write k inb out bs :
    wire k inb out → bs ≠ [] →
    ∃ m k', (1 ≤ m ≤ length bs)%nat ∧ pw_write k bs = (Ok m, k') ∧ wire k' inb (out ++ take m bs);
}.

Lemma pipe_write_all `{Pipe K E rd wire} k inb out bs :
  wire k inb out → ∃ k', WriteLoop.write_all k bs = (Ok tt, k') ∧ wire k' inb (out ++ bs).
Proof.
  remember (length bs) as n eqn:Hn. revert k out bs Hn.
  induction (lt_wf n) as [n _ IH]. intros k out bs -> Hk. rewrite WriteLoop.write_all_unfold.
  case_decide as Hbs; [subst; exists k; by rewrite app_nil_r|].
  destruct (pipe_write k inb out bs Hk Hbs) as (m & k1 & Hm & -> & Hk1).
  rewrite decide_False by lia.
  destruct (IH (length (drop m bs)) ltac:(rewrite length_drop; lia) k1 (out ++ take m bs) _ eq_refl Hk1)
    as (k2 & -> & Hk2). exists k2. by rewrite <-app_assoc, take_drop in Hk2.
Qed.

(** ** TCP *)
Class TcpSocket (K E : Type) := {
  #[global] tcp_writer :: PartialWriter K E;
  sock_read : K → nat → option (result E (list Z)) * K;
  sock_close : K → K;
  sock_read_fits k n bs k' : sock_read k n = (Some (Ok bs), k') → (length bs ≤ n)%nat;
}.

Module Tcp.
Inductive TcpTransportError (E : Type) := Socket (e : E) | WriteZero.
Arguments Socket {E} e.
Arguments WriteZero {E}.

Record TcpTransport (K : Type) := { socket : K }.
Arguments socket {K} t : rename.
Arguments Build_TcpTransport {K} socket.

(** [From<TcpError>] and the zero-length write of the loop. *)
Definition tcp_error {E} (f : WriteLoop.WriteFailure E) : TcpTransportError E :=
  match f with WriteLoop.Inner e => Socket e | WriteLoop.WriteZero => WriteZero end.

Section tcp.
Context `{TcpSocket K E}.

Definition tcpt_read (t : TcpTransport K) (n : nat)
  : option (result (TcpTransportError E) (list Z)) * TcpTransport K :=
  let '(r, k) := sock_read (socket t) n in
  (map_err Socket <$> r, {| socket := k |}).

Definition tcpt_write (t : TcpTransport K) (buf : list Z)
  : result (TcpTransportError E) unit * TcpTransport K :=
  let '(r, k) := WriteLoop.write_all (socket t) buf in
  (map_err tcp_error r, {| socket := k |}).

Definition tcpt_close (t : TcpTransport K) : TcpTransport K := {| socket := sock_close (socket t) |}.

#[global] Instance tcp_transport : Transport (TcpTransport K) (TcpTransportError E).
Proof.
  refine {| t_read := tcpt_read; t_write := tcpt_write; t_close := tcpt_close |}.
  intros t n bs t'. unfold tcpt_read. destruct (sock_read (socket t) n) as [[[r|e]|] k] eqn:Hr;
    simpl; intros; simplify_eq. by eapply sock_read_fits.
Defined.

Definition tcp_link (wire : K → list Z → list Z → Prop) (t : TcpTransport K) : list Z → list Z → Prop :=
  wire (socket t).

#[global] Instance tcp_is_link `{!Pipe sock_read wire} : Link (tcp_link wire).
Proof.
  split.
  - intros t inb out n Ht Hin Hn. destruct (pipe_read (wire := wire) _ inb out n Ht Hin Hn) as (m & k' & ? & ? & Hr & ?).
    exists m, {| socket := k' |}. split_and!; try done; try lia. simpl. unfold tcpt_read. by rewrite Hr.
  - intros t inb out bs Ht. destruct (pipe_write_all (wire := wire) _ inb out bs Ht) as (k' & Hw & ?).
    exists {| socket := k' |}. split; [|done]. simpl. unfold tcpt_write. by rewrite Hw.
Qed.
End tcp.
End Tcp.

(** ** TLS: the session trait of [transport/tls.rs] and its adapter *)
Class TlsSession (K E : Type) := {
  #[global] tls_writer :: PartialWriter K E;
  tls_accept : K → option (result E unit) * K;
  tls_read : K → nat → option (result E (list Z)) * K;
  tls_flush : K → result E unit * K;
  tls_close : K → K;
  tls_read_fits k n bs k' : tls_read k n = (Some (Ok bs), k') → (length bs ≤ n)%nat;
  (** Flushing pushes buffered data out; it accepts no new data. *)
  tls_flush_sent k : sent (tls_flush k).2 = sent k;
}.

Module Tls.
Inductive TlsTransportError (E : Type) := TlsErr (e : E) | WriteZero.
Arguments TlsErr {E} e.
Arguments WriteZero {E}.

Record TlsTransport (K : Type) := { session : K }.
Arguments session {K} t : rename.
Arguments Build_TlsTransport {K} session.

Definition tls_error {E} (f : WriteLoop.WriteFailure E) : TlsTransportError E :=
  match f with WriteLoop.Inner e => TlsErr e | WriteLoop.WriteZero => WriteZero end.

Section tls.
Context `{TlsSession K E}.

Definition accept (t : TlsTransport K) : option (result E unit) * TlsTransport K :=
  let '(r, k) := tls_accept (session t) in (r, {| session := k |}).

Definition tlst_read (t : TlsTransport K) (n : nat)
  : option (result (TlsTransportError E) (list Z)) * TlsTransport K :=
  let '(r, k) := tls_read (session t) n in
  (map_err TlsErr <$> r, {| session := k |}).

(** All of [buf], then one flush. *)
Definition tlst_write (t : TlsTransport K) (buf : list Z)
  : result (TlsTransportError E) unit * TlsTransport K :=
  match WriteLoop.write_all (session t) buf with
  | (Err f, k) => (Err (tls_error f), {| session := k |})
  | (Ok _, k) => let '(r, k) := tls_flush k in (map_err TlsErr r, {| session := k |})
  end.

Definition tlst_close (t : TlsTransport K) : TlsTransport K := {| session := tls_close (session t) |}.

#[global] Instance tls_transport : Transport (TlsTransport K) (TlsTransportError E).
Proof.
  refine {| t_read := tlst_read; t_write := tlst_write; t_close := tlst_close |}.
  intros t n bs t'. unfold tlst_read. destruct (tls_read (session t) n) as [[[r|e]|] k] eqn:Hr;
    simpl; intros; simplify_eq. by eapply tls_read_fits.
Defined.

Definition tls_link (wire : K → list Z → list Z → Prop) (t : TlsTransport K) : list Z → list Z → Prop :=
  wire (session t).

(** Over a session whose flush succeeds. *)
Lemma tls_is_link (wire : K → list Z → list Z → Prop) :
  Pipe tls_read wire →
  (∀ k inb out, wire k inb out → ∃ k', tls_flush k = (Ok tt, k') ∧ wire k' inb out) →
  Link (tls_link wire).
Proof.
  intros Hp Hf. split.
  - intros t inb out n Ht Hin Hn. destruct (pipe_read (wire := wire) _ inb out n Ht Hin Hn) as (m & k' & ? & ? & Hr & ?).
    exists m, {| session := k' |}. split_and!; try done; try lia. simpl. unfold tlst_read. by rewrite Hr.
  - intros t inb out bs Ht. destruct (pipe_write_all (wire := wire) _ inb out bs Ht) as (k1 & Hw & Hk1).
    destruct (Hf _ _ _ Hk1) as (k2 & Hfl & ?). exists {| session := k2 |}. split; [|done].
    simpl. unfold tlst_write. by rewrite Hw, Hfl.
Qed.

(** A TLS write is complete and faithful.  Whatever partial amounts the
    session accepts, a successful [write] has handed exactly [buf] to the
    session, in order and without repetition, and a failed one a prefix of
    [buf]. *)
Lemma write_sends_exactly (t : TlsTransport K) (buf : list Z) :
  let '(r, t') := tlst_write t buf in
  match r with
  | Ok _ => sent (session t') = sent (session t) ++ buf
  | Err _ => ∃ n, sent (session t') = sent (session t) ++ take n buf
  end.
Proof.
  unfold tlst_write. pose proof (WriteLoop.write_all_sent (session t) buf) as Hs.
  destruct (WriteLoop.write_all (session t) buf) as [[u|f] k]; simpl in *; [|naive_solver].
  pose proof (tls_flush_sent k) as Hf. destruct (tls_flush k) as [[u'|e] k']; simpl in *.
  - congruence.
  - exists (length buf). rewrite firstn_all. congruence.
Qed.
End tls.
End Tls.

(** ** Outbox signals ([session/notify.rs]) *)
Module Notify.
Section notify.
Context `{EmbassySignal}.

Definition new_session_signals (N : nat) : list Signal := replicate N signal_new.

Definition signal_session (signals : list Signal) (session_id : nat) : list Signal :=
  match signals !! session_id with
  | Some s => <[session_id := signal_signal s]> signals
  | None => signals
  end.

Definition reset_session_signal (signals : list Signal) (session_id : nat) : list Signal :=
  match signals !! session_id with
  | Some s => <[session_id := signal_reset s]> signals
  | None => signals
  end.

Definition signaled (signals : list Signal) (session_id : nat) : bool :=
  match signals !! session_id with Some s => signal_signaled s | None => false end.

Lemma length_signal_session signals id :
  length (signal_session signals id) = length signals.
Proof. unfold signal_session. case_match; [apply length_insert|done]. Qed.

Lemma signaled_signal_session signals id j :
  (id < length signals)%nat →
  signaled (signal_session signals id) j = if decide (j = id) then true else signaled signals j.
Proof.
  intros [s Hs]%lookup_lt_is_Some_2. unfold signal_session, signaled. rewrite Hs.
  case_decide; subst.
  - rewrite list_lookup_insert_eq; [apply signaled_signal|by apply lookup_lt_Some in Hs].
  - by rewrite list_lookup_insert_ne.
Qed.

(** A notification is never lost by notifying somebody else. *)
Lemma signal_session_mono signals id j :
  signaled signals j = true → signaled (signal_session signals id) j = true.
Proof.
  destruct (decide (id < length signals)%nat) as [Hi|Hi]; intros Hj.
  - rewrite signaled_signal_session by done. by case_decide.
  - unfold signal_session. by rewrite lookup_ge_None_2 by lia.
Qed.

Lemma signaled_reset_session_signal signals id :
  signaled (reset_session_signal signals id) id = false.
Proof.
  unfold signaled, reset_session_signal. destruct (signals !! id) eqn:E.
  - rewrite list_lookup_insert_eq; [apply signaled_reset|by apply lookup_lt_Some in E].
  - by rewrite E.
Qed.
End notify.
End Notify.
