(* ===== verification/Frame.v ===== *)
(** * Frame: reading and writing MQTT control packets ([codec/frame.rs])

    [read_packet] over any [Transport], as a computation that threads the
    transport, can fail, can panic on an out-of-range slice, and can be
    dropped at an await.  The theorems: the variable-length header is decoded
    as the standard encodes it and never exceeds 268435455; a well-framed
    packet is read back whatever chunks the transport delivers, leaving the
    rest of the stream unread; a buffer of five bytes or more is never
    overrun, whatever the peer sends. *)

From S2P Require Import Prelude External Reference Transport.

Module Frame.

Inductive ReadError (M E : Type) :=
| Eof
| PacketTooLarge (packet_size buffer_size : Z)
| ReadTransport (e : E)
| ReadProtocol (m : M).
Arguments Eof {M E}.
Arguments PacketTooLarge {M E} packet_size buffer_size.
Arguments ReadTransport {M E} e.
Arguments ReadProtocol {M E} m.

Inductive WriteError (M E : Type) :=
| WriteTransport (e : E)
| WriteProtocol (m : M).
Arguments WriteTransport {M E} e.
Arguments WriteProtocol {M E} m.

Section ops.
Context `{Mqttrs} `{Transport T E}.

Local Abbreviation io := (prog T (ReadError mqtt_error E)).

(** ** [read_exact]

    [n] is the number of bytes still missing.  Every round that goes on has
    read at least one byte, so [n] rounds are enough: [read_exact_unfold]. *)
Fixpoint read_exact_loop (fuel n : nat) (acc : list Z) : io (list Z) := λ t,
  match n with
  | O => (Done (Ok acc), t)
  | S _ =>
      match fuel with
      | O => (Pending, t)
      | S fuel =>
          match t_read t n with
          | (None, t) => (Pending, t)
          | (Some (Err e), t) => (Done (Err (ReadTransport e)), t)
          | (Some (Ok bs), t) =>
              if decide (length bs = 0%nat) then (Done (Err Eof), t)
              else read_exact_loop fuel (n - length bs) (acc ++ bs) t
          end
      end
  end.

Definition read_exact (n : nat) : io (list Z) := read_exact_loop n n [].

(** ** The remaining-length field *)
Fixpoint decode_rl_loop (index : nat) (multiplier value : Z) (bytes : list Z)
  : result mqtt_error Z :=
  match bytes with
  | [] => Err InvalidHeader
  | byte :: bytes =>
      let value := value + Z.land byte 127 * multiplier in
      if decide (Z.land byte 128 = 0) then Ok value
      else
        let multiplier := multiplier * 128 in
        if decide (index = 3%nat ∨ 128 * 128 * 128 * 128 < multiplier) then Err InvalidHeader
        else decode_rl_loop (S index) multiplier value bytes
  end.

Definition decode_remaining_length (bytes : list Z) : result mqtt_error Z :=
  decode_rl_loop 0 1 0 bytes.

(** ** [read_packet]

    The header loop: [header] is [buf[..header_len]].  It starts with two
    bytes and stops at five, so three extensions are enough. *)
Section packet.
Context (MAX_PACKET_SIZE : nat).

Fixpoint read_header (fuel : nat) (header : list Z) : io (list Z) :=
  if decide (Z.land (List.last header 0) 128 ≠ 0) then
    if decide (5 ≤ length header)%nat then io_fail (ReadProtocol InvalidHeader)
    else match fuel with
         | O => λ t, (Pending, t)
         | S fuel =>
             if decide (length header + 1 ≤ MAX_PACKET_SIZE)%nat then
               io_bind (read_exact 1) (λ b, read_header fuel (header ++ b))
             else io_panic
         end
  else io_ret header.

Definition frame_answer (frame : list Z) : result (ReadError mqtt_error E) Packet :=
  match decode_slice frame with
  | Ok (Some packet) => Ok packet
  | Ok None => Err (ReadProtocol InvalidLength)
  | Err e => Err (ReadProtocol e)
  end.

Definition read_body (header : list Z) : io Packet :=
  match decode_remaining_length (drop 1 header) with
  | Err e => io_fail (ReadProtocol e)
  | Ok remaining_length =>
      let total_len := Z.of_nat (length header) + remaining_length in
      if decide (Z.of_nat MAX_PACKET_SIZE < total_len)
      then io_fail (PacketTooLarge total_len (Z.of_nat MAX_PACKET_SIZE))
      else io_bind (read_exact (Z.to_nat remaining_length))
             (λ body, io_lift (frame_answer (header ++ body)))
  end.

Definition read_packet : io Packet :=
  if decide (2 ≤ MAX_PACKET_SIZE)%nat then
    io_bind (read_exact 2) (λ h, io_bind (read_header 3 h) read_body)
  else io_panic.

Definition write_packet (t : T) (packet : Packet)
  : result (WriteError mqtt_error E) unit * T :=
  match encode_slice packet MAX_PACKET_SIZE with
  | Err e => (Err (WriteProtocol e), t)
  | Ok bytes => let '(r, t) := t_write t bytes in (map_err WriteTransport r, t)
  end.
End packet.
End ops.

(** ** Fuel *)
Section fuel.
Context `{Mqttrs} `{Transport T E}.

Lemma read_exact_fuel f1 f2 n acc (t : T) :
  (n ≤ f1)%nat → (n ≤ f2)%nat → read_exact_loop f1 n acc t = read_exact_loop f2 n acc t.
Proof.
  revert f2 n acc t. induction f1 as [|f1 IH]; intros f2 [|n] acc t H1' H2'; destruct f2;
    try done; try lia.
  cbn [read_exact_loop]. destruct (t_read t (S n)) as [[[bs|e]|] t']; try done.
  case_decide; [done|]. apply IH; lia.
Qed.

(** The loop without fuel. *)
Lemma read_exact_unfold n acc (t : T) :
  read_exact_loop n n acc t =
  if decide (n = 0%nat) then (Done (Ok acc), t)
  else match t_read t n with
       | (None, t) => (Pending, t)
       | (Some (Err e), t) => (Done (Err (ReadTransport e)), t)
       | (Some (Ok bs), t) =>
           if decide (length bs = 0%nat) then (Done (Err Eof), t)
           else read_exact_loop (n - length bs) (n - length bs) (acc ++ bs) t
       end.
Proof.
  destruct n as [|n]; [done|]. rewrite decide_False by done. cbn [read_exact_loop].
  destruct (t_read t (S n)) as [[[bs|e]|] t']; try done.
  case_decide; [done|]. apply read_exact_fuel; lia.
Qed.

(** What [read_exact] returns has the length asked for. *)
Lemma read_exact_loop_length f n acc (t t' : T) bs :
  read_exact_loop f n acc t = (Done (Ok bs), t') → length bs = (length acc + n)%nat.
Proof.
  revert n acc t. induction f as [|f IH]; intros [|n] acc t; cbn [read_exact_loop];
    intros Heq; simplify_eq; try lia.
  destruct (t_read t (S n)) as [[[cs|e]|] t1] eqn:Hr; try done.
  apply t_read_fits in Hr. case_decide; [done|]. apply IH in Heq. rewrite Heq, length_app. lia.
Qed.

Lemma read_exact_loop_no_panic f n acc (t : T) : (read_exact_loop f n acc t).1 ≠ Panic.
Proof.
  revert n acc t. induction f as [|f IH]; intros [|n] acc t; cbn [read_exact_loop]; try done.
  destruct (t_read t (S n)) as [[[cs|e]|] t1]; try done. case_decide; [done|]. apply IH.
Qed.

Lemma read_header_no_panic MAX f h (t : T) :
  (5 ≤ MAX)%nat → (read_header MAX f h t).1 ≠ Panic.
Proof.
  intros HM. revert h t. induction f as [|f IH]; intros h t; cbn [read_header];
    case_decide; try done; case_decide as Hl; try done.
  rewrite decide_True by lia. apply io_bind_no_panic; [apply read_exact_loop_no_panic|].
  intros b t' _. apply IH.
Qed.

(** More fuel than the three extensions changes nothing. *)
Lemma read_header_fuel MAX f1 f2 h (t : T) :
  (5 ≤ length h + f1)%nat → (5 ≤ length h + f2)%nat →
  read_header MAX f1 h t = read_header MAX f2 h t.
Proof.
  revert f2 h t. induction f1 as [|f1 IH]; intros f2 h t H1' H2'; destruct f2;
    cbn [read_header]; case_decide; try done; case_decide as Hl; try done; try lia.
  case_decide; [|done]. unfold io_bind.
  destruct (read_exact 1 t) as [[[b|e]| |] t'] eqn:Hr; try done.
  apply read_exact_loop_length in Hr. simpl in Hr. apply IH; rewrite length_app; lia.
Qed.

(** The reader never overruns a buffer of at least five bytes (the longest
    fixed header): no input, chunking, error or cancellation makes it index out
    of range. *)
Lemma read_packet_safe (MAX : nat) (t : T) :
  (5 ≤ MAX)%nat → (read_packet MAX t).1 ≠ Panic.
Proof.
  intros HM. unfold read_packet. rewrite decide_True by lia.
  apply io_bind_no_panic; [apply read_exact_loop_no_panic|]. intros h t1 _.
  apply io_bind_no_panic; [by apply read_header_no_panic|]. intros h' t2 _.
  unfold read_body. destruct (decode_remaining_length _) as [n|e]; [|done].
  case_decide; [done|]. apply io_bind_no_panic; [apply read_exact_loop_no_panic|done].
Qed.
End fuel.

(** With a smaller buffer a hostile header does panic: [buf[4..5]] is out of
    range for a four-byte buffer. *)
Example small_buffer_panics :
  (read_packet 4 (Mock.feed Mock.new [48; 255; 255; 255; 1])).1 = Panic.
Proof. reflexivity. Qed.

(** ** The remaining-length field *)
Lemma byte_bits b :
  0 ≤ b < 256 →
  Z.land b 127 = b mod 128 ∧ (Z.land b 128 = 0 ↔ b < 128).
Proof.
  intros Hb.
  assert (forallb (λ b, (Z.land b 127 =? b mod 128) && eqb (Z.land b 128 =? 0) (b <? 128))
            (seqZ 0 256) = true) as Hall by (vm_compute; reflexivity).
  rewrite forallb_forall in Hall. specialize (Hall b).
  rewrite <-list_elem_of_In, elem_of_seqZ in Hall.
  apply andb_prop in Hall as [H1 H2]; [|lia]. apply eqb_prop in H2. split; [lia|]. lia.
Qed.

Section remaining_length.
Context `{Mqttrs}.

Lemma land_127_bound b : 0 ≤ Z.land b 127 ≤ 127.
Proof.
  change 127 with (Z.ones 7). rewrite Z.land_ones by lia. change (2 ^ 7) with 128.
  pose proof (Z.mod_pos_bound b 128). simpl. change (Z.ones 7) with 127. lia.
Qed.

Lemma decode_rl_bound i mult v bytes n :
  mult = 128 ^ Z.of_nat i → (i ≤ 3)%nat → 0 ≤ v < mult →
  decode_rl_loop i mult v bytes = Ok n → 0 ≤ n ≤ 268435455.
Proof.
  revert i mult v. induction bytes as [|b bytes IH]; intros i mult v Hm Hi Hv; [done|].
  cbn [decode_rl_loop]. pose proof (land_127_bound b) as Hb.
  assert (128 ^ Z.of_nat i ≤ 128 ^ 3) by (apply Z.pow_le_mono_r; lia).
  change (128 ^ 3) with 2097152 in *.
  case_decide; [intros [= <-]; nia|]. case_decide as Hc; [done|].
  apply IH; [|lia|nia]. subst mult. rewrite Nat2Z.inj_succ, Z.pow_succ_r by lia. lia.
Qed.

(** A field whose bytes all carry the continuation bit but the last, at most
    four of them, is always accepted. *)
Lemma decode_rl_accepts i mult v bytes b :
  mult = 128 ^ Z.of_nat i → (i + length bytes ≤ 3)%nat →
  Forall (λ b, Z.land b 128 ≠ 0) bytes → Z.land b 128 = 0 →
  ∃ n, decode_rl_loop i mult v (bytes ++ [b]) = Ok n.
Proof.
  revert i mult v. induction bytes as [|c bytes IH]; intros i mult v Hm Hi Hall Hb.
  { simpl. rewrite decide_True by done. eauto. }
  apply Forall_cons in Hall as [Hc Hall]. cbn [app decode_rl_loop]. simpl in Hi.
  rewrite decide_False by done. rewrite decide_False.
  - apply IH; [|lia|done|done]. subst. rewrite Nat2Z.inj_succ, Z.pow_succ_r by lia. lia.
  - intros [->|Hlt]; [lia|].
    assert (128 ^ Z.of_nat i ≤ 128 ^ 2) by (apply Z.pow_le_mono_r; lia).
    change (128 ^ 2) with 16384 in *. lia.
Qed.

Lemma decode_rl_varint k i mult v n :
  mult = 128 ^ Z.of_nat i → (i + k = 4)%nat → (k ≠ 0)%nat → 0 ≤ n < 128 ^ Z.of_nat k →
  decode_rl_loop i mult v (RefCodec.varint k n) = Ok (v + n * mult).
Proof.
  revert i mult v n. induction k as [|k IH]; intros i mult v n Hm Hi Hk Hn; [done|].
  cbn [RefCodec.varint]. case_decide as Hlt.
  { cbn [decode_rl_loop]. destruct (byte_bits n) as [-> Hb]; [lia|].
    rewrite decide_True by tauto. rewrite Z.mod_small by lia. done. }
  pose proof (Z.mod_pos_bound n 128 ltac:(lia)). pose proof (Z.div_mod n 128 ltac:(lia)) as Hdm.
  cbn [decode_rl_loop]. destruct (byte_bits (n mod 128 + 128)) as [-> Hb]; [lia|].
  rewrite decide_False by (rewrite Hb; lia).
  rewrite Nat2Z.inj_succ, Z.pow_succ_r in Hn by lia.
  assert (k ≠ 0)%nat by (intros ->; simpl in Hn; lia).
  assert (128 ^ Z.of_nat i ≤ 128 ^ 2) by (apply Z.pow_le_mono_r; lia).
  change (128 ^ 2) with 16384 in *.
  rewrite decide_False by (intros [->|?]; lia).
  assert ((n mod 128 + 128) mod 128 = n mod 128) as ->.
  { rewrite <-(Z.mul_1_l 128) at 2. rewrite Z.mod_add by lia. apply Z.mod_mod. lia. }
  rewrite IH; [f_equal; nia| |lia|done|].
  - subst. rewrite Nat2Z.inj_succ, Z.pow_succ_r by lia. lia.
  - split; [apply Z.div_pos; lia|]. apply Z.div_lt_upper_bound; lia.
Qed.

Lemma decode_varint n :
  0 ≤ n ≤ 268435455 → decode_remaining_length (RefCodec.varint 4 n) = Ok n.
Proof.
  intros Hn. unfold decode_remaining_length.
  rewrite decode_rl_varint; [f_equal; lia|done|done|done|].
  change (128 ^ Z.of_nat 4) with 268435456. lia.
Qed.

(** The remaining-length decoder inverts the standard's encoder on every
    length a packet can have, and nothing it accepts exceeds that range, so the
    arithmetic on [usize] cannot overflow even on a 32-bit target. *)
Lemma remaining_length_round_trip :
  (∀ n, 0 ≤ n ≤ 268435455 → decode_remaining_length (RefCodec.varint 4 n) = Ok n) ∧
  (∀ bytes n, decode_remaining_length bytes = Ok n → 0 ≤ n ≤ 268435455).
Proof.
  split.
  - apply decode_varint.
  - intros bytes n. apply decode_rl_bound; [done|lia|lia].
Qed.
End remaining_length.

(** ** Reading from a working connection *)

(** The bytes of a remaining-length field: continuation bit on all but the
    last. *)
Fixpoint field_ok (l : list Z) : Prop :=
  match l with
  | [] => False
  | b :: l => match l with [] => Z.land b 128 = 0 | _ :: _ => Z.land b 128 ≠ 0 ∧ field_ok l end
  end.

Lemma varint_field k n :
  (k ≠ 0)%nat → 0 ≤ n < 128 ^ Z.of_nat k →
  field_ok (RefCodec.varint k n) ∧ (1 ≤ length (RefCodec.varint k n) ≤ k)%nat.
Proof.
  revert n. induction k as [|k IH]; intros n Hk Hn; [done|]. cbn [RefCodec.varint].
  case_decide as Hlt.
  { simpl. destruct (byte_bits n) as [_ ->]; [lia|]. lia. }
  rewrite Nat2Z.inj_succ, Z.pow_succ_r in Hn by lia.
  pose proof (Z.mod_pos_bound n 128 ltac:(lia)).
  destruct (IH (n / 128)) as [Hf Hl].
  - intros ->. simpl in Hn. lia.
  - split; [apply Z.div_pos; lia|]. apply Z.div_lt_upper_bound; lia.
  - destruct (RefCodec.varint k (n / 128)) as [|c l]; [done|]. split; [|simpl in *; lia].
    split; [|done]. destruct (byte_bits (n mod 128 + 128)) as [_ ->]; lia.
Qed.

(** A frame: any first byte, the length of the body as the standard encodes
    it, the body. *)
Definition frame_with (first : Z) (body : list Z) : list Z :=
  first :: RefCodec.varint 4 (Z.of_nat (length body)) ++ body.

Section link.
Context `{Mqttrs} `{Link T E link}.

Lemma read_exact_link m bs rest out t acc :
  length bs = m → link t (bs ++ rest) out →
  ∃ t', read_exact_loop m m acc t = (Done (Ok (acc ++ bs)), t') ∧ link t' rest out.
Proof.
  revert bs t acc. induction m as [m IH] using lt_wf_ind. intros bs t acc Hm Hst.
  rewrite read_exact_unfold. case_decide as Hz.
  { destruct bs; [|subst; done]. rewrite app_nil_r. eauto. }
  destruct (link_read t (bs ++ rest) out m Hst) as (k & t' & Hk & _ & Hr & Hst');
    [by destruct bs; simplify_eq/=|done|]. rewrite Hr.
  rewrite take_app_le by lia. rewrite drop_app_le in Hst' by lia.
  assert (length (take k bs) = k) as Hlen by (rewrite length_take; lia).
  rewrite decide_False by lia. rewrite Hlen.
  destruct (IH (m - k)%nat ltac:(lia) (drop k bs) t' (acc ++ take k bs)) as (t'' & Heq & Hst'').
  - rewrite length_drop. lia.
  - done.
  - exists t''. by rewrite Heq, <-app_assoc, take_drop.
Qed.

Lemma read_header_link MAX f p c more rest out t :
  field_ok (c :: more) → (length p + 1 + length more ≤ 5)%nat →
  (length p + 1 + length more ≤ MAX)%nat → (length more ≤ f)%nat →
  link t (more ++ rest) out →
  ∃ t', read_header MAX f (p ++ [c]) t = (Done (Ok (p ++ c :: more)), t')
        ∧ link t' rest out.
Proof.
  revert f p c t. induction more as [|d more IH]; intros f p c t Hok H5 HM Hf Hst.
  - exists t. simpl in Hok. destruct f; cbn [read_header]; rewrite last_last;
      rewrite decide_False by (by intros []); done.
  - destruct f as [|f]; [simpl in Hf; lia|]. cbn [read_header]. rewrite last_last.
    destruct Hok as [Hc Hok]. simpl in *. rewrite length_app. simpl.
    rewrite decide_True by done. rewrite decide_False, decide_True by lia.
    destruct (read_exact_link 1 [d] (more ++ rest) out t [] eq_refl Hst) as (t1 & He & Hst1).
    unfold io_bind. unfold read_exact. rewrite He. simpl.
    destruct (IH f (p ++ [c]) d t1) as (t2 & Heq & Hst2); try done; try lia.
    + rewrite length_app. simpl. lia.
    + rewrite length_app. simpl. lia.
    + exists t2. by rewrite Heq, <-app_assoc.
Qed.

Lemma read_packet_link (MAX : nat) (t : T) (first : Z) (body rest out : list Z) :
  Z.of_nat (length body) ≤ 268435455 → (length (frame_with first body) ≤ MAX)%nat →
  link t (frame_with first body ++ rest) out →
  ∃ t', read_packet MAX t = (Done (frame_answer (frame_with first body)), t') ∧ link t' rest out.
Proof.
  unfold frame_with. intros Hb HM Hst.
  destruct (varint_field 4 (Z.of_nat (length body))) as [Hok Hl]; [done| |].
  { change (128 ^ Z.of_nat 4) with 268435456. lia. }
  pose proof (decode_varint (Z.of_nat (length body)) ltac:(lia)) as Hd.
  destruct (RefCodec.varint 4 (Z.of_nat (length body))) as [|c more]; [done|].
  simpl in HM, Hl, Hst. rewrite length_app in HM. unfold read_packet. rewrite decide_True by lia.
  destruct (read_exact_link 2 [first; c] (more ++ body ++ rest) out t [] eq_refl)
    as (t1 & He1 & Hst1); [by rewrite <-app_assoc in Hst|].
  destruct (read_header_link MAX 3 [first] c more (body ++ rest) out t1)
    as (t2 & He2 & Hst2); simpl; try done; try lia.
  destruct (read_exact_link (length body) body rest out t2 [] eq_refl Hst2)
    as (t3 & He3 & Hst3).
  exists t3. split; [|done]. rewrite (io_bind_ok _ _ _ _ _ He1), (io_bind_ok _ _ _ _ _ He2).
  unfold read_body. cbn [drop app]. rewrite Hd. rewrite decide_False by (simpl; lia).
  rewrite Nat2Z.id. by rewrite (io_bind_ok _ _ _ _ _ He3).
Qed.

Lemma write_packet_link (MAX : nat) (t : T) packet inb out :
  link t inb out →
  ∃ t', write_packet MAX t packet =
          (match encode_slice packet MAX with Ok _ => Ok tt | Err e => Err (WriteProtocol e) end, t') ∧
        link t' inb (out ++ match encode_slice packet MAX with Ok bs => bs | Err _ => [] end).
Proof.
  intros Ht. unfold write_packet. destruct (encode_slice packet MAX) as [bs|e].
  - destruct (link_write t inb out bs Ht) as (t' & -> & ?). by exists t'.
  - exists t. by rewrite app_nil_r.
Qed.

(** C20: framing is independent of chunking.  If the bytes waiting on a working
    connection start with a frame (any first byte, the length of the body as
    the standard encodes it, the body) that fits the buffer, [read_packet]
    hands exactly that frame to the decoder and leaves exactly the bytes after
    it unread, in whatever pieces the connection delivers them. *)
Theorem read_packet_frames (MAX : nat) (t : T) (first : Z) (body rest out : list Z) :
  Z.of_nat (length body) ≤ 268435455 → (length (frame_with first body) ≤ MAX)%nat →
  link t (frame_with first body ++ rest) out →
  ∃ t', read_packet MAX t = (Done (frame_answer (frame_with first body)), t') ∧ link t' rest out.
Proof. apply read_packet_link. Qed.
End link.

Lemma read_packet_frames_witness :
  ∃ t', read_packet 16 {| Mock.rx_queue := [[48]; [3; 0; 1]; [97; 192; 0]]; Mock.tx_log := [];
                          Mock.closed := false |}
        = (Done (frame_answer [48; 3; 0; 1; 97]), t') ∧ Mock.stream t' [192; 0] [].
Proof.
  apply (read_packet_frames 16 {| Mock.rx_queue := [[48]; [3; 0; 1]; [97; 192; 0]];
    Mock.tx_log := []; Mock.closed := false |} 48 [0; 1; 97] [192; 0] []).
  - simpl; lia.
  - vm_compute. lia.
  - repeat split. repeat constructor; discriminate.
Defined.
End Frame.
