(* ===== verification/Topics.v ===== *)
(** * Topics: QoS ranks, topic levels and filter matching

    Models [qos.rs], [topics.rs], the matcher of [router/subscriptions.rs] and
    the filter validation of [handler/subscribe.rs].  The matcher is a loop
    over two level iterators; it is related to a declarative reading of MQTT
    filters, and the validation is shown to accept exactly the filters whose
    wildcards stand alone in their level with ['#'] only in the last one. *)

From S2P Require Import Prelude External.

Module Topics.

Open Scope string_scope.
Open Scope list_scope.
Open Scope Z_scope.

(** ** QoS ranks *)
Definition qos_rank (q : QoS) : Z :=
  match q with AtMostOnce => 0 | AtLeastOnce => 1 | ExactlyOnce => 2 end.

Definition max_qos (lhs rhs : QoS) : QoS :=
  if decide (qos_rank rhs ≤ qos_rank lhs) then lhs else rhs.

Definition min_qos (lhs rhs : QoS) : QoS :=
  if decide (qos_rank lhs ≤ qos_rank rhs) then lhs else rhs.

Lemma qos_rank_inj : Inj (=) (=) qos_rank.
Proof. intros [] []; done. Qed.

Lemma max_qos_rank a b : qos_rank (max_qos a b) = Z.max (qos_rank a) (qos_rank b).
Proof. unfold max_qos. case_decide; lia. Qed.

Lemma min_qos_rank a b : qos_rank (min_qos a b) = Z.min (qos_rank a) (qos_rank b).
Proof. unfold min_qos. case_decide; lia. Qed.

(** ** Topic levels: [str::split('/')] *)
Fixpoint split_levels (s : string) : list string :=
  match s with
  | EmptyString => [""]
  | String c s =>
      if decide (c = "/"%char) then "" :: split_levels s
      else match split_levels s with
           | l :: ls => String c l :: ls
           | [] => [String c ""]
           end
  end.

Fixpoint str_contains (c : Ascii.ascii) (s : string) : bool :=
  match s with
  | EmptyString => false
  | String d s => bool_decide (d = c) || str_contains c s
  end.

(** [str::find(c)]: byte offset of the first occurrence. *)
Fixpoint str_find (c : Ascii.ascii) (s : string) : option nat :=
  match s with
  | EmptyString => None
  | String d s => if decide (d = c) then Some O else S <$> str_find c s
  end.

Definition starts_with (c : Ascii.ascii) (s : string) : bool :=
  match s with String d _ => bool_decide (d = c) | EmptyString => false end.

(** ** The matcher *)
Definition contains_wildcards (filter : string) : bool :=
  str_contains "+" filter || str_contains "#" filter.

(** The [loop] over the two iterators, one arm per arm of its [match]. *)
Fixpoint match_levels (filter_levels topic_levels : list string) : bool :=
  match filter_levels, topic_levels with
  | f :: fs, ts =>
      if decide (f = "#") then true
      else match ts with
           | t :: ts =>
               if decide (f = "+" ∧ t ≠ "") then match_levels fs ts
               else if decide (f = t) then match_levels fs ts
               else false
           | [] => false
           end
  | [], [] => true
  | [], _ :: _ => false
  end.

Definition topic_matches (filter pub_topic : string) : bool :=
  if decide (filter = pub_topic) then true
  else if starts_with "$" pub_topic && contains_wildcards filter then false
  else match_levels (split_levels filter) (split_levels pub_topic).

(** ** Command and state topics *)
Abbreviation COMMAND_FILTER := "sb/+/device/+/set"%string.
Abbreviation STATE_FILTER := "sb/+/device/+/state"%string.

Definition is_command_topic (topic : string) : bool := topic_matches COMMAND_FILTER topic.
Definition is_state_topic (topic : string) : bool := topic_matches STATE_FILTER topic.

(** ** Filter validation ([is_valid_filter] of handler/subscribe.rs) *)
Definition plus_alone (level : string) : bool :=
  negb (str_contains "+" level && negb (bool_decide (level = "+"))).

Definition is_valid_filter (filter : string) : bool :=
  if decide (String.length filter = 0 ∨ 128 < String.length filter)%nat then false
  else if match str_find "#" filter with
          | Some hash_pos =>
              bool_decide (hash_pos ≠ String.length filter - 1)%nat
              || (bool_decide (0 < hash_pos)%nat
                  && bool_decide (String.get (hash_pos - 1) filter ≠ Some "/"%char))
          | None => false
          end then false
  else forallb plus_alone (split_levels filter).

Example topic_matches_tests :
  topic_matches "a/+/c" "a/b/c" = true ∧ topic_matches "a/+/c" "a//c" = false ∧
  topic_matches "a/#" "a" = true ∧ topic_matches "#" "$SYS/broker" = false ∧
  topic_matches "$SYS/broker" "$SYS/broker" = true ∧ topic_matches "+" "a/b" = false ∧
  is_valid_filter "a/#" = true ∧ is_valid_filter "a#" = false ∧ is_valid_filter "a/+b" = false.
Proof. by vm_compute. Qed.


#[local] Arguments String.append : simpl nomatch.

(** ** Levels and strings *)
Fixpoint join_levels (ls : list string) : string :=
  match ls with
  | [] => ""
  | [l] => l
  | l :: ls => l +:+ String "/" (join_levels ls)
  end.

Definition no_slash (l : string) : Prop := str_contains "/" l = false.

Lemma split_levels_cons s : ∃ l ls, split_levels s = l :: ls.
Proof. induction s as [|c s (l & ls & IH)]; simpl; [eauto|]. rewrite IH. case_decide; eauto. Qed.

Lemma join_split s : join_levels (split_levels s) = s.
Proof.
  induction s as [|c s IH]; [done|]. simpl.
  destruct (split_levels_cons s) as (l & ls & E). rewrite E in *.
  case_decide as Hc; subst; [done|]. by destruct ls.
Qed.

Lemma split_levels_no_slash s : Forall no_slash (split_levels s).
Proof.
  unfold no_slash. induction s as [|c s IH]; simpl; [by repeat constructor|].
  destruct (split_levels_cons s) as (l & ls & E). rewrite E in *.
  inversion IH; subst. case_decide as Hc; constructor; simpl; auto.
  by rewrite bool_decide_eq_false_2.
Qed.

Lemma split_app_slash l s :
  no_slash l → split_levels (l +:+ String "/" s) = l :: split_levels s.
Proof.
  unfold no_slash. induction l as [|c l IH]; simpl; [done|].
  intros [Hc Hl]%orb_false_iff. apply bool_decide_eq_false in Hc.
  by rewrite decide_False, IH.
Qed.

Lemma split_no_slash l : no_slash l → split_levels l = [l].
Proof.
  unfold no_slash. induction l as [|c l IH]; simpl; [done|].
  intros [Hc Hl]%orb_false_iff. apply bool_decide_eq_false in Hc.
  by rewrite decide_False, IH.
Qed.

Lemma split_join ls : ls ≠ [] → Forall no_slash ls → split_levels (join_levels ls) = ls.
Proof.
  intros Hne Hls. induction Hls as [|l ls Hl Hls IH]; [done|].
  destruct ls as [|l' ls]; [by apply split_no_slash|].
  change (join_levels (l :: l' :: ls)) with (l +:+ String "/" (join_levels (l' :: ls))).
  by rewrite split_app_slash, IH.
Qed.

(** ** The matcher against a declarative reading of filters *)

(** A filter level accepts a topic level. *)
Definition level_ok (f t : string) : Prop := f = t ∨ (f = "+" ∧ t ≠ "").

(** Either every level is accepted one for one, or the filter ends in ["#"]
    and the levels before it accept the first levels of the topic (all of
    them included: ["a/#"] matches ["a"]). *)
Definition filter_spec (fl tl : list string) : Prop :=
  Forall2 level_ok fl tl
  ∨ ∃ pre t1 t2, fl = pre ++ ["#"] ∧ tl = t1 ++ t2 ∧ Forall2 level_ok pre t1.

(** ["#"] occurs only as the last level. *)
Definition hash_last (fl : list string) : Prop :=
  ∀ pre post, fl = pre ++ "#" :: post → post = [].

Lemma hash_last_tail f fl : hash_last (f :: fl) → hash_last fl.
Proof. intros H pre post ->. by apply (H (f :: pre)). Qed.

Lemma match_levels_sound fl tl : hash_last fl → match_levels fl tl = true → filter_spec fl tl.
Proof.
  revert tl. induction fl as [|f fl IH]; intros tl Hlast Hm.
  { destruct tl; [left; constructor|done]. }
  simpl in Hm. case_decide as Hf.
  { subst. right. exists [], [], tl. rewrite (Hlast [] fl eq_refl).
    split_and!; [done|done|constructor]. }
  destruct tl as [|t tl]; [done|].
  assert (level_ok f t ∧ match_levels fl tl = true) as [Hok Hm'].
  { unfold level_ok. repeat case_decide; naive_solver. }
  destruct (IH tl (hash_last_tail _ _ Hlast) Hm') as [H2|(pre & t1 & t2 & -> & -> & H2)].
  - left. by constructor.
  - right. exists (f :: pre), (t :: t1), t2. split_and!; [done|done|by constructor].
Qed.

Lemma match_levels_complete fl tl : filter_spec fl tl → match_levels fl tl = true.
Proof.
  intros [H2|(pre & t1 & t2 & -> & -> & H2)];
    induction H2 as [|f t ? ? Hok H2 IH]; simpl; try done;
    destruct Hok as [->|[-> Hne]]; repeat case_decide; naive_solver.
Qed.

Lemma match_levels_spec fl tl :
  hash_last fl → (match_levels fl tl = true ↔ filter_spec fl tl).
Proof. split; auto using match_levels_sound, match_levels_complete. Qed.

(** ** Filter validation against levels *)

(** The level-wise reading of the MQTT rules for wildcards. *)
Definition wf_levels (ls : list string) : Prop :=
  Forall (λ l, str_contains "+" l = true → l = "+") ls ∧
  ∀ i l, ls !! i = Some l → str_contains "#" l = true → l = "#" ∧ S i = length ls.

Lemma append_nil_r s : s +:+ "" = s.
Proof. induction s; simpl; congruence. Qed.

Lemma length_append s1 s2 : String.length (s1 +:+ s2) = (String.length s1 + String.length s2)%nat.
Proof. induction s1; simpl; congruence. Qed.

Lemma contains_append c s1 s2 :
  str_contains c (s1 +:+ s2) = str_contains c s1 || str_contains c s2.
Proof. induction s1; simpl; [done|]. by rewrite IHs1, orb_assoc. Qed.

Lemma split_append a b ls x y ys :
  split_levels a = ls ++ [x] → split_levels b = y :: ys →
  split_levels (a +:+ b) = ls ++ (x +:+ y) :: ys.
Proof.
  revert ls x. induction a as [|c a IH]; intros ls x Ha Hb; simpl in *.
  { destruct ls as [|? ls]; simplify_eq/=; [by rewrite Hb|]. by destruct ls. }
  case_decide as Hc.
  - destruct ls as [|l ls]; simplify_eq/=; [|by rewrite (IH ls x)].
    destruct (split_levels_cons a) as (? & ? & ?); congruence.
  - destruct (split_levels_cons a) as (l0 & ls0 & E). rewrite E in Ha.
    destruct ls as [|l ls]; simplify_eq/=.
    + by rewrite (IH [] l0).
    + by rewrite (IH (l0 :: ls) x).
Qed.

Lemma split_snoc s : ∃ ls x, split_levels s = ls ++ [x].
Proof.
  destruct (exists_last (l := split_levels s)) as (ls & x & E); [|eauto].
  destruct (split_levels_cons s) as (? & ? & ->). done.
Qed.

Lemma split_lacks c s :
  c ≠ "/"%char → str_contains c s = false → Forall (λ l, str_contains c l = false) (split_levels s).
Proof.
  intros Hc. induction s as [|d s IH]; simpl; [by repeat constructor|].
  intros [Hd Hs]%orb_false_iff. specialize (IH Hs).
  destruct (split_levels_cons s) as (l & ls & E). rewrite E in *. inversion IH; subst.
  destruct (decide (d = "/"%char)); constructor; simpl; auto. by rewrite Hd.
Qed.

Lemma str_find_Some c s p :
  str_find c s = Some p →
  ∃ a b, s = a +:+ String c b ∧ String.length a = p ∧ str_contains c a = false.
Proof.
  revert p. induction s as [|d s IH]; intros p H; simpl in H; [done|]. case_decide; simplify_eq/=.
  - by exists "", s.
  - apply fmap_Some in H as (q & Hq & ->). destruct (IH q Hq) as (a & b & -> & <- & Ha).
    exists (String d a), b. simpl. by rewrite bool_decide_eq_false_2.
Qed.

Lemma str_find_None c s : str_find c s = None → str_contains c s = false.
Proof.
  induction s as [|d s IH]; simpl; [done|]. case_decide; [done|].
  intros Hn%fmap_None. by rewrite bool_decide_eq_false_2, IH.
Qed.

Lemma string_snoc_inv s : s = "" ∨ ∃ a c, s = a +:+ String c "".
Proof.
  induction s as [|d s [->|(a & c & ->)]]; [by left|right|right].
  - by exists "", d.
  - by exists (String d a), c.
Qed.

Lemma get_append_at a c b : String.get (String.length a) (a +:+ String c b) = Some c.
Proof. induction a; simpl; done. Qed.

(** The byte before the end of [a] is a slash exactly when [a] ends in an
    empty level. *)
Lemma last_level_empty a b ls x :
  split_levels a = ls ++ [x] →
  (x = "" ↔ String.length a = 0%nat
            ∨ String.get (String.length a - 1) (a +:+ b) = Some "/"%char).
Proof.
  intros Ha. destruct (string_snoc_inv a) as [->|(a' & c & ->)].
  { simpl in *. destruct ls as [|? [|]]; simplify_eq/=. split; auto. }
  rewrite length_append. simpl. rewrite Nat.add_sub.
  replace ((a' +:+ String c "") +:+ b) with (a' +:+ String c b)
    by (clear; induction a'; simpl; congruence).
  rewrite get_append_at.
  destruct (split_snoc a') as (ls' & x' & E').
  destruct (decide (c = "/"%char)) as [->|Hc].
  - rewrite (split_append a' "/" ls' x' "" [""] E' eq_refl) in Ha.
    rewrite append_nil_r in Ha. change ([x'; ""]) with ([x'] ++ [""]) in Ha.
    rewrite app_assoc in Ha. apply app_inj_tail in Ha as [_ <-]. naive_solver.
  - rewrite (split_append a' (String c "") ls' x' (String c "") [] E') in Ha
      by (simpl; by rewrite decide_False).
    apply app_inj_tail in Ha as [_ <-]. split; [by destruct x'|].
    intros [?|[=]]; [lia|done].
Qed.

Lemma wf_hash_levels ls x y0 ys :
  Forall (λ l, str_contains "#" l = false) (ls ++ [x]) →
  (∀ i l, (ls ++ (x +:+ String "#" y0) :: ys) !! i = Some l → str_contains "#" l = true →
     l = "#" ∧ S i = length (ls ++ (x +:+ String "#" y0) :: ys)) ↔
  x = "" ∧ y0 = "" ∧ ys = [].
Proof.
  intros [Hls Hx]%Forall_app. split.
  - intros H. destruct (H (length ls) (x +:+ String "#" y0)) as [Heq Hlen].
    { by rewrite list_lookup_middle. }
    { rewrite contains_append. simpl. by rewrite orb_true_r. }
    rewrite length_app in Hlen. simpl in Hlen. destruct ys; [|simpl in *; lia].
    destruct x as [|? x]; simplify_eq/=; [done|]. by destruct x.
  - intros (-> & -> & ->) i l Hi Hl. rewrite length_app. simpl.
    apply lookup_snoc_Some in Hi as [[Hi Hlk]|[-> <-]]; [|split; [done|lia]].
    rewrite Forall_lookup in Hls. by rewrite (Hls _ _ Hlk) in Hl.
Qed.

(** The ['#'] tests of the code, on the bytes, say the same as the level-wise
    rule. *)
Lemma hash_check_levels f :
  match str_find "#" f with
  | Some hash_pos =>
      bool_decide (hash_pos ≠ String.length f - 1)%nat
      || (bool_decide (0 < hash_pos)%nat
          && bool_decide (String.get (hash_pos - 1) f ≠ Some "/"%char))
  | None => false
  end = false ↔
  ∀ i l, split_levels f !! i = Some l → str_contains "#" l = true →
    l = "#" ∧ S i = length (split_levels f).
Proof.
  destruct (str_find "#" f) as [p|] eqn:Hf.
  - apply str_find_Some in Hf as (a & b & -> & <- & Ha).
    destruct (split_snoc a) as (ls & x & Ea), (split_levels_cons b) as (y0 & ys & Eb).
    rewrite (split_append _ _ ls x (String "#" y0) ys Ea) by (simpl; by rewrite Eb).
    rewrite wf_hash_levels by (rewrite <-Ea; by apply split_lacks).
    rewrite (last_level_empty a (String "#" b) _ _ Ea).
    rewrite length_append, orb_false_iff, andb_false_iff, !bool_decide_eq_false. simpl.
    assert (y0 = "" ∧ ys = [] ↔ b = "") as ->.
    { rewrite <-(join_split b), Eb. split; [by intros [-> ->]|].
      destruct ys; simpl; [done|]. by destruct y0. }
    set (g := String.get _ _).
    assert (¬ g ≠ Some "/"%char ↔ g = Some "/"%char) as ->
      by (split; [apply dec_stable|naive_solver]).
    assert (String.length a = 0 ↔ ¬ 0 < String.length a)%nat as -> by lia.
    destruct b; simpl; split; intros [H1 H2]; split; first [tauto | lia | done | exfalso; lia].
  - apply str_find_None in Hf. split; [|done]. intros _ i l Hi Hl.
    apply (split_lacks "#") in Hf; [|done]. rewrite Forall_lookup in Hf.
    by rewrite (Hf i l Hi) in Hl.
Qed.

(** The validation accepts a filter exactly when it has 1 to 128 bytes,
    every ['+'] is a level of its own and ['#'] is at most the whole last
    level. *)
Lemma is_valid_filter_spec (f : string) :
  is_valid_filter f = true ↔
  (1 ≤ String.length f ≤ 128)%nat ∧ wf_levels (split_levels f).
Proof.
  unfold is_valid_filter, wf_levels. case_decide as Hlen.
  { split; [done|]. intros [? _]. lia. }
  pose proof (hash_check_levels f) as Hh.
  assert (forallb plus_alone (split_levels f) = true ↔
    Forall (λ l, str_contains "+" l = true → l = "+") (split_levels f)) as Hp.
  { rewrite forallb_forall, List.Forall_forall. unfold plus_alone.
    split; intros H l Hl; specialize (H l Hl); destruct (str_contains "+" l); simpl in *;
      try done; [|by rewrite H].
    intros _. by destruct (bool_decide_reflect (l = "+")). }
  match goal with |- context [if ?c then _ else _] => destruct c eqn:Hc end.
  - split; [done|]. intros (_ & _ & H). by apply Hh in H.
  - rewrite Hp. assert (1 ≤ String.length f ≤ 128)%nat by lia. naive_solver.
Qed.

Lemma wf_levels_hash_last ls : wf_levels ls → hash_last ls.
Proof.
  intros [_ H] pre post ->. destruct (H (length pre) "#") as [_ Hlen].
  { by rewrite list_lookup_middle. }
  { done. }
  rewrite length_app in Hlen. simpl in Hlen. destruct post; [done|simpl in *; lia].
Qed.



(** A topic is a device command exactly when it is
    [sb/{house}/device/{device}/set] with a non-empty house and device level. *)
Lemma is_command_topic_spec (t : string) :
  is_command_topic t = true ↔
  ∃ house device, t = join_levels ["sb"; house; "device"; device; "set"] ∧
    house ≠ "" ∧ device ≠ "" ∧ no_slash house ∧ no_slash device.
Proof.
  unfold is_command_topic, topic_matches. split.
  - case_decide as Heq; [subst; intros _; by exists "+", "+"|].
    destruct (_ && _); [done|]. intros Hm.
    pose proof (split_levels_no_slash t) as Hns.
    rewrite <-(join_split t). revert Hm Hns.
    change (split_levels COMMAND_FILTER) with ["sb"; "+"; "device"; "+"; "set"].
    generalize (split_levels t) as ls. intros ls Hm Hns.
    apply match_levels_sound in Hm.
    2:{ intros [|? [|? [|? [|? [|? []]]]]] post E; by simplify_eq/=. }
    destruct Hm as [H2|(pre & t1 & t2 & E & _)].
    + repeat match goal with
      | H : Forall2 _ (_ :: _) ?l |- _ => inversion H; clear H; subst
      | H : Forall2 _ [] ?l |- _ => inversion H; clear H; subst
      | H : Forall _ (_ :: _) |- _ => inversion H; clear H; subst
      end.
      unfold level_ok in *.
      destruct_or!; destruct_and?; subst; eauto 10; done.
    + by destruct pre as [|? [|? [|? [|? [|? []]]]]].
  - intros (house & device & -> & Hh & Hd & Hns1 & Hns2).
    case_decide; [done|].
    assert (starts_with "$" (join_levels ["sb"; house; "device"; device; "set"]) = false)
      as -> by done.
    rewrite split_join by (repeat constructor; done). cbn [andb].
    change (split_levels COMMAND_FILTER) with ["sb"; "+"; "device"; "+"; "set"].
    apply match_levels_complete. left.
    repeat (apply List.Forall2_cons || apply List.Forall2_nil); first [by left|by right].
Qed.

End Topics.
