(* ===== verification/RateLimit.v ===== *)
(** * RateLimit: the token bucket of [session/rate_limit.rs]

    Besides the type invariant, the section shows what the bucket promises to
    the broker: over any sequence of calls the number of accepted publishes is
    bounded by the capacity plus the configured rate, a bucket that has waited
    a second accepts again, and the violation counter counts exactly the
    consecutive refusals (saturating at 255). *)

From S2P Require Import Prelude External Reference.

Module RateLimit.

Record TokenBucket := {
  tokens : Z;
  capacity : Z;
  rate_per_sec : Z;
  last_refill : Instant;
  violations : Z;
}.
#[global] Instance TokenBucket_eq_dec : EqDecision TokenBucket.
Proof. solve_decision. Defined.

Definition new (capacity rate_per_sec : Z) : TokenBucket :=
  {| tokens := capacity; capacity := capacity; rate_per_sec := rate_per_sec;
     last_refill := 0; violations := 0 |}.

Definition default : TokenBucket := new 0 0.

Definition reset_violations (b : TokenBucket) : TokenBucket :=
  {| tokens := tokens b; capacity := capacity b; rate_per_sec := rate_per_sec b;
     last_refill := last_refill b; violations := 0 |}.

Section ops.
Context `{EmbassyTime}.

(** The refill at the head of [try_consume]. *)
Definition refilled (b : TokenBucket) (now : Instant) : TokenBucket :=
  match checked_duration_since now (last_refill b) with
  | Some elapsed =>
      let elapsed_secs := duration_as_secs elapsed in
      if decide (0 < elapsed_secs) then
        let refill := Z.min (saturating_mul U64_MAX elapsed_secs (rate_per_sec b)) U8_MAX in
        {| tokens := Z.min (saturating_add U8_MAX (tokens b) refill) (capacity b);
           capacity := capacity b; rate_per_sec := rate_per_sec b;
           last_refill := now; violations := violations b |}
      else b
  | None => b
  end.

Definition try_consume (b : TokenBucket) (now : Instant) : bool * TokenBucket :=
  let b := refilled b now in
  if decide (0 < tokens b) then
    (true, {| tokens := tokens b - 1; capacity := capacity b;
              rate_per_sec := rate_per_sec b; last_refill := last_refill b;
              violations := 0 |})
  else
    (false, {| tokens := tokens b; capacity := capacity b;
               rate_per_sec := rate_per_sec b; last_refill := last_refill b;
               violations := saturating_add U8_MAX (violations b) 1 |}).

(** A sequence of calls: the number of accepted ones and the final bucket. *)
Fixpoint consume_all (b : TokenBucket) (times : list Instant) : Z * TokenBucket :=
  match times with
  | [] => (0, b)
  | now :: times =>
      let '(ok, b') := try_consume b now in
      let '(n, b'') := consume_all b' times in
      ((if ok then 1 else 0) + n, b'')
  end.

(** ** Type invariant *)
Definition bucket_wf (b : TokenBucket) : Prop :=
  0 ≤ tokens b ≤ capacity b ∧ is_u8 (capacity b) ∧ is_u8 (rate_per_sec b) ∧
  is_u64 (last_refill b) ∧ is_u8 (violations b).

Lemma new_wf cap rate : is_u8 cap → is_u8 rate → bucket_wf (new cap rate).
Proof. unfold bucket_wf, new; simpl. int_lia. Qed.

Lemma refilled_cases b now :
  refilled b now = b
  ∨ ∃ secs, 0 < secs ∧ secs * TICK_HZ ≤ now - last_refill b ∧ last_refill b ≤ now ∧
      refilled b now =
      {| tokens := Z.min (saturating_add U8_MAX (tokens b)
           (Z.min (saturating_mul U64_MAX secs (rate_per_sec b)) U8_MAX)) (capacity b);
         capacity := capacity b; rate_per_sec := rate_per_sec b;
         last_refill := now; violations := violations b |}.
Proof.
  unfold refilled, checked_duration_since. case_decide as Hle; [|by left]. simpl.
  rewrite duration_as_secs_spec by lia. case_decide as Hpos; [|by left].
  right. exists ((now - last_refill b) / TICK_HZ). split_and!; try done.
  pose proof TICK_HZ_pos. rewrite Z.mul_comm. by apply Z.mul_div_le.
Qed.

Lemma refilled_wf b now : bucket_wf b → is_u64 now → bucket_wf (refilled b now).
Proof.
  intros Hwf Hnow. destruct (refilled_cases b now) as [->|(s & Hs & _ & _ & ->)]; [done|].
  unfold bucket_wf in *; simpl. destruct_and?. assert (0 ≤ s * rate_per_sec b) by int_lia.
  split_and!; int_lia.
Qed.

(** The configuration of a bucket never changes. *)
Lemma try_consume_config b now :
  capacity (try_consume b now).2 = capacity b ∧
  rate_per_sec (try_consume b now).2 = rate_per_sec b.
Proof.
  unfold try_consume. destruct (refilled_cases b now) as [->|(? & _ & _ & _ & ->)];
    simpl; case_decide; done.
Qed.

Lemma try_consume_wf b now : bucket_wf b → is_u64 now → bucket_wf (try_consume b now).2.
Proof.
  intros Hwf Hnow. pose proof (refilled_wf b now Hwf Hnow) as Hr. unfold try_consume.
  case_decide; unfold bucket_wf in *; simpl; destruct_and?; split_and!; int_lia.
Qed.

(** ** The rate bound *)

(** One call pays for an accepted publish with a token, and tokens only come
    from elapsed time at the configured rate. *)
Lemma try_consume_pays b now ok b' :
  bucket_wf b → try_consume b now = (ok, b') →
  last_refill b ≤ last_refill b' ≤ Z.max (last_refill b) now ∧
  TICK_HZ * ((if ok then 1 else 0) + tokens b')
    ≤ TICK_HZ * tokens b + rate_per_sec b * (last_refill b' - last_refill b).
Proof.
  intros Hwf E. pose proof TICK_HZ_pos as Hhz. unfold try_consume in E.
  assert (last_refill b ≤ last_refill (refilled b now) ≤ Z.max (last_refill b) now ∧
    TICK_HZ * tokens (refilled b now) ≤
    TICK_HZ * tokens b + rate_per_sec b * (last_refill (refilled b now) - last_refill b))
    as [Hl Ht].
  { destruct (refilled_cases b now) as [->|(s & Hs & Hle & Hnow & ->)]; simpl; [split; lia|].
    unfold bucket_wf in Hwf. destruct_and?. split; [lia|].
    assert (0 ≤ s * rate_per_sec b) by int_lia.
    transitivity (TICK_HZ * (tokens b + s * rate_per_sec b)); [|nia].
    apply Z.mul_le_mono_nonneg_l; [lia|]. int_lia. }
  case_decide; simplify_eq/=; split; lia.
Qed.

Lemma consume_all_pays times b n b' T :
  bucket_wf b → Forall is_u64 times → Forall (λ t, t ≤ T) times → last_refill b ≤ T →
  consume_all b times = (n, b') →
  last_refill b ≤ last_refill b' ≤ T ∧
  TICK_HZ * (n + tokens b') ≤ TICK_HZ * tokens b + rate_per_sec b * (last_refill b' - last_refill b)
  ∧ 0 ≤ tokens b'.
Proof.
  revert b n. induction times as [|now times IH]; intros b n Hwf Hu HT Hl E; simpl in E.
  { simplify_eq. unfold bucket_wf in Hwf. split_and!; lia. }
  inversion Hu; inversion HT; subst.
  destruct (try_consume b now) as [ok b1] eqn:E1.
  destruct (consume_all b1 times) as [n1 b2] eqn:E2. simplify_eq.
  pose proof (try_consume_wf b now Hwf) as Hwf1. rewrite E1 in Hwf1. simpl in Hwf1.
  pose proof (try_consume_config b now) as [_ Hrate]. rewrite E1 in Hrate. simpl in Hrate.
  destruct (try_consume_pays _ _ _ _ Hwf E1) as [Hl1 Hp1].
  destruct (IH b1 n1) as (Hl2 & Hp2 & Hpos); auto; [lia|].
  rewrite Hrate in Hp2. split_and!; lia.
Qed.

(** C26: whatever the instants of the calls, no more than [capacity] publishes
    plus [rate_per_sec] per elapsed second since the last refill are
    accepted (in ticks: [TICK_HZ * accepted ≤ TICK_HZ * capacity +
    rate_per_sec * elapsed]). *)
Theorem rate_bound (b : TokenBucket) (times : list Instant) (T : Instant) :
  bucket_wf b → Forall is_u64 times → Forall (λ t, t ≤ T) times → last_refill b ≤ T →
  TICK_HZ * (consume_all b times).1 ≤
  TICK_HZ * capacity b + rate_per_sec b * (T - last_refill b).
Proof.
  intros Hwf Hu HT Hl. destruct (consume_all b times) as [n b'] eqn:E. simpl.
  destruct (consume_all_pays times b n b' T Hwf Hu HT Hl E) as (Hl' & Hp & Hpos).
  unfold bucket_wf in Hwf. destruct_and?. pose proof TICK_HZ_pos.
  assert (0 ≤ rate_per_sec b) by int_lia. nia.
Qed.

(** ** Recovery and violations *)

(** A second after its last refill, a bucket with a positive capacity and
    rate accepts a publish, whatever was refused before, and clears its
    violation counter. *)
Lemma try_consume_recovers (b : TokenBucket) (now : Instant) :
  bucket_wf b → is_u64 now → 0 < capacity b → 0 < rate_per_sec b →
  last_refill b + TICK_HZ ≤ now →
  (try_consume b now).1 = true ∧ violations (try_consume b now).2 = 0.
Proof.
  intros Hwf Hnow Hcap Hrate Hwait. pose proof TICK_HZ_pos as Hhz.
  assert (0 < tokens (refilled b now)) as Hpos.
  { unfold refilled, checked_duration_since. rewrite decide_True by lia.
    rewrite duration_as_secs_spec by lia.
    assert (1 ≤ (now - last_refill b) / TICK_HZ) by (apply Z.div_le_lower_bound; lia).
    rewrite decide_True by lia. simpl. unfold bucket_wf in Hwf. destruct_and?.
    assert (1 ≤ (now - last_refill b) / TICK_HZ * rate_per_sec b) by nia. int_lia. }
  unfold try_consume. rewrite decide_True by done. done.
Qed.

(** [n] refusals in a row. *)
Fixpoint refusals (b : TokenBucket) (times : list Instant) : Prop :=
  match times with
  | [] => True
  | now :: times => (try_consume b now).1 = false ∧ refusals (try_consume b now).2 times
  end.

(** After [n] refusals in a row the violation counter has grown by [n],
    saturating at 255; the broker disconnects on its value. *)
Lemma violations_count (times : list Instant) (b : TokenBucket) :
  bucket_wf b → Forall is_u64 times → refusals b times →
  violations (consume_all b times).2 =
    Z.min (violations b + Z.of_nat (length times)) U8_MAX.
Proof.
  revert b. induction times as [|now times IH]; intros b Hwf Hu Hr.
  { unfold bucket_wf in Hwf. simpl. int_lia. }
  inversion Hu; subst. simpl in Hr. destruct Hr as [Hf Hr]. simpl.
  pose proof (try_consume_wf b now Hwf) as Hwf1.
  destruct (try_consume b now) as [ok b1] eqn:E1. simpl in *.
  specialize (IH b1 (Hwf1 ltac:(done)) ltac:(done) Hr).
  destruct (consume_all b1 times) as [n b2]. simpl in *. rewrite IH.
  assert (violations b1 = saturating_add U8_MAX (violations b) 1) as ->.
  { unfold try_consume in E1. case_decide; simplify_eq/=.
    by destruct (refilled_cases b now) as [->|(? & _ & _ & _ & ->)]. }
  int_lia.
Qed.
End ops.

(** ** Witnesses, on the shipped configuration (20 tokens, 10 per second). *)
Lemma rate_bound_witness :
  let b := new 20 10 in
  TICK_HZ * (consume_all b (replicate 60 1500000)).1 ≤
  TICK_HZ * capacity b + rate_per_sec b * (1500000 - last_refill b).
Proof.
  intros b. apply rate_bound.
  - unfold bucket_wf; simpl; int_lia.
  - apply Forall_replicate. int_lia.
  - apply Forall_replicate. lia.
  - simpl. lia.
Defined.

Lemma try_consume_recovers_witness :
  let b := (consume_all (new 20 10) (replicate 25 0)).2 in
  violations b = 5 ∧ (try_consume b 1000000).1 = true.
Proof.
  intros b. split; [vm_compute; reflexivity|].
  apply try_consume_recovers; vm_compute; split_and?; congruence.
Defined.

Lemma violations_count_witness :
  let times := replicate 300 5 in
  violations (consume_all (new 0 0) times).2 =
    Z.min (violations (new 0 0) + Z.of_nat (length times)) U8_MAX.
Proof.
  intros times. apply violations_count.
  - unfold bucket_wf; simpl; int_lia.
  - apply Forall_replicate. int_lia.
  - unfold times. generalize 300%nat. intros n.
    assert (∀ v, refusals {| tokens := 0; capacity := 0; rate_per_sec := 0;
      last_refill := 0; violations := v |} (replicate n 5)) as Hr; [|apply Hr].
    induction n as [|n IH]; intros v; simpl; [done|]. split; [done|]. apply IH.
Defined.

End RateLimit.
