(* ===== verification/Session.v ===== *)
(** * Session: the per-client state of [session/state.rs]

    The record, its operations and the broker configuration of [config.rs].
    The theorems are about the parts the connection loop relies on: packet
    identifiers are never zero and do not repeat within 65535 allocations, the
    keepalive test is the 1.5-times rule of MQTT, the in-flight table removes
    exactly the acknowledged entry, and the computed sleep never passes a
    keepalive or retry deadline. *)

From S2P Require Import Prelude External Reference RateLimit.

Module Config.
Record BrokerConfig := {
  house_token_username : string;
  house_token_password : string;
  rate_capacity : Z;
  rate_per_sec : Z;
  max_violations : Z;
  max_outbox_drops : Z;
  qos1_retry_ms : Z;
  qos1_max_retries : Z;
}.

Definition GATOMQTT_CONFIG : BrokerConfig := {|
  house_token_username := "house";
  house_token_password := "secret";
  rate_capacity := 20;
  rate_per_sec := 10;
  max_violations := 50;
  max_outbox_drops := 16;
  qos1_retry_ms := 5000;
  qos1_max_retries := 3;
|}.
End Config.

Module Session.

Definition MAX_OUTBOUND_FRAME_SIZE : nat := 192.
Definition MAX_OUTBOX_DEPTH : nat := 8.

Abbreviation SessionId := nat (only parsing).

Record Subscription := { sub_filter : string; sub_qos : QoS }.
#[global] Instance Subscription_eq_dec : EqDecision Subscription.
Proof. solve_decision. Defined.

Record StoredPublishHandle := { h_slot : nat; h_generation : Z }.
#[global] Instance StoredPublishHandle_eq_dec : EqDecision StoredPublishHandle.
Proof. solve_decision. Defined.

Record InflightEntry := {
  ie_packet_id : Z;
  ie_publish : StoredPublishHandle;
  ie_qos : QoS;
  ie_sent_at : Instant;
  ie_retries : Z;
}.
#[global] Instance InflightEntry_eq_dec : EqDecision InflightEntry.
Proof. solve_decision. Defined.

Record LwtMessage := {
  lwt_topic : string;
  lwt_payload : list Z;
  lwt_qos : QoS;
  lwt_retain : bool;
}.
#[global] Instance LwtMessage_eq_dec : EqDecision LwtMessage.
Proof. solve_decision. Defined.

Record OutboundPacket := { ob_bytes : list Z }.
#[global] Instance OutboundPacket_eq_dec : EqDecision OutboundPacket.
Proof. solve_decision. Defined.

Record SessionState := {
  client_id : string;
  subscriptions : list Subscription;
  inflight : list InflightEntry;
  outbox : list OutboundPacket;
  rate : RateLimit.TokenBucket;
  keepalive_secs : Z;
  last_activity : Instant;
  lwt : option LwtMessage;
  outbox_drops : Z;
  quarantined : bool;
  ss_next_packet_id : Z;
}.
#[global] Instance SessionState_eq_dec : EqDecision SessionState.
Proof. solve_decision. Defined.

(** Field assignments ([session.f = v] in the sources). *)
Section setters.
Variable s : SessionState.
Definition set_subscriptions v := {| client_id := client_id s; subscriptions := v;
  inflight := inflight s; outbox := outbox s; rate := rate s;
  keepalive_secs := keepalive_secs s; last_activity := last_activity s; lwt := lwt s;
  outbox_drops := outbox_drops s; quarantined := quarantined s;
  ss_next_packet_id := ss_next_packet_id s |}.
Definition set_inflight v := {| client_id := client_id s; subscriptions := subscriptions s;
  inflight := v; outbox := outbox s; rate := rate s;
  keepalive_secs := keepalive_secs s; last_activity := last_activity s; lwt := lwt s;
  outbox_drops := outbox_drops s; quarantined := quarantined s;
  ss_next_packet_id := ss_next_packet_id s |}.
Definition set_outbox v := {| client_id := client_id s; subscriptions := subscriptions s;
  inflight := inflight s; outbox := v; rate := rate s;
  keepalive_secs := keepalive_secs s; last_activity := last_activity s; lwt := lwt s;
  outbox_drops := outbox_drops s; quarantined := quarantined s;
  ss_next_packet_id := ss_next_packet_id s |}.
Definition set_rate v := {| client_id := client_id s; subscriptions := subscriptions s;
  inflight := inflight s; outbox := outbox s; rate := v;
  keepalive_secs := keepalive_secs s; last_activity := last_activity s; lwt := lwt s;
  outbox_drops := outbox_drops s; quarantined := quarantined s;
  ss_next_packet_id := ss_next_packet_id s |}.
Definition set_keepalive_secs v := {| client_id := client_id s;
  subscriptions := subscriptions s; inflight := inflight s; outbox := outbox s; rate := rate s;
  keepalive_secs := v; last_activity := last_activity s; lwt := lwt s;
  outbox_drops := outbox_drops s; quarantined := quarantined s;
  ss_next_packet_id := ss_next_packet_id s |}.
Definition set_last_activity v := {| client_id := client_id s;
  subscriptions := subscriptions s; inflight := inflight s; outbox := outbox s; rate := rate s;
  keepalive_secs := keepalive_secs s; last_activity := v; lwt := lwt s;
  outbox_drops := outbox_drops s; quarantined := quarantined s;
  ss_next_packet_id := ss_next_packet_id s |}.
Definition set_lwt v := {| client_id := client_id s; subscriptions := subscriptions s;
  inflight := inflight s; outbox := outbox s; rate := rate s;
  keepalive_secs := keepalive_secs s; last_activity := last_activity s; lwt := v;
  outbox_drops := outbox_drops s; quarantined := quarantined s;
  ss_next_packet_id := ss_next_packet_id s |}.
Definition set_outbox_drops v := {| client_id := client_id s;
  subscriptions := subscriptions s; inflight := inflight s; outbox := outbox s; rate := rate s;
  keepalive_secs := keepalive_secs s; last_activity := last_activity s; lwt := lwt s;
  outbox_drops := v; quarantined := quarantined s;
  ss_next_packet_id := ss_next_packet_id s |}.
Definition set_quarantined v := {| client_id := client_id s;
  subscriptions := subscriptions s; inflight := inflight s; outbox := outbox s; rate := rate s;
  keepalive_secs := keepalive_secs s; last_activity := last_activity s; lwt := lwt s;
  outbox_drops := outbox_drops s; quarantined := v;
  ss_next_packet_id := ss_next_packet_id s |}.
Definition set_next_packet_id v := {| client_id := client_id s;
  subscriptions := subscriptions s; inflight := inflight s; outbox := outbox s; rate := rate s;
  keepalive_secs := keepalive_secs s; last_activity := last_activity s; lwt := lwt s;
  outbox_drops := outbox_drops s; quarantined := quarantined s;
  ss_next_packet_id := v |}.
End setters.

(** ** Operations *)
Definition new (client_id : string) (keepalive_secs : Z) : SessionState := {|
  client_id := client_id;
  subscriptions := [];
  inflight := [];
  outbox := [];
  rate := RateLimit.new (Config.rate_capacity Config.GATOMQTT_CONFIG)
            (Config.rate_per_sec Config.GATOMQTT_CONFIG);
  keepalive_secs := keepalive_secs;
  last_activity := 0;
  lwt := None;
  outbox_drops := 0;
  quarantined := false;
  ss_next_packet_id := 0;
|}.

(** Index of the entry a PUBACK refers to. *)
Definition inflight_position (packet_id : Z) (l : list InflightEntry) : option nat :=
  fst <$> list_find (λ e, ie_packet_id e = packet_id) l.

Definition inflight_remove (s : SessionState) (packet_id : Z)
  : option InflightEntry * SessionState :=
  match inflight_position packet_id (inflight s) with
  | None => (None, s)
  | Some index => (inflight s !! index, set_inflight s (delete index (inflight s)))
  end.

Definition inflight_ack (s : SessionState) (packet_id : Z) : bool * SessionState :=
  let '(r, s') := inflight_remove s packet_id in (bool_decide (is_Some r), s').

Definition update_activity_at (s : SessionState) (now : Instant) : SessionState :=
  set_last_activity s now.

Definition next_packet_id (s : SessionState) : Z * SessionState :=
  let n := wrapping_add U16_MAX (ss_next_packet_id s) 1 in
  let n := if decide (n = 0) then 1 else n in
  (n, set_next_packet_id s n).

Section ops.
Context `{Heapless} `{EmbassyTime}.
Context (MAX_INFLIGHT : nat).

Definition inflight_add (s : SessionState) (entry : InflightEntry)
  : result unit unit * SessionState :=
  match vec_push MAX_INFLIGHT (inflight s) entry with
  | Some v => (Ok tt, set_inflight s v)
  | None => (Err tt, s)
  end.

(** The entries [inflight_expired_at] iterates over. *)
Definition entry_expired (now : Instant) (timeout : Duration) (e : InflightEntry) : bool :=
  match checked_duration_since now (ie_sent_at e) with
  | Some elapsed => bool_decide (timeout ≤ elapsed)
  | None => false
  end.

Definition inflight_expired_at (s : SessionState) (now : Instant) (timeout_ms : Z)
  : list InflightEntry :=
  let timeout := duration_from_millis timeout_ms in
  base.filter (λ e, entry_expired now timeout e = true) (inflight s).

Definition keepalive_deadline (s : SessionState) : Instant :=
  if decide (keepalive_secs s = 0) then INSTANT_MAX
  else
    let timeout_secs := keepalive_secs s * 3 / 2 in
    match instant_checked_add (last_activity s) (duration_from_secs timeout_secs) with
    | Some t => t
    | None => INSTANT_MAX
    end.

Definition is_keepalive_expired (s : SessionState) (now : Instant) : bool :=
  if decide (keepalive_secs s = 0) then false
  else bool_decide (keepalive_deadline s < now).

(** The inner loop of [next_wakeup_after] over the in-flight entries. *)
Fixpoint tighten_wait (now : Instant) (retry_timeout wait : Duration)
  (entries : list InflightEntry) : Duration :=
  match entries with
  | [] => wait
  | entry :: entries =>
      let elapsed := default 0 (checked_duration_since now (ie_sent_at entry)) in
      let remaining :=
        if decide (retry_timeout ≤ elapsed) then 0 else retry_timeout - elapsed in
      tighten_wait now retry_timeout (Z.min wait remaining) entries
  end.

Definition retry_wait (s : SessionState) (now : Instant) (qos1_retry_ms : Z)
  (wait : Duration) : Duration :=
  match inflight s with
  | [] => wait
  | _ => tighten_wait now (duration_from_millis qos1_retry_ms) wait (inflight s)
  end.

Definition next_wakeup_after (s : SessionState) (now : Instant) (qos1_retry_ms : Z)
  (max_wait : Duration) : Duration :=
  if decide (0 < keepalive_secs s) then
    match checked_duration_since (keepalive_deadline s) now with
    | Some remaining => Z.max (retry_wait s now qos1_retry_ms (Z.min max_wait remaining)) 1
    | None => 1
    end
  else Z.max (retry_wait s now qos1_retry_ms max_wait) 1.

End ops.

(** ** The in-flight table *)

Lemma inflight_position_Some packet_id l i :
  inflight_position packet_id l = Some i →
  ∃ l1 e l2, l = l1 ++ e :: l2 ∧ length l1 = i ∧ ie_packet_id e = packet_id ∧
    Forall (λ e, ie_packet_id e ≠ packet_id) l1.
Proof.
  unfold inflight_position. intros ([j e] & (Hlk & He & Hbefore)%list_find_Some & ->)%fmap_Some.
  simpl. exists (take j l), e, (drop (S j) l). split_and!; [|apply length_take_le|done|].
  - by rewrite take_drop_middle.
  - apply lookup_lt_Some in Hlk. lia.
  - apply Forall_lookup. intros i x Hi. apply lookup_take_Some in Hi as [Hi ?]. eauto.
Qed.

Lemma inflight_position_None packet_id l :
  inflight_position packet_id l = None → Forall (λ e, ie_packet_id e ≠ packet_id) l.
Proof. unfold inflight_position. by intros ?%fmap_None%list_find_None. Qed.

(** Acknowledging a packet identifier removes the first in-flight entry
    that carries it and keeps all the others in order; without such an entry
    the session is unchanged. *)
Lemma inflight_remove_spec (s : SessionState) (packet_id : Z) :
  match inflight_remove s packet_id with
  | (Some e, s') => ∃ l1 l2, inflight s = l1 ++ e :: l2 ∧ ie_packet_id e = packet_id ∧
      Forall (λ e, ie_packet_id e ≠ packet_id) l1 ∧ s' = set_inflight s (l1 ++ l2)
  | (None, s') => Forall (λ e, ie_packet_id e ≠ packet_id) (inflight s) ∧ s' = s
  end.
Proof.
  unfold inflight_remove. destruct (inflight_position _ _) as [i|] eqn:E.
  - destruct (inflight_position_Some _ _ _ E) as (l1 & e & l2 & Hl & <- & He & Hl1).
    rewrite Hl, list_lookup_middle by done. exists l1, l2.
    by rewrite delete_middle.
  - apply inflight_position_None in E. done.
Qed.

(** ** Packet identifiers *)

(** [n] consecutive allocations. *)
Fixpoint alloc_ids (n : nat) (s : SessionState) : list Z :=
  match n with
  | O => []
  | S n => let '(id, s') := next_packet_id s in id :: alloc_ids n s'
  end.

Lemma next_packet_id_closed s :
  is_u16 (ss_next_packet_id s) →
  (next_packet_id s).1 = ss_next_packet_id s mod 65535 + 1 ∧
  (next_packet_id s).2 = set_next_packet_id s (ss_next_packet_id s mod 65535 + 1).
Proof.
  intros Hc. unfold next_packet_id, wrapping_add. simpl.
  enough ((if decide ((ss_next_packet_id s + 1) mod (U16_MAX + 1) = 0) then 1
           else (ss_next_packet_id s + 1) mod (U16_MAX + 1))
          = ss_next_packet_id s mod 65535 + 1) as -> by done.
  unfold is_u16, U16_MAX in *. change (65535 + 1) with 65536.
  destruct (decide (ss_next_packet_id s = 65535)) as [->|]; [done|].
  rewrite (Z.mod_small (ss_next_packet_id s + 1)) by lia. rewrite Z.mod_small by lia.
  case_decide; lia.
Qed.

Lemma next_packet_id_range s :
  is_u16 (ss_next_packet_id s) →
  1 ≤ (next_packet_id s).1 ≤ U16_MAX ∧ is_u16 (ss_next_packet_id (next_packet_id s).2).
Proof.
  intros Hc. destruct (next_packet_id_closed s Hc) as [-> ->]. simpl.
  pose proof (Z.mod_pos_bound (ss_next_packet_id s) 65535). unfold is_u16, U16_MAX. lia.
Qed.

Lemma alloc_ids_lookup n s i id :
  is_u16 (ss_next_packet_id s) → alloc_ids n s !! i = Some id →
  (i < n)%nat ∧ id = (ss_next_packet_id s + Z.of_nat i) mod 65535 + 1.
Proof.
  revert s i id. induction n as [|n IH]; intros s i id Hc Hi; [done|].
  cbn [alloc_ids] in Hi. destruct (next_packet_id_closed s Hc) as [Hid Hs].
  destruct (next_packet_id s) as [id0 s']. simpl in Hid, Hs. subst.
  destruct i as [|i]; simpl in Hi.
  { simplify_eq. split; [lia|]. do 2 f_equal. lia. }
  apply IH in Hi as [? ->]; simpl.
  - split; [lia|]. rewrite <-Z.add_assoc, Zplus_mod_idemp_l. do 2 f_equal. lia.
  - pose proof (Z.mod_pos_bound (ss_next_packet_id s) 65535). unfold is_u16, U16_MAX. lia.
Qed.

(** A session hands out only non-zero 16-bit identifiers, and among any
    65535 consecutive allocations no identifier occurs twice. *)
Lemma packet_ids_distinct (s : SessionState) (n : nat) :
  is_u16 (ss_next_packet_id s) → Z.of_nat n ≤ 65535 →
  NoDup (alloc_ids n s) ∧ Forall (λ id, 1 ≤ id ≤ U16_MAX) (alloc_ids n s).
Proof.
  intros Hc Hn. split.
  - apply NoDup_alt. intros i j id Hi Hj.
    apply alloc_ids_lookup in Hi as [Hi ->]; [|done].
    apply alloc_ids_lookup in Hj as [Hj E]; [|done].
    assert ((ss_next_packet_id s + Z.of_nat i) mod 65535
          = (ss_next_packet_id s + Z.of_nat j) mod 65535) as Heq by lia.
    pose proof (Z.div_mod (ss_next_packet_id s + Z.of_nat i) 65535 ltac:(lia)).
    pose proof (Z.div_mod (ss_next_packet_id s + Z.of_nat j) 65535 ltac:(lia)). lia.
  - apply Forall_lookup. intros i id Hi. apply alloc_ids_lookup in Hi as [_ ->]; [|done].
    pose proof (Z.mod_pos_bound (ss_next_packet_id s + Z.of_nat i) 65535).
    unfold U16_MAX. lia.
Qed.

Lemma packet_ids_distinct_witness :
  let s := set_next_packet_id (new "mobile-app" 60) 65534 in
  alloc_ids 3 s = [65535; 1; 2] ∧ NoDup (alloc_ids 1000 s).
Proof.
  intros s. split; [vm_compute; reflexivity|]. apply packet_ids_distinct.
  - simpl. int_lia.
  - lia.
Defined.

(** ** Timers *)
Section timers.
Context `{EmbassyTime}.

(** The keepalive test fires exactly when the client has been silent for
    more than one and a half times its keepalive interval, and never for a
    keepalive of zero. *)
Lemma keepalive_expired_iff (s : SessionState) (now : Instant) :
  is_u16 (keepalive_secs s) →
  last_activity s + keepalive_secs s * 3 / 2 * TICK_HZ ≤ U64_MAX → 0 ≤ last_activity s →
  (is_keepalive_expired s now = true ↔
   keepalive_secs s ≠ 0 ∧ last_activity s + keepalive_secs s * 3 / 2 * TICK_HZ < now).
Proof.
  intros Hka Hfit Hla. unfold is_keepalive_expired. case_decide as Hz; [naive_solver|].
  rewrite bool_decide_eq_true. unfold keepalive_deadline, instant_checked_add, checked_add.
  rewrite decide_False by done.
  assert (0 ≤ keepalive_secs s * 3 / 2) by (apply Z.div_pos; int_lia).
  rewrite duration_from_secs_spec by lia. rewrite decide_True by lia. naive_solver.
Qed.

Lemma tighten_wait_spec now timeout wait entries :
  tighten_wait now timeout wait entries ≤ wait ∧
  (∀ e, e ∈ entries → ie_sent_at e ≤ now →
     tighten_wait now timeout wait entries ≤ Z.max 0 (ie_sent_at e + timeout - now)).
Proof.
  revert wait. induction entries as [|e0 entries IH]; intros wait; simpl.
  { split; [lia|]. set_solver. }
  set (wait' := Z.min wait _). destruct (IH wait') as [IH1 IH2]. split; [lia|].
  intros e [->|He]%elem_of_cons Hnow; [|by apply IH2].
  etransitivity; [apply IH1|]. unfold wait', checked_duration_since.
  destruct (decide (ie_sent_at e0 ≤ now)); [|lia]. simpl. case_decide; lia.
Qed.

(** The sleep the connection loop computes is at least one tick and at
    most the upper bound (or one tick), and unless it is that minimal tick it
    passes neither the keepalive deadline nor the retry time of any in-flight
    message. *)
Lemma next_wakeup_no_oversleep (s : SessionState) (now : Instant) (retry_ms : Z)
    (max_wait : Duration) :
  let w := next_wakeup_after s now retry_ms max_wait in
  1 ≤ w ≤ Z.max 1 max_wait ∧
  (0 < keepalive_secs s → w = 1 ∨ now + w ≤ keepalive_deadline s) ∧
  (∀ e, e ∈ inflight s → ie_sent_at e ≤ now →
     w = 1 ∨ now + w ≤ ie_sent_at e + duration_from_millis retry_ms).
Proof.
  intros w. unfold w, next_wakeup_after.
  assert (∀ wait, let w := retry_wait s now retry_ms wait in
    w ≤ wait ∧ ∀ e, e ∈ inflight s → ie_sent_at e ≤ now →
    w ≤ Z.max 0 (ie_sent_at e + duration_from_millis retry_ms - now)) as Ht.
  { intros wait. unfold retry_wait.
    pose proof (tighten_wait_spec now (duration_from_millis retry_ms)
      wait (inflight s)) as [? ?]. destruct (inflight s); [|done]. split; [lia|set_solver]. }
  case_decide as Hka.
  - unfold checked_duration_since. case_decide as Hd.
    + destruct (Ht (Z.min max_wait (keepalive_deadline s - now))) as [H1 H2].
      split_and!; [lia|lia|lia|]. intros e He Hnow. specialize (H2 e He Hnow). lia.
    + split_and!; [lia|lia|by left|by left].
  - destruct (Ht max_wait) as [H1 H2]. split_and!; [lia|lia|lia|].
    intros e He Hnow. specialize (H2 e He Hnow). lia.
Qed.
End timers.

Lemma keepalive_expired_iff_witness :
  let s := set_last_activity (new "mobile-app" 60) 100000000 in
  is_keepalive_expired s 190000001 = true ∧ is_keepalive_expired s 190000000 = false.
Proof.
  intros s. split; [|vm_compute; reflexivity].
  apply (keepalive_expired_iff s 190000001); vm_compute; split_and?; congruence.
Defined.

End Session.
