(* ===== verification/Registry.v ===== *)
(** * Registry: the session table of [session/registry.rs]

    Fixed slots for sessions, a queue of last-will messages of displaced
    sessions, and a reference-counted store of the publishes that in-flight
    QoS 1 deliveries point to.  The central invariant, [refs_inv], says that
    the reference count of every stored publish is the number of in-flight
    entries (over all sessions) that hold its handle, so a publish is freed
    exactly when the last entry goes away and no entry ever dangles. *)

From S2P Require Import Prelude External Reference RateLimit Session.

Module Registry.
Import Session.

Inductive RegistryError :=
| Full
| LwtQueueFull
| PublishStoreFull
| PublishTopicTooLong
| PublishPayloadTooLarge
| PublishRefcountOverflow
| PublishHandleInvalid.
#[global] Instance RegistryError_eq_dec : EqDecision RegistryError.
Proof. solve_decision. Defined.

Record StoredPublish := {
  sp_topic : string;
  sp_payload : list Z;
  sp_retain : bool;
  sp_generation : Z;
  sp_refcount : Z;
}.
#[global] Instance StoredPublish_eq_dec : EqDecision StoredPublish.
Proof. solve_decision. Defined.

Record SessionRegistry := {
  slots : list (option SessionState);
  published_lwts : list LwtMessage;
  stored_publishes : list (option StoredPublish);
  next_publish_generation : Z;
}.

Definition set_slots reg v := {| slots := v; published_lwts := published_lwts reg;
  stored_publishes := stored_publishes reg;
  next_publish_generation := next_publish_generation reg |}.
Definition set_published_lwts reg v := {| slots := slots reg; published_lwts := v;
  stored_publishes := stored_publishes reg;
  next_publish_generation := next_publish_generation reg |}.
Definition set_stored_publishes reg v := {| slots := slots reg;
  published_lwts := published_lwts reg; stored_publishes := v;
  next_publish_generation := next_publish_generation reg |}.
Definition set_next_publish_generation reg v := {| slots := slots reg;
  published_lwts := published_lwts reg; stored_publishes := stored_publishes reg;
  next_publish_generation := v |}.

(** First empty slot of an array of slots ([iter().enumerate().find(is_none)]). *)
Definition first_free {A} (l : list (option A)) : option nat :=
  fst <$> list_find (λ o, o = None) l.

(** ** Sessions *)
Definition get (reg : SessionRegistry) (id : SessionId) : option SessionState :=
  match slots reg !! id with Some o => o | None => None end.

(** Assigning through [get_mut]: replaces the state of an occupied slot. *)
Definition put (reg : SessionRegistry) (id : SessionId) (s : SessionState) : SessionRegistry :=
  set_slots reg (<[id := Some s]> (slots reg)).

Definition insert (reg : SessionRegistry) (state : SessionState)
  : result RegistryError SessionId * SessionRegistry :=
  match first_free (slots reg) with
  | Some id => (Ok id, set_slots reg (<[id := Some state]> (slots reg)))
  | None => (Err Full, reg)
  end.

Fixpoint iter_from (i : nat) (l : list (option SessionState)) : list (SessionId * SessionState) :=
  match l with
  | [] => []
  | Some s :: l => (i, s) :: iter_from (S i) l
  | None :: l => iter_from (S i) l
  end.

Definition iter (reg : SessionRegistry) : list (SessionId * SessionState) :=
  iter_from 0 (slots reg).

Definition find_by_client_id (reg : SessionRegistry) (cid : string) : option SessionId :=
  (λ p, p.2.1) <$> list_find (λ p, client_id p.2 = cid) (iter reg).

Definition len (reg : SessionRegistry) : nat := length (iter reg).

(** ** Stored publishes *)
Definition stored_publish (reg : SessionRegistry) (h : StoredPublishHandle)
  : option StoredPublish :=
  match stored_publishes reg !! h_slot h with
  | Some (Some sp) => if decide (sp_generation sp = h_generation h) then Some sp else None
  | _ => None
  end.

Definition set_refcount (sp : StoredPublish) (n : Z) : StoredPublish :=
  {| sp_topic := sp_topic sp; sp_payload := sp_payload sp; sp_retain := sp_retain sp;
     sp_generation := sp_generation sp; sp_refcount := n |}.

Definition acquire_stored_publish (reg : SessionRegistry) (h : StoredPublishHandle)
  : result RegistryError unit * SessionRegistry :=
  match stored_publish reg h with
  | None => (Err PublishHandleInvalid, reg)
  | Some sp =>
      match checked_add U16_MAX (sp_refcount sp) 1 with
      | Some n => (Ok tt, set_stored_publishes reg
          (<[h_slot h := Some (set_refcount sp n)]> (stored_publishes reg)))
      | None => (Err PublishRefcountOverflow, reg)
      end
  end.

Definition release_stored_publish (reg : SessionRegistry) (h : StoredPublishHandle)
  : SessionRegistry :=
  match stored_publish reg h with
  | None => reg
  | Some sp =>
      let n := saturating_sub (sp_refcount sp) 1 in
      if decide (n = 0)
      then set_stored_publishes reg (<[h_slot h := None]> (stored_publishes reg))
      else set_stored_publishes reg
             (<[h_slot h := Some (set_refcount sp n)]> (stored_publishes reg))
  end.

Definition release_all (reg : SessionRegistry) (entries : list InflightEntry) : SessionRegistry :=
  foldl (λ reg e, release_stored_publish reg (ie_publish e)) reg entries.

Definition remove (reg : SessionRegistry) (id : SessionId)
  : option SessionState * SessionRegistry :=
  match get reg id with
  | None => (None, reg)
  | Some removed =>
      (Some removed,
       release_all (set_slots reg (<[id := None]> (slots reg))) (inflight removed))
  end.

Definition take_published_lwt (reg : SessionRegistry) : option LwtMessage * SessionRegistry :=
  match published_lwts reg with
  | [] => (None, reg)
  | lwt :: rest => (Some lwt, set_published_lwts reg rest)
  end.

Section ops.
Context `{Heapless}.
Context (N MAX_INFLIGHT : nat).

Definition new : SessionRegistry := {|
  slots := replicate N None;
  published_lwts := [];
  stored_publishes := replicate MAX_INFLIGHT None;
  next_publish_generation := 1;
|}.

Definition is_full (reg : SessionRegistry) : bool := bool_decide (len reg = N).

Definition record_published_lwt (reg : SessionRegistry) (lwt : LwtMessage)
  : result RegistryError unit * SessionRegistry :=
  match deque_push_back N (published_lwts reg) lwt with
  | Some q => (Ok tt, set_published_lwts reg q)
  | None => (Err LwtQueueFull, reg)
  end.

(** The generation counter advances even when the topic or the payload turns
    out not to fit. *)
Definition store_publish_ref (reg : SessionRegistry) (topic : string) (payload : list Z)
  (retain : bool) : result RegistryError StoredPublishHandle * SessionRegistry :=
  match first_free (stored_publishes reg) with
  | None => (Err PublishStoreFull, reg)
  | Some slot =>
      let generation := next_publish_generation reg in
      let next := wrapping_add U32_MAX generation 1 in
      let next := if decide (next = 0) then 1 else next in
      let reg := set_next_publish_generation reg next in
      match string_try_from 128 topic with
      | None => (Err PublishTopicTooLong, reg)
      | Some topic =>
          match vec_from_slice 512 payload with
          | None => (Err PublishPayloadTooLarge, reg)
          | Some payload =>
              (Ok {| h_slot := slot; h_generation := generation |},
               set_stored_publishes reg
                 (<[slot := Some {| sp_topic := topic; sp_payload := payload;
                      sp_retain := retain; sp_generation := generation;
                      sp_refcount := 1 |}]> (stored_publishes reg)))
          end
      end
  end.
End ops.

(** ** Free slots *)
Lemma first_free_Some {A} (l : list (option A)) i :
  first_free l = Some i →
  l !! i = Some None ∧ ∀ j, (j < i)%nat → ∃ x, l !! j = Some (Some x).
Proof.
  unfold first_free. intros ([k o] & (Hk & -> & Hb)%list_find_Some & ->)%fmap_Some. simpl.
  split; [done|]. intros j Hj. destruct (l !! j) as [[x|]|] eqn:E; [eauto| |].
  - by destruct (Hb j None E Hj).
  - apply lookup_ge_None in E. apply lookup_lt_Some in Hk. lia.
Qed.

Lemma first_free_None {A} (l : list (option A)) :
  first_free l = None ↔ Forall is_Some l.
Proof.
  unfold first_free. rewrite list_find_fst_None. apply Forall_iff.
  intros o. by rewrite <-not_eq_None_Some.
Qed.

(** ** The table as a partial map *)
Lemma get_Some reg id s : get reg id = Some s ↔ slots reg !! id = Some (Some s).
Proof. unfold get. destruct (slots reg !! id); naive_solver. Qed.

Lemma get_slot reg id s : get reg id = Some s → (id < length (slots reg))%nat.
Proof. rewrite get_Some. apply lookup_lt_Some. Qed.

Lemma get_put_eq reg id s s' : get reg id = Some s → get (put reg id s') id = Some s'.
Proof.
  intros Hg%get_slot. rewrite get_Some. unfold put. simpl. by rewrite list_lookup_insert_eq.
Qed.

Lemma get_put_ne reg id id' s : id ≠ id' → get (put reg id s) id' = get reg id'.
Proof. intros. unfold get, put. simpl. by rewrite list_lookup_insert_ne. Qed.

Lemma put_put reg id s s' : put (put reg id s) id s' = put reg id s'.
Proof. unfold put. simpl. by rewrite list_insert_insert_eq. Qed.

Lemma release_slots reg h : slots (release_stored_publish reg h) = slots reg.
Proof. unfold release_stored_publish. case_match; [|done]. by case_decide. Qed.

Lemma release_all_slots reg es : slots (release_all reg es) = slots reg.
Proof.
  unfold release_all. revert reg. induction es as [|e es IH]; intros reg; [done|].
  simpl. by rewrite IH, release_slots.
Qed.

Lemma acquire_slots reg h : slots (acquire_stored_publish reg h).2 = slots reg.
Proof. unfold acquire_stored_publish. by repeat case_match. Qed.

Lemma store_slots `{Heapless} reg t p r : slots (store_publish_ref reg t p r).2 = slots reg.
Proof. unfold store_publish_ref. by repeat case_match. Qed.

(** *** Iteration *)
Lemma elem_of_iter_from i l j s :
  (j, s) ∈ iter_from i l ↔ ∃ k, j = (i + k)%nat ∧ l !! k = Some (Some s).
Proof.
  revert i. induction l as [|[s0|] l IH]; intros i; simpl.
  - split; [by intros ?%elem_of_nil|]. naive_solver.
  - rewrite elem_of_cons, IH. split.
    + intros [?|(k & -> & Hk)]; [simplify_eq; exists 0%nat; split; [lia|done]|].
      exists (S k). split; [lia|done].
    + intros ([|k] & -> & Hk); simplify_eq/=.
      * left. f_equal. lia.
      * right. exists k. split; [lia|done].
  - rewrite IH. split.
    + intros (k & -> & Hk). exists (S k). split; [lia|done].
    + intros ([|k] & -> & Hk); simplify_eq/=. exists k. split; [lia|done].
Qed.

Lemma elem_of_iter reg id s : (id, s) ∈ iter reg ↔ get reg id = Some s.
Proof.
  unfold iter. rewrite elem_of_iter_from, get_Some. split.
  - by intros (k & -> & Hk).
  - intros Hk. by exists id.
Qed.

Lemma iter_from_sorted i l :
  StronglySorted lt (iter_from i l).*1 ∧ Forall (λ j, (i ≤ j)%nat) (iter_from i l).*1.
Proof.
  revert i. induction l as [|[s|] l IH]; intros i; simpl; [by repeat constructor| |];
    destruct (IH (S i)) as [Hs Hall].
  - split; constructor; [done|..|lia|]; eapply Forall_impl; try done; simpl; lia.
  - split; [done|]. eapply Forall_impl; [done|]. simpl; lia.
Qed.

Lemma length_iter_from i l : (length (iter_from i l) ≤ length l)%nat.
Proof. revert i. induction l as [|[s|] l IH]; intros i; simpl; [lia| |]; specialize (IH (S i)); lia. Qed.

Definition occupancy (o : option SessionState) : nat :=
  match o with Some _ => 1%nat | None => 0%nat end.

Lemma len_sum reg : len reg = sum_list_with occupancy (slots reg).
Proof.
  unfold len, iter. generalize 0%nat. induction (slots reg) as [|[s|] l IH]; intros i; simpl;
    [done|by rewrite (IH (S i))|apply IH].
Qed.

Lemma len_full reg : len reg = length (slots reg) ↔ first_free (slots reg) = None.
Proof.
  rewrite len_sum, first_free_None.
  assert (∀ l, (sum_list_with occupancy l ≤ length l)%nat) as Hle.
  { induction l as [|[] l IH]; simpl; lia. }
  induction (slots reg) as [|o l IH]; [by rewrite Forall_nil|].
  rewrite Forall_cons, <-IH. specialize (Hle l). destruct o; simpl.
  - split; [intros; split; [eauto|lia]|intros [_ ?]; lia].
  - split; [lia|by intros [[] _]].
Qed.

Lemma find_by_client_id_Some reg cid id :
  find_by_client_id reg cid = Some id → ∃ s, get reg id = Some s ∧ client_id s = cid.
Proof.
  unfold find_by_client_id.
  intros ([k [i s]] & (Hk & Hcid & _)%list_find_Some & ->)%fmap_Some.
  apply list_elem_of_lookup_2, elem_of_iter in Hk. simpl in *. eauto.
Qed.

Lemma find_by_client_id_None reg cid id s :
  find_by_client_id reg cid = None → get reg id = Some s → client_id s ≠ cid.
Proof.
  unfold find_by_client_id. intros Hn%fmap_None%list_find_None Hg%elem_of_iter.
  apply list_elem_of_In in Hg. rewrite List.Forall_forall in Hn. by apply (Hn _ Hg).
Qed.

(** [insert] fills the lowest free slot, makes the state readable under the
    returned id and leaves every other session alone; when no slot is free it
    reports [Full] and changes nothing. *)
Lemma insert_spec (reg : SessionRegistry) (state : SessionState) :
  match insert reg state with
  | (Ok id, reg') =>
      get reg id = None ∧ (∀ j, (j < id)%nat → is_Some (get reg j)) ∧
      get reg' id = Some state ∧ (∀ j, j ≠ id → get reg' j = get reg j) ∧
      len reg' = S (len reg)
  | (Err e, reg') => e = Full ∧ reg' = reg ∧ len reg = length (slots reg)
  end.
Proof.
  unfold insert. destruct (first_free (slots reg)) as [id|] eqn:E.
  - destruct (first_free_Some _ _ E) as [Hid Hbefore].
    pose proof (lookup_lt_Some _ _ _ Hid) as Hlt. split_and!.
    + unfold get. by rewrite Hid.
    + intros j Hj. destruct (Hbefore j Hj) as [x Hx]. exists x. by apply get_Some.
    + apply get_Some. simpl. by rewrite list_lookup_insert_eq.
    + intros j Hj. unfold get. simpl. by rewrite list_lookup_insert_ne.
    + rewrite !len_sum. simpl.
      pose proof (sum_list_with_insert occupancy _ _ _ (Some state) Hid). simpl in *. lia.
  - split_and!; [done|done|]. by apply len_full.
Qed.

(** ** Reference counts *)

(** One reference to [h]. *)
Definition one (h h' : StoredPublishHandle) : nat := if decide (h' = h) then 1%nat else 0%nat.

(** In-flight entries of a list that hold [h]. *)
Definition inflight_refs (h : StoredPublishHandle) (l : list InflightEntry) : nat :=
  sum_list_with (λ e, one (ie_publish e) h) l.

Definition slot_refs (h : StoredPublishHandle) (o : option SessionState) : nat :=
  match o with Some s => inflight_refs h (inflight s) | None => 0%nat end.

Definition handle_count (h : StoredPublishHandle) (reg : SessionRegistry) : nat :=
  sum_list_with (slot_refs h) (slots reg).

Definition stored_refs (h : StoredPublishHandle) (reg : SessionRegistry) : Z :=
  match stored_publish reg h with Some sp => sp_refcount sp | None => 0 end.

(** [extra] counts references that are on their way into or out of the table:
    it is zero everywhere between two broker operations. *)
Definition refs_inv (extra : StoredPublishHandle → nat) (reg : SessionRegistry) : Prop :=
  (∀ h, Z.of_nat (handle_count h reg + extra h) = stored_refs h reg) ∧
  (∀ i sp, stored_publishes reg !! i = Some (Some sp) → 1 ≤ sp_refcount sp ≤ U16_MAX).

Definition no_extra : StoredPublishHandle → nat := λ _, 0%nat.
Definition plus_extra (f g : StoredPublishHandle → nat) : StoredPublishHandle → nat :=
  λ h, (f h + g h)%nat.

#[global] Instance refs_inv_proper : Proper (pointwise_relation _ eq ==> eq ==> iff) refs_inv.
Proof.
  intros f g Hfg ? reg ->. unfold refs_inv.
  split; intros [H ?]; split; try done; intros h; [rewrite <-Hfg|rewrite Hfg]; done.
Qed.

Lemma refs_inv_ext f g reg : (∀ h, f h = g h) → refs_inv f reg → refs_inv g reg.
Proof. intros Hfg ?. by rewrite <-(refs_inv_proper f g Hfg reg reg eq_refl). Qed.

Lemma stored_publish_Some reg h sp :
  stored_publish reg h = Some sp ↔
  stored_publishes reg !! h_slot h = Some (Some sp) ∧ sp_generation sp = h_generation h.
Proof. unfold stored_publish. repeat case_match; naive_solver. Qed.

Lemma handle_eta h h' : h_slot h = h_slot h' → h_generation h = h_generation h' → h = h'.
Proof. destruct h, h'; simpl; congruence. Qed.

(** Rewriting one entry of the store changes only the handle of its
    generation. *)
Lemma stored_refs_insert reg i o h :
  (i < length (stored_publishes reg))%nat →
  stored_refs h (set_stored_publishes reg (<[i := o]> (stored_publishes reg))) =
  if decide (h_slot h = i) then
    match o with
    | Some sp => if decide (sp_generation sp = h_generation h) then sp_refcount sp else 0
    | None => 0
    end
  else stored_refs h reg.
Proof.
  intros Hi. unfold stored_refs, stored_publish. simpl. case_decide as Hs.
  - subst. rewrite list_lookup_insert_eq by done. destruct o; [|done]. by case_decide.
  - by rewrite list_lookup_insert_ne.
Qed.

Lemma stored_refs_slot reg h i :
  h_slot h = i →
  stored_refs h reg = match stored_publishes reg !! i with
    | Some (Some sp) => if decide (sp_generation sp = h_generation h) then sp_refcount sp else 0
    | _ => 0 end.
Proof.
  intros <-. unfold stored_refs, stored_publish.
  destruct (stored_publishes reg !! h_slot h) as [[sp|]|]; try done. by case_decide.
Qed.

Lemma handle_count_slots h reg reg' : slots reg = slots reg' → handle_count h reg = handle_count h reg'.
Proof. unfold handle_count. by intros ->. Qed.

(** A handle the store does not resolve is held by nobody. *)
Lemma refs_inv_dead ex reg h :
  refs_inv ex reg → stored_publish reg h = None → handle_count h reg = 0%nat ∧ ex h = 0%nat.
Proof. intros [Hr _] Hn. specialize (Hr h). unfold stored_refs in Hr. rewrite Hn in Hr. lia. Qed.

(** The new entry for slot [i] with count [n] accounts for [d] references more
    (or fewer) to its handle. *)
Lemma refs_inv_update ex ex' reg i o :
  refs_inv ex reg → (i < length (stored_publishes reg))%nat →
  (∀ sp, o = Some sp → 1 ≤ sp_refcount sp ≤ U16_MAX) →
  (∀ h, h_slot h ≠ i → ex' h = ex h) →
  (∀ h, h_slot h = i → Z.of_nat (handle_count h reg + ex' h) =
     match o with
     | Some sp => if decide (sp_generation sp = h_generation h) then sp_refcount sp else 0
     | None => 0
     end) →
  refs_inv ex' (set_stored_publishes reg (<[i := o]> (stored_publishes reg))).
Proof.
  intros [Hr Hpos] Hi Ho Hne Heq. split.
  - intros h. rewrite stored_refs_insert by done.
    rewrite (handle_count_slots _ _ reg) by done.
    case_decide as Hs; [by apply Heq|]. rewrite Hne by done. apply Hr.
  - simpl. intros j sp. rewrite list_lookup_insert. case_decide as Hj; [|apply Hpos].
    intros [= ->]. by apply Ho.
Qed.

Lemma refs_inv_generation ex reg g :
  refs_inv ex reg → refs_inv ex (set_next_publish_generation reg g).
Proof. done. Qed.

Lemma refs_inv_lwts ex reg q : refs_inv ex reg → refs_inv ex (set_published_lwts reg q).
Proof. done. Qed.

Lemma stored_lt reg h sp :
  stored_publish reg h = Some sp → (h_slot h < length (stored_publishes reg))%nat.
Proof. intros [Hl _]%stored_publish_Some. by apply lookup_lt_Some in Hl. Qed.

Lemma refs_inv_store `{Heapless} ex reg topic payload retain :
  refs_inv ex reg →
  let '(r, reg') := store_publish_ref reg topic payload retain in
  refs_inv (match r with Ok h => plus_extra ex (one h) | Err _ => ex end) reg'.
Proof.
  intros Hinv. unfold store_publish_ref.
  destruct (first_free _) as [i|] eqn:E; [|done].
  apply first_free_Some in E as [Hi _].
  set (g := if decide _ then 1 else _). clearbody g.
  destruct (string_try_from 128 topic) as [t|]; [|done].
  destruct (vec_from_slice 512 payload) as [p|]; [|done].
  pose proof (refs_inv_generation ex reg g Hinv) as Hinv'.
  set (reg1 := set_next_publish_generation reg g) in *.
  change (stored_publishes reg) with (stored_publishes reg1) in *.
  assert (∀ h, h_slot h = i → handle_count h reg1 = 0%nat ∧ ex h = 0%nat) as Hdead.
  { intros h <-. apply (refs_inv_dead ex reg1); [done|].
    unfold stored_publish. by rewrite Hi. }
  apply (refs_inv_update ex); [done|by apply lookup_lt_Some in Hi| | |].
  - intros sp [= <-]. simpl. unfold U16_MAX. lia.
  - intros h Hh. unfold plus_extra, one. rewrite decide_False; [lia|]. intros ->. done.
  - intros h Hh. destruct (Hdead h Hh) as [-> He]. unfold plus_extra, one. rewrite He. simpl.
    destruct (decide (next_publish_generation reg = h_generation h)) as [Hg|Hg].
    + rewrite decide_True; [done|]. by apply handle_eta.
    + rewrite decide_False; [done|]. intros ->. done.
Qed.

Lemma refs_inv_acquire ex reg h :
  refs_inv ex reg →
  let '(r, reg') := acquire_stored_publish reg h in
  refs_inv (match r with Ok _ => plus_extra ex (one h) | Err _ => ex end) reg'.
Proof.
  intros Hinv. unfold acquire_stored_publish.
  destruct (stored_publish reg h) as [sp|] eqn:E; [|done].
  destruct (checked_add _ _ _) as [n|] eqn:En; [|done].
  apply checked_add_Some in En as [-> Hn]. pose proof Hinv as [Hr Hpos].
  apply stored_publish_Some in E as [Hl Hg]. pose proof (Hpos _ _ Hl).
  apply (refs_inv_update ex); [done|by apply lookup_lt_Some in Hl| | |].
  - intros ? [= <-]. simpl. lia.
  - intros h' Hh. unfold plus_extra, one. rewrite decide_False; [lia|]. intros ->. done.
  - intros h' Hh. specialize (Hr h'). rewrite (stored_refs_slot _ _ _ Hh), Hl in Hr. simpl.
    unfold plus_extra, one. destruct (decide (sp_generation sp = h_generation h')) as [Hg'|Hg'].
    + rewrite decide_True; [lia|]. apply handle_eta; congruence.
    + rewrite decide_False; [lia|]. intros ->. done.
Qed.

Lemma refs_inv_release ex reg h :
  refs_inv (plus_extra ex (one h)) reg → refs_inv ex (release_stored_publish reg h).
Proof.
  intros Hinv. unfold release_stored_publish.
  destruct (stored_publish reg h) as [sp|] eqn:E.
  2:{ destruct (refs_inv_dead _ _ _ Hinv E) as [_ Hd]. unfold plus_extra, one in Hd.
      rewrite decide_True in Hd by done. lia. }
  pose proof Hinv as [Hr Hpos].
  apply stored_publish_Some in E as [Hl Hg]. pose proof (Hpos _ _ Hl).
  assert (∀ h', h_slot h' = h_slot h → Z.of_nat (handle_count h' reg + ex h') =
    if decide (sp_generation sp = h_generation h') then sp_refcount sp - 1 else 0) as Hcount.
  { intros h' Hh. specialize (Hr h'). rewrite (stored_refs_slot _ _ _ Hh), Hl in Hr.
    unfold plus_extra, one in Hr.
    destruct (decide (sp_generation sp = h_generation h')) as [Hg'|Hg'].
    - rewrite decide_True in Hr; [lia|]. apply handle_eta; congruence.
    - rewrite decide_False in Hr; [lia|]. intros ->. done. }
  case_decide as Hz.
  - apply (refs_inv_update (plus_extra ex (one h))); [done|by apply lookup_lt_Some in Hl|done| |].
    + intros h' Hh. unfold plus_extra, one. rewrite decide_False; [lia|]. intros ->. done.
    + intros h' Hh. rewrite Hcount by done. unfold saturating_sub in Hz. case_decide; lia.
  - apply (refs_inv_update (plus_extra ex (one h))); [done|by apply lookup_lt_Some in Hl| | |].
    + intros ? [= <-]. simpl. unfold saturating_sub in *. lia.
    + intros h' Hh. unfold plus_extra, one. rewrite decide_False; [lia|]. intros ->. done.
    + intros h' Hh. rewrite Hcount by done. simpl. unfold saturating_sub.
      case_decide; lia.
Qed.

Lemma refs_inv_release_all ex reg es :
  refs_inv (plus_extra ex (λ h, inflight_refs h es)) reg → refs_inv ex (release_all reg es).
Proof.
  unfold release_all. revert reg. induction es as [|e es IH]; intros reg Hinv; simpl.
  { eapply refs_inv_ext, Hinv. intros h. unfold plus_extra. simpl. lia. }
  apply IH, refs_inv_release. eapply refs_inv_ext, Hinv.
  intros h. unfold plus_extra. simpl. lia.
Qed.

(** Changing the state of one session moves references between the table and
    [extra]. *)
Lemma handle_count_put h reg id s s' :
  get reg id = Some s →
  (handle_count h (put reg id s') + inflight_refs h (inflight s)
   = handle_count h reg + inflight_refs h (inflight s'))%nat.
Proof.
  intros Hg%get_Some. unfold handle_count, put. simpl.
  pose proof (sum_list_with_insert (slot_refs h) _ _ _ (Some s') Hg). done.
Qed.

Lemma refs_inv_put ex ex' reg id s s' :
  refs_inv ex reg → get reg id = Some s →
  (∀ h, (inflight_refs h (inflight s) + ex h = inflight_refs h (inflight s') + ex' h)%nat) →
  refs_inv ex' (put reg id s').
Proof.
  intros [Hr Hpos] Hg Hex. split; [|done]. intros h. specialize (Hr h).
  pose proof (handle_count_put h reg id s s' Hg). specialize (Hex h).
  change (stored_refs h (put reg id s')) with (stored_refs h reg). lia.
Qed.

(** The usual case: the in-flight table of the session did not change. *)
Lemma refs_inv_put_same ex reg id s s' :
  refs_inv ex reg → get reg id = Some s → inflight s' = inflight s →
  refs_inv ex (put reg id s').
Proof. intros Hr Hg Hi. apply (refs_inv_put ex ex reg id s s' Hr Hg). by rewrite Hi. Qed.

Lemma refs_inv_insert ex reg state :
  refs_inv ex reg → inflight state = [] → refs_inv ex (insert reg state).2.
Proof.
  intros [Hr Hpos] Hi. unfold insert. destruct (first_free _) as [id|] eqn:E; [|done].
  apply first_free_Some in E as [Hid _]. split; [|done]. intros h. specialize (Hr h).
  change (stored_refs h _) with (stored_refs h reg). simpl. unfold handle_count in *. simpl.
  pose proof (sum_list_with_insert (slot_refs h) _ _ _ (Some state) Hid) as Hs.
  simpl in Hs. rewrite Hi in Hs. simpl in Hs. lia.
Qed.

(** [remove] frees exactly the references of the removed session. *)
Lemma refs_inv_remove ex reg id :
  refs_inv ex reg → refs_inv ex (remove reg id).2.
Proof.
  intros [Hr Hpos]. unfold remove. destruct (get reg id) as [s|] eqn:E; [|done].
  apply refs_inv_release_all. split; [|done]. intros h. specialize (Hr h).
  change (stored_refs h _) with (stored_refs h reg). apply get_Some in E.
  unfold handle_count, plus_extra in *. simpl.
  pose proof (sum_list_with_insert (slot_refs h) _ _ _ None E) as Hs. simpl in Hs. lia.
Qed.

Lemma refs_inv_new N M : refs_inv no_extra (new N M).
Proof.
  split.
  - intros h. unfold handle_count, stored_refs, stored_publish, new, no_extra. simpl.
    assert (sum_list_with (slot_refs h) (replicate N None) = 0%nat) as ->.
    { induction N; simpl; auto. }
    destruct (replicate M None !! h_slot h) as [o|] eqn:E; [|done].
    by apply lookup_replicate in E as [-> _].
  - intros i sp Hi. simpl in Hi. apply lookup_replicate in Hi. naive_solver.
Qed.

End Registry.
