(* ===== verification/Invariants.v ===== *)
(** * Invariants: what every reachable session table satisfies

    [session_wf] collects the capacities and integer widths of a session,
    [reg_inv] adds the table's: capacities, one session per client id, and the
    exact reference counts of [Registry.refs_inv].  One lemma per operation of
    the table says what it needs and keeps; the handlers compose them. *)

From S2P Require Import Prelude External Topics RateLimit Session Registry.

Create HintDb broker.

Module Invariants.
Import Topics Session Registry.

Definition lwt_wf (l : LwtMessage) : Prop :=
  (String.length (lwt_topic l) ≤ 128)%nat ∧ (length (lwt_payload l) ≤ 512)%nat.

Definition entry_wf (e : InflightEntry) : Prop :=
  1 ≤ ie_packet_id e ≤ U16_MAX ∧ ie_qos e = AtLeastOnce ∧ is_u8 (ie_retries e).

Definition stored_wf (sp : StoredPublish) : Prop :=
  (String.length (sp_topic sp) ≤ 128)%nat ∧ (length (sp_payload sp) ≤ 512)%nat.

Definition frame_wf (p : OutboundPacket) : Prop :=
  (length (ob_bytes p) ≤ MAX_OUTBOUND_FRAME_SIZE)%nat.

Definition filters (s : SessionState) : list string := sub_filter <$> subscriptions s.

Section wf.
Context (MAX_SUBS MAX_INFLIGHT : nat).

Record session_wf (s : SessionState) : Prop := {
  sw_client : (String.length (client_id s) ≤ 64)%nat;
  sw_subs : (length (subscriptions s) ≤ MAX_SUBS)%nat;
  sw_filters : NoDup (filters s);
  sw_valid : Forall (λ f, is_valid_filter f = true) (filters s);
  sw_inflight : (length (inflight s) ≤ MAX_INFLIGHT)%nat;
  sw_entries : Forall entry_wf (inflight s);
  sw_outbox : (length (outbox s) ≤ MAX_OUTBOX_DEPTH)%nat;
  sw_frames : Forall frame_wf (outbox s);
  sw_rate : RateLimit.bucket_wf (rate s);
  sw_keepalive : is_u16 (keepalive_secs s);
  sw_activity : is_u64 (last_activity s);
  sw_lwt : ∀ l, lwt s = Some l → lwt_wf l;
  sw_drops : is_u8 (outbox_drops s);
  sw_next : is_u16 (ss_next_packet_id s);
}.

Context (N : nat).

Record reg_inv (extra : StoredPublishHandle → nat) (reg : SessionRegistry) : Prop := {
  ri_slots : length (slots reg) = N;
  ri_stored : length (stored_publishes reg) = MAX_INFLIGHT;
  ri_lwts : (length (published_lwts reg) ≤ N)%nat;
  ri_lwts_wf : Forall lwt_wf (published_lwts reg);
  ri_session : ∀ id s, get reg id = Some s → session_wf s;
  ri_unique : ∀ i j s s', get reg i = Some s → get reg j = Some s' →
    client_id s = client_id s' → i = j;
  ri_stored_wf : ∀ i sp, stored_publishes reg !! i = Some (Some sp) → stored_wf sp;
  ri_generation : 0 ≤ next_publish_generation reg ≤ U32_MAX;
  ri_refs : refs_inv extra reg;
}.

#[global] Instance reg_inv_proper : Proper (pointwise_relation _ eq ==> eq ==> iff) reg_inv.
Proof.
  intros f g Hfg ? reg ->. pose proof (refs_inv_proper f g Hfg reg reg eq_refl) as [? ?].
  split; intros []; constructor; auto.
Qed.

Lemma reg_inv_ext f g reg : (∀ h, f h = g h) → reg_inv f reg → reg_inv g reg.
Proof. intros Hfg ?. by rewrite <-(reg_inv_proper f g Hfg reg reg eq_refl). Qed.

(** ** Sessions *)
Lemma session_wf_new cid ka :
  (String.length cid ≤ 64)%nat → is_u16 ka → session_wf (Session.new cid ka).
Proof.
  intros Hc Hk. split; simpl; try done; try (by constructor); try lia.
Qed.

(** ** The table *)
Lemma reg_inv_new : reg_inv no_extra (Registry.new N MAX_INFLIGHT).
Proof.
  split; simpl; rewrite ?length_replicate; try done; try lia.
  - intros id s. rewrite get_Some. simpl. intros [? _]%lookup_replicate. done.
  - intros i j s s'. rewrite get_Some. simpl. intros [? _]%lookup_replicate. done.
  - intros i sp [? _]%lookup_replicate. done.
  - apply refs_inv_new.
Qed.

Lemma reg_inv_put ex ex' reg id s s' :
  reg_inv ex reg → get reg id = Some s → session_wf s' → client_id s' = client_id s →
  (∀ h, (inflight_refs h (inflight s) + ex h = inflight_refs h (inflight s') + ex' h)%nat) →
  reg_inv ex' (put reg id s').
Proof.
  intros [] Hg Hwf Hcid Href. split; simpl; rewrite ?length_insert; try done.
  - intros i t. destruct (decide (i = id)) as [->|Hne].
    + rewrite (get_put_eq _ _ _ _ Hg). by intros [= <-].
    + rewrite get_put_ne by done. eauto.
  - assert (∀ i t, get (put reg id s') i = Some t → ∃ t0, get reg i = Some t0 ∧
      client_id t0 = client_id t) as Hold.
    { intros i t. destruct (decide (i = id)) as [->|Hne].
      - rewrite (get_put_eq _ _ _ _ Hg). intros [= <-]. eauto.
      - rewrite get_put_ne by done. eauto. }
    intros i j t t' (t0 & ? & ?)%Hold (t1 & ? & ?)%Hold ?. eapply ri_unique0; eauto. congruence.
  - by eapply refs_inv_put.
Qed.

(** The in-flight table of the session did not change. *)
Lemma reg_inv_put_same ex reg id s s' :
  reg_inv ex reg → get reg id = Some s → session_wf s' → client_id s' = client_id s →
  inflight s' = inflight s → reg_inv ex (put reg id s').
Proof. intros ? ? ? ? Hi. eapply reg_inv_put; eauto. by rewrite Hi. Qed.

Lemma get_insert_Some reg state id reg' i t :
  Registry.insert reg state = (Ok id, reg') →
  get reg' i = Some t ↔ (i = id ∧ t = state) ∨ (i ≠ id ∧ get reg i = Some t).
Proof.
  unfold Registry.insert. destruct (first_free _) as [k|] eqn:E; [|done]. intros [= <- <-].
  apply first_free_Some in E as [Hk _]. apply lookup_lt_Some in Hk. rewrite !get_Some. simpl.
  destruct (decide (i = k)) as [->|Hne].
  - rewrite list_lookup_insert_eq by done. split; [intros [= <-]; auto|].
    by intros [[_ ->]|[? _]].
  - rewrite list_lookup_insert_ne by done. split; [auto|]. by intros [[? _]|[_ ?]].
Qed.

Lemma reg_inv_insert ex reg state id reg' :
  reg_inv ex reg → session_wf state → inflight state = [] →
  (∀ i t, get reg i = Some t → client_id t ≠ client_id state) →
  Registry.insert reg state = (Ok id, reg') → reg_inv ex reg'.
Proof.
  intros [] Hwf Hin Hfresh Hins. pose proof (refs_inv_insert _ _ state ri_refs0 Hin) as Hr.
  pose proof (λ i t, proj1 (get_insert_Some _ _ _ _ i t Hins)) as Hget.
  rewrite Hins in Hr. simpl in Hr. unfold Registry.insert in Hins. case_match; [|done].
  injection Hins as [= <- <-]. split; simpl; rewrite ?length_insert; try done.
  - intros i t [[_ ->]|[_ ?]]%Hget; eauto.
  - intros i j t t' [[-> ->]|[_ Hi]]%Hget [[-> ->]|[_ Hj]]%Hget Heq; try done; eauto.
    + by destruct (Hfresh _ _ Hj).
    + by destruct (Hfresh _ _ Hi).
Qed.

Lemma get_remove reg id i :
  get (remove reg id).2 i = if decide (i = id) then None else get reg i.
Proof.
  unfold remove. destruct (get reg id) as [s|] eqn:E.
  - simpl. unfold get at 1. rewrite release_all_slots. simpl.
    pose proof (get_slot _ _ _ E). case_decide as Hi.
    + subst. by rewrite list_lookup_insert_eq.
    + by rewrite list_lookup_insert_ne.
  - simpl. case_decide; [congruence|done].
Qed.

(** Operations on the publish store leave the sessions alone. *)
Lemma reg_inv_store_change ex ex' reg reg' :
  reg_inv ex reg → slots reg' = slots reg → published_lwts reg' = published_lwts reg →
  length (stored_publishes reg') = length (stored_publishes reg) →
  (∀ i sp, stored_publishes reg' !! i = Some (Some sp) → stored_wf sp) →
  0 ≤ next_publish_generation reg' ≤ U32_MAX → refs_inv ex' reg' → reg_inv ex' reg'.
Proof.
  intros [] Hs Hl Hlen Hwf Hgen Href.
  assert (∀ i, get reg' i = get reg i) as Hget by (intros i; unfold get; by rewrite Hs).
  split; rewrite ?Hs, ?Hl, ?Hlen; try done.
  - intros id s. rewrite Hget. eauto.
  - intros i j s s'. rewrite !Hget. eauto.
Qed.

Lemma reg_inv_store `{Heapless} ex reg topic payload retain :
  reg_inv ex reg →
  let '(r, reg') := store_publish_ref reg topic payload retain in
  reg_inv (match r with Ok h => plus_extra ex (one h) | Err _ => ex end) reg'.
Proof.
  intros Hinv. pose proof (refs_inv_store ex reg topic payload retain (ri_refs _ _ Hinv)) as Href.
  pose proof (ri_generation _ _ Hinv) as Hgen. pose proof (ri_stored_wf _ _ Hinv) as Hwf.
  assert (0 ≤ (if decide (wrapping_add U32_MAX (next_publish_generation reg) 1 = 0) then 1
               else wrapping_add U32_MAX (next_publish_generation reg) 1) ≤ U32_MAX) as Hgen'.
  { pose proof (wrapping_add_range U32_MAX (next_publish_generation reg) 1 ltac:(done)).
    case_decide; [unfold U32_MAX|]; lia. }
  unfold store_publish_ref in *. destruct (first_free _) as [slot|]; [|done].
  destruct (string_try_from 128 topic) as [t|] eqn:Ht;
    [|by eapply reg_inv_store_change].
  destruct (vec_from_slice 512 payload) as [p|] eqn:Hp;
    [|by eapply reg_inv_store_change].
  apply string_try_from_Some in Ht as [Ht ->]. apply vec_from_slice_Some in Hp as [Hp ->].
  eapply reg_inv_store_change; try done; simpl.
  - apply length_insert.
  - intros i sp [[= ->]|?]%list_lookup_insert_cases; [done|eauto].
Qed.

Lemma reg_inv_acquire ex reg h :
  reg_inv ex reg →
  let '(r, reg') := acquire_stored_publish reg h in
  reg_inv (match r with Ok _ => plus_extra ex (one h) | Err _ => ex end) reg'.
Proof.
  intros Hinv. pose proof (refs_inv_acquire ex reg h (ri_refs _ _ Hinv)) as Href.
  pose proof (ri_stored_wf _ _ Hinv) as Hwf. unfold acquire_stored_publish in *.
  destruct (stored_publish reg h) as [sp|] eqn:E; [|done].
  destruct (checked_add _ _ _) as [n|]; [|done].
  apply stored_publish_Some in E as [E _]. specialize (Hwf _ _ E).
  eapply reg_inv_store_change; try done; simpl; [apply length_insert| |apply (ri_generation _ _ Hinv)].
  intros i sp' [[= ->]|?]%list_lookup_insert_cases; [done|by eapply (ri_stored_wf _ _ Hinv)].
Qed.

Lemma reg_inv_release ex reg h :
  reg_inv (plus_extra ex (one h)) reg → reg_inv ex (release_stored_publish reg h).
Proof.
  intros Hinv. pose proof (refs_inv_release ex reg h (ri_refs _ _ Hinv)) as Href.
  pose proof (ri_generation _ _ Hinv) as Hgen. pose proof (ri_stored_wf _ _ Hinv) as Hwf.
  unfold release_stored_publish in *. destruct (stored_publish reg h) as [sp|] eqn:E;
    [|by eapply reg_inv_store_change].
  apply stored_publish_Some in E as [E _]. pose proof (Hwf _ _ E).
  case_decide; (eapply reg_inv_store_change; try done; simpl; [apply length_insert|]);
    intros i sp' [[=]|?]%list_lookup_insert_cases; simplify_eq; eauto.
Qed.

Lemma reg_inv_release_all ex reg es :
  reg_inv (plus_extra ex (λ h, inflight_refs h es)) reg → reg_inv ex (release_all reg es).
Proof.
  unfold release_all. revert reg. induction es as [|e es IH]; intros reg Hinv; simpl.
  { eapply reg_inv_ext, Hinv. intros h. unfold plus_extra. simpl. lia. }
  apply IH, reg_inv_release. eapply reg_inv_ext, Hinv.
  intros h. unfold plus_extra. simpl. lia.
Qed.

Lemma reg_inv_vacate ex reg id s :
  reg_inv ex reg → get reg id = Some s →
  reg_inv (plus_extra ex (λ h, inflight_refs h (inflight s)))
    (set_slots reg (<[id := None]> (slots reg))).
Proof.
  intros [] Hg. assert (∀ i t, get (set_slots reg (<[id := None]> (slots reg))) i = Some t →
    get reg i = Some t) as Hold.
  { intros i t. rewrite !get_Some. simpl. by intros [?|?]%list_lookup_insert_cases. }
  split; simpl; rewrite ?length_insert; try done; [by eauto|by eauto|].
  destruct ri_refs0 as [Hr Hpos]. split; [|done]. intros h. specialize (Hr h).
  change (stored_refs h _) with (stored_refs h reg). apply get_Some in Hg.
  unfold handle_count, plus_extra in *. simpl.
  pose proof (sum_list_with_insert (slot_refs h) _ _ _ None Hg) as Hs. simpl in Hs. lia.
Qed.

Lemma reg_inv_remove ex reg id : reg_inv ex reg → reg_inv ex (remove reg id).2.
Proof.
  intros Hinv. unfold remove. destruct (get reg id) as [s|] eqn:E; [|done].
  by apply reg_inv_release_all, reg_inv_vacate.
Qed.

Lemma reg_inv_record_lwt `{Heapless} ex reg l :
  reg_inv ex reg → lwt_wf l → reg_inv ex (record_published_lwt N reg l).2.
Proof.
  intros [] Hl. unfold record_published_lwt. destruct (deque_push_back _ _ _) as [q|] eqn:E; [|done].
  apply deque_push_back_Some in E as [Hlt ->]. split; simpl; try done.
  - rewrite length_app. simpl. lia.
  - apply Forall_app; auto.
Qed.

Lemma reg_inv_take_lwt ex reg : reg_inv ex reg → reg_inv ex (take_published_lwt reg).2.
Proof.
  intros Hinv. unfold take_published_lwt. destruct (published_lwts reg) as [|l q] eqn:E; [done|].
  destruct Hinv. rewrite E in *. split; simpl in *; try done; [lia|].
  by apply Forall_cons in ri_lwts_wf0 as [_ ?].
Qed.

(** No in-flight entry dangles: its publish is in the store. *)
Lemma inflight_resolves ex reg id s e :
  reg_inv ex reg → get reg id = Some s → e ∈ inflight s →
  is_Some (stored_publish reg (ie_publish e)).
Proof.
  intros Hinv Hg He. destruct (stored_publish reg (ie_publish e)) as [sp|] eqn:E; [eauto|].
  destruct (refs_inv_dead _ _ _ (ri_refs _ _ Hinv) E) as [Hc _].
  apply get_Some in Hg. unfold handle_count in Hc.
  apply list_elem_of_lookup_2 in Hg. apply list_elem_of_In in Hg, He.
  assert (1 ≤ inflight_refs (ie_publish e) (inflight s))%nat.
  { unfold inflight_refs. apply in_split in He as (l1 & l2 & ->).
    rewrite sum_list_with_app. simpl. unfold one. rewrite decide_True by done. lia. }
  apply in_split in Hg as (l1 & l2 & Hs). rewrite Hs, sum_list_with_app in Hc. simpl in Hc. lia.
Qed.
End wf.

(** The store is never full of publishes nobody waits for: every stored
    publish is held by some in-flight entry. *)
Lemma stored_is_held MS MI N reg i sp :
  reg_inv MS MI N no_extra reg → stored_publishes reg !! i = Some (Some sp) →
  (handle_count {| h_slot := i; h_generation := sp_generation sp |} reg ≠ 0)%nat.
Proof.
  intros Hinv Hi. destruct (ri_refs _ _ _ _ _ Hinv) as [Hr Hpos].
  specialize (Hr {| h_slot := i; h_generation := sp_generation sp |}).
  rewrite (stored_refs_slot reg {| h_slot := i; h_generation := sp_generation sp |} i eq_refl), Hi in Hr. simpl in Hr.
  rewrite decide_True in Hr by done. specialize (Hpos _ _ Hi). unfold no_extra in Hr. lia.
Qed.

#[global] Hint Resolve reg_inv_remove reg_inv_record_lwt : broker.
End Invariants.
