(* ===== verification/Retained.v ===== *)
(** * Retained: the retained-message store of [router/retained.rs]

    A vector of at most [N] entries, one per topic, that stands for a finite
    map from topics to (payload, QoS).  [retained_store_refines_map] relates every branch
    of [set] to the map operation it implements, errors included. *)

From S2P Require Import Prelude External Reference Keyed Topics.

Module Retained.
Import Topics.

Record RetainedEntry := {
  re_topic : string;
  re_payload : list Z;
  re_qos : QoS;
}.
#[global] Instance RetainedEntry_eq_dec : EqDecision RetainedEntry.
Proof. solve_decision. Defined.

Inductive RetainedError := TopicTooLong | PayloadTooLarge | StoreFull.
#[global] Instance RetainedError_eq_dec : EqDecision RetainedError.
Proof. solve_decision. Defined.

Record RetainedStore := { entries : list RetainedEntry }.

Definition new : RetainedStore := {| entries := [] |}.

Definition topic_position (topic : string) (l : list RetainedEntry) : option nat :=
  key_position re_topic topic l.

Section ops.
Context `{Heapless}.
Context (N : nat).

Definition set (st : RetainedStore) (topic : string) (payload : list Z) (qos : QoS)
  : result RetainedError unit * RetainedStore :=
  match string_try_from 128 topic with
  | None => (Err TopicTooLong, st)
  | Some topic =>
      match topic_position topic (entries st) with
      | Some index =>
          if decide (payload = []) then (Ok tt, {| entries := delete index (entries st) |})
          else match vec_from_slice 512 payload with
               | None => (Err PayloadTooLarge, st)
               | Some payload =>
                   (Ok tt, {| entries := alter (λ e, {| re_topic := re_topic e;
                      re_payload := payload; re_qos := qos |}) index (entries st) |})
               end
      | None =>
          if decide (payload = []) then (Ok tt, st)
          else match vec_from_slice 512 payload with
               | None => (Err PayloadTooLarge, st)
               | Some payload =>
                   match vec_push N (entries st)
                           {| re_topic := topic; re_payload := payload; re_qos := qos |} with
                   | Some l => (Ok tt, {| entries := l |})
                   | None => (Err StoreFull, st)
                   end
               end
      end
  end.
End ops.

Definition iter (st : RetainedStore) : list RetainedEntry := entries st.

Definition matching (st : RetainedStore) (filter : string) : list RetainedEntry :=
  base.filter (λ e, topic_matches filter (re_topic e) = true) (entries st).

Definition len (st : RetainedStore) : nat := length (entries st).

(** ** The map a store stands for *)
Definition to_map (st : RetainedStore) : gmap string (list Z * QoS) :=
  kmap re_topic (λ e, (re_payload e, re_qos e)) (entries st).

Definition entry_wf (e : RetainedEntry) : Prop :=
  (String.length (re_topic e) ≤ 128)%nat ∧ re_payload e ≠ [] ∧ (length (re_payload e) ≤ 512)%nat.

(** What the types and the operations maintain: capacity, one entry per topic,
    no entry with an empty payload. *)
Definition store_wf (N : nat) (st : RetainedStore) : Prop :=
  (length (entries st) ≤ N)%nat ∧ NoDup (re_topic <$> entries st) ∧ Forall entry_wf (entries st).

(** The specification: a bounded finite map. *)
Definition map_set_answer (N : nat) (m : gmap string (list Z * QoS)) (topic : string)
  (payload : list Z) : result RetainedError unit :=
  if decide (128 < String.length topic)%nat then Err TopicTooLong
  else if decide (payload = []) then Ok tt
  else if decide (512 < length payload)%nat then Err PayloadTooLarge
  else if decide (is_Some (m !! topic) ∨ (size m < N)%nat) then Ok tt
  else Err StoreFull.

Definition map_set (m : gmap string (list Z * QoS)) (topic : string) (payload : list Z) (qos : QoS)
  : gmap string (list Z * QoS) :=
  if decide (payload = []) then base.delete topic m else <[topic := (payload, qos)]> m.

(** The three ways [set] changes the entries. *)
Lemma remove_entry N l1 e l2 :
  store_wf N {| entries := l1 ++ e :: l2 |} →
  let st' := {| entries := l1 ++ l2 |} in
  to_map st' = base.delete (re_topic e) (to_map {| entries := l1 ++ e :: l2 |}) ∧ store_wf N st'.
Proof.
  intros (Hlen & Hnd & Hall). split; [by apply kmap_delete_at|]. split_and!; simpl in *.
  - rewrite length_app in *. simpl in *. lia.
  - by apply (kmap_split _ re_payload) in Hnd as (_ & _ & ?).
  - apply Forall_app in Hall as [? [_ ?]%Forall_cons]. by apply Forall_app.
Qed.

Lemma replace_entry N l1 e e' l2 :
  store_wf N {| entries := l1 ++ e :: l2 |} → re_topic e' = re_topic e → entry_wf e' →
  let st' := {| entries := l1 ++ e' :: l2 |} in
  to_map st' = <[re_topic e := (re_payload e', re_qos e')]> (to_map {| entries := l1 ++ e :: l2 |})
  ∧ store_wf N st'.
Proof.
  intros (Hlen & Hnd & Hall) He Hwf.
  destruct (kmap_replace_at _ (λ e, (re_payload e, re_qos e)) _ _ _ _ Hnd He) as [? ?].
  split; [done|]. split_and!; simpl in *; [|done|].
  - rewrite length_app in *. simpl in *. lia.
  - apply Forall_app in Hall as [? [_ ?]%Forall_cons]. apply Forall_app; auto.
Qed.

Lemma append_entry N st e :
  store_wf N st → (length (entries st) < N)%nat → re_topic e ∉ (re_topic <$> entries st) →
  entry_wf e →
  let st' := {| entries := entries st ++ [e] |} in
  to_map st' = <[re_topic e := (re_payload e, re_qos e)]> (to_map st) ∧ store_wf N st'.
Proof.
  intros (Hlen & Hnd & Hall) Hlt Hni Hwf.
  destruct (kmap_append _ (λ e, (re_payload e, re_qos e)) _ _ Hnd Hni) as [? ?].
  split; [done|]. split_and!; simpl; [|done|].
  - rewrite length_app. simpl. lia.
  - apply Forall_app; auto.
Qed.

Section spec.
Context `{Heapless}.
Context (N : nat).

(** On a well-formed store [set] answers what the bounded map answers,
    performs the map's update (insert, or delete on an empty payload) when it
    succeeds, leaves the store alone when it fails, and keeps the store
    well-formed. *)
Lemma set_spec (st : RetainedStore) (topic : string) (payload : list Z) (qos : QoS) :
  store_wf N st →
  let '(r, st') := set N st topic payload qos in
  r = map_set_answer N (to_map st) topic payload ∧
  to_map st' = (if is_ok r then map_set (to_map st) topic payload qos else to_map st) ∧
  store_wf N st'.
Proof.
  intros Hwf. unfold set, map_set_answer, map_set. pose proof Hwf as (Hlen & Hnd & _).
  rewrite string_try_from_spec. destruct (decide (_ ≤ 128)%nat) as [Ht|Ht].
  2:{ rewrite decide_True by lia. done. }
  rewrite (decide_False (P := (128 < _)%nat)) by lia.
  destruct (topic_position topic (entries st)) as [i|] eqn:Hpos.
  - destruct (key_position_split _ _ _ _ Hpos) as (l1 & e & l2 & Heq & <- & <-).
    destruct st as [l]; simpl in *; subst l.
    destruct (decide (payload = [])) as [->|Hp].
    { rewrite delete_middle. destruct (remove_entry N l1 e l2 Hwf). done. }
    rewrite vec_from_slice_spec. destruct (decide (_ ≤ 512)%nat) as [Hle|Hle].
    2:{ rewrite decide_True by lia. done. }
    rewrite (decide_False (P := (512 < _)%nat)) by lia. rewrite decide_True.
    2:{ left. unfold to_map. simpl. destruct (kmap_split _ (λ e, (re_payload e, re_qos e)) _ _ _ Hnd)
          as [-> _]. rewrite lookup_insert_eq. eauto. }
    rewrite alter_middle.
    by destruct (replace_entry N l1 e {| re_topic := re_topic e; re_payload := payload;
      re_qos := qos |} l2 Hwf eq_refl ltac:(done)).
  - apply key_position_None in Hpos.
    destruct (decide (payload = [])) as [->|Hp].
    { simpl. rewrite delete_id; [done|]. by apply kmap_None. }
    rewrite vec_from_slice_spec. destruct (decide (_ ≤ 512)%nat) as [Hle|Hle].
    2:{ rewrite decide_True by lia. done. }
    rewrite (decide_False (P := (512 < _)%nat)) by lia.
    assert (size (to_map st) = length (entries st)) as -> by (by apply kmap_size).
    rewrite vec_push_spec. destruct (decide (_ < N)%nat) as [Hlt|Hlt].
    + rewrite decide_True by auto.
      by destruct (append_entry N st {| re_topic := topic; re_payload := payload; re_qos := qos |}
        Hwf Hlt Hpos ltac:(done)).
    + rewrite decide_False; [done|]. intros [Hs|?]; [|done].
      apply (kmap_None _ (λ e, (re_payload e, re_qos e))) in Hpos. unfold to_map in Hs. rewrite Hpos in Hs. by destruct Hs.
Qed.

(** [matching] is what the map holds for the matching topics. *)
Lemma matching_spec st filter t p q :
  store_wf N st →
  {| re_topic := t; re_payload := p; re_qos := q |} ∈ matching st filter ↔
  to_map st !! t = Some (p, q) ∧ topic_matches filter t = true.
Proof.
  intros (_ & Hnd & _). unfold matching, to_map. rewrite list_elem_of_filter, kmap_Some by done.
  simpl. split; [naive_solver|]. intros [([t' p' q'] & Hin & Ht & Hpq) ?]. by simplify_eq/=.
Qed.

(** A history of [set] calls on the store and on the map. *)
Fixpoint run_sets (st : RetainedStore) (calls : list (string * list Z * QoS))
  : list (result RetainedError unit) * RetainedStore :=
  match calls with
  | [] => ([], st)
  | (t, p, q) :: calls =>
      let '(r, st) := set N st t p q in
      let '(rs, st) := run_sets st calls in (r :: rs, st)
  end.

Fixpoint run_map_sets (m : gmap string (list Z * QoS)) (calls : list (string * list Z * QoS))
  : list (result RetainedError unit) * gmap string (list Z * QoS) :=
  match calls with
  | [] => ([], m)
  | (t, p, q) :: calls =>
      let r := map_set_answer N m t p in
      let '(rs, m) := run_map_sets (if is_ok r then map_set m t p q else m) calls in (r :: rs, m)
  end.

Lemma run_sets_spec st calls :
  store_wf N st →
  let '(rs, st') := run_sets st calls in
  (rs, to_map st') = run_map_sets (to_map st) calls ∧ store_wf N st'.
Proof.
  revert st. induction calls as [|[[t p] q] calls IH]; intros st Hwf; [done|].
  cbn [run_sets run_map_sets]. pose proof (set_spec st t p q Hwf) as Hs.
  destruct (set N st t p q) as [r st1]. destruct Hs as (-> & Hm & Hwf1).
  specialize (IH st1 Hwf1). rewrite Hm in IH.
  destruct (run_sets st1 calls) as [rs st2]. destruct IH as [<- ?]. done.
Qed.

(** C29: the retained store is a bounded finite map from topics to (payload,
    QoS).  Along any history of [set] calls from the empty store, every answer
    is the bounded map's (a topic over 128 bytes, a payload over 512 bytes and
    a new topic in a full store are the three errors; an empty payload always
    succeeds and deletes), the contents are the map's, and a lookup by filter
    yields exactly the map's entries whose topic matches. *)
Theorem retained_store_refines_map (calls : list (string * list Z * QoS)) :
  let '(rs, st) := run_sets new calls in
  let '(rs', m) := run_map_sets ∅ calls in
  rs = rs' ∧ to_map st = m ∧ (len st ≤ N)%nat ∧
  ∀ filter t p q,
    {| re_topic := t; re_payload := p; re_qos := q |} ∈ matching st filter ↔
    m !! t = Some (p, q) ∧ topic_matches filter t = true.
Proof.
  assert (store_wf N new) as Hwf by (split_and!; [simpl; lia|constructor|constructor]).
  pose proof (run_sets_spec new calls Hwf) as Hs. destruct (run_sets new calls) as [rs st].
  destruct Hs as [Heq Hwf']. change (to_map new) with (∅ : gmap string (list Z * QoS)) in Heq.
  rewrite <-Heq. split_and!; [done|done|apply Hwf'|]. intros. by apply matching_spec.
Qed.
End spec.
End Retained.
