(* ===== verification/Router.v ===== *)
(** * Router: who receives a publish ([router/dispatcher.rs],
    [collect_subscribers] of [router/subscriptions.rs])

    The three walks over the session table that compute delivery lists.
    [find_subscribers_spec] says that the list is exactly the set of sessions
    with a matching subscription, each once, in slot order, at the highest QoS
    among its matching subscriptions, and that no capacity truncates it. *)

From S2P Require Import Prelude External Reference Topics Session Registry.

Module Router.
Import Topics Session Registry.

(** The inner loop over the subscriptions of one session. *)
Fixpoint matched_qos (topic : string) (acc : option QoS) (subs : list Subscription) : option QoS :=
  match subs with
  | [] => acc
  | sub :: subs =>
      let acc := if topic_matches (sub_filter sub) topic
                 then Some (match acc with
                            | Some current => max_qos current (sub_qos sub)
                            | None => sub_qos sub
                            end)
                 else acc in
      matched_qos topic acc subs
  end.

Section ops.
Context `{Heapless}.

(** [let _ = v.push(x);] *)
Definition push_ignore {A} (cap : nat) (v : list A) (x : A) : list A :=
  default v (vec_push cap v x).

Definition find_subscribers (N : nat) (reg : SessionRegistry) (topic : string)
  (sender_id : SessionId) : list (SessionId * QoS) :=
  foldl (λ subscribers '(session_id, session),
    if decide (session_id = sender_id) then subscribers
    else match matched_qos topic None (subscriptions session) with
         | Some qos => push_ignore N subscribers (session_id, qos)
         | None => subscribers
         end) [] (iter reg).

Definition find_all_subscribers (N : nat) (reg : SessionRegistry) (topic : string)
  : list (SessionId * QoS) :=
  foldl (λ subscribers '(session_id, session),
    match matched_qos topic None (subscriptions session) with
    | Some qos => push_ignore N subscribers (session_id, qos)
    | None => subscribers
    end) [] (iter reg).

Definition collect_subscribers (MAX_MATCHES : nat) (reg : SessionRegistry) (topic : string)
  : list SessionId :=
  foldl (λ subscribers '(session_id, state),
    if existsb (λ sub, topic_matches (sub_filter sub) topic) (subscriptions state)
       && negb (existsb (λ existing, bool_decide (existing = session_id)) subscribers)
    then push_ignore MAX_MATCHES subscribers session_id
    else subscribers) [] (iter reg).
End ops.

(** ** The loops as filters *)

(** [q] is the best QoS among the subscriptions that match. *)
Definition best_match (topic : string) (subs : list Subscription) (q : QoS) : Prop :=
  (∃ sub, sub ∈ subs ∧ topic_matches (sub_filter sub) topic = true ∧ sub_qos sub = q) ∧
  (∀ sub, sub ∈ subs → topic_matches (sub_filter sub) topic = true →
     qos_rank (sub_qos sub) ≤ qos_rank q).

Lemma matched_qos_spec topic acc subs :
  match matched_qos topic acc subs with
  | Some q =>
      (acc = Some q ∨
       ∃ sub, sub ∈ subs ∧ topic_matches (sub_filter sub) topic = true ∧ sub_qos sub = q) ∧
      (∀ q', acc = Some q' → qos_rank q' ≤ qos_rank q) ∧
      (∀ sub, sub ∈ subs → topic_matches (sub_filter sub) topic = true →
         qos_rank (sub_qos sub) ≤ qos_rank q)
  | None => acc = None ∧ ∀ sub, sub ∈ subs → topic_matches (sub_filter sub) topic = false
  end.
Proof.
  revert acc. induction subs as [|s subs IH]; intros acc.
  { cbn. destruct acc; [|set_solver]. split_and!; [by left|naive_solver|set_solver]. }
  cbn [matched_qos]. set (acc' := if topic_matches _ _ then _ else _). specialize (IH acc').
  destruct (matched_qos topic acc' subs) as [q|].
  - destruct IH as (Hex & Hacc & Hall). subst acc'.
    destruct (topic_matches (sub_filter s) topic) eqn:Hm.
    + specialize (Hacc _ eq_refl). destruct acc as [c|].
      * pose proof (max_qos_rank c (sub_qos s)) as Hmax. split_and!.
        -- destruct Hex as [[= Hq]|?]; [|right; set_solver].
           unfold max_qos in Hq. case_decide; [left; congruence|right; set_solver].
        -- intros q' [= <-]. lia.
        -- intros sub [->|?]%elem_of_cons ?; [lia|auto].
      * split_and!; [|done|].
        -- right. destruct Hex as [[= Hq]|?]; set_solver.
        -- intros sub [->|?]%elem_of_cons ?; [lia|auto].
    + split_and!; [|done|].
      * destruct Hex; [by left|right; set_solver].
      * intros sub [->|?]%elem_of_cons ?; [congruence|auto].
  - destruct IH as [Hacc Hall]. subst acc'.
    destruct (topic_matches (sub_filter s) topic) eqn:Hm; [done|]. split; [done|].
    intros sub [->|?]%elem_of_cons; auto.
Qed.

Lemma matched_qos_Some topic subs q :
  matched_qos topic None subs = Some q → best_match topic subs q.
Proof.
  intros Hq. pose proof (matched_qos_spec topic None subs) as Hs. rewrite Hq in Hs.
  destruct Hs as ([?|?] & _ & ?); [done|]. by split.
Qed.

Lemma best_match_unique topic subs q :
  best_match topic subs q → matched_qos topic None subs = Some q.
Proof.
  intros [(sub & Hin & Hm & <-) Hmax]. pose proof (matched_qos_spec topic None subs) as Hs.
  destruct (matched_qos topic None subs) as [q'|].
  - destruct Hs as ([?|(sub' & ? & ? & <-)] & _ & Hall); [done|].
    f_equal. apply qos_rank_inj. specialize (Hall _ Hin Hm). specialize (Hmax sub' ltac:(done) ltac:(done)). lia.
  - destruct Hs as [_ Hs]. rewrite (Hs _ Hin) in Hm. done.
Qed.

(** ** Pushing into a bounded vector *)
Section push.
Context `{Heapless}.

Lemma push_ignore_take {A} cap (v : list A) x :
  (length v ≤ cap)%nat → push_ignore cap v x = take cap (v ++ [x]).
Proof.
  intros Hv. unfold push_ignore. rewrite vec_push_spec. case_decide; simpl.
  - by rewrite take_ge by (rewrite length_app; simpl; lia).
  - by rewrite take_app_le, take_ge by lia.
Qed.

(** A loop that pushes what [f] selects keeps the first [cap] of it. *)
Lemma collect_foldl {A B} (f : A → option B) cap (l : list A) acc :
  (length acc ≤ cap)%nat →
  foldl (λ acc x, match f x with Some y => push_ignore cap acc y | None => acc end) acc l =
  take cap (acc ++ omap f l).
Proof.
  revert acc. induction l as [|x l IH]; intros acc Hacc; simpl.
  { by rewrite app_nil_r, take_ge. }
  destruct (f x) as [y|]; [|by apply IH].
  rewrite push_ignore_take, IH by (rewrite ?length_take; lia).
  destruct (decide (length acc < cap)%nat).
  - rewrite (take_ge (acc ++ [y])) by (rewrite length_app; simpl; lia).
    by rewrite <-app_assoc.
  - assert (∀ k : list B, take cap (acc ++ k) = acc) as Htake.
    { intros k. by rewrite take_app_le, take_ge by lia. }
    by rewrite !Htake.
Qed.

Lemma push_all_foldl {A B} (g : A → B) cap (l : list A) acc :
  (length acc ≤ cap)%nat →
  foldl (λ acc x, push_ignore cap acc (g x)) acc l = take cap (acc ++ (g <$> l)).
Proof.
  intros Hacc. etrans; [exact (collect_foldl (λ x, Some (g x)) cap l acc Hacc)|].
  by f_equal.
Qed.
End push.

Lemma omap_length {A B} (f : A → option B) (l : list A) : (length (omap f l) ≤ length l)%nat.
Proof. induction l as [|x l IH]; simpl; [lia|]. destruct (f x); simpl; unfold omap in *; lia. Qed.

(** What the walk selects for one session. *)
Definition select (topic : string) (excluded : SessionId → Prop) `{∀ i, Decision (excluded i)}
  (p : SessionId * SessionState) : option (SessionId * QoS) :=
  if decide (excluded p.1) then None
  else (λ q, (p.1, q)) <$> matched_qos topic None (subscriptions p.2).

Lemma select_Some topic excluded `{∀ i, Decision (excluded i)} p id q :
  select topic excluded p = Some (id, q) ↔
  p.1 = id ∧ ¬ excluded id ∧ best_match topic (subscriptions p.2) q.
Proof.
  unfold select. destruct p as [i s]; simpl. case_decide as Hex.
  { split; [done|]. by intros (<- & ? & _). }
  rewrite fmap_Some. split.
  - intros (q' & Hq & [= -> ->]). split_and!; [done|done|]. by apply matched_qos_Some.
  - intros (-> & _ & Hq%best_match_unique). eauto.
Qed.

Lemma select_sorted topic excluded `{∀ i, Decision (excluded i)} l :
  StronglySorted lt l.*1 →
  StronglySorted lt (omap (select topic excluded) l).*1.
Proof.
  induction l as [|[i s] l IH]; simpl; [constructor|].
  intros [Hs Hall]%StronglySorted_inv. specialize (IH Hs).
  destruct (select topic excluded (i, s)) as [[i' q]|] eqn:E; [|done]. simpl.
  apply select_Some in E as (<- & _). constructor; [done|]. simpl.
  rewrite List.Forall_forall in *. intros j Hj.
  apply list_elem_of_In in Hj. apply list_elem_of_fmap in Hj as ([j' q'] & -> & Hj).
  apply list_elem_of_omap in Hj as ([k sk] & Hk & (<- & _)%select_Some).
  simpl. apply Hall, list_elem_of_In, list_elem_of_fmap. by exists (k, sk).
Qed.

Section spec.
Context `{Heapless}.
Context (N : nat) (reg : SessionRegistry).
Context (Hlen : length (slots reg) = N).

Lemma walk_complete {B} (f : SessionId * SessionState → option B) :
  foldl (λ acc p, match f p with Some y => push_ignore N acc y | None => acc end) [] (iter reg)
  = omap f (iter reg).
Proof using Hlen.
  rewrite collect_foldl by (simpl; lia). apply take_ge.
  pose proof (omap_length f (iter reg)) as H1. pose proof (length_iter_from 0 (slots reg)) as H2.
  unfold iter in *. simpl. lia.
Qed.

Lemma foldl_ext {A B} (f g : A → B → A) l a :
  (∀ a b, f a b = g a b) → foldl f a l = foldl g a l.
Proof. intros Hfg. revert a. induction l as [|b l IH]; intros a; simpl; [done|]. by rewrite Hfg, IH. Qed.

Lemma find_subscribers_omap topic sender :
  find_subscribers N reg topic sender = omap (select topic (λ i, i = sender)) (iter reg).
Proof using Hlen.
  rewrite <-walk_complete. unfold find_subscribers. apply foldl_ext.
  intros acc [id s]. unfold select. simpl. case_decide; [done|]. by destruct (matched_qos _ _ _).
Qed.

Lemma find_all_subscribers_omap topic :
  find_all_subscribers N reg topic = omap (select topic (λ _, False)) (iter reg).
Proof using Hlen.
  rewrite <-walk_complete. unfold find_all_subscribers. apply foldl_ext.
  intros acc [id s]. unfold select. simpl. by destruct (matched_qos _ _ _).
Qed.

Lemma elem_of_walk topic excluded `{∀ i, Decision (excluded i)} id q :
  (id, q) ∈ omap (select topic excluded) (iter reg) ↔
  ∃ s, get reg id = Some s ∧ ¬ excluded id ∧ best_match topic (subscriptions s) q.
Proof.
  rewrite list_elem_of_omap. split.
  - intros ([i s] & Hi%elem_of_iter & (<- & ? & ?)%select_Some). eauto.
  - intros (s & Hg%elem_of_iter & ? & ?). exists (id, s). rewrite select_Some. auto.
Qed.

End spec.

(** C24: routing is exact.  In a table of [N] slots the delivery list of a
    publish contains a session at QoS [q] if and only if the session is
    connected, is not the sender, and [q] is the highest QoS among its
    subscriptions that match the topic; the list is in strictly increasing
    slot order, so every session appears at most once and the capacity [N] of
    the list never truncates it. *)
Theorem find_subscribers_spec `{Heapless} (N : nat) (reg : SessionRegistry) (topic : string)
  (sender : SessionId) :
  length (slots reg) = N →
  let subs := find_subscribers N reg topic sender in
  (∀ id q, (id, q) ∈ subs ↔
     ∃ s, get reg id = Some s ∧ id ≠ sender ∧ best_match topic (subscriptions s) q) ∧
  StronglySorted lt subs.*1.
Proof.
  intros Hlen. simpl. rewrite find_subscribers_omap by done. split.
  - intros id q. apply (elem_of_walk reg topic (λ i, i = sender)).
  - apply select_sorted. unfold iter. apply iter_from_sorted.
Qed.

Lemma find_subscribers_spec_witness :
  (0%nat, AtLeastOnce) ∈ find_subscribers 1 (put (Registry.new 1 1) 0
     (set_subscriptions (Session.new "c" 0)
        [{| sub_filter := "a/+"; sub_qos := AtLeastOnce |}])) "a/b" 7.
Proof.
  apply (find_subscribers_spec 1 (put (Registry.new 1 1) 0
     (set_subscriptions (Session.new "c" 0)
        [{| sub_filter := "a/+"; sub_qos := AtLeastOnce |}])) "a/b" 7%nat eq_refl).
  eexists. split; [reflexivity|]. split; [lia|]. split.
  - exists {| sub_filter := "a/+"; sub_qos := AtLeastOnce |}.
    split; [apply list_elem_of_here|]. split; reflexivity.
  - simpl. intros sub Hs _. apply list_elem_of_singleton in Hs as ->. reflexivity.
Defined.

(** The broker's own publishes go to every matching session. *)
Lemma find_all_subscribers_spec `{Heapless} (N : nat) (reg : SessionRegistry) topic :
  length (slots reg) = N →
  ∀ id q, (id, q) ∈ find_all_subscribers N reg topic ↔
    ∃ s, get reg id = Some s ∧ best_match topic (subscriptions s) q.
Proof.
  intros Hlen id q. rewrite find_all_subscribers_omap by done.
  rewrite (elem_of_walk reg topic (λ _, False)). naive_solver.
Qed.

(** [collect_subscribers] keeps the first [MAX_MATCHES] of the matching
    sessions; the duplicate test never fires because ids are distinct. *)
Lemma collect_subscribers_spec `{Heapless} (cap : nat) (reg : SessionRegistry) topic :
  collect_subscribers cap reg topic =
  take cap (omap (λ p, if existsb (λ sub, topic_matches (sub_filter sub) topic)
                            (subscriptions p.2)
                       then Some p.1 else None) (iter reg)).
Proof.
  unfold collect_subscribers, iter. pose proof (iter_from_sorted 0 (slots reg)) as [Hs _].
  set (f := λ p : SessionId * SessionState, if existsb _ _ then Some p.1 else None).
  rewrite <-(app_nil_l (omap f _)), <-collect_foldl by (simpl; lia).
  assert (Forall (λ a : nat, Forall (λ b, (a < b)%nat) (iter_from 0 (slots reg)).*1) []) as Hacc
    by constructor.
  revert Hs Hacc. generalize ([] : list nat). generalize (iter_from 0 (slots reg)).
  induction l as [|[id s] l IH]; intros acc Hs Hacc; [done|]. cbn [foldl].
  simpl in Hs. apply StronglySorted_inv in Hs as [Hs Hid].
  assert (existsb (λ existing, bool_decide (existing = id)) acc = false) as ->.
  { apply not_true_iff_false. rewrite existsb_exists. intros (a & Ha & ->%bool_decide_eq_true).
    rewrite List.Forall_forall in Hacc. specialize (Hacc _ Ha). simpl in Hacc.
    apply Forall_cons in Hacc as [? _]. lia. }
  assert (∀ acc', (∀ a, a ∈ acc' → a ∈ acc ∨ a = id) →
    Forall (λ a, Forall (λ b, (a < b)%nat) l.*1) acc') as Hacc'.
  { intros acc' Hsub. apply Forall_forall. intros a [Ha| ->]%Hsub; [|done].
    rewrite Forall_forall in Hacc. specialize (Hacc _ Ha). by apply Forall_cons in Hacc as [_ ?]. }
  unfold f at 2. simpl. rewrite andb_true_r. destruct (existsb _ (subscriptions s)).
  - apply IH; [done|]. apply Hacc'. intros a. unfold push_ignore.
    destruct (vec_push cap acc id) eqn:E; simpl; [|auto].
    apply vec_push_Some in E as [_ ->]. rewrite elem_of_app, list_elem_of_singleton. auto.
  - apply IH; [done|]. apply Hacc'. auto.
Qed.
End Router.
