(* ===== verification/Connect.v ===== *)
(** * Connect: the CONNECT handler ([handler/connect.rs])

    Constant-time credential comparison, session takeover and resumption,
    CONNACK.  [prepare_connect] works on the session table alone;
    [handle_connect] adds the transport.  The theorems: the comparison decides
    equality; a CONNECT without the right protocol, client id and house token
    changes nothing; the table invariant is kept and the [unwrap] never
    panics; an accepted CONNECT leaves exactly one session of that client and
    does not touch the others. *)

From S2P Require Import Prelude External Reference Topics RateLimit Session Registry Transport.
From S2P Require Import Frame Invariants.

Module Connect.
Import Session Registry Frame Invariants.

Record HouseToken := { ht_username : string; ht_password : string }.

Record ConnectOutcome := {
  co_session_id : SessionId;
  co_displaced_lwt : option LwtMessage;
  co_session_present : bool;
}.

Inductive PreparedConnect :=
| PcAccepted (outcome : ConnectOutcome)
| PcRejected (code : ConnectReturnCode).

Inductive ConnectError (W : Type) :=
| CeRejected (code : ConnectReturnCode)
| CeWrite (w : W)
| CeRegistry (e : RegistryError)
| CeClientIdTooLong
| CeWillTopicTooLong
| CeWillPayloadTooLarge.
Arguments CeRejected {W} code.
Arguments CeWrite {W} w.
Arguments CeRegistry {W} e.
Arguments CeClientIdTooLong {W}.
Arguments CeWillTopicTooLong {W}.
Arguments CeWillPayloadTooLarge {W}.

(** The comparison looks at every index up to the longer length. *)
Definition ct_eq (lhs rhs : list Z) : bool :=
  let max_len := Nat.max (length lhs) (length rhs) in
  let diff := Z.lxor (Z.of_nat (length lhs)) (Z.of_nat (length rhs)) in
  let diff := foldl (λ diff idx,
    let left := default 0 (lhs !! idx) in
    let right := default 0 (rhs !! idx) in
    Z.lor diff (Z.lxor left right)) diff (seq 0 max_len) in
  bool_decide (diff = 0).

Definition matches_house_token (packet : Connect) (token : HouseToken) : bool :=
  match cn_username packet with
  | None => false
  | Some username =>
      match cn_password packet with
      | None => false
      | Some password =>
          ct_eq (as_bytes username) (as_bytes (ht_username token))
          && ct_eq password (as_bytes (ht_password token))
      end
  end.

Section ops.
Context `{Heapless}.

Definition to_client_id {W} (client_id : string) : result (ConnectError W) string :=
  ok_or CeClientIdTooLong (string_try_from 64 client_id).

Definition to_lwt {W} (packet : Connect) : result (ConnectError W) (option LwtMessage) :=
  match cn_last_will packet with
  | None => Ok None
  | Some last_will =>
      topic ← ok_or CeWillTopicTooLong (string_try_from 128 (lw_topic last_will));
      payload ← ok_or CeWillPayloadTooLarge (vec_from_slice 512 (lw_message last_will));
      mret (Some {| lwt_topic := topic; lwt_payload := payload;
                    lwt_qos := lw_qos last_will; lwt_retain := lw_retain last_will |})
  end.

Context (MAX_SESSIONS : nat).

(** The resume branch: [registry.get_mut(existing_id).unwrap()]. *)
Definition resume_session (reg : SessionRegistry) (existing_id : SessionId) (packet : Connect)
  : outcome (result (ConnectError Empty_set) PreparedConnect) * SessionRegistry :=
  match get reg existing_id with
  | None => (Panic, reg)
  | Some session =>
      match to_lwt packet with
      | Err e => (Done (Err e), reg)
      | Ok l =>
          let session := set_lwt session l in
          let session := set_keepalive_secs session (cn_keep_alive packet) in
          let session := set_quarantined session false in
          let session := set_outbox_drops session 0 in
          (Done (Ok (PcAccepted {| co_session_id := existing_id; co_displaced_lwt := None;
                                   co_session_present := true |})),
           put reg existing_id session)
      end
  end.

(** [if let Some(lwt) = displaced_lwt { registry.record_published_lwt(lwt)?; }] *)
Definition record_displaced (reg : SessionRegistry) (displaced : option LwtMessage)
  : result (ConnectError Empty_set) unit * SessionRegistry :=
  match displaced with
  | None => (Ok tt, reg)
  | Some l => let '(r, reg) := record_published_lwt MAX_SESSIONS reg l in
              (map_err CeRegistry r, reg)
  end.

(** Dropping a previous session of the same client. *)
Definition discard_previous (reg : SessionRegistry) (cid : string)
  : option LwtMessage * SessionRegistry :=
  match find_by_client_id reg cid with
  | None => (None, reg)
  | Some existing_id =>
      match remove reg existing_id with
      | (Some previous, reg) => (lwt previous, reg)
      | (None, reg) => (None, reg)
      end
  end.

Definition fresh_session (reg : SessionRegistry) (packet : Connect)
  : result (ConnectError Empty_set) PreparedConnect * SessionRegistry :=
  let '(displaced_lwt, reg) := discard_previous reg (cn_client_id packet) in
  if is_full MAX_SESSIONS reg then
    match record_displaced reg displaced_lwt with
    | (Err e, reg) => (Err e, reg)
    | (Ok _, reg) => (Ok (PcRejected ServerUnavailable), reg)
    end
  else
    match (cid ← to_client_id (cn_client_id packet); l ← to_lwt packet; mret (cid, l)) with
    | Err e => (Err e, reg)
    | Ok (cid, l) =>
        let state := set_lwt (Session.new cid (cn_keep_alive packet)) l in
        match Registry.insert reg state with
        | (Err e, reg) => (Err (CeRegistry e), reg)
        | (Ok session_id, reg) =>
            match record_displaced reg displaced_lwt with
            | (Err e, reg) => (Err e, reg)
            | (Ok _, reg) =>
                (Ok (PcAccepted {| co_session_id := session_id;
                       co_displaced_lwt := displaced_lwt; co_session_present := false |}), reg)
            end
        end
    end.

Definition prepare_connect (reg : SessionRegistry) (packet : Connect) (token : HouseToken)
  : outcome (result (ConnectError Empty_set) PreparedConnect) * SessionRegistry :=
  if decide (cn_protocol packet ≠ MQTT311)
  then (Done (Ok (PcRejected RefusedProtocolVersion)), reg)
  else if decide (cn_client_id packet = EmptyString)
  then (Done (Ok (PcRejected RefusedIdentifierRejected)), reg)
  else if negb (matches_house_token packet token)
  then (Done (Ok (PcRejected BadUsernamePassword)), reg)
  else
    let fresh := let '(r, reg) := fresh_session reg packet in (Done r, reg) in
    if cn_clean_session packet then fresh
    else match find_by_client_id reg (cn_client_id packet) with
         | Some existing_id => resume_session reg existing_id packet
         | None => fresh
         end.
End ops.

(** ** CONNACK and the whole handler *)
Section transport.
Context `{Heapless} `{Mqttrs} `{Transport T E}.
Context (MAX_SESSIONS MAX_PACKET_SIZE : nat).

Definition write_connack (t : T) (code : ConnectReturnCode) (session_present : bool)
  : result (WriteError mqtt_error E) unit * T :=
  write_packet MAX_PACKET_SIZE t
    (PConnack {| ca_session_present := session_present; ca_code := code |}).

Definition reject_connect (t : T) (code : ConnectReturnCode)
  : result (ConnectError (WriteError mqtt_error E)) ConnectOutcome * T :=
  match write_connack t code false with
  | (Err w, t) => (Err (CeWrite w), t)
  | (Ok _, t) => (Err (CeRejected code), t_close t)
  end.

Definition handle_connect_with_outcome (t : T) (reg : SessionRegistry) (packet : Connect)
  (token : HouseToken)
  : outcome (result (ConnectError (WriteError mqtt_error E)) ConnectOutcome) * SessionRegistry * T :=
  match prepare_connect MAX_SESSIONS reg packet token with
  | (Done (Ok (PcAccepted o)), reg) =>
      match write_connack t Accepted (co_session_present o) with
      | (Err w, t) => (Done (Err (CeWrite w)), reg, t)
      | (Ok _, t) => (Done (Ok o), reg, t)
      end
  | (Done (Ok (PcRejected code)), reg) =>
      let '(r, t) := reject_connect t code in (Done r, reg, t)
  | (Done (Err e), reg) =>
      match e with
      | CeRegistry e => (Done (Err (CeRegistry e)), reg, t)
      | CeClientIdTooLong => (Done (Err CeClientIdTooLong), reg, t)
      | CeWillTopicTooLong => (Done (Err CeWillTopicTooLong), reg, t)
      | CeWillPayloadTooLarge => (Done (Err CeWillPayloadTooLarge), reg, t)
      | CeRejected code => let '(r, t) := reject_connect t code in (Done r, reg, t)
      | CeWrite w => match w with end
      end
  | (Pending, reg) => (Pending, reg, t)
  | (Panic, reg) => (Panic, reg, t)
  end.

Definition handle_connect (t : T) (reg : SessionRegistry) (packet : Connect) (token : HouseToken)
  : outcome (result (ConnectError (WriteError mqtt_error E)) SessionId) * SessionRegistry * T :=
  let '(r, reg, t) := handle_connect_with_outcome t reg packet token in
  (match r with
   | Done r => Done (co_session_id <$> r) | Pending => Pending | Panic => Panic
   end, reg, t).
End transport.

(** ** The credential comparison *)
Lemma ct_fold_zero (lhs rhs : list Z) diff l :
  foldl (λ diff idx, Z.lor diff (Z.lxor (default 0 (lhs !! idx)) (default 0 (rhs !! idx)))) diff l
    = 0 ↔
  diff = 0 ∧ Forall (λ idx, default 0 (lhs !! idx) = default 0 (rhs !! idx)) l.
Proof.
  revert diff. induction l as [|idx l IH]; intros diff; simpl.
  { rewrite Forall_nil. tauto. }
  rewrite IH, Z.lor_eq_0_iff, Z.lxor_eq_0_iff, Forall_cons. tauto.
Qed.

(** The constant-time comparison decides equality: no pair of different byte
    strings, of equal or different length, compares equal. *)
Lemma ct_eq_iff (lhs rhs : list Z) : ct_eq lhs rhs = true ↔ lhs = rhs.
Proof.
  unfold ct_eq. rewrite bool_decide_eq_true, ct_fold_zero, Z.lxor_eq_0_iff. split.
  - intros [Hlen Hall]. apply Nat2Z.inj in Hlen. apply list_eq. intros i.
    destruct (decide (i < length lhs)%nat) as [Hi|Hi].
    + rewrite Forall_forall in Hall. specialize (Hall i).
      rewrite elem_of_seq in Hall. specialize (Hall ltac:(lia)).
      destruct (lookup_lt_is_Some_2 lhs i Hi) as [x Hx].
      destruct (lookup_lt_is_Some_2 rhs i ltac:(lia)) as [y Hy].
      rewrite Hx, Hy in *. simpl in Hall. congruence.
    + by rewrite !lookup_ge_None_2 by lia.
  - intros ->. split; [done|]. by apply Forall_forall.
Qed.

Lemma matches_house_token_iff packet token :
  matches_house_token packet token = true ↔
  cn_username packet = Some (ht_username token) ∧
  cn_password packet = Some (as_bytes (ht_password token)).
Proof.
  unfold matches_house_token. destruct (cn_username packet) as [u|]; [|naive_solver].
  destruct (cn_password packet) as [p|]; [|naive_solver].
  rewrite andb_true_iff, !ct_eq_iff. split.
  - intros [->%as_bytes_inj ->]. done.
  - intros [[= ->] [= ->]]. done.
Qed.

(** What a CONNECT must carry to be considered at all. *)
Definition acceptable (packet : Connect) (token : HouseToken) : Prop :=
  cn_protocol packet = MQTT311 ∧ cn_client_id packet ≠ EmptyString ∧
  cn_username packet = Some (ht_username token) ∧
  cn_password packet = Some (as_bytes (ht_password token)).

(** C16: authentication.  A CONNECT that does not speak MQTT 3.1.1, has an empty
    client id, or does not carry exactly the house token's user name and
    password is rejected with a return code and leaves the session table
    untouched: nobody displaces or resumes a session without the token. *)
Theorem unauthenticated_connect_is_inert `{Heapless} (MAX_SESSIONS : nat) (reg : SessionRegistry)
  (packet : Connect) (token : HouseToken) :
  ¬ acceptable packet token →
  ∃ code, prepare_connect MAX_SESSIONS reg packet token = (Done (Ok (PcRejected code)), reg)
          ∧ code ≠ Accepted.
Proof.
  intros Hna. unfold prepare_connect.
  case_decide as Hp; [by eexists|]. case_decide as Hc; [by eexists|].
  destruct (matches_house_token packet token) eqn:Hm; simpl; [|by eexists].
  destruct Hna. apply matches_house_token_iff in Hm as [? ?].
  split_and!; try done.
Qed.

Lemma unauthenticated_connect_is_inert_witness :
  ∃ code, prepare_connect 1 (Registry.new 1 1)
    {| cn_protocol := MQTT311; cn_keep_alive := 30; cn_client_id := "c";
       cn_clean_session := true; cn_last_will := None; cn_username := Some "house";
       cn_password := Some (as_bytes "secreT") |}
    {| ht_username := "house"; ht_password := "secret" |}
    = (Done (Ok (PcRejected code)), Registry.new 1 1) ∧ code ≠ Accepted.
Proof.
  apply (unauthenticated_connect_is_inert 1 (Registry.new 1 1)
    {| cn_protocol := MQTT311; cn_keep_alive := 30; cn_client_id := "c";
       cn_clean_session := true; cn_last_will := None; cn_username := Some "house";
       cn_password := Some (as_bytes "secreT") |}
    {| ht_username := "house"; ht_password := "secret" |}).
  intros (_ & _ & _ & Hp). vm_compute in Hp. discriminate Hp.
Defined.

(** ** Effect on the table *)
Section spec.
Context `{Heapless}.
Context (MAX_SUBS MAX_INFLIGHT MAX_SESSIONS : nat).
Let inv := reg_inv MAX_SUBS MAX_INFLIGHT MAX_SESSIONS no_extra.

Lemma to_lwt_wf {W} packet l :
  to_lwt (W:=W) packet = Ok l → ∀ m, l = Some m → lwt_wf m.
Proof.
  unfold to_lwt. destruct (cn_last_will packet) as [w|]; [|by intros [= <-]].
  destruct (string_try_from 128 (lw_topic w)) as [t|] eqn:Ht; [|done].
  destruct (vec_from_slice 512 (lw_message w)) as [p|] eqn:Hp; [|done]. simpl.
  apply string_try_from_Some in Ht as [? ->]. apply vec_from_slice_Some in Hp as [? ->].
  intros [= <-] m [= <-]. done.
Qed.

Lemma session_wf_resume s packet l :
  session_wf MAX_SUBS MAX_INFLIGHT s → is_u16 (cn_keep_alive packet) →
  (∀ m, l = Some m → lwt_wf m) →
  session_wf MAX_SUBS MAX_INFLIGHT (set_outbox_drops (set_quarantined (set_keepalive_secs
    (set_lwt s l) (cn_keep_alive packet)) false) 0).
Proof. intros [] Hk Hl. by split. Qed.

Lemma inv_record_displaced reg d :
  inv reg → (∀ m, d = Some m → lwt_wf m) → inv (record_displaced MAX_SESSIONS reg d).2.
Proof using H.
  intros Hinv Hd. unfold record_displaced. destruct d as [l|]; [|done].
  pose proof (reg_inv_record_lwt _ _ _ _ _ l Hinv (Hd _ eq_refl)) as Hr.
  by destruct (record_published_lwt MAX_SESSIONS reg l).
Qed.

Lemma get_record_displaced reg d i :
  get (record_displaced MAX_SESSIONS reg d).2 i = get reg i.
Proof.
  unfold record_displaced. destruct d as [l|]; [|done].
  unfold record_published_lwt. by destruct (deque_push_back _ _ _).
Qed.

(** Discarding leaves no session of that client and all the others. *)
Lemma discard_previous_spec reg cid :
  inv reg →
  let '(d, reg') := discard_previous reg cid in
  inv reg' ∧ (∀ m, d = Some m → lwt_wf m) ∧
  (∀ i t, get reg' i = Some t ↔ get reg i = Some t ∧ client_id t ≠ cid).
Proof using H.
  intros Hinv. unfold discard_previous. destruct (find_by_client_id reg cid) as [id|] eqn:Hf.
  - destruct (find_by_client_id_Some _ _ _ Hf) as (s & Hs & <-).
    pose proof (reg_inv_remove _ _ _ _ _ id Hinv) as Hinv'.
    pose proof (get_remove reg id) as Hget. unfold remove in *. rewrite Hs in *. simpl in *.
    split_and!; [done|intros m Hm; by eapply (sw_lwt _ _ _ (ri_session _ _ _ _ _ Hinv _ _ Hs))|].
    intros i t. rewrite Hget. case_decide as Hi.
    + subst. split; [done|]. intros [Ht ?]. congruence.
    + split; [|by intros [? _]]. intros Ht. split; [done|]. intros Heq. destruct Hi.
      by eapply (ri_unique _ _ _ _ _ Hinv).
  - split_and!; [done|done|]. intros i t. split; [|by intros [? _]].
    intros Ht. split; [done|]. by eapply find_by_client_id_None.
Qed.

(** The session a fresh CONNECT creates. *)
Definition fresh_state (packet : Connect) (l : option LwtMessage) : SessionState :=
  set_lwt (Session.new (cn_client_id packet) (cn_keep_alive packet)) l.

(** Sessions of other clients are the same in both tables. *)
Definition others_same (cid : string) (reg reg' : SessionRegistry) : Prop :=
  ∀ i t, client_id t ≠ cid → get reg' i = Some t ↔ get reg i = Some t.

Lemma fresh_session_spec reg packet :
  inv reg → is_u16 (cn_keep_alive packet) →
  let '(r, reg') := fresh_session MAX_SESSIONS reg packet in
  inv reg' ∧ others_same (cn_client_id packet) reg reg' ∧
  match r with
  | Ok (PcAccepted o) => co_session_present o = false ∧
      ∃ l, to_lwt (W:=Empty_set) packet = Ok l ∧
           get reg' (co_session_id o) = Some (fresh_state packet l)
  | _ => True
  end.
Proof using H.
  intros Hinv Hka. unfold fresh_session.
  pose proof (discard_previous_spec reg (cn_client_id packet) Hinv) as Hd.
  destruct (discard_previous reg (cn_client_id packet)) as [d reg1].
  destruct Hd as (Hinv1 & Hdw & Hget1).
  assert (others_same (cn_client_id packet) reg reg1) as Hsame1.
  { intros i t Ht. rewrite Hget1. naive_solver. }
  destruct (is_full MAX_SESSIONS reg1).
  { pose proof (inv_record_displaced reg1 d Hinv1 Hdw) as Hinv2.
    pose proof (get_record_displaced reg1 d) as Hget2.
    destruct (record_displaced MAX_SESSIONS reg1 d) as [[u|e] reg2]; simpl in *;
      (split_and!; [done| |done]); intros i t Ht; rewrite Hget2; by apply Hsame1. }
  unfold to_client_id. destruct (string_try_from 64 (cn_client_id packet)) as [cid|] eqn:Hcid;
    [|done].
  apply string_try_from_Some in Hcid as [Hlen ->]. simpl.
  destruct (to_lwt (W:=Empty_set) packet) as [l|e] eqn:Hl; [|done]. simpl.
  change (set_lwt _ l) with (fresh_state packet l).
  destruct (Registry.insert reg1 (fresh_state packet l)) as [[id|e] reg2] eqn:Hins.
  2:{ unfold Registry.insert in Hins. case_match; simplify_eq. done. }
  assert (inv reg2) as Hinv2.
  { apply (reg_inv_insert _ _ _ _ reg1 (fresh_state packet l) id reg2 Hinv1); [|done| |exact Hins].
    - pose proof (session_wf_new MAX_SUBS MAX_INFLIGHT _ _ Hlen Hka) as [].
      split; try done. simpl. eapply to_lwt_wf; eauto.
    - intros i t [_ ?]%Hget1. done. }
  pose proof (λ i t, get_insert_Some _ _ _ _ i t Hins) as Hget2.
  pose proof (inv_record_displaced reg2 d Hinv2 Hdw) as Hinv3.
  pose proof (get_record_displaced reg2 d) as Hget3.
  assert (others_same (cn_client_id packet) reg (record_displaced MAX_SESSIONS reg2 d).2) as Hsame3.
  { intros i t Ht. rewrite Hget3, Hget2, <-(Hsame1 i t Ht).
    split; [intros [[_ ->]|[_ ?]]; done|]. intros Hi. right. split; [|done]. intros ->.
    unfold Registry.insert in Hins. case_match eqn:Hff; simplify_eq.
    apply first_free_Some in Hff as [Hff _]. apply get_Some in Hi. congruence. }
  destruct (record_displaced MAX_SESSIONS reg2 d) as [[u|e] reg3]; simpl in *; [|done].
  split_and!; [done|done|done|]. exists l. split; [done|]. rewrite Hget3, Hget2. auto.
Qed.

(** The session of an accepted CONNECT: the requested keep-alive and will;
    fresh and empty, or, when resumed, with the subscriptions, in-flight table,
    outbox and packet-id counter of the session taken over. *)
Definition accepted_session (reg : SessionRegistry) (packet : Connect) (o : ConnectOutcome)
  (s : SessionState) : Prop :=
  client_id s = cn_client_id packet ∧ keepalive_secs s = cn_keep_alive packet ∧
  to_lwt (W:=Empty_set) packet = Ok (lwt s) ∧ quarantined s = false ∧
  if co_session_present o
  then ∃ old, get reg (co_session_id o) = Some old ∧ client_id old = client_id s ∧
         subscriptions s = subscriptions old ∧ inflight s = inflight old ∧
         outbox s = outbox old ∧ ss_next_packet_id s = ss_next_packet_id old
  else subscriptions s = [] ∧ inflight s = [] ∧ outbox s = [].

Lemma prepare_connect_effect (reg : SessionRegistry) (packet : Connect) (token : HouseToken) :
  inv reg → is_u16 (cn_keep_alive packet) →
  let '(r, reg') := prepare_connect MAX_SESSIONS reg packet token in
  (r ≠ Panic ∧ r ≠ Pending) ∧ inv reg' ∧ others_same (cn_client_id packet) reg reg' ∧
  ∀ o, r = Done (Ok (PcAccepted o)) →
    ∃ s, get reg' (co_session_id o) = Some s ∧ accepted_session reg packet o s.
Proof using H.
  intros Hinv Hka. unfold prepare_connect.
  case_decide; [done|]. case_decide; [done|]. destruct (negb _); [done|].
  pose proof (fresh_session_spec reg packet Hinv Hka) as Hfresh.
  destruct (fresh_session MAX_SESSIONS reg packet) as [r reg1].
  destruct Hfresh as (Hinv1 & Hsame1 & Hacc).
  assert (∀ o, Done r = Done (Ok (PcAccepted o)) → co_session_present o = false ∧
    ∃ l, to_lwt (W:=Empty_set) packet = Ok l ∧
         get reg1 (co_session_id o) = Some (fresh_state packet l)) as Hacc'.
  { intros o [= ->]. done. }
  assert (∀ o, Done r = Done (Ok (PcAccepted o)) → ∃ s, get reg1 (co_session_id o) = Some s ∧
    accepted_session reg packet o s) as Hfr.
  { intros o (Hp & l & Hl & Hg)%Hacc'. eexists. split; [exact Hg|].
    unfold accepted_session. by rewrite Hp. }
  destruct (cn_clean_session packet).
  { split_and!; [done..|]. by apply Hfr. }
  destruct (find_by_client_id reg (cn_client_id packet)) as [id|] eqn:Hf.
  2:{ split_and!; [done..|]. by apply Hfr. }
  destruct (find_by_client_id_Some _ _ _ Hf) as (s & Hs & Hcid).
  unfold resume_session. rewrite Hs.
  destruct (to_lwt (W:=Empty_set) packet) as [l|e] eqn:Hl; [|done].
  pose proof (session_wf_resume s packet l (ri_session _ _ _ _ _ Hinv _ _ Hs) Hka
    (to_lwt_wf _ _ Hl)) as Hwf.
  split_and!; [done|done|by eapply reg_inv_put_same| |].
  - intros i t Ht. destruct (decide (i = id)) as [->|Hi].
    + rewrite (get_put_eq _ _ _ _ Hs). split; [intros [= <-]; by destruct Ht|congruence].
    + by rewrite get_put_ne.
  - intros o [= <-]. simpl. rewrite (get_put_eq _ _ _ _ Hs). eexists. split; [done|].
    unfold accepted_session. simpl. split_and!; try done. by exists s.
Qed.

(** Where the sessions of the resulting table come from: they were there
    before, or are fresh ones, or are the accepted one. *)
Lemma prepare_connect_origin reg packet token :
  inv reg → is_u16 (cn_keep_alive packet) →
  let '(r, reg') := prepare_connect MAX_SESSIONS reg packet token in
  ∀ j s, get reg' j = Some s →
    get reg j = Some s ∨ (∃ l, s = fresh_state packet l) ∨
    ∃ o, r = Done (Ok (PcAccepted o)) ∧ j = co_session_id o.
Proof using H.
  intros Hinv Hka. unfold prepare_connect.
  case_decide; [by auto|]. case_decide; [by auto|]. destruct (negb _); [by auto|].
  assert (∀ j s, get (fresh_session MAX_SESSIONS reg packet).2 j = Some s →
    get reg j = Some s ∨ ∃ l, s = fresh_state packet l) as Hfresh.
  { unfold fresh_session. pose proof (discard_previous_spec reg (cn_client_id packet) Hinv) as Hd.
    destruct (discard_previous reg (cn_client_id packet)) as [d reg1].
    destruct Hd as (_ & _ & Hget1).
    pose proof (get_record_displaced reg1 d) as Hget2.
    destruct (is_full MAX_SESSIONS reg1).
    { intros j s. destruct (record_displaced MAX_SESSIONS reg1 d) as [[u|e] reg2]; simpl in *;
        rewrite Hget2, Hget1; naive_solver. }
    unfold to_client_id. destruct (string_try_from 64 _) as [cid|] eqn:Hcid; simpl;
      [|intros j s; rewrite Hget1; naive_solver].
    apply string_try_from_Some in Hcid as [_ ->].
    destruct (to_lwt packet) as [l|e]; simpl; [|intros j s; rewrite Hget1; naive_solver].
    destruct (Registry.insert reg1 _) as [[id|e] reg2] eqn:Hins; simpl.
    - intros j s. pose proof (get_record_displaced reg2 d j) as Hget3.
      destruct (record_displaced MAX_SESSIONS reg2 d) as [[u|e] reg3]; simpl in *; rewrite Hget3;
        (intros [[_ ->]|[_ [? _]%Hget1]]%(get_insert_Some _ _ _ _ j s Hins); [right; by exists l|auto]).
    - unfold Registry.insert in Hins. case_match; simplify_eq.
      intros j s. rewrite Hget1. naive_solver. }
  assert (∀ j s, get (let '(r, reg) := fresh_session MAX_SESSIONS reg packet in
      (Done r : outcome (result (ConnectError Empty_set) PreparedConnect), reg)).2 j = Some s →
    get reg j = Some s ∨ ∃ l, s = fresh_state packet l) as Hfresh'.
  { intros j s Hj. apply Hfresh. by destruct (fresh_session MAX_SESSIONS reg packet). }
  destruct (cn_clean_session packet).
  { destruct (fresh_session MAX_SESSIONS reg packet) as [r reg'].
    intros j s [?|?]%Hfresh; auto. }
  destruct (find_by_client_id reg (cn_client_id packet)) as [id|].
  2:{ destruct (fresh_session MAX_SESSIONS reg packet) as [r reg'].
      intros j s [?|?]%Hfresh; auto. }
  unfold resume_session. destruct (get reg id) as [s0|] eqn:Hs; [|by auto].
  destruct (to_lwt packet) as [l|e]; [|by auto]. intros j s.
  destruct (decide (j = id)) as [->|Hj].
  - intros _. right. right. by eexists.
  - rewrite get_put_ne by done. auto.
Qed.

End spec.

Definition example_connect : Connect := {| cn_protocol := MQTT311; cn_keep_alive := 30;
  cn_client_id := "c"; cn_clean_session := false; cn_last_will := None;
  cn_username := Some "house"; cn_password := Some (as_bytes "secret") |}.
Definition example_token : HouseToken := {| ht_username := "house"; ht_password := "secret" |}.


(** ** Two executions worth knowing *)
Section examples.
Let will := {| lw_topic := "w"; lw_message := [1]; lw_qos := AtMostOnce; lw_retain := false |}.
Let big_will := {| lw_topic := "w"; lw_message := replicate 513 0; lw_qos := AtMostOnce;
                   lw_retain := false |}.
Let packet w := {| cn_protocol := MQTT311; cn_keep_alive := 30; cn_client_id := "c";
  cn_clean_session := true; cn_last_will := w; cn_username := Some "house";
  cn_password := Some (as_bytes "secret") |}.
Let token := {| ht_username := "house"; ht_password := "secret" |}.
Let connect reg w := prepare_connect 1 reg (packet w) token.

(** Nothing drains the queue of displaced wills, so after as many takeovers as
    there are session slots the next takeover fails, with its session already
    inserted: the caller sees an error and the slot stays occupied. *)
Lemma displaced_will_queue_fills_up :
  let reg1 := (connect (Registry.new 1 1) (Some will)).2 in
  let reg2 := (connect reg1 (Some will)).2 in
  let '(r, reg3) := connect reg2 (Some will) in
  r = Done (Err (CeRegistry LwtQueueFull)) ∧ is_Some (get reg3 0).
Proof. vm_compute. eauto. Qed.

(** A takeover whose will does not fit is refused after the previous session
    was removed: the session and its will are gone, nothing was queued. *)
Lemma oversized_will_loses_previous_session :
  let reg1 := (connect (Registry.new 1 1) (Some will)).2 in
  let '(r, reg2) := connect reg1 (Some big_will) in
  is_Some (get reg1 0) ∧ r = Done (Err CeWillPayloadTooLarge) ∧
  get reg2 0 = None ∧ published_lwts reg2 = [].
Proof. vm_compute. eauto. Qed.
End examples.
End Connect.
