(* ===== verification/Subscribe.v ===== *)
(** * Subscribe: SUBSCRIBE and UNSUBSCRIBE ([handler/subscribe.rs]) and
    PINGREQ ([handler/pingreq.rs])

    The subscriptions of a session are a vector with one element per filter,
    so they stand for a map from filters to QoS.  [subscribe_refines_map]: the
    handler performs the requested updates of that bounded map, answers each
    request with the right return code and never panics.  The retained
    deliveries are exactly the stored messages that match a newly added
    filter, up to the capacity of the delivery list. *)

From S2P Require Import Prelude External Reference Keyed Topics RateLimit Session Registry.
From S2P Require Import Transport Frame Invariants Retained Router.

Module Subscribe.
Import Topics Session Registry Frame Invariants Retained Router.

Inductive HandlerError (W : Type) :=
| SessionNotFound (id : SessionId)
| HeWrite (w : W).
Arguments SessionNotFound {W} id.
Arguments HeWrite {W} w.

Definition MAX_SUBSCRIBE_TOPICS : nat := 5.

Record RetainedDelivery := {
  rd_topic : string;
  rd_payload : list Z;
  rd_qos : QoS;
}.

Record PreparedSubscribe := {
  ps_pid : Pid;
  ps_return_codes : list SubscribeReturnCodes;
  ps_retained_deliveries : list RetainedDelivery;
}.

Section ops.
Context `{Heapless}.
Context (MAX_SUBS MAX_RETAINED : nat).

Definition upsert_subscription (subs : list Subscription) (filter : string) (qos : QoS)
  : SubscribeReturnCodes * bool * list Subscription :=
  if negb (is_valid_filter filter) then (SrcFailure, false, subs)
  else match key_position sub_filter filter subs with
       | Some index =>
           (SrcSuccess qos, false,
            alter (λ existing, {| sub_filter := sub_filter existing; sub_qos := qos |}) index subs)
       | None =>
           match string_try_from 128 filter with
           | None => (SrcFailure, false, subs)
           | Some filter =>
               match vec_push MAX_SUBS subs {| sub_filter := filter; sub_qos := qos |} with
               | Some subs => (SrcSuccess qos, true, subs)
               | None => (SrcFailure, false, subs)
               end
           end
       end.

Definition is_success (code : SubscribeReturnCodes) : bool :=
  match code with SrcSuccess _ => true | SrcFailure => false end.

(** The loop over the requested topics.  The [unwrap] of the filter's copy is
    the one place that could panic. *)
Fixpoint subscribe_topics (topics : list SubscribeTopic) (subs : list Subscription)
  (codes : list SubscribeReturnCodes) (new_filters : list string)
  : outcome (list SubscribeReturnCodes * list string) * list Subscription :=
  match topics with
  | [] => (Done (codes, new_filters), subs)
  | topic :: topics =>
      let '(code, inserted, subs) :=
        upsert_subscription subs (st_topic_path topic) (st_qos topic) in
      let codes := push_ignore MAX_SUBSCRIBE_TOPICS codes code in
      if inserted && is_success code then
        match string_try_from 128 (st_topic_path topic) with
        | None => (Panic, subs)
        | Some f =>
            subscribe_topics topics subs codes (push_ignore MAX_SUBSCRIBE_TOPICS new_filters f)
        end
      else subscribe_topics topics subs codes new_filters
  end.

(** One retained message: copied, or skipped when a copy does not fit. *)
Definition push_delivery (deliveries : list RetainedDelivery) (m : RetainedEntry)
  : list RetainedDelivery :=
  match string_try_from 128 (re_topic m) with
  | None => deliveries
  | Some topic =>
      match vec_from_slice 512 (re_payload m) with
      | None => deliveries
      | Some payload =>
          push_ignore MAX_RETAINED deliveries
            {| rd_topic := topic; rd_payload := payload; rd_qos := re_qos m |}
      end
  end.

Definition collect_deliveries (new_filters : list string) (retained : RetainedStore)
  : list RetainedDelivery :=
  foldl (λ deliveries filter, foldl push_delivery deliveries (matching retained filter))
    [] new_filters.

(** The packet identifiers computed here are not used; they are left out. *)
Definition prepare_subscribe (session : SessionState) (packet : Subscribe)
  (retained : RetainedStore) : outcome PreparedSubscribe * SessionState :=
  match subscribe_topics (sub_topics packet) (subscriptions session) [] [] with
  | (Done (codes, new_filters), subs) =>
      (Done {| ps_pid := sub_pid packet; ps_return_codes := codes;
               ps_retained_deliveries := collect_deliveries new_filters retained |},
       set_subscriptions session subs)
  | (Pending, subs) => (Pending, set_subscriptions session subs)
  | (Panic, subs) => (Panic, set_subscriptions session subs)
  end.

Fixpoint remove_filters (topics : list string) (subs : list Subscription) : list Subscription :=
  match topics with
  | [] => subs
  | filter :: topics =>
      remove_filters topics
        match key_position sub_filter filter subs with
        | Some index => delete index subs
        | None => subs
        end
  end.

Definition apply_unsubscribe (session : SessionState) (packet : Unsubscribe) : SessionState :=
  set_subscriptions session (remove_filters (un_topics packet) (subscriptions session)).
End ops.

(** ** With the transport *)
Section transport.
Context `{Heapless} `{Mqttrs} `{Transport T E}.
Context (MAX_SUBS MAX_RETAINED MAX_PACKET_SIZE : nat).

Abbreviation WE := (WriteError mqtt_error E).

Fixpoint write_deliveries (t : T) (next_pid : Pid) (ds : list RetainedDelivery)
  : result (HandlerError WE) unit * T :=
  match ds with
  | [] => (Ok tt, t)
  | d :: ds =>
      let '(qospid, next_pid) :=
        match rd_qos d with
        | AtMostOnce => (QP_AtMostOnce, next_pid)
        | AtLeastOnce => (QP_AtLeastOnce next_pid, pid_add next_pid 1)
        | ExactlyOnce => (QP_ExactlyOnce next_pid, pid_add next_pid 1)
        end in
      match write_packet MAX_PACKET_SIZE t
              (PPublish {| pub_dup := false; pub_qospid := qospid; pub_retain := true;
                           pub_topic_name := rd_topic d; pub_payload := rd_payload d |}) with
      | (Err w, t) => (Err (HeWrite w), t)
      | (Ok _, t) => write_deliveries t next_pid ds
      end
  end.

Definition write_prepared_subscribe (t : T) (prepared : PreparedSubscribe)
  : result (HandlerError WE) unit * T :=
  match write_packet MAX_PACKET_SIZE t
          (PSuback {| sa_pid := ps_pid prepared; sa_return_codes := ps_return_codes prepared |}) with
  | (Err w, t) => (Err (HeWrite w), t)
  | (Ok _, t) => write_deliveries t pid_new (ps_retained_deliveries prepared)
  end.

Definition handle_subscribe (t : T) (session : SessionState) (packet : Subscribe)
  (retained : RetainedStore) : outcome (result (HandlerError WE) unit) * SessionState * T :=
  match prepare_subscribe MAX_SUBS MAX_RETAINED session packet retained with
  | (Done prepared, session) =>
      let '(r, t) := write_prepared_subscribe t prepared in (Done r, session, t)
  | (Pending, session) => (Pending, session, t)
  | (Panic, session) => (Panic, session, t)
  end.

Definition handle_subscribe_for_session_id (t : T) (reg : SessionRegistry) (id : SessionId)
  (packet : Subscribe) (retained : RetainedStore)
  : outcome (result (HandlerError WE) unit) * SessionRegistry * T :=
  match get reg id with
  | None => (Done (Err (SessionNotFound id)), reg, t)
  | Some session =>
      let '(r, session, t) := handle_subscribe t session packet retained in
      (r, put reg id session, t)
  end.

Definition handle_unsubscribe (t : T) (session : SessionState) (packet : Unsubscribe)
  : result (HandlerError WE) unit * SessionState * T :=
  let session := apply_unsubscribe session packet in
  let '(r, t) := write_packet MAX_PACKET_SIZE t (PUnsuback (un_pid packet)) in
  (map_err HeWrite r, session, t).

Definition handle_unsubscribe_for_session_id (t : T) (reg : SessionRegistry) (id : SessionId)
  (packet : Unsubscribe) : result (HandlerError WE) unit * SessionRegistry * T :=
  match get reg id with
  | None => (Err (SessionNotFound id), reg, t)
  | Some session =>
      let '(r, session, t) := handle_unsubscribe t session packet in (r, put reg id session, t)
  end.

(** *** PINGREQ *)
Definition touch_pingreq (session : SessionState) (now : Instant) : SessionState :=
  update_activity_at session now.

Definition handle_pingreq (t : T) (session : SessionState) (now : Instant)
  : result WE unit * SessionState * T :=
  let session := touch_pingreq session now in
  let '(r, t) := write_packet MAX_PACKET_SIZE t PPingresp in (r, session, t).
End transport.

(** ** Subscriptions as a bounded map *)
Definition subs_map (subs : list Subscription) : gmap string QoS := kmap sub_filter sub_qos subs.

Definition subs_wf (MAX_SUBS : nat) (subs : list Subscription) : Prop :=
  (length subs ≤ MAX_SUBS)%nat ∧ NoDup (sub_filter <$> subs) ∧
  Forall (λ f, is_valid_filter f = true) (sub_filter <$> subs).

(** One request against a map of capacity [cap]. *)
Definition spec_request (cap : nat) (m : gmap string QoS) (t : SubscribeTopic)
  : SubscribeReturnCodes * gmap string QoS :=
  if decide (is_valid_filter (st_topic_path t) = true ∧
             (is_Some (m !! st_topic_path t) ∨ (size m < cap)%nat))
  then (SrcSuccess (st_qos t), <[st_topic_path t := st_qos t]> m)
  else (SrcFailure, m).

Fixpoint spec_subscribe (cap : nat) (m : gmap string QoS) (topics : list SubscribeTopic)
  : list SubscribeReturnCodes * gmap string QoS :=
  match topics with
  | [] => ([], m)
  | t :: topics =>
      let '(code, m) := spec_request cap m t in
      let '(codes, m) := spec_subscribe cap m topics in (code :: codes, m)
  end.

Lemma valid_filter_length f : is_valid_filter f = true → (String.length f ≤ 128)%nat.
Proof.
  unfold is_valid_filter. destruct (decide _) as [|Hn]; [done|]. intros _. lia.
Qed.

Section spec.
Context `{Heapless}.
Context (MAX_SUBS MAX_INFLIGHT MAX_RETAINED : nat).

Lemma upsert_spec subs t :
  subs_wf MAX_SUBS subs →
  let '(code, inserted, subs') :=
    upsert_subscription MAX_SUBS subs (st_topic_path t) (st_qos t) in
  subs_wf MAX_SUBS subs' ∧ (code, subs_map subs') = spec_request MAX_SUBS (subs_map subs) t ∧
  (inserted = true → is_valid_filter (st_topic_path t) = true).
Proof.
  intros (Hlen & Hnd & Hval). destruct t as [f q]. unfold upsert_subscription, spec_request. simpl.
  destruct (is_valid_filter f) eqn:Hf; cbn [negb]; [|by rewrite decide_False by naive_solver].
  destruct (key_position sub_filter f subs) as [i|] eqn:Hpos.
  - destruct (key_position_split _ _ _ _ Hpos) as (l1 & e & l2 & -> & <- & <-).
    rewrite alter_middle. set (e' := {| sub_filter := sub_filter e; sub_qos := q |}).
    destruct (kmap_replace_at _ sub_qos _ _ e' _ Hnd eq_refl) as [Hnd' Hm].
    assert (is_Some (subs_map (l1 ++ e :: l2) !! sub_filter e)) as Hs.
    { unfold subs_map. destruct (kmap_split _ sub_qos _ _ _ Hnd) as [-> _].
      rewrite lookup_insert_eq. eauto. }
    rewrite decide_True by auto. split_and!; [|by f_equal|done].
    split_and!; [|done|]; [rewrite length_app in *; done|].
    rewrite fmap_app in *. done.
  - apply key_position_None in Hpos. pose proof (kmap_None sub_filter sub_qos subs f) as Hn.
    rewrite string_try_from_spec, decide_True by by apply valid_filter_length.
    rewrite vec_push_spec. assert (size (subs_map subs) = length subs) as ->
      by (by apply kmap_size). case_decide as Hlt.
    + rewrite decide_True by auto. set (e := {| sub_filter := f; sub_qos := q |}).
      destruct (kmap_append _ sub_qos subs e Hnd Hpos) as [Hnd' Hm].
      split_and!; [|by f_equal|done].
      split_and!; [rewrite length_app; simpl; lia|done|]. rewrite fmap_app.
      apply Forall_app. split; [done|by repeat constructor].
    + rewrite decide_False; [done|]. intros [_ [[? Hs]|?]]; [|done].
      unfold subs_map in Hs. rewrite (proj2 Hn Hpos) in Hs. done.
Qed.

Lemma take_take_app {A} n (l k : list A) : take n (take n l ++ k) = take n (l ++ k).
Proof.
  destruct (decide (length l ≤ n)%nat).
  - by rewrite (take_ge l).
  - rewrite !take_app_le by (rewrite ?length_take; lia). rewrite take_take. f_equal. lia.
Qed.

Lemma push_ignore_room {A} cap (v : list A) x :
  (length v < cap)%nat → push_ignore cap v x = v ++ [x].
Proof. intros. unfold push_ignore. by rewrite vec_push_spec, decide_True. Qed.

Lemma subscribe_topics_spec topics subs codes nf :
  subs_wf MAX_SUBS subs → (length codes + length topics ≤ MAX_SUBSCRIBE_TOPICS)%nat →
  ∃ codes' nf' subs',
    subscribe_topics MAX_SUBS topics subs codes nf = (Done (codes ++ codes', nf'), subs') ∧
    subs_wf MAX_SUBS subs' ∧
    (codes', subs_map subs') = spec_subscribe MAX_SUBS (subs_map subs) topics.
Proof.
  revert subs codes nf. induction topics as [|t topics IH]; intros subs codes nf Hwf Hlen.
  { exists [], nf, subs. by rewrite app_nil_r. }
  cbn [subscribe_topics spec_subscribe]. pose proof (upsert_spec subs t Hwf) as Hu.
  destruct (upsert_subscription MAX_SUBS subs _ _) as [[code ins] subs1].
  destruct Hu as (Hwf1 & Hreq & Hins). rewrite <-Hreq. simpl in Hlen.
  rewrite push_ignore_room by lia.
  assert (∀ nf1, ∃ codes' nf' subs',
    subscribe_topics MAX_SUBS topics subs1 (codes ++ [code]) nf1 =
      (Done (codes ++ codes', nf'), subs') ∧ subs_wf MAX_SUBS subs' ∧
    (codes', subs_map subs') = (let '(codes, m) := spec_subscribe MAX_SUBS (subs_map subs1) topics
                                in (code :: codes, m))) as IH'.
  { intros nf1. destruct (IH subs1 (codes ++ [code]) nf1 Hwf1) as (cs & nf' & subs' & He & Hw & Hm).
    { rewrite length_app. simpl. lia. }
    exists (code :: cs), nf', subs'. rewrite <-Hm, He, <-app_assoc. done. }
  destruct ins; simpl; [|apply IH'].
  rewrite string_try_from_spec, decide_True by by apply valid_filter_length, Hins.
  destruct (is_success code); apply IH'.
Qed.

Lemma session_wf_set_subscriptions s subs :
  session_wf MAX_SUBS MAX_INFLIGHT s → subs_wf MAX_SUBS subs →
  session_wf MAX_SUBS MAX_INFLIGHT (set_subscriptions s subs).
Proof. intros [] (? & ? & ?). by split. Qed.

Lemma session_wf_subs s : session_wf MAX_SUBS MAX_INFLIGHT s → subs_wf MAX_SUBS (subscriptions s).
Proof. by intros []. Qed.

Lemma prepare_subscribe_wf s packet retained :
  session_wf MAX_SUBS MAX_INFLIGHT s → (length (sub_topics packet) ≤ MAX_SUBSCRIBE_TOPICS)%nat →
  ∃ p subs, prepare_subscribe MAX_SUBS MAX_RETAINED s packet retained
            = (Done p, set_subscriptions s subs) ∧
    session_wf MAX_SUBS MAX_INFLIGHT (set_subscriptions s subs).
Proof.
  intros Hwf Hlen. unfold prepare_subscribe.
  destruct (subscribe_topics_spec (sub_topics packet) (subscriptions s) [] [])
    as (codes & nf & subs & -> & Hsub & _); [by apply session_wf_subs|done|].
  eexists _, subs. split; [done|]. by apply session_wf_set_subscriptions.
Qed.

(** SUBSCRIBE is the requested sequence of updates of a bounded map from
    filters to QoS.  For a packet of at most five topics (the capacity mqttrs
    decodes into) the handler never panics, keeps the session well-formed,
    changes nothing but the subscriptions, and answers each topic in order
    with the code of the bounded map: success with the requested QoS if the
    filter is valid and already present or there is room, failure otherwise. *)
Lemma subscribe_refines_map (s : SessionState) (packet : Subscribe) (retained : RetainedStore) :
  session_wf MAX_SUBS MAX_INFLIGHT s → (length (sub_topics packet) ≤ MAX_SUBSCRIBE_TOPICS)%nat →
  ∃ p subs, prepare_subscribe MAX_SUBS MAX_RETAINED s packet retained
            = (Done p, set_subscriptions s subs) ∧
    session_wf MAX_SUBS MAX_INFLIGHT (set_subscriptions s subs) ∧ ps_pid p = sub_pid packet ∧
    (ps_return_codes p, subs_map subs) =
      spec_subscribe MAX_SUBS (subs_map (subscriptions s)) (sub_topics packet).
Proof.
  intros Hwf Hlen. unfold prepare_subscribe.
  destruct (subscribe_topics_spec (sub_topics packet) (subscriptions s) [] [])
    as (codes & nf & subs & -> & Hsub & Hm); [by apply session_wf_subs|done|].
  eexists _, subs. split; [done|]. split; [by apply session_wf_set_subscriptions|]. done.
Qed.

Lemma remove_filters_spec topics subs :
  subs_wf MAX_SUBS subs →
  subs_wf MAX_SUBS (remove_filters topics subs) ∧
  subs_map (remove_filters topics subs) = foldl (λ m f, delete f m) (subs_map subs) topics.
Proof.
  revert subs. induction topics as [|f topics IH]; intros subs Hwf; [done|].
  cbn [remove_filters foldl]. destruct (key_position sub_filter f subs) as [i|] eqn:Hpos.
  - destruct (key_position_split _ _ _ _ Hpos) as (l1 & e & l2 & -> & <- & <-).
    rewrite delete_middle. destruct Hwf as (Hlen & Hnd & Hval).
    destruct (IH (l1 ++ l2)) as [? ->].
    + split_and!.
      * rewrite length_app in *. simpl in *. lia.
      * by apply (kmap_split _ sub_qos) in Hnd as (_ & _ & ?).
      * rewrite fmap_app in *. apply Forall_app in Hval as [? [_ ?]%Forall_cons].
        by apply Forall_app.
    + split; [done|]. f_equal. by apply kmap_delete_at.
  - destruct (IH subs Hwf) as [? ->]. split; [done|]. f_equal. symmetry. apply delete_id.
    by apply kmap_None, key_position_None.
Qed.

(** UNSUBSCRIBE deletes exactly the named filters from the map and changes
    nothing else of the session. *)
Lemma unsubscribe_refines_map (s : SessionState) (packet : Unsubscribe) :
  session_wf MAX_SUBS MAX_INFLIGHT s →
  let s' := apply_unsubscribe s packet in
  session_wf MAX_SUBS MAX_INFLIGHT s' ∧ s' = set_subscriptions s (subscriptions s') ∧
  subs_map (subscriptions s') =
    foldl (λ m f, delete f m) (subs_map (subscriptions s)) (un_topics packet).
Proof.
  intros Hwf. simpl.
  destruct (remove_filters_spec (un_topics packet) (subscriptions s)) as [Hs Hm];
    [by apply session_wf_subs|].
  split_and!; [by apply session_wf_set_subscriptions|done|done].
Qed.

(** *** Retained deliveries *)
Definition delivery_of (m : RetainedEntry) : RetainedDelivery :=
  {| rd_topic := re_topic m; rd_payload := re_payload m; rd_qos := re_qos m |}.

Lemma matching_wf retained f :
  Forall Retained.entry_wf (entries retained) → Forall Retained.entry_wf (matching retained f).
Proof.
  rewrite !Forall_forall. intros Hall e [_ He]%list_elem_of_filter. by apply Hall.
Qed.

(** Every stored message is small enough to be copied; the list keeps the
    first [MAX_RETAINED] of the matches, filter by filter. *)
Lemma collect_deliveries_spec N nf retained :
  store_wf N retained →
  collect_deliveries MAX_RETAINED nf retained =
  take MAX_RETAINED (delivery_of <$> concat (matching retained <$> nf)).
Proof.
  intros (_ & _ & Hall). unfold collect_deliveries.
  assert (∀ ms acc, Forall Retained.entry_wf ms → (length acc ≤ MAX_RETAINED)%nat →
    foldl (push_delivery MAX_RETAINED) acc ms = take MAX_RETAINED (acc ++ (delivery_of <$> ms)))
    as Hin.
  { intros ms acc Hms Hacc. rewrite <-push_all_foldl by done. clear Hacc. revert acc.
    induction Hms as [|m ms (Ht & _ & Hp) _ IH]; intros acc; [done|]. cbn [foldl].
    rewrite <-IH. f_equal. unfold push_delivery. rewrite string_try_from_spec, decide_True by done.
    by rewrite vec_from_slice_spec, decide_True by done. }
  assert (∀ acc, (length acc ≤ MAX_RETAINED)%nat →
    foldl (λ ds f, foldl (push_delivery MAX_RETAINED) ds (matching retained f)) acc nf =
    take MAX_RETAINED (acc ++ (delivery_of <$> concat (matching retained <$> nf)))) as Hout.
  { induction nf as [|f nf IH]; intros acc Hacc; simpl.
    { by rewrite app_nil_r, take_ge. }
    rewrite Hin; [|by apply matching_wf|done]. rewrite IH by (rewrite length_take; lia).
    rewrite fmap_app, app_assoc. apply take_take_app. }
  by apply (Hout []); simpl; lia.
Qed.
End spec.

Definition example_subscribe : External.Subscribe := {| sub_pid := 9; sub_topics :=
  [{| st_topic_path := "a/+"; st_qos := AtLeastOnce |};
   {| st_topic_path := "a#"; st_qos := AtMostOnce |};
   {| st_topic_path := "b"; st_qos := AtMostOnce |}] |}.

Lemma subscribe_refines_map_witness :
  ∃ p subs, prepare_subscribe 1 4 (Session.new "c" 30) example_subscribe Retained.new
            = (Done p, set_subscriptions (Session.new "c" 30) subs) ∧
    session_wf 1 2 (set_subscriptions (Session.new "c" 30) subs) ∧ ps_pid p = 9 ∧
    (ps_return_codes p, subs_map subs) =
      ([SrcSuccess AtLeastOnce; SrcFailure; SrcFailure], {["a/+" := AtLeastOnce]}).
Proof.
  assert (session_wf 1 2 (Session.new "c" 30)) as Hwf
    by (apply session_wf_new; [simpl; lia|split; vm_compute; discriminate]).
  destruct (subscribe_refines_map 1 2 4 (Session.new "c" 30) example_subscribe Retained.new Hwf)
    as (p & subs & Hp & Hw & Hpid & Hc); [vm_compute; lia|].
  exists p, subs. split; [exact Hp|]. split; [exact Hw|]. split; [exact Hpid|].
  rewrite Hc. vm_compute. reflexivity.
Defined.

Lemma unsubscribe_refines_map_witness :
  let s := set_subscriptions (Session.new "c" 30)
             [{| sub_filter := "a"; sub_qos := AtMostOnce |};
              {| sub_filter := "b"; sub_qos := AtMostOnce |}] in
  subs_map (subscriptions (apply_unsubscribe s {| un_pid := 1; un_topics := ["a"; "z"] |}))
  = {["b" := AtMostOnce]}.
Proof.
  intros s. assert (session_wf 4 2 s) as Hwf.
  { apply session_wf_set_subscriptions.
    - apply session_wf_new; [simpl; lia|split; vm_compute; discriminate].
    - split; [simpl; lia|]. split; [|repeat constructor].
      apply NoDup_cons. split; [|apply NoDup_singleton].
      intros Hin%list_elem_of_singleton. discriminate Hin. }
  destruct (unsubscribe_refines_map 4 2 s {| un_pid := 1; un_topics := ["a"; "z"] |} Hwf)
    as (_ & _ & Hm).
  rewrite Hm. vm_compute. reflexivity.
Defined.

(** Overlapping filters of one SUBSCRIBE share the delivery list: with room for
    two messages, the second filter's only message is crowded out by duplicates
    of the first's. *)
Definition example_store := {| entries :=
  [{| re_topic := "a/x"; re_payload := [1]; re_qos := AtMostOnce |};
   {| re_topic := "b"; re_payload := [2]; re_qos := AtMostOnce |}] |}.
Lemma overlapping_filters_truncate_retained :
  collect_deliveries 2 ["a/+"; "a/x"; "b"] example_store =
  [{| rd_topic := "a/x"; rd_payload := [1]; rd_qos := AtMostOnce |};
   {| rd_topic := "a/x"; rd_payload := [1]; rd_qos := AtMostOnce |}].
Proof. reflexivity. Qed.

(** A retained message is delivered at the QoS it was stored with, whatever the
    QoS of the new subscription, under a packet identifier that starts from one
    for every SUBSCRIBE. *)
Definition example_qos2_store := {| entries :=
  [{| re_topic := "a"; re_payload := [1]; re_qos := ExactlyOnce |}] |}.
Lemma retained_delivery_ignores_subscription_qos :
  let '(p, _) := prepare_subscribe 4 4 (Session.new "c" 30)
    {| sub_pid := 9; sub_topics := [{| st_topic_path := "a"; st_qos := AtMostOnce |}] |}
    example_qos2_store in
  p = Done {| ps_pid := 9; ps_return_codes := [SrcSuccess AtMostOnce];
              ps_retained_deliveries :=
                [{| rd_topic := "a"; rd_payload := [1]; rd_qos := ExactlyOnce |}] |}.
Proof. reflexivity. Qed.
End Subscribe.
