(* ===== verification/Publish.v ===== *)
(** * Publish: routing, acknowledgement and retry of publishes
    ([handler/publish.rs], [handler/command.rs])

    [handle_publish_at] is the whole handler: rate limit, retained store,
    fan-out to the subscribers' outboxes with QoS 1 bookkeeping, and the
    command intent.  [PublishProofs.v] has its theorems. *)

From S2P Require Import Prelude External Reference Keyed Topics RateLimit Session Registry.
From S2P Require Import Transport Frame Invariants Retained Router.

Module Command.
(** ** Command intents ([handler/command.rs]) *)
Record MqttIntent := {
  mi_topic : string;
  mi_payload : list Z;
  mi_qos : QoS;
}.

(** The trait: [handle] takes [&self], so what it changes is its own state. *)
Class CommandHandler (C : Type) := {
  cmd_handle : C → MqttIntent → result unit unit * C;
}.

(** The channel implementation: [try_send] of a bounded embassy channel, which
    appends, or fails when the channel is full. *)
Class EmbassyChannel (Ch : Type) := {
  chan_cap : nat;
  chan_contents : Ch → list MqttIntent;
  chan_try_send : Ch → MqttIntent → result unit unit * Ch;
  chan_try_send_spec c i :
    let '(r, c') := chan_try_send c i in
    if decide (length (chan_contents c) < chan_cap)%nat
    then r = Ok tt ∧ chan_contents c' = chan_contents c ++ [i]
    else r = Err tt ∧ chan_contents c' = chan_contents c;
}.

#[global] Instance channel_handler `{EmbassyChannel Ch} : CommandHandler Ch :=
  {| cmd_handle := chan_try_send |}.

(** The test suite's handler. *)
Record MockCommandHandler := { received : list MqttIntent; overloaded : bool }.

Definition mock_handle (h : MockCommandHandler) (i : MqttIntent)
  : result unit unit * MockCommandHandler :=
  if overloaded h then (Err tt, h)
  else (Ok tt, {| received := received h ++ [i]; overloaded := overloaded h |}).

#[global] Instance mock_handler : CommandHandler MockCommandHandler :=
  {| cmd_handle := mock_handle |}.
End Command.

Module Publish.
Import Topics Session Registry Frame Notify Invariants Retained Router Command.

Record MqttPublish := {
  mp_topic : string;
  mp_payload : list Z;
  mp_qos : QoS;
  mp_retain : bool;
}.

Inductive PublishError :=
| RetainedTopicTooLong
| RetainedPayloadTooLarge
| RetainedFull
| RateLimitDisconnect
| CommandHandlerOverloaded
| SenderNotFound (id : SessionId)
| PubTopicTooLong
| PubPayloadTooLarge.

Inductive RetryDisconnect (W : Type) :=
| MaxRetriesExceeded (packet_id retries : Z)
| InvalidPacketId (packet_id : Z)
| MissingStoredPublish (packet_id : Z)
| RetryWrite (w : W).
Arguments MaxRetriesExceeded {W} packet_id retries.
Arguments InvalidPacketId {W} packet_id.
Arguments MissingStoredPublish {W} packet_id.
Arguments RetryWrite {W} w.

Definition map_retained_error (e : RetainedError) : PublishError :=
  match e with
  | TopicTooLong => RetainedTopicTooLong
  | PayloadTooLarge => RetainedPayloadTooLarge
  | StoreFull => RetainedFull
  end.

(** The state the broker's tasks share behind mutexes and signals. *)
Record Broker `{EmbassySignal} (C : Type) := {
  b_registry : SessionRegistry;
  b_retained : RetainedStore;
  b_signals : list Signal;
  b_handler : C;
}.
Arguments Build_Broker {_ C}.
Arguments b_registry {_ C}.
Arguments b_retained {_ C}.
Arguments b_signals {_ C}.
Arguments b_handler {_ C}.

Section ops.
Context `{Heapless} `{Mqttrs} `{EmbassySignal}.
Context (MAX_SESSIONS MAX_INFLIGHT MAX_RETAINED : nat).

Definition encode_publish (topic : string) (payload : list Z) (qos : QoS) (retain : bool)
  (packet_id : Z) : result PublishError (list Z) :=
  qospid ← match qos with
           | AtMostOnce => Ok QP_AtMostOnce
           | AtLeastOnce => QP_AtLeastOnce <$> ok_or PubPayloadTooLarge (pid_try_from packet_id)
           | ExactlyOnce => QP_ExactlyOnce <$> ok_or PubPayloadTooLarge (pid_try_from packet_id)
           end;
  let packet := {| pub_dup := false; pub_qospid := qospid; pub_retain := retain;
                   pub_topic_name := topic; pub_payload := payload |} in
  frame ← map_err (λ _, PubPayloadTooLarge)
            (encode_slice (PPublish packet) MAX_OUTBOUND_FRAME_SIZE);
  ok_or PubPayloadTooLarge (vec_from_slice MAX_OUTBOUND_FRAME_SIZE frame).

Definition encode_publish_qos0 (topic : string) (payload : list Z) (retain : bool)
  : result PublishError (list Z) := encode_publish topic payload AtMostOnce retain 0.

Definition acquire_shared_publish (reg : SessionRegistry) (shared : option StoredPublishHandle)
  (topic : string) (payload : list Z) (retain : bool)
  : option StoredPublishHandle * option StoredPublishHandle * SessionRegistry :=
  match shared with
  | Some handle =>
      match acquire_stored_publish reg handle with
      | (Ok _, reg) => (Some handle, shared, reg)
      | (Err _, reg) => (None, shared, reg)
      end
  | None =>
      match store_publish_ref reg topic payload retain with
      | (Ok handle, reg) => (Some handle, Some handle, reg)
      | (Err _, reg) => (None, shared, reg)
      end
  end.

(** ** The fan-out loop of [handle_publish_at] and [process_outbound_publish] *)
Section fanout.
Context (topic : string) (payload : list Z) (incoming_qos : QoS) (retain : bool).
Context (now : Instant) (max_outbox_drops : Z).

(** What the loop carries: the table, the signals, the shared store handle. *)
Definition fan : Type := SessionRegistry * list Signal * option StoredPublishHandle.

(** QoS 1 bookkeeping after the frame entered the outbox. *)
Definition track_inflight (reg : SessionRegistry) (shared : option StoredPublishHandle)
  (session_id : SessionId) (packet_id : Z)
  : SessionRegistry * option StoredPublishHandle :=
  if match get reg session_id with
     | Some session => bool_decide (length (inflight session) < MAX_INFLIGHT)%nat
     | None => false
     end
  then
    match acquire_shared_publish reg shared topic payload retain with
    | (None, shared, reg) => (reg, shared)
    | (Some handle, shared, reg) =>
        let '(added, reg) :=
          match get reg session_id with
          | None => (false, reg)
          | Some session =>
              match inflight_add MAX_INFLIGHT session
                      {| ie_packet_id := packet_id; ie_publish := handle; ie_qos := AtLeastOnce;
                         ie_sent_at := now; ie_retries := 0 |} with
              | (Ok _, session) => (true, put reg session_id session)
              | (Err _, session) => (false, put reg session_id session)
              end
          end in
        if added then (reg, shared) else (release_stored_publish reg handle, shared)
    end
  else (reg, shared).

(** A full outbox: count the drop, quarantine at the threshold. *)
Definition drop_frame (session : SessionState) : SessionState :=
  let session := set_outbox_drops session (saturating_add U8_MAX (outbox_drops session) 1) in
  if decide (max_outbox_drops ≤ outbox_drops session) then set_quarantined session true
  else session.

Definition deliver_one (st : fan) (session_id : SessionId) (subscriber_qos : QoS)
  : result PublishError unit * fan :=
  let '(reg, signals, shared) := st in
  let effective_qos := min_qos incoming_qos subscriber_qos in
  match get reg session_id with
  | None => (Ok tt, st)
  | Some session =>
      let '(packet_id, session) :=
        if decide (effective_qos ≠ AtMostOnce) then next_packet_id session else (0, session) in
      match encode_publish topic payload effective_qos retain packet_id with
      | Err e => (Err e, (put reg session_id session, signals, shared))
      | Ok bytes =>
          match deque_push_back MAX_OUTBOX_DEPTH (outbox session) {| ob_bytes := bytes |} with
          | None => (Ok tt, (put reg session_id (drop_frame session), signals, shared))
          | Some q =>
              let reg := put reg session_id (set_outbox session q) in
              let signals := signal_session signals session_id in
              if decide (effective_qos = AtLeastOnce) then
                let '(reg, shared) := track_inflight reg shared session_id packet_id in
                (Ok tt, (reg, signals, shared))
              else (Ok tt, (reg, signals, shared))
          end
      end
  end.

Fixpoint deliver_all (st : fan) (subscribers : list (SessionId * QoS))
  : result PublishError unit * fan :=
  match subscribers with
  | [] => (Ok tt, st)
  | (session_id, subscriber_qos) :: subscribers =>
      match deliver_one st session_id subscriber_qos with
      | (Err e, st) => (Err e, st)
      | (Ok _, st) => deliver_all st subscribers
      end
  end.
End fanout.

(** [if retain { retained.set(..).map_err(..)?; }] *)
Definition retain_publish (store : RetainedStore) (retain : bool) (topic : string)
  (payload : list Z) (qos : QoS) : result PublishError unit * RetainedStore :=
  if retain then
    let '(r, store) := Retained.set MAX_RETAINED store topic payload qos in
    (map_err map_retained_error r, store)
  else (Ok tt, store).

(** ** [process_outbound_publish] *)
Definition process_outbound_publish {C} (b : Broker C) (publish : MqttPublish) (now : Instant)
  : result PublishError unit * Broker C :=
  match retain_publish (b_retained b) (mp_retain publish) (mp_topic publish) (mp_payload publish)
          (mp_qos publish) with
  | (Err e, store) =>
      (Err e, {| b_registry := b_registry b; b_retained := store; b_signals := b_signals b;
                 b_handler := b_handler b |})
  | (Ok _, store) =>
      let subscribers := find_all_subscribers MAX_SESSIONS (b_registry b) (mp_topic publish) in
      let '(r, (reg, signals, _)) :=
        deliver_all (mp_topic publish) (mp_payload publish) (mp_qos publish) (mp_retain publish)
          now (Config.max_outbox_drops Config.GATOMQTT_CONFIG)
          (b_registry b, b_signals b, None) subscribers in
      (r, {| b_registry := reg; b_retained := store; b_signals := signals;
             b_handler := b_handler b |})
  end.

(** ** The command intent *)
Definition forward_command `{CommandHandler C} (h : C) (packet : External.Publish)
  : result PublishError unit * C :=
  if is_command_topic (pub_topic_name packet) then
    match (topic ← ok_or PubTopicTooLong (string_try_from 128 (pub_topic_name packet));
           payload ← ok_or PubPayloadTooLarge (vec_from_slice 512 (pub_payload packet));
           mret {| mi_topic := topic; mi_payload := payload;
                   mi_qos := qospid_qos (pub_qospid packet) |}) with
    | Err e => (Err e, h)
    | Ok intent =>
        match cmd_handle h intent with
        | (Ok _, h) => (Ok tt, h)
        | (Err _, h) =>
            if decide (qospid_qos (pub_qospid packet) ≠ AtMostOnce)
            then (Err CommandHandlerOverloaded, h)
            else (Ok tt, h)
        end
    end
  else (Ok tt, h).

Context `{EmbassyTime}.

(** ** [handle_publish] *)
Definition handle_publish_at `{CommandHandler C} (b : Broker C) (sender_id : SessionId)
  (packet : External.Publish) (now : Instant) (max_violations max_outbox_drops : Z)
  : result PublishError unit * Broker C :=
  let incoming_qos := qospid_qos (pub_qospid packet) in
  match get (b_registry b) sender_id with
  | None => (Err (SenderNotFound sender_id), b)
  | Some sender =>
      let '(granted, bucket) := RateLimit.try_consume (rate sender) now in
      let reg := put (b_registry b) sender_id (set_rate sender bucket) in
      let b := {| b_registry := reg; b_retained := b_retained b; b_signals := b_signals b;
                  b_handler := b_handler b |} in
      if negb granted then
        if decide (max_violations ≤ RateLimit.violations bucket) then (Err RateLimitDisconnect, b)
        else if decide (incoming_qos ≠ AtMostOnce) then (Err RateLimitDisconnect, b)
        else (Ok tt, b)
      else
        match retain_publish (b_retained b) (pub_retain packet) (pub_topic_name packet)
                (pub_payload packet) incoming_qos with
        | (Err e, store) =>
            (Err e, {| b_registry := reg; b_retained := store; b_signals := b_signals b;
                       b_handler := b_handler b |})
        | (Ok _, store) =>
            let subscribers := find_subscribers MAX_SESSIONS reg (pub_topic_name packet) sender_id in
            let '(r, (reg, signals, _)) :=
              deliver_all (pub_topic_name packet) (pub_payload packet) incoming_qos
                (pub_retain packet) now max_outbox_drops (reg, b_signals b, None) subscribers in
            let '(r, h) := match r with
                           | Err e => (Err e, b_handler b)
                           | Ok _ => forward_command (b_handler b) packet
                           end in
            (r, {| b_registry := reg; b_retained := store; b_signals := signals;
                   b_handler := h |})
        end
  end.

(** The public entry point ignores the connection's configuration: the limits
    are those of [GATOMQTT_CONFIG]. *)
Definition handle_publish `{CommandHandler C} (b : Broker C) (sender_id : SessionId)
  (packet : External.Publish) (now : Instant) : result PublishError unit * Broker C :=
  handle_publish_at b sender_id packet now
    (Config.max_violations Config.GATOMQTT_CONFIG)
    (Config.max_outbox_drops Config.GATOMQTT_CONFIG).

(** ** PUBACK *)
Definition handle_puback (session : SessionState) (packet_id : Z)
  : option StoredPublishHandle * SessionState :=
  let '(r, session) := inflight_remove session packet_id in (ie_publish <$> r, session).

(** ** Retries *)
Section retries.
Context `{Transport T E}.
Context (MAX_PACKET_SIZE : nat).
Context (session_id : SessionId) (timeout : Duration) (max_retries : Z) (now : Instant).

Definition set_retries (e : InflightEntry) (n : Z) : InflightEntry :=
  {| ie_packet_id := ie_packet_id e; ie_publish := ie_publish e; ie_qos := ie_qos e;
     ie_sent_at := ie_sent_at e; ie_retries := n |}.
Definition set_sent_at (e : InflightEntry) (t : Instant) : InflightEntry :=
  {| ie_packet_id := ie_packet_id e; ie_publish := ie_publish e; ie_qos := ie_qos e;
     ie_sent_at := t; ie_retries := ie_retries e |}.

(** Assigning an entry through [session.inflight.get_mut(index)]. *)
Definition put_entry (reg : SessionRegistry) (session : SessionState) (index : nat)
  (e : InflightEntry) : SessionRegistry :=
  put reg session_id (set_inflight session (<[index := e]> (inflight session))).

(** The retransmission of one stored publish. *)
Definition resend (reg : SessionRegistry) (t : T) (packet_id : Z) (h : StoredPublishHandle)
  : result (RetryDisconnect (WriteError mqtt_error E)) unit * T :=
  match pid_try_from packet_id with
  | None => (Err (InvalidPacketId packet_id), t)
  | Some pid =>
      match stored_publish reg h with
      | None => (Err (MissingStoredPublish packet_id), t)
      | Some stored =>
          let '(r, t) := write_packet MAX_PACKET_SIZE t
            (PPublish {| pub_dup := true; pub_qospid := QP_AtLeastOnce pid;
                         pub_retain := sp_retain stored; pub_topic_name := sp_topic stored;
                         pub_payload := sp_payload stored |}) in
          (map_err RetryWrite r, t)
      end
  end.

(** One round of [for index in 0..inflight_len]. *)
Definition retry_one (reg : SessionRegistry) (t : T) (index : nat)
  : result (RetryDisconnect (WriteError mqtt_error E)) unit * SessionRegistry * T :=
  match get reg session_id with
  | None => (Ok tt, reg, t)
  | Some session =>
      match inflight session !! index with
      | None => (Ok tt, reg, t)
      | Some entry =>
          if entry_expired now timeout entry then
            let retries := saturating_add U8_MAX (ie_retries entry) 1 in
            let entry := set_retries entry retries in
            let reg := put_entry reg session index entry in
            if decide (max_retries < retries)
            then (Err (MaxRetriesExceeded (ie_packet_id entry) retries), reg, t)
            else
              match resend reg t (ie_packet_id entry) (ie_publish entry) with
              | (Err e, t) => (Err e, reg, t)
              | (Ok _, t) =>
                  match get reg session_id with
                  | None => (Ok tt, reg, t)
                  | Some session =>
                      match inflight session !! index with
                      | None => (Ok tt, reg, t)
                      | Some e =>
                          if decide (ie_packet_id e = ie_packet_id entry)
                          then (Ok tt, put_entry reg session index
                                         (set_retries (set_sent_at e now) retries), t)
                          else (Ok tt, reg, t)
                      end
                  end
              end
          else (Ok tt, reg, t)
      end
  end.

Fixpoint retry_all (reg : SessionRegistry) (t : T) (indices : list nat)
  : result (RetryDisconnect (WriteError mqtt_error E)) unit * SessionRegistry * T :=
  match indices with
  | [] => (Ok tt, reg, t)
  | index :: indices =>
      match retry_one reg t index with
      | (Err e, reg, t) => (Err e, reg, t)
      | (Ok _, reg, t) => retry_all reg t indices
      end
  end.
End retries.

Definition process_inflight_retries_at `{Transport T E} (MAX_PACKET_SIZE : nat)
  (session_id : SessionId) (reg : SessionRegistry) (t : T) (retry_ms max_retries : Z)
  (now : Instant)
  : result (RetryDisconnect (WriteError mqtt_error E)) unit * SessionRegistry * T :=
  let timeout := duration_from_millis retry_ms in
  let inflight_len := match get reg session_id with
                      | Some session => length (inflight session) | None => 0%nat end in
  retry_all MAX_PACKET_SIZE session_id timeout max_retries now reg t (seq 0 inflight_len).
End ops.
End Publish.
