(* ===== verification/PublishProofs.v ===== *)
(** * PublishProofs: theorems about [Publish.v]

    Every handler keeps the broker invariant; a publish that is let through
    reaches exactly the matching subscribers; a publish over the rate limit
    reaches nobody; waiting outboxes are always signalled; a retry never meets
    a dangling handle. *)

From S2P Require Import Prelude External Reference Keyed Topics RateLimit Session Registry.
From S2P Require Import Transport Frame Invariants Retained Router Publish.

Module PublishProofs.
Import Topics Session Registry Frame Notify Invariants Retained Router Command Publish.

Section proofs.
Context `{Heapless} `{Mqttrs} `{EmbassySignal} `{EmbassyTime}.
Context (MAX_SUBS MAX_INFLIGHT MAX_SESSIONS MAX_RETAINED : nat).
Local Abbreviation inv := (reg_inv MAX_SUBS MAX_INFLIGHT MAX_SESSIONS).
Local Abbreviation swf := (session_wf MAX_SUBS MAX_INFLIGHT).

(** ** Small facts *)
Lemma encode_publish_fits topic payload qos retain pid bytes :
  encode_publish topic payload qos retain pid = Ok bytes →
  (length bytes ≤ MAX_OUTBOUND_FRAME_SIZE)%nat.
Proof.
  unfold encode_publish, mbind, result_bind. destruct (match qos with AtMostOnce => _ | _ => _ end)
    as [qospid|]; [|done].
  destruct (map_err _ _) as [frame|]; [|done]. unfold ok_or.
  destruct (vec_from_slice _ frame) as [bs|] eqn:Hbs; [|done]. intros [= <-].
  by apply vec_from_slice_Some in Hbs as [? ->].
Qed.

Lemma swf_next_packet_id s : swf s → swf (next_packet_id s).2 ∧ 1 ≤ (next_packet_id s).1 ≤ U16_MAX.
Proof.
  intros Hwf. destruct (next_packet_id_range s (sw_next _ _ _ Hwf)) as [Hr Hn].
  split; [|done]. destruct Hwf. by split.
Qed.

Lemma swf_drop_frame max s : swf s → swf (drop_frame max s).
Proof.
  intros Hwf. unfold drop_frame. destruct Hwf.
  assert (is_u8 (saturating_add U8_MAX (outbox_drops s) 1)) by int_lia.
  case_decide; by split.
Qed.

Lemma swf_push_outbox s bytes :
  swf s → (length (outbox s) < MAX_OUTBOX_DEPTH)%nat →
  (length bytes ≤ MAX_OUTBOUND_FRAME_SIZE)%nat →
  swf (set_outbox s (outbox s ++ [{| ob_bytes := bytes |}])).
Proof.
  intros [] Hlt Hb. split; try done; simpl.
  - rewrite length_app. simpl. lia.
  - apply Forall_app. split; [done|]. by apply Forall_singleton.
Qed.

Lemma swf_add_inflight s e :
  swf s → (length (inflight s) < MAX_INFLIGHT)%nat → Invariants.entry_wf e →
  swf (set_inflight s (inflight s ++ [e])).
Proof.
  intros [] Hlt He. split; try done; simpl.
  - rewrite length_app. simpl. lia.
  - apply Forall_app. split; [done|]. by apply Forall_singleton.
Qed.

Lemma inflight_refs_snoc h l e :
  inflight_refs h (l ++ [e]) = (inflight_refs h l + one (ie_publish e) h)%nat.
Proof. unfold inflight_refs. rewrite sum_list_with_app. simpl. lia. Qed.

(** ** QoS 1 bookkeeping *)
Lemma acquire_shared_spec ex reg shared topic payload retain :
  inv ex reg →
  let '(h, _, reg') := acquire_shared_publish reg shared topic payload retain in
  inv (match h with Some h => plus_extra ex (one h) | None => ex end) reg' ∧
  slots reg' = slots reg.
Proof.
  intros Hinv. unfold acquire_shared_publish. destruct shared as [h|].
  - pose proof (reg_inv_acquire _ _ _ _ _ h Hinv) as Ha.
    pose proof (acquire_slots reg h) as Hs.
    destruct (acquire_stored_publish reg h) as [[u|e] reg']; done.
  - pose proof (reg_inv_store _ _ _ _ _ topic payload retain Hinv) as Ha.
    pose proof (store_slots reg topic payload retain) as Hs.
    destruct (store_publish_ref reg topic payload retain) as [[h|e] reg']; done.
Qed.

Lemma get_slots reg reg' : slots reg' = slots reg → ∀ i, get reg' i = get reg i.
Proof. intros Hs i. unfold get. by rewrite Hs. Qed.

Definition new_entry (now pid : Z) (h : StoredPublishHandle) : InflightEntry :=
  {| ie_packet_id := pid; ie_publish := h; ie_qos := AtLeastOnce; ie_sent_at := now;
     ie_retries := 0 |}.

(** The session gains at most the one entry; nobody else is touched. *)
Lemma track_inflight_spec topic payload retain now reg shared id s pid :
  inv no_extra reg → get reg id = Some s → 1 ≤ pid ≤ U16_MAX →
  let '(reg', _) :=
    track_inflight MAX_INFLIGHT topic payload retain now reg shared id pid in
  inv no_extra reg' ∧ (∀ j, j ≠ id → get reg' j = get reg j) ∧
  ∃ s', get reg' id = Some s' ∧
        (s' = s ∨ ∃ h, s' = set_inflight s (inflight s ++ [new_entry now pid h])).
Proof.
  intros Hinv Hg Hpid. unfold track_inflight. rewrite Hg.
  destruct (bool_decide_reflect (length (inflight s) < MAX_INFLIGHT)%nat) as [Hlt|];
    [|by eauto 10].
  pose proof (acquire_shared_spec no_extra reg shared topic payload retain Hinv) as Ha.
  destruct (acquire_shared_publish reg shared topic payload retain) as [[[h|] sh] reg1];
    destruct Ha as [Hinv1 Hslots]; pose proof (get_slots _ _ Hslots) as Hget;
    [|rewrite <-Hget in Hg; by eauto 10].
  rewrite Hget, Hg. unfold inflight_add. rewrite vec_push_spec, decide_True by done.
  fold (new_entry now pid h). rewrite <-Hget in Hg. split_and!.
  - eapply reg_inv_put; [exact Hinv1|exact Hg| |done|].
    + apply swf_add_inflight; [|done|done]. by eapply (ri_session _ _ _ _ _ Hinv1).
    + intros h'. simpl. rewrite inflight_refs_snoc. unfold plus_extra, no_extra. simpl. lia.
  - intros j Hj. by rewrite get_put_ne.
  - rewrite (get_put_eq _ _ _ _ Hg). eauto.
Qed.

(** ** One delivery *)
Section deliver.
Context (topic : string) (payload : list Z) (incoming_qos : QoS) (retain : bool).
Context (now : Instant) (max_drops : Z).

(** What a subscriber's session looks like after a delivery at subscription QoS
    [q]: a packet identifier is drawn for QoS above 0; with room in the outbox
    the encoded frame is appended (and for QoS 1 possibly an in-flight entry
    recorded), otherwise the drop is counted. *)
Definition delivered (q : QoS) (s s' : SessionState) : Prop :=
  let eff := min_qos incoming_qos q in
  let '(pid, s1) := if decide (eff ≠ AtMostOnce) then next_packet_id s else (0, s) in
  ∃ bytes, encode_publish topic payload eff retain pid = Ok bytes ∧
    if decide (length (outbox s) < MAX_OUTBOX_DEPTH)%nat then
      let s2 := set_outbox s1 (outbox s ++ [{| ob_bytes := bytes |}]) in
      s' = s2 ∨ (eff = AtLeastOnce ∧
                 ∃ h, s' = set_inflight s2 (inflight s ++ [new_entry now pid h]))
    else s' = drop_frame max_drops s1.

(** A non-empty outbox has its owner's signal raised. *)
Definition wake_ok (reg : SessionRegistry) (signals : list Signal) (j : SessionId) : Prop :=
  ∀ s, get reg j = Some s → outbox s ≠ [] → signaled signals j = true.

Lemma next_packet_id_fields s :
  outbox (next_packet_id s).2 = outbox s ∧ inflight (next_packet_id s).2 = inflight s ∧
  client_id (next_packet_id s).2 = client_id s.
Proof. done. Qed.

Lemma drop_frame_fields s :
  outbox (drop_frame max_drops s) = outbox s ∧ inflight (drop_frame max_drops s) = inflight s ∧
  client_id (drop_frame max_drops s) = client_id s.
Proof. unfold drop_frame. by case_decide. Qed.

Local Abbreviation one_delivery :=
  (deliver_one MAX_INFLIGHT topic payload incoming_qos retain now max_drops).

(** After drawing the identifier. *)
Lemma draw_spec eff s :
  swf s →
  let '(pid, s1) := if decide (eff ≠ AtMostOnce) then next_packet_id s else (0, s) in
  swf s1 ∧ outbox s1 = outbox s ∧ inflight s1 = inflight s ∧ client_id s1 = client_id s ∧
  (eff ≠ AtMostOnce → 1 ≤ pid ≤ U16_MAX).
Proof.
  intros Hwf. case_decide; [|done]. pose proof (swf_next_packet_id s Hwf) as [? ?].
  pose proof (next_packet_id_fields s) as (? & ? & ?).
  destruct (next_packet_id s) as [pid s1]. simpl in *. done.
Qed.

(** A change of a session that keeps its outbox needs no signal. *)
Lemma wake_ok_put reg signals id s s2 :
  get reg id = Some s → outbox s2 = outbox s →
  ∀ j, wake_ok reg signals j → wake_ok (put reg id s2) signals j.
Proof.
  intros Hg Ho j Hj t. destruct (decide (j = id)) as [->|Hne].
  - rewrite (get_put_eq _ _ _ _ Hg). intros [= <-]. rewrite Ho. eauto.
  - rewrite get_put_ne by done. apply Hj.
Qed.

(** A session that is signalled may have changed in any way. *)
Lemma wake_ok_signal reg reg' signals id s2 :
  (id < length signals)%nat → (∀ j, j ≠ id → get reg' j = get (put reg id s2) j) →
  ∀ j, wake_ok reg signals j → wake_ok reg' (signal_session signals id) j.
Proof.
  intros Hid Hsame j Hj t Ht Hne. rewrite signaled_signal_session by done.
  destruct (decide (j = id)); [done|]. rewrite Hsame, get_put_ne in Ht by done. eauto.
Qed.

Lemma deliver_one_spec reg signals shared id q :
  inv no_extra reg → length signals = MAX_SESSIONS →
  let '(r, (reg', signals', _)) := one_delivery (reg, signals, shared) id q in
  inv no_extra reg' ∧ length signals' = MAX_SESSIONS ∧
  (∀ j, j ≠ id → get reg' j = get reg j) ∧
  (∀ j, wake_ok reg signals j → wake_ok reg' signals' j) ∧
  (∀ s, get reg id = Some s → ∃ s', get reg' id = Some s' ∧ (r = Ok tt → delivered q s s')).
Proof.
  intros Hinv Hsig. unfold deliver_one. destruct (get reg id) as [s|] eqn:Hg; [|done].
  pose proof (draw_spec (min_qos incoming_qos q) s (ri_session _ _ _ _ _ Hinv _ _ Hg)) as Hdraw.
  unfold delivered. set (eff := min_qos incoming_qos q) in *.
  destruct (if decide (eff ≠ AtMostOnce) then next_packet_id s else (0, s)) as [pid s1] eqn:Hd.
  destruct Hdraw as (Hwf1 & Ho1 & Hi1 & Hc1 & Hpid).
  assert (id < length signals)%nat as Hid.
  { rewrite Hsig, <-(ri_slots _ _ _ _ _ Hinv). by eapply get_slot. }
  pose proof (λ s2, wake_ok_put reg signals id s s2 Hg) as Hwake.
  destruct (encode_publish topic payload eff retain pid) as [bytes|e] eqn:Henc.
  2:{ split_and!; [by eapply reg_inv_put_same|done|by intros; rewrite get_put_ne|by apply Hwake|].
      intros t [= <-]. rewrite (get_put_eq _ _ _ _ Hg). eexists. split; [done|]. intros [=]. }
  rewrite deque_push_back_spec, Ho1.
  destruct (decide (length (outbox s) < MAX_OUTBOX_DEPTH)%nat) as [Hroom|Hroom].
  2:{ pose proof (drop_frame_fields s1) as (? & ? & ?).
      split_and!; [|done|by intros; rewrite get_put_ne|apply Hwake; congruence|].
      - eapply reg_inv_put_same; [done|done|by apply swf_drop_frame|congruence|congruence].
      - intros t [= <-]. rewrite (get_put_eq _ _ _ _ Hg), Hd. eexists. split; [done|].
        intros _. exists bytes. by rewrite decide_False. }
  set (s2 := set_outbox s1 (outbox s ++ [{| ob_bytes := bytes |}])).
  assert (swf s2) as Hwf2.
  { subst s2. rewrite <-Ho1. apply swf_push_outbox; [done|by rewrite Ho1|].
    by eapply encode_publish_fits. }
  assert (inv no_extra (put reg id s2)) as Hinv2 by (by eapply reg_inv_put_same).
  assert (get (put reg id s2) id = Some s2) as Hg2 by (by eapply get_put_eq).
  pose proof (λ reg', wake_ok_signal reg reg' signals id s2 Hid) as Hwake2.
  rewrite <-(length_signal_session signals id) in Hsig.
  destruct (decide (eff = AtLeastOnce)) as [Heff|Heff].
  - pose proof (track_inflight_spec topic payload retain now (put reg id s2) shared id s2 pid
      Hinv2 Hg2) as Ht.
    destruct (track_inflight _ _ _ _ _ _ shared id pid) as [reg' sh'].
    destruct Ht as (Hinv3 & Hsame & s' & Hs' & Hcase); [apply Hpid; by rewrite Heff|].
    split_and!; [done|done|by intros j Hj; rewrite Hsame, get_put_ne|by apply Hwake2|].
    intros t [= <-]. exists s'. split; [done|]. intros _. rewrite Hd. exists bytes.
    split; [done|]. rewrite decide_True by done. destruct Hcase as [?|[h ?]]; [by left|right]. rewrite <-Hi1. eauto.
  - split_and!; [done|done|by intros j Hj; rewrite get_put_ne|by apply Hwake2|].
    intros t [= <-]. exists s2. split; [done|]. intros _. rewrite Hd. exists bytes.
    rewrite decide_True by done. auto.
Qed.

Local Abbreviation deliveries :=
  (deliver_all MAX_INFLIGHT topic payload incoming_qos retain now max_drops).

(** ** All deliveries *)
Lemma deliver_all_spec subs reg signals shared :
  NoDup subs.*1 → inv no_extra reg → length signals = MAX_SESSIONS →
  let '(r, (reg', signals', _)) := deliveries (reg, signals, shared) subs in
  inv no_extra reg' ∧ length signals' = MAX_SESSIONS ∧
  (∀ j, j ∉ subs.*1 → get reg' j = get reg j) ∧
  (∀ j, wake_ok reg signals j → wake_ok reg' signals' j) ∧
  (∀ j q s, (j, q) ∈ subs → get reg j = Some s → r = Ok tt →
     ∃ s', get reg' j = Some s' ∧ delivered q s s').
Proof.
  revert reg signals shared. induction subs as [|[id q] subs IH]; intros reg signals shared Hnd
    Hinv Hsig; [cbn; set_solver|].
  cbn [deliver_all]. simpl in Hnd. apply NoDup_cons in Hnd as [Hni Hnd].
  pose proof (deliver_one_spec reg signals shared id q Hinv Hsig) as H1'.
  destruct (one_delivery (reg, signals, shared) id q) as [[[]|e] [[reg1 signals1] sh1]];
    destruct H1' as (Hinv1 & Hsig1 & Hsame1 & Hwake1 & Hrec1).
  2:{ split_and!; [done|done| |done|by intros]. intros j Hj. apply Hsame1. set_solver. }
  specialize (IH reg1 signals1 sh1 Hnd Hinv1 Hsig1).
  destruct (deliveries (reg1, signals1, sh1) subs) as [r [[reg2 signals2] sh2]].
  destruct IH as (Hinv2 & Hsig2 & Hsame2 & Hwake2 & Hrec2).
  split_and!; [done|done| |auto|].
  - intros j Hj. rewrite Hsame2, Hsame1; set_solver.
  - intros j q' s Hin Hg Hr. apply elem_of_cons in Hin as [[= -> ->]|Hin].
    + destruct (Hrec1 s Hg) as (s' & Hs' & Hrec). exists s'. rewrite Hsame2 by done. auto.
    + assert (j ∈ subs.*1) by (apply list_elem_of_fmap; by exists (j, q')).
      apply Hrec2; [done| |done]. rewrite Hsame1; [done|]. intros ->. done.
Qed.
End deliver.

(** ** The broker invariant *)
Definition broker_inv {C} (b : Broker C) : Prop :=
  inv no_extra (b_registry b) ∧ store_wf MAX_RETAINED (b_retained b) ∧
  length (b_signals b) = MAX_SESSIONS.

Lemma retain_publish_wf store retain topic payload qos :
  store_wf MAX_RETAINED store →
  store_wf MAX_RETAINED (retain_publish MAX_RETAINED store retain topic payload qos).2.
Proof.
  intros Hwf. unfold retain_publish. destruct retain; [|done].
  pose proof (Retained.set_spec MAX_RETAINED store topic payload qos Hwf) as Hs.
  destruct (Retained.set MAX_RETAINED store topic payload qos). by destruct Hs as (_ & _ & ?).
Qed.

Lemma subscribers_NoDup reg topic sender :
  inv no_extra reg → NoDup (find_subscribers MAX_SESSIONS reg topic sender).*1.
Proof.
  intros Hinv. rewrite find_subscribers_omap by apply (ri_slots _ _ _ _ _ Hinv).
  apply sorted_NoDup, select_sorted. unfold iter. apply iter_from_sorted.
Qed.

Lemma all_subscribers_NoDup reg topic :
  inv no_extra reg → NoDup (find_all_subscribers MAX_SESSIONS reg topic).*1.
Proof.
  intros Hinv. rewrite find_all_subscribers_omap by apply (ri_slots _ _ _ _ _ Hinv).
  apply sorted_NoDup, (select_sorted topic (λ _, False)). unfold iter. apply iter_from_sorted.
Qed.

(** A change of the sender's bucket only. *)
Lemma inv_set_rate reg id s bucket :
  inv no_extra reg → get reg id = Some s → RateLimit.bucket_wf bucket →
  inv no_extra (put reg id (set_rate s bucket)).
Proof.
  intros Hinv Hg Hb. eapply reg_inv_put_same; [done|done| |done|done].
  pose proof (ri_session _ _ _ _ _ Hinv _ _ Hg) as []. by split.
Qed.

Lemma wake_ok_put_same reg signals id s s' j :
  get reg id = Some s → outbox s' = outbox s → wake_ok reg signals j →
  wake_ok (put reg id s') signals j.
Proof.
  intros Hg Ho Hj t. destruct (decide (j = id)) as [->|Hne].
  - rewrite (get_put_eq _ _ _ _ Hg). intros [= <-]. rewrite Ho. eauto.
  - rewrite get_put_ne by done. apply Hj.
Qed.

Local Abbreviation wake b := (wake_ok (b_registry b) (b_signals b)).

Section handle.
Context `{CommandHandler C}.
Local Abbreviation publish_at := (handle_publish_at MAX_SESSIONS MAX_INFLIGHT MAX_RETAINED).

(** The handler as the composition of its phases, once the bucket granted the
    publish and the retained store took it. *)
Lemma handle_publish_granted (b : Broker C) sender snd packet now mv md bucket store :
  get (b_registry b) sender = Some snd →
  RateLimit.try_consume (rate snd) now = (true, bucket) →
  retain_publish MAX_RETAINED (b_retained b) (pub_retain packet) (pub_topic_name packet)
    (pub_payload packet) (qospid_qos (pub_qospid packet)) = (Ok tt, store) →
  let reg := put (b_registry b) sender (set_rate snd bucket) in
  let '(r, (reg', signals', _)) :=
    deliver_all MAX_INFLIGHT (pub_topic_name packet) (pub_payload packet)
      (qospid_qos (pub_qospid packet)) (pub_retain packet) now md (reg, b_signals b, None)
      (find_subscribers MAX_SESSIONS reg (pub_topic_name packet) sender) in
  let '(r', h) := match r with
                  | Err e => (Err e, b_handler b)
                  | Ok _ => forward_command (b_handler b) packet end in
  publish_at b sender packet now mv md =
  (r', {| b_registry := reg'; b_retained := store; b_signals := signals'; b_handler := h |}).
Proof.
  intros Hg Ht Hr. simpl. unfold handle_publish_at. rewrite Hg, Ht. cbn [negb b_retained].
  rewrite Hr. cbn [b_signals b_handler]. destruct (deliver_all _ _ _ _ _ _ _ _ _) as [r [[reg' sg'] sh]].
  by destruct (match r with Ok _ => _ | Err e => _ end).
Qed.

Lemma handle_publish_inv (b : Broker C) sender packet now mv md :
  broker_inv b → is_u64 now →
  let b' := (publish_at b sender packet now mv md).2 in
  broker_inv b' ∧ (∀ j, wake b j → wake b' j).
Proof.
  intros (Hinv & Hst & Hsig) Hnow. simpl.
  destruct (get (b_registry b) sender) as [snd|] eqn:Hg.
  2:{ unfold handle_publish_at. by rewrite Hg. }
  pose proof (RateLimit.try_consume_wf (rate snd) now
    (sw_rate _ _ _ (ri_session _ _ _ _ _ Hinv _ _ Hg)) Hnow) as Hbw.
  destruct (RateLimit.try_consume (rate snd) now) as [granted bucket] eqn:Ht. simpl in Hbw.
  pose proof (inv_set_rate _ _ _ bucket Hinv Hg Hbw) as Hinv1.
  assert (∀ j, wake b j →
    wake_ok (put (b_registry b) sender (set_rate snd bucket)) (b_signals b) j) as Hwake1
    by (intros; by eapply wake_ok_put_same).
  destruct granted.
  2:{ unfold handle_publish_at. rewrite Hg, Ht. simpl. repeat case_decide; done. }
  pose proof (retain_publish_wf (b_retained b) (pub_retain packet) (pub_topic_name packet)
    (pub_payload packet) (qospid_qos (pub_qospid packet)) Hst) as Hst1.
  destruct (retain_publish MAX_RETAINED (b_retained b) _ _ _ _) as [[[]|e] store] eqn:Hr.
  2:{ unfold handle_publish_at. rewrite Hg, Ht. simpl. rewrite Hr. done. }
  pose proof (handle_publish_granted b sender snd packet now mv md bucket store Hg Ht Hr) as Heq.
  pose proof (deliver_all_spec (pub_topic_name packet) (pub_payload packet)
    (qospid_qos (pub_qospid packet)) (pub_retain packet) now md
    (find_subscribers MAX_SESSIONS (put (b_registry b) sender (set_rate snd bucket))
       (pub_topic_name packet) sender)
    (put (b_registry b) sender (set_rate snd bucket)) (b_signals b) None
    (subscribers_NoDup _ _ _ Hinv1) Hinv1 Hsig) as Hd.
  simpl in Heq. destruct (deliver_all _ _ _ _ _ _ _ _ _) as [r [[reg' sg'] sh]].
  destruct Hd as (? & ? & _ & Hw & _).
  destruct (match r with Ok _ => _ | Err e => _ end) as [r' h]. rewrite Heq. simpl.
  split; [done|]. intros j Hj. apply Hw, Hwake1, Hj.
Qed.

(** C11: a publish that is let through reaches exactly its audience.  When the
    rate limiter grants the publish and the handler succeeds, every other
    connected session with a matching subscription has received it at the
    lower of the publish's QoS and the best matching subscription's QoS (the
    frame is the next one of its outbox, or the drop is counted if the outbox
    is full), and every other session without a matching subscription is
    unchanged. *)
Theorem publish_reaches_subscribers (b b' : Broker C) (sender : SessionId)
  (packet : External.Publish) (now : Instant) (max_violations max_outbox_drops : Z)
  (snd : SessionState) :
  broker_inv b → is_u64 now → get (b_registry b) sender = Some snd →
  (RateLimit.try_consume (rate snd) now).1 = true →
  publish_at b sender packet now max_violations max_outbox_drops = (Ok tt, b') →
  ∀ id s, id ≠ sender → get (b_registry b) id = Some s →
  ∃ s', get (b_registry b') id = Some s' ∧
    (∀ q, best_match (pub_topic_name packet) (subscriptions s) q →
       delivered (pub_topic_name packet) (pub_payload packet) (qospid_qos (pub_qospid packet))
         (pub_retain packet) now max_outbox_drops q s s') ∧
    ((∀ q, ¬ best_match (pub_topic_name packet) (subscriptions s) q) → s' = s).
Proof.
  intros (Hinv & Hst & Hsig) Hnow Hg Hgrant Hok id s Hid Hs.
  pose proof (RateLimit.try_consume_wf (rate snd) now
    (sw_rate _ _ _ (ri_session _ _ _ _ _ Hinv _ _ Hg)) Hnow) as Hbw.
  destruct (RateLimit.try_consume (rate snd) now) as [granted bucket] eqn:Ht. simpl in *.
  destruct granted; [|done]. pose proof (inv_set_rate _ _ _ bucket Hinv Hg Hbw) as Hinv1.
  destruct (retain_publish MAX_RETAINED (b_retained b) (pub_retain packet) (pub_topic_name packet)
    (pub_payload packet) (qospid_qos (pub_qospid packet))) as [[[]|e] store] eqn:Hr.
  2:{ unfold handle_publish_at in Hok. rewrite Hg, Ht in Hok. simpl in Hok. by rewrite Hr in Hok. }
  pose proof (handle_publish_granted b sender snd packet now max_violations max_outbox_drops
    bucket store Hg Ht Hr) as Heq.
  set (reg1 := put (b_registry b) sender (set_rate snd bucket)) in *.
  pose proof (deliver_all_spec (pub_topic_name packet) (pub_payload packet)
    (qospid_qos (pub_qospid packet)) (pub_retain packet) now max_outbox_drops
    (find_subscribers MAX_SESSIONS reg1 (pub_topic_name packet) sender) reg1 (b_signals b) None
    (subscribers_NoDup _ _ _ Hinv1) Hinv1 Hsig) as Hd.
  simpl in Heq. destruct (deliver_all _ _ _ _ _ _ _ _ _) as [r [[reg' sg'] sh]].
  destruct Hd as (_ & _ & Hsame & _ & Hrec).
  assert (r = Ok tt ∧ b_registry b' = reg') as [-> ->].
  { destruct r as [[]|e]; [|by rewrite Heq in Hok]. split; [done|].
    destruct (forward_command (b_handler b) packet). rewrite Heq in Hok.
    by injection Hok as _ <-. }
  assert (get reg1 id = Some s) as Hs1 by (by unfold reg1; rewrite get_put_ne).
  assert (∀ q, (id, q) ∈ find_subscribers MAX_SESSIONS reg1 (pub_topic_name packet) sender ↔
    best_match (pub_topic_name packet) (subscriptions s) q) as Hmem.
  { intros q. rewrite find_subscribers_omap by apply (ri_slots _ _ _ _ _ Hinv1).
    rewrite (elem_of_walk reg1 (pub_topic_name packet) (λ i, i = sender)). naive_solver. }
  destruct (matched_qos (pub_topic_name packet) None (subscriptions s)) as [q|] eqn:Hq.
  - apply matched_qos_Some in Hq. destruct (Hrec id q s) as (s' & Hs' & Hr'); [by apply Hmem|done|done|].
    exists s'. split; [done|]. split; [|intros Hno; by destruct (Hno q)].
    intros q' Hq'. apply best_match_unique in Hq, Hq'. congruence.
  - assert (∀ q, ¬ best_match (pub_topic_name packet) (subscriptions s) q) as Hno.
    { intros q Hb%best_match_unique. congruence. }
    exists s. split; [|split; [intros q Hb; by destruct (Hno q)|done]].
    rewrite Hsame; [done|]. intros ([i q] & -> & Hin)%list_elem_of_fmap. simpl in *.
    apply (Hno q), Hmem, Hin.
Qed.

(** C27: a publish over the rate limit reaches nobody.  When the bucket is
    empty the handler touches nothing but the sender's bucket: no outbox, no
    signal, no retained message, no command.  A QoS 0 publish is dropped
    silently until the violation limit, a QoS 1 or 2 publish always asks for a
    disconnect, so no acknowledgement is ever sent for a dropped message. *)
Theorem rate_limited_publish_is_inert (b : Broker C) (sender : SessionId)
  (packet : External.Publish) (now : Instant) (max_violations max_outbox_drops : Z)
  (snd : SessionState) :
  get (b_registry b) sender = Some snd → (RateLimit.try_consume (rate snd) now).1 = false →
  let bucket := (RateLimit.try_consume (rate snd) now).2 in
  publish_at b sender packet now max_violations max_outbox_drops =
  (if decide (qospid_qos (pub_qospid packet) = AtMostOnce ∧
              RateLimit.violations bucket < max_violations)
   then Ok tt else Err RateLimitDisconnect,
   {| b_registry := put (b_registry b) sender (set_rate snd bucket);
      b_retained := b_retained b; b_signals := b_signals b; b_handler := b_handler b |}).
Proof.
  intros Hg Hgr. unfold handle_publish_at. rewrite Hg.
  destruct (RateLimit.try_consume (rate snd) now) as [granted bucket]. simpl in *. subst. simpl.
  destruct (decide (max_violations ≤ RateLimit.violations bucket)).
  { rewrite decide_False by (intros [_ ?]; lia). done. }
  destruct (decide (qospid_qos (pub_qospid packet) ≠ AtMostOnce)).
  { rewrite decide_False by naive_solver. done. }
  rewrite decide_True; [done|]. split; [by apply dec_stable|lia].
Qed.

End handle.

Lemma process_outbound_inv {C} (b : Broker C) publish now :
  broker_inv b →
  let b' := (process_outbound_publish MAX_SESSIONS MAX_INFLIGHT MAX_RETAINED b publish now).2 in
  broker_inv b' ∧ (∀ j, wake b j → wake b' j).
Proof.
  intros (Hinv & Hst & Hsig). simpl. unfold process_outbound_publish.
  pose proof (retain_publish_wf (b_retained b) (mp_retain publish) (mp_topic publish)
    (mp_payload publish) (mp_qos publish) Hst) as Hst1.
  destruct (retain_publish MAX_RETAINED (b_retained b) _ _ _ _) as [[[]|e] store]; [|done].
  pose proof (deliver_all_spec (mp_topic publish) (mp_payload publish) (mp_qos publish)
    (mp_retain publish) now (Config.max_outbox_drops Config.GATOMQTT_CONFIG)
    (find_all_subscribers MAX_SESSIONS (b_registry b) (mp_topic publish))
    (b_registry b) (b_signals b) None (all_subscribers_NoDup _ _ Hinv) Hinv Hsig) as Hd.
  destruct (deliver_all _ _ _ _ _ _ _ _ _) as [r [[reg' sg'] sh]].
  destruct Hd as (? & ? & _ & ? & _). done.
Qed.

(** ** PUBACK *)

(** Acknowledging releases exactly the entry's reference. *)
Lemma puback_inv reg id s pid :
  inv no_extra reg → get reg id = Some s →
  let '(h, s') := handle_puback s pid in
  let reg1 := put reg id s' in
  inv no_extra (match h with Some h => release_stored_publish reg1 h | None => reg1 end).
Proof.
  intros Hinv Hg. unfold handle_puback. pose proof (inflight_remove_spec s pid) as Hr.
  pose proof (ri_session _ _ _ _ _ Hinv _ _ Hg) as Hwf.
  destruct (inflight_remove s pid) as [[e|] s']; simpl.
  - destruct Hr as (l1 & l2 & Hl & _ & _ & ->). apply reg_inv_release.
    eapply reg_inv_put; [exact Hinv|exact Hg| |done|].
    + destruct Hwf. rewrite Hl, length_app in sw_inflight0. simpl in sw_inflight0.
      rewrite Hl in sw_entries0. apply Forall_app in sw_entries0 as [? [_ ?]%Forall_cons].
      split; try done; simpl; [rewrite length_app; lia|by apply Forall_app].
    + intros h. simpl. rewrite Hl. unfold inflight_refs, plus_extra, no_extra.
      rewrite !sum_list_with_app. simpl. lia.
  - destruct Hr as [_ ->]. by eapply reg_inv_put_same.
Qed.

(** ** Retries *)
Section retry.
Context `{Transport T E}.
Context (MAX_PACKET_SIZE : nat) (id : SessionId) (timeout : Duration) (max_retries : Z).
Context (now : Instant).

(** Replacing an entry by one for the same publish keeps the counts. *)
Lemma inflight_refs_update h l i e e' :
  l !! i = Some e → ie_publish e' = ie_publish e →
  inflight_refs h (<[i := e']> l) = inflight_refs h l.
Proof.
  intros Hi Hp. unfold inflight_refs.
  pose proof (sum_list_with_insert (λ e, one (ie_publish e) h) l i e e' Hi) as Hs.
  simpl in Hs. rewrite Hp in Hs. lia.
Qed.

Lemma put_entry_inv reg s i e e' :
  inv no_extra reg → get reg id = Some s → inflight s !! i = Some e →
  ie_publish e' = ie_publish e → Invariants.entry_wf e' →
  inv no_extra (put_entry id reg s i e').
Proof.
  intros Hinv Hg Hi Hp Hwf. unfold put_entry.
  eapply reg_inv_put; [exact Hinv|exact Hg| |done|].
  - pose proof (ri_session _ _ _ _ _ Hinv _ _ Hg) as []. split; try done; simpl.
    + by rewrite length_insert.
    + by apply Forall_insert.
  - intros h. simpl. by rewrite (inflight_refs_update h _ _ _ _ Hi Hp).
Qed.

Lemma entry_wf_set_retries e n :
  Invariants.entry_wf e → is_u8 n → Invariants.entry_wf (set_retries e n).
Proof. unfold Invariants.entry_wf. simpl. tauto. Qed.

(** Sessions other than [id], and everything of [id] but its in-flight table,
    stay as they were. *)
Definition only_inflight (reg reg' : SessionRegistry) : Prop :=
  (∀ j, j ≠ id → get reg' j = get reg j) ∧
  (∀ s, get reg id = Some s → ∃ l, length l = length (inflight s) ∧
     get reg' id = Some (set_inflight s l)).

Lemma put_entry_only reg s i e :
  get reg id = Some s → only_inflight reg (put_entry id reg s i e).
Proof.
  intros Hg. unfold put_entry. split.
  - intros j Hj. by rewrite get_put_ne.
  - intros t [= <-]%(eq_trans (eq_sym Hg)). rewrite (get_put_eq _ _ _ _ Hg).
    eexists. split; [|done]. by rewrite length_insert.
Qed.

Lemma only_inflight_refl reg : only_inflight reg reg.
Proof. split; [done|]. intros s Hs. exists (inflight s). split; [done|]. rewrite Hs. by destruct s. Qed.

Lemma only_inflight_trans r1 r2 r3 :
  only_inflight r1 r2 → only_inflight r2 r3 → only_inflight r1 r3.
Proof.
  intros [Ha1 Hb1] [Ha2 Hb2]. split.
  - intros j Hj. by rewrite Ha2, Ha1.
  - intros s (l & Hl & Hs)%Hb1. destruct (Hb2 _ Hs) as (l' & Hl' & ->). exists l'.
    simpl in *. split; [congruence|done].
Qed.

Local Abbreviation once := (retry_one MAX_PACKET_SIZE id timeout max_retries now).

(** The two errors that would mean a corrupted table. *)
Definition table_error {W} (r : result (RetryDisconnect W) unit) : Prop :=
  match r with
  | Err (InvalidPacketId _) | Err (MissingStoredPublish _) => True
  | _ => False
  end.

Lemma retry_one_spec reg (t : T) i :
  inv no_extra reg →
  let '(r, reg', _) := once reg t i in
  inv no_extra reg' ∧ only_inflight reg reg' ∧ ¬ table_error r.
Proof.
  intros Hinv. unfold retry_one. pose proof (only_inflight_refl reg).
  destruct (get reg id) as [s|] eqn:Hg; [|by split_and!; auto].
  destruct (inflight s !! i) as [e|] eqn:Hi; [|by split_and!; auto].
  destruct (entry_expired now timeout e); [|by split_and!; auto].
  set (n := saturating_add U8_MAX (ie_retries e) 1). set (e1 := set_retries e n).
  pose proof (ri_session _ _ _ _ _ Hinv _ _ Hg) as Hwf.
  assert (Invariants.entry_wf e) as He.
  { eapply Forall_lookup_1; [apply (sw_entries _ _ _ Hwf)|done]. }
  assert (is_u8 n) as Hn by (destruct He as (_ & _ & ?); subst n; int_lia).
  assert (Invariants.entry_wf e1) as He1 by (by apply entry_wf_set_retries).
  assert (inv no_extra (put_entry id reg s i e1)) as Hinv1 by (by eapply put_entry_inv).
  pose proof (put_entry_only reg s i e1 Hg) as Honly1.
  set (reg1 := put_entry id reg s i e1) in *.
  assert (get reg1 id = Some (set_inflight s (<[i := e1]> (inflight s)))) as Hg1
    by (subst reg1; by eapply get_put_eq).
  assert (inflight (set_inflight s (<[i := e1]> (inflight s))) !! i = Some e1) as Hi1.
  { simpl. apply list_lookup_insert_eq. by apply lookup_lt_Some in Hi. }
  destruct (decide (max_retries < n)); [split_and!; auto|].
  assert (¬ table_error (resend MAX_PACKET_SIZE reg1 t (ie_packet_id e1) (ie_publish e1)).1) as Hte.
  { unfold resend. destruct He1 as (Hpid & _). rewrite pid_try_from_spec by int_lia.
    rewrite decide_False by lia.
    destruct (inflight_resolves _ _ _ _ _ _ _ e1 Hinv1 Hg1) as [sp ->];
      [by eapply list_elem_of_lookup_2|].
    destruct (write_packet _ _ _) as [[] ?]; simpl; auto. }
  destruct (resend _ _ _ _ _) as [[[]|err] t1]; [|split_and!; auto].
  rewrite Hg1, Hi1. rewrite decide_True by done. split_and!; [| |auto].
  - eapply put_entry_inv; [done|done|done|done|]. by apply entry_wf_set_retries.
  - eapply only_inflight_trans; [done|]. by eapply put_entry_only.
Qed.

Lemma retry_all_spec indices reg (t : T) :
  inv no_extra reg →
  let '(r, reg', _) := retry_all MAX_PACKET_SIZE id timeout max_retries now reg t indices in
  inv no_extra reg' ∧ only_inflight reg reg' ∧ ¬ table_error r.
Proof.
  revert reg t. induction indices as [|i indices IH]; intros reg t Hinv.
  { split_and!; [done|apply only_inflight_refl|auto]. }
  cbn [retry_all]. pose proof (retry_one_spec reg t i Hinv) as H1'.
  destruct (once reg t i) as [[[[]|e] reg1] t1]; destruct H1' as (Hinv1 & Ho1 & Ht1); [|done].
  specialize (IH reg1 t1 Hinv1). destruct (retry_all _ _ _ _ _ reg1 t1 indices) as [[r reg2] t2].
  destruct IH as (? & ? & ?). split_and!; [done| |done]. by eapply only_inflight_trans.
Qed.
End retry.

(** Retrying QoS 1 deliveries never meets a corrupted table.  From any
    table satisfying the invariant, whatever the transport does, the retry
    pass keeps the invariant, changes only the session's in-flight entries,
    and cannot fail with [MissingStoredPublish] or [InvalidPacketId]: every
    in-flight entry's publish is still in the store and its identifier is
    valid. *)
Lemma retries_never_dangle `{Transport T E} (MAX_PACKET_SIZE : nat) (id : SessionId)
  (reg : SessionRegistry) (t : T) (retry_ms max_retries : Z) (now : Instant) :
  inv no_extra reg →
  let '(r, reg', _) :=
    process_inflight_retries_at MAX_PACKET_SIZE id reg t retry_ms max_retries now in
  inv no_extra reg' ∧ only_inflight id reg reg' ∧ ¬ table_error r.
Proof. apply retry_all_spec. Qed.
End proofs.

(** ** A concrete broker: a publisher, and a subscriber to [sb/+/device/+/set] *)
Definition ex_session (cid : string) (subs : list Subscription) : SessionState :=
  set_subscriptions (Session.new cid 30) subs.
Definition ex_pub : SessionState := ex_session "pub" [].
Definition ex_sub : SessionState :=
  ex_session "sub" [{| sub_filter := "sb/#"; sub_qos := AtLeastOnce |}].
Definition ex_reg : SessionRegistry :=
  (Registry.insert (Registry.insert (Registry.new 2 2) ex_pub).2 ex_sub).2.
Definition ex_broker : Broker MockCommandHandler := {|
  b_registry := ex_reg; b_retained := Retained.new; b_signals := new_session_signals 2;
  b_handler := {| received := []; overloaded := false |} |}.
Definition ex_packet : External.Publish := {| pub_dup := false; pub_qospid := QP_AtLeastOnce 1;
  pub_retain := false; pub_topic_name := "sb/h/device/r/set"; pub_payload := [1] |}.

Lemma ex_session_wf cid f :
  (String.length cid ≤ 64)%nat → is_valid_filter f = true →
  session_wf 4 2 (ex_session cid [{| sub_filter := f; sub_qos := AtLeastOnce |}]).
Proof.
  intros Hc Hf. pose proof (session_wf_new 4 2 cid 30 Hc ltac:(split; vm_compute; discriminate)) as [].
  split; try done; simpl; [lia|apply NoDup_singleton|by apply Forall_singleton].
Qed.

Lemma ex_reg_inv : reg_inv 4 2 2 no_extra ex_reg.
Proof.
  eapply (reg_inv_insert 4 2 2 no_extra (Registry.insert (Registry.new 2 2) ex_pub).2 ex_sub 1);
    [|by apply ex_session_wf; [simpl; lia|]|done| |reflexivity].
  - eapply (reg_inv_insert 4 2 2 no_extra (Registry.new 2 2) ex_pub 0);
      [apply reg_inv_new| |done| |reflexivity].
    + pose proof (session_wf_new 4 2 "pub" 30 ltac:(simpl; lia)
        ltac:(split; vm_compute; discriminate)) as []. by split.
    + intros [|[|i]] t Ht; discriminate Ht.
  - intros [|[|i]] t Ht; try discriminate Ht. injection Ht as <-. discriminate.
Qed.

Lemma ex_broker_inv : broker_inv 4 2 2 4 ex_broker.
Proof.
  split; [exact ex_reg_inv|]. split; [|reflexivity].
  split; [simpl; lia|split; constructor].
Qed.

Definition ex_result := handle_publish_at 2 2 4 ex_broker 0 ex_packet 5 50 16.

Lemma publish_reaches_subscribers_witness :
  ∃ s', get (b_registry ex_result.2) 1 = Some s' ∧
    (∀ q, best_match "sb/h/device/r/set" (subscriptions ex_sub) q →
       delivered "sb/h/device/r/set" [1] AtLeastOnce false 5 16 q ex_sub s') ∧
    ((∀ q, ¬ best_match "sb/h/device/r/set" (subscriptions ex_sub) q) → s' = ex_sub).
Proof.
  apply (publish_reaches_subscribers 4 2 2 4 ex_broker ex_result.2 0 ex_packet 5 50 16 ex_pub).
  - exact ex_broker_inv.
  - split; vm_compute; discriminate.
  - reflexivity.
  - vm_compute. reflexivity.
  - vm_compute. reflexivity.
  - discriminate.
  - reflexivity.
Defined.


Definition ex_drained : Broker MockCommandHandler := {|
  b_registry := put ex_reg 0 (set_rate ex_pub (RateLimit.new 0 0));
  b_retained := Retained.new; b_signals := new_session_signals 2;
  b_handler := {| received := []; overloaded := false |} |}.

Lemma rate_limited_publish_is_inert_witness :
  handle_publish_at 2 2 4 ex_drained 0 ex_packet 5 50 16 =
  (Err RateLimitDisconnect, {| b_registry := put (b_registry ex_drained) 0
     (set_rate (set_rate ex_pub (RateLimit.new 0 0))
        (RateLimit.try_consume (RateLimit.new 0 0) 5).2);
     b_retained := b_retained ex_drained; b_signals := b_signals ex_drained;
     b_handler := b_handler ex_drained |}).
Proof.
  apply (rate_limited_publish_is_inert 2 2 4 ex_drained 0 ex_packet 5 50 16
    (set_rate ex_pub (RateLimit.new 0 0))).
  - reflexivity.
  - vm_compute. reflexivity.
Defined.

Lemma retries_never_dangle_witness :
  let '(r, reg', _) :=
    process_inflight_retries_at 192 1 (b_registry ex_result.2) Mock.new 1000 3 60000000 in
  reg_inv 4 2 2 no_extra reg' ∧ only_inflight 1 (b_registry ex_result.2) reg' ∧ ¬ table_error r.
Proof.
  apply (retries_never_dangle 4 2 2 192 1 (b_registry ex_result.2) Mock.new 1000 3 60000000).
  apply (handle_publish_inv 4 2 2 4 ex_broker 0 ex_packet 5 50 16 ex_broker_inv).
  split; vm_compute; discriminate.
Defined.
End PublishProofs.
