(* ===== verification/Disconnect.v ===== *)
(** * Disconnect: last wills ([handler/disconnect.rs])

    Why a session ended decides whether its will is published; the will goes
    to the retained store when it asks for it and to a broadcaster with the
    list of matching sessions.  [publish_lwt_wf] says that the retained store
    stays well-formed; who receives the will is proved in [System.v]. *)

From S2P Require Import Prelude External Reference Keyed Topics RateLimit Session Registry.
From S2P Require Import Transport Frame Invariants Retained Router.

Module Disconnect.
Import Topics Session Registry Invariants Retained Router.

Inductive LwtBroadcastError := DeliveryFailed.

Inductive DisconnectError :=
| DeRetained (e : RetainedError)
| DeBroadcast (e : LwtBroadcastError).

Inductive DisconnectReason :=
| ClientDisconnect
| ConnectionClosed
| TransportError
| KeepaliveTimeout
| RateLimitExceeded
| CommandHandlerOverload
| RetryLimitExceeded
| OutboxQuarantine.
#[global] Instance DisconnectReason_eq_dec : EqDecision DisconnectReason.
Proof. solve_decision. Defined.

Definition is_clean (r : DisconnectReason) : bool :=
  match r with ClientDisconnect => true | _ => false end.

(** The trait; [broadcast] takes [&self], so what it changes is its own state. *)
Class LwtBroadcaster (B : Type) := {
  broadcast : B → list (SessionId * QoS) → LwtMessage → result LwtBroadcastError unit * B;
}.

Section ops.
Context `{Heapless}.
Context (MAX_SESSIONS MAX_RETAINED : nat).

Definition find_lwt_subscribers (reg : SessionRegistry) (disconnecting_client_id : string)
  (l : LwtMessage) : list (SessionId * QoS) :=
  foldl (λ deliveries '(session_id, state),
    if decide (client_id state = disconnecting_client_id) then deliveries
    else match matched_qos (lwt_topic l) None (subscriptions state) with
         | Some qos => push_ignore MAX_SESSIONS deliveries (session_id, qos)
         | None => deliveries
         end) [] (Registry.iter reg).

Definition publish_lwt_message_if_needed `{LwtBroadcaster B} (disconnecting_client_id : string)
  (l : LwtMessage) (reg : SessionRegistry) (retained : RetainedStore) (br : B)
  (reason : DisconnectReason) : result DisconnectError unit * RetainedStore * B :=
  if is_clean reason then (Ok tt, retained, br)
  else
    let '(r, retained) :=
      if lwt_retain l then
        Retained.set MAX_RETAINED retained (lwt_topic l) (lwt_payload l) (lwt_qos l)
      else (Ok tt, retained) in
    match r with
    | Err e => (Err (DeRetained e), retained, br)
    | Ok _ =>
        let deliveries := find_lwt_subscribers reg disconnecting_client_id l in
        match deliveries with
        | [] => (Ok tt, retained, br)
        | _ :: _ => let '(r, br) := broadcast br deliveries l in
                    (map_err DeBroadcast r, retained, br)
        end
    end.

Definition publish_lwt_if_needed `{LwtBroadcaster B} (session : SessionState)
  (reg : SessionRegistry) (retained : RetainedStore) (br : B) (reason : DisconnectReason)
  : result DisconnectError unit * RetainedStore * B :=
  if is_clean reason then (Ok tt, retained, br)
  else match lwt session with
       | None => (Ok tt, retained, br)
       | Some l =>
           publish_lwt_message_if_needed (client_id session) l reg retained br reason
       end.
End ops.

Section spec.
Context `{Heapless}.
Context (MAX_SUBS MAX_INFLIGHT MAX_SESSIONS MAX_RETAINED : nat).
Local Abbreviation inv := (reg_inv MAX_SUBS MAX_INFLIGHT MAX_SESSIONS).

(** What the walk selects. *)
Definition select_lwt (cid : string) (l : LwtMessage) (p : SessionId * SessionState)
  : option (SessionId * QoS) :=
  if decide (client_id p.2 = cid) then None
  else (λ q, (p.1, q)) <$> matched_qos (lwt_topic l) None (subscriptions p.2).

Lemma find_lwt_subscribers_omap ex reg cid l :
  inv ex reg →
  find_lwt_subscribers MAX_SESSIONS reg cid l = omap (select_lwt cid l) (Registry.iter reg).
Proof.
  intros Hinv. rewrite <-(walk_complete MAX_SESSIONS) by apply (ri_slots _ _ _ _ _ Hinv).
  unfold find_lwt_subscribers. apply foldl_ext. intros acc [id s]. unfold select_lwt. simpl.
  case_decide; [done|]. by destruct (matched_qos _ _ _).
Qed.

Lemma elem_of_lwt_subscribers ex reg cid l id q :
  inv ex reg →
  (id, q) ∈ find_lwt_subscribers MAX_SESSIONS reg cid l ↔
  ∃ s, get reg id = Some s ∧ client_id s ≠ cid ∧ best_match (lwt_topic l) (subscriptions s) q.
Proof.
  intros Hinv. rewrite (find_lwt_subscribers_omap _ _ _ _ Hinv), list_elem_of_omap.
  unfold select_lwt. split.
  - intros ([i s] & Hi%elem_of_iter & Hsel). simpl in Hsel. case_decide; [done|].
    apply fmap_Some in Hsel as (q' & Hq & [= -> ->]). exists s.
    split_and!; [done|done|by apply matched_qos_Some].
  - intros (s & Hg%elem_of_iter & Hne & Hq%best_match_unique). exists (id, s). simpl.
    rewrite decide_False by done. rewrite Hq. auto.
Qed.

Lemma publish_lwt_wf `{LwtBroadcaster B} cid l reg retained (br : B) reason :
  store_wf MAX_RETAINED retained →
  store_wf MAX_RETAINED
    (publish_lwt_message_if_needed MAX_SESSIONS MAX_RETAINED cid l reg retained br reason).1.2.
Proof.
  intros Hwf. unfold publish_lwt_message_if_needed. destruct (is_clean reason); [done|].
  assert (store_wf MAX_RETAINED (if lwt_retain l then
      Retained.set MAX_RETAINED retained (lwt_topic l) (lwt_payload l) (lwt_qos l)
      else (Ok tt, retained)).2) as Hw.
  { destruct (lwt_retain l); [|done].
    pose proof (Retained.set_spec MAX_RETAINED retained (lwt_topic l) (lwt_payload l) (lwt_qos l)
      Hwf) as Hs.
    destruct (Retained.set _ _ _ _ _). by destruct Hs as (_ & _ & ?). }
  destruct (if lwt_retain l then _ else _) as [[u|e] store]; [|done]. simpl in Hw.
  destruct (find_lwt_subscribers _ _ _ _); [done|]. by destruct (broadcast _ _ _).
Qed.
End spec.
End Disconnect.
