(* ===== verification/Connection.v ===== *)
(** * Connection: the task of one client ([handler/connection.rs])

    [connection_loop] is an async function: between two awaits it runs without
    interruption, and it holds the registry (and retained) mutex for whole
    blocks.  It is modelled as a machine over [phase]s: one phase per stretch
    of code between awaits at which other tasks can run, each phase a function
    of the shared broker state, the transport and the [input] of the step (the
    clock readings and whether the wake-up signal or the timer fired).  The
    theorems about interleavings are in [System.v]. *)

From S2P Require Import Prelude External Reference Keyed Topics RateLimit Session Registry.
From S2P Require Import Transport Frame Invariants Retained Router Connect Subscribe Publish.
From S2P Require Import Disconnect.

Module Connection.
Import Session Registry Frame Notify Invariants Retained Router Command Publish Disconnect.

(** ** The recording broadcaster *)
Record RecordingLwtBroadcaster := { rl_deliveries : option (list (SessionId * QoS)) }.

Definition rl_new : RecordingLwtBroadcaster := {| rl_deliveries := None |}.
Definition rl_take (r : RecordingLwtBroadcaster) : option (list (SessionId * QoS)) :=
  rl_deliveries r.

Section recorder.
Context `{Heapless}.
Context (MAX_DELIVERIES : nat).

Fixpoint record_all (acc ds : list (SessionId * QoS)) : option (list (SessionId * QoS)) :=
  match ds with
  | [] => Some acc
  | d :: ds => acc ← vec_push MAX_DELIVERIES acc d; record_all acc ds
  end.

Definition rl_broadcast (r : RecordingLwtBroadcaster) (ds : list (SessionId * QoS))
  (_ : LwtMessage) : result LwtBroadcastError unit * RecordingLwtBroadcaster :=
  match record_all [] ds with
  | None => (Err DeliveryFailed, r)
  | Some recorded => (Ok tt, {| rl_deliveries := Some recorded |})
  end.

#[local] Instance recording_broadcaster : LwtBroadcaster RecordingLwtBroadcaster :=
  {| broadcast := rl_broadcast |}.
End recorder.

(** ** The replies a packet can ask for *)
Inductive reply :=
| RNone
| RPuback (pid : Pid)
| RSuback (prepared : Subscribe.PreparedSubscribe)
| RUnsuback (pid : Pid)
| RPingresp.

(** ** Phases *)
Inductive phase :=
| PhConnect                                   (* waiting for the first packet *)
| PhRegister (c : External.Connect)           (* CONNECT read, registry not yet locked *)
| PhAck (id : SessionId) (session_present : bool)
| PhFlush (id : SessionId)                    (* top of the loop, outbox not yet known empty *)
| PhSend (id : SessionId) (packet : OutboundPacket)
| PhCheck (id : SessionId)                    (* outbox seen empty *)
| PhWait (id : SessionId) (wait : Duration)   (* at the select *)
| PhHandle (id : SessionId) (packet : Packet)
| PhReply (id : SessionId) (r : reply)
| PhClose (id : SessionId) (reason : DisconnectReason)
| PhWill (id : SessionId) (l : LwtMessage) (ds : list (SessionId * QoS))
| PhRemove (id : SessionId)
| PhShut                                      (* transport.close() *)
| PhDone
| PhPanic.

(** [in_now] and [in_now2]: the clock at the calls of [Instant::now()];
    [in_signal]: the select was won by the outbox signal rather than the timer. *)
Record input := { in_now : Instant; in_now2 : Instant; in_signal : bool }.

Section ops.
Context `{Heapless} `{Mqttrs} `{EmbassySignal} `{EmbassyTime} `{CommandHandler C} `{Transport T E}.
Context (MAX_SESSIONS MAX_SUBS MAX_INFLIGHT MAX_RETAINED MAX_PACKET_SIZE : nat).
Context (config : Config.BrokerConfig).

Definition set_registry (b : Broker C) (reg : SessionRegistry) : Broker C :=
  {| b_registry := reg; b_retained := b_retained b; b_signals := b_signals b;
     b_handler := b_handler b |}.
Definition set_signals (b : Broker C) (signals : list Signal) : Broker C :=
  {| b_registry := b_registry b; b_retained := b_retained b; b_signals := signals;
     b_handler := b_handler b |}.
Definition set_retained (b : Broker C) (st : RetainedStore) : Broker C :=
  {| b_registry := b_registry b; b_retained := st; b_signals := b_signals b;
     b_handler := b_handler b |}.

(** *** [reset_empty_session_signals] *)
Definition reset_empty_session_signals (reg : SessionRegistry) (signals : list Signal)
  : list Signal :=
  foldl (λ signals session_id,
    match get reg session_id with
    | None => reset_session_signal signals session_id
    | Some _ => signals
    end) signals (seq 0 MAX_SESSIONS).

(** *** The first packet *)
Definition await_connect (t : T) : T * phase :=
  match read_packet MAX_PACKET_SIZE t with
  | (Done (Ok (PConnect connect)), t) => (t, PhRegister connect)
  | (Done (Ok _), t) => (t_close t, PhDone)
  | (Done (Err _), t) => (t_close t, PhDone)
  | (Pending, t) => (t_close t, PhDone)
  | (Panic, t) => (t, PhPanic)
  end.

(** *** The block under the registry lock; the rejection is written after it *)
Definition register (b : Broker C) (t : T) (connect : External.Connect) (now : Instant)
  : Broker C * T * phase :=
  let token := {| Connect.ht_username := Config.house_token_username config;
                  Connect.ht_password := Config.house_token_password config |} in
  match Connect.prepare_connect MAX_SESSIONS (b_registry b) connect token with
  | (Done (Ok (Connect.PcAccepted outcome)), reg) =>
      let session_id := Connect.co_session_id outcome in
      let reg := match get reg session_id with
                 | Some session =>
                     put reg session_id
                       (update_activity_at
                          (set_rate session (RateLimit.new (Config.rate_capacity config)
                             (Config.rate_per_sec config))) now)
                 | None => reg
                 end in
      let signals := reset_empty_session_signals reg (b_signals b) in
      let signals := reset_session_signal signals session_id in
      (set_signals (set_registry b reg) signals, t,
       PhAck session_id (Connect.co_session_present outcome))
  | (Done (Ok (Connect.PcRejected code)), reg) =>
      let signals := reset_empty_session_signals reg (b_signals b) in
      let '(_, t) := Connect.write_connack MAX_PACKET_SIZE t code false in
      (set_signals (set_registry b reg) signals, t_close t, PhDone)
  | (Done (Err _), reg) =>
      let signals := reset_empty_session_signals reg (b_signals b) in
      (set_signals (set_registry b reg) signals, t, PhDone)
  | (Pending, reg) => (set_registry b reg, t, PhDone)
  | (Panic, reg) => (set_registry b reg, t, PhPanic)
  end.

Definition acknowledge (t : T) (id : SessionId) (session_present : bool) : T * phase :=
  match Connect.write_connack MAX_PACKET_SIZE t Accepted session_present with
  | (Err _, t) => (t_close t, PhDone)
  | (Ok _, t) => (t, PhFlush id)
  end.

(** *** [flush_outbox_for_session]: the locked part and the write *)
Definition flush_pop (b : Broker C) (id : SessionId) : Broker C * phase :=
  match get (b_registry b) id with
  | None => (b, PhCheck id)
  | Some session =>
      match outbox session with
      | [] => (set_registry b (put (b_registry b) id (set_outbox_drops session 0)), PhCheck id)
      | packet :: rest =>
          (set_registry b (put (b_registry b) id (set_outbox session rest)), PhSend id packet)
      end
  end.

Definition flush_write (t : T) (id : SessionId) (packet : OutboundPacket) : T * phase :=
  match t_write t (ob_bytes packet) with
  | (Err _, t) => (t, PhClose id TransportError)
  | (Ok _, t) => (t, PhFlush id)
  end.

(** *** The checks before the select, and [&outbox_signals[session_id]] *)
Definition check_session (b : Broker C) (t : T) (id : SessionId) (now now2 : Instant)
  : Broker C * T * phase :=
  match quarantined <$> get (b_registry b) id with
  | None => (b, t, PhClose id ConnectionClosed)
  | Some true => (b, t, PhClose id OutboxQuarantine)
  | Some false =>
      let '(r, reg, t) :=
        process_inflight_retries_at MAX_PACKET_SIZE id (b_registry b) t
          (Config.qos1_retry_ms config) (Config.qos1_max_retries config) now in
      let b := set_registry b reg in
      match r with
      | Err _ => (b, t, PhClose id RetryLimitExceeded)
      | Ok _ =>
          match get reg id with
          | None => (b, t, PhClose id ConnectionClosed)
          | Some session =>
              if is_keepalive_expired session now2 then (b, t, PhClose id KeepaliveTimeout)
              else
                let wait := next_wakeup_after session now2 (Config.qos1_retry_ms config)
                              (duration_from_secs 3600) in
                if decide (id < length (b_signals b))%nat then (b, t, PhWait id wait)
                else (b, t, PhPanic)
          end
      end
  end.

(** *** The select: the read wins when it completes; otherwise the timer or
    the signal, whose [wait] lowers it *)
Definition wait_event (b : Broker C) (t : T) (id : SessionId) (by_signal : bool)
  : Broker C * T * phase :=
  match read_packet MAX_PACKET_SIZE t with
  | (Done (Ok packet), t) => (b, t, PhHandle id packet)
  | (Done (Err Eof), t) => (b, t, PhClose id ConnectionClosed)
  | (Done (Err _), t) => (b, t, PhClose id TransportError)
  | (Pending, t) =>
      (if by_signal && signaled (b_signals b) id
       then set_signals b (reset_session_signal (b_signals b) id) else b, t, PhFlush id)
  | (Panic, t) => (b, t, PhPanic)
  end.

(** *** Handling a packet: the locked part *)
Definition handle_packet (b : Broker C) (id : SessionId) (packet : Packet) (now now2 : Instant)
  : Broker C * phase :=
  let reg := b_registry b in
  match packet with
  | PPublish publish =>
      let reply := match pub_qospid publish with
                   | QP_AtLeastOnce pid => RPuback pid | _ => RNone end in
      match get reg id with
      | None => (b, PhClose id ConnectionClosed)
      | Some session =>
          let b := set_registry b (put reg id (update_activity_at session now)) in
          let '(r, b) := handle_publish MAX_SESSIONS MAX_INFLIGHT MAX_RETAINED b id publish now2 in
          (b, match r with
              | Err RateLimitDisconnect => PhClose id RateLimitExceeded
              | Err CommandHandlerOverloaded => PhClose id CommandHandlerOverload
              | _ => PhReply id reply
              end)
      end
  | PPuback pid =>
      match get reg id with
      | None => (b, PhClose id ConnectionClosed)
      | Some session =>
          let session := update_activity_at session now in
          let '(released, session) := handle_puback session pid in
          let reg := put reg id session in
          let reg := match released with
                     | Some publish => release_stored_publish reg publish
                     | None => reg
                     end in
          (set_registry b reg, PhReply id RNone)
      end
  | PSubscribe subscribe =>
      match get reg id with
      | None => (b, PhClose id ConnectionClosed)
      | Some session =>
          let session := update_activity_at session now in
          match Subscribe.prepare_subscribe MAX_SUBS MAX_RETAINED session subscribe
                  (b_retained b) with
          | (Done prepared, session) =>
              (set_registry b (put reg id session), PhReply id (RSuback prepared))
          | (_, session) => (set_registry b (put reg id session), PhPanic)
          end
      end
  | PUnsubscribe unsubscribe =>
      match get reg id with
      | None => (b, PhClose id ConnectionClosed)
      | Some session =>
          let session := update_activity_at session now in
          (set_registry b (put reg id (Subscribe.apply_unsubscribe session unsubscribe)),
           PhReply id (RUnsuback (un_pid unsubscribe)))
      end
  | PPingreq =>
      match get reg id with
      | None => (b, PhClose id ConnectionClosed)
      | Some session =>
          (set_registry b (put reg id (Subscribe.touch_pingreq session now)),
           PhReply id RPingresp)
      end
  | PDisconnect => (b, PhClose id ClientDisconnect)
  | _ =>
      match get reg id with
      | None => (b, PhClose id ConnectionClosed)
      | Some session =>
          (set_registry b (put reg id (update_activity_at session now)), PhReply id RNone)
      end
  end.

(** *** Writing the reply, outside the lock *)
Definition write_reply (t : T) (id : SessionId) (r : reply) : T * phase :=
  let done {X} (w : result X unit * T) :=
    match w with (Err _, t) => (t, PhClose id TransportError) | (Ok _, t) => (t, PhFlush id) end in
  match r with
  | RNone => (t, PhFlush id)
  | RPuback pid => done (write_packet MAX_PACKET_SIZE t (PPuback pid))
  | RSuback prepared => done (Subscribe.write_prepared_subscribe MAX_PACKET_SIZE t prepared)
  | RUnsuback pid => done (write_packet MAX_PACKET_SIZE t (PUnsuback pid))
  | RPingresp => done (write_packet MAX_PACKET_SIZE t PPingresp)
  end.

(** *** [cleanup_connection] *)
Definition collect_will (b : Broker C) (id : SessionId) (reason : DisconnectReason)
  : Broker C * phase :=
  if is_clean reason then (b, PhRemove id)
  else
    match get (b_registry b) id with
    | None => (b, PhRemove id)
    | Some session =>
        match lwt session with
        | None => (b, PhRemove id)
        | Some l =>
            let '(_, store, br) :=
              @publish_lwt_message_if_needed _ MAX_SESSIONS MAX_RETAINED _
                (recording_broadcaster MAX_SESSIONS) (client_id session) l (b_registry b) (b_retained b) rl_new reason in
            (set_retained b store,
             match rl_take br with
             | Some ds => PhWill id l ds
             | None => PhRemove id
             end)
        end
    end.

Definition encode_publish_from_lwt (l : LwtMessage) (qos : QoS) : option (list Z) :=
  let qospid := match qos with
                | AtMostOnce => QP_AtMostOnce
                | AtLeastOnce => QP_AtLeastOnce pid_new
                | ExactlyOnce => QP_ExactlyOnce pid_new
                end in
  frame ← result_ok (encode_slice (PPublish {| pub_dup := false; pub_qospid := qospid;
             pub_retain := lwt_retain l; pub_topic_name := lwt_topic l;
             pub_payload := lwt_payload l |}) MAX_OUTBOUND_FRAME_SIZE);
  vec_from_slice MAX_OUTBOUND_FRAME_SIZE frame.

Fixpoint deliver_will (reg : SessionRegistry) (signals : list Signal) (l : LwtMessage)
  (ds : list (SessionId * QoS)) : SessionRegistry * list Signal :=
  match ds with
  | [] => (reg, signals)
  | (target_session_id, qos) :: ds =>
      match get reg target_session_id with
      | None => deliver_will reg signals l ds
      | Some target =>
          match encode_publish_from_lwt l qos with
          | None => deliver_will reg signals l ds
          | Some bytes =>
              match deque_push_back MAX_OUTBOX_DEPTH (outbox target) {| ob_bytes := bytes |} with
              | Some q =>
                  deliver_will (put reg target_session_id (set_outbox target q))
                    (signal_session signals target_session_id) l ds
              | None => deliver_will reg signals l ds
              end
          end
      end
  end.

Definition send_will (b : Broker C) (id : SessionId) (l : LwtMessage)
  (ds : list (SessionId * QoS)) : Broker C * phase :=
  let '(reg, signals) := deliver_will (b_registry b) (b_signals b) l ds in
  (set_signals (set_registry b reg) signals, PhRemove id).

Definition remove_session (b : Broker C) (id : SessionId) : Broker C * phase :=
  let '(_, reg) := remove (b_registry b) id in
  (set_signals (set_registry b reg) (reset_session_signal (b_signals b) id), PhShut).

(** ** One step of the task *)
Definition conn_step (b : Broker C) (t : T) (p : phase) (i : input) : Broker C * T * phase :=
  match p with
  | PhConnect => let '(t, p) := await_connect t in (b, t, p)
  | PhRegister connect => register b t connect (in_now i)
  | PhAck id present => let '(t, p) := acknowledge t id present in (b, t, p)
  | PhFlush id => let '(b, p) := flush_pop b id in (b, t, p)
  | PhSend id packet => let '(t, p) := flush_write t id packet in (b, t, p)
  | PhCheck id => check_session b t id (in_now i) (in_now2 i)
  | PhWait id _ => wait_event b t id (in_signal i)
  | PhHandle id packet => let '(b, p) := handle_packet b id packet (in_now i) (in_now2 i) in (b, t, p)
  | PhReply id r => let '(t, p) := write_reply t id r in (b, t, p)
  | PhClose id reason => let '(b, p) := collect_will b id reason in (b, t, p)
  | PhWill id l ds => let '(b, p) := send_will b id l ds in (b, t, p)
  | PhRemove id => let '(b, p) := remove_session b id in (b, t, p)
  | PhShut => (b, t_close t, PhDone)
  | PhDone => (b, t, PhDone)
  | PhPanic => (b, t, PhPanic)
  end.

(** The task run on its own for [length inputs] steps. *)
Fixpoint run_conn (b : Broker C) (t : T) (p : phase) (inputs : list input) : Broker C * T * phase :=
  match inputs with
  | [] => (b, t, p)
  | i :: inputs => let '(b, t, p) := conn_step b t p i in run_conn b t p inputs
  end.
End ops.
End Connection.
