(* ===== verification/System.v ===== *)
(** * System: many connections sharing one broker

    Any number of connection tasks ([Connection.v]) interleave with each other
    and with publishes of the firmware ([process_outbound_publish]).  A step of
    the system is one phase of one task; the theorems hold in every reachable
    state, so for every interleaving:
    - the broker invariant holds and no task ever panics;
    - no wake-up is lost: an outbox with frames in it has its signal raised or
      a task that is about to flush it, unless a CONNACK could not be written
      on that session. *)

From S2P Require Import Prelude External Reference Keyed Topics RateLimit Session Registry.
From S2P Require Import Transport Frame Invariants Retained Router Connect Subscribe Publish.
From S2P Require Import PublishProofs Disconnect Connection.

Open Scope Z_scope.

Module System.
Import Session Registry Frame Notify Invariants Retained Router Command Publish PublishProofs
  Disconnect Connection.

(** ** Phases *)

(** What a task carries from one step to the next is well-typed; it did not
    panic. *)
Definition phase_wf (p : phase) : Prop :=
  match p with
  | PhRegister c => packet_wf (PConnect c)
  | PhHandle _ packet => packet_wf packet
  | PhPanic => False
  | _ => True
  end.

(** The task will look at the outbox of [id] before it waits again, or remove
    the session. *)
Definition active (id : SessionId) (p : phase) : Prop :=
  match p with
  | PhAck j _ | PhFlush j | PhSend j _ | PhHandle j _ | PhReply j _ | PhClose j _
  | PhWill j _ _ | PhRemove j => j = id
  | _ => False
  end.

Definition input_wf (i : input) : Prop := is_u64 (in_now i) ∧ is_u64 (in_now2 i).

Definition config_wf (c : Config.BrokerConfig) : Prop :=
  is_u8 (Config.rate_capacity c) ∧ is_u8 (Config.rate_per_sec c).

Section proofs.
Context `{Heapless} `{Mqttrs} `{EmbassySignal} `{EmbassyTime} `{CommandHandler C} `{Transport T E}.
Context (MAX_SESSIONS MAX_SUBS MAX_INFLIGHT MAX_RETAINED MAX_PACKET_SIZE : nat).
Context (config : Config.BrokerConfig).
Local Abbreviation inv := (reg_inv MAX_SUBS MAX_INFLIGHT MAX_SESSIONS no_extra).
Local Abbreviation binv := (broker_inv MAX_SUBS MAX_INFLIGHT MAX_SESSIONS MAX_RETAINED).
Local Abbreviation wake b := (wake_ok (b_registry b) (b_signals b)).

(** ** Signals *)
Lemma length_reset_session_signal signals id :
  length (reset_session_signal signals id) = length signals.
Proof. unfold reset_session_signal. destruct (signals !! id); [apply length_insert|done]. Qed.

Lemma signaled_reset_ne signals id j :
  j ≠ id → signaled (reset_session_signal signals id) j = signaled signals j.
Proof.
  intros Hj. unfold signaled, reset_session_signal. destruct (signals !! id); [|done].
  by rewrite list_lookup_insert_ne.
Qed.

(** Only signals of empty slots are lowered. *)
Lemma reset_empty_spec reg signals :
  length (reset_empty_session_signals MAX_SESSIONS reg signals) = length signals ∧
  ∀ j s, get reg j = Some s →
    signaled (reset_empty_session_signals MAX_SESSIONS reg signals) j = signaled signals j.
Proof.
  unfold reset_empty_session_signals. generalize (seq 0 MAX_SESSIONS). intros l.
  revert signals. induction l as [|i l IH]; intros signals; [done|]. simpl.
  destruct (get reg i) as [s|] eqn:Hi; [apply IH|].
  destruct (IH (reset_session_signal signals i)) as [Hl Hs].
  rewrite Hl, length_reset_session_signal. split; [done|]. intros j t Hj.
  rewrite (Hs j t Hj). apply signaled_reset_ne. congruence.
Qed.

(** ** Changing one session *)
Lemma wake_put reg signals id s s' j :
  get reg id = Some s → outbox s' = outbox s ∨ outbox s' = [] ∨ j ≠ id →
  wake_ok reg signals j → wake_ok (put reg id s') signals j.
Proof.
  intros Hg Ho Hj t. destruct (decide (j = id)) as [->|Hne].
  - rewrite (get_put_eq _ _ _ _ Hg). intros [= <-] Hn.
    destruct Ho as [Ho|[Ho|Ho]]; [|done|done]. rewrite Ho in Hn. eauto.
  - rewrite get_put_ne by done. apply Hj.
Qed.

Lemma swf_update_activity s now :
  session_wf MAX_SUBS MAX_INFLIGHT s → is_u64 now →
  session_wf MAX_SUBS MAX_INFLIGHT (update_activity_at s now).
Proof. intros [] ?. by split. Qed.

Lemma inv_update_activity reg id s now :
  inv reg → get reg id = Some s → is_u64 now → inv (put reg id (update_activity_at s now)).
Proof.
  intros Hinv Hg Hn. eapply reg_inv_put_same; [done|done| |done|done].
  apply swf_update_activity; [|done]. by eapply (ri_session _ _ _ _ _ Hinv).
Qed.

(** ** The phases one by one: each keeps the invariant *)
Section steps.
Context (HP : (5 ≤ MAX_PACKET_SIZE)%nat) (Hcfg : config_wf config).

Lemma read_packet_wf (t t' : T) p :
  read_packet MAX_PACKET_SIZE t = (Done (Ok p), t') → packet_wf p.
Proof.
  unfold read_packet. case_decide; [|done]. unfold io_bind at 1.
  destruct (read_exact 2 t) as [[[h|e]| |] t1]; try done. unfold io_bind at 1.
  destruct (read_header MAX_PACKET_SIZE 3 h t1) as [[[h'|e]| |] t2]; try done.
  unfold read_body. destruct (decode_remaining_length _) as [n|e]; [|done].
  case_decide; [done|]. unfold io_bind.
  destruct (read_exact _ t2) as [[[body|e]| |] t3]; try done.
  unfold io_lift, frame_answer. destruct (decode_slice _) as [[q|]|e] eqn:Hd; try done.
  intros [= <- _]. by eapply decode_slice_wf.
Qed.

Lemma await_connect_wf (t : T) : phase_wf (await_connect MAX_PACKET_SIZE t).2.
Proof using HP.
  unfold await_connect. pose proof (read_packet_safe MAX_PACKET_SIZE t HP) as Hnp.
  pose proof (read_packet_wf t) as Hwf.
  destruct (read_packet MAX_PACKET_SIZE t) as [[[p|e]| |] t']; try done.
  specialize (Hwf _ _ eq_refl). by destruct p.
Qed.

(** What every step guarantees.  The last clause: a task stops being
    responsible for an outbox only when that outbox is in order, or when its
    CONNACK could not be written. *)
Record step_ok (b b' : Broker C) (p p' : phase) : Prop := {
  so_inv : binv b';
  so_phase : phase_wf p';
  so_wake : ∀ j, wake b j → wake b' j ∨ active j p';
  so_active : ∀ j, active j p →
    wake b' j ∨ active j p' ∨ ∃ present, p = PhAck j present ∧ p' = PhDone;
}.

(** Steps that do not touch the shared state. *)
Lemma step_ok_same b p p' :
  binv b → phase_wf p' →
  (∀ j, active j p → active j p' ∨ ∃ present, p = PhAck j present ∧ p' = PhDone) →
  step_ok b b p p'.
Proof. intros Hb Hp Ha. split; [done|done|auto|]. intros j Hj. right. auto. Qed.

(** Steps that change only the table, keep the invariant and every wake-up. *)
Lemma step_ok_registry b reg p p' :
  binv b → inv reg → phase_wf p' →
  (∀ j, wake b j → wake_ok reg (b_signals b) j) → (∀ j, active j p → active j p') →
  step_ok b (set_registry b reg) p p'.
Proof.
  intros (? & ? & ?) Hinv Hp Hw Ha. split; [done|done| |]; [intros j Hj; left; by apply Hw|].
  intros j Hj. right. left. auto.
Qed.

Lemma acknowledge_ok b (t : T) id present :
  binv b → step_ok b b (PhAck id present) (acknowledge MAX_PACKET_SIZE t id present).2.
Proof.
  intros Hb. unfold acknowledge. destruct (Connect.write_connack _ _ _ _) as [[u|w] t'];
    apply step_ok_same; try done; simpl; [by auto|]. intros j ->. eauto.
Qed.

Lemma flush_pop_ok b id :
  binv b → let '(b', p') := flush_pop b id in step_ok b b' (PhFlush id) p'.
Proof.
  intros Hb. pose proof Hb as (Hinv & Hst & Hsig). unfold flush_pop.
  destruct (get (b_registry b) id) as [s|] eqn:Hg.
  2:{ split; [done|done|auto|]. intros j <-. left. intros s Hs. congruence. }
  pose proof (ri_session _ _ _ _ _ Hinv _ _ Hg) as Hwf.
  destruct (outbox s) as [|packet rest] eqn:Ho.
  - assert (inv (put (b_registry b) id (set_outbox_drops s 0))) as Hinv'.
    { eapply reg_inv_put_same; [done|done| |done|done]. destruct Hwf. by split. }
    split; [done|done| |]; simpl.
    + intros j Hj. left. eapply wake_put; eauto.
    + intros j <-. left. intros t. simpl. rewrite (get_put_eq _ _ _ _ Hg). intros [= <-].
      simpl. by rewrite Ho.
  - assert (inv (put (b_registry b) id (set_outbox s rest))) as Hinv'.
    { eapply reg_inv_put_same; [done|done| |done|done]. destruct Hwf. rewrite Ho in *.
      split; try done; simpl in *; [lia|]. by apply Forall_cons in sw_frames0 as [_ ?]. }
    split; [done|done| |]; simpl; [|by auto].
    intros j Hj. destruct (decide (j = id)) as [->|Hne]; [by right|]. left.
    eapply wake_put; eauto.
Qed.

Lemma flush_write_ok b (t : T) id packet :
  binv b → step_ok b b (PhSend id packet) (flush_write t id packet).2.
Proof.
  intros Hb. unfold flush_write. destruct (t_write _ _) as [[u|e] t'];
    apply step_ok_same; try done; simpl; auto.
Qed.

Lemma only_inflight_wake id reg reg' signals s j :
  get reg id = Some s → only_inflight id reg reg' →
  wake_ok reg signals j → wake_ok reg' signals j.
Proof.
  intros Hg [Hsame Hid] Hj t. destruct (decide (j = id)) as [->|Hne].
  - destruct (Hid _ Hg) as (l & _ & ->). intros [= <-]. simpl. eauto.
  - rewrite Hsame by done. apply Hj.
Qed.

Lemma check_session_ok b (t : T) id now now2 :
  binv b →
  let '(b', _, p') := check_session MAX_PACKET_SIZE config b t id now now2 in
  step_ok b b' (PhCheck id) p'.
Proof.
  intros Hb. pose proof Hb as (Hinv & Hst & Hsig). unfold check_session.
  destruct (get (b_registry b) id) as [s|] eqn:Hg; simpl; [|by apply step_ok_same].
  destruct (quarantined s); [by apply step_ok_same|].
  pose proof (retry_all_spec MAX_SUBS MAX_INFLIGHT MAX_SESSIONS MAX_PACKET_SIZE id
    (duration_from_millis (Config.qos1_retry_ms config)) (Config.qos1_max_retries config) now
    (seq 0 (length (inflight s))) (b_registry b) t Hinv) as Hr.
  unfold process_inflight_retries_at. rewrite Hg.
  destruct (retry_all _ _ _ _ _ _ _ _) as [[[u|e] reg] t']; destruct Hr as (Hinv' & Honly & _).
  2:{ apply step_ok_registry; try done. intros j. by eapply only_inflight_wake. }
  destruct (proj2 Honly _ Hg) as (l & Hl & Hg'). rewrite Hg'.
  assert (id < length (b_signals b))%nat as Hlt.
  { rewrite Hsig, <-(ri_slots _ _ _ _ _ Hinv). by eapply get_slot. }
  simpl. rewrite decide_True by done.
  destruct (is_keepalive_expired _ _); (apply step_ok_registry; try done; intros j;
    by eapply only_inflight_wake).
Qed.

Lemma wait_event_ok b (t : T) id wait by_signal :
  binv b →
  let '(b', _, p') := wait_event MAX_PACKET_SIZE b t id by_signal in
  step_ok b b' (PhWait id wait) p'.
Proof using HP.
  intros Hb. unfold wait_event. pose proof (read_packet_safe MAX_PACKET_SIZE t HP) as Hnp.
  pose proof (read_packet_wf t) as Hwf.
  destruct (read_packet MAX_PACKET_SIZE t) as [[[p|e]| |] t']; [| | |done].
  - apply step_ok_same; [done| |done]. by eapply Hwf.
  - destruct e; by apply step_ok_same.
  - destruct (by_signal && signaled (b_signals b) id); [|by apply step_ok_same].
    destruct Hb as (? & ? & ?). split; try done.
    + split_and!; [done|done|]. simpl. by rewrite length_reset_session_signal.
    + intros j Hj. destruct (decide (j = id)) as [->|Hne]; [by right|]. left.
      intros s Hs Ho. simpl in *. rewrite signaled_reset_ne by done. eauto.
Qed.

(** A packet that updates one session without touching its outbox. *)
Lemma session_update_ok b id s s' p p' :
  binv b → get (b_registry b) id = Some s → inv (put (b_registry b) id s') →
  outbox s' = outbox s → phase_wf p' → (∀ j, active j p → active j p') →
  step_ok b (set_registry b (put (b_registry b) id s')) p p'.
Proof.
  intros Hb Hg Hinv Ho Hp Ha. apply step_ok_registry; try done.
  intros j. eapply wake_put; eauto.
Qed.

Lemma handle_publish_ok b id publish now now2 :
  binv b → is_u64 now → is_u64 now2 →
  let '(b', p') := handle_packet MAX_SESSIONS MAX_SUBS MAX_INFLIGHT MAX_RETAINED b id
                     (PPublish publish) now now2 in
  step_ok b b' (PhHandle id (PPublish publish)) p'.
Proof.
  intros Hb Hn Hn2. pose proof Hb as (Hinv & Hst & Hsig). unfold handle_packet.
  destruct (get (b_registry b) id) as [s|] eqn:Hg; [|apply step_ok_same; simpl; auto].
  set (b1 := set_registry b (put (b_registry b) id (update_activity_at s now))).
  assert (binv b1) as Hb1 by (split_and!; [by apply inv_update_activity|done|done]).
  pose proof (handle_publish_inv MAX_SUBS MAX_INFLIGHT MAX_SESSIONS MAX_RETAINED b1 id publish
    now2 (Config.max_violations Config.GATOMQTT_CONFIG)
    (Config.max_outbox_drops Config.GATOMQTT_CONFIG) Hb1 Hn2) as [Hb2 Hw].
  unfold handle_publish. destruct (handle_publish_at _ _ _ _ _ _ _ _ _) as [r b2]. simpl in *.
  set (p' := match r with Ok _ => _ | Err _ => _ end).
  assert (phase_wf p' ∧ active id p') as [Hp Ha]
    by (subst p'; destruct r as [|[]]; done).
  split; [done|done| |].
  - intros j Hj. left. apply Hw. simpl. eapply wake_put; eauto.
  - intros j <-. by right; left.
Qed.

Lemma handle_packet_ok b id packet now now2 :
  binv b → packet_wf packet → is_u64 now → is_u64 now2 →
  let '(b', p') :=
    handle_packet MAX_SESSIONS MAX_SUBS MAX_INFLIGHT MAX_RETAINED b id packet now now2 in
  step_ok b b' (PhHandle id packet) p'.
Proof.
  intros Hb Hpk Hn Hn2. pose proof Hb as (Hinv & Hst & Hsig).
  destruct packet as [c|c|publish|pid|sub|sa|unsub|upid| | | |h opid];
    try (by apply handle_publish_ok); unfold handle_packet;
    try (by apply step_ok_same; simpl; auto);
    (destruct (get (b_registry b) id) as [s|] eqn:Hg; [|apply step_ok_same; simpl; auto]);
    pose proof (inv_update_activity _ _ _ now Hinv Hg Hn) as Hinv1;
    pose proof (swf_update_activity s now (ri_session _ _ _ _ _ Hinv _ _ Hg) Hn) as Hwf1;
    try (eapply session_update_ok; eauto; simpl; by auto).
  - (* PUBACK *)
    pose proof (puback_inv MAX_SUBS MAX_INFLIGHT MAX_SESSIONS
      (put (b_registry b) id (update_activity_at s now)) id (update_activity_at s now) pid Hinv1
      (get_put_eq _ _ _ _ Hg)) as Hpi.
    pose proof (inflight_remove_spec (update_activity_at s now) pid) as Hr.
    unfold handle_puback in *.
    destruct (inflight_remove (update_activity_at s now) pid) as [e s'].
    assert (outbox s' = outbox s) as Ho
      by (destruct e; [destruct Hr as (? & ? & _ & _ & _ & ->)|destruct Hr as [_ ->]]; done).
    rewrite put_put in Hpi by done. simpl in *.
    apply step_ok_registry; try done. intros j Hj.
    destruct e as [e|]; simpl; [|eapply wake_put; eauto].
    intros t. rewrite (get_slots _ _ (release_slots _ _)).
    revert t. by apply (wake_put _ _ id s); auto.
  - (* SUBSCRIBE *)
    destruct (Subscribe.prepare_subscribe_wf MAX_SUBS MAX_INFLIGHT MAX_RETAINED
      (update_activity_at s now) sub (b_retained b) Hwf1 Hpk) as (p & subs & -> & Hwf2).
    eapply session_update_ok; eauto; simpl; auto. by eapply reg_inv_put_same.
  - (* UNSUBSCRIBE *)
    eapply session_update_ok; eauto; simpl; auto. eapply reg_inv_put_same; try done.
    apply Subscribe.session_wf_set_subscriptions; [done|].
    apply Subscribe.remove_filters_spec. by eapply Subscribe.session_wf_subs.
Qed.

Lemma write_reply_ok b (t : T) id r :
  binv b → step_ok b b (PhReply id r) (write_reply MAX_PACKET_SIZE t id r).2.
Proof.
  intros Hb. apply step_ok_same; [done| |]; unfold write_reply; destruct r; simpl; auto;
    repeat case_match; simpl; auto.
Qed.

Lemma collect_will_ok b id reason :
  binv b →
  let '(b', p') := collect_will MAX_SESSIONS MAX_RETAINED b id reason in
  step_ok b b' (PhClose id reason) p'.
Proof.
  intros Hb. pose proof Hb as (Hinv & Hst & Hsig). unfold collect_will.
  destruct (is_clean reason); [apply step_ok_same; simpl; auto|].
  destruct (get (b_registry b) id) as [s|]; [|apply step_ok_same; simpl; auto].
  destruct (lwt s) as [l|]; [|apply step_ok_same; simpl; auto].
  pose proof (publish_lwt_wf MAX_SESSIONS MAX_RETAINED
    (H0 := recording_broadcaster MAX_SESSIONS) (client_id s) l (b_registry b) (b_retained b)
    rl_new reason Hst) as Hw.
  destruct (publish_lwt_message_if_needed _ _ _ _ _ _ _ _) as [[r store] br]. simpl in Hw.
  split; [by split_and!|by destruct (rl_take br)|auto|].
  intros j <-. right. left. by destruct (rl_take br).
Qed.

Lemma encode_will_fits l q bytes :
  encode_publish_from_lwt l q = Some bytes → (length bytes ≤ MAX_OUTBOUND_FRAME_SIZE)%nat.
Proof.
  unfold encode_publish_from_lwt. simpl.
  destruct (result_ok _) as [f|]; [|done]. simpl. by intros [? ->]%vec_from_slice_Some.
Qed.

Lemma deliver_will_spec reg signals l ds :
  inv reg → length signals = MAX_SESSIONS →
  let '(reg', signals') := deliver_will reg signals l ds in
  inv reg' ∧ length signals' = MAX_SESSIONS ∧
  ∀ j, wake_ok reg signals j → wake_ok reg' signals' j.
Proof.
  revert reg signals. induction ds as [|[id q] ds IH]; intros reg signals Hinv Hsig; [done|].
  cbn [deliver_will]. destruct (get reg id) as [s|] eqn:Hg; [|by apply IH].
  destruct (encode_publish_from_lwt l q) as [bytes|] eqn:Henc; [|by apply IH].
  rewrite deque_push_back_spec. case_decide as Hroom; [|by apply IH].
  set (s' := set_outbox s (outbox s ++ [{| ob_bytes := bytes |}])).
  assert (inv (put reg id s')) as Hinv'.
  { eapply reg_inv_put_same; [done|done| |done|done]. apply swf_push_outbox; [|done|].
    - by eapply (ri_session _ _ _ _ _ Hinv).
    - by eapply encode_will_fits. }
  specialize (IH (put reg id s') (signal_session signals id) Hinv').
  rewrite length_signal_session in IH. specialize (IH Hsig).
  destruct (deliver_will (put reg id s') (signal_session signals id) l ds) as [reg' signals'].
  destruct IH as (? & ? & Hw). split_and!; [done|done|]. intros j Hj. apply Hw.
  intros t Ht Ho. rewrite signaled_signal_session.
  - destruct (decide (j = id)); [done|]. rewrite get_put_ne in Ht by done. eauto.
  - rewrite Hsig, <-(ri_slots _ _ _ _ _ Hinv). by eapply get_slot.
Qed.

Lemma send_will_ok b id l ds :
  binv b → let '(b', p') := send_will b id l ds in step_ok b b' (PhWill id l ds) p'.
Proof.
  intros (Hinv & Hst & Hsig). unfold send_will.
  pose proof (deliver_will_spec (b_registry b) (b_signals b) l ds Hinv Hsig) as Hd.
  destruct (deliver_will _ _ _ _) as [reg signals]. destruct Hd as (? & ? & Hw).
  split; [done|done| |]; simpl; auto.
Qed.

Lemma remove_session_ok b id :
  binv b → let '(b', p') := remove_session b id in step_ok b b' (PhRemove id) p'.
Proof.
  intros (Hinv & Hst & Hsig). unfold remove_session.
  pose proof (reg_inv_remove _ _ _ _ _ id Hinv) as Hinv'.
  pose proof (get_remove (b_registry b) id) as Hget.
  destruct (remove (b_registry b) id) as [o reg]. simpl in *.
  assert (∀ j, wake b j ∨ j = id → wake_ok reg (reset_session_signal (b_signals b) id) j) as Hw.
  { intros j Hj s. rewrite Hget. case_decide; [done|]. intros Hs Ho.
    rewrite signaled_reset_ne by done. destruct Hj as [Hj|?]; [eauto|done]. }
  split; [|done| |]; simpl; [|by auto|by intros j <-; auto].
  split_and!; [done|done|]. simpl. by rewrite length_reset_session_signal.
Qed.

Lemma register_ok b (t : T) c now :
  binv b → packet_wf (PConnect c) → is_u64 now →
  let '(b', _, p') := register MAX_SESSIONS MAX_PACKET_SIZE config b t c now in
  step_ok b b' (PhRegister c) p'.
Proof using Hcfg.
  intros (Hinv & Hst & Hsig) Hc Hn. unfold register.
  set (token := {| Connect.ht_username := _; Connect.ht_password := _ |}).
  pose proof (Connect.prepare_connect_effect MAX_SUBS MAX_INFLIGHT MAX_SESSIONS (b_registry b) c
    token Hinv Hc) as He.
  pose proof (Connect.prepare_connect_origin MAX_SUBS MAX_INFLIGHT MAX_SESSIONS (b_registry b) c
    token Hinv Hc) as Ho.
  destruct (Connect.prepare_connect MAX_SESSIONS (b_registry b) c token) as [r reg].
  destruct He as ((Hnp & Hnpe) & Hinv1 & _ & Hacc).
  pose proof (reset_empty_spec reg (b_signals b)) as [Hlen Hsame].
  assert (∀ j, (¬ ∃ o, r = Done (Ok (Connect.PcAccepted o)) ∧ j = Connect.co_session_id o) →
    wake b j → wake_ok reg (reset_empty_session_signals MAX_SESSIONS reg (b_signals b)) j) as Hw.
  { intros j Hno Hj s Hs Hn'. rewrite (Hsame j s Hs).
    destruct (Ho j s Hs) as [?|[[? ->]|?]]; [eauto|done|done]. }
  destruct r as [[[o|code]|e]| |]; try done.
  - destruct (Hacc o eq_refl) as (s & Hs & _). rewrite Hs.
    set (s' := update_activity_at _ now). set (id := Connect.co_session_id o) in *.
    assert (inv (put reg id s')) as Hinv2.
    { eapply reg_inv_put_same; [done|done| |done|done]. apply swf_update_activity; [|done].
      pose proof (ri_session _ _ _ _ _ Hinv1 _ _ Hs) as []. split; try done. simpl.
      by apply RateLimit.new_wf; apply Hcfg. }
    pose proof (reset_empty_spec (put reg id s') (b_signals b)) as [Hlen2 Hsame2].
    split; [|done| |done].
    + split_and!; [done|done|]. simpl. by rewrite length_reset_session_signal, Hlen2.
    + intros j Hj. destruct (decide (j = id)) as [->|Hne]; [by right|]. left.
      intros u Hu Hou. simpl in *. rewrite signaled_reset_ne, (Hsame2 _ _ Hu) by done.
      rewrite get_put_ne in Hu by done. rewrite <-(Hsame j u Hu).
      refine (Hw j _ Hj u Hu Hou). intros (o' & [= <-] & ?). done.
  - destruct (Connect.write_connack _ _ _ _) as [? t']. split; [|done| |done].
    + split_and!; [done|done|]. simpl. by rewrite Hlen.
    + intros j Hj. left. apply Hw; [by intros (? & ? & _)|done].
  - split; [|done| |done].
    + split_and!; [done|done|]. simpl. by rewrite Hlen.
    + intros j Hj. left. apply Hw; [by intros (? & ? & _)|done].
Qed.

Lemma conn_step_ok b (t : T) p i :
  binv b → phase_wf p → input_wf i →
  let '(b', _, p') :=
    conn_step MAX_SESSIONS MAX_SUBS MAX_INFLIGHT MAX_RETAINED MAX_PACKET_SIZE config b t p i in
  step_ok b b' p p'.
Proof using HP Hcfg.
  intros Hb Hp [Hn Hn2].
  destruct p as [|c|id present|id|id packet|id|id wait|id packet|id r|id reason|id l ds|id| | |];
    simpl in *; try done.
  - pose proof (await_connect_wf t). destruct (await_connect _ t) as [t' p'].
    by apply step_ok_same.
  - by apply register_ok.
  - pose proof (acknowledge_ok b t id present Hb). by destruct (acknowledge _ _ _ _).
  - pose proof (flush_pop_ok b id Hb). by destruct (flush_pop _ _).
  - pose proof (flush_write_ok b t id packet Hb). by destruct (flush_write _ _ _).
  - by apply check_session_ok.
  - by apply wait_event_ok.
  - pose proof (handle_packet_ok b id packet _ _ Hb Hp Hn Hn2).
    by destruct (handle_packet _ _ _ _ _ _ _ _ _).
  - pose proof (write_reply_ok b t id r Hb). by destruct (write_reply _ _ _ _).
  - pose proof (collect_will_ok b id reason Hb). by destruct (collect_will _ _ _ _ _).
  - pose proof (send_will_ok b id l ds Hb). by destruct (send_will _ _ _ _).
  - pose proof (remove_session_ok b id Hb). by destruct (remove_session _ _).
  - by apply step_ok_same.
  - by apply step_ok_same.
Qed.
End steps.

(** ** The system

    [sy_unacked] is a ghost: the sessions on which a CONNACK could not be
    written, whose task then ended without cleaning up. *)
Record sys := {
  sy_broker : Broker C;
  sy_conns : list (T * phase);
  sy_unacked : list SessionId;
}.

Definition unacked_by (p p' : phase) : list SessionId :=
  match p, p' with PhAck id _, PhDone => [id] | _, _ => [] end.

Inductive sys_step : sys → sys → Prop :=
| sys_accept s t :
    sys_step s {| sy_broker := sy_broker s; sy_conns := sy_conns s ++ [(t, PhConnect)];
                  sy_unacked := sy_unacked s |}
| sys_conn s k t p i b' t' p' :
    sy_conns s !! k = Some (t, p) → input_wf i →
    conn_step MAX_SESSIONS MAX_SUBS MAX_INFLIGHT MAX_RETAINED MAX_PACKET_SIZE config
      (sy_broker s) t p i = (b', t', p') →
    sys_step s {| sy_broker := b'; sy_conns := <[k := (t', p')]> (sy_conns s);
                  sy_unacked := unacked_by p p' ++ sy_unacked s |}
| sys_outbound s publish now :
    sys_step s {| sy_broker := (process_outbound_publish MAX_SESSIONS MAX_INFLIGHT MAX_RETAINED
                                  (sy_broker s) publish now).2;
                  sy_conns := sy_conns s; sy_unacked := sy_unacked s |}.

Definition sys_init (h : C) : sys := {|
  sy_broker := {| b_registry := Registry.new MAX_SESSIONS MAX_INFLIGHT;
                  b_retained := Retained.new; b_signals := new_session_signals MAX_SESSIONS;
                  b_handler := h |};
  sy_conns := []; sy_unacked := [] |}.

Definition reachable (h : C) (s : sys) : Prop := rtc sys_step (sys_init h) s.

Definition attended (s : sys) (j : SessionId) : Prop :=
  ∃ k t p, sy_conns s !! k = Some (t, p) ∧ active j p.

Record sys_inv (s : sys) : Prop := {
  si_broker : binv (sy_broker s);
  si_phases : ∀ k t p, sy_conns s !! k = Some (t, p) → phase_wf p;
  si_wake : ∀ j, wake (sy_broker s) j ∨ attended s j ∨ j ∈ sy_unacked s;
}.

Lemma sys_inv_init h : sys_inv (sys_init h).
Proof.
  split.
  - split_and!; [apply reg_inv_new| |apply length_replicate].
    split_and!; [simpl; lia|constructor|constructor].
  - intros k t p Hk. done.
  - intros j. left. intros s Hs. apply get_Some in Hs. simpl in Hs.
    by apply lookup_replicate in Hs as [? _].
Qed.

Section invariant.
Context (HP : (5 ≤ MAX_PACKET_SIZE)%nat) (Hcfg : config_wf config).

Lemma sys_step_inv s s' : sys_inv s → sys_step s s' → sys_inv s'.
Proof using HP Hcfg.
  intros [Hb Hph Hw] Hstep. destruct Hstep as [s t|s k t p i b' t' p' Hk Hi Heq|s publish now].
  - split; [done| |]; simpl.
    + intros k t' p' [?|[_ Hk]]%lookup_app_Some; [eauto|].
      apply list_lookup_singleton_Some in Hk as [_ [= <- <-]]. done.
    + intros j. destruct (Hw j) as [?|[(k & t' & p' & Hk & Ha)|?]]; [by left| |by right; right].
      right. left. exists k, t', p'. simpl. split; [by apply lookup_app_l_Some|done].
  - pose proof (conn_step_ok HP Hcfg (sy_broker s) t p i Hb (Hph _ _ _ Hk) Hi) as Hso.
    rewrite Heq in Hso. destruct Hso as [Hb' Hp' Hwake Hact].
    assert (k < length (sy_conns s))%nat as Hlt by (by eapply lookup_lt_Some).
    split; [done| |]; simpl.
    + intros k' t1 p1 [[= -> ->]|?]%list_lookup_insert_cases; [done|eauto].
    + intros j. assert (active j p' → attended {| sy_broker := b'; sy_conns :=
        <[k := (t', p')]> (sy_conns s); sy_unacked := unacked_by p p' ++ sy_unacked s |} j) as Hat.
      { intros Ha. exists k, t', p'. simpl. by rewrite list_lookup_insert_eq. }
      destruct (Hw j) as [Hj|[(k1 & t1 & p1 & Hk1 & Ha)|Hu]].
      * destruct (Hwake j Hj) as [?|?]; [by left|auto].
      * destruct (decide (k1 = k)) as [->|Hne].
        -- rewrite Hk in Hk1. injection Hk1 as <- <-.
           destruct (Hact j Ha) as [?|[?|(pr & -> & ->)]]; [by left|auto|].
           right. right. simpl. left.
        -- right. left. exists k1, t1, p1. simpl. by rewrite list_lookup_insert_ne.
      * right. right. apply elem_of_app. auto.
  - destruct (process_outbound_inv MAX_SUBS MAX_INFLIGHT MAX_SESSIONS MAX_RETAINED (sy_broker s)
      publish now Hb) as [Hb' Hw'].
    split; [done|done|]. intros j. destruct (Hw j) as [?|[?|?]]; [left; by apply Hw'| |]; auto.
Qed.

Lemma sys_inv_rtc s s' : rtc sys_step s s' → sys_inv s → sys_inv s'.
Proof using HP Hcfg.
  intros Hr. induction Hr as [|x y z Hxy _ IH]; [done|]. intros Hi.
  apply IH. by eapply sys_step_inv.
Qed.

Lemma reachable_inv h s : reachable h s → sys_inv s.
Proof using HP Hcfg. intros Hr. apply (sys_inv_rtc _ _ Hr), sys_inv_init. Qed.
End invariant.

(** C1: the broker is safe under every interleaving.  In every reachable state
    of any number of connection tasks and firmware publishes, the broker
    invariant holds (capacities, integer widths, one session per client id,
    exact reference counts, no dangling in-flight entry, a well-formed retained
    store, one signal per slot), and no task has panicked, whatever bytes the
    peers sent and wherever their reads were cancelled. *)
Theorem broker_safe (h : C) (s : sys) :
  (5 ≤ MAX_PACKET_SIZE)%nat → config_wf config → reachable h s →
  binv (sy_broker s) ∧ ∀ k t p, sy_conns s !! k = Some (t, p) → p ≠ PhPanic.
Proof.
  intros HP Hcfg [Hb Hph _]%(reachable_inv HP Hcfg). split; [done|].
  intros k t p Hk ->. by apply (Hph _ _ _ Hk).
Qed.

(** C3: no lost wake-up.  In every reachable state, if a session's outbox holds
    a frame, then its signal is raised, or some task of that session is at a
    point from which it looks at the outbox (or removes the session) before it
    waits again, or a task of that session ended because its CONNACK could not
    be written. *)
Theorem no_lost_wakeup (h : C) (s : sys) (id : SessionId) (st : SessionState) :
  (5 ≤ MAX_PACKET_SIZE)%nat → config_wf config → reachable h s →
  get (b_registry (sy_broker s)) id = Some st → outbox st ≠ [] →
  signaled (b_signals (sy_broker s)) id = true ∨ attended s id ∨ id ∈ sy_unacked s.
Proof.
  intros HP Hcfg [_ _ Hw]%(reachable_inv HP Hcfg) Hg Ho.
  destruct (Hw id) as [Hw'|?]; [|by right]. left. eauto.
Qed.
End proofs.

(** ** Last wills *)
Section wills.
Context `{Heapless} `{Mqttrs} `{EmbassySignal} `{CommandHandler C}.
Context (MAX_SESSIONS MAX_SUBS MAX_INFLIGHT MAX_RETAINED : nat).

Lemma record_all_spec cap acc ds :
  (length acc + length ds ≤ cap)%nat → record_all cap acc ds = Some (acc ++ ds).
Proof.
  revert acc. induction ds as [|d ds IH]; intros acc Hl; simpl in *; [by rewrite app_nil_r|].
  rewrite vec_push_spec, decide_True by lia. simpl.
  rewrite IH by (rewrite length_app; simpl; lia). by rewrite <-app_assoc.
Qed.

Lemma lwt_subscribers_length reg cid l :
  reg_inv MAX_SUBS MAX_INFLIGHT MAX_SESSIONS no_extra reg →
  (length (find_lwt_subscribers MAX_SESSIONS reg cid l) ≤ MAX_SESSIONS)%nat.
Proof.
  intros Hinv. rewrite (find_lwt_subscribers_omap _ _ _ _ _ _ _ Hinv).
  pose proof (omap_length (select_lwt cid l) (Registry.iter reg)).
  pose proof (length_iter_from 0 (slots reg)). pose proof (ri_slots _ _ _ _ _ Hinv).
  unfold Registry.iter in *. lia.
Qed.

(** C19: the will is published exactly on unclean ends.  When a task closes, a
    clean DISCONNECT or a session without a will leaves everything as it is.
    Otherwise the will is stored in the retained store if it asks for it, and
    goes to exactly the sessions of other clients with a matching
    subscription; only if the retained store refuses the will, or nobody
    subscribes to it, is nobody sent anything. *)
Theorem will_reaches_audience (b : Broker C) (id : SessionId) (s : SessionState)
  (reason : DisconnectReason) :
  broker_inv MAX_SUBS MAX_INFLIGHT MAX_SESSIONS MAX_RETAINED b →
  get (b_registry b) id = Some s →
  let '(b', p') := collect_will MAX_SESSIONS MAX_RETAINED b id reason in
  match lwt s with
  | Some l =>
      if is_clean reason then b' = b ∧ p' = PhRemove id
      else
        let '(r, store) := retain_publish MAX_RETAINED (b_retained b) (lwt_retain l) (lwt_topic l)
                             (lwt_payload l) (lwt_qos l) in
        let audience j q := ∃ t, get (b_registry b) j = Some t ∧ client_id t ≠ client_id s ∧
                                 best_match (lwt_topic l) (subscriptions t) q in
        b' = set_retained b store ∧
        if is_ok r
        then (∃ ds, p' = PhWill id l ds ∧ ∀ j q, (j, q) ∈ ds ↔ audience j q) ∨
             (p' = PhRemove id ∧ ∀ j q, ¬ audience j q)
        else p' = PhRemove id
  | None => b' = b ∧ p' = PhRemove id
  end.
Proof.
  intros (Hinv & _ & _) Hg. unfold collect_will. rewrite Hg.
  destruct (lwt s) as [l|] eqn:Hl; [|by destruct (is_clean reason)].
  destruct (is_clean reason) eqn:Hc; [done|].
  unfold publish_lwt_message_if_needed, retain_publish. rewrite Hc.
  destruct (if lwt_retain l then Retained.set _ _ _ _ _ else (Ok tt, b_retained b))
    as [[[]|e] store] eqn:Hr.
  - pose proof (elem_of_lwt_subscribers MAX_SUBS MAX_INFLIGHT MAX_SESSIONS no_extra (b_registry b)
      (client_id s) l) as Hmem.
    pose proof (lwt_subscribers_length (b_registry b) (client_id s) l Hinv) as Hlen.
    assert ((if lwt_retain l then let '(r, store0) := Retained.set MAX_RETAINED (b_retained b)
      (lwt_topic l) (lwt_payload l) (lwt_qos l) in (map_err map_retained_error r, store0)
      else (Ok tt, b_retained b)) = (Ok tt, store)) as ->
      by (destruct (lwt_retain l); [by rewrite Hr|by injection Hr as ->]).
    destruct (find_lwt_subscribers MAX_SESSIONS (b_registry b) (client_id s) l) as [|d ds].
    + split; [done|]. right. split; [done|]. intros j q Ha. apply (Hmem j q Hinv) in Ha.
      by apply elem_of_nil in Ha.
    + unfold broadcast. cbn [recording_broadcaster]. unfold rl_broadcast.
      rewrite (record_all_spec MAX_SESSIONS [] (d :: ds)) by (simpl in *; lia). simpl.
      split; [done|]. left. exists (d :: ds). split; [done|]. intros j q. by apply Hmem.
  - destruct (lwt_retain l); [|done]. rewrite Hr. simpl. done.
Qed.
End wills.

(** ** Flushing *)
Section flush.
Context `{Heapless} `{Mqttrs} `{EmbassySignal} `{EmbassyTime} `{CommandHandler C}.
Context (MAX_SESSIONS MAX_SUBS MAX_INFLIGHT MAX_RETAINED MAX_PACKET_SIZE : nat).
Context (config : Config.BrokerConfig).
Local Abbreviation run :=
  (run_conn MAX_SESSIONS MAX_SUBS MAX_INFLIGHT MAX_RETAINED MAX_PACKET_SIZE config).

Lemma run_flush (b : Broker C) (t : Mock.MockTransport) id s inputs :
  get (b_registry b) id = Some s → length inputs = (2 * length (outbox s) + 1)%nat →
  ∃ b' t', run b t (PhFlush id) inputs = (b', t', PhCheck id) ∧
    Mock.tx_log t' = Mock.tx_log t ++ (ob_bytes <$> outbox s) ∧
    get (b_registry b') id = Some (set_outbox_drops (set_outbox s []) 0) ∧
    (∀ j, j ≠ id → get (b_registry b') j = get (b_registry b) j).
Proof.
  remember (outbox s) as q eqn:Hq. revert b t s inputs Hq.
  induction q as [|p q IH]; intros b t s inputs Hq Hg Hlen.
  - destruct inputs as [|i [|]]; simpl in Hlen; try lia. simpl. unfold flush_pop.
    rewrite Hg, <-Hq. do 2 eexists. split; [done|]. split_and!.
    + by rewrite app_nil_r.
    + simpl. rewrite (get_put_eq _ _ _ _ Hg). f_equal. destruct s; simpl in *. by subst.
    + intros j Hj. simpl. by rewrite get_put_ne.
  - destruct inputs as [|i1 [|i2 inputs]]; simpl in Hlen; try lia. simpl. unfold flush_pop.
    rewrite Hg, <-Hq. simpl.
    destruct (IH (set_registry b (put (b_registry b) id (set_outbox s q)))
      {| Mock.rx_queue := Mock.rx_queue t; Mock.tx_log := Mock.tx_log t ++ [ob_bytes p];
         Mock.closed := Mock.closed t |} (set_outbox s q) inputs eq_refl)
      as (b' & t' & Hrun & Hlog & Hg' & Hsame); [by eapply get_put_eq|lia|].
    exists b', t'. split; [exact Hrun|]. split_and!.
    + simpl in Hlog. by rewrite Hlog, <-app_assoc.
    + by rewrite Hg'.
    + intros j Hj. rewrite Hsame by done. simpl. by rewrite get_put_ne.
Qed.

(** Flushing terminates and delivers in order.  With a transport that
    accepts writes, a task at the top of its loop with [n] frames in its outbox
    is done after [2 n + 1] steps of its own: the frames were written in the
    order they were queued, the outbox is empty, the drop counter is reset, and
    no other session was touched. *)
Lemma flush_drains_in_order (b : Broker C) (t : Mock.MockTransport) (id : SessionId)
  (s : SessionState) (inputs : list input) :
  get (b_registry b) id = Some s → length inputs = (2 * length (outbox s) + 1)%nat →
  let '(b', t', p') := run b t (PhFlush id) inputs in
  p' = PhCheck id ∧ Mock.tx_log t' = Mock.tx_log t ++ (ob_bytes <$> outbox s) ∧
  get (b_registry b') id = Some (set_outbox_drops (set_outbox s []) 0) ∧
  (∀ j, j ≠ id → get (b_registry b') j = get (b_registry b) j).
Proof.
  intros Hg Hlen. destruct (run_flush b t id s inputs Hg Hlen) as (b' & t' & -> & ? & ? & ?).
  done.
Qed.
End flush.

(** ** Executing the system *)
Inductive action (T : Type) :=
| AAccept (t : T)
| AConn (k : nat) (i : input)
| AOutbound (publish : MqttPublish) (now : Instant).
Arguments AAccept {T} t.
Arguments AConn {T} k i.
Arguments AOutbound {T} publish now.

Definition action_wf {T} (a : action T) : Prop :=
  match a with AConn _ i => input_wf i | _ => True end.

Section exec.
Context `{Heapless} `{Mqttrs} `{EmbassySignal} `{EmbassyTime} `{CommandHandler C} `{Transport T E}.
Context (MAX_SESSIONS MAX_SUBS MAX_INFLIGHT MAX_RETAINED MAX_PACKET_SIZE : nat).
Context (config : Config.BrokerConfig).
Local Abbreviation step :=
  (conn_step MAX_SESSIONS MAX_SUBS MAX_INFLIGHT MAX_RETAINED MAX_PACKET_SIZE config).

Definition exec_action (s : sys) (a : action T) : sys :=
  match a with
  | AAccept t => {| sy_broker := sy_broker s; sy_conns := sy_conns s ++ [(t, PhConnect)];
                    sy_unacked := sy_unacked s |}
  | AConn k i =>
      match sy_conns s !! k with
      | None => s
      | Some (t, p) =>
          let '(b', t', p') := step (sy_broker s) t p i in
          {| sy_broker := b'; sy_conns := <[k := (t', p')]> (sy_conns s);
             sy_unacked := unacked_by p p' ++ sy_unacked s |}
      end
  | AOutbound publish now =>
      {| sy_broker := (process_outbound_publish MAX_SESSIONS MAX_INFLIGHT MAX_RETAINED
                         (sy_broker s) publish now).2;
         sy_conns := sy_conns s; sy_unacked := sy_unacked s |}
  end.

Definition exec (s : sys) (l : list (action T)) : sys := foldl exec_action s l.

Lemma exec_rtc l s :
  Forall action_wf l →
  rtc (sys_step MAX_SESSIONS MAX_SUBS MAX_INFLIGHT MAX_RETAINED MAX_PACKET_SIZE config)
    s (exec s l).
Proof.
  intros Hall. revert s. induction Hall as [|a l Ha _ IH]; intros s; [apply rtc_refl|].
  simpl. etrans; [|apply IH]. destruct a as [t|k i|publish now]; simpl.
  - apply rtc_once, sys_accept.
  - destruct (sy_conns s !! k) as [[t p]|] eqn:Hk; [|apply rtc_refl].
    destruct (step (sy_broker s) t p i) as [[b' t'] p'] eqn:Hs.
    apply rtc_once. by eapply sys_conn.
  - apply rtc_once, sys_outbound.
Qed.

Lemma exec_reachable h l s :
  reachable MAX_SESSIONS MAX_SUBS MAX_INFLIGHT MAX_RETAINED MAX_PACKET_SIZE config h s →
  Forall action_wf l →
  reachable MAX_SESSIONS MAX_SUBS MAX_INFLIGHT MAX_RETAINED MAX_PACKET_SIZE config h (exec s l).
Proof. intros Hr Hall. unfold reachable in *. etrans; [done|]. by apply exec_rtc. Qed.
End exec.

(** A transport whose reads are scripted: [None] is a read that is still
    pending when the select is decided otherwise. *)
Record Script := { sc_reads : list (option (list Z)); sc_log : list (list Z); sc_fail : bool }.

Definition script_read (t : Script) (n : nat) : option (result unit (list Z)) * Script :=
  let next r := {| sc_reads := r; sc_log := sc_log t; sc_fail := sc_fail t |} in
  match sc_reads t with
  | [] => (None, t)
  | None :: rest => (None, next rest)
  | Some bs :: rest =>
      (Some (Ok (take n bs)), next (if decide (n < length bs)%nat
                                    then Some (drop n bs) :: rest else rest))
  end.

#[global] Instance script_transport : Transport Script unit.
Proof.
  refine {| t_read := script_read;
    t_write t bs := if sc_fail t then (Err tt, t)
      else (Ok tt, {| sc_reads := sc_reads t; sc_log := sc_log t ++ [bs]; sc_fail := false |});
    t_close t := t |}.
  intros t n bs t'. unfold script_read. destruct (sc_reads t) as [|[c|] rest]; try done.
  intros [= <- _]. rewrite length_take. lia.
Defined.

(** ** Concrete runs *)
Definition enc (p : Packet) : list Z :=
  match encode_slice p 512 with Ok bs => bs | Err _ => [] end.
Definition peer (reads : list (option (list Z))) : Script :=
  {| sc_reads := reads; sc_log := []; sc_fail := false |}.

Definition ex_input : input := {| in_now := 5; in_now2 := 6; in_signal := true |}.
Definition ex_config : Config.BrokerConfig := Config.GATOMQTT_CONFIG.
Definition ex_handler : MockCommandHandler := {| received := []; overloaded := false |}.
Definition ex_connect (cid : string) (clean : bool) : Packet :=
  PConnect {| cn_protocol := MQTT311; cn_keep_alive := 0; cn_client_id := cid;
    cn_clean_session := clean; cn_last_will := None; cn_username := Some "house";
    cn_password := Some (as_bytes "secret") |}.
Definition ex_subscribe (f : string) : Packet :=
  PSubscribe {| sub_pid := 1; sub_topics := [{| st_topic_path := f; st_qos := AtLeastOnce |}] |}.

Abbreviation ex_exec := (exec (T:=Script) 2 4 2 4 512 ex_config).
Definition go (k n : nat) : list (action Script) := replicate n (AConn k ex_input).

Lemma go_wf k n : Forall action_wf (go k n).
Proof. apply Forall_replicate. split; split; vm_compute; discriminate. Qed.

(** A subscriber connects, subscribes, and waits; the firmware publishes. *)
Definition ex_actions : list (action Script) :=
  AAccept (peer [Some (enc (ex_connect "sub" true)); Some (enc (ex_subscribe "a/#"))])
  :: go 0 9 ++ [AOutbound {| mp_topic := "a/b"; mp_payload := [7]; mp_qos := AtLeastOnce;
                             mp_retain := false |} 9].
Definition ex_sys : sys := ex_exec (sys_init 2 2 ex_handler) ex_actions.

Lemma ex_reachable : reachable 2 4 2 4 512 ex_config ex_handler ex_sys.
Proof.
  apply exec_reachable; [apply rtc_refl|]. constructor; [done|].
  apply Forall_app. split; [apply go_wf|by repeat constructor].
Qed.

Lemma ex_config_wf : config_wf ex_config.
Proof. split; split; vm_compute; discriminate. Qed.

Lemma broker_safe_witness :
  broker_inv 4 2 2 4 (sy_broker ex_sys) ∧
  ∀ k t p, sy_conns ex_sys !! k = Some (t, p) → p ≠ PhPanic.
Proof.
  apply (broker_safe 2 4 2 4 512 ex_config ex_handler ex_sys);
    [apply Nat.leb_le; vm_compute; reflexivity|exact ex_config_wf|exact ex_reachable].
Defined.

Definition ex_waiting : SessionState :=
  default (Session.new "" 0) (get (b_registry (sy_broker ex_sys)) 0).

Lemma no_lost_wakeup_witness :
  outbox ex_waiting ≠ [] ∧
  (signaled (b_signals (sy_broker ex_sys)) 0 = true ∨ attended ex_sys 0 ∨ 0%nat ∈ sy_unacked ex_sys).
Proof.
  assert (outbox ex_waiting ≠ []) as Ho by (vm_compute; discriminate).
  split; [exact Ho|].
  apply (no_lost_wakeup 2 4 2 4 512 ex_config ex_handler ex_sys 0 ex_waiting);
    [apply Nat.leb_le; vm_compute; reflexivity|exact ex_config_wf|exact ex_reachable
    |vm_compute; reflexivity|exact Ho].
Defined.

Lemma flush_drains_in_order_witness :
  let '(b', t', p') := run_conn 2 4 2 4 512 ex_config (sy_broker ex_sys) Mock.new (PhFlush 0)
                         [ex_input; ex_input; ex_input] in
  p' = PhCheck 0 ∧ Mock.tx_log t' = Mock.tx_log Mock.new ++ (ob_bytes <$> outbox ex_waiting) ∧
  get (b_registry b') 0 = Some (set_outbox_drops (set_outbox ex_waiting []) 0) ∧
  (∀ j, j ≠ 0%nat → get (b_registry b') j = get (b_registry (sy_broker ex_sys)) j).
Proof.
  apply (flush_drains_in_order 2 4 2 4 512 ex_config (sy_broker ex_sys) Mock.new 0 ex_waiting
    [ex_input; ex_input; ex_input]); vm_compute; reflexivity.
Defined.

(** A subscriber, and a client whose will it subscribes to. *)
Definition ex_will : LwtMessage :=
  {| lwt_topic := "sb/gone"; lwt_payload := [1]; lwt_qos := AtMostOnce; lwt_retain := true |}.
Definition ex_mortal : SessionState := set_lwt ex_pub (Some ex_will).
Definition ex_will_broker : Broker MockCommandHandler :=
  set_registry ex_broker (put ex_reg 0 ex_mortal).

Lemma ex_will_inv : broker_inv 4 2 2 4 ex_will_broker.
Proof.
  destruct ex_broker_inv as (Hinv & Hst & Hsig). split; [|by split].
  apply (reg_inv_put_same 4 2 2 no_extra ex_reg 0 ex_pub ex_mortal); try done.
  destruct (ri_session _ _ _ _ _ Hinv 0%nat ex_pub eq_refl). split; try done.
  simpl. intros l [= <-]. split; simpl; lia.
Qed.

Lemma will_reaches_audience_witness :
  let '(b', p') := collect_will 2 4 ex_will_broker 0 KeepaliveTimeout in
  let '(r, store) := retain_publish 4 Retained.new true "sb/gone" [1] AtMostOnce in
  let audience j q := ∃ t, get (b_registry ex_will_broker) j = Some t ∧
                           client_id t ≠ client_id ex_mortal ∧
                           best_match "sb/gone" (subscriptions t) q in
  b' = set_retained ex_will_broker store ∧
  if is_ok r
  then (∃ ds, p' = PhWill 0 ex_will ds ∧ ∀ j q, (j, q) ∈ ds ↔ audience j q) ∨
       (p' = PhRemove 0 ∧ ∀ j q, ¬ audience j q)
  else p' = PhRemove 0.
Proof.
  exact (will_reaches_audience 2 4 2 4 ex_will_broker 0 ex_mortal KeepaliveTimeout
    ex_will_inv eq_refl).
Defined.
End System.
