(* ===== verification/Lifetimes.v ===== *)
(** * Lifetimes: what becomes of a QoS 1 delivery

    A delivery at QoS 1 leaves an in-flight entry in its subscriber's session
    and a reference to the publish in the shared store.  The theorems follow
    such an entry through arbitrary interleavings of the system ([System.v]):
    it keeps its packet identifier and its message until its session sees the
    PUBACK, is removed by its task, or is discarded by an authenticated clean
    CONNECT of the same client; and an entry whose timer ran out is written again, marked as a
    duplicate, with the identifier and the message it was first sent with. *)

From S2P Require Import Prelude External Reference Keyed Topics RateLimit Session Registry.
From S2P Require Import Transport Frame Invariants Retained Router Connect Subscribe Publish.
From S2P Require Import PublishProofs Disconnect Connection System.

Open Scope Z_scope.

Module Lifetimes.
Import Topics Session Registry Frame Notify Invariants Retained Router Command Publish PublishProofs
  Disconnect Connection System.

(** ** The store *)

(** The message of a stored publish, without its reference count. *)
Definition message (sp : StoredPublish) : string * list Z * bool :=
  (sp_topic sp, sp_payload sp, sp_retain sp).

(** A slot occupied before and after still holds the same publish. *)
Definition store_le (reg reg' : SessionRegistry) : Prop :=
  ∀ i m m', stored_publishes reg !! i = Some (Some m) →
    stored_publishes reg' !! i = Some (Some m') →
    message m' = message m ∧ sp_generation m' = sp_generation m.

(** Only releases happened: what is there was there. *)
Definition store_shrinks (reg reg' : SessionRegistry) : Prop :=
  ∀ i m', stored_publishes reg' !! i = Some (Some m') →
    ∃ m, stored_publishes reg !! i = Some (Some m) ∧
         message m' = message m ∧ sp_generation m' = sp_generation m.

Lemma store_le_eq reg reg' :
  stored_publishes reg' = stored_publishes reg → store_le reg reg'.
Proof. intros He i m m' Hm Hm'. rewrite He in Hm'. by simplify_eq. Qed.

Lemma store_shrinks_eq reg reg' :
  stored_publishes reg' = stored_publishes reg → store_shrinks reg reg'.
Proof. intros He i m' Hm'. rewrite He in Hm'. eauto. Qed.

Lemma store_shrinks_trans r1 r2 r3 :
  store_shrinks r1 r2 → store_shrinks r2 r3 → store_shrinks r1 r3.
Proof.
  intros H12 H23 i m3 Hm3. destruct (H23 i m3 Hm3) as (m2 & Hm2 & -> & ->). by apply H12.
Qed.

Lemma store_shrinks_le reg reg' : store_shrinks reg reg' → store_le reg reg'.
Proof. intros Hs i m m' Hm Hm'. destruct (Hs i m' Hm') as (m0 & ? & ?). by simplify_eq. Qed.

(** Every operation on the store is one assignment to a slot: it leaves the
    message there, empties the slot, or fills an empty one. *)
Lemma store_le_insert reg i o :
  (∀ m m', stored_publishes reg !! i = Some (Some m) → o = Some m' →
     message m' = message m ∧ sp_generation m' = sp_generation m) →
  store_le reg (set_stored_publishes reg (<[i := o]> (stored_publishes reg))).
Proof.
  intros Ho j m m' Hm Hm'. simpl in Hm'.
  apply list_lookup_insert_Some in Hm' as [(-> & -> & _)|[_ Hm']]; [eauto|by simplify_eq].
Qed.

Lemma release_shrinks reg h : store_shrinks reg (release_stored_publish reg h).
Proof.
  unfold release_stored_publish. destruct (stored_publish reg h) as [sp|] eqn:Hsp;
    [|by apply store_shrinks_eq].
  apply stored_publish_Some in Hsp as [Hsp _].
  case_decide; intros i m' Hm'; simpl in Hm';
    apply list_lookup_insert_Some in Hm' as [(<- & Ho & _)|[_ Hm']]; simplify_eq; eauto.
Qed.

Lemma release_all_shrinks reg es : store_shrinks reg (release_all reg es).
Proof.
  unfold release_all. revert reg. induction es as [|e es IH]; intros reg;
    [by apply store_shrinks_eq|].
  simpl. eapply store_shrinks_trans; [apply release_shrinks|apply IH].
Qed.

Lemma remove_shrinks reg id : store_shrinks reg (remove reg id).2.
Proof.
  unfold remove. destruct (get reg id); [|by apply store_shrinks_eq]. simpl.
  eapply store_shrinks_trans; [|apply release_all_shrinks]. by apply store_shrinks_eq.
Qed.

Lemma acquire_le reg h : store_le reg (acquire_stored_publish reg h).2.
Proof.
  unfold acquire_stored_publish. destruct (stored_publish reg h) as [sp|] eqn:Hsp;
    [|by apply store_le_eq].
  destruct (checked_add _ _ _); [|by apply store_le_eq].
  apply stored_publish_Some in Hsp as [Hsp _]. apply store_le_insert.
  intros m m' Hm [= <-]. by simplify_eq.
Qed.

Section steps.
Context `{Heapless} `{Mqttrs} `{EmbassySignal} `{EmbassyTime}.

Lemma store_publish_le reg topic payload retain :
  store_le reg (store_publish_ref reg topic payload retain).2.
Proof.
  unfold store_publish_ref. destruct (first_free _) as [i|] eqn:Hf; [|by apply store_le_eq].
  apply first_free_Some in Hf as [Hf _].
  destruct (string_try_from _ _); [|by apply store_le_eq].
  destruct (vec_from_slice _ _); [|by apply store_le_eq]. simpl.
  intros j m m' Hm Hm'. simpl in Hm'.
  apply list_lookup_insert_Some in Hm' as [(-> & _ & _)|[_ Hm']]; by simplify_eq.
Qed.

Lemma acquire_shared_le reg shared topic payload retain :
  store_le reg (acquire_shared_publish reg shared topic payload retain).2.
Proof.
  unfold acquire_shared_publish. destruct shared as [h|].
  - pose proof (acquire_le reg h). by destruct (acquire_stored_publish reg h) as [[] ?].
  - pose proof (store_publish_le reg topic payload retain).
    by destruct (store_publish_ref reg topic payload retain) as [[] ?].
Qed.

(** ** Sessions *)

(** A retry of an entry counts; when the limit allows it and the duplicate could
    be written, it also restarts the timer. *)
Inductive retried (limit : Z) (e : InflightEntry) : InflightEntry → Prop :=
| retry_counted : retried limit e (set_retries e (saturating_add U8_MAX (ie_retries e) 1))
| retry_resent now :
    saturating_add U8_MAX (ie_retries e) 1 ≤ limit →
    retried limit e (set_retries (set_sent_at e now) (saturating_add U8_MAX (ie_retries e) 1)).

Context (limit : Z).

Lemma retried_same e e' :
  rtc (retried limit) e e' → ie_packet_id e' = ie_packet_id e ∧ ie_publish e' = ie_publish e.
Proof. induction 1 as [|e e1 e' Hr _ [IH1 IH2]]; [done|]. rewrite IH1, IH2. by destruct Hr. Qed.

(** The session's client and its in-flight deliveries are still there, but for
    retries of the entries. *)
Definition session_kept (st st' : SessionState) : Prop :=
  client_id st' = client_id st ∧
  ∀ e, e ∈ inflight st → ∃ e', e' ∈ inflight st' ∧ rtc (retried limit) e e'.

Lemma session_kept_same st st' :
  client_id st' = client_id st → inflight st' = inflight st → session_kept st st'.
Proof. intros Hc Hi. split; [done|]. rewrite Hi. eauto using rtc_refl. Qed.

Lemma session_kept_refl st : session_kept st st.
Proof. by apply session_kept_same. Qed.

Lemma session_kept_trans s1 s2 s3 : session_kept s1 s2 → session_kept s2 s3 → session_kept s1 s3.
Proof.
  intros [Hc1 Hi1] [Hc2 Hi2]. split; [congruence|].
  intros e (e2 & (e3 & ? & ?)%Hi2 & ?)%Hi1. exists e3. split; [done|by etrans].
Qed.

(** One operation: all sessions are kept, and the store is compatible. *)
Record grows (reg reg' : SessionRegistry) : Prop := {
  gr_session : ∀ j st, get reg j = Some st → ∃ st', get reg' j = Some st' ∧ session_kept st st';
  gr_store : store_le reg reg';
}.

Lemma grows_slots reg reg' : slots reg' = slots reg → store_le reg reg' → grows reg reg'.
Proof.
  intros Hs Hl. split; [|done]. intros j st Hj. exists st. rewrite (get_slots _ _ Hs).
  split; [done|apply session_kept_refl].
Qed.

Lemma grows_refl reg : grows reg reg.
Proof. apply grows_slots; [done|by apply store_le_eq]. Qed.

Lemma grows_put reg id s s' :
  get reg id = Some s → session_kept s s' → grows reg (put reg id s').
Proof.
  intros Hg Hk. split; [|by apply store_le_eq]. intros j st Hj.
  destruct (decide (j = id)) as [->|Hne].
  - rewrite (get_put_eq _ _ _ _ Hg). simplify_eq. eauto.
  - rewrite get_put_ne by done. eauto using session_kept_refl.
Qed.

(** A table followed by further changes of sessions only. *)
Lemma grows_trans r1 r2 r3 :
  grows r1 r2 → stored_publishes r3 = stored_publishes r2 → grows r2 r3 → grows r1 r3.
Proof.
  intros [Hs1 Hl1] He [Hs2 _]. split.
  - intros j st (st2 & (st3 & ? & ?)%Hs2 & ?)%Hs1. eauto using session_kept_trans.
  - intros i m m' Hm Hm'. rewrite He in Hm'. eauto.
Qed.

(** ** Operations that keep every delivery *)
Context (MAX_SUBS MAX_INFLIGHT MAX_SESSIONS MAX_RETAINED : nat).
Local Abbreviation inv := (reg_inv MAX_SUBS MAX_INFLIGHT MAX_SESSIONS no_extra).
Local Abbreviation binv := (broker_inv MAX_SUBS MAX_INFLIGHT MAX_SESSIONS MAX_RETAINED).

Lemma track_inflight_grows topic payload retain now reg shared id pid :
  grows reg (track_inflight MAX_INFLIGHT topic payload retain now reg shared id pid).1.
Proof.
  unfold track_inflight. destruct (get reg id) as [s|] eqn:Hg; [|apply grows_refl].
  destruct (bool_decide_reflect (length (inflight s) < MAX_INFLIGHT)%nat) as [Hlt|];
    [|apply grows_refl].
  pose proof (acquire_shared_le reg shared topic payload retain) as Hle.
  assert (slots (acquire_shared_publish reg shared topic payload retain).2 = slots reg) as Hs.
  { unfold acquire_shared_publish. destruct shared as [h|].
    - pose proof (acquire_slots reg h). by destruct (acquire_stored_publish reg h) as [[] ?].
    - pose proof (store_slots reg topic payload retain).
      by destruct (store_publish_ref reg topic payload retain) as [[] ?]. }
  destruct (acquire_shared_publish reg shared topic payload retain) as [[[h|] sh] reg1];
    simpl in *; [|by apply grows_slots].
  rewrite (get_slots _ _ Hs), Hg. unfold inflight_add. rewrite vec_push_spec, decide_True by done.
  simpl. eapply grows_trans; [by apply grows_slots|done|].
  eapply grows_put; [by rewrite (get_slots _ _ Hs)|]. split; [done|].
  intros e He. exists e. simpl. split; [by apply elem_of_app; left|done].
Qed.

Lemma deliver_one_grows topic payload qos retain now max_drops st id q :
  grows st.1.1 (deliver_one MAX_INFLIGHT topic payload qos retain now max_drops st id q).2.1.1.
Proof.
  destruct st as [[reg signals] shared]. unfold deliver_one. cbn [fst].
  destruct (get reg id) as [s|] eqn:Hg; [|apply grows_refl].
  set (eff := min_qos qos q).
  assert (session_kept s (if decide (eff ≠ AtMostOnce) then next_packet_id s else (0, s)).2) as Hk
    by (case_decide; by apply session_kept_same).
  destruct (if decide (eff ≠ AtMostOnce) then next_packet_id s else (0, s)) as [pid s1].
  destruct (encode_publish _ _ _ _ _) as [bytes|e]; [|by eapply grows_put].
  destruct (deque_push_back _ _ _) as [o|].
  2:{ eapply grows_put; [done|]. eapply session_kept_trans; [done|].
      pose proof (drop_frame_fields max_drops s1) as (_ & ? & ?). by apply session_kept_same. }
  assert (session_kept s (set_outbox s1 o)) as Hk2
    by (eapply session_kept_trans; [done|]; by apply session_kept_same).
  case_decide; [|by eapply grows_put].
  pose proof (track_inflight_grows topic payload retain now (put reg id (set_outbox s1 o)) shared
    id pid) as [Ht1 Ht2].
  destruct (track_inflight _ _ _ _ _ _ _ _ _) as [reg' sh']. simpl in *.
  pose proof (grows_put reg id s _ Hg Hk2) as [Hp1 _]. split; [|exact Ht2].
  intros j st (st2 & (st3 & ? & ?)%Ht1 & ?)%Hp1. eauto using session_kept_trans.
Qed.

(** ** Several operations

    Between tables satisfying the invariant, a kept entry's message can be read
    back, and is the same. *)
Definition contents (reg : SessionRegistry) (h : StoredPublishHandle)
  : option (string * list Z * bool) := message <$> stored_publish reg h.

(** The delivery [(pid, h)] is in flight on session [j], carrying [m], and its
    entry satisfies [Q]. *)
Definition in_flight_with (Q : InflightEntry → Prop) (reg : SessionRegistry) (j : SessionId)
  (cid : string) (pid : Z) (h : StoredPublishHandle) (m : string * list Z * bool) : Prop :=
  ∃ st e, get reg j = Some st ∧ client_id st = cid ∧ e ∈ inflight st ∧
    ie_packet_id e = pid ∧ ie_publish e = h ∧ contents reg h = Some m ∧ Q e.

Context (Q : InflightEntry → Prop) (HQ : ∀ e e', retried limit e e' → Q e → Q e').
Local Abbreviation flying := (in_flight_with Q).

Lemma retried_Q e e' : rtc (retried limit) e e' → Q e → Q e'.
Proof using HQ. induction 1; eauto. Qed.

Definition kept (reg reg' : SessionRegistry) : Prop :=
  ∀ j cid pid h m, flying reg j cid pid h m → flying reg' j cid pid h m.

Lemma kept_trans r1 r2 r3 : kept r1 r2 → kept r2 r3 → kept r1 r3.
Proof. unfold kept. eauto. Qed.

(** The message of a delivery whose entry stays. *)
Lemma contents_kept reg reg' j st' e' h m :
  inv reg' → store_le reg reg' → contents reg h = Some m →
  get reg' j = Some st' → e' ∈ inflight st' → ie_publish e' = h → contents reg' h = Some m.
Proof.
  intros Hinv Hle Hm Hg He <-. destruct (inflight_resolves _ _ _ _ _ _ _ _ Hinv Hg He) as [m' Hm'].
  unfold contents in *. rewrite Hm'. apply fmap_Some in Hm as (m0 & Hm0 & ->).
  apply stored_publish_Some in Hm0 as [Hm0 _], Hm' as [Hm' _].
  destruct (Hle _ _ _ Hm0 Hm') as [Heq _]. simpl. by rewrite Heq.
Qed.

Lemma in_flight_session reg reg' j cid pid h m st :
  inv reg' → store_le reg reg' → flying reg j cid pid h m → get reg j = Some st →
  (∃ st', get reg' j = Some st' ∧ session_kept st st') → flying reg' j cid pid h m.
Proof.
  intros Hinv Hle (st0 & e & Hg & <- & He & <- & <- & Hm & Hq) Hg0 (st' & Hg' & Hc & Hi).
  simplify_eq. destruct (Hi _ He) as (e' & He' & Hr). destruct (retried_same _ _ Hr) as [Hp Hh].
  exists st', e'. rewrite <-Hh in *. split_and!; try done; [by eapply contents_kept|by eapply retried_Q].
Qed.

Lemma kept_grows reg reg' : inv reg' → grows reg reg' → kept reg reg'.
Proof.
  intros Hinv [Hs Hl] j cid pid h m Hf. pose proof Hf as (st & _ & Hg & _).
  eapply in_flight_session; eauto.
Qed.

Lemma kept_put reg id s s' :
  inv (put reg id s') → get reg id = Some s → session_kept s s' → kept reg (put reg id s').
Proof. intros Hinv Hg Hk. apply kept_grows; [done|]. by eapply grows_put. Qed.

Lemma deliver_all_kept topic payload qos retain now max_drops subs reg signals shared :
  inv reg → length signals = MAX_SESSIONS →
  kept reg (deliver_all MAX_INFLIGHT topic payload qos retain now max_drops
              (reg, signals, shared) subs).2.1.1.
Proof.
  revert reg signals shared. induction subs as [|[id q] subs IH]; intros reg signals shared Hinv
    Hsig; [by intros ?|].
  cbn [deliver_all].
  pose proof (deliver_one_spec MAX_SUBS MAX_INFLIGHT MAX_SESSIONS topic payload qos retain now
    max_drops reg signals shared id q Hinv Hsig) as H1'.
  pose proof (deliver_one_grows topic payload qos retain now max_drops (reg, signals, shared) id q)
    as Hgr.
  destruct (deliver_one _ _ _ _ _ _ _ _ _ _) as [[[]|e] [[reg1 signals1] sh1]];
    destruct H1' as (Hinv1 & Hsig1 & _); simpl in Hgr; [|by apply kept_grows].
  eapply kept_trans; [by apply kept_grows|]. by apply IH.
Qed.

(** Retries change timers and counters only. *)
Lemma session_kept_entry s i e e' :
  inflight s !! i = Some e → retried limit e e' →
  session_kept s (set_inflight s (<[i := e']> (inflight s))).
Proof.
  intros Hi Hr. split; [done|]. intros e0 [k Hk]%list_elem_of_lookup. simpl.
  destruct (decide (k = i)) as [->|Hne].
  - exists e'. simplify_eq. split; [|by apply rtc_once]. eapply list_elem_of_lookup_2.
    apply list_lookup_insert_eq. by eapply lookup_lt_Some.
  - exists e0. split; [|done]. eapply (list_elem_of_lookup_2 _ k).
    by rewrite list_lookup_insert_ne.
Qed.

Lemma retry_one_grows `{Transport T E} MAX_PACKET_SIZE id timeout now reg (t : T) i :
  grows reg (retry_one MAX_PACKET_SIZE id timeout limit now reg t i).1.2.
Proof.
  unfold retry_one. destruct (get reg id) as [s|] eqn:Hg; [|apply grows_refl].
  destruct (inflight s !! i) as [e|] eqn:Hi; [|apply grows_refl].
  destruct (entry_expired now timeout e); [|apply grows_refl]. cbv zeta.
  set (n := saturating_add U8_MAX (ie_retries e) 1).
  set (reg1 := put_entry id reg s i (set_retries e n)).
  assert (grows reg reg1) as Hgr.
  { eapply grows_put; [done|]. eapply session_kept_entry; [done|]. constructor. }
  case_decide as Hn; [done|]. destruct (resend _ _ _ _ _) as [[[]|err] t1]; [|done].
  assert (get reg1 id = Some (set_inflight s (<[i := set_retries e n]> (inflight s)))) as Hg1
    by (by eapply get_put_eq).
  rewrite Hg1. cbn [inflight set_inflight].
  rewrite list_lookup_insert_eq, decide_True by (done || by eapply lookup_lt_Some).
  unfold reg1, put_entry. rewrite put_put. cbn [fst snd inflight set_inflight].
  rewrite list_insert_insert_eq. eapply grows_put; [done|].
  eapply (session_kept_entry s i e); [done|].
  apply (retry_resent limit e now). unfold n in Hn. lia.
Qed.

Lemma retry_all_kept `{Transport T E} MAX_PACKET_SIZE id timeout now indices reg
  (t : T) :
  inv reg →
  kept reg (retry_all MAX_PACKET_SIZE id timeout limit now reg t indices).1.2.
Proof.
  revert reg t. induction indices as [|i indices IH]; intros reg t Hinv; [by intros ?|].
  cbn [retry_all].
  pose proof (retry_one_spec MAX_SUBS MAX_INFLIGHT MAX_SESSIONS MAX_PACKET_SIZE id timeout
    limit now reg t i Hinv) as H1'.
  pose proof (retry_one_grows MAX_PACKET_SIZE id timeout now reg t i) as Hgr.
  destruct (retry_one _ _ _ _ _ reg t i) as [[[[]|e] reg1] t1]; destruct H1' as (Hinv1 & _ & _);
    simpl in Hgr; [|by apply kept_grows].
  eapply kept_trans; [by apply kept_grows|]. by apply IH.
Qed.

Lemma deliver_will_kept reg signals l ds :
  inv reg → inv (deliver_will reg signals l ds).1 → kept reg (deliver_will reg signals l ds).1.
Proof.
  intros _ Hinv. apply kept_grows; [done|]. clear Hinv. revert reg signals.
  induction ds as [|[id q] ds IH]; intros reg signals; [apply grows_refl|]. cbn [deliver_will].
  destruct (get reg id) as [s|] eqn:Hg; [|apply IH].
  destruct (encode_publish_from_lwt l q) as [bytes|]; [|apply IH].
  destruct (deque_push_back _ _ _) as [o|]; [|apply IH].
  pose proof (IH (put reg id (set_outbox s o)) (signal_session signals id)) as [Hs Hl].
  split; [|exact Hl]. intros j st Hj.
  destruct (gr_session _ _ (grows_put reg id s (set_outbox s o) Hg
    ltac:(by apply session_kept_same)) j st Hj) as (st1 & Hst1 & ?).
  destruct (Hs j st1 Hst1) as (st2 & ? & ?). eauto using session_kept_trans.
Qed.

Section handlers.
Context `{CommandHandler C}.

Lemma process_outbound_kept (b : Broker C) publish now :
  binv b → kept (b_registry b)
    (b_registry (process_outbound_publish MAX_SESSIONS MAX_INFLIGHT MAX_RETAINED b publish now).2).
Proof.
  intros (Hinv & _ & Hsig). unfold process_outbound_publish.
  destruct (retain_publish _ _ _ _ _ _) as [[[]|e] store]; [|by intros ?].
  pose proof (deliver_all_kept (mp_topic publish) (mp_payload publish) (mp_qos publish)
    (mp_retain publish) now (Config.max_outbox_drops Config.GATOMQTT_CONFIG)
    (find_all_subscribers MAX_SESSIONS (b_registry b) (mp_topic publish))
    (b_registry b) (b_signals b) None Hinv Hsig) as Hd.
  by destruct (deliver_all _ _ _ _ _ _ _ _ _) as [r [[reg' sg'] sh]].
Qed.

Lemma handle_publish_kept (b : Broker C) sender packet now mv md :
  binv b → is_u64 now → kept (b_registry b)
    (b_registry (handle_publish_at MAX_SESSIONS MAX_INFLIGHT MAX_RETAINED b sender packet now
                   mv md).2).
Proof.
  intros (Hinv & Hst & Hsig) Hnow.
  destruct (get (b_registry b) sender) as [snd|] eqn:Hg.
  2:{ unfold handle_publish_at. rewrite Hg. by intros ?. }
  pose proof (RateLimit.try_consume_wf (rate snd) now
    (sw_rate _ _ _ (ri_session _ _ _ _ _ Hinv _ _ Hg)) Hnow) as Hbw.
  destruct (RateLimit.try_consume (rate snd) now) as [granted bucket] eqn:Ht. simpl in Hbw.
  pose proof (inv_set_rate _ _ _ _ _ _ bucket Hinv Hg Hbw) as Hinv1.
  assert (kept (b_registry b) (put (b_registry b) sender (set_rate snd bucket))) as Hk1
    by (eapply kept_put; [done|done|]; by apply session_kept_same).
  destruct granted.
  2:{ unfold handle_publish_at. rewrite Hg, Ht. simpl. repeat case_decide; done. }
  destruct (retain_publish MAX_RETAINED (b_retained b) (pub_retain packet) (pub_topic_name packet)
    (pub_payload packet) (qospid_qos (pub_qospid packet))) as [[[]|e] store] eqn:Hr.
  2:{ unfold handle_publish_at. rewrite Hg, Ht. simpl. by rewrite Hr. }
  pose proof (handle_publish_granted MAX_INFLIGHT MAX_SESSIONS MAX_RETAINED b sender snd packet now
    mv md bucket store Hg Ht Hr) as Heq.
  pose proof (deliver_all_kept (pub_topic_name packet) (pub_payload packet)
    (qospid_qos (pub_qospid packet)) (pub_retain packet) now md
    (find_subscribers MAX_SESSIONS (put (b_registry b) sender (set_rate snd bucket))
       (pub_topic_name packet) sender) _ (b_signals b) None Hinv1 Hsig) as Hd.
  simpl in Heq. destruct (deliver_all _ _ _ _ _ _ _ _ _) as [r [[reg' sg'] sh]].
  destruct (match r with Ok _ => _ | Err e => _ end) as [r' hh]. rewrite Heq. simpl.
  by eapply kept_trans.
Qed.

(** ** CONNECT *)
Lemma discard_previous_shrinks reg cid : store_shrinks reg (Connect.discard_previous reg cid).2.
Proof.
  unfold Connect.discard_previous. destruct (find_by_client_id reg cid) as [id|];
    [|by apply store_shrinks_eq].
  pose proof (remove_shrinks reg id). by destruct (remove reg id) as [[] ?].
Qed.

Lemma record_displaced_store reg d :
  stored_publishes (Connect.record_displaced MAX_SESSIONS reg d).2 = stored_publishes reg.
Proof.
  unfold Connect.record_displaced. destruct d as [l|]; [|done].
  unfold record_published_lwt. by destruct (deque_push_back _ _ _).
Qed.

Lemma prepare_connect_shrinks reg c token :
  store_shrinks reg (Connect.prepare_connect MAX_SESSIONS reg c token).2.
Proof.
  unfold Connect.prepare_connect. do 2 (case_decide; [by apply store_shrinks_eq|]).
  destruct (negb _); [by apply store_shrinks_eq|].
  assert (store_shrinks reg (Connect.fresh_session MAX_SESSIONS reg c).2) as Hf.
  { unfold Connect.fresh_session.
    pose proof (discard_previous_shrinks reg (cn_client_id c)) as Hd.
    destruct (Connect.discard_previous reg (cn_client_id c)) as [d reg1]. simpl in Hd.
    assert (∀ reg2, stored_publishes reg2 = stored_publishes reg1 → store_shrinks reg reg2) as He.
    { intros reg2 He. eapply store_shrinks_trans; [done|]. by apply store_shrinks_eq. }
    destruct (is_full MAX_SESSIONS reg1).
    { pose proof (record_displaced_store reg1 d).
      destruct (Connect.record_displaced MAX_SESSIONS reg1 d) as [[] ?]; by apply He. }
    destruct (cid ← Connect.to_client_id (cn_client_id c); _) as [[cid l]|e]; [|by apply He].
    unfold Registry.insert. destruct (first_free (slots reg1)) as [id|]; [|by apply He].
    pose proof (record_displaced_store (set_slots reg1 (<[id:=Some (set_lwt (Session.new cid
      (cn_keep_alive c)) l)]> (slots reg1))) d).
    destruct (Connect.record_displaced _ _ d) as [[] ?]; by apply He. }
  assert (store_shrinks reg (let '(r, reg) := Connect.fresh_session MAX_SESSIONS reg c in
    (Done r : outcome (result (Connect.ConnectError Empty_set) Connect.PreparedConnect), reg)).2)
    as Hf' by (by destruct (Connect.fresh_session MAX_SESSIONS reg c)).
  destruct (cn_clean_session c); [done|]. destruct (find_by_client_id _ _) as [id|]; [|done].
  unfold Connect.resume_session. destruct (get reg id); [|by apply store_shrinks_eq].
  destruct (Connect.to_lwt c); by apply store_shrinks_eq.
Qed.

(** A CONNECT that is not an authenticated clean one of the session's own client
    keeps its in-flight table. *)
Lemma prepare_connect_session reg c token j st :
  inv reg → packet_wf (PConnect c) → get reg j = Some st →
  client_id st ≠ cn_client_id c ∨ cn_clean_session c = false ∨
    Connect.matches_house_token c token = false →
  ∃ st', get (Connect.prepare_connect MAX_SESSIONS reg c token).2 j = Some st' ∧
         client_id st' = client_id st ∧ inflight st' = inflight st.
Proof.
  intros Hinv Hc Hg Hor.
  pose proof (Connect.prepare_connect_effect MAX_SUBS MAX_INFLIGHT MAX_SESSIONS reg c token Hinv
    Hc) as He.
  destruct (decide (client_id st = cn_client_id c)) as [Heq|Hne].
  2:{ destruct (Connect.prepare_connect MAX_SESSIONS reg c token) as [r reg'].
      destruct He as (_ & _ & Hsame & _). exists st. split_and!; [|done|done]. simpl.
      by apply Hsame. }
  clear He. unfold Connect.prepare_connect. do 2 (case_decide; [by eauto|]).
  destruct (Connect.matches_house_token c token); [|by eauto]. simpl.
  destruct Hor as [?|[Hcl|?]]; [done| |done]. rewrite Hcl.
  destruct (find_by_client_id reg (cn_client_id c)) as [id|] eqn:Hf.
  2:{ exfalso. by eapply find_by_client_id_None. }
  destruct (find_by_client_id_Some _ _ _ Hf) as (s & Hs & Hcid).
  assert (id = j) as -> by (eapply (ri_unique _ _ _ _ _ Hinv); [done|done|congruence]).
  unfold Connect.resume_session. rewrite Hg.
  destruct (Connect.to_lwt c); simpl; [rewrite (get_put_eq _ _ _ _ Hg)|]; eauto.
Qed.

Context `{Transport T E} (MAX_PACKET_SIZE : nat) (config : Config.BrokerConfig).

Definition house_token : Connect.HouseToken :=
  {| Connect.ht_username := Config.house_token_username config;
     Connect.ht_password := Config.house_token_password config |}.

Local Abbreviation registered b t c now :=
  (b_registry (register MAX_SESSIONS MAX_PACKET_SIZE config b t c now).1.1).

Lemma register_kept (b : Broker C) (t : T) c now j cid pid h m :
  inv (b_registry b) → packet_wf (PConnect c) → inv (registered b t c now) →
  cid ≠ cn_client_id c ∨ cn_clean_session c = false ∨
    Connect.matches_house_token c house_token = false →
  flying (b_registry b) j cid pid h m → flying (registered b t c now) j cid pid h m.
Proof.
  intros Hinv Hc Hinv' Hor Hf. pose proof Hf as (st & _ & Hg & Hcid & _).
  rewrite <-Hcid in Hor. unfold register in *.
  fold house_token in *. set (token := house_token) in *.
  pose proof (prepare_connect_session (b_registry b) c token j st Hinv Hc Hg Hor)
    as (st' & Hg' & Hc' & Hi').
  pose proof (store_shrinks_le _ _ (prepare_connect_shrinks (b_registry b) c token)) as Hle.
  destruct (Connect.prepare_connect MAX_SESSIONS (b_registry b) c token) as [r reg]. simpl in *.
  assert (∀ reg', inv reg' → stored_publishes reg' = stored_publishes reg →
    (∃ st2, get reg' j = Some st2 ∧ client_id st2 = client_id st' ∧ inflight st2 = inflight st') →
    flying reg' j cid pid h m) as Hdone.
  { intros reg' Hi He (st2 & Hg2 & Hc2 & Hi2). eapply in_flight_session; [done| |done|done|].
    - intros i m1 m2 Hm1 Hm2. rewrite He in Hm2. eauto.
    - exists st2. split; [done|]. apply session_kept_same; congruence. }
  destruct r as [[[o|code]|e]| |]; simpl in *; [| | | by apply Hdone; eauto..].
  - destruct (get reg (Connect.co_session_id o)) as [s|] eqn:Hs; [|apply Hdone; eauto].
    apply Hdone; [done|done|]. destruct (decide (j = Connect.co_session_id o)) as [->|Hne].
    + rewrite (get_put_eq _ _ _ _ Hs). simplify_eq. eauto.
    + rewrite get_put_ne by done. eauto.
  - destruct (Connect.write_connack _ _ _ _). simpl in *. apply Hdone; eauto.
  - apply Hdone; eauto.
Qed.

(** ** PUBACK *)
Lemma puback_session_kept s pid e :
  e ∈ inflight s → ie_packet_id e ≠ pid → e ∈ inflight (handle_puback s pid).2.
Proof.
  intros He Hne. unfold handle_puback. pose proof (inflight_remove_spec s pid) as Hr.
  destruct (inflight_remove s pid) as [[e0|] s']; simpl; [|by destruct Hr as [_ ->]].
  destruct Hr as (l1 & l2 & Hl & Hp & _ & ->). simpl. rewrite Hl in He. set_solver.
Qed.

(** A phase that ends the delivery [pid] to session [j] of client [cid]: its
    PUBACK, the removal of the session, an authenticated clean CONNECT of the
    client. *)
Definition settles (j : SessionId) (cid : string) (pid : Z) (p : phase) : Prop :=
  match p with
  | PhHandle i (PPuback pid') => i = j ∧ pid' = pid
  | PhRemove i => i = j
  | PhRegister c => cn_client_id c = cid ∧ cn_clean_session c = true ∧
                    Connect.matches_house_token c house_token = true
  | _ => False
  end.

#[global] Instance settles_dec j cid pid p : Decision (settles j cid pid p).
Proof. destruct p; simpl; try apply _. destruct packet; apply _. Defined.

Local Abbreviation handled b id packet now now2 := (b_registry
  (handle_packet MAX_SESSIONS MAX_SUBS MAX_INFLIGHT MAX_RETAINED b id packet now now2).1).

Lemma handle_puback_kept (b : Broker C) id pid' now now2 j cid pid h m :
  inv (handled b id (PPuback pid') now now2) →
  ¬ settles j cid pid (PhHandle id (PPuback pid')) →
  flying (b_registry b) j cid pid h m →
  flying (handled b id (PPuback pid') now now2) j cid pid h m.
Proof.
  intros Hinv Hn Hf. pose proof Hf as (st & e & Hg & <- & He & <- & <- & Hm & Hq). simpl in *.
  destruct (get (b_registry b) id) as [s|] eqn:Hs; [|done].
  pose proof (puback_session_kept (update_activity_at s now) pid') as Hk.
  assert (client_id (handle_puback (update_activity_at s now) pid').2 = client_id s) as Hcid.
  { unfold handle_puback. pose proof (inflight_remove_spec (update_activity_at s now) pid') as Hr.
    destruct (inflight_remove _ pid') as [[e0|] s']; simpl;
      [by destruct Hr as (? & ? & _ & _ & _ & ->)|by destruct Hr as [_ ->]]. }
  destruct (handle_puback (update_activity_at s now) pid') as [rel s']. simpl in *.
  set (reg' := match rel with Some _ => _ | None => _ end) in *.
  assert (slots reg' = slots (put (b_registry b) id s')) as Hslots.
  { subst reg'. destruct rel; [apply release_slots|done]. }
  assert (store_le (b_registry b) reg') as Hle.
  { apply store_shrinks_le. subst reg'. destruct rel; [|by apply store_shrinks_eq].
    eapply store_shrinks_trans; [|apply release_shrinks]. by apply store_shrinks_eq. }
  destruct (decide (j = id)) as [->|Hne].
  - assert (s = st) as -> by congruence.
    assert (get reg' id = Some s') as Hg' by (rewrite (get_slots _ _ Hslots); by eapply get_put_eq).
    assert (e ∈ inflight s') by (apply Hk; naive_solver).
    exists s', e. split_and!; try done. by eapply contents_kept.
  - eapply in_flight_session; [done|done|exact Hf|done|]. exists st.
    rewrite (get_slots _ _ Hslots), get_put_ne by done. split; [done|apply session_kept_refl].
Qed.

Lemma handle_packet_kept (b : Broker C) id packet now now2 j cid pid h m :
  binv b → packet_wf packet → is_u64 now → is_u64 now2 →
  inv (handled b id packet now now2) → ¬ settles j cid pid (PhHandle id packet) →
  flying (b_registry b) j cid pid h m →
  flying (handled b id packet now now2) j cid pid h m.
Proof.
  intros Hb Hpk Hn Hn2 Hinv Hns Hf. pose proof Hb as (Hinv0 & Hst & Hsig).
  destruct packet as [c|c|publish|pid'|sub|sa|unsub|upid| | | |hh opid];
    try (by apply handle_puback_kept); clear Hns; revert Hinv; unfold handle_packet;
    try done; (destruct (get (b_registry b) id) as [s|] eqn:Hg; [|done]); intros Hinv;
    pose proof (inv_update_activity _ _ _ _ _ _ now Hinv0 Hg Hn) as Hinv1;
    try (simpl in *; eapply kept_put; [done|exact Hg| |exact Hf]; by apply session_kept_same).
  - set (b1 := set_registry b (put (b_registry b) id (update_activity_at s now))) in *.
    assert (binv b1) as Hb1 by done.
    pose proof (handle_publish_kept b1 id publish now2
      (Config.max_violations Config.GATOMQTT_CONFIG)
      (Config.max_outbox_drops Config.GATOMQTT_CONFIG) Hb1 Hn2) as Hk.
    unfold handle_publish. destruct (handle_publish_at _ _ _ _ _ _ _ _ _) as [r b2].
    simpl in *. apply Hk. eapply kept_put; [done|exact Hg| |exact Hf]. by apply session_kept_same.
  - destruct (Subscribe.prepare_subscribe_wf MAX_SUBS MAX_INFLIGHT MAX_RETAINED
      (update_activity_at s now) sub (b_retained b)
      (ri_session _ _ _ _ _ Hinv1 _ _ (get_put_eq _ _ _ _ Hg)) Hpk) as (p & subs & Heq & _).
    rewrite Heq in *. simpl in *. eapply kept_put; [done|exact Hg| |exact Hf].
    by apply session_kept_same.
Qed.

(** ** One step of one task, and of the system *)
Local Abbreviation sys := (System.sys (C := C) (T := T)).
Local Abbreviation step_conn :=
  (conn_step MAX_SESSIONS MAX_SUBS MAX_INFLIGHT MAX_RETAINED MAX_PACKET_SIZE config).
Local Abbreviation step := (sys_step MAX_SESSIONS MAX_SUBS MAX_INFLIGHT MAX_RETAINED
  MAX_PACKET_SIZE config).
Local Abbreviation reach := (reachable MAX_SESSIONS MAX_SUBS MAX_INFLIGHT MAX_RETAINED
  MAX_PACKET_SIZE config).
Local Abbreviation table s := (b_registry (sy_broker s)).

Section preserved.
Context (HP : (5 ≤ MAX_PACKET_SIZE)%nat) (Hcfg : config_wf config).
Context (Hlimit : limit = Config.qos1_max_retries config).

Lemma conn_step_kept (b : Broker C) (t : T) p i j cid pid h m :
  binv b → phase_wf p → input_wf i → ¬ settles j cid pid p →
  flying (b_registry b) j cid pid h m →
  flying (b_registry (step_conn b t p i).1.1) j cid pid h m.
Proof using HP Hcfg HQ Hlimit.
  intros Hb Hp Hi Hns Hf. pose proof Hi as [Hn Hn2]. pose proof Hb as (Hinv & _ & Hsig).
  assert (inv (b_registry (step_conn b t p i).1.1)) as Hinv'.
  { pose proof (conn_step_ok MAX_SESSIONS MAX_SUBS MAX_INFLIGHT MAX_RETAINED MAX_PACKET_SIZE config
      HP Hcfg b t p i Hb Hp Hi) as Hok.
    destruct (step_conn b t p i) as [[b' t'] p']. apply (so_inv _ _ _ _ _ _ _ _ Hok). }
  destruct p as [|c|id present|id|id packet|id|id wait|id packet|id r|id reason|id l ds|id| | |];
    cbn [conn_step] in *; try done.
  - by destruct (await_connect _ _).
  - apply register_kept; try done. cbn [settles] in Hns.
    destruct (decide (cid = cn_client_id c)); [|by left]. right.
    destruct (cn_clean_session c), (Connect.matches_house_token c house_token); naive_solver.
  - by destruct (acknowledge _ _ _ _).
  - unfold flush_pop in *. destruct (get (b_registry b) id) as [s|] eqn:Hg; [|done].
    destruct (outbox s); simpl in *; (eapply kept_put; [done|exact Hg| |exact Hf]);
      by apply session_kept_same.
  - by destruct (flush_write _ _ _).
  - unfold check_session in *. destruct (get (b_registry b) id) as [s|]; simpl in *; [|done].
    destruct (quarantined s); [done|]. unfold process_inflight_retries_at in *.
    set (n := match get _ _ with Some _ => _ | None => _ end) in *.
    rewrite <-Hlimit in *. pose proof (retry_all_kept MAX_PACKET_SIZE id
      (duration_from_millis (Config.qos1_retry_ms config)) (in_now i) (seq 0 n) (b_registry b) t Hinv _ _ _ _ _ Hf) as Hk.
    destruct (retry_all _ _ _ _ _ _ _ _) as [[[u|e] reg] t']; simpl in *; [|done].
    destruct (get reg id) as [s'|]; [|done]. by repeat case_match.
  - unfold wait_event in *. destruct (read_packet MAX_PACKET_SIZE t) as [[[q|e]| |] t'];
      simpl in *; try done; [by destruct e|]. by destruct (in_signal i && signaled (b_signals b) id).
  - pose proof (handle_packet_kept b id packet (in_now i) (in_now2 i) j cid pid h m Hb Hp Hn Hn2)
      as Hk.
    destruct (handle_packet _ _ _ _ _ _ _ _ _) as [b' p']. simpl in *. by apply Hk.
  - by destruct (write_reply _ _ _ _).
  - unfold collect_will in *. destruct (is_clean reason); [done|].
    destruct (get (b_registry b) id) as [s|]; [|done]. destruct (lwt s) as [l|]; [|done].
    by destruct (publish_lwt_message_if_needed _ _ _ _ _ _ _ _) as [[r store] br].
  - unfold send_will in *. pose proof (deliver_will_kept (b_registry b) (b_signals b) l ds Hinv)
      as Hk.
    destruct (deliver_will _ _ _ _) as [reg signals]. simpl in *. by apply Hk.
  - cbn [settles] in Hns. unfold remove_session in *. pose proof Hf as (st & _ & Hg & _).
    pose proof (get_remove (b_registry b) id j) as Hget.
    pose proof (store_shrinks_le _ _ (remove_shrinks (b_registry b) id)) as Hle.
    destruct (remove (b_registry b) id) as [o reg]. simpl in *. rewrite decide_False in Hget by done.
    eapply in_flight_session; eauto using session_kept_refl.
    exists st. rewrite Hget. eauto using session_kept_refl.
Qed.

(** Some task is about to settle the delivery. *)
Definition settling (s : sys) (j : SessionId) (cid : string) (pid : Z) : Prop :=
  ∃ k t p, sy_conns s !! k = Some (t, p) ∧ settles j cid pid p.

Lemma sys_step_kept (s s' : sys) j cid pid h m :
  sys_inv MAX_SESSIONS MAX_SUBS MAX_INFLIGHT MAX_RETAINED s → step s s' →
  flying (table s) j cid pid h m →
  flying (table s') j cid pid h m ∨ settling s j cid pid.
Proof using HP Hcfg HQ Hlimit.
  intros [Hb Hph _] Hstep Hf. destruct Hstep as [s t|s k t p i b' t' p' Hk Hi Heq|s publish now];
    simpl.
  - by left.
  - destruct (decide (settles j cid pid p)) as [Hs|Hs]; [right; by exists k, t, p|].
    left. pose proof (conn_step_kept _ t p i j cid pid h m Hb (Hph _ _ _ Hk) Hi Hs Hf) as Hc.
    by rewrite Heq in Hc.
  - left. by apply (process_outbound_kept (sy_broker s) publish now Hb).
Qed.
End preserved.

End handlers.
End steps.

(** The delivery is in flight, whatever the state of its timer. *)
Abbreviation in_flight := (in_flight_with (λ _, True)).

Section settled.
Context `{Heapless} `{Mqttrs} `{EmbassySignal} `{EmbassyTime} `{CommandHandler C} `{Transport T E}.
Context (MAX_SESSIONS MAX_SUBS MAX_INFLIGHT MAX_RETAINED MAX_PACKET_SIZE : nat).
Context (config : Config.BrokerConfig).
Local Abbreviation sys := (System.sys (C := C) (T := T)).
Local Abbreviation step := (sys_step MAX_SESSIONS MAX_SUBS MAX_INFLIGHT MAX_RETAINED
  MAX_PACKET_SIZE config).
Local Abbreviation reach := (reachable MAX_SESSIONS MAX_SUBS MAX_INFLIGHT MAX_RETAINED
  MAX_PACKET_SIZE config).
Local Abbreviation table s := (b_registry (sy_broker s)).

(** C10: a QoS 1 delivery is held until it is settled.  Take any reachable state
    in which a delivery is in flight on a session (its packet identifier, its
    message).  In every later state, after any interleaving of connection
    tasks and firmware publishes, it is still in flight on that session with
    the same identifier and the same message, unless in between a task handled
    the client's PUBACK of that identifier, removed the session, or handled an
    authenticated clean CONNECT of the same client. *)
Theorem qos1_held_until_settled (hd : C) (s s' : sys) (j : SessionId) (cid : string) (pid : Z)
  (h : StoredPublishHandle) (m : string * list Z * bool) :
  (5 ≤ MAX_PACKET_SIZE)%nat → config_wf config → reach hd s → rtc step s s' →
  in_flight (table s) j cid pid h m →
  in_flight (table s') j cid pid h m ∨
  ∃ u, rtc step s u ∧ rtc step u s' ∧ in_flight (table u) j cid pid h m ∧ settling config u j cid pid.
Proof.
  intros HP Hcfg Hr Hrtc. pose proof (reachable_inv _ _ _ _ _ _ HP Hcfg _ _ Hr) as Hinv. clear Hr.
  induction Hrtc as [s|s u s' Hsu Hus IH]; intros Hf; [by left|].
  destruct (sys_step_kept _ _ _ _ _ (λ _, True) (λ _ _ _ _, I) _ _ HP Hcfg eq_refl
    s u j cid pid h m Hinv Hsu Hf) as [Hf'|Hs].
  - destruct (IH (sys_step_inv _ _ _ _ _ _ HP Hcfg _ _ Hinv Hsu) Hf')
      as [?|(v & ? & ? & ?)]; [by left|]. right. exists v. split; [by eapply rtc_l|done].
  - right. exists s. split_and!; [done|by eapply rtc_l|done|done].
Qed.
End settled.

(** ** Resending *)
Section resending.
Context `{Heapless} `{Mqttrs} `{EmbassySignal} `{EmbassyTime}.
Context (MAX_SUBS MAX_INFLIGHT MAX_SESSIONS : nat).
Local Abbreviation inv := (reg_inv MAX_SUBS MAX_INFLIGHT MAX_SESSIONS no_extra).

Section resend.
Context (MAX_PACKET_SIZE : nat) (id : SessionId) (timeout : Duration) (max_retries : Z).
Context (now : Instant) (reg : SessionRegistry).

(** The duplicate of an entry's publish. *)
Definition duplicate (e : InflightEntry) (sp : StoredPublish) : Packet :=
  PPublish {| pub_dup := true; pub_qospid := QP_AtLeastOnce (ie_packet_id e);
              pub_retain := sp_retain sp; pub_topic_name := sp_topic sp;
              pub_payload := sp_payload sp |}.

Definition resends (e : InflightEntry) (frame : list Z) : Prop :=
  ∃ sp, stored_publish reg (ie_publish e) = Some sp ∧
        encode_slice (duplicate e sp) MAX_PACKET_SIZE = Ok frame.

(** An entry after the pass. *)
Definition resent (e : InflightEntry) : InflightEntry :=
  if entry_expired now timeout e
  then set_retries (set_sent_at e now) (saturating_add U8_MAX (ie_retries e) 1) else e.

Local Abbreviation due := (λ e, entry_expired now timeout e = true).
Local Abbreviation at_entries s l := (put reg id (set_inflight s l)).

Lemma retry_one_due s l1 e l2 (t : Mock.MockTransport) frame :
  is_Some (get reg id) → Invariants.entry_wf e → due e →
  saturating_add U8_MAX (ie_retries e) 1 ≤ max_retries → resends e frame →
  retry_one MAX_PACKET_SIZE id timeout max_retries now (at_entries s (l1 ++ e :: l2)) t (length l1)
  = (Ok tt, at_entries s (l1 ++ resent e :: l2), (Mock.mock_write t frame).2).
Proof.
  intros [s0 Hg] He Hd Hmax (sp & Hsp & Hf). unfold retry_one, resent. rewrite Hd.
  rewrite (get_put_eq _ _ _ _ Hg). cbn [inflight set_inflight].
  rewrite list_lookup_middle by done. rewrite Hd. cbv zeta.
  set (n := saturating_add U8_MAX (ie_retries e) 1) in *. rewrite decide_False by lia.
  unfold put_entry, resend at 1. rewrite put_put. cbn [inflight set_inflight].
  rewrite insert_app_r_alt, Nat.sub_diag by done. cbn [insert list_insert ie_packet_id set_retries].
  destruct He as (Hpid & _). rewrite pid_try_from_spec, decide_False by int_lia.
  match goal with |- context [stored_publish ?r ?h] =>
    change (stored_publish r h) with (stored_publish reg (ie_publish e)) end.
  rewrite Hsp.
  unfold write_packet. unfold duplicate in Hf. rewrite Hf. cbn.
  rewrite (get_put_eq _ _ _ _ Hg). cbn [inflight set_inflight].
  rewrite list_lookup_middle by done. rewrite decide_True by done.
  rewrite put_put, insert_app_r_alt, Nat.sub_diag by done. done.
Qed.

Lemma retry_pass s l2 l1 (t : Mock.MockTransport) :
  is_Some (get reg id) → Forall Invariants.entry_wf l2 →
  (∀ e, e ∈ l2 → due e → saturating_add U8_MAX (ie_retries e) 1 ≤ max_retries ∧
                         ∃ frame, resends e frame) →
  ∃ frames, Forall2 resends (filter due l2) frames ∧
  retry_all MAX_PACKET_SIZE id timeout max_retries now (at_entries s (l1 ++ l2)) t
    (seq (length l1) (length l2)) =
  (Ok tt, at_entries s (l1 ++ (resent <$> l2)),
   {| Mock.rx_queue := Mock.rx_queue t; Mock.tx_log := Mock.tx_log t ++ frames;
      Mock.closed := Mock.closed t |}).
Proof.
  intros Hg. revert l1 t. induction l2 as [|e l2 IH]; intros l1 t Hwf Hall.
  { exists []. split; [constructor|]. simpl. rewrite !app_nil_r. by destruct t. }
  apply Forall_cons in Hwf as [He Hwf]. cbn [length seq retry_all].
  destruct (entry_expired now timeout e) eqn:Hd.
  - destruct (Hall e ltac:(left) Hd) as (Hmax & frame & Hf).
    rewrite (retry_one_due s l1 e l2 t frame Hg He Hd Hmax Hf).
    destruct (IH (l1 ++ [resent e]) (Mock.mock_write t frame).2 Hwf) as (frames & Hfr & Heq).
    { intros e' He'. apply Hall. by right. }
    exists (frame :: frames). rewrite filter_cons_True by done. split; [by constructor|].
    rewrite <-(assoc_L (++)), length_app, Nat.add_1_r in Heq. simpl in Heq.
    simpl. rewrite Heq. by rewrite <-!(assoc_L (++)).
  - destruct (IH (l1 ++ [e]) t Hwf) as (frames & Hfr & Heq).
    { intros e' He'. apply Hall. by right. }
    exists frames. rewrite filter_cons_False by congruence. split; [done|].
    rewrite <-(assoc_L (++)), length_app, Nat.add_1_r in Heq. simpl in Heq.
    destruct Hg as [s0 Hg]. unfold retry_one.
    rewrite (get_put_eq _ _ _ _ Hg). cbn [inflight set_inflight].
    rewrite list_lookup_middle, Hd by done. rewrite Heq. simpl. unfold resent at 2. rewrite Hd.
    by rewrite <-!(assoc_L (++)).
Qed.
End resend.

End resending.

(** ** From a signal to the wire *)
Section deliver.
Context `{Heapless} `{Mqttrs} `{EmbassySignal} `{EmbassyTime} `{CommandHandler C}.
Context (MAX_SESSIONS MAX_SUBS MAX_INFLIGHT MAX_RETAINED MAX_PACKET_SIZE : nat).
Context (config : Config.BrokerConfig).
Local Abbreviation run :=
  (run_conn MAX_SESSIONS MAX_SUBS MAX_INFLIGHT MAX_RETAINED MAX_PACKET_SIZE config).

(** A silent peer that accepts what it is sent. *)
Definition silent (log : list (list Z)) : Script :=
  {| sc_reads := []; sc_log := log; sc_fail := false |}.

Lemma read_silent log :
  (5 ≤ MAX_PACKET_SIZE)%nat → read_packet MAX_PACKET_SIZE (silent log) = (Pending, silent log).
Proof. intros HP. unfold read_packet. rewrite decide_True by lia. done. Qed.

Lemma run_flush_silent (b : Broker C) log id s inputs :
  get (b_registry b) id = Some s → length inputs = (2 * length (outbox s) + 1)%nat →
  ∃ b', run b (silent log) (PhFlush id) inputs =
        (b', silent (log ++ (ob_bytes <$> outbox s)), PhCheck id) ∧
    get (b_registry b') id = Some (set_outbox_drops (set_outbox s []) 0) ∧
    b_signals b' = b_signals b.
Proof.
  remember (outbox s) as q eqn:Hq. revert b log s inputs Hq.
  induction q as [|p q IH]; intros b log s inputs Hq Hg Hlen.
  - destruct inputs as [|i [|]]; simpl in Hlen; try lia. simpl. unfold flush_pop.
    rewrite Hg, <-Hq. eexists. rewrite app_nil_r. split_and!; [done| |done].
    simpl. rewrite (get_put_eq _ _ _ _ Hg). f_equal. destruct s; simpl in *. by subst.
  - destruct inputs as [|i1 [|i2 inputs]]; simpl in Hlen; try lia. simpl. unfold flush_pop.
    rewrite Hg, <-Hq. simpl.
    destruct (IH (set_registry b (put (b_registry b) id (set_outbox s q))) (log ++ [ob_bytes p])
      (set_outbox s q) inputs eq_refl) as (b' & Hrun & Hg' & Hsg);
      [by eapply get_put_eq|lia|].
    exists b'. split_and!; [|by rewrite Hg'|by rewrite Hsg].
    rewrite <-(assoc_L (++)) in Hrun. exact Hrun.
Qed.

(** A raised signal leads to delivery.  A task waiting at its select with
    [n] frames queued and its signal raised, whose peer sends nothing and
    accepts what it is sent, has after [2 n + 2] steps of its own woken up,
    lowered the signal, written the [n] frames in the order they were queued
    and emptied its outbox. *)
Lemma signalled_frames_are_written (b : Broker C) (log : list (list Z)) (id : SessionId)
  (wait : Duration) (s : SessionState) (i : input) (inputs : list input) :
  (5 ≤ MAX_PACKET_SIZE)%nat → get (b_registry b) id = Some s →
  signaled (b_signals b) id = true → in_signal i = true →
  length inputs = (2 * length (outbox s) + 1)%nat →
  ∃ b', run b (silent log) (PhWait id wait) (i :: inputs) =
        (b', silent (log ++ (ob_bytes <$> outbox s)), PhCheck id) ∧
    get (b_registry b') id = Some (set_outbox_drops (set_outbox s []) 0) ∧
    signaled (b_signals b') id = false.
Proof.
  intros HP Hg Hsig Hi Hlen. cbn [run_conn conn_step]. unfold wait_event.
  rewrite (read_silent log HP), Hi, Hsig. cbn [andb].
  set (b1 := set_signals b (reset_session_signal (b_signals b) id)).
  destruct (run_flush_silent b1 log id s inputs Hg Hlen) as (b' & Hrun & Hg' & Hs).
  exists b'. split_and!; [exact Hrun|done|]. rewrite Hs. subst b1. simpl.
  unfold signaled, reset_session_signal in *. destruct (b_signals b !! id) as [x|] eqn:Hx; [|done].
  rewrite list_lookup_insert_eq by (by eapply lookup_lt_Some). apply signaled_reset.
Qed.
End deliver.

(** ** A delivery, from the publish to its PUBACK *)

(** The subscriber of [ex_sys] is woken and flushes the frame; later its PUBACK
    arrives. *)
Definition ex_flushed : sys := ex_exec ex_sys (go 0 4).
Definition ex_handle : StoredPublishHandle := {| h_slot := 0; h_generation := 1 |}.
Definition ex_message : string * list Z * bool := ("a/b", [7], false).

Lemma ex_sent_in_flight :
  in_flight (b_registry (sy_broker ex_sys)) 0 "sub" 1 ex_handle ex_message.
Proof.
  exists ex_waiting, (new_entry 9 1 ex_handle).
  split_and!; [vm_compute; reflexivity..| | | | |done]; [|vm_compute; reflexivity..].
  assert (inflight ex_waiting = [new_entry 9 1 ex_handle]) as -> by (vm_compute; reflexivity). left.
Qed.

Lemma ex_flushed_later :
  rtc (sys_step 2 4 2 4 512 ex_config) ex_sys ex_flushed.
Proof. apply exec_rtc, go_wf. Qed.

Lemma qos1_held_until_settled_witness :
  in_flight (b_registry (sy_broker ex_flushed)) 0 "sub" 1 ex_handle ex_message ∨
  ∃ u, rtc (sys_step 2 4 2 4 512 ex_config) ex_sys u ∧
       rtc (sys_step 2 4 2 4 512 ex_config) u ex_flushed ∧
       in_flight (b_registry (sy_broker u)) 0 "sub" 1 ex_handle ex_message ∧
       settling ex_config u 0 "sub" 1.
Proof.
  apply (qos1_held_until_settled 2 4 2 4 512 ex_config ex_handler ex_sys ex_flushed 0 "sub" 1
    ex_handle ex_message);
    [apply Nat.leb_le; vm_compute; reflexivity|exact ex_config_wf|exact ex_reachable
    |exact ex_flushed_later|exact ex_sent_in_flight].
Defined.


Lemma signalled_frames_are_written_witness :
  ∃ b', run_conn 2 4 2 4 512 ex_config (sy_broker ex_sys) (silent []) (PhWait 0 0)
          [ex_input; ex_input; ex_input; ex_input] =
        (b', silent ([] ++ (ob_bytes <$> outbox ex_waiting)), PhCheck 0) ∧
    get (b_registry b') 0 = Some (set_outbox_drops (set_outbox ex_waiting []) 0) ∧
    signaled (b_signals b') 0 = false.
Proof.
  apply (signalled_frames_are_written 2 4 2 4 512 ex_config (sy_broker ex_sys) [] 0 0 ex_waiting
    ex_input [ex_input; ex_input; ex_input]);
    [apply Nat.leb_le; vm_compute; reflexivity|vm_compute; reflexivity..].
Defined.

(** The PUBACK settles it: the entry and the stored publish are gone. *)
Definition ex_acked : sys := ex_exec (sys_init 2 2 ex_handler)
  (AAccept (peer [Some (enc (ex_connect "sub" true)); Some (enc (ex_subscribe "a/#")); None;
                  Some (enc (PPuback 1))])
   :: go 0 9 ++ AOutbound {| mp_topic := "a/b"; mp_payload := [7]; mp_qos := AtLeastOnce;
                             mp_retain := false |} 9 :: go 0 8).

Example puback_settles :
  (inflight <$> get (b_registry (sy_broker ex_acked)) 0) = Some [] ∧
  stored_publishes (b_registry (sy_broker ex_acked)) = [None; None].
Proof. vm_compute. auto. Qed.
End Lifetimes.
