(* ===== verification/Contract.v ===== *)
(** * Contract: what the broker promises

    An abstract broker, without slots' internals, reference counts,
    generations, signals, buckets, timers or tasks: sessions with a map of
    subscriptions, a queue of frames and the list of unacknowledged messages,
    and a map of retained messages.  [astep] says what each event may do to
    it.  [Refinement.v] shows that the broker of [System.v] is an
    implementation.

    The consequences of the contract that clients care about are proved here
    once, on the abstract broker: what is sent to a client are the frames that
    were queued for it, in order, each once, and each of them is a message
    that was published by somebody else on a topic the client subscribed to,
    or a last will. *)

From S2P Require Import Prelude External Reference Keyed Topics RateLimit Session Registry.
From S2P Require Import Transport Frame Invariants Retained Router Connect Subscribe Publish.
From S2P Require Import Disconnect Connection.

Module Contract.
Import Topics Session.

(** ** State *)
Record message := {
  m_topic : string;
  m_payload : list Z;
  m_qos : QoS;
  m_retain : bool;
}.

(** What an acknowledgement is owed for. *)
Abbreviation parcel := (string * list Z * bool)%type (only parsing).

Record asession := {
  as_client : string;
  as_subs : gmap string QoS;
  as_queue : list (list Z);
  as_unacked : list (Z * parcel);
  as_will : option LwtMessage;
}.

(** [ab_wills]: the last wills that tasks have collected and are about to
    deliver, with their audience. *)
Record abroker := {
  ab_sessions : gmap SessionId asession;
  ab_retained : gmap string (list Z * QoS);
  ab_wills : gmap nat (LwtMessage * list (SessionId * QoS));
}.

Definition with_subs (s : asession) (v : gmap string QoS) : asession :=
  {| as_client := as_client s; as_subs := v; as_queue := as_queue s;
     as_unacked := as_unacked s; as_will := as_will s |}.
Definition with_queue (s : asession) (v : list (list Z)) : asession :=
  {| as_client := as_client s; as_subs := as_subs s; as_queue := v;
     as_unacked := as_unacked s; as_will := as_will s |}.
Definition with_unacked (s : asession) (v : list (Z * parcel)) : asession :=
  {| as_client := as_client s; as_subs := as_subs s; as_queue := as_queue s;
     as_unacked := v; as_will := as_will s |}.
Definition with_will (s : asession) (v : option LwtMessage) : asession :=
  {| as_client := as_client s; as_subs := as_subs s; as_queue := as_queue s;
     as_unacked := as_unacked s; as_will := v |}.

Definition fresh (cid : string) (will : option LwtMessage) : asession :=
  {| as_client := cid; as_subs := ∅; as_queue := []; as_unacked := []; as_will := will |}.

(** ** Events

    [EvConnect c r]: a CONNECT was accepted with session [r], and whether that
    session was resumed, or refused.  [EvEnd k j reason]: task [k] gives up
    session [j]. *)
Inductive event :=
| EvIdle
| EvConnect (c : External.Connect) (r : option (SessionId * bool))
| EvSubscribe (j : SessionId) (p : External.Subscribe)
| EvUnsubscribe (j : SessionId) (p : External.Unsubscribe)
| EvPublish (from : option SessionId) (m : message)
| EvPuback (j : SessionId) (pid : Z)
| EvSend (j : SessionId) (frame : list Z)
| EvEnd (k : nat) (j : SessionId) (reason : Disconnect.DisconnectReason)
| EvWill (k : nat)
| EvRemove (j : SessionId).

(** The subscription a publish is delivered under: the best of the matching
    ones. *)
Definition receives (topic : string) (subs : gmap string QoS) (q : QoS) : Prop :=
  (∃ f, subs !! f = Some q ∧ topic_matches f topic = true) ∧
  (∀ f q', subs !! f = Some q' → topic_matches f topic = true → qos_rank q' ≤ qos_rank q).

(** The acknowledged message leaves the list; an unknown identifier is
    ignored. *)
Fixpoint settle (pid : Z) (l : list (Z * parcel)) : list (Z * parcel) :=
  match l with
  | [] => []
  | x :: l => if decide (x.1 = pid) then l else x :: settle pid l
  end.

Section contract.
Context `{Heapless} `{Mqttrs}.
Context (MAX_SUBS MAX_RETAINED : nat) (token : Connect.HouseToken).

(** ** Deliveries *)
Definition frame_of (m : message) (q : QoS) (pid : Z) : option (list Z) :=
  result_ok (Publish.encode_publish (m_topic m) (m_payload m) (min_qos (m_qos m) q)
               (m_retain m) pid).

(** The message is queued, and remembered until it is acknowledged; a message
    for which there is no room to be remembered is only queued. *)
Definition queued (m : message) (q : QoS) (s s' : asession) : Prop :=
  ∃ pid frame, frame_of m q pid = Some frame ∧
    (length (as_queue s) < MAX_OUTBOX_DEPTH)%nat ∧
    (s' = with_queue s (as_queue s ++ [frame]) ∨
     min_qos (m_qos m) q = AtLeastOnce ∧ 1 ≤ pid ≤ U16_MAX ∧
     s' = with_unacked (with_queue s (as_queue s ++ [frame]))
            (as_unacked s ++ [(pid, (m_topic m, m_payload m, m_retain m))])).

(** The message does not fit a frame, under some valid identifier. *)
Definition unframed (m : message) (q : QoS) : Prop :=
  ∃ pid, (min_qos (m_qos m) q ≠ AtMostOnce → 1 ≤ pid ≤ U16_MAX) ∧ frame_of m q pid = None.

(** The only reasons to pass over a subscriber: its queue is full, or the
    message does not fit a frame for some subscriber. *)
Definition passed_over (a : abroker) (from : option SessionId) (m : message) (s : asession) : Prop :=
  (MAX_OUTBOX_DEPTH ≤ length (as_queue s))%nat ∨
  ∃ j s' q, ab_sessions a !! j = Some s' ∧ Some j ≠ from ∧ receives (m_topic m) (as_subs s') q ∧
    unframed m q.

Definition delivered (a : abroker) (from : option SessionId) (m : message) (j : SessionId)
  (s s' : asession) : Prop :=
  s' = s ∧ (Some j = from ∨ (∀ q, ¬ receives (m_topic m) (as_subs s) q) ∨ passed_over a from m s) ∨
  ∃ q, Some j ≠ from ∧ receives (m_topic m) (as_subs s) q ∧ queued m q s s'.

Definition retain (m : message) (r : gmap string (list Z * QoS)) : gmap string (list Z * QoS) :=
  if m_retain m then Retained.map_set r (m_topic m) (m_payload m) (m_qos m) else r.

Definition retain_fails (m : message) (r : gmap string (list Z * QoS)) : Prop :=
  m_retain m = true ∧
  is_ok (Retained.map_set_answer MAX_RETAINED r (m_topic m) (m_payload m)) = false.

(** ** Last wills

    A clean end leaves nothing behind.  Otherwise the will is retained if it
    asks for it, and is due to every session of another client with a matching
    subscription; a will the retained store refuses is due to nobody. *)
Definition will_of (m : LwtMessage) : message :=
  {| m_topic := lwt_topic m; m_payload := lwt_payload m; m_qos := lwt_qos m;
     m_retain := lwt_retain m |}.

Definition audience (a : abroker) (cid : string) (l : LwtMessage) (to : list (SessionId * QoS))
  : Prop :=
  NoDup to.*1 ∧ ∀ j q, (j, q) ∈ to ↔ ∃ s, ab_sessions a !! j = Some s ∧ as_client s ≠ cid ∧
                                          receives (lwt_topic l) (as_subs s) q.

(** The client and the will to publish. *)
Definition due (a : abroker) (j : SessionId) (reason : Disconnect.DisconnectReason)
  : option (string * LwtMessage) :=
  if Disconnect.is_clean reason then None
  else s ← ab_sessions a !! j; l ← as_will s; Some (as_client s, l).

Definition ends (a : abroker) (k : nat) (j : SessionId) (reason : Disconnect.DisconnectReason)
  (a' : abroker) : Prop :=
  match due a j reason with
  | None => a' = a
  | Some (cid, l) =>
      retain_fails (will_of l) (ab_retained a) ∧ a' = a ∨
      ¬ retain_fails (will_of l) (ab_retained a) ∧ ab_sessions a' = ab_sessions a ∧
      ab_retained a' = retain (will_of l) (ab_retained a) ∧
      ∃ to, audience a cid l to ∧
        ab_wills a' = if decide (to = []) then ab_wills a else <[k := (l, to)]> (ab_wills a)
  end.

(** Delivery of a collected will: a session that is gone, has a full queue or
    cannot take a frame of that size is passed over. *)
Definition take_will (l : LwtMessage) (q : QoS) (s : asession) : asession :=
  match Connection.encode_publish_from_lwt l q with
  | Some frame =>
      if decide (length (as_queue s) < MAX_OUTBOX_DEPTH)%nat
      then with_queue s (as_queue s ++ [frame]) else s
  | None => s
  end.

Definition take_wills (l : LwtMessage) (to : list (SessionId * QoS))
  (ss : gmap SessionId asession) : gmap SessionId asession :=
  foldl (λ ss '(j, q), alter (take_will l q) j ss) ss to.

(** ** Connecting

    Other clients do not notice.  Without the house's credentials nothing
    happens at all.  The client has at most one session afterwards.  When it is
    accepted that is a fresh one, or, resumed, the one it had with the will of
    the new CONNECT; when it is refused, the one it had or an empty one. *)
Definition connects (c : External.Connect) (r : option (SessionId * bool)) (a a' : abroker) : Prop :=
  let cid := cn_client_id c in
  ab_retained a' = ab_retained a ∧ ab_wills a' = ab_wills a ∧
  (Connect.matches_house_token c token = false → r = None ∧ ab_sessions a' = ab_sessions a) ∧
  (∀ j s, as_client s ≠ cid → ab_sessions a' !! j = Some s ↔ ab_sessions a !! j = Some s) ∧
  (∀ i j s t, ab_sessions a' !! i = Some s → ab_sessions a' !! j = Some t →
     as_client s = cid → as_client t = cid → i = j) ∧
  match r with
  | Some (j, resumed) =>
      ∃ l, Connect.to_lwt (W := Empty_set) c = Ok l ∧
        if resumed
        then cn_clean_session c = false ∧
             ∃ s, ab_sessions a !! j = Some s ∧ as_client s = cid ∧
                  ab_sessions a' !! j = Some (with_will s l)
        else ab_sessions a' !! j = Some (fresh cid l)
  | None =>
      ∀ j s', ab_sessions a' !! j = Some s' → as_client s' = cid →
        ab_sessions a !! j = Some s' ∨ ∃ l, s' = fresh cid l
  end.

Definition aput (a : abroker) (j : SessionId) (s : asession) : abroker :=
  {| ab_sessions := <[j := s]> (ab_sessions a); ab_retained := ab_retained a;
     ab_wills := ab_wills a |}.

(** A publish that is let through is retained if it asks for it and delivered to
    every session. *)
Definition published (a : abroker) (from : option SessionId) (m : message) (a' : abroker) : Prop :=
  ab_retained a' = retain m (ab_retained a) ∧ ab_wills a' = ab_wills a ∧
  (∀ j, ab_sessions a !! j = None → ab_sessions a' !! j = None) ∧
  (∀ j s, ab_sessions a !! j = Some s →
     ∃ s', ab_sessions a' !! j = Some s' ∧ delivered a from m j s s').

(** ** The transitions *)
Inductive astep (a : abroker) : event → abroker → Prop :=
| a_idle : astep a EvIdle a
| a_connect c r a' : connects c r a a' → astep a (EvConnect c r) a'
| a_subscribe j p s :
    ab_sessions a !! j = Some s →
    astep a (EvSubscribe j p)
      (aput a j (with_subs s (Subscribe.spec_subscribe MAX_SUBS (as_subs s) (sub_topics p)).2))
| a_unsubscribe j p s :
    ab_sessions a !! j = Some s →
    astep a (EvUnsubscribe j p)
      (aput a j (with_subs s (foldl (λ m f, delete f m) (as_subs s) (un_topics p))))
| a_publish from m a' : published a from m a' → astep a (EvPublish from m) a'
| a_publish_refused from m :
    from ≠ None ∨ retain_fails m (ab_retained a) → astep a (EvPublish from m) a
| a_puback j pid s :
    ab_sessions a !! j = Some s →
    astep a (EvPuback j pid) (aput a j (with_unacked s (settle pid (as_unacked s))))
| a_send j frame rest s :
    ab_sessions a !! j = Some s → as_queue s = frame :: rest →
    astep a (EvSend j frame) (aput a j (with_queue s rest))
| a_end k j reason a' : ends a k j reason a' → astep a (EvEnd k j reason) a'
| a_will k l to :
    ab_wills a !! k = Some (l, to) →
    astep a (EvWill k)
      {| ab_sessions := take_wills l to (ab_sessions a); ab_retained := ab_retained a;
         ab_wills := delete k (ab_wills a) |}
| a_remove j :
    astep a (EvRemove j)
      {| ab_sessions := delete j (ab_sessions a); ab_retained := ab_retained a;
         ab_wills := ab_wills a |}
(** A request on behalf of a session that is gone. *)
| a_nobody e :
    match e with
    | EvSubscribe j _ | EvUnsubscribe j _ | EvPuback j _ => ab_sessions a !! j = None
    | _ => False
    end → astep a e a.

(** ** Histories

    A history is the list of the events with the state each of them met. *)
Abbreviation history := (list (abroker * event)).

Inductive hist : abroker → history → abroker → Prop :=
| hist_nil a : hist a [] a
| hist_cons a e a1 h a2 : astep a e a1 → hist a1 h a2 → hist a ((a, e) :: h) a2.

Lemma hist_app a h1 a1 h2 a2 : hist a h1 a1 → hist a1 h2 a2 → hist a (h1 ++ h2) a2.
Proof. induction 1; simpl; [done|]. intros ?. econstructor; eauto. Qed.

(** Events after which session [j] of client [cid] may be another session. *)
Definition may_end (j : SessionId) (cid : string) (e : event) : Prop :=
  match e with
  | EvRemove i => i = j
  | EvConnect c r => cn_client_id c = cid ∧ r ≠ Some (j, true)
  | _ => False
  end.

(** What is handed to the transports of session [j]. *)
Definition sent (j : SessionId) (h : history) : list (list Z) :=
  omap (λ x, match x.2 with EvSend i f => if decide (i = j) then Some f else None | _ => None end) h.

(** The frames of a will for [j]. *)
Definition will_frames (j : SessionId) (l : LwtMessage) (to : list (SessionId * QoS))
  : list (list Z) :=
  omap (λ '(i, q), if decide (i = j) then Connection.encode_publish_from_lwt l q else None) to.

(** [caused j h fs]: the frames [fs] are accounted for by the events of [h], in
    order.  A publish accounts for at most one frame, and only if somebody else
    published it while [j] had a matching subscription. *)
Inductive caused (j : SessionId) : history → list (list Z) → Prop :=
| caused_nil : caused j [] []
| caused_skip x h fs : caused j h fs → caused j (x :: h) fs
| caused_publish a from m s q pid f h fs :
    ab_sessions a !! j = Some s → Some j ≠ from → receives (m_topic m) (as_subs s) q →
    frame_of m q pid = Some f →
    caused j h fs → caused j ((a, EvPublish from m) :: h) (f :: fs)
| caused_will a k l to gs h fs :
    ab_wills a !! k = Some (l, to) → gs `sublist_of` will_frames j l to →
    caused j h fs → caused j ((a, EvWill k) :: h) (gs ++ fs).

(** One event: what the queue of [j] gains at the end and loses at the front. *)
Definition sent_by (j : SessionId) (e : event) : list (list Z) :=
  match e with EvSend i f => if decide (i = j) then [f] else [] | _ => [] end.

Lemma sent_cons j a e h : sent j ((a, e) :: h) = sent_by j e ++ sent j h.
Proof. destruct e as [| | | | | |i f| | |]; try done. cbn. by case_decide. Qed.

Lemma take_wills_lookup l to ss j s :
  ss !! j = Some s →
  ∃ s' gs, take_wills l to ss !! j = Some s' ∧ as_client s' = as_client s ∧
    as_queue s' = as_queue s ++ gs ∧ gs `sublist_of` will_frames j l to.
Proof.
  revert ss s. induction to as [|[i q] to IH]; intros ss s Hs.
  { exists s, []. by rewrite app_nil_r. }
  cbn [take_wills foldl]. fold (take_wills l to (alter (take_will l q) i ss)).
  unfold will_frames. cbn [omap list_omap]. fold (will_frames j l to).
  destruct (decide (i = j)) as [->|Hne].
  - destruct (IH (alter (take_will l q) j ss) (take_will l q s)) as (s' & gs & Hs' & Hc & Hq & Hg);
      [by rewrite lookup_alter_eq, Hs|]. unfold take_will in Hc, Hq.
    destruct (Connection.encode_publish_from_lwt l q) as [f|]; [|by exists s', gs].
    case_decide; simpl in *.
    + exists s', (f :: gs). rewrite <-(assoc_L (++)) in Hq. split_and!; try done. by constructor.
    + exists s', gs. split_and!; try done. by constructor.
  - destruct (IH (alter (take_will l q) i ss) s) as (s' & gs & ?); [by rewrite lookup_alter_ne|].
    by exists s', gs.
Qed.

Definition advances (j : SessionId) (s : asession) (a : abroker) (e : event) (a' : abroker) : Prop :=
  ∃ s' gs, ab_sessions a' !! j = Some s' ∧ as_client s' = as_client s ∧
    as_queue s ++ gs = sent_by j e ++ as_queue s' ∧
    ∀ h fs, caused j h fs → caused j ((a, e) :: h) (gs ++ fs).

(** Events that leave the queue alone. *)
Lemma advances_same j s a e a' s' :
  ab_sessions a' !! j = Some s' → as_client s' = as_client s → as_queue s' = as_queue s →
  sent_by j e = [] → advances j s a e a'.
Proof.
  intros Hs' Hc Hq Hn. exists s', []. rewrite Hn, app_nil_r, Hq. split_and!; try done.
  intros. by constructor.
Qed.

Lemma advances_put j s a e i si si' :
  ab_sessions a !! j = Some s → ab_sessions a !! i = Some si → as_client si' = as_client si →
  as_queue si' = as_queue si → sent_by j e = [] → advances j s a e (aput a i si').
Proof.
  intros Hs Hi Hc Hq Hn. destruct (decide (i = j)) as [->|Hne].
  - simplify_eq. eapply (advances_same _ _ _ _ _ si'); [apply lookup_insert_eq|done..].
  - eapply (advances_same _ _ _ _ _ s); [simpl; by rewrite lookup_insert_ne|done..].
Qed.

Lemma astep_queue a e a' j s :
  astep a e a' → ab_sessions a !! j = Some s → ¬ may_end j (as_client s) e →
  advances j s a e a'.
Proof.
  intros Hst Hs Hend. pose proof (advances_same j s a e a' s) as Hsame.
  destruct Hst as [|c r a' Hc|i p si Hi|i p si Hi|from m a' (_ & _ & _ & Hall)|from m _|i pid si Hi
    |i f rest si Hi Hq|k i reason a' He|k l to Hk|i|e He].
  - auto.
  - destruct Hc as (_ & _ & _ & Hother & _ & Hr). simpl in Hend.
    destruct (decide (as_client s = cn_client_id c)) as [Heq|Hne]; [|by apply Hsame; [apply Hother|..]].
    destruct r as [[i resumed]|]; [|by destruct Hend].
    destruct (decide (Some (i, resumed) = Some (j, true))) as [[= -> ->]|?]; [|by destruct Hend].
    destruct Hr as (l & _ & _ & si & Hi & _ & Hi'). simplify_eq. by eapply advances_same.
  - by eapply advances_put.
  - by eapply advances_put.
  - destruct (Hall j s Hs) as (s' & Hs' & [[-> _]|(q & Hf & Hrec & pid & f & Hfr & _ & Hcase)]);
      [auto|].
    exists s', [f]. destruct Hcase as [->|(_ & _ & ->)]; split_and!; try done;
      intros h fs Hfs; by eapply caused_publish.
  - auto.
  - by eapply advances_put.
  - destruct (decide (i = j)) as [->|Hne].
    + assert (si = s) as -> by congruence. exists (with_queue s rest), []. simpl. rewrite lookup_insert_eq, decide_True by done.
      split_and!; try done; [by rewrite app_nil_r|]. intros. by constructor.
    + apply Hsame; simpl; [by rewrite lookup_insert_ne|done|done|]. by rewrite decide_False.
  - unfold ends in He. destruct (due a i reason) as [[cid l]|]; [|by subst; auto].
    destruct He as [[_ ->]|(_ & He & _)]; [auto|]. apply Hsame; [by rewrite He|done..].
  - destruct (take_wills_lookup l to _ j s Hs) as (s' & gs & Hs' & Hc & Hq & Hg).
    exists s', gs. split_and!; [done|done|by rewrite Hq|]. intros. by eapply caused_will.
  - apply Hsame; simpl; [by rewrite lookup_delete_ne|done..].
  - destruct e; by auto.
Qed.

Lemma receives_unique topic subs q q' : receives topic subs q → receives topic subs q' → q = q'.
Proof.
  intros [(f & Hf & Hm) Hle] [(f' & Hf' & Hm') Hle']. apply Topics.qos_rank_inj.
  apply Z.le_antisymm; eauto.
Qed.

(** A subscriber that is not passed over has the message next in its queue. *)
Lemma published_queue a from m a' j s q :
  published a from m a' → ab_sessions a !! j = Some s → Some j ≠ from →
  receives (m_topic m) (as_subs s) q → ¬ passed_over a from m s →
  ∃ s' pid frame, ab_sessions a' !! j = Some s' ∧ as_client s' = as_client s ∧
    frame_of m q pid = Some frame ∧ as_queue s' = as_queue s ++ [frame].
Proof.
  intros (_ & _ & _ & Hall) Hs Hne Hq Hno.
  destruct (Hall j s Hs) as (s' & Hs' & [[_ [?|[Hn|?]]]|(q' & _ & Hq' & pid & f & Hf & _ & Hcase)]);
    [done|by destruct (Hn q)|done|].
  assert (q' = q) as -> by (by eapply receives_unique).
  exists s', pid, f. by destruct Hcase as [->|(_ & _ & ->)].
Qed.

(** Along any history in which session [j] does not end: what was sent is, in
    order and without gaps, what was queued at the start and what the events
    queued since; the rest is still queued. *)
Lemma hist_queue a h a' j s :
  hist a h a' → ab_sessions a !! j = Some s → Forall (λ x, ¬ may_end j (as_client s) x.2) h →
  ∃ s' fs, ab_sessions a' !! j = Some s' ∧ as_client s' = as_client s ∧ caused j h fs ∧
    as_queue s ++ fs = sent j h ++ as_queue s'.
Proof.
  intros Hh. revert s. induction Hh as [a|a e a1 h a2 Hst _ IH]; intros s Hs Hall.
  { exists s, []. rewrite app_nil_r. split_and!; [done|done|constructor|done]. }
  apply Forall_cons in Hall as [He Hall].
  destruct (astep_queue _ _ _ _ _ Hst Hs He) as (s1 & gs & Hs1 & Hc1 & Hq1 & Hgs).
  rewrite <-Hc1 in Hall. destruct (IH s1 Hs1 Hall) as (s2 & fs & Hs2 & Hc2 & Hfs & Hq2).
  exists s2, (gs ++ fs). rewrite sent_cons. split_and!; [done|congruence|auto|].
  by rewrite (assoc_L (++)), Hq1, <-!(assoc_L (++)), Hq2.
Qed.
End contract.
End Contract.
