(* ===== verification/Abstraction.v ===== *)
(** * Abstraction: from the broker's tables to the contract

    [abs_state] forgets slots, reference counts, generations, signals, buckets
    and timers.  The lemmas say how the operations on the tables look from
    there: the fan-out of a publish, CONNECT, and the changes that cannot be
    seen at all.  [Refinement.v] assembles them for the system. *)

From S2P Require Import Prelude External Reference Keyed Topics RateLimit Session Registry.
From S2P Require Import Transport Frame Invariants Retained Router Connect Subscribe Publish.
From S2P Require Import PublishProofs Disconnect Connection System Lifetimes Contract.

Open Scope Z_scope.

Module Abstraction.
Import Topics Session Registry Frame Notify Invariants Router Command Publish PublishProofs
  Connection System.
Import Lifetimes (contents, store_le, store_le_eq, store_shrinks, store_shrinks_le,
  store_shrinks_eq, store_shrinks_trans, release_shrinks, remove_shrinks, deliver_one_grows,
  retry_one_grows, grows, gr_store, gr_session).
Import Contract.

(** ** The abstraction *)
Definition abs_entry (reg : SessionRegistry) (e : InflightEntry) : option (Z * parcel) :=
  (λ m, (ie_packet_id e, m)) <$> contents reg (ie_publish e).

Definition abs_session (reg : SessionRegistry) (s : SessionState) : asession := {|
  as_client := client_id s;
  as_subs := Subscribe.subs_map (subscriptions s);
  as_queue := ob_bytes <$> outbox s;
  as_unacked := omap (abs_entry reg) (inflight s);
  as_will := lwt s;
|}.

Definition abs_sessions (reg : SessionRegistry) : gmap SessionId asession :=
  omap (λ o, abs_session reg <$> o) (map_seq 0 (slots reg)).

Definition will_in (p : phase) : option (LwtMessage * list (SessionId * QoS)) :=
  match p with PhWill _ l ds => Some (l, ds) | _ => None end.

Definition abs_wills {T} (conns : list (T * phase)) : gmap nat (LwtMessage * list (SessionId * QoS)) :=
  omap (λ c, will_in c.2) (map_seq 0 conns).

Lemma lookup_abs reg j : abs_sessions reg !! j = abs_session reg <$> get reg j.
Proof.
  unfold abs_sessions, get. rewrite lookup_omap, lookup_map_seq_0.
  by destruct (slots reg !! j) as [[s|]|].
Qed.

Lemma lookup_wills {T} (conns : list (T * phase)) k :
  abs_wills conns !! k = c ← conns !! k; will_in c.2.
Proof. unfold abs_wills. by rewrite lookup_omap, lookup_map_seq_0. Qed.

(** A step of task [k] changes what [k] has collected. *)
Definition set_will (k : nat) (w : option (LwtMessage * list (SessionId * QoS)))
  (ws : gmap nat (LwtMessage * list (SessionId * QoS))) :=
  partial_alter (λ _, w) k ws.

Lemma abs_wills_insert {T} (conns : list (T * phase)) k t p t' p' :
  conns !! k = Some (t, p) →
  abs_wills (<[k := (t', p')]> conns) = set_will k (will_in p') (abs_wills conns).
Proof.
  intros Hk. apply map_eq. intros i. rewrite lookup_wills. unfold set_will.
  destruct (decide (i = k)) as [->|Hne].
  - rewrite lookup_partial_alter_eq, list_lookup_insert_eq by (by eapply lookup_lt_Some). done.
  - by rewrite lookup_partial_alter_ne, list_lookup_insert_ne, lookup_wills by done.
Qed.

Lemma set_will_same k ws : set_will k (ws !! k) ws = ws.
Proof.
  apply map_eq. intros i. unfold set_will. destruct (decide (i = k)) as [->|Hne].
  - by rewrite lookup_partial_alter_eq.
  - by rewrite lookup_partial_alter_ne.
Qed.

(** ** Sessions that look the same

    Two sessions that differ in timers, counters, buckets and the like. *)
Definition flights (s : SessionState) : list (Z * StoredPublishHandle) :=
  (λ e, (ie_packet_id e, ie_publish e)) <$> inflight s.

Record alike (s s' : SessionState) : Prop := {
  al_client : client_id s' = client_id s;
  al_subs : subscriptions s' = subscriptions s;
  al_outbox : outbox s' = outbox s;
  al_flights : flights s' = flights s;
  al_lwt : lwt s' = lwt s;
}.

#[global] Instance alike_equiv : Equivalence alike.
Proof.
  split; [done|intros ?? []; by split|].
  intros ??? [] []. split; congruence.
Qed.

Lemma unacked_flights reg s :
  as_unacked (abs_session reg s) =
  omap (λ '(pid, h), (λ m, (pid, m)) <$> contents reg h) (flights s).
Proof.
  unfold abs_session, flights. cbn [as_unacked]. apply list_omap_ext.
  induction (inflight s); by constructor.
Qed.

Lemma abs_sessions_insert reg id s s' :
  get reg id = Some s →
  abs_sessions (put reg id s') = <[id := abs_session reg s']> (abs_sessions reg).
Proof.
  intros Hg. apply map_eq. intros i. rewrite lookup_abs. destruct (decide (i = id)) as [->|Hne].
  - by rewrite (get_put_eq _ _ _ _ Hg), lookup_insert_eq.
  - rewrite get_put_ne, lookup_insert_ne, lookup_abs by done. by destruct (get reg i).
Qed.

Section registry.
Context (MAX_SUBS MAX_INFLIGHT MAX_SESSIONS : nat).
Local Abbreviation inv := (reg_inv MAX_SUBS MAX_INFLIGHT MAX_SESSIONS no_extra).

(** Every entry of the table resolves. *)
Lemma resolves reg j s e :
  inv reg → get reg j = Some s → e ∈ inflight s → is_Some (contents reg (ie_publish e)).
Proof.
  intros Hinv Hg He. unfold contents. apply fmap_is_Some. by eapply inflight_resolves.
Qed.

(** A handle that resolves before and after resolves to the same message. *)
Lemma contents_stable reg reg' h :
  store_le reg reg' → is_Some (contents reg h) → is_Some (contents reg' h) →
  contents reg' h = contents reg h.
Proof.
  unfold contents. intros Hle [m Hm] [m' Hm'].
  apply fmap_Some in Hm as (x & Hx & ->), Hm' as (x' & Hx' & ->). rewrite Hx, Hx'.
  apply stored_publish_Some in Hx as [Hx _], Hx' as [Hx' _].
  destruct (Hle _ _ _ Hx Hx') as [Heq _]. simpl. by rewrite Heq.
Qed.

Lemma abs_session_alike reg reg' j s s' :
  inv reg → inv reg' → store_le reg reg' → get reg j = Some s → get reg' j = Some s' →
  alike s s' → abs_session reg' s' = abs_session reg s.
Proof.
  intros Hi Hi' Hle Hg Hg' [Hc Hs Ho Hf Hl].
  assert (as_unacked (abs_session reg' s') = as_unacked (abs_session reg s)) as Hu.
  { rewrite !unacked_flights, Hf. apply list_omap_ext, Forall_Forall2_diag, Forall_forall.
    intros [pid h] Hin. f_equal. apply contents_stable; [done| |].
    - apply list_elem_of_fmap in Hin as (e & [= -> ->] & He). by eapply resolves.
    - rewrite <-Hf in Hin. apply list_elem_of_fmap in Hin as (e & [= -> ->] & He).
      by eapply resolves. }
  unfold abs_session in *. simpl in Hu. by rewrite Hc, Hs, Ho, Hl, Hu.
Qed.

(** Nothing happened, as far as the contract can tell. *)
Lemma abs_sessions_alike reg reg' :
  inv reg → inv reg' → store_le reg reg' →
  (∀ j, option_Forall2 alike (get reg j) (get reg' j)) →
  abs_sessions reg' = abs_sessions reg.
Proof.
  intros Hi Hi' Hle Hall. apply map_eq. intros j. rewrite !lookup_abs.
  destruct (get reg j) as [s|] eqn:Hg, (get reg' j) as [s'|] eqn:Hg'; specialize (Hall j);
    rewrite Hg, Hg' in Hall; inversion Hall; subst; [|done]. simpl. f_equal.
  by eapply abs_session_alike.
Qed.

(** One session changed. *)
Lemma abs_sessions_put reg reg' j s' :
  inv reg → inv reg' → store_le reg reg' → get reg' j = Some s' →
  (∀ i, i ≠ j → option_Forall2 alike (get reg i) (get reg' i)) →
  abs_sessions reg' = <[j := abs_session reg' s']> (abs_sessions reg).
Proof.
  intros Hi Hi' Hle Hg' Hall. apply map_eq. intros i. rewrite lookup_abs.
  destruct (decide (i = j)) as [->|Hne]; [by rewrite lookup_insert_eq, Hg'|].
  rewrite lookup_insert_ne, lookup_abs by done. specialize (Hall i Hne).
  destruct (get reg i) as [t|] eqn:Hg, (get reg' i) as [t'|] eqn:Ht; inversion Hall; subst; [|done].
  simpl. f_equal. by eapply abs_session_alike.
Qed.

(** Entries present before and after stand for the same messages. *)
Lemma entries_stable reg reg' j s s' l :
  inv reg → inv reg' → store_le reg reg' → get reg j = Some s → get reg' j = Some s' →
  l ⊆ inflight s → l ⊆ inflight s' → omap (abs_entry reg') l = omap (abs_entry reg) l.
Proof.
  intros Hi Hi' Hle Hg Hg' Hl Hl'. apply list_omap_ext, Forall_Forall2_diag, Forall_forall.
  intros e He. unfold abs_entry. f_equal. apply contents_stable; [done| |].
  - eapply resolves; [exact Hi|exact Hg|by apply Hl].
  - eapply resolves; [exact Hi'|exact Hg'|by apply Hl'].
Qed.

(** Deliveries were added at the end. *)
Lemma unacked_append reg reg' j s s' es :
  inv reg → inv reg' → store_le reg reg' → get reg j = Some s → get reg' j = Some s' →
  inflight s' = inflight s ++ es →
  as_unacked (abs_session reg' s') = as_unacked (abs_session reg s) ++ omap (abs_entry reg') es.
Proof.
  intros Hi Hi' Hle Hg Hg' Hf. unfold abs_session. cbn [as_unacked]. rewrite Hf, omap_app. f_equal.
  eapply entries_stable; [exact Hi|exact Hi'|done..|]. rewrite Hf. set_solver.
Qed.

Lemma unacked_same reg reg' j s s' :
  inv reg → inv reg' → store_le reg reg' → get reg j = Some s → get reg' j = Some s' →
  inflight s' = inflight s → as_unacked (abs_session reg' s') = as_unacked (abs_session reg s).
Proof.
  intros Hi Hi' Hle Hg Hg' Hf. rewrite (unacked_append reg reg' j s s' []); try done.
  - apply app_nil_r.
  - by rewrite app_nil_r.
Qed.

(** A frame was queued, and possibly deliveries recorded. *)
Lemma abs_session_queued reg reg' j s s' bytes es :
  inv reg → inv reg' → store_le reg reg' → get reg j = Some s → get reg' j = Some s' →
  client_id s' = client_id s → subscriptions s' = subscriptions s → lwt s' = lwt s →
  outbox s' = outbox s ++ [{| ob_bytes := bytes |}] → inflight s' = inflight s ++ es →
  let a := abs_session reg s in
  abs_session reg' s' = with_unacked (with_queue a (as_queue a ++ [bytes]))
                          (as_unacked a ++ omap (abs_entry reg') es).
Proof.
  intros Hi Hi' Hle Hg Hg' Hc Hs Hl Ho Hf. simpl.
  pose proof (unacked_append reg reg' j s s' es Hi Hi' Hle Hg Hg' Hf) as Hu.
  unfold abs_session, with_unacked, with_queue in *. simpl in *.
  by rewrite Hc, Hs, Hl, Ho, fmap_app, Hu.
Qed.
End registry.

(** ** Acknowledgements *)
Lemma abs_entry_pid reg e x : abs_entry reg e = Some x → x.1 = ie_packet_id e.
Proof. unfold abs_entry. by intros (m & _ & ->)%fmap_Some. Qed.

Lemma settle_skip reg pid e l :
  ie_packet_id e ≠ pid →
  settle pid (omap (abs_entry reg) (e :: l)) =
  option_list (abs_entry reg e) ++ settle pid (omap (abs_entry reg) l).
Proof.
  intros He. cbn [omap list_omap]. destruct (abs_entry reg e) as [x|] eqn:Hx; [|done].
  apply abs_entry_pid in Hx. simpl. by rewrite decide_False by congruence.
Qed.

Lemma omap_entries_cons reg e l :
  omap (abs_entry reg) (e :: l) = option_list (abs_entry reg e) ++ omap (abs_entry reg) l.
Proof. cbn [omap list_omap]. by destruct (abs_entry reg e). Qed.

Lemma settle_absent reg pid l :
  Forall (λ e, ie_packet_id e ≠ pid) l →
  settle pid (omap (abs_entry reg) l) = omap (abs_entry reg) l.
Proof.
  induction 1 as [|e l He _ IH]; [done|]. by rewrite settle_skip, IH, omap_entries_cons.
Qed.

Lemma settle_present reg l1 e l2 :
  Forall (λ e', ie_packet_id e' ≠ ie_packet_id e) l1 → is_Some (contents reg (ie_publish e)) →
  settle (ie_packet_id e) (omap (abs_entry reg) (l1 ++ e :: l2)) =
  omap (abs_entry reg) (l1 ++ l2).
Proof.
  intros Hl1 [m Hm]. induction Hl1 as [|x l1 Hx _ IH]; cbn [app].
  - rewrite omap_entries_cons. unfold abs_entry at 1. rewrite Hm. simpl. by rewrite decide_True.
  - by rewrite settle_skip, IH, omap_entries_cons.
Qed.

(** ** The shared handle of a fan-out *)
Lemma contents_acquire reg h h' : contents (acquire_stored_publish reg h).2 h' = contents reg h'.
Proof.
  unfold acquire_stored_publish. destruct (stored_publish reg h) as [sp|] eqn:Hsp; [|done].
  destruct (checked_add _ _ _); [|done]. simpl. apply stored_publish_Some in Hsp as [Hsp _].
  unfold contents, stored_publish. simpl. destruct (decide (h_slot h' = h_slot h)) as [->|Hne].
  - rewrite list_lookup_insert_eq by (by eapply lookup_lt_Some). rewrite Hsp. simpl. by case_decide.
  - by rewrite list_lookup_insert_ne.
Qed.

Section shared.
Context `{Heapless}.
Context (topic : string) (payload : list Z) (retained : bool).

Definition shared_ok (reg : SessionRegistry) (shared : option StoredPublishHandle) : Prop :=
  ∀ h, shared = Some h → contents reg h = Some (topic, payload, retained).

Lemma contents_store reg :
  let '(r, reg') := store_publish_ref reg topic payload retained in
  ∀ h, r = Ok h → contents reg' h = Some (topic, payload, retained).
Proof.
  unfold store_publish_ref. destruct (first_free _) as [i|] eqn:Hf; [|done].
  apply first_free_Some in Hf as [Hf%lookup_lt_Some _].
  destruct (string_try_from 128 topic) as [t|] eqn:Ht; [|done].
  destruct (vec_from_slice 512 payload) as [p|] eqn:Hp; [|done].
  apply string_try_from_Some in Ht as [_ ->]. apply vec_from_slice_Some in Hp as [_ ->].
  intros h [= <-]. unfold contents, stored_publish. simpl.
  by rewrite list_lookup_insert_eq, decide_True by done.
Qed.

Lemma acquire_shared_contents reg shared :
  shared_ok reg shared →
  let '(h, shared', reg') := acquire_shared_publish reg shared topic payload retained in
  shared_ok reg' shared' ∧ shared_ok reg' h ∧ slots reg' = slots reg.
Proof.
  intros Hsh. unfold acquire_shared_publish. destruct shared as [h|].
  - pose proof (contents_acquire reg h) as Hc. pose proof (acquire_slots reg h) as Hs.
    assert (shared_ok (acquire_stored_publish reg h).2 (Some h)) as Hok
      by (intros h' ?; rewrite Hc; auto).
    by destruct (acquire_stored_publish reg h) as [[u|e] reg'].
  - pose proof (contents_store reg) as Hc. pose proof (store_slots reg topic payload retained) as Hs.
    destruct (store_publish_ref reg topic payload retained) as [[h|e] reg']; [|done].
    simpl in *. assert (shared_ok reg' (Some h)) by (intros ? [= <-]; auto). done.
Qed.

Lemma track_inflight_contents MAX_INFLIGHT now reg shared id pid s :
  get reg id = Some s → shared_ok reg shared →
  let '(reg', shared') :=
    track_inflight MAX_INFLIGHT topic payload retained now reg shared id pid in
  shared_ok reg' shared' ∧ ∃ s', get reg' id = Some s' ∧
    (s' = s ∨ ∃ h, s' = set_inflight s (inflight s ++ [new_entry now pid h]) ∧
                   contents reg' h = Some (topic, payload, retained)).
Proof.
  intros Hg Hsh. unfold track_inflight. rewrite Hg.
  destruct (bool_decide_reflect (length (inflight s) < MAX_INFLIGHT)%nat) as [Hlt|]; [|by eauto].
  pose proof (acquire_shared_contents reg shared Hsh) as Ha.
  destruct (acquire_shared_publish reg shared topic payload retained) as [[[h|] sh] reg1];
    destruct Ha as (Hsh1 & Hh & Hslots); pose proof (get_slots _ _ Hslots) as Hget;
    [|rewrite <-Hget in Hg; by eauto].
  rewrite Hget, Hg. unfold inflight_add. rewrite vec_push_spec, decide_True by done.
  fold (new_entry now pid h). rewrite <-Hget in Hg. split; [done|].
  eexists. split; [by eapply get_put_eq|]. right. exists h. split; [done|]. by apply Hh.
Qed.
End shared.

(** ** Fan-out *)
Section fanout.
Context `{Heapless} `{Mqttrs} `{EmbassySignal} `{EmbassyTime}.
Context (MAX_SUBS MAX_INFLIGHT MAX_SESSIONS : nat).
Context (m : message) (now : Instant) (max_drops : Z).
Local Abbreviation inv := (reg_inv MAX_SUBS MAX_INFLIGHT MAX_SESSIONS no_extra).
Local Abbreviation swf := (session_wf MAX_SUBS MAX_INFLIGHT).
Local Abbreviation one_delivery := (deliver_one MAX_INFLIGHT (m_topic m) (m_payload m) (m_qos m)
  (m_retain m) now max_drops).
Local Abbreviation deliveries := (deliver_all MAX_INFLIGHT (m_topic m) (m_payload m) (m_qos m)
  (m_retain m) now max_drops).
Local Abbreviation shared_m := (shared_ok (m_topic m) (m_payload m) (m_retain m)).

Lemma alike_drop_frame s : alike s (drop_frame max_drops s).
Proof. unfold drop_frame. by case_decide. Qed.

Lemma alike_draw eff s :
  alike s (if decide (eff ≠ AtMostOnce) then next_packet_id s else (0, s)).2.
Proof. by case_decide. Qed.

(** What one delivery does to the subscriber, between two tables. *)
Definition outcome_of (reg : SessionRegistry) (q : QoS) (r : result PublishError unit)
  (s : SessionState) (reg' : SessionRegistry) (s' : SessionState) : Prop :=
  let a := abs_session reg s in let a' := abs_session reg' s' in
  match r with
  | Ok _ => queued m q a a' ∨ a' = a ∧ (MAX_OUTBOX_DEPTH ≤ length (as_queue a))%nat
  | Err _ => a' = a ∧ unframed m q
  end.

Lemma put_alike reg id s s2 :
  inv reg → get reg id = Some s → inv (put reg id s2) → alike s s2 →
  get (put reg id s2) id = Some s2 ∧ abs_session (put reg id s2) s2 = abs_session reg s.
Proof.
  intros Hinv Hg Hi2 Ha. pose proof (get_put_eq _ _ _ s2 Hg). split; [done|].
  eapply abs_session_alike; eauto. by apply store_le_eq.
Qed.

Lemma deliver_one_outcome reg signals shared id q s :
  inv reg → get reg id = Some s → shared_m reg shared →
  let '(r, (reg', _, shared')) := one_delivery (reg, signals, shared) id q in
  inv reg' → store_le reg reg' →
  shared_m reg' shared' ∧ ∃ s', get reg' id = Some s' ∧ outcome_of reg q r s reg' s'.
Proof.
  intros Hinv Hg Hsh. unfold deliver_one. rewrite Hg.
  pose proof (alike_draw (min_qos (m_qos m) q) s) as Hal.
  pose proof (draw_spec MAX_SUBS MAX_INFLIGHT (min_qos (m_qos m) q) s
    (ri_session _ _ _ _ _ Hinv _ _ Hg)) as Hdraw.
  set (eff := min_qos (m_qos m) q) in *.
  destruct (if decide (eff ≠ AtMostOnce) then next_packet_id s else (0, s)) as [pid s1].
  destruct Hdraw as (_ & Ho & Hi & _ & Hpid). simpl in Hal.
  pose proof (λ s2, put_alike reg id s s2 Hinv Hg) as Hput.
  destruct (encode_publish _ _ eff _ pid) as [bytes|e] eqn:Henc.
  2:{ intros Hi' _. split; [done|]. destruct (Hput s1 Hi' Hal) as [? ?].
      exists s1. split; [done|]. split; [done|]. exists pid. split; [done|]. unfold frame_of. fold eff.
      by rewrite Henc. }
  assert (frame_of m q pid = Some bytes) as Hframe by (unfold frame_of; fold eff; by rewrite Henc).
  rewrite deque_push_back_spec, Ho. case_decide as Hroom.
  2:{ intros Hi' _. split; [done|].
      destruct (Hput (drop_frame max_drops s1) Hi') as [? Habs].
      { etrans; [done|apply alike_drop_frame]. }
      eexists. split; [done|]. right. split; [done|]. simpl. rewrite length_fmap. lia. }
  set (s2 := set_outbox s1 (outbox s ++ [{| ob_bytes := bytes |}])).
  assert (get (put reg id s2) id = Some s2) as Hg2 by (by eapply get_put_eq).
  assert (length (as_queue (abs_session reg s)) < MAX_OUTBOX_DEPTH)%nat as Hroom'
    by (simpl; by rewrite length_fmap).
  destruct Hal as [Hc Hsb _ _ Hl].
  assert (∀ reg', inv reg' → store_le reg reg' → get reg' id = Some s2 →
    queued m q (abs_session reg s) (abs_session reg' s2)) as Hplain.
  { intros reg' Hi' Hle Hs'. exists pid, bytes. split; [done|]. split; [done|]. left.
    rewrite (abs_session_queued _ _ _ reg reg' id s s2 bytes []) by (try done; simpl;
      by rewrite app_nil_r). simpl. by rewrite app_nil_r. }
  case_decide as Heff.
  2:{ intros Hi' Hle. split; [done|]. exists s2. split; [done|]. left. by apply Hplain. }
  pose proof (track_inflight_contents (m_topic m) (m_payload m) (m_retain m) MAX_INFLIGHT now
    (put reg id s2) shared id pid s2 Hg2 Hsh) as Ht.
  destruct (track_inflight _ _ _ _ _ _ shared id pid) as [reg' sh'].
  destruct Ht as (Hsh' & s' & Hs' & Hcase). intros Hi' Hle. split; [done|].
  exists s'. split; [done|]. left. destruct Hcase as [->|(h & -> & Hh)]; [by apply Hplain|].
  exists pid, bytes. split; [done|]. split; [done|]. right. split; [done|].
  split; [apply Hpid; by rewrite Heff|].
  rewrite (abs_session_queued _ _ _ reg reg' id s _ bytes [new_entry now pid h])
    by (try done; simpl; by rewrite Hi).
  simpl. unfold abs_entry. simpl. by rewrite Hh.
Qed.

(** One delivery, for all sessions. *)
Lemma deliver_one_sim reg signals shared id q :
  inv reg → length signals = MAX_SESSIONS → is_Some (get reg id) → shared_m reg shared →
  let '(r, (reg', signals', shared')) := one_delivery (reg, signals, shared) id q in
  (inv reg' ∧ length signals' = MAX_SESSIONS ∧ shared_m reg' shared') ∧
  (∀ j, j ≠ id → get reg' j = get reg j ∧
     ∀ s, get reg j = Some s → abs_session reg' s = abs_session reg s) ∧
  ∃ s s', get reg id = Some s ∧ get reg' id = Some s' ∧ outcome_of reg q r s reg' s'.
Proof.
  intros Hinv Hsig [s Hg] Hsh.
  pose proof (deliver_one_outcome reg signals shared id q s Hinv Hg Hsh) as Ho.
  pose proof (deliver_one_spec MAX_SUBS MAX_INFLIGHT MAX_SESSIONS (m_topic m) (m_payload m) (m_qos m)
    (m_retain m) now max_drops reg signals shared id q Hinv Hsig) as Hs.
  pose proof (gr_store _ _ _ (deliver_one_grows 0 MAX_INFLIGHT (m_topic m) (m_payload m) (m_qos m)
    (m_retain m) now max_drops (reg, signals, shared) id q)) as Hle.
  destruct (one_delivery (reg, signals, shared) id q) as [r [[reg' signals'] shared']].
  destruct Hs as (Hinv' & Hsig' & Hsame & _ & _). simpl in Hle.
  destruct (Ho Hinv' Hle) as (Hsh' & s' & Hs' & Hout). split; [done|]. split; [|by eauto].
  intros j Hj. split; [by apply Hsame|]. intros t Ht.
  eapply abs_session_alike; [exact Hinv|exact Hinv'|done|done|by rewrite Hsame|done].
Qed.

Definition full (a : asession) : Prop := (MAX_OUTBOX_DEPTH ≤ length (as_queue a))%nat.

(** All of them: a subscriber is skipped only if its queue is full or the
    fan-out was cut short by a frame that does not fit. *)
Lemma deliver_all_sim subs reg signals shared :
  NoDup subs.*1 → inv reg → length signals = MAX_SESSIONS → shared_m reg shared →
  Forall (λ jq, is_Some (get reg jq.1)) subs →
  let '(r, (reg', _, _)) := deliveries (reg, signals, shared) subs in
  inv reg' ∧ (∀ j, get reg j = None → get reg' j = None) ∧
  (r ≠ Ok tt → ∃ j q, (j, q) ∈ subs ∧ unframed m q) ∧
  ∀ j s, get reg j = Some s → ∃ s', get reg' j = Some s' ∧
    let a := abs_session reg s in let a' := abs_session reg' s' in
    a' = a ∧ (j ∉ subs.*1 ∨ full a ∨ r ≠ Ok tt) ∨ ∃ q, (j, q) ∈ subs ∧ queued m q a a'.
Proof.
  revert reg signals shared. induction subs as [|[id q] subs IH]; intros reg signals shared Hnd
    Hinv Hsig Hsh Hex.
  { cbn. split_and!; [done|done|done|]. intros j s Hj. exists s. split; [done|]. left.
    split; [done|]. left. set_solver. }
  cbn [deliver_all]. simpl in Hnd. apply NoDup_cons in Hnd as [Hni Hnd].
  apply Forall_cons in Hex as [Hid Hex]. simpl in Hid.
  pose proof (deliver_one_sim reg signals shared id q Hinv Hsig Hid Hsh) as H1'.
  destruct (one_delivery (reg, signals, shared) id q) as [r1 [[reg1 signals1] sh1]].
  destruct H1' as ((Hinv1 & Hsig1 & Hsh1) & Hsame1 & s0 & s1 & Hs0 & Hs1 & Hout).
  assert (∀ j, get reg j = None → get reg1 j = None) as Hnone.
  { intros j Hj. destruct (decide (j = id)) as [->|Hne]; [congruence|]. by rewrite (proj1 (Hsame1 j Hne)). }
  destruct r1 as [[]|e].
  2:{ destruct Hout as [Habs Hpid]. split_and!; [done|done|intros _; exists id, q; set_solver|].
      intros j s Hj. destruct (decide (j = id)) as [->|Hne].
      - assert (s = s0) as -> by congruence. exists s1. split; [done|]. left. split; [done|]. by do 2 right.
      - destruct (Hsame1 j Hne) as [Hg Ha]. exists s. rewrite Hg. split; [done|]. left.
        split; [auto|]. by do 2 right. }
  assert (Forall (λ jq, is_Some (get reg1 jq.1)) subs) as Hex1.
  { rewrite Forall_forall in *. intros [j p] Hj. simpl. destruct (decide (j = id)) as [->|Hne].
    - by exists s1.
    - rewrite (proj1 (Hsame1 j Hne)). by apply (Hex (j, p)). }
  specialize (IH reg1 signals1 sh1 Hnd Hinv1 Hsig1 Hsh1 Hex1).
  destruct (deliveries (reg1, signals1, sh1) subs) as [r [[reg2 signals2] sh2]].
  destruct IH as (Hinv2 & Hnone2 & Herr & Hall). split_and!; [done|auto| |].
  { intros (j & p & ? & ?)%Herr. exists j, p. set_solver. }
  intros j s Hj. destruct (decide (j = id)) as [->|Hne].
  - assert (s = s0) as -> by congruence. destruct (Hall id s1 Hs1) as (s2 & Hs2 & Hcase). exists s2. split; [done|].
    assert (abs_session reg2 s2 = abs_session reg1 s1) as ->.
    { destruct Hcase as [[? _]|(p & Hp & _)]; [done|]. destruct Hni. apply list_elem_of_fmap.
      by exists (id, p). }
    destruct Hout as [Hq|[-> Hf]]; [right; exists q; set_solver|left; auto].
  - destruct (Hsame1 j Hne) as [Hg Ha]. rewrite <-Hg in Hj.
    destruct (Hall j s Hj) as (s2 & Hs2 & Hcase). exists s2. split; [done|].
    rewrite <-(Ha s) by congruence. destruct Hcase as [[? Hw]|(p & ? & ?)].
    + left. split; [done|]. destruct Hw as [?|[?|?]]; [left; set_solver|auto..].
    + right. exists p. set_solver.
Qed.
End fanout.

(** ** Publishing *)
Lemma receives_best MAX_SUBS MAX_INFLIGHT s topic q :
  session_wf MAX_SUBS MAX_INFLIGHT s →
  receives topic (Subscribe.subs_map (subscriptions s)) q ↔ best_match topic (subscriptions s) q.
Proof.
  intros Hwf. pose proof (sw_filters _ _ _ Hwf) as Hnd. unfold receives, best_match, Subscribe.subs_map.
  setoid_rewrite (kmap_Some sub_filter sub_qos _ _ _ Hnd). naive_solver.
Qed.

Section steps.
Context `{Heapless} `{Mqttrs} `{EmbassySignal} `{EmbassyTime} `{CommandHandler C}.
Context (MAX_SUBS MAX_INFLIGHT MAX_SESSIONS MAX_RETAINED : nat) (token : Connect.HouseToken).
Local Abbreviation inv := (reg_inv MAX_SUBS MAX_INFLIGHT MAX_SESSIONS no_extra).
Local Abbreviation binv := (broker_inv MAX_SUBS MAX_INFLIGHT MAX_SESSIONS MAX_RETAINED).
Local Abbreviation contract := (astep MAX_SUBS MAX_RETAINED token).

Definition abs_state (reg : SessionRegistry) (store : Retained.RetainedStore)
  (ws : gmap nat (LwtMessage * list (SessionId * QoS))) : abroker :=
  {| ab_sessions := abs_sessions reg; ab_retained := Retained.to_map store; ab_wills := ws |}.

Definition abs_broker (b : Broker C) ws : abroker := abs_state (b_registry b) (b_retained b) ws.

Lemma retain_publish_sim store m :
  Retained.store_wf MAX_RETAINED store →
  let '(r, store') := retain_publish MAX_RETAINED store (m_retain m) (m_topic m) (m_payload m)
                        (m_qos m) in
  if is_ok r
  then Retained.to_map store' = retain m (Retained.to_map store) ∧
       ¬ retain_fails MAX_RETAINED m (Retained.to_map store)
  else Retained.to_map store' = Retained.to_map store ∧
       retain_fails MAX_RETAINED m (Retained.to_map store).
Proof.
  intros Hwf. unfold retain_publish, retain, retain_fails.
  destruct (m_retain m); [|by split; [|intros [? _]]].
  pose proof (Retained.set_spec MAX_RETAINED store (m_topic m) (m_payload m) (m_qos m) Hwf) as Hs.
  destruct (Retained.set _ _ _ _ _) as [r store']. destruct Hs as (Hr & Hm & _).
  destruct r as [u|e]; simpl in *; rewrite <-Hr; [|done]. split; [done|]. by intros [_ ?].
Qed.

(** The subscribers the fan-out goes through. *)
Definition subscribers_of (reg : SessionRegistry) (from : option SessionId) (m : message)
  (subs : list (SessionId * QoS)) : Prop :=
  NoDup subs.*1 ∧ ∀ j q, (j, q) ∈ subs ↔
    ∃ s, get reg j = Some s ∧ Some j ≠ from ∧ best_match (m_topic m) (subscriptions s) q.

Lemma fanout_sim reg signals store store' ws from m now md subs :
  inv reg → length signals = MAX_SESSIONS → subscribers_of reg from m subs →
  Retained.to_map store' = retain m (Retained.to_map store) →
  let '(_, (reg', _, _)) := deliver_all MAX_INFLIGHT (m_topic m) (m_payload m) (m_qos m)
                              (m_retain m) now md (reg, signals, None) subs in
  published (abs_state reg store ws) from m (abs_state reg' store' ws).
Proof.
  intros Hinv Hsig [Hnd Hmem] Hst.
  assert (Forall (λ jq, is_Some (get reg jq.1)) subs) as Hex.
  { apply Forall_forall. intros [j q] (s & Hj & _)%Hmem. simpl. by exists s. }
  pose proof (deliver_all_sim MAX_SUBS MAX_INFLIGHT MAX_SESSIONS m now md subs reg signals None Hnd
    Hinv Hsig ltac:(done) Hex) as Hd.
  destruct (deliver_all _ _ _ _ _ _ _ _ _) as [r [[reg' signals'] sh]].
  destruct Hd as (_ & Hnone & Herr & Hall).
  assert (∀ j s q, get reg j = Some s →
    receives (m_topic m) (as_subs (abs_session reg s)) q ↔ best_match (m_topic m) (subscriptions s) q)
    as Hrec.
  { intros j s q Hj. eapply receives_best, (ri_session _ _ _ _ _ Hinv _ _ Hj). }
  split_and!; [done|done| |].
  { intros j. simpl. rewrite !lookup_abs, !fmap_None. apply Hnone. }
  intros j a. simpl. rewrite !lookup_abs. intros (s & Hj & ->)%fmap_Some.
  destruct (Hall j s Hj) as (s' & Hj' & Hcase). exists (abs_session reg' s').
  rewrite Hj'. split; [done|]. destruct Hcase as [[Heq Hwhy]|(q & Hq & Hqd)].
  - left. split; [done|]. destruct (decide (Some j = from)) as [|Hne]; [by left|right].
    destruct (matched_qos (m_topic m) None (subscriptions s)) as [q|] eqn:Hq.
    + right. apply matched_qos_Some in Hq.
      assert ((j, q) ∈ subs) as Hin by (apply Hmem; eauto).
      destruct Hwhy as [Hni|[Hfull|Hr]]; [|by left|right].
      { destruct Hni. apply list_elem_of_fmap. by exists (j, q). }
      destruct (Herr Hr) as (i & p & (t & Hi & Hfi & Hp)%Hmem & Hpid).
      exists i, (abs_session reg t), p. simpl. rewrite lookup_abs, Hi.
      split_and!; [done|done|by apply (Hrec i)|done].
    + left. intros q Hrq. apply (Hrec j s q Hj), best_match_unique in Hrq. congruence.
  - right. exists q. apply Hmem in Hq as (t & Hjt & Hne & Hb). assert (t = s) as -> by congruence.
    split; [done|]. split; [by apply (Hrec j)|done].
Qed.

Lemma find_subscribers_of reg m sender :
  inv reg → subscribers_of reg (Some sender) m
              (find_subscribers MAX_SESSIONS reg (m_topic m) sender).
Proof.
  intros Hinv. split; [by apply (subscribers_NoDup MAX_SUBS MAX_INFLIGHT)|].
  intros j q. rewrite find_subscribers_omap by apply (ri_slots _ _ _ _ _ Hinv).
  rewrite (elem_of_walk reg (m_topic m) (λ i, i = sender)). naive_solver.
Qed.

Lemma find_all_subscribers_of reg m :
  inv reg → subscribers_of reg None m (find_all_subscribers MAX_SESSIONS reg (m_topic m)).
Proof.
  intros Hinv. split; [by apply (all_subscribers_NoDup MAX_SUBS MAX_INFLIGHT)|].
  intros j q. rewrite find_all_subscribers_omap by apply (ri_slots _ _ _ _ _ Hinv).
  rewrite (elem_of_walk reg (m_topic m) (λ _, False)). naive_solver.
Qed.

Definition message_of (p : External.Publish) : message :=
  {| m_topic := pub_topic_name p; m_payload := pub_payload p;
     m_qos := qospid_qos (pub_qospid p); m_retain := pub_retain p |}.

Definition outbound_message (p : MqttPublish) : message :=
  {| m_topic := mp_topic p; m_payload := mp_payload p; m_qos := mp_qos p;
     m_retain := mp_retain p |}.

(** A change of one session that the contract cannot see. *)
Lemma abs_put_alike reg id s s' :
  inv reg → inv (put reg id s') → get reg id = Some s → alike s s' →
  abs_sessions (put reg id s') = abs_sessions reg.
Proof.
  intros Hinv Hinv' Hg Hal. eapply abs_sessions_alike; [done|done|by apply store_le_eq|].
  intros j. destruct (decide (j = id)) as [->|Hne].
  - rewrite (get_put_eq _ _ _ _ Hg), Hg. by constructor.
  - by rewrite get_put_ne.
Qed.

(** A publish of a client is let through, or changes nothing the contract can
    see, because the client is unknown, over its rate, or the retained store
    refuses the message. *)
Lemma handle_publish_outcome (b : Broker C) ws sender packet now mv md :
  binv b → is_u64 now →
  let a' := abs_broker (handle_publish_at MAX_SESSIONS MAX_INFLIGHT MAX_RETAINED b sender packet now
                          mv md).2 ws in
  published (abs_broker b ws) (Some sender) (message_of packet) a' ∨
  a' = abs_broker b ws ∧
    (∀ snd, get (b_registry b) sender = Some snd → (RateLimit.try_consume (rate snd) now).1 = true →
       retain_fails MAX_RETAINED (message_of packet) (Retained.to_map (b_retained b))).
Proof.
  intros (Hinv & Hst & Hsig) Hnow. cbv zeta. unfold abs_broker.
  destruct (get (b_registry b) sender) as [snd|] eqn:Hg.
  2:{ right. unfold handle_publish_at. by rewrite Hg. }
  pose proof (RateLimit.try_consume_wf (rate snd) now
    (sw_rate _ _ _ (ri_session _ _ _ _ _ Hinv _ _ Hg)) Hnow) as Hbw.
  destruct (RateLimit.try_consume (rate snd) now) as [granted bucket] eqn:Ht. simpl in Hbw.
  pose proof (inv_set_rate _ _ _ _ _ _ bucket Hinv Hg Hbw) as Hinv1.
  set (reg1 := put (b_registry b) sender (set_rate snd bucket)) in *.
  assert (abs_sessions reg1 = abs_sessions (b_registry b)) as Habs by (by eapply abs_put_alike).
  destruct granted.
  2:{ right. unfold handle_publish_at. rewrite Hg, Ht. unfold abs_state. split.
      - simpl. repeat case_decide; simpl; fold reg1; by rewrite Habs.
      - intros snd' [= <-]. by rewrite Ht. }
  pose proof (retain_publish_sim (b_retained b) (message_of packet) Hst) as Hret. simpl in Hret.
  destruct (retain_publish _ _ _ _ _ _) as [[[]|e] store] eqn:Hr; simpl in Hret.
  2:{ right. unfold handle_publish_at, abs_state. rewrite Hg, Ht. simpl. rewrite Hr. simpl. fold reg1.
      destruct Hret as [-> Hf]. by rewrite Habs. }
  left. pose proof (handle_publish_granted MAX_INFLIGHT MAX_SESSIONS MAX_RETAINED b sender snd packet now
    mv md bucket store Hg Ht Hr) as Heq. cbv zeta in Heq. fold reg1 in Heq.
  pose proof (fanout_sim reg1 (b_signals b) (b_retained b) store ws (Some sender)
    (message_of packet) now md _ Hinv1 Hsig (find_subscribers_of reg1 _ sender Hinv1) (proj1 Hret)) as Hf.
  simpl in Hf. destruct (deliver_all _ _ _ _ _ _ _ _ _) as [r [[reg' sg'] sh]].
  destruct (match r with Ok _ => _ | Err e => _ end) as [r' h]. rewrite Heq. simpl.
  unfold abs_state in *. by rewrite <-Habs.
Qed.

Lemma handle_publish_sim (b : Broker C) ws sender packet now mv md :
  binv b → is_u64 now →
  contract (abs_broker b ws) (EvPublish (Some sender) (message_of packet))
    (abs_broker (handle_publish_at MAX_SESSIONS MAX_INFLIGHT MAX_RETAINED b sender packet now
                   mv md).2 ws).
Proof.
  intros Hb Hnow. destruct (handle_publish_outcome b ws sender packet now mv md Hb Hnow)
    as [Hp|[-> _]]; [by apply a_publish|]. apply a_publish_refused. by left.
Qed.

Lemma process_outbound_outcome (b : Broker C) ws publish now :
  binv b →
  let a' := abs_broker (process_outbound_publish MAX_SESSIONS MAX_INFLIGHT MAX_RETAINED b publish now).2 ws in
  published (abs_broker b ws) None (outbound_message publish) a' ∨
  a' = abs_broker b ws ∧
    retain_fails MAX_RETAINED (outbound_message publish) (Retained.to_map (b_retained b)).
Proof.
  intros (Hinv & Hst & Hsig). cbv zeta. unfold abs_broker, process_outbound_publish.
  pose proof (retain_publish_sim (b_retained b) (outbound_message publish) Hst) as Hret.
  simpl in Hret. destruct (retain_publish _ _ _ _ _ _) as [[[]|e] store]; simpl in Hret.
  2:{ simpl. destruct Hret as [Hs Hf]. unfold abs_state. rewrite Hs. by right. }
  left. pose proof (fanout_sim (b_registry b) (b_signals b) (b_retained b) store ws None
    (outbound_message publish) now (Config.max_outbox_drops Config.GATOMQTT_CONFIG) _ Hinv Hsig
    (find_all_subscribers_of _ _ Hinv) (proj1 Hret)) as Hf.
  simpl in Hf. by destruct (deliver_all _ _ _ _ _ _ _ _ _) as [r [[reg' sg'] sh]].
Qed.

Lemma process_outbound_sim (b : Broker C) ws publish now :
  binv b →
  contract (abs_broker b ws) (EvPublish None (outbound_message publish))
    (abs_broker (process_outbound_publish MAX_SESSIONS MAX_INFLIGHT MAX_RETAINED b publish now).2 ws).
Proof.
  intros Hb. destruct (process_outbound_outcome b ws publish now Hb) as [Hp|[-> Hf]];
    [by apply a_publish|]. apply a_publish_refused. by right.
Qed.

(** ** Connecting *)
Definition accepted_as (r : outcome (result (Connect.ConnectError Empty_set) Connect.PreparedConnect))
  : option (SessionId * bool) :=
  match r with
  | Done (Ok (Connect.PcAccepted o)) => Some (Connect.co_session_id o, Connect.co_session_present o)
  | _ => None
  end.

Lemma without_token reg c :
  Connect.matches_house_token c token = false →
  let '(r, reg') := Connect.prepare_connect MAX_SESSIONS reg c token in
  accepted_as r = None ∧ reg' = reg.
Proof. intros Hm. unfold Connect.prepare_connect. rewrite Hm. by repeat case_decide. Qed.

Lemma resumed_not_clean reg c o reg' :
  inv reg → packet_wf (PConnect c) →
  Connect.prepare_connect MAX_SESSIONS reg c token = (Done (Ok (Connect.PcAccepted o)), reg') →
  Connect.co_session_present o = true → cn_clean_session c = false.
Proof.
  intros Hinv Hc. unfold Connect.prepare_connect. do 2 (case_decide; [done|]).
  destruct (negb _); [done|]. destruct (cn_clean_session c); [|done].
  pose proof (Connect.fresh_session_spec MAX_SUBS MAX_INFLIGHT MAX_SESSIONS reg c Hinv Hc) as Hf.
  destruct (Connect.fresh_session MAX_SESSIONS reg c) as [r reg1]. intros [= -> ->] Hp.
  destruct Hf as (_ & _ & Hf & _). congruence.
Qed.

Lemma abs_session_same reg reg' j s :
  inv reg → inv reg' → store_le reg reg' → get reg j = Some s → get reg' j = Some s →
  abs_session reg' s = abs_session reg s.
Proof. intros. by eapply abs_session_alike. Qed.

Lemma abs_others reg reg' cid j a :
  inv reg → inv reg' → store_le reg reg' → Connect.others_same cid reg reg' → as_client a ≠ cid →
  abs_sessions reg' !! j = Some a ↔ abs_sessions reg !! j = Some a.
Proof.
  intros Hinv Hinv' Hle Hoth Ha. rewrite !lookup_abs, !fmap_Some.
  split; intros (s & Hj & ->); (assert (client_id s ≠ cid) as Hc by done); exists s;
    pose proof Hj as Hj'; rewrite (Hoth j s Hc) in Hj' || rewrite <-(Hoth j s Hc) in Hj';
    (split; [done|]); [|symmetry]; by eapply abs_session_same.
Qed.

Lemma accepted_abs reg reg' c o s :
  inv reg → inv reg' → store_le reg reg' → get reg' (Connect.co_session_id o) = Some s →
  Connect.accepted_session reg c o s →
  if Connect.co_session_present o
  then ∃ old, get reg (Connect.co_session_id o) = Some old ∧ client_id old = cn_client_id c ∧
         abs_session reg' s = with_will (abs_session reg old) (lwt s)
  else abs_session reg' s = fresh (cn_client_id c) (lwt s).
Proof.
  intros Hinv Hinv' Hle Hs (Hc & _ & _ & _ & Hcase).
  destruct (Connect.co_session_present o).
  - destruct Hcase as (old & Hold & Hc' & Hsub & Hinf & Hout & _). exists old.
    split; [done|]. split; [congruence|].
    pose proof (unacked_same _ _ _ reg reg' _ old s Hinv Hinv' Hle Hold Hs Hinf) as Hu.
    unfold abs_session, with_will in *. simpl in *. by rewrite Hu, Hc', Hsub, Hout.
  - destruct Hcase as (Hsub & Hinf & Hout). unfold abs_session. by rewrite Hc, Hsub, Hinf, Hout.
Qed.

Lemma prepare_connect_sim reg c store ws :
  inv reg → packet_wf (PConnect c) →
  let '(r, reg') := Connect.prepare_connect MAX_SESSIONS reg c token in
  connects token c (accepted_as r) (abs_state reg store ws) (abs_state reg' store ws).
Proof.
  intros Hinv Hc. pose proof (Connect.prepare_connect_effect MAX_SUBS MAX_INFLIGHT MAX_SESSIONS reg c
    token Hinv Hc) as He.
  pose proof (Connect.prepare_connect_origin MAX_SUBS MAX_INFLIGHT MAX_SESSIONS reg c token Hinv Hc)
    as Ho.
  pose proof (without_token reg c) as Hno.
  pose proof (store_shrinks_le _ _ (Lifetimes.prepare_connect_shrinks MAX_SESSIONS reg c token)) as Hle.
  pose proof (λ o reg', resumed_not_clean reg c o reg' Hinv Hc) as Hclean.
  destruct (Connect.prepare_connect MAX_SESSIONS reg c token) as [r reg'].
  destruct He as (_ & Hinv' & Hoth & Hacc). simpl in Hle. split_and!; [done|done| | | |].
  - intros Hm. destruct (Hno Hm) as [? ->]. done.
  - intros j a Ha. by eapply abs_others.
  - intros i j a a'. simpl. rewrite !lookup_abs.
    intros (s & Hi & ->)%fmap_Some (s' & Hj & ->)%fmap_Some ? ?.
    eapply (ri_unique _ _ _ _ _ Hinv'); [done|done|simpl in *; congruence].
  - assert (accepted_as r = None → ∀ j a, abs_sessions reg' !! j = Some a →
      abs_sessions reg !! j = Some a ∨ ∃ l, a = fresh (cn_client_id c) l) as Hrefused.
    { intros Hr j a. rewrite !lookup_abs. intros (s & Hj & ->)%fmap_Some.
      destruct (Ho j s Hj) as [Hj0|[[l ->]|(o & -> & _)]]; [left|right; by exists l|done].
      rewrite Hj0. simpl. f_equal. symmetry. by eapply abs_session_same. }
    destruct r as [[[o|code]|e]| |]; simpl; try (intros j a Hj _; by apply Hrefused).
    destruct (Hacc o eq_refl) as (s & Hs & Hsess). pose proof Hsess as (_ & _ & Hl & _).
    exists (lwt s). split; [done|].
    pose proof (accepted_abs reg reg' c o s Hinv Hinv' Hle Hs Hsess) as Habs.
    specialize (Hclean o reg' eq_refl). destruct (Connect.co_session_present o).
    + destruct Habs as (old & Hold & Hco & Habs). split; [auto|]. exists (abs_session reg old).
      rewrite !lookup_abs, Hold, Hs. simpl. by rewrite Habs.
    + rewrite lookup_abs, Hs. simpl. by rewrite Habs.
Qed.

(** ** Changes the contract cannot see *)
Definition quiet (reg reg' : SessionRegistry) : Prop :=
  stored_publishes reg' = stored_publishes reg ∧
  ∀ j, option_Forall2 alike (get reg j) (get reg' j).

#[global] Instance quiet_preorder : PreOrder quiet.
Proof.
  split; [split; [done|]; intros; reflexivity|].
  intros r1 r2 r3 [He1 H1'] [He2 H2']. split; [congruence|]. intros j.
  specialize (H1' j). specialize (H2' j).
  destruct H1' as [x y Hxy|]; inversion H2'; subst; constructor. by etrans.
Qed.

Lemma quiet_put reg id s s' : get reg id = Some s → alike s s' → quiet reg (put reg id s').
Proof.
  intros Hg Ha. split; [done|]. intros j. destruct (decide (j = id)) as [->|Hne].
  - rewrite (get_put_eq _ _ _ _ Hg), Hg. by constructor.
  - by rewrite get_put_ne.
Qed.

Lemma quiet_abs reg reg' : inv reg → inv reg' → quiet reg reg' → abs_sessions reg' = abs_sessions reg.
Proof. intros Hi Hi' [He Hall]. eapply abs_sessions_alike; [done|done|by apply store_le_eq|done]. Qed.

(** Retries touch timers and counters of entries. *)
Lemma alike_entry s i e e' :
  inflight s !! i = Some e → ie_packet_id e' = ie_packet_id e → ie_publish e' = ie_publish e →
  alike s (set_inflight s (<[i := e']> (inflight s))).
Proof.
  intros Hi Hp Hh. split; try done. unfold flights. simpl. rewrite list_fmap_insert, Hp, Hh.
  apply list_insert_id. by rewrite list_lookup_fmap, Hi.
Qed.
End steps.
End Abstraction.
