(* ===== verification/Refinement.v ===== *)
(** * Refinement: the broker implements its contract

    [abs] is the abstract broker a state of the system stands for, and
    [event_of] the event an action stands for.  [system_refines_contract]:
    every action in every reachable state is a step of the contract under that
    event.  The consequences of the contract proved in [Contract.v] hold of
    every execution. *)

From S2P Require Import Prelude External Reference Keyed Topics RateLimit Session Registry.
From S2P Require Import Transport Frame Invariants Retained Router Connect Subscribe Publish.
From S2P Require Import PublishProofs Disconnect Connection System Lifetimes Contract Abstraction.

Open Scope Z_scope.

Module Refinement.
Import Topics Session Registry Frame Notify Invariants Router Command Publish PublishProofs
  Connection System Contract Abstraction.
Import Lifetimes (store_le, store_le_eq, store_shrinks_le, store_shrinks_eq, store_shrinks_trans,
  release_shrinks, remove_shrinks).

Section phases.
Context `{Heapless} `{Mqttrs} `{EmbassySignal} `{EmbassyTime} `{CommandHandler C} `{Transport T E}.
Context (MAX_SESSIONS MAX_SUBS MAX_INFLIGHT MAX_RETAINED MAX_PACKET_SIZE : nat).
Context (config : Config.BrokerConfig).
Local Abbreviation inv := (reg_inv MAX_SUBS MAX_INFLIGHT MAX_SESSIONS no_extra).
Local Abbreviation binv := (broker_inv MAX_SUBS MAX_INFLIGHT MAX_SESSIONS MAX_RETAINED).

Definition token : Connect.HouseToken :=
  {| Connect.ht_username := Config.house_token_username config;
     Connect.ht_password := Config.house_token_password config |}.
Local Abbreviation contract := (astep MAX_SUBS MAX_RETAINED token).

(** ** Idle phases *)
Lemma retry_one_quiet id timeout max_retries now reg (t : T) i :
  quiet reg (retry_one MAX_PACKET_SIZE id timeout max_retries now reg t i).1.2.
Proof.
  unfold retry_one. destruct (get reg id) as [s|] eqn:Hg; [|done].
  destruct (inflight s !! i) as [e|] eqn:Hi; [|done].
  destruct (entry_expired now timeout e); [|done]. cbv zeta.
  set (n := saturating_add U8_MAX (ie_retries e) 1).
  set (reg1 := put_entry id reg s i (set_retries e n)).
  assert (quiet reg reg1) as Hq.
  { eapply quiet_put; [done|]. by eapply alike_entry. }
  case_decide; [done|]. destruct (resend _ _ _ _ _) as [[[]|err] t1]; [|done].
  assert (get reg1 id = Some (set_inflight s (<[i := set_retries e n]> (inflight s)))) as Hg1
    by (by eapply get_put_eq).
  rewrite Hg1. cbn [inflight set_inflight].
  destruct (<[i := set_retries e n]> (inflight s) !! i) as [e1|] eqn:Hi1; [|done].
  case_decide; [|done]. etrans; [exact Hq|]. eapply quiet_put; [done|]. by eapply alike_entry.
Qed.

Lemma retry_all_quiet id timeout max_retries now indices reg (t : T) :
  quiet reg (retry_all MAX_PACKET_SIZE id timeout max_retries now reg t indices).1.2.
Proof.
  revert reg t. induction indices as [|i indices IH]; intros reg t; [done|]. cbn [retry_all].
  pose proof (retry_one_quiet id timeout max_retries now reg t i) as Hq.
  destruct (retry_one _ _ _ _ _ reg t i) as [[[[]|e] reg1] t1]; simpl in Hq; [|done].
  etrans; [exact Hq|apply IH].
Qed.

Lemma check_session_quiet (b : Broker C) (t : T) id now now2 :
  let b' := (check_session MAX_PACKET_SIZE config b t id now now2).1.1 in
  quiet (b_registry b) (b_registry b') ∧ b_retained b' = b_retained b.
Proof.
  unfold check_session. destruct (get (b_registry b) id) as [s|]; simpl; [|done].
  destruct (quarantined s); [done|]. unfold process_inflight_retries_at.
  set (n := match get _ _ with Some _ => _ | None => _ end).
  pose proof (retry_all_quiet id (duration_from_millis (Config.qos1_retry_ms config))
    (Config.qos1_max_retries config) now (seq 0 n) (b_registry b) t) as Hq.
  destruct (retry_all _ _ _ _ _ _ _ _) as [[[u|e] reg] t']; simpl in *; [|done].
  destruct (get reg id) as [s'|]; [|done]. by repeat case_match.
Qed.

(** ** The events of a task *)
Definition conn_event (k : nat) (b : Broker C) (p : phase) : event :=
  match p with
  | PhRegister c =>
      EvConnect c (accepted_as (Connect.prepare_connect MAX_SESSIONS (b_registry b) c token).1)
  | PhFlush id =>
      match outbox <$> get (b_registry b) id with
      | Some (packet :: _) => EvSend id (ob_bytes packet)
      | _ => EvIdle
      end
  | PhHandle id (PPublish publish) => EvPublish (Some id) (message_of publish)
  | PhHandle id (PPuback pid) => EvPuback id pid
  | PhHandle id (PSubscribe subscribe) => EvSubscribe id subscribe
  | PhHandle id (PUnsubscribe unsubscribe) => EvUnsubscribe id unsubscribe
  | PhClose id reason => EvEnd k id reason
  | PhWill _ _ _ => EvWill k
  | PhRemove id => EvRemove id
  | _ => EvIdle
  end.

Lemma idle_sim (b b' : Broker C) ws :
  inv (b_registry b) → inv (b_registry b') → quiet (b_registry b) (b_registry b') →
  b_retained b' = b_retained b → contract (abs_broker b ws) EvIdle (abs_broker b' ws).
Proof.
  intros Hi Hi' Hq Hr. unfold abs_broker, abs_state.
  rewrite (quiet_abs MAX_SUBS MAX_INFLIGHT MAX_SESSIONS _ _ Hi Hi' Hq), Hr. apply a_idle.
Qed.

(** A change of one session. *)
Lemma abs_broker_put (b : Broker C) ws id s s' e :
  inv (b_registry b) → inv (put (b_registry b) id s') → get (b_registry b) id = Some s →
  contract (abs_broker b ws) e
    (aput (abs_broker b ws) id (abs_session (put (b_registry b) id s') s')) →
  contract (abs_broker b ws) e (abs_broker (set_registry b (put (b_registry b) id s')) ws).
Proof.
  intros Hi Hi' Hg Hc. unfold abs_broker, abs_state, aput in *. simpl in *.
  rewrite (abs_sessions_put MAX_SUBS MAX_INFLIGHT MAX_SESSIONS (b_registry b)
    (put (b_registry b) id s') id s'); try done.
  - by apply store_le_eq.
  - by eapply get_put_eq.
  - intros i Hne. by rewrite get_put_ne.
Qed.

Lemma flush_pop_sim (b : Broker C) ws k id :
  binv b → inv (b_registry (flush_pop b id).1) →
  contract (abs_broker b ws) (conn_event k b (PhFlush id)) (abs_broker (flush_pop b id).1 ws).
Proof.
  intros (Hi & _ & _) Hi'. unfold flush_pop in *. simpl.
  destruct (get (b_registry b) id) as [s|] eqn:Hg; [|apply a_idle].
  destruct (outbox s) as [|packet rest] eqn:Ho; simpl in *; rewrite Ho.
  - apply idle_sim; try done. by eapply quiet_put.
  - eapply abs_broker_put; [done|done|done|].
    assert (abs_session (put (b_registry b) id (set_outbox s rest)) (set_outbox s rest) =
      with_queue (abs_session (b_registry b) s) (ob_bytes <$> rest)) as ->.
    { pose proof (unacked_same _ _ _ (b_registry b) _ id s (set_outbox s rest) Hi Hi'
        (store_le_eq _ _ eq_refl) Hg (get_put_eq _ _ _ _ Hg) eq_refl) as Hu.
      unfold abs_session, with_queue in *. simpl in *. by rewrite Hu. }
    eapply a_send; simpl; [by rewrite lookup_abs, Hg|]. simpl. by rewrite Ho.
Qed.

(** ** Packets *)
Local Abbreviation handled b id packet now now2 :=
  (handle_packet MAX_SESSIONS MAX_SUBS MAX_INFLIGHT MAX_RETAINED b id packet now now2).

Lemma puback_sim (b : Broker C) ws id s pid now now2 :
  binv b → inv (b_registry (handled b id (PPuback pid) now now2).1) →
  get (b_registry b) id = Some s →
  contract (abs_broker b ws) (EvPuback id pid)
    (abs_broker (handled b id (PPuback pid) now now2).1 ws).
Proof.
  intros (Hi & _ & _) Hi' Hg. cbn [handle_packet] in *. rewrite Hg in *.
  unfold handle_puback in *. pose proof (inflight_remove_spec (update_activity_at s now) pid) as Hr.
  destruct (inflight_remove (update_activity_at s now) pid) as [r s']. cbn [fmap option_fmap] in *.
  set (reg' := match ie_publish <$> r with Some _ => _ | None => _ end) in *. simpl in Hi'.
  assert (slots reg' = slots (put (b_registry b) id s')) as Hslots.
  { subst reg'. destruct r; [apply release_slots|done]. }
  assert (store_le (b_registry b) reg') as Hle.
  { apply store_shrinks_le. subst reg'. destruct r; [|by apply store_shrinks_eq].
    eapply store_shrinks_trans; [|apply release_shrinks]. by apply store_shrinks_eq. }
  assert (get reg' id = Some s') as Hg' by (rewrite (get_slots _ _ Hslots); by eapply get_put_eq).
  assert (abs_session reg' s' = with_unacked (abs_session (b_registry b) s)
    (settle pid (as_unacked (abs_session (b_registry b) s)))) as Habs.
  { destruct r as [e|].
    - destruct Hr as (l1 & l2 & Hl & <- & Hne & Hs'). rewrite Hs' in *.
      assert (omap (abs_entry reg') (l1 ++ l2) = omap (abs_entry (b_registry b)) (l1 ++ l2)) as Hu.
      { eapply entries_stable; [exact Hi|exact Hi'|done..| |done]. simpl in Hl. rewrite Hl. set_solver. }
      unfold abs_session, with_unacked. simpl in *. rewrite Hu, Hl, settle_present; [done|done|].
      eapply resolves; [exact Hi|exact Hg|]. rewrite Hl. set_solver.
    - destruct Hr as [Hne Hs']. rewrite Hs' in *.
      pose proof (unacked_same _ _ _ (b_registry b) reg' id s _ Hi Hi' Hle Hg Hg' eq_refl) as Hu.
      unfold abs_session, with_unacked in *. simpl in *. by rewrite Hu, settle_absent. }
  unfold abs_broker, abs_state. simpl.
  rewrite (abs_sessions_put MAX_SUBS MAX_INFLIGHT MAX_SESSIONS (b_registry b) reg' id s'); try done.
  - rewrite Habs. apply a_puback. simpl. by rewrite lookup_abs, Hg.
  - intros j Hj. by rewrite (get_slots _ _ Hslots), get_put_ne.
Qed.

(** Packets that change the subscriptions of the session only. *)
Lemma abs_session_subs reg id s s' subs :
  inv reg → inv (put reg id s') → get reg id = Some s → alike (set_subscriptions s subs) s' →
  inflight s' = inflight s →
  abs_session (put reg id s') s' = with_subs (abs_session reg s) (Subscribe.subs_map subs).
Proof.
  intros Hi Hi' Hg [Hc Hs Ho _ Hl] Hf.
  pose proof (unacked_same _ _ _ reg (put reg id s') id s s' Hi Hi' (store_le_eq _ _ eq_refl) Hg
    (get_put_eq _ _ _ _ Hg) Hf) as Hu.
  unfold abs_session, with_subs in *. simpl in *. by rewrite Hc, Hs, Ho, Hl, Hu.
Qed.

Lemma subscribe_sim (b : Broker C) ws id s packet now now2 :
  binv b → packet_wf (PSubscribe packet) → is_u64 now →
  inv (b_registry (handled b id (PSubscribe packet) now now2).1) →
  get (b_registry b) id = Some s →
  contract (abs_broker b ws) (EvSubscribe id packet)
    (abs_broker (handled b id (PSubscribe packet) now now2).1 ws).
Proof.
  intros (Hi & _ & _) Hpk Hn Hi' Hg. cbn [handle_packet] in *. rewrite Hg in *.
  pose proof (ri_session _ _ _ _ _ (inv_update_activity _ _ _ _ _ _ now Hi Hg Hn) _ _
    (get_put_eq _ _ _ _ Hg)) as Hwf.
  destruct (Subscribe.subscribe_refines_map MAX_SUBS MAX_INFLIGHT MAX_RETAINED
    (update_activity_at s now) packet (b_retained b) Hwf Hpk) as (p & subs & Heq & _ & _ & Hm).
  rewrite Heq in *. simpl in Hi'. eapply abs_broker_put; [done|done|done|].
  rewrite (abs_session_subs (b_registry b) id s _ subs) by done.
  pose proof (a_subscribe MAX_SUBS MAX_RETAINED token (abs_broker b ws) id packet
    (abs_session (b_registry b) s)) as Ha. simpl in Hm, Ha. rewrite <-Hm in Ha.
  apply Ha. by rewrite lookup_abs, Hg.
Qed.

Lemma unsubscribe_sim (b : Broker C) ws id s packet now now2 :
  binv b → is_u64 now →
  inv (b_registry (handled b id (PUnsubscribe packet) now now2).1) →
  get (b_registry b) id = Some s →
  contract (abs_broker b ws) (EvUnsubscribe id packet)
    (abs_broker (handled b id (PUnsubscribe packet) now now2).1 ws).
Proof.
  intros (Hi & _ & _) Hn Hi' Hg. cbn [handle_packet] in *. rewrite Hg in *.
  pose proof (ri_session _ _ _ _ _ (inv_update_activity _ _ _ _ _ _ now Hi Hg Hn) _ _
    (get_put_eq _ _ _ _ Hg)) as Hwf.
  destruct (Subscribe.unsubscribe_refines_map MAX_SUBS MAX_INFLIGHT (update_activity_at s now) packet
    Hwf) as (_ & _ & Hm).
  simpl in Hi'. eapply abs_broker_put; [done|done|done|].
  rewrite (abs_session_subs (b_registry b) id s _
    (Subscribe.remove_filters (un_topics packet) (subscriptions s))) by done.
  pose proof (a_unsubscribe MAX_SUBS MAX_RETAINED token (abs_broker b ws) id packet
    (abs_session (b_registry b) s)) as Ha. simpl in Hm, Ha. rewrite <-Hm in Ha.
  apply Ha. by rewrite lookup_abs, Hg.
Qed.

Lemma handle_packet_sim (b : Broker C) ws k id packet now now2 :
  binv b → packet_wf packet → is_u64 now → is_u64 now2 →
  inv (b_registry (handled b id packet now now2).1) →
  contract (abs_broker b ws) (conn_event k b (PhHandle id packet))
    (abs_broker (handled b id packet now now2).1 ws).
Proof.
  intros Hb Hpk Hn Hn2 Hi'. pose proof Hb as (Hi & Hst & Hsig).
  assert (∀ s, get (b_registry b) id = Some s →
    inv (put (b_registry b) id (update_activity_at s now)) →
    contract (abs_broker b ws) EvIdle
      (abs_broker (set_registry b (put (b_registry b) id (update_activity_at s now))) ws)) as Htouch.
  { intros s Hg Hi1. apply idle_sim; try done. by eapply quiet_put. }
  destruct (get (b_registry b) id) as [s|] eqn:Hg.
  - destruct packet; cbn [conn_event]; try (revert Hi'; cbn [handle_packet]; rewrite Hg; intros Hi';
      by apply (Htouch s eq_refl)); try (by apply a_idle); [|by eapply puback_sim|by eapply subscribe_sim|by eapply unsubscribe_sim].
    pose proof (inv_update_activity _ _ _ _ _ _ now Hi Hg Hn) as Hi1. clear Hi'.
    cbn [handle_packet]. rewrite Hg.
    set (b1 := set_registry b (put (b_registry b) id (update_activity_at s now))).
    pose proof (handle_publish_sim MAX_SUBS MAX_INFLIGHT MAX_SESSIONS MAX_RETAINED token b1 ws id p
      now2 (Config.max_violations Config.GATOMQTT_CONFIG)
      (Config.max_outbox_drops Config.GATOMQTT_CONFIG) (conj Hi1 (conj Hst Hsig)) Hn2) as Hp.
    unfold handle_publish. destruct (handle_publish_at _ _ _ b1 _ _ _ _ _) as [r b2]. simpl in *.
    unfold abs_broker, abs_state, b1 in Hp |- *. simpl in Hp.
    rewrite (abs_put_alike MAX_SUBS MAX_INFLIGHT MAX_SESSIONS (b_registry b) id s) in Hp by done. done.
  - destruct packet; cbn [conn_event handle_packet]; rewrite ?Hg; try apply a_idle.
    + apply a_publish_refused. by left.
    + apply a_nobody. simpl. by rewrite lookup_abs, Hg.
    + apply a_nobody. simpl. by rewrite lookup_abs, Hg.
    + apply a_nobody. simpl. by rewrite lookup_abs, Hg.
Qed.

(** ** Last wills *)
Lemma lwt_subscribers_NoDup reg cid l :
  inv reg → NoDup (Disconnect.find_lwt_subscribers MAX_SESSIONS reg cid l).*1.
Proof.
  intros Hi. rewrite (Disconnect.find_lwt_subscribers_omap _ _ _ _ _ _ _ Hi).
  assert (NoDup (Registry.iter reg).*1) as Hnd by apply sorted_NoDup, iter_from_sorted.
  induction (Registry.iter reg) as [|[i s] it IH]; [constructor|]. simpl in Hnd.
  apply NoDup_cons in Hnd as [Hni Hnd]. cbn [omap list_omap]. unfold Disconnect.select_lwt at 1.
  simpl. case_decide; [by auto|]. destruct (matched_qos _ _ _) as [q|]; [|by auto].
  simpl. apply NoDup_cons. split; [|by auto].
  intros ([j p] & -> & ([j' s'] & Hj & Hsel)%list_elem_of_omap)%list_elem_of_fmap. apply Hni.
  unfold Disconnect.select_lwt in Hsel. simpl in Hsel. case_decide; [done|].
  apply fmap_Some in Hsel as (q' & _ & [= -> ->]). apply list_elem_of_fmap. by exists (j', s').
Qed.

Lemma lwt_audience (b : Broker C) ws cid l :
  inv (b_registry b) →
  audience (abs_broker b ws) cid l
    (Disconnect.find_lwt_subscribers MAX_SESSIONS (b_registry b) cid l).
Proof.
  intros Hi. split; [by apply lwt_subscribers_NoDup|]. intros j q.
  rewrite (Disconnect.elem_of_lwt_subscribers MAX_SUBS MAX_INFLIGHT MAX_SESSIONS no_extra) by done.
  simpl. split.
  - intros (s & Hj & Hc & Hb). exists (abs_session (b_registry b) s). rewrite lookup_abs, Hj.
    split_and!; [done|done|]. eapply receives_best, Hb. eapply (ri_session _ _ _ _ _ Hi _ _ Hj).
  - intros (a & Ha & Hc & Hr). rewrite lookup_abs in Ha. apply fmap_Some in Ha as (s & Hj & ->).
    exists s. split_and!; [done|done|].
    eapply receives_best, Hr. eapply (ri_session _ _ _ _ _ Hi _ _ Hj).
Qed.

(** The will enters the retained store like a publish. *)
Lemma will_retain_sim store l :
  Retained.store_wf MAX_RETAINED store →
  let '(r, store') := if lwt_retain l
    then Retained.set MAX_RETAINED store (lwt_topic l) (lwt_payload l) (lwt_qos l)
    else (Ok tt, store) in
  if is_ok r
  then Retained.to_map store' = retain (will_of l) (Retained.to_map store) ∧
       ¬ retain_fails MAX_RETAINED (will_of l) (Retained.to_map store)
  else Retained.to_map store' = Retained.to_map store ∧
       retain_fails MAX_RETAINED (will_of l) (Retained.to_map store).
Proof.
  intros Hwf. pose proof (retain_publish_sim MAX_RETAINED store (will_of l) Hwf) as Hr.
  unfold retain_publish in Hr. simpl in Hr. destruct (lwt_retain l); [|done].
  by destruct (Retained.set _ _ _ _ _) as [[] ?].
Qed.

Lemma set_will_None k (ws : gmap nat (LwtMessage * list (SessionId * QoS))) :
  ws !! k = None → set_will k None ws = ws.
Proof. intros Hk. rewrite <-Hk. apply set_will_same. Qed.

(** [collect_will] for a session with a will that must be published. *)
Lemma collect_will_due (b : Broker C) id reason s l :
  inv (b_registry b) → get (b_registry b) id = Some s → lwt s = Some l →
  Disconnect.is_clean reason = false →
  let '(r, store) := if lwt_retain l
    then Retained.set MAX_RETAINED (b_retained b) (lwt_topic l) (lwt_payload l) (lwt_qos l)
    else (Ok tt, b_retained b) in
  let to := Disconnect.find_lwt_subscribers MAX_SESSIONS (b_registry b) (client_id s) l in
  collect_will MAX_SESSIONS MAX_RETAINED b id reason =
  (set_retained b store,
   if is_ok r then if decide (to = []) then PhRemove id else PhWill id l to else PhRemove id).
Proof.
  intros Hi Hg Hl Hc. unfold collect_will, Disconnect.publish_lwt_message_if_needed.
  rewrite Hc, Hg, Hl.
  destruct (if lwt_retain l then _ else (Ok tt, b_retained b)) as [[[]|e] store]; [|done].
  pose proof (lwt_subscribers_length MAX_SESSIONS MAX_SUBS MAX_INFLIGHT (b_registry b)
    (client_id s) l Hi) as Hlen.
  destruct (Disconnect.find_lwt_subscribers _ _ _ l) as [|d ds] eqn:Hds; [done|].
  unfold Disconnect.broadcast, recording_broadcaster, rl_broadcast.
  rewrite record_all_spec by done. done.
Qed.

Lemma collect_will_sim (b : Broker C) ws k id reason :
  binv b → ws !! k = None →
  let '(b', p') := collect_will MAX_SESSIONS MAX_RETAINED b id reason in
  contract (abs_broker b ws) (EvEnd k id reason) (abs_broker b' (set_will k (will_in p') ws)).
Proof.
  intros (Hi & Hst & _) Hk. pose proof (set_will_None k ws Hk) as Hnone.
  destruct (due (abs_broker b ws) id reason) as [[cid l]|] eqn:Hdue.
  2:{ assert (collect_will MAX_SESSIONS MAX_RETAINED b id reason = (b, PhRemove id)) as ->.
      { unfold due in Hdue. unfold collect_will. simpl in Hdue. rewrite lookup_abs in Hdue.
        destruct (Disconnect.is_clean reason); [done|].
        destruct (get (b_registry b) id) as [s|]; [|done]. simpl in Hdue. by destruct (lwt s). }
      simpl. rewrite Hnone. apply a_end. unfold ends. by rewrite Hdue. }
  pose proof Hdue as Hd. unfold due in Hd. simpl in Hd. rewrite lookup_abs in Hd.
  destruct (Disconnect.is_clean reason) eqn:Hc; [done|].
  destruct (get (b_registry b) id) as [s|] eqn:Hg; [|done]. simpl in Hd.
  destruct (lwt s) as [l'|] eqn:Hl; [|done]. injection Hd as <- <-.
  pose proof (collect_will_due b id reason s l' Hi Hg Hl Hc) as Heq.
  pose proof (will_retain_sim (b_retained b) l' Hst) as Hret.
  pose proof (lwt_audience b ws (client_id s) l' Hi) as Haud.
  destruct (if lwt_retain l' then _ else (Ok tt, b_retained b)) as [r store]. cbv zeta in Heq.
  rewrite Heq. apply a_end. unfold ends. rewrite Hdue.
  destruct r as [[]|e]; simpl in Hret; destruct Hret as [Hs Hf].
  - right. split; [done|]. split; [done|]. split; [done|]. eexists. split; [exact Haud|]. simpl.
    case_decide; simpl; [by rewrite Hnone|done].
  - left. split; [done|]. simpl. rewrite Hnone. unfold abs_broker, abs_state. simpl. by rewrite Hs.
Qed.

Lemma deliver_will_abs reg signals l ds :
  abs_sessions (deliver_will reg signals l ds).1 = take_wills l ds (abs_sessions reg).
Proof.
  revert reg signals. induction ds as [|[id q] ds IH]; intros reg signals; [done|].
  cbn [deliver_will take_wills foldl]. fold (take_wills l ds (alter (take_will l q) id (abs_sessions reg))).
  assert (∀ ss, (∀ s, get reg id = Some s → take_will l q (abs_session reg s) = abs_session reg s) →
    ss = abs_sessions reg → alter (take_will l q) id ss = abs_sessions reg) as Hskip.
  { intros ss Hs ->. apply map_eq. intros i. destruct (decide (i = id)) as [->|Hne].
    - rewrite lookup_alter_eq, lookup_abs. destruct (get reg id) as [s|]; [|done]. simpl.
      by rewrite Hs.
    - by rewrite lookup_alter_ne. }
  destruct (get reg id) as [s|] eqn:Hg; [|by rewrite IH, Hskip].
  destruct (encode_publish_from_lwt l q) as [bytes|] eqn:He.
  2:{ rewrite IH, Hskip; [done| |done]. intros ? _. unfold take_will. by rewrite He. }
  rewrite deque_push_back_spec. case_decide as Hroom.
  2:{ rewrite IH, Hskip; [done| |done]. intros t [= <-]. unfold take_will. rewrite He.
      simpl. by rewrite length_fmap, decide_False. }
  rewrite IH, (abs_sessions_insert _ _ _ _ Hg). f_equal. apply map_eq. intros i.
  destruct (decide (i = id)) as [->|Hne].
  - rewrite lookup_insert_eq, lookup_alter_eq, lookup_abs, Hg. simpl. unfold take_will. rewrite He.
    simpl. rewrite length_fmap, decide_True by done. f_equal. unfold abs_session, with_queue. simpl.
    by rewrite fmap_app.
  - by rewrite lookup_insert_ne, lookup_alter_ne.
Qed.

Lemma send_will_sim (b : Broker C) ws k id l ds :
  ws !! k = Some (l, ds) →
  let '(b', p') := send_will b id l ds in
  contract (abs_broker b ws) (EvWill k) (abs_broker b' (set_will k (will_in p') ws)).
Proof.
  intros Hk. unfold send_will. pose proof (deliver_will_abs (b_registry b) (b_signals b) l ds) as Ha.
  destruct (deliver_will _ _ _ _) as [reg signals]. simpl in *.
  unfold abs_broker at 2, abs_state. simpl. rewrite Ha. by apply (a_will _ _ _ (abs_broker b ws) k l ds).
Qed.

Lemma remove_session_sim (b : Broker C) ws id :
  binv b → contract (abs_broker b ws) (EvRemove id) (abs_broker (remove_session b id).1 ws).
Proof.
  intros (Hi & _ & _). unfold remove_session.
  pose proof (reg_inv_remove _ _ _ _ _ id Hi) as Hi'. pose proof (get_remove (b_registry b) id) as Hget.
  pose proof (store_shrinks_le _ _ (remove_shrinks (b_registry b) id)) as Hle.
  destruct (remove (b_registry b) id) as [o reg]. simpl in *.
  unfold abs_broker at 2, abs_state. simpl.
  assert (abs_sessions reg = delete id (abs_sessions (b_registry b))) as ->; [|apply a_remove].
  apply map_eq. intros i. rewrite lookup_abs, Hget. case_decide as Hc.
  - subst. by rewrite lookup_delete_eq.
  - rewrite lookup_delete_ne, lookup_abs by done.
    destruct (get (b_registry b) i) as [s|] eqn:Hg; [|done]. simpl. f_equal.
    eapply abs_session_same; [exact Hi|exact Hi'|done|done|]. by rewrite Hget, decide_False.
Qed.

(** ** CONNECT *)
Lemma register_sim (b : Broker C) (t : T) ws k c now :
  binv b → packet_wf (PConnect c) → config_wf config → is_u64 now →
  contract (abs_broker b ws) (conn_event k b (PhRegister c))
    (abs_broker (register MAX_SESSIONS MAX_PACKET_SIZE config b t c now).1.1 ws).
Proof.
  intros Hb Hc Hcfg Hn. pose proof Hb as (Hi & _ & _). unfold register. fold token. cbn [conn_event].
  pose proof (prepare_connect_sim MAX_SUBS MAX_INFLIGHT MAX_SESSIONS token (b_registry b) c
    (b_retained b) ws Hi Hc) as Hs.
  destruct (Connect.prepare_connect MAX_SESSIONS (b_registry b) c token) as [r reg].
  apply (a_connect MAX_SUBS MAX_RETAINED) in Hs. simpl.
  destruct r as [[[o|code]|e]| |]; simpl in *; try done.
  - destruct (get reg (Connect.co_session_id o)) as [s|] eqn:Hg; [|done].
    unfold abs_broker at 2, abs_state. simpl. rewrite (abs_sessions_insert _ _ _ _ Hg).
    rewrite insert_id; [done|]. by rewrite lookup_abs, Hg.
  - by destruct (Connect.write_connack _ _ _ _).
Qed.

(** ** One step of a task *)
Local Abbreviation step :=
  (conn_step MAX_SESSIONS MAX_SUBS MAX_INFLIGHT MAX_RETAINED MAX_PACKET_SIZE config).

(** Only the end of a connection collects a will. *)
Lemma will_in_after (b : Broker C) (t : T) p i :
  match p with PhClose _ _ => True | _ => will_in p = None → will_in (step b t p i).2 = None end.
Proof.
  destruct p; cbn [conn_step will_in]; try done; intros _.
  all: unfold await_connect, register, acknowledge, flush_pop, flush_write, check_session, wait_event,
    handle_packet, write_reply, remove_session; repeat case_match; by simplify_eq/=.
Qed.

Section sim.
Context (HP : (5 ≤ MAX_PACKET_SIZE)%nat) (Hcfg : config_wf config).

Lemma conn_step_sim (b : Broker C) (t : T) p i k ws :
  binv b → phase_wf p → input_wf i → ws !! k = will_in p →
  let '(b', _, p') := step b t p i in
  contract (abs_broker b ws) (conn_event k b p) (abs_broker b' (set_will k (will_in p') ws)).
Proof using HP Hcfg.
  intros Hb Hp Hi Hk. pose proof Hi as [Hn Hn2]. pose proof Hb as (Hinv & _ & _).
  pose proof (conn_step_ok MAX_SESSIONS MAX_SUBS MAX_INFLIGHT MAX_RETAINED MAX_PACKET_SIZE config
    HP Hcfg b t p i Hb Hp Hi) as Hok. pose proof (will_in_after b t p i) as Hw.
  destruct (step b t p i) as [[b' t'] p'] eqn:Hs. apply so_inv in Hok as (Hinv' & _ & _).
  destruct p as [|c|id present|id|id packet|id|id wait|id packet|id r|id reason|id l ds|id| | |];
    cbn [conn_step will_in snd] in *;
    try (rewrite (Hw eq_refl), set_will_None by done); clear Hw.
  all: try (repeat case_match; simplify_eq/=; by apply a_idle).
  - replace b' with (step b t (PhRegister c) i).1.1 by (cbn [conn_step]; by rewrite Hs).
    by apply register_sim.
  - destruct (flush_pop b id) as [b1 p1] eqn:Hf. simplify_eq.
    replace b' with (flush_pop b id).1 in * by (by rewrite Hf). by apply flush_pop_sim.
  - pose proof (check_session_quiet b t id (in_now i) (in_now2 i)) as [Hq Hr].
    rewrite Hs in Hq, Hr. by apply idle_sim.
  - unfold wait_event in Hs. repeat case_match; simplify_eq; by apply a_idle.
  - destruct (handle_packet _ _ _ _ _ _ _ _ _) as [b1 p1] eqn:Hf. simplify_eq.
    replace b' with (handled b id packet (in_now i) (in_now2 i)).1 in * by (by rewrite Hf).
    by apply handle_packet_sim.
  - pose proof (collect_will_sim b ws k id reason Hb Hk) as Hc.
    destruct (collect_will _ _ _ _ _). by simplify_eq.
  - pose proof (send_will_sim b ws k id l ds Hk) as Hc. destruct (send_will _ _ _ _). by simplify_eq.
  - pose proof (remove_session_sim b ws id Hb) as Hc. destruct (remove_session _ _). by simplify_eq.
Qed.
End sim.

(** ** The system *)
Local Abbreviation sys := (System.sys (C := C) (T := T)).
Local Abbreviation reach := (reachable MAX_SESSIONS MAX_SUBS MAX_INFLIGHT MAX_RETAINED
  MAX_PACKET_SIZE config).
Local Abbreviation run_action := (exec_action (T := T) MAX_SESSIONS MAX_SUBS MAX_INFLIGHT MAX_RETAINED
  MAX_PACKET_SIZE config).
Local Abbreviation run := (exec (T := T) MAX_SESSIONS MAX_SUBS MAX_INFLIGHT MAX_RETAINED
  MAX_PACKET_SIZE config).
Local Abbreviation ok := (sys_inv MAX_SESSIONS MAX_SUBS MAX_INFLIGHT MAX_RETAINED).

Definition abs (s : sys) : abroker := abs_broker (sy_broker s) (abs_wills (sy_conns s)).

Definition event_of (s : sys) (a : action T) : event :=
  match a with
  | AAccept _ => EvIdle
  | AConn k _ =>
      match sy_conns s !! k with
      | Some (_, p) => conn_event k (sy_broker s) p
      | None => EvIdle
      end
  | AOutbound publish _ => EvPublish None (outbound_message publish)
  end.

(** The events of a run, with the abstract states they meet. *)
Fixpoint history_of (s : sys) (acts : list (action T)) : list (abroker * event) :=
  match acts with
  | [] => []
  | a :: acts => (abs s, event_of s a) :: history_of (run_action s a) acts
  end.

Section run.
Context (HP : (5 ≤ MAX_PACKET_SIZE)%nat) (Hcfg : config_wf config).

Lemma exec_action_ok s a : ok s → action_wf a → ok (run_action s a).
Proof using HP Hcfg.
  intros Hs Ha. eapply (sys_inv_rtc _ _ _ _ MAX_PACKET_SIZE config HP Hcfg s); [|done].
  apply (exec_rtc _ _ _ _ _ _ [a] s). by constructor.
Qed.

Lemma exec_ok acts s : ok s → Forall action_wf acts → ok (run s acts).
Proof using HP Hcfg.
  intros Hs Ha. eapply (sys_inv_rtc _ _ _ _ MAX_PACKET_SIZE config HP Hcfg s); [|done].
  by apply exec_rtc.
Qed.

Lemma exec_action_sim s a :
  ok s → action_wf a → contract (abs s) (event_of s a) (abs (run_action s a)).
Proof using HP Hcfg.
  intros Hs Ha. pose proof (si_broker _ _ _ _ _ Hs) as Hb.
  destruct a as [t|k i|publish now]; cbn [event_of exec_action].
  - unfold abs. simpl. assert (abs_wills (sy_conns s ++ [(t, PhConnect)]) = abs_wills (sy_conns s))
      as ->; [|apply a_idle].
    apply map_eq. intros k. rewrite !lookup_wills.
    destruct (decide (k < length (sy_conns s))%nat) as [Hlt|Hge].
    + by rewrite lookup_app_l.
    + rewrite (lookup_ge_None_2 (sy_conns s)) by lia.
      destruct ((sy_conns s ++ [(t, PhConnect)]) !! k) as [[t' p]|] eqn:Hk; [|done].
      apply lookup_app_Some in Hk as [Hk%lookup_lt_Some|[_ Hk]]; [lia|].
      by apply list_lookup_singleton_Some in Hk as [_ [= <- <-]].
  - destruct (sy_conns s !! k) as [[t p]|] eqn:Hk; [|apply a_idle].
    pose proof (conn_step_sim HP Hcfg (sy_broker s) t p i k (abs_wills (sy_conns s)) Hb
      (si_phases _ _ _ _ _ Hs _ _ _ Hk) Ha) as Hc.
    destruct (step (sy_broker s) t p i) as [[b' t'] p']. unfold abs. simpl.
    rewrite (abs_wills_insert _ _ _ _ _ _ Hk). apply Hc. by rewrite lookup_wills, Hk.
  - by apply process_outbound_sim.
Qed.

(** The action publishes [m] and nothing stops it: the firmware publishes, or a
    client does that is within its rate, and the retained store does not refuse. *)
Definition let_through (s : sys) (a : action T) (from : option SessionId) (m : message) : Prop :=
  match a with
  | AOutbound publish _ => from = None ∧ m = outbound_message publish
  | AConn k i => ∃ t id packet snd,
      sy_conns s !! k = Some (t, PhHandle id (PPublish packet)) ∧
      get (b_registry (sy_broker s)) id = Some snd ∧
      (RateLimit.try_consume (rate snd) (in_now2 i)).1 = true ∧
      from = Some id ∧ m = message_of packet
  | AAccept _ => False
  end ∧ ¬ retain_fails MAX_RETAINED m (ab_retained (abs s)).

Lemma let_through_event s a from m : let_through s a from m → event_of s a = EvPublish from m.
Proof.
  intros [Hact _]. destruct a as [t|k i|publish now]; [done| |].
  - destruct Hact as (t & id & packet & st & Hk & _ & _ & -> & ->). simpl. by rewrite Hk.
  - by destruct Hact as [-> ->].
Qed.

Lemma let_through_published s a from m :
  ok s → action_wf a → let_through s a from m → published (abs s) from m (abs (run_action s a)).
Proof using HP Hcfg.
  intros Hs Ha [Hact Hret]. pose proof (si_broker _ _ _ _ _ Hs) as Hb. pose proof Hb as (Hi & Hst & Hsig).
  destruct a as [t|k i|publish now]; [done| |].
  - destruct Hact as (t & id & packet & st & Hk & Hg & Hrate & -> & ->), Ha as [Hn Hn2].
    pose proof (inv_update_activity _ _ _ _ _ _ (in_now i) Hi Hg Hn) as Hi1.
    set (b1 := set_registry (sy_broker s)
      (put (b_registry (sy_broker s)) id (update_activity_at st (in_now i)))).
    pose proof (handle_publish_outcome MAX_SUBS MAX_INFLIGHT MAX_SESSIONS MAX_RETAINED b1
      (abs_wills (sy_conns s)) id packet (in_now2 i) (Config.max_violations Config.GATOMQTT_CONFIG)
      (Config.max_outbox_drops Config.GATOMQTT_CONFIG) (conj Hi1 (conj Hst Hsig)) Hn2) as Hp.
    cbv zeta in Hp. unfold exec_action, abs. rewrite Hk. cbn [conn_step handle_packet]. rewrite Hg.
    fold b1. unfold handle_publish. destruct (handle_publish_at _ _ _ b1 _ _ _ _ _) as [r b2].
    cbn [sy_broker sy_conns snd] in *. rewrite (abs_wills_insert _ _ _ _ _ _ Hk).
    match goal with |- context [will_in ?p] =>
      assert (will_in p = None) as -> by (by repeat case_match) end.
    rewrite set_will_None by (by rewrite lookup_wills, Hk).
    assert (abs_broker b1 (abs_wills (sy_conns s)) = abs s) as Hb1.
    { unfold abs, abs_broker, abs_state, b1. simpl. f_equal.
      by apply (abs_put_alike MAX_SUBS MAX_INFLIGHT MAX_SESSIONS (b_registry (sy_broker s)) id st). }
    rewrite Hb1 in Hp. destruct Hp as [?|[_ Hf]]; [done|]. destruct Hret.
    apply (Hf (update_activity_at st (in_now i))); [by eapply get_put_eq|done].
  - destruct Hact as [-> ->].
    destruct (process_outbound_outcome MAX_SUBS MAX_INFLIGHT MAX_SESSIONS MAX_RETAINED (sy_broker s)
      (abs_wills (sy_conns s)) publish now Hb) as [?|[_ Hf]]; done.
Qed.

Lemma exec_hist acts s :
  ok s → Forall action_wf acts →
  hist MAX_SUBS MAX_RETAINED token (abs s) (history_of s acts) (abs (run s acts)).
Proof using HP Hcfg.
  intros Hs Ha. revert s Hs. induction Ha as [|a acts Ha _ IH]; intros s Hs; [constructor|].
  cbn [history_of]. econstructor; [by apply exec_action_sim|]. by apply IH, exec_action_ok.
Qed.
End run.

(** C2: the broker implements its contract.  The initial state stands for the
    empty abstract broker, and every action of every task and of the firmware,
    in every reachable state, is a step that the contract allows for the event
    the action stands for: whatever the interleaving, the tables of slots,
    handles, counters and signals behave as sessions with queues and
    subscriptions, a map of retained messages and a list of wills to
    deliver. *)
Theorem system_refines_contract (h : C) :
  (5 ≤ MAX_PACKET_SIZE)%nat → config_wf config →
  abs (sys_init MAX_SESSIONS MAX_INFLIGHT h) =
    {| ab_sessions := ∅; ab_retained := ∅; ab_wills := ∅ |} ∧
  ∀ s a, reach h s → action_wf a → contract (abs s) (event_of s a) (abs (run_action s a)).
Proof.
  intros HP Hcfg. split.
  - unfold abs, abs_broker, abs_state. f_equal. apply map_eq. intros j.
    rewrite lookup_abs, lookup_empty. unfold get. simpl.
    destruct (replicate _ _ !! j) as [o|] eqn:Hj; [|done]. by apply lookup_replicate in Hj as [-> _].
  - intros s a Hr Ha. apply exec_action_sim; try done. by apply (reachable_inv _ _ _ _ _ _ HP Hcfg h).
Qed.

End phases.

Definition ex_history := history_of 2 4 2 4 512 ex_config ex_sys (go 0 4).

Lemma ex_reachable_ok : (5 ≤ 512)%nat.
Proof. apply Nat.leb_le. reflexivity. Qed.

(** A CONNECT arrives at the waiting broker. *)
Lemma system_refines_contract_witness :
  astep 4 4 (token ex_config) (abs ex_sys) (event_of 2 ex_config ex_sys (AConn 0 ex_input))
    (abs (exec_action 2 4 2 4 512 ex_config ex_sys (AConn 0 ex_input))).
Proof.
  apply (system_refines_contract 2 4 2 4 512 ex_config ex_handler ex_reachable_ok ex_config_wf);
    [exact ex_reachable|split; split; vm_compute; discriminate].
Defined.

Lemma no_end_events (l : list (abroker * event)) j cid :
  Forall (λ b, b = true)
    ((λ x, match x.2 with EvRemove _ | EvConnect _ _ => false | _ => true end) <$> l) →
  Forall (λ x, ¬ may_end j cid x.2) l.
Proof. intros Hl%Forall_fmap. eapply Forall_impl; [exact Hl|]. intros [a []]; cbn; intros ?; tauto || done. Qed.


(** The frame that was waiting is what was sent. *)
Example ex_history_sent :
  sent 0 ex_history = ob_bytes <$> outbox ex_waiting ∧ outbox ex_waiting ≠ [].
Proof. split; vm_compute; [reflexivity|discriminate]. Qed.
End Refinement.
