(* ===== verification/Fairness.v ===== *)
(** * Fairness: what is queued is eventually sent

    Infinite executions of the system of [System.v], given by a schedule of
    actions.  A task is ready when the code it stands at can run on: at the
    select that is when the peer's packet can be read or the session's signal
    is raised, elsewhere always.  Under a schedule that does not pass over a
    ready task forever, every frame in the outbox of a served session is handed
    to the transport after finitely many actions, unless the session ends
    first.  The argument is a rank on the phases: each step of a responsible
    task lowers it, sends, or ends the session; when another task takes the
    signal away, that task becomes responsible ([no_lost_wakeup]). *)

From S2P Require Import Prelude External Reference Keyed Topics RateLimit Session Registry.
From S2P Require Import Transport Frame Invariants Retained Router Connect Subscribe Publish.
From S2P Require Import PublishProofs Disconnect Connection System Contract Abstraction Refinement.

Open Scope Z_scope.

Module Fairness.
Import Session Registry Frame Notify Command Publish PublishProofs Connection System Contract Abstraction
  Refinement.

(** The task works for session [j]. *)
Definition serves (j : SessionId) (p : phase) : Prop :=
  match p with
  | PhAck i _ | PhFlush i | PhSend i _ | PhCheck i | PhWait i _ | PhHandle i _ | PhReply i _
  | PhClose i _ | PhWill i _ _ | PhRemove i => i = j
  | _ => False
  end.

(** How far a phase is from looking at the outbox or removing the session. *)
Definition rank (p : phase) : nat :=
  match p with
  | PhCheck _ => 7
  | PhWait _ _ => 6
  | PhHandle _ _ => 5
  | PhReply _ _ | PhSend _ _ | PhAck _ _ => 4
  | PhFlush _ => 3
  | PhClose _ _ => 2
  | PhWill _ _ _ => 1
  | _ => 0
  end.

Section fair.
Context `{Heapless} `{Mqttrs} `{EmbassySignal} `{EmbassyTime} `{CommandHandler C} `{Transport T E}.
Context (MAX_SESSIONS MAX_SUBS MAX_INFLIGHT MAX_RETAINED MAX_PACKET_SIZE : nat).
Context (config : Config.BrokerConfig).
Local Abbreviation sys := (System.sys (C := C) (T := T)).
Local Abbreviation step :=
  (conn_step MAX_SESSIONS MAX_SUBS MAX_INFLIGHT MAX_RETAINED MAX_PACKET_SIZE config).
Local Abbreviation run_action := (exec_action (T := T) MAX_SESSIONS MAX_SUBS MAX_INFLIGHT MAX_RETAINED
  MAX_PACKET_SIZE config).
Local Abbreviation ok := (sys_inv MAX_SESSIONS MAX_SUBS MAX_INFLIGHT MAX_RETAINED).
Local Abbreviation binv := (broker_inv MAX_SUBS MAX_INFLIGHT MAX_SESSIONS MAX_RETAINED).
Local Abbreviation table s := (b_registry (sy_broker s)).
Local Abbreviation event := (event_of MAX_SESSIONS config).

(** ** Schedules *)
Definition ready (s : sys) (k : nat) : Prop :=
  match sy_conns s !! k with
  | None | Some (_, PhDone) | Some (_, PhPanic) => False
  | Some (t, PhConnect) => (read_packet MAX_PACKET_SIZE t).1 ≠ Pending
  | Some (t, PhWait id _) =>
      (read_packet MAX_PACKET_SIZE t).1 ≠ Pending ∨ signaled (b_signals (sy_broker s)) id = true
  | Some _ => True
  end.

(** The state after [n] actions of the schedule. *)
Fixpoint state_at (s : sys) (acts : nat → action T) (n : nat) : sys :=
  match n with
  | O => s
  | S n => run_action (state_at s acts n) (acts n)
  end.

Definition runs (a : action T) (k : nat) : Prop := ∃ i, a = AConn k i.

Definition fair (s : sys) (acts : nat → action T) : Prop :=
  ∀ k n, ready (state_at s acts n) k →
    ∃ m, (n ≤ m)%nat ∧ (runs (acts m) k ∨ ¬ ready (state_at s acts m) k).

(** The events from the [n]-th action on, for [d] actions. *)
Definition between (s : sys) (acts : nat → action T) (n d : nat) : list (abroker * Contract.event) :=
  (λ i, (abs (state_at s acts i), event (state_at s acts i) (acts i))) <$> seq n d.

Definition served (s : sys) (j : SessionId) : Prop :=
  ∃ k t p, sy_conns s !! k = Some (t, p) ∧ serves j p.

(** ** One step of a task that serves [j] *)
Section step.
Context (HP : (5 ≤ MAX_PACKET_SIZE)%nat) (Hcfg : config_wf config).

Local Tactic Notation "lowers" reference(f) :=
  do 2 right; unfold f in *; repeat case_match; simplify_eq/=; try done;
  (split; [done|]); intros; right; lia.

Lemma served_phase_step (b : Broker C) (t : T) p i j k :
  binv b → phase_wf p → input_wf i → serves j p →
  let '(b', _, p') := step b t p i in
  conn_event MAX_SESSIONS config k b p = EvRemove j ∨ j ∈ unacked_by p p' ∨
  serves j p' ∧ (∀ st, get (b_registry b) j = Some st → outbox st ≠ [] →
    (∃ f, conn_event MAX_SESSIONS config k b p = EvSend j f) ∨ (rank p' < rank p)%nat).
Proof using HP Hcfg.
  intros Hb Hp Hi Hs.
  pose proof (conn_step_ok MAX_SESSIONS MAX_SUBS MAX_INFLIGHT MAX_RETAINED MAX_PACKET_SIZE config
    HP Hcfg b t p i Hb Hp Hi) as Hok.
  destruct (step b t p i) as [[b' t'] p'] eqn:Hst. apply so_phase in Hok.
  destruct p as [|c|id present|id|id packet|id|id wait|id packet|id r|id reason|id l ds|id| | |];
    simpl in Hs; try done; subst id; cbn [conn_step] in Hst.
  - unfold Connection.acknowledge in Hst. repeat case_match; simplify_eq/=; [|set_solver].
    right. right. split; [done|]. intros. right. lia.
  - do 2 right. unfold flush_pop in Hst. simpl. destruct (get (b_registry b) j) as [st|] eqn:Hg.
    + destruct (outbox st) as [|f rest] eqn:Ho; simplify_eq/=; (split; [done|]);
        intros st' [= <-] Hne; [done|]. left. rewrite Ho. by eexists.
    + simplify_eq/=. by split.
  - lowers flush_write.
  - lowers check_session.
  - lowers wait_event.
  - lowers handle_packet.
  - lowers write_reply.
  - lowers collect_will.
  - lowers send_will.
  - by left.
Qed.
End step.

(** ** Executions *)
#[local] Instance may_end_dec j cid e : Decision (may_end j cid e).
Proof. destruct e; simpl; apply _. Defined.

#[local] Instance runs_dec (a : action T) k : Decision (runs a k).
Proof.
  destruct a as [t|k' i|publish now]; [right; by intros [? ?]| |right; by intros [? ?]].
  destruct (decide (k' = k)) as [->|Hne]; [left; by exists i|right]. intros [i' [= ? ?]]. done.
Defined.

Section execution.
Context (HP : (5 ≤ MAX_PACKET_SIZE)%nat) (Hcfg : config_wf config).
Context (s : sys) (acts : nat → action T) (j : SessionId) (cid : string).
Context (Hs : ok s) (Hacts : ∀ n, action_wf (acts n)).
Local Abbreviation σ := (state_at s acts).
Local Abbreviation events := (between s acts).

Lemma state_ok n : ok (σ n).
Proof using HP Hcfg Hs Hacts. induction n as [|n IH]; [done|]. simpl. by apply exec_action_ok. Qed.

Lemma events_S n d : events n (S d) = (abs (σ n), event (σ n) (acts n)) :: events (S n) d.
Proof. done. Qed.

Lemma events_app n d e : events n (d + e) = events n d ++ events (n + d) e.
Proof. unfold between. by rewrite seq_app, fmap_app. Qed.

Lemma events_hist n d :
  hist MAX_SUBS MAX_RETAINED (token config) (abs (σ n)) (events n d) (abs (σ (n + d))).
Proof using HP Hcfg Hs Hacts.
  revert n. induction d as [|d IH]; intros n; [rewrite Nat.add_0_r; constructor|].
  rewrite events_S. econstructor.
  - apply exec_action_sim; [done|done|apply state_ok|done].
  - replace (n + S d)%nat with (S n + d)%nat by lia. apply (IH (S n)).
Qed.

(** The session ended, or was orphaned by a CONNACK that could not be written. *)
Definition ended (n d : nat) : Prop :=
  Exists (λ x, may_end j cid x.2) (events n d) ∨ j ∈ sy_unacked (σ (n + d)).

(** The wait is over. *)
Definition over (n d : nat) : Prop := sent j (events n d) ≠ [] ∨ ended n d.

Definition waiting (n : nat) : Prop :=
  ∃ st, get (table (σ n)) j = Some st ∧ client_id st = cid ∧ outbox st ≠ [].

Lemma over_S n d : over (S n) d → over n (S d).
Proof.
  unfold over, ended. rewrite events_S, sent_cons, Exists_cons.
  replace (S n + d)%nat with (n + S d)%nat by lia. intros [Hsent|[?|?]]; [left|auto..].
  intros [_ ?]%app_eq_nil. done.
Qed.

(** Without a send or an end, the queue of the session only grows. *)
Lemma queue_between n d st :
  get (table (σ n)) j = Some st → client_id st = cid →
  Exists (λ x, may_end j cid x.2) (events n d) ∨
  ∃ st' fs, get (table (σ (n + d))) j = Some st' ∧ client_id st' = cid ∧
    (ob_bytes <$> outbox st) ++ fs = sent j (events n d) ++ (ob_bytes <$> outbox st').
Proof using HP Hcfg Hs Hacts.
  intros Hg Hc. destruct (decide (Exists (λ x, may_end j cid x.2) (events n d))) as [|Hne];
    [by left|right].
  destruct (hist_queue _ _ _ _ _ _ j (abs_session (table (σ n)) st) (events_hist n d))
    as (a & fs & Ha & Hca & _ & Hq); [by simpl; rewrite lookup_abs, Hg| |].
  { apply not_Exists_Forall in Hne; [|apply _]. simpl. by rewrite Hc. }
  simpl in Ha. rewrite lookup_abs in Ha. apply fmap_Some in Ha as (st' & Hg' & ->).
  exists st', fs. simpl in *. split; [done|]. split; [congruence|done].
Qed.

Lemma waiting_next n : waiting n → over n 1 ∨ waiting (S n).
Proof using HP Hcfg Hs Hacts.
  intros (st & Hg & Hc & Ho). destruct (queue_between n 1 st Hg Hc) as [He|(st' & fs & Hg' & Hc' & Hq)].
  { left. right. by left. }
  destruct (decide (sent j (events n 1) = [])) as [Hsent|Hsent]; [right|left; by left].
  rewrite Hsent in Hq. exists st'. rewrite Nat.add_1_r in Hg'. split; [done|]. split; [done|].
  intros Ho'. rewrite Ho' in Hq. apply app_eq_nil in Hq as [?%fmap_nil_inv _]. done.
Qed.

Lemma over_unacked n : j ∈ sy_unacked (σ n) → over n 0.
Proof. intros Hu. do 2 right. by rewrite Nat.add_0_r. Qed.

(** A task waiting at the select answers for the session only while the
    signal is raised; when it is not, another task is at work on the session. *)
Definition awake (n : nat) (p : phase) : Prop :=
  match p with PhWait _ _ => signaled (b_signals (sy_broker (σ n))) j = true | _ => True end.

Definition responsible (n k : nat) (p : phase) : Prop :=
  (∃ t, sy_conns (σ n) !! k = Some (t, p)) ∧ serves j p ∧ awake n p.

Lemma responsible_ready n k p : responsible n k p → ready (σ n) k.
Proof.
  intros [[t Hk] [Hsv Haw]]. unfold ready. rewrite Hk.
  destruct p; simpl in *; try done. subst. by right.
Qed.

Lemma find_responsible n k t p :
  waiting n → sy_conns (σ n) !! k = Some (t, p) → serves j p →
  over n 0 ∨ responsible n k p ∨ ∃ k' p', responsible n k' p' ∧ (rank p' < rank p)%nat.
Proof using HP Hcfg Hs Hacts.
  intros (st & Hg & _ & Ho) Hk Hsv.
  assert (awake n p ∨ rank p = 6%nat) as [Haw|Hr] by (destruct p; simpl; auto).
  { right. left. split; [by exists t|done]. }
  destruct (si_wake _ _ _ _ _ (state_ok n) j) as [Hw|[(k' & t' & p' & Hk' & Ha)|Hu]].
  - right. left. split; [by exists t|]. split; [done|]. destruct p; try done. simpl. by apply (Hw st).
  - do 2 right. exists k', p'. split; [split; [by exists t'|]|]; rewrite ?Hr; by destruct p'; simpl in *; try lia.
  - left. by apply over_unacked.
Qed.

(** Two ways a step leaves the session to a responsible task: another task ran,
    or the responsible one did. *)
Lemma others_step n k t p :
  ¬ runs (acts n) k → sy_conns (σ n) !! k = Some (t, p) → sy_conns (σ (S n)) !! k = Some (t, p).
Proof.
  intros Hr Hk. simpl. destruct (acts n) as [t'|k' i|publish now]; simpl; [by apply lookup_app_l_Some| |done].
  assert (k' ≠ k) by (intros ->; apply Hr; by exists i).
  repeat case_match; simplify_eq/=; [by rewrite list_lookup_insert_ne|done].
Qed.

Lemma serve_step n k i t p :
  acts n = AConn k i → sy_conns (σ n) !! k = Some (t, p) → serves j p →
  ended n 1 ∨ ∃ t' p', sy_conns (σ (S n)) !! k = Some (t', p') ∧ serves j p' ∧
    (waiting n → sent j (events n 1) ≠ [] ∨ (rank p' < rank p)%nat).
Proof using HP Hcfg Hs Hacts.
  intros Hi Hk Hsv. pose proof (state_ok n) as Hok.
  pose proof (Hacts n) as Hin. rewrite Hi in Hin.
  pose proof (served_phase_step HP Hcfg (sy_broker (σ n)) t p i j k (si_broker _ _ _ _ _ Hok)
    (si_phases _ _ _ _ _ Hok _ _ _ Hk) Hin Hsv) as Hstep.
  unfold ended. rewrite events_S, sent_cons, Exists_cons, Nat.add_1_r. simpl.
  rewrite Hi. simpl. rewrite Hk. destruct (step _ t p i) as [[b' t'] p'] eqn:Heq. simpl.
  destruct Hstep as [->|[Hu|[Hsv' Hr]]]; [left; left; by left|left; right; set_solver|].
  right. exists t', p'. rewrite list_lookup_insert_eq by (by eapply lookup_lt_Some).
  split_and!; [done|done|]. intros (st & Hg & _ & Ho).
  destruct (Hr st Hg Ho) as [[f ->]|Hlt]; [left; simpl; by rewrite decide_True|by right].
Qed.

(** ** Something happens *)
Definition resolves (n r : nat) : Prop :=
  ∀ k p, (rank p < r)%nat → responsible n k p → waiting n → ∃ d, over n d.

Lemma hand_over r n k t p :
  resolves (S n) r → waiting n → sy_conns (σ (S n)) !! k = Some (t, p) → serves j p →
  (rank p ≤ r)%nat → (∃ d, over n d) ∨ responsible (S n) k p ∧ waiting (S n).
Proof using HP Hcfg Hs Hacts.
  intros Hres Hw Hk Hsv Hr. destruct (waiting_next n Hw) as [?|Hw']; [left; by exists 1%nat|].
  destruct (find_responsible (S n) k t p Hw' Hk Hsv) as [?|[?|(k' & p' & Hresp & Hlt)]]; [| |].
  - left. exists 1%nat. by apply over_S.
  - by right.
  - left. destruct (Hres k' p') as [d ?]; [lia|done|done|]. exists (S d). by apply over_S.
Qed.

Lemma unacked_next n : j ∈ sy_unacked (σ n) → j ∈ sy_unacked (σ (S n)).
Proof.
  intros Hu. simpl. destruct (acts n); simpl; repeat case_match; simplify_eq/=; set_solver.
Qed.

Lemma ended_app n d e : ended n d ∨ ended (n + d) e → ended n (d + e).
Proof.
  unfold ended. rewrite events_app, Exists_app, Nat.add_assoc. intros [[?|Hu]|[?|?]]; auto.
  right. induction e as [|e IH]; [by rewrite Nat.add_0_r|].
  rewrite Nat.add_succ_r. by apply unacked_next.
Qed.

Lemma served_next n : served (σ n) j → ended n 1 ∨ served (σ (S n)) j.
Proof using HP Hcfg Hs Hacts.
  intros (k & t & p & Hk & Hsv). destruct (decide (runs (acts n) k)) as [[i Hi]|Hrun].
  - destruct (serve_step n k i t p Hi Hk Hsv) as [?|(t' & p' & ? & ? & _)]; [by left|right].
    by exists k, t', p'.
  - right. exists k, t, p. by rewrite (others_step n k t p).
Qed.

Lemma served_between n d : served (σ n) j → ended n d ∨ served (σ (n + d)) j.
Proof using HP Hcfg Hs Hacts.
  intros Hsv. induction d as [|d IH]; [rewrite Nat.add_0_r; by right|].
  rewrite <-Nat.add_1_r. destruct IH as [He|Hd]; [left; apply ended_app; by left|].
  destruct (served_next _ Hd) as [He|?]; [left; apply ended_app; by right|].
  right. by rewrite Nat.add_assoc, Nat.add_1_r.
Qed.

Context (Hfair : fair s acts).

Lemma progress r : ∀ n, resolves n r.
Proof using HP Hcfg Hs Hacts Hfair.
  induction r as [|r IH]; intros n k p Hr Hresp; [lia|].
  destruct (Hfair k n (responsible_ready n k p Hresp)) as (m & Hle & Hm).
  remember (m - n)%nat as e eqn:He. revert n Hle He Hresp.
  induction e as [|e IHe]; intros n Hle He Hresp Hw;
    (destruct (decide (runs (acts n) k)) as [Hrun|Hrun];
     [destruct Hrun as [i Hi], Hresp as [[t Hk] [Hsv _]];
      destruct (serve_step n k i t p Hi Hk Hsv) as [?|(t' & p' & Hk' & Hsv' & Hlt)];
      [exists 1%nat; by right|]; destruct (Hlt Hw) as [?|?]; [exists 1%nat; by left|];
      destruct (hand_over r n k t' p' (IH (S n)) Hw Hk' Hsv') as [?|[Hresp' Hw']]; [lia|done|];
      destruct (IH (S n) k p') as [d ?]; [lia|done|done|]; exists (S d); by apply over_S|]).
  - replace m with n in Hm by lia. destruct Hm as [?|[]]; [done|by eapply responsible_ready].
  - pose proof Hresp as [[t Hk] [Hsv _]]. apply (others_step n k t p Hrun) in Hk.
    destruct (hand_over r n k t p (IH (S n)) Hw Hk Hsv) as [?|[Hresp' Hw']]; [lia|done|].
    destruct (IHe (S n)) as [d ?]; [lia|lia|done|done|]. exists (S d). by apply over_S.
Qed.

Lemma over_soon n : waiting n → served (σ n) j → ∃ d, over n d.
Proof using HP Hcfg Hs Hacts Hfair.
  intros Hw (k & t & p & Hk & Hp).
  destruct (find_responsible n k t p Hw Hk Hp) as [?|[?|(k' & p' & ? & _)]]; [by exists 0%nat| |].
  - by apply (progress (S (rank p)) n k p); [lia|..].
  - by apply (progress (S (rank p')) n k' p'); [lia|..].
Qed.

(** ** The whole queue *)
Lemma sent_app h h' : sent j (h ++ h') = sent j h ++ sent j h'.
Proof. induction h as [|[a e] h IH]; [done|]. cbn [app]. by rewrite !sent_cons, IH, (assoc_L (++)). Qed.

Lemma frames_sent fs n st rest :
  get (table (σ n)) j = Some st → client_id st = cid → served (σ n) j →
  ob_bytes <$> outbox st = fs ++ rest →
  ∃ d, fs `prefix_of` sent j (events n d) ∨ ended n d.
Proof using HP Hcfg Hs Hacts Hfair.
  remember (length fs) as L eqn:HL. revert fs n st rest HL.
  induction (lt_wf L) as [L _ IH]. intros fs n st rest -> Hg Hc Hsv Hfs.
  destruct (decide (fs = [])) as [->|Hne]; [exists 0%nat; left; apply prefix_nil|].
  assert (waiting n) as Hw.
  { exists st. split_and!; [done|done|]. intros Ho. rewrite Ho in Hfs. by destruct fs. }
  destruct (over_soon n Hw Hsv) as [d [Hsent|?]]; [|exists d; by right].
  destruct (queue_between n d st Hg Hc) as [?|(st' & gs & Hg' & Hc' & Hq)]; [exists d; right; by left|].
  destruct (served_between n d Hsv) as [?|Hsv']; [exists d; by right|].
  rewrite Hfs, <-(assoc_L (++)) in Hq.
  apply app_eq_inv in Hq as [(fs' & -> & Hq)|(fs' & Heq & _)];
    [|exists d; left; rewrite Heq; by apply prefix_app_r].
  assert (length fs' < length (sent j (events n d) ++ fs'))%nat as Hlt.
  { rewrite length_app. destruct (sent j (events n d)); [done|simpl; lia]. }
  destruct (IH _ Hlt fs' _ st' (rest ++ gs) eq_refl Hg' Hc' Hsv') as [e He]; [done|].
  exists (d + e)%nat. destruct He as [He|He]; [left|right; apply ended_app; by right].
  rewrite events_app, sent_app. by apply prefix_app.
Qed.
End execution.


Lemma abs_lookup (s : sys) j : ab_sessions (abs s) !! j = abs_session (table s) <$> get (table s) j.
Proof. apply lookup_abs. Qed.

End fair.

Abbreviation ex_state := (state_at 2 4 2 4 512 ex_config ex_sys (λ _, AConn 0 ex_input)).

Lemma ex_one_task n : ∃ x, sy_conns (ex_state n) = [x].
Proof.
  induction n as [|n [[t p] IH]]; [eexists; vm_compute; reflexivity|].
  cbn [state_at exec_action]. rewrite IH. simpl.
  destruct (conn_step _ _ _ _ _ _ _ _ _ _) as [[b' t'] p']. by eexists.
Qed.

(** A subscriber of ["a/#"] waits; the firmware publishes to ["a/b"], then only
    the subscriber's task runs. *)
Definition ex_before : System.sys := ex_exec (sys_init 2 2 ex_handler)
  (AAccept (peer [Some (enc (ex_connect "sub" true)); Some (enc (ex_subscribe "a/#"))]) :: go 0 9).
Definition ex_news : MqttPublish :=
  {| mp_topic := "a/b"; mp_payload := [7]; mp_qos := AtLeastOnce; mp_retain := false |}.
Definition ex_schedule (n : nat) : action Script :=
  match n with O => AOutbound ex_news 9 | S _ => AConn 0 ex_input end.
Definition ex_listener : SessionState :=
  default (Session.new "" 0) (get (b_registry (sy_broker ex_before)) 0).

Lemma ex_before_reachable : reachable 2 4 2 4 512 ex_config ex_handler ex_before.
Proof.
  apply exec_reachable; [apply rtc_refl|]. constructor; [done|apply go_wf].
Qed.

Lemma ex_schedule_wf n : action_wf (ex_schedule n).
Proof. destruct n; [done|]. split; split; vm_compute; discriminate. Qed.

Lemma ex_schedule_one_task n :
  ∃ x, sy_conns (state_at 2 4 2 4 512 ex_config ex_before ex_schedule n) = [x].
Proof.
  induction n as [|n [[t p] IH]]; [eexists; vm_compute; reflexivity|].
  cbn [state_at]. destruct n as [|n]; [eexists; vm_compute; reflexivity|].
  cbn [ex_schedule exec_action]. rewrite IH. simpl.
  destruct (conn_step _ _ _ _ _ _ _ _ _ _) as [[b' t'] p']. by eexists.
Qed.

Lemma ex_schedule_fair : fair 2 4 2 4 512 ex_config ex_before ex_schedule.
Proof.
  intros k n Hk. exists (S n). split; [lia|]. left. exists ex_input. simpl. f_equal.
  unfold ready in Hk. destruct (ex_schedule_one_task n) as [x Hx]. rewrite Hx in Hk. by destruct k.
Qed.

Lemma ex_news_framed pid :
  1 ≤ pid ≤ U16_MAX → is_Some (frame_of (outbound_message ex_news) AtLeastOnce pid).
Proof.
  intros Hpid. unfold frame_of, encode_publish. simpl. rewrite decide_False by lia. simpl. by eexists.
Qed.

Lemma ex_listener_subs :
  as_subs (abs_session (b_registry (sy_broker ex_before)) ex_listener) = {["a/#" := AtLeastOnce]}.
Proof. vm_compute. reflexivity. Qed.

Lemma ex_listener_receives q :
  receives "a/b" (as_subs (abs_session (b_registry (sy_broker ex_before)) ex_listener)) q ↔
  q = AtLeastOnce.
Proof.
  rewrite ex_listener_subs. split.
  - intros [(f & [_ Hq]%lookup_singleton_Some & _) _]. done.
  - intros ->. split.
    + exists "a/#". split; [apply lookup_singleton_eq|vm_compute; reflexivity].
    + intros f q' [_ <-]%lookup_singleton_Some _. lia.
Qed.

Lemma ex_listener_not_passed_over :
  ¬ passed_over (abs ex_before) None (outbound_message ex_news)
      (abs_session (b_registry (sy_broker ex_before)) ex_listener).
Proof.
  intros [Hfull|(j & s & q & Hj & _ & Hq & pid & Hpid & Hfr)].
  - vm_compute in Hfull. lia.
  - rewrite abs_lookup in Hj. apply fmap_Some in Hj as (st & Hg & ->).
    assert (st = ex_listener) as ->.
    { destruct j as [|[|j]]; vm_compute in Hg; [by injection Hg|done|done]. }
    apply ex_listener_receives in Hq as ->.
    destruct (ex_news_framed pid) as [fr Hfr']; [by apply Hpid|congruence].
Qed.

End Fairness.
