(* ===== verification/Settlement.v ===== *)
(** * Settlement: no QoS 1 delivery stays in flight forever

    Infinite executions as in [Fairness.v], now with time: the tasks of a
    session keep running (the select has a timer), its flushes end, and every
    retry timer runs out.  A delivery whose client stays silent is then sent
    again until the limit, the task gives up and removes the session; so every
    delivery in flight on a served session is settled after finitely many
    actions.  The argument is a rank on the phases between two checks of the
    in-flight table, inside an induction on the retries that are left. *)

From S2P Require Import Prelude External Reference Keyed Topics RateLimit Session Registry.
From S2P Require Import Transport Frame Invariants Retained Router Connect Subscribe Publish.
From S2P Require Import PublishProofs Disconnect Connection System Lifetimes Refinement Fairness.

Open Scope Z_scope.

Module Settlement.
Import Topics Session Registry Frame Notify Invariants Retained Router Command Publish PublishProofs
  Disconnect Connection System Lifetimes.
Import Fairness (serves, served, state_at, runs, runs_dec, state_ok, others_step).

(** ** Retries

    A pass that succeeds has counted every entry that was due. *)
Section retries.
Context `{Heapless} `{Mqttrs} `{EmbassySignal} `{EmbassyTime} `{Transport T E}.
Context (MAX_PACKET_SIZE : nat) (id : SessionId) (timeout : Duration) (limit : Z) (now : Instant).
Local Abbreviation one := (retry_one MAX_PACKET_SIZE id timeout limit now).
Local Abbreviation all := (retry_all MAX_PACKET_SIZE id timeout limit now).

(** The retry of one entry leaves the others where they are. *)
Lemma retry_one_other reg (t : T) i st :
  get reg id = Some st →
  ∃ st', get (one reg t i).1.2 id = Some st' ∧ client_id st' = client_id st ∧
    ∀ i', i' ≠ i → inflight st' !! i' = inflight st !! i'.
Proof.
  intros Hg. unfold retry_one. rewrite Hg.
  destruct (inflight st !! i) as [e|] eqn:Hi; [|by eauto].
  destruct (entry_expired now timeout e); [|by eauto]. cbv zeta.
  set (n := saturating_add U8_MAX (ie_retries e) 1).
  set (st1 := set_inflight st (<[i := set_retries e n]> (inflight st))).
  assert (get (put_entry id reg st i (set_retries e n)) id = Some st1) as Hg1
    by (by eapply get_put_eq).
  assert (∀ i', i' ≠ i → inflight st1 !! i' = inflight st !! i') as Ho
    by (intros; by apply list_lookup_insert_ne).
  case_decide; [by eauto|]. destruct (resend _ _ _ _ _) as [[[]|err] t1]; [|by eauto].
  rewrite Hg1. destruct (inflight st1 !! i) as [e1|]; [|by eauto].
  case_decide; [|by eauto]. eexists. split; [by eapply get_put_eq|]. split; [done|].
  intros i' Hne. cbn [inflight set_inflight]. rewrite list_lookup_insert_ne by done. by apply Ho.
Qed.

Lemma retry_one_counts reg (t : T) i st e reg' t' :
  get reg id = Some st → inflight st !! i = Some e → entry_expired now timeout e = true →
  one reg t i = (Ok tt, reg', t') →
  saturating_add U8_MAX (ie_retries e) 1 ≤ limit ∧
  ∃ st' e', get reg' id = Some st' ∧ client_id st' = client_id st ∧ e' ∈ inflight st' ∧
    ie_packet_id e' = ie_packet_id e ∧ ie_publish e' = ie_publish e ∧
    ie_retries e' = saturating_add U8_MAX (ie_retries e) 1.
Proof.
  intros Hg Hi He. unfold retry_one. rewrite Hg, Hi, He. cbv zeta.
  set (n := saturating_add U8_MAX (ie_retries e) 1). case_decide; [intros [=]|].
  destruct (resend _ _ _ _ _) as [[[]|err] t1]; [|intros [=]].
  assert (get (put_entry id reg st i (set_retries e n)) id =
    Some (set_inflight st (<[i := set_retries e n]> (inflight st)))) as Hg1
    by (by eapply get_put_eq).
  rewrite Hg1. cbn [inflight set_inflight].
  rewrite list_lookup_insert_eq by (by eapply lookup_lt_Some). rewrite decide_True by done.
  intros [= <- <-]. split; [lia|].
  eexists _, (set_retries (set_sent_at (set_retries e n) now) n).
  split; [by eapply get_put_eq|]. split; [done|]. cbn [inflight set_inflight].
  rewrite list_insert_insert_eq. split; [|split_and!; reflexivity].
  eapply list_elem_of_lookup_2, list_lookup_insert_eq. by eapply lookup_lt_Some.
Qed.

(** The counter is a u8: a limit of 255 is never exceeded, and the task never
    gives up. *)
Lemma limit_255_never_exceeded reg (t : T) i pid n :
  U8_MAX ≤ limit → (one reg t i).1.1 ≠ Err (MaxRetriesExceeded pid n).
Proof.
  intros Hlim. unfold retry_one, resend, write_packet, map_err.
  assert (∀ e, ¬ limit < saturating_add U8_MAX (ie_retries e) 1) as Hn
    by (intros e; unfold saturating_add; lia).
  repeat case_match; simplify_eq/=; try done; by destruct (Hn i0).
Qed.

Context (MAX_SUBS MAX_INFLIGHT MAX_SESSIONS : nat).
Local Abbreviation inv := (reg_inv MAX_SUBS MAX_INFLIGHT MAX_SESSIONS no_extra).

Lemma more_retried r e e' :
  r < U8_MAX → retried limit e e' → r < ie_retries e → r < ie_retries e'.
Proof. intros Hr He Hlt. destruct He; simpl; unfold saturating_add; lia. Qed.

Lemma retry_all_counts indices reg (t : T) i st e m reg' t' :
  inv reg → limit < U8_MAX → get reg id = Some st → NoDup indices → i ∈ indices →
  inflight st !! i = Some e → entry_expired now timeout e = true →
  contents reg (ie_publish e) = Some m → all reg t indices = (Ok tt, reg', t') →
  ie_retries e < limit ∧
  in_flight_with (λ e', ie_retries e < ie_retries e') reg' id (client_id st) (ie_packet_id e)
    (ie_publish e) m.
Proof.
  intros Hinv Hlim. revert reg t st Hinv. induction indices as [|a indices IH];
    intros reg t st Hinv Hg Hnd Hin Hi He Hm Hall; [by apply not_elem_of_nil in Hin|].
  cbn [retry_all] in Hall. apply NoDup_cons in Hnd as [Ha Hnd].
  pose proof (retry_one_spec MAX_SUBS MAX_INFLIGHT MAX_SESSIONS MAX_PACKET_SIZE id timeout limit now
    reg t a Hinv) as Hs.
  pose proof (gr_store _ _ _ (retry_one_grows limit MAX_PACKET_SIZE id timeout now reg t a)) as Hle.
  pose proof (retry_one_other reg t a st Hg) as (st1 & Hg1 & Hc1 & Ho).
  destruct (one reg t a) as [[[[]|err] reg1] t1] eqn:Hone; [|done].
  destruct Hs as (Hinv1 & _ & _). simpl in Hle, Hg1.
  apply elem_of_cons in Hin as [<-|Hin].
  - destruct (retry_one_counts reg t i st e reg1 t1 Hg Hi He Hone)
      as (Hn & st2 & e2 & Hg2 & Hc2 & He2 & Hp2 & Hh2 & Hr2).
    unfold saturating_add in *. assert (ie_retries e < U8_MAX) as Hu by lia. split; [lia|].
    pose proof (retry_all_kept limit MAX_SUBS MAX_INFLIGHT MAX_SESSIONS
      (λ e', ie_retries e < ie_retries e') (λ e1 e2, more_retried _ e1 e2 Hu)
      MAX_PACKET_SIZE id timeout now indices reg1 t1 Hinv1) as Hk.
    rewrite Hall in Hk. apply Hk. exists st2, e2. split_and!; try done; [|lia].
    by eapply contents_kept.
  - assert (a ≠ i) by congruence. rewrite <-Hc1. rewrite <-Ho in Hi by done.
    eapply (IH reg1 t1 st1); try done. eapply contents_kept; try done. by eapply list_elem_of_lookup_2.
Qed.
End retries.

(** ** From one check to the next *)
Definition flushing (j : SessionId) (p : phase) : Prop :=
  match p with PhFlush i | PhSend i _ => i = j | _ => False end.

#[local] Instance flushing_dec j p : Decision (flushing j p).
Proof. destruct p; simpl; apply _. Defined.

(** How far a phase is from the check or, behind it, from the removal. *)
Definition distance (p : phase) : nat :=
  match p with
  | PhWait _ _ => 7
  | PhHandle _ _ => 6
  | PhReply _ _ | PhAck _ _ => 5
  | PhFlush _ | PhSend _ _ => 4
  | PhCheck _ => 3
  | PhClose _ _ => 2
  | PhWill _ _ _ => 1
  | _ => 0
  end.

Section settle.
Context `{Heapless} `{Mqttrs} `{EmbassySignal} `{EmbassyTime} `{CommandHandler C} `{Transport T E}.
Context (MAX_SESSIONS MAX_SUBS MAX_INFLIGHT MAX_RETAINED MAX_PACKET_SIZE : nat).
Context (config : Config.BrokerConfig).
Local Abbreviation sys := (System.sys (C := C) (T := T)).
Local Abbreviation step :=
  (conn_step MAX_SESSIONS MAX_SUBS MAX_INFLIGHT MAX_RETAINED MAX_PACKET_SIZE config).
Local Abbreviation ok := (sys_inv MAX_SESSIONS MAX_SUBS MAX_INFLIGHT MAX_RETAINED).
Local Abbreviation binv := (broker_inv MAX_SUBS MAX_INFLIGHT MAX_SESSIONS MAX_RETAINED).
Local Abbreviation table s := (b_registry (sy_broker s)).
Local Abbreviation limit := (Config.qos1_max_retries config).
Local Abbreviation timeout := (duration_from_millis (Config.qos1_retry_ms config)).
Local Abbreviation state := (state_at MAX_SESSIONS MAX_SUBS MAX_INFLIGHT MAX_RETAINED MAX_PACKET_SIZE config).

Section task.
Context (HP : (5 ≤ MAX_PACKET_SIZE)%nat) (Hcfg : config_wf config).

Local Tactic Notation "nearer" reference(f) :=
  do 2 right; unfold f in *; repeat case_match; simplify_eq/=; try done;
  (split; [done|]); first [by left | right; left; lia | by do 2 right].

Lemma serve_nearer (b : Broker C) (t : T) p i j :
  binv b → phase_wf p → input_wf i → serves j p →
  let '(b', _, p') := step b t p i in
  get (b_registry b') j = None ∨ j ∈ unacked_by p p' ∨
  serves j p' ∧
    (p = PhCheck j ∨ (distance p' < distance p)%nat ∨ flushing j p ∧ flushing j p').
Proof using HP Hcfg.
  intros Hb Hp Hi Hs.
  pose proof (conn_step_ok MAX_SESSIONS MAX_SUBS MAX_INFLIGHT MAX_RETAINED MAX_PACKET_SIZE config
    HP Hcfg b t p i Hb Hp Hi) as Hok.
  destruct (step b t p i) as [[b' t'] p'] eqn:Hst. apply so_phase in Hok.
  destruct p as [|c|id present|id|id packet|id|id wait|id packet|id r|id reason|id l ds|id| | |];
    simpl in Hs; try done; subst id; cbn [conn_step] in Hst.
  - unfold Connection.acknowledge in Hst. repeat case_match; simplify_eq/=; [|set_solver].
    right. right. split; [done|]. right. left. lia.
  - nearer flush_pop.
  - nearer flush_write.
  - nearer check_session.
  - nearer wait_event.
  - nearer handle_packet.
  - nearer write_reply.
  - nearer collect_will.
  - nearer send_will.
  - left. unfold remove_session in Hst. pose proof (get_remove (b_registry b) j j) as Hr.
    destruct (remove (b_registry b) j) as [o reg]. simplify_eq/=. by rewrite decide_True in Hr.
Qed.

(** The check: an entry that is due is counted, or the task gives up. *)
Lemma check_counts (b : Broker C) (t : T) i j st e m :
  binv b → input_wf i → limit < U8_MAX → get (b_registry b) j = Some st → e ∈ inflight st →
  entry_expired (in_now i) timeout e = true → contents (b_registry b) (ie_publish e) = Some m →
  let '(b', _, p') := step b t (PhCheck j) i in
  (∃ r, p' = PhClose j r) ∨
  (∃ w, p' = PhWait j w) ∧ ie_retries e < limit ∧
    in_flight_with (λ e', ie_retries e < ie_retries e') (b_registry b') j (client_id st)
      (ie_packet_id e) (ie_publish e) m.
Proof using HP Hcfg.
  intros Hb Hi Hlim Hg [x Hx]%list_elem_of_lookup He Hm.
  pose proof (conn_step_ok MAX_SESSIONS MAX_SUBS MAX_INFLIGHT MAX_RETAINED MAX_PACKET_SIZE config
    HP Hcfg b t (PhCheck j) i Hb I Hi) as Hok.
  destruct (step b t (PhCheck j) i) as [[b' t'] p'] eqn:Hst. apply so_phase in Hok.
  cbn [conn_step] in Hst. unfold check_session in Hst. rewrite Hg in Hst. simpl in Hst.
  destruct (quarantined st); [simplify_eq; left; by eexists|].
  unfold process_inflight_retries_at in Hst. rewrite Hg in Hst.
  destruct (retry_all _ _ _ _ _ _ _ _) as [[[[]|err] reg] t1] eqn:Hall;
    [|simplify_eq; left; by eexists].
  destruct (retry_all_counts MAX_PACKET_SIZE j timeout limit (in_now i) MAX_SUBS MAX_INFLIGHT
    MAX_SESSIONS (seq 0 (length (inflight st))) (b_registry b) t x st e m reg t1) as [Hr Hf];
    try done; [apply Hb|apply NoDup_seq|apply elem_of_seq; apply lookup_lt_Some in Hx; lia|].
  destruct (get reg j) as [s'|]; [|simplify_eq; left; by eexists].
  destruct (is_keepalive_expired s' (in_now2 i)); [simplify_eq; left; by eexists|].
  case_decide; simplify_eq; [|done]. right. split; [by eexists|]. done.
Qed.
End task.

(** ** Executions

    What the environment contributes: every task of the session runs again (a
    task at the select is woken by its timer), a flush ends (the outbox is not
    refilled forever), and the clock passes every retry timer. *)
Definition keeps_running (s : sys) (acts : nat → action T) (j : SessionId) : Prop :=
  ∀ n k t p, sy_conns (state s acts n) !! k = Some (t, p) → serves j p →
    ∃ m, (n ≤ m)%nat ∧ runs (acts m) k.

Definition flushes_end (s : sys) (acts : nat → action T) (j : SessionId) : Prop :=
  ∀ n k t p, sy_conns (state s acts n) !! k = Some (t, p) → flushing j p →
    ∃ m t' p', (n ≤ m)%nat ∧ sy_conns (state s acts m) !! k = Some (t', p') ∧ ¬ flushing j p'.

Definition timers_run_out (s : sys) (acts : nat → action T) (j : SessionId) : Prop :=
  ∀ n st e, get (table (state s acts n)) j = Some st → e ∈ inflight st →
    ∃ N, ∀ m k i, (N ≤ m)%nat → acts m = AConn k i → entry_expired (in_now i) timeout e = true.

(** The [n]-th action settles the delivery. *)
Definition settled (s : sys) (acts : nat → action T) (j : SessionId) (cid : string) (pid : Z)
  (h : StoredPublishHandle) (m : string * list Z * bool) (n : nat) : Prop :=
  in_flight (table (state s acts n)) j cid pid h m ∧
  ∃ k i t p, acts n = AConn k i ∧ sy_conns (state s acts n) !! k = Some (t, p) ∧
    settles config j cid pid p.

Section execution.
Context (HP : (5 ≤ MAX_PACKET_SIZE)%nat) (Hcfg : config_wf config).
Context (s : sys) (acts : nat → action T) (j : SessionId) (cid : string) (pid : Z).
Context (h : StoredPublishHandle) (m : string * list Z * bool).
Context (Hs : ok s) (Hacts : ∀ n, action_wf (acts n)).
Local Abbreviation σ := (state s acts).
Local Abbreviation flying Q n := (in_flight_with Q (table (σ n)) j cid pid h m).
Local Abbreviation settled_at := (settled s acts j cid pid h m).
Local Abbreviation state_ok := (state_ok MAX_SESSIONS MAX_SUBS MAX_INFLIGHT MAX_RETAINED
  MAX_PACKET_SIZE config HP Hcfg s acts Hs Hacts).

Definition ends (n : nat) : Prop := ∃ d, (n ≤ d)%nat ∧ (settled_at d ∨ j ∈ sy_unacked (σ d)).

Lemma ends_later n n' : (n ≤ n')%nat → ends n' → ends n.
Proof. intros Hle (d & ? & ?). exists d. split; [lia|done]. Qed.

Lemma ends_settled n : settled_at n → ends n.
Proof. intros. exists n. auto. Qed.

(** The delivery is in flight, its entry satisfies [Q], and task [k] serves the
    session. *)
Definition held (Q : InflightEntry → Prop) (n k : nat) (p : phase) : Prop :=
  flying Q n ∧ (∃ t, sy_conns (σ n) !! k = Some (t, p)) ∧ serves j p.

Section kept.
Context (Q : InflightEntry → Prop) (HQ : ∀ e e', retried limit e e' → Q e → Q e').

Lemma flying_next n : flying Q n → settled_at n ∨ flying Q (S n).
Proof using HP Hcfg Hs Hacts HQ.
  intros Hf. pose proof (state_ok n) as [Hb Hph _]. pose proof (Hacts n) as Hin.
  unfold settled. simpl. destruct (acts n) as [t|k i|publish now] eqn:Ha; simpl; [by right| |].
  - destruct (sy_conns (σ n) !! k) as [[t p]|] eqn:Hk; [|by right].
    destruct (decide (settles config j cid pid p)) as [Hset|Hset].
    { left. split; [|by exists k, i, t, p].
      destruct Hf as (st & e & ? & ? & ? & ? & ? & ? & _). by exists st, e. }
    right. pose proof (conn_step_kept limit MAX_SUBS MAX_INFLIGHT MAX_SESSIONS MAX_RETAINED Q HQ
      MAX_PACKET_SIZE config HP Hcfg eq_refl _ t p i j cid pid h m Hb (Hph _ _ _ Hk) Hin Hset Hf) as Hk'.
    by destruct (step _ t p i) as [[b' t'] p'].
  - right. by apply (process_outbound_kept limit MAX_SUBS MAX_INFLIGHT MAX_SESSIONS MAX_RETAINED Q HQ).
Qed.

Lemma held_other n k p : ¬ runs (acts n) k → held Q n k p → ends n ∨ held Q (S n) k p.
Proof using HP Hcfg Hs Hacts HQ.
  intros Hr (Hf & [t Hk] & Hsv). destruct (flying_next n Hf) as [?|?]; [left; by apply ends_settled|].
  right. split; [done|]. split; [|done]. exists t. by apply others_step.
Qed.

Lemma held_run n k i p :
  acts n = AConn k i → held Q n k p →
  ends n ∨ ∃ p', held Q (S n) k p' ∧
    (p = PhCheck j ∨ (distance p' < distance p)%nat ∨ flushing j p ∧ flushing j p').
Proof using HP Hcfg Hs Hacts HQ.
  intros Ha (Hf & [t Hk] & Hsv). destruct (flying_next n Hf) as [?|Hf']; [left; by apply ends_settled|].
  pose proof (state_ok n) as Hok. pose proof (Hacts n) as Hin. rewrite Ha in Hin.
  pose proof (serve_nearer HP Hcfg (sy_broker (σ n)) t p i j (si_broker _ _ _ _ _ Hok)
    (si_phases _ _ _ _ _ Hok _ _ _ Hk) Hin Hsv) as Hn.
  assert (σ (S n) = exec_action MAX_SESSIONS MAX_SUBS MAX_INFLIGHT MAX_RETAINED MAX_PACKET_SIZE
    config (σ n) (AConn k i)) as Heq by (simpl; by rewrite Ha).
  cbn [exec_action] in Heq. rewrite Hk in Heq.
  destruct (step _ t p i) as [[b' t'] p']. destruct Hn as [Hn|[Hu|[Hsv' Hd]]].
  - rewrite Heq in Hf'. destruct Hf' as (st & _ & Hg & _). simpl in Hg. congruence.
  - left. exists (S n). split; [lia|]. right. rewrite Heq. simpl. set_solver.
  - right. exists p'. split; [|done]. split; [done|]. split; [|done]. exists t'. rewrite Heq. simpl.
    apply list_lookup_insert_eq. by eapply lookup_lt_Some.
Qed.

Context (Hrun : keeps_running s acts j) (Hflush : flushes_end s acts j).

Lemma next_run n k p :
  held Q n k p → ends n ∨ ∃ n' i, (n ≤ n')%nat ∧ acts n' = AConn k i ∧ held Q n' k p.
Proof using HP Hcfg Hs Hacts HQ Hrun.
  intros Hh. pose proof Hh as (_ & [t Hk] & Hsv). destruct (Hrun n k t p Hk Hsv) as (d & Hle & Hd).
  clear t Hk Hsv. remember (d - n)%nat as x eqn:Hx. revert n Hle Hx Hh.
  induction x as [|x IH]; intros n Hle Hx Hh;
    (destruct (runs_dec (acts n) k) as [[i Hi]|Hr]; [right; exists n, i; split_and!; [lia|done..]|]).
  - by replace d with n in Hd by lia.
  - destruct (held_other n k p Hr Hh) as [?|Hh']; [by left|].
    destruct (IH (S n)) as [He|(n' & i & ? & ? & ?)]; [lia|lia|done|left|right].
    + eapply ends_later; [|done]. lia.
    + exists n', i. split_and!; [lia|done..].
Qed.

Lemma held_next n k p :
  held Q n k p → ends n ∨ ∃ p', held Q (S n) k p'.
Proof using HP Hcfg Hs Hacts HQ.
  intros Hh. destruct (runs_dec (acts n) k) as [[i Hi]|Hr].
  - destruct (held_run n k i p Hi Hh) as [?|(p' & ? & _)]; [by left|right; by exists p'].
  - destruct (held_other n k p Hr Hh) as [?|?]; [by left|right; by exists p].
Qed.

Lemma held_later d n k p : held Q n k p → ends n ∨ ∃ p', held Q (n + d) k p'.
Proof using HP Hcfg Hs Hacts HQ.
  revert n p. induction d as [|d IH]; intros n p Hh; [rewrite Nat.add_0_r; eauto|].
  destruct (held_next n k p Hh) as [?|[p' Hh']]; [by left|]. rewrite Nat.add_succ_r.
  destruct (IH (S n) p' Hh') as [He|?]; [left|by right]. eapply ends_later; [|done]. lia.
Qed.

Lemma leave_flush x n k p :
  held Q n k p → flushing j p →
  (∃ t' p', sy_conns (σ (n + x)) !! k = Some (t', p') ∧ ¬ flushing j p') →
  ends n ∨ ∃ n' p', (n ≤ n')%nat ∧ held Q n' k p' ∧ (distance p' < 4)%nat.
Proof using HP Hcfg Hs Hacts HQ.
  revert n p. induction x as [|x IH]; intros n p Hh Hp Hx.
  { destruct Hh as (_ & [t Hk] & _), Hx as (t' & p' & Hk' & Hn). rewrite Nat.add_0_r in Hk'. congruence. }
  assert (∀ p', held Q (S n) k p' → flushing j p' →
    ends n ∨ ∃ n' p', (n ≤ n')%nat ∧ held Q n' k p' ∧ (distance p' < 4)%nat) as Hagain.
  { intros p' Hh' Hp'. rewrite Nat.add_succ_r in Hx.
    destruct (IH (S n) p' Hh' Hp' Hx) as [He|(n' & p2 & ? & ?)]; [left|right].
    - eapply ends_later; [|done]. lia.
    - exists n', p2. split; [lia|done]. }
  destruct (runs_dec (acts n) k) as [[i Hi]|Hr].
  - destruct (held_run n k i p Hi Hh) as [?|(p' & Hh' & [->|[Hd|[_ Hp']]])]; [by left|done| |by apply (Hagain p')].
    right. exists (S n), p'. split_and!; [lia|done|]. destruct p; simpl in *; try done; lia.
  - destruct (held_other n k p Hr Hh) as [?|Hh']; [by left|by apply (Hagain p)].
Qed.

(** A task that serves the session comes to the check, or ends the session. *)
Lemma to_check x : ∀ n k p, (distance p < x)%nat → held Q n k p →
  ends n ∨ (3 ≤ distance p)%nat ∧
    ∃ n' i, (n ≤ n')%nat ∧ acts n' = AConn k i ∧ held Q n' k (PhCheck j).
Proof using HP Hcfg Hs Hacts HQ Hrun Hflush.
  induction x as [|x IH]; intros n k p Hx Hh; [lia|].
  assert (∀ n1 p1, (n ≤ n1)%nat → (distance p1 < distance p)%nat → held Q n1 k p1 →
    ends n ∨ (3 ≤ distance p)%nat ∧
      ∃ n' i, (n ≤ n')%nat ∧ acts n' = AConn k i ∧ held Q n' k (PhCheck j)) as Hnear.
  { intros n1 p1 Hle Hd Hh1.
    destruct (IH n1 k p1 ltac:(lia) Hh1) as [He|(? & n' & i & ? & ? & ?)]; [left|right].
    - by eapply ends_later.
    - split; [lia|]. exists n', i. split_and!; [lia|done..]. }
  destruct (decide (flushing j p)) as [Hp|Hp].
  - pose proof Hh as (_ & [t Hk] & _). destruct (Hflush n k t p Hk Hp) as (d & t' & p' & Hle & Hk' & Hn).
    destruct (leave_flush (d - n) n k p Hh Hp) as [?|(n1 & p1 & ? & ? & ?)]; [|by left|].
    { exists t', p'. by replace (n + (d - n))%nat with d by lia. }
    apply (Hnear n1 p1); [done| |done]. destruct p; simpl in *; try done; lia.
  - destruct (next_run n k p Hh) as [?|(n1 & i & Hle & Hi & Hh1)]; [by left|].
    destruct (held_run n1 k i p Hi Hh1) as [?|(p' & Hh' & [->|[Hd|[? _]]])];
      [left; by eapply ends_later| | |done].
    + right. split; [simpl; lia|]. by exists n1, i.
    + apply (Hnear (S n1) p'); [lia|done..].
Qed.

Lemma closes n k r : held Q n k (PhClose j r) → ends n.
Proof using HP Hcfg Hs Hacts HQ Hrun Hflush.
  intros Hh. destruct (to_check 3 n k (PhClose j r) ltac:(simpl; lia) Hh) as [?|[? _]]; [done|simpl in *; lia].
Qed.
End kept.

Context (Hlim : limit < U8_MAX).
Context (Hrun : keeps_running s acts j) (Hflush : flushes_end s acts j).
Context (Htimers : timers_run_out s acts j).

(** The entry has the counter and the timer of [e], or was counted since. *)
Definition since (e e' : InflightEntry) : Prop :=
  ie_retries e' ≤ U8_MAX ∧
  (ie_retries e < ie_retries e' ∨ ie_retries e' = ie_retries e ∧ ie_sent_at e' = ie_sent_at e).

Lemma since_retried e e1 e2 : retried limit e1 e2 → since e e1 → since e e2.
Proof using Hlim.
  clear -Hlim. unfold since. intros Hr [Hu H1']. destruct Hr as [|now Hn]; simpl; unfold saturating_add in *; lia.
Qed.

Lemma held_weaken Q Q' n k p : (∀ e, Q e → Q' e) → held Q n k p → held Q' n k p.
Proof.
  intros Hq ((st & e & ? & ? & ? & ? & ? & ? & ?) & Hat). split; [|done]. exists st, e. auto 10.
Qed.

(** One check, of an entry that is due. *)
Lemma check_next n k i e :
  acts n = AConn k i → entry_expired (in_now i) timeout e = true →
  held (λ e', ie_retries e' = ie_retries e ∧ ie_sent_at e' = ie_sent_at e) n k (PhCheck j) →
  ends n ∨ ∃ p, held (λ e', ie_retries e < ie_retries e') (S n) k p.
Proof using HP Hcfg Hs Hacts Hlim Hrun Hflush.
  intros Ha He ((st & e' & Hg & Hc & Hin & Hp & Hh & Hm & Hr & Ht) & [t Hk] & _).
  pose proof (state_ok n) as Hok. pose proof (Hacts n) as Hi. rewrite Ha in Hi.
  assert (entry_expired (in_now i) timeout e' = true) as He'
    by (unfold entry_expired in *; by rewrite Ht).
  rewrite <-Hh in Hm.
  pose proof (check_counts HP Hcfg (sy_broker (σ n)) t i j st e' m (si_broker _ _ _ _ _ Hok) Hi Hlim
    Hg Hin He' Hm) as Hn.
  assert (σ (S n) = exec_action MAX_SESSIONS MAX_SUBS MAX_INFLIGHT MAX_RETAINED MAX_PACKET_SIZE
    config (σ n) (AConn k i)) as Heq by (simpl; by rewrite Ha).
  cbn [exec_action] in Heq. rewrite Hk in Heq.
  destruct (step _ t (PhCheck j) i) as [[b' t'] p'].
  assert (sy_conns (σ (S n)) !! k = Some (t', p')) as Hk'.
  { rewrite Heq. apply list_lookup_insert_eq. by eapply lookup_lt_Some. }
  destruct Hn as [[r ->]|([w ->] & _ & Hf)].
  - left. destruct (flying_next (λ _, True) (λ _ _ _ _, I) n) as [?|Hf']; [|by apply ends_settled|].
    { exists st, e'. by rewrite Hh in Hm. }
    apply (ends_later n (S n)); [lia|].
    apply (closes (λ _, True) (λ _ _ _ _, I) Hrun Hflush (S n) k r). split; [done|]. split; [by exists t'|done].
  - right. exists (PhWait j w). split; [|split; [by exists t'|done]]. rewrite Heq. simpl.
    by rewrite <-Hc, <-Hp, <-Hh, <-Hr.
Qed.

Lemma settle_soon x : ∀ n k p r,
  U8_MAX - r < Z.of_nat x → held (λ e, r ≤ ie_retries e) n k p → ends n.
Proof using HP Hcfg Hs Hacts Hlim Hrun Hflush Htimers.
  induction x as [|x IH]; intros n k p r Hx Hh;
    pose proof Hh as ((st & e & Hg & Hc & Hin & Hp & Hhd & Hm & Hr) & Hat & Hsv);
    pose proof (ri_session _ _ _ _ _ (proj1 (si_broker _ _ _ _ _ (state_ok n))) _ _ Hg) as Hwf;
    pose proof (proj1 (Forall_forall _ _) (sw_entries _ _ _ Hwf) e Hin) as (_ & _ & _ & Hu); [int_lia|].
  destruct (Htimers n st e Hg Hin) as [N HN].
  assert (held (since e) n k p) as He.
  { split; [|done]. exists st, e. split_and!; try done. split; [done|]. by right. }
  destruct (held_later (since e) (since_retried e) N n k p He) as [?|[p1 H1']]; [done|].
  apply (ends_later n (n + N)); [lia|].
  destruct (to_check (since e) (since_retried e) Hrun Hflush (S (distance p1)) _ k p1 ltac:(lia) H1')
    as [?|(_ & n2 & i & Hle & Hi & ((st2 & e2 & Hg2 & Hc2 & Hin2 & Hp2 & Hh2 & Hm2 & _ & Hsince) & Hat2))];
    [done|].
  apply (ends_later _ n2); [done|]. destruct Hsince as [Hlt|Hsame].
  - apply (IH n2 k (PhCheck j) (r + 1)); [lia|]. split; [|done]. exists st2, e2.
    split_and!; try done. lia.
  - destruct (check_next n2 k i e Hi) as [?|[p3 H3']]; [by apply (HN n2 k i); [lia|]|by split; [exists st2, e2|]|done|].
    apply (ends_later _ (S n2)); [lia|]. apply (IH (S n2) k p3 (r + 1)); [lia|].
    eapply held_weaken; [|done]. simpl. lia.
Qed.
End execution.

End settle.

(** ** A silent subscriber

    The subscriber of [ex_sys] never answers.  Its task runs every ten seconds:
    the frame goes out, three duplicates follow, then the session is removed. *)
Definition ex_clock (n : nat) : Instant := Z.min (10000000 * Z.of_nat n) 1000000000000.
Definition ex_patience (n : nat) : action Script :=
  AConn 0 {| in_now := ex_clock n; in_now2 := ex_clock n; in_signal := true |}.
Local Abbreviation ex_after := (state_at 2 4 2 4 512 ex_config ex_sys ex_patience).

Example silent_subscriber_removed :
  (λ n, ((λ st, ie_retries <$> inflight st) <$> get (b_registry (sy_broker (ex_after n))) 0,
         snd <$> sy_conns (ex_after n))) <$> [0; 6; 9; 12; 15; 18]%nat =
  [(Some [0], [PhCheck 0]); (Some [1], [PhWait 0 5000000]); (Some [2], [PhWait 0 5000000]);
   (Some [3], [PhWait 0 5000000]); (Some [4], [PhClose 0 RetryLimitExceeded]); (None, [PhDone])].
Proof. vm_compute. reflexivity. Qed.

Lemma ex_after_final n : (18 ≤ n)%nat → ex_after n = ex_after 18.
Proof.
  intros Hn. replace n with ((n - 18) + 18)%nat by lia. generalize (n - 18)%nat. clear n Hn.
  intros d. induction d as [|d IH]; [done|]. cbn [Nat.add state_at]. rewrite IH.
  unfold ex_patience at 1. generalize (ex_clock (d + 18)). intros now. vm_compute. reflexivity.
Qed.

Lemma ex_after_check (P : sys → bool) :
  forallb (λ n, P (ex_after n)) (seq 0 19) = true → ∀ n, P (ex_after n) = true.
Proof.
  intros Hall n. rewrite forallb_forall in Hall. destruct (decide (n < 18)%nat).
  - apply Hall, in_seq. lia.
  - rewrite ex_after_final by lia. apply Hall, in_seq. lia.
Qed.

Lemma ex_after_one_task n k t p : sy_conns (ex_after n) !! k = Some (t, p) → k = 0%nat.
Proof.
  intros Hk. pose proof (ex_after_check (λ s, length (sy_conns s) =? 1)%nat
    ltac:(vm_compute; reflexivity) n) as Hl.
  apply Nat.eqb_eq in Hl. apply lookup_lt_Some in Hk. lia.
Qed.

Lemma ex_flushes_end : flushes_end 2 4 2 4 512 ex_config ex_sys ex_patience 0.
Proof.
  intros n k t p Hk _. apply ex_after_one_task in Hk as ->.
  eexists (n + 18)%nat, _, PhDone. split; [lia|].
  rewrite ex_after_final by lia. split; [vm_compute; reflexivity|intros []].
Qed.

(** Every timer of the run is set before 200 seconds; from the 100th action on
    the clock is past all of them. *)
Lemma ex_timers_run_out : timers_run_out 2 4 2 4 512 ex_config ex_sys ex_patience 0.
Proof.
  intros n st e Hg He. exists 100%nat. intros m k i Hm [= <- <-].
  pose proof (ex_after_check (λ s, match get (b_registry (sy_broker s)) 0 with
    | Some st => forallb (λ e, (ie_sent_at e <=? 200000000)) (inflight st) | None => true end)
    ltac:(vm_compute; reflexivity) n) as Hall.
  cbv beta in Hall. rewrite Hg in Hall. rewrite forallb_forall in Hall.
  apply list_elem_of_In, Hall, Z.leb_le in He.
  assert (1000000000 ≤ ex_clock m) by (unfold ex_clock; lia).
  unfold entry_expired, checked_duration_since. simpl in_now. rewrite decide_True by lia.
  apply bool_decide_eq_true. change (duration_from_millis _) with 5000000. lia.
Qed.

End Settlement.
