(* ===== verification/Transparency.v ===== *)
(** * Transparency: the broker does not see what carries the bytes

    The task of [Connection.v] run over two working connections of different
    kinds ([Link]) that hold the same bytes from the peer: step by step both
    runs change the broker in the same way, are at the same point of the code
    and have written the same bytes, in whatever pieces each connection
    delivers.  [TlsLink.v] uses this to compare TLS with plain TCP. *)

From S2P Require Import Prelude External Reference Keyed Topics RateLimit Session Registry.
From S2P Require Import Transport Frame Invariants Retained Router Connect Subscribe Publish.
From S2P Require Import Disconnect Connection.

Open Scope Z_scope.

Module Transparency.
Import Session Registry Frame Command Publish Connection.

(** A frame that fits the packet buffer. *)
Definition framed (MAX : nat) (f : list Z) : Prop :=
  ∃ first body, f = frame_with first body ∧ Z.of_nat (length body) ≤ 268435455 ∧ (length f ≤ MAX)%nat.

(** The task is at one of the two places that read a packet. *)
Definition reads (p : phase) : Prop :=
  match p with PhConnect | PhWait _ _ => True | _ => False end.

#[global] Instance reads_dec p : Decision (reads p).
Proof. destruct p; simpl; apply _. Defined.

(** Both succeed or both fail. *)
Definition same {X Y} (r : result X unit) (r' : result Y unit) : Prop :=
  match r, r' with Ok _, Ok _ | Err _, Err _ => True | _, _ => False end.

Section twin.
Context `{Heapless} `{Mqttrs} `{EmbassySignal} `{EmbassyTime} `{CommandHandler C}.
Context `{Link T E link} `{Link T' E' link'}.
Context (MAX_SESSIONS MAX_SUBS MAX_INFLIGHT MAX_RETAINED MAX_PACKET_SIZE : nat).
Context (config : Config.BrokerConfig).

Definition twin (t : T) (t' : T') (inb out : list Z) : Prop := link t inb out ∧ link' t' inb out.

(** Two writes with the same outcome that sent the same bytes. *)
Definition in_step {X X'} (inb out : list Z) (w : result X unit * T) (w' : result X' unit * T') : Prop :=
  same w.1 w'.1 ∧ ∃ bs, twin w.2 w'.2 inb (out ++ bs).

(** ** Writing *)
Lemma t_write_twin t t' inb out bytes :
  twin t t' inb out → in_step inb out (t_write t bytes) (t_write t' bytes).
Proof.
  intros [Ht Ht']. destruct (link_write t inb out bytes Ht) as (u & -> & ?).
  destruct (link_write t' inb out bytes Ht') as (u' & -> & ?). split; [done|]. by exists bytes.
Qed.

Lemma write_packet_twin t t' inb out packet :
  twin t t' inb out →
  in_step inb out (write_packet MAX_PACKET_SIZE t packet) (write_packet MAX_PACKET_SIZE t' packet).
Proof.
  intros [Ht Ht']. destruct (write_packet_link MAX_PACKET_SIZE t packet inb out Ht) as (u & -> & ?).
  destruct (write_packet_link MAX_PACKET_SIZE t' packet inb out Ht') as (u' & -> & ?).
  split; [simpl; by case_match|]. by eexists.
Qed.

(** One write, then a computation that goes on in step. *)
Lemma in_step_then {X X' Y Y'} inb out w w' (e : X → Y) (e' : X' → Y') (k : T → result Y unit * T)
  (k' : T' → result Y' unit * T') :
  in_step inb out w w' →
  (∀ t t' bs, twin t t' inb (out ++ bs) → in_step inb (out ++ bs) (k t) (k' t')) →
  in_step inb out (match w with (Err x, t) => (Err (e x), t) | (Ok _, t) => k t end)
    (match w' with (Err x, t) => (Err (e' x), t) | (Ok _, t) => k' t end).
Proof.
  destruct w as [[u|x] t], w' as [[u'|x'] t']; intros [Hs [bs Ht]] Hk; simpl in *; try done.
  - destruct (Hk t t' bs Ht) as [? [bs2 Ht2]]. split; [done|]. exists (bs ++ bs2).
    by rewrite app_assoc.
  - split; [done|]. by exists bs.
Qed.

Lemma in_step_refl {X X'} inb out t t' :
  twin t t' inb out → in_step inb out (Ok (E := X) tt, t) (Ok (E := X') tt, t').
Proof. split; [done|]. exists []. by rewrite app_nil_r. Qed.

Lemma write_deliveries_twin ds next_pid t t' inb out :
  twin t t' inb out →
  in_step inb out (Subscribe.write_deliveries MAX_PACKET_SIZE t next_pid ds)
    (Subscribe.write_deliveries MAX_PACKET_SIZE t' next_pid ds).
Proof.
  revert next_pid t t' out. induction ds as [|d ds IH]; intros next_pid t t' out Ht;
    [by apply in_step_refl|]. cbn [Subscribe.write_deliveries].
  destruct (match Subscribe.rd_qos d with AtMostOnce => _ | _ => _ end) as [qospid next].
  apply in_step_then; [by apply write_packet_twin|]. intros. by apply IH.
Qed.

Lemma write_prepared_twin prepared t t' inb out :
  twin t t' inb out →
  in_step inb out (Subscribe.write_prepared_subscribe MAX_PACKET_SIZE t prepared)
    (Subscribe.write_prepared_subscribe MAX_PACKET_SIZE t' prepared).
Proof.
  intros Ht. unfold Subscribe.write_prepared_subscribe.
  apply in_step_then; [by apply write_packet_twin|]. intros. by apply write_deliveries_twin.
Qed.

(** ** The retry pass *)
Definition retries_in_step {X X'} (inb out : list Z)
  (r : result X unit * SessionRegistry * T) (r' : result X' unit * SessionRegistry * T') : Prop :=
  same r.1.1 r'.1.1 ∧ r.1.2 = r'.1.2 ∧ ∃ bs, twin r.2 r'.2 inb (out ++ bs).

Lemma resend_twin reg packet_id h t t' inb out :
  twin t t' inb out →
  in_step inb out (resend MAX_PACKET_SIZE reg t packet_id h) (resend MAX_PACKET_SIZE reg t' packet_id h).
Proof.
  intros Ht. assert (∃ bs, twin t t' inb (out ++ bs)) by (exists []; by rewrite app_nil_r).
  unfold resend. destruct (pid_try_from packet_id) as [pid|]; [|done].
  destruct (stored_publish reg h) as [stored|]; [|done].
  match goal with |- context [write_packet _ t ?q] =>
    destruct (write_packet_twin t t' inb out q Ht) as [Hs Hb];
    destruct (write_packet MAX_PACKET_SIZE t q) as [[]], (write_packet MAX_PACKET_SIZE t' q) as [[]] end;
    by split.
Qed.

Lemma retry_one_twin id timeout max_retries now reg index t t' inb out :
  twin t t' inb out →
  retries_in_step inb out (retry_one MAX_PACKET_SIZE id timeout max_retries now reg t index)
    (retry_one MAX_PACKET_SIZE id timeout max_retries now reg t' index).
Proof.
  intros Ht. assert (∃ bs, twin t t' inb (out ++ bs)) by (exists []; by rewrite app_nil_r).
  unfold retry_one. destruct (get reg id) as [session|]; [|done].
  destruct (inflight session !! index) as [entry|]; [|done].
  destruct (entry_expired now timeout entry); [|done]. case_decide; [done|].
  match goal with |- context [resend _ ?reg1 t ?pid ?h] =>
    destruct (resend_twin reg1 pid h t t' inb out Ht) as [Hs Hb];
    destruct (resend MAX_PACKET_SIZE reg1 t pid h) as [[]],
      (resend MAX_PACKET_SIZE reg1 t' pid h) as [[]] end;
    simpl in *; repeat case_match; done.
Qed.

Lemma retry_all_twin id timeout max_retries now indices reg t t' inb out :
  twin t t' inb out →
  retries_in_step inb out (retry_all MAX_PACKET_SIZE id timeout max_retries now reg t indices)
    (retry_all MAX_PACKET_SIZE id timeout max_retries now reg t' indices).
Proof.
  revert reg t t' out. induction indices as [|index indices IH]; intros reg t t' out Ht.
  { split_and!; [done|done|]. exists []. by rewrite app_nil_r. }
  cbn [retry_all].
  destruct (retry_one_twin id timeout max_retries now reg index t t' inb out Ht) as (Hs & Hr & bs & Hb).
  destruct (retry_one _ _ _ _ _ reg t index) as [[[] reg1] u],
    (retry_one _ _ _ _ _ reg t' index) as [[[] reg1'] u']; simpl in *; subst; try done.
  - destruct (IH reg1' u u' (out ++ bs) Hb) as (? & ? & bs2 & ?). split_and!; [done|done|].
    exists (bs ++ bs2). by rewrite app_assoc.
  - split_and!; [done|done|]. by exists bs.
Qed.

(** ** Reading *)
Lemma read_packet_twin t t' f inb out :
  framed MAX_PACKET_SIZE f → twin t t' (f ++ inb) out →
  ∃ u u', read_packet MAX_PACKET_SIZE t = (Done (frame_answer f), u) ∧
    read_packet MAX_PACKET_SIZE t' = (Done (frame_answer f), u') ∧ twin u u' inb out.
Proof.
  intros (first & body & -> & Hb & HM) [Ht Ht'].
  destruct (read_packet_link _ t first body inb out Hb HM Ht) as (u & -> & ?).
  destruct (read_packet_link _ t' first body inb out Hb HM Ht') as (u' & -> & ?). by exists u, u'.
Qed.

(** ** One step of the task *)
Local Abbreviation step := (conn_step (T := T) MAX_SESSIONS MAX_SUBS MAX_INFLIGHT MAX_RETAINED
  MAX_PACKET_SIZE config).
Local Abbreviation step' := (conn_step (T := T') MAX_SESSIONS MAX_SUBS MAX_INFLIGHT MAX_RETAINED
  MAX_PACKET_SIZE config).

(** The same broker, the same point of the code, the same bytes written and the
    frames [fs] left to read; once the connection is closed, only the first two. *)
Definition agree (out : list Z) (fs : list (list Z)) (r : Broker C * T * phase)
  (r' : Broker C * T' * phase) : Prop :=
  r.1.1 = r'.1.1 ∧ r.2 = r'.2 ∧
  (r.2 = PhDone ∨ ∃ bs, twin r.1.2 r'.1.2 (concat fs) (out ++ bs)).

Lemma agree_untouched out fs b t t' p :
  twin t t' (concat fs) out → agree out fs (b, t, p) (b, t', p).
Proof. intros Ht. split_and!; [done|done|]. right. exists []. by rewrite app_nil_r. Qed.

Lemma agree_done out fs b t t' : agree out fs (b, t, PhDone) (b, t', PhDone).
Proof. split_and!; [done|done|by left]. Qed.

Lemma agree_written {X X'} out fs b p q (w : result X unit * T) (w' : result X' unit * T') :
  in_step (concat fs) out w w' →
  agree out fs (let '(t, p) := match w with (Err _, t) => (t, q) | (Ok _, t) => (t, p) end in (b, t, p))
    (let '(t, p) := match w' with (Err _, t) => (t, q) | (Ok _, t) => (t, p) end in (b, t, p)).
Proof.
  destruct w as [[] t], w' as [[] t']; intros [Hs Hb]; try done; (split_and!; [done|done|by right]).
Qed.

Lemma await_connect_agrees b t t' f inb out :
  framed MAX_PACKET_SIZE f → twin t t' (f ++ concat inb) out →
  agree out inb (let '(t, p) := await_connect MAX_PACKET_SIZE t in (b, t, p))
    (let '(t, p) := await_connect MAX_PACKET_SIZE t' in (b, t, p)).
Proof.
  intros Hf Ht. destruct (read_packet_twin t t' f (concat inb) out Hf Ht) as (u & u' & Hr & Hr' & Hu).
  unfold await_connect. rewrite Hr, Hr'. unfold frame_answer.
  destruct (decode_slice f) as [[packet|]|e]; [|apply agree_done..].
  destruct packet; try apply agree_done. by apply agree_untouched.
Qed.

Lemma wait_event_agrees b t t' id by_signal f inb out :
  framed MAX_PACKET_SIZE f → twin t t' (f ++ concat inb) out →
  agree out inb (wait_event MAX_PACKET_SIZE b t id by_signal) (wait_event MAX_PACKET_SIZE b t' id by_signal).
Proof.
  intros Hf Ht. destruct (read_packet_twin t t' f (concat inb) out Hf Ht) as (u & u' & Hr & Hr' & Hu).
  unfold wait_event. rewrite Hr, Hr'. unfold frame_answer.
  destruct (decode_slice f) as [[packet|]|e]; by apply agree_untouched.
Qed.

Lemma register_agrees b t t' c now inb out :
  twin t t' (concat inb) out →
  agree out inb (register MAX_SESSIONS MAX_PACKET_SIZE config b t c now)
    (register MAX_SESSIONS MAX_PACKET_SIZE config b t' c now).
Proof.
  intros Ht. unfold register. destruct (Connect.prepare_connect _ _ _ _) as [[[[o|code]|e]| |] reg].
  2: destruct (Connect.write_connack _ t _ _), (Connect.write_connack _ t' _ _); apply agree_done.
  all: by apply agree_untouched.
Qed.

Lemma acknowledge_agrees b t t' id present inb out :
  twin t t' (concat inb) out →
  agree out inb (let '(t, p) := acknowledge MAX_PACKET_SIZE t id present in (b, t, p))
    (let '(t, p) := acknowledge MAX_PACKET_SIZE t' id present in (b, t, p)).
Proof.
  intros Ht. unfold acknowledge, Connect.write_connack.
  match goal with |- context [write_packet _ t ?q] =>
    destruct (write_packet_twin t t' (concat inb) out q Ht) as [Hs Hb];
    destruct (write_packet MAX_PACKET_SIZE t q) as [[]], (write_packet MAX_PACKET_SIZE t' q) as [[]] end;
    try done; [|apply agree_done]. split_and!; [done|done|by right].
Qed.

Lemma check_session_agrees b t t' id now now2 inb out :
  twin t t' (concat inb) out →
  agree out inb (check_session MAX_PACKET_SIZE config b t id now now2)
    (check_session MAX_PACKET_SIZE config b t' id now now2).
Proof.
  intros Ht. unfold check_session. destruct (quarantined <$> _) as [[]|]; try by apply agree_untouched.
  unfold process_inflight_retries_at.
  match goal with |- context [retry_all _ id ?d ?m now ?reg t ?ix] =>
    destruct (retry_all_twin id d m now ix reg t t' (concat inb) out Ht) as (Hs & Hr & Hb);
    destruct (retry_all MAX_PACKET_SIZE id d m now reg t ix) as [[[] reg1] u],
      (retry_all MAX_PACKET_SIZE id d m now reg t' ix) as [[[] reg1'] u'] end;
    simpl in *; subst; try done; repeat case_match; (split_and!; [done|done|by right]).
Qed.

Lemma step_agrees b t t' p i fs out :
  twin t t' (concat fs) out → Forall (framed MAX_PACKET_SIZE) fs → (reads p → fs ≠ []) →
  ∃ fs', fs' `suffix_of` fs ∧ agree out fs' (step b t p i) (step' b t' p i).
Proof.
  intros Ht Hfs Hread.
  assert (∀ x y, agree out fs x y → ∃ fs', fs' `suffix_of` fs ∧ agree out fs' x y) as Hstay by eauto.
  destruct p as [|c|id present|id|id packet|id|id wait|id packet|id r|id reason|id l ds|id| | |];
    cbn [conn_step].
  - destruct Hfs as [|f fs Hf Hfs]; [by destruct (Hread I)|]. exists fs.
    split; [by apply suffix_cons_r|]. by apply (await_connect_agrees _ _ _ f).
  - apply Hstay. by apply register_agrees.
  - apply Hstay. by apply acknowledge_agrees.
  - apply Hstay. unfold flush_pop. repeat case_match; simplify_eq; by apply agree_untouched.
  - apply Hstay. apply agree_written. by apply t_write_twin.
  - apply Hstay. by apply check_session_agrees.
  - destruct Hfs as [|f fs Hf Hfs]; [by destruct (Hread I)|]. exists fs.
    split; [by apply suffix_cons_r|]. by apply (wait_event_agrees _ _ _ _ _ f).
  - apply Hstay. destruct (handle_packet _ _ _ _ _ _ _ _ _). by apply agree_untouched.
  - apply Hstay. unfold write_reply. destruct r.
    all: try (apply agree_written; first [by apply write_packet_twin|by apply write_prepared_twin]).
    by apply agree_untouched.
  - apply Hstay. destruct (collect_will _ _ _ _ _). by apply agree_untouched.
  - apply Hstay. destruct (send_will _ _ _ _). by apply agree_untouched.
  - apply Hstay. destruct (remove_session _ _). by apply agree_untouched.
  - apply Hstay. apply agree_done.
  - apply Hstay. apply agree_done.
  - apply Hstay. by apply agree_untouched.
Qed.

(** ** The whole task *)
Local Abbreviation run := (run_conn (T := T) MAX_SESSIONS MAX_SUBS MAX_INFLIGHT MAX_RETAINED
  MAX_PACKET_SIZE config).
Local Abbreviation run' := (run_conn (T := T') MAX_SESSIONS MAX_SUBS MAX_INFLIGHT MAX_RETAINED
  MAX_PACKET_SIZE config).

Lemma run_done b t inputs : run b t PhDone inputs = (b, t, PhDone).
Proof. by induction inputs. Qed.

Lemma run_done' b t inputs : run' b t PhDone inputs = (b, t, PhDone).
Proof. by induction inputs. Qed.

(** The runs agree for as long as the peer has sent what the task reads. *)
Lemma run_agrees inputs b t t' p fs out :
  twin t t' (concat fs) out → Forall (framed MAX_PACKET_SIZE) fs →
  ∃ n fs', fs' `suffix_of` fs ∧
    (length inputs ≤ n ∨ fs' = [] ∧ reads (run b t p (take n inputs)).2)%nat ∧
    agree out fs' (run b t p (take n inputs)) (run' b t' p (take n inputs)).
Proof.
  revert b t t' p fs out. induction inputs as [|i inputs IH]; intros b t t' p fs out Ht Hfs.
  { exists 0%nat, fs. split_and!; [done|by left|]. by apply agree_untouched. }
  destruct (decide (reads p ∧ fs = [])) as [[Hp ->]|Hgo].
  { exists 0%nat, []. split_and!; [done|by right|]. by apply agree_untouched. }
  destruct (step_agrees b t t' p i _ out Ht Hfs) as (fs1 & Hsuf & Hb & Hp' & Hag); [naive_solver|].
  destruct (step b t p i) as [[b1 u] p1] eqn:E1, (step' b t' p i) as [[b1' u'] p1'] eqn:E2.
  simpl in Hb, Hp', Hag. subst b1' p1'. destruct Hag as [->|[bs Hu]].
  { exists (S (length inputs)), fs1. split_and!; [done|left; simpl; lia|]. cbn [take run_conn].
    rewrite E1, E2, run_done, run_done'. apply agree_done. }
  destruct (IH b1 u u' p1 fs1 (out ++ bs) Hu) as (n & fs2 & Hsuf2 & Hn & Hb2 & Hp2 & Hag2).
  { destruct Hsuf as [l ->]. by apply Forall_app in Hfs as [_ ?]. }
  exists (S n), fs2. cbn [take run_conn]. rewrite E1, E2. split_and!.
  - by etrans.
  - destruct Hn; [left; simpl; lia|by right].
  - split_and!; [done|done|]. destruct Hag2 as [?|[bs2 ?]]; [by left|right]. exists (bs ++ bs2). by rewrite app_assoc.
Qed.
End twin.
End Transparency.
