(* ===== verification/Executions.v ===== *)
(** * Executions: runs of the whole system that the theorems do not rule out

    Each lemma evaluates a concrete schedule of connection tasks on the
    reference codec and shows an outcome a maintainer would want to know: what
    happens to a session taken over while its first task is still running, to a
    frame whose read is cancelled half way, to a publish too large for the
    outbound frame limit. *)

From S2P Require Import Prelude External Reference Keyed Topics RateLimit Session Registry.
From S2P Require Import Transport Frame Invariants Retained Router Connect Subscribe Publish.
From S2P Require Import PublishProofs Disconnect Connection System.
Open Scope Z_scope.

Module Executions.
Import Session Registry Frame Notify Command Publish Disconnect Connection System.

Abbreviation ssys := (sys (C:=MockCommandHandler) (T:=Script)).
Definition start : ssys := sys_init 2 2 ex_handler.
Definition conn_phase (s : ssys) (k : nat) : option phase := snd <$> sy_conns s !! k.
Definition conn_log (s : ssys) (k : nat) : option (list (list Z)) :=
  (λ c, sc_log c.1) <$> sy_conns s !! k.
Definition reg_of (s : ssys) : SessionRegistry := b_registry (sy_broker s).

(** ** Takeover *)

(** Client [a] connects (task 0), then connects again on a second transport
    (task 1) with a clean session, which reuses slot 0; then task 0 sees its
    stream end. *)
Definition takeover : ssys := ex_exec start
  (AAccept (peer [Some (enc (ex_connect "a" true)); None; Some []])
   :: go 0 5
   ++ AAccept (peer [Some (enc (ex_connect "a" true)); None])
   :: go 1 5).
Definition takeover_end : ssys := ex_exec takeover (go 0 8).

(** Task 0's cleanup removes the session of task 1, which is still connected
    and waiting on slot 0. *)
Lemma takeover_removes_the_new_session :
  (∃ wait, conn_phase takeover 1 = Some (PhWait 0 wait)) ∧ is_Some (get (reg_of takeover) 0) ∧
  conn_phase takeover_end 0 = Some PhDone ∧
  (∃ wait, conn_phase takeover_end 1 = Some (PhWait 0 wait)) ∧
  get (reg_of takeover_end) 0 = None.
Proof. vm_compute. eauto 10. Qed.

(** ** CONNACK failure *)
Definition unacked : ssys := ex_exec start
  (AAccept {| sc_reads := [Some (enc (ex_connect "a" true))]; sc_log := []; sc_fail := true |}
   :: go 0 5).

(** The task is gone, its session stays in the table. *)
Lemma connack_failure_leaks_the_slot :
  conn_phase unacked 0 = Some PhDone ∧ is_Some (get (reg_of unacked) 0) ∧
  sy_unacked unacked = [0%nat].
Proof. vm_compute. eauto. Qed.

(** ** A frame larger than the outbound limit *)
Definition big_publish : Packet := PPublish {| pub_dup := false; pub_qospid := QP_AtLeastOnce 9;
  pub_retain := false; pub_topic_name := "sb/h/device/r/set"; pub_payload := replicate 200 1 |}.
Definition oversized : ssys := ex_exec start
  (AAccept (peer [Some (enc (ex_connect "sub" true)); Some (enc (ex_subscribe "sb/#"))])
   :: go 0 9
   ++ AAccept (peer [Some (enc (ex_connect "pub" true)); Some (enc big_publish)])
   :: go 1 8).

(** The publisher gets its PUBACK; the subscriber's outbox is empty and the
    command handler was not called. *)
Lemma oversized_publish_is_acknowledged_and_lost :
  conn_log oversized 1 =
    Some [enc (PConnack {| ca_session_present := false; ca_code := Accepted |});
          enc (PPuback 9)] ∧
  (outbox <$> get (reg_of oversized) 0) = Some [] ∧
  received (b_handler (sy_broker oversized)) = [].
Proof. vm_compute. auto. Qed.

(** ** A read cancelled in the middle of a frame *)

(** Two PINGREQs, [192; 0; 192; 0], once in one piece and once with a wake-up
    after the first byte. *)
Definition pings (reads : list (option (list Z))) : ssys := ex_exec start
  (AAccept (peer (Some (enc (ex_connect "a" true)) :: reads)) :: go 0 20).
Definition connack : list Z :=
  enc (PConnack {| ca_session_present := false; ca_code := Accepted |}).

(** The byte read before the wake-up is dropped with the cancelled future, the
    reader resumes in the middle of the frame, and neither PINGREQ is
    answered. *)
Lemma cancelled_read_loses_framing :
  conn_log (pings [Some [192; 0; 192; 0]]) 0 = Some [connack; enc PPingresp; enc PPingresp] ∧
  conn_log (pings [Some [192]; None; Some [0; 192; 0]]) 0 = Some [connack].
Proof. vm_compute. auto. Qed.

(** ** Packet identifiers of retained deliveries *)

(** A retained QoS 1 message on [a], then a subscription to it (delivered under
    identifier 1), then a QoS 1 publish to the same subscriber, which draws
    identifier 1 from the session, then the subscriber's PUBACK of the retained
    message. *)
Definition retained_then_live (reads : list (option (list Z))) : ssys :=
  let publish p r := AOutbound {| mp_topic := "a"; mp_payload := [p]; mp_qos := AtLeastOnce;
                                  mp_retain := r |} 9 in
  ex_exec start
    (publish 1 true
     :: AAccept (peer (Some (enc (ex_connect "sub" true)) :: Some (enc (ex_subscribe "a"))
                       :: None :: reads))
     :: go 0 9 ++ publish 2 false :: go 0 10).

(** The PUBACK of the retained message acknowledges the live one. *)
Lemma retained_puback_acknowledges_another_message :
  (length ∘ inflight <$> get (reg_of (retained_then_live [])) 0) = Some 1%nat ∧
  (length ∘ inflight <$> get (reg_of (retained_then_live [Some (enc (PPuback 1))])) 0)
    = Some 0%nat.
Proof. vm_compute. auto. Qed.

(** ** The QoS of a will *)

(** A will of QoS 0 is encoded at the subscriber's QoS, above its own. *)
Lemma will_delivered_above_its_qos :
  encode_publish_from_lwt {| lwt_topic := "w"; lwt_payload := [1]; lwt_qos := AtMostOnce;
    lwt_retain := false |} AtLeastOnce =
  Some (enc (PPublish {| pub_dup := false; pub_qospid := QP_AtLeastOnce 1; pub_retain := false;
    pub_topic_name := "w"; pub_payload := [1] |})).
Proof. vm_compute. auto. Qed.

(** ** A will that arrives late *)

(** Client [a] has a will on [w], to which [s] in slot 1 subscribes.  The stream
    of [a] ends and its task collects the audience of the will.  Before it locks
    the table again to queue the frames, [s] disconnects and a new client [b]
    takes slot 1. *)
Definition ex_will_connect : Packet :=
  PConnect {| cn_protocol := MQTT311; cn_keep_alive := 0; cn_client_id := "a";
    cn_clean_session := true;
    cn_last_will := Some {| lw_topic := "w"; lw_message := [7]; lw_qos := AtMostOnce;
                            lw_retain := false |};
    cn_username := Some "house"; cn_password := Some (as_bytes "secret") |}.
Definition late_will : ssys := ex_exec start
  (AAccept (peer [Some (enc ex_will_connect); Some []])
   :: AAccept (peer [Some (enc (ex_connect "s" true)); Some (enc (ex_subscribe "w")); None;
                     Some (enc PDisconnect)])
   :: go 0 5 ++ go 1 9 ++ go 0 2 ++ go 1 12
   ++ AAccept (peer [Some (enc (ex_connect "b" true)); None; None]) :: go 2 5
   ++ go 0 1 ++ go 2 5).

(** [b], which never subscribed to anything, is sent the will. *)
Lemma late_will_reaches_a_stranger :
  (client_id <$> get (reg_of late_will) 1) = Some "b" ∧
  (subscriptions <$> get (reg_of late_will) 1) = Some [] ∧
  conn_log late_will 2 = Some [connack; enc (PPublish {| pub_dup := false;
    pub_qospid := QP_AtLeastOnce 1; pub_retain := false; pub_topic_name := "w"; pub_payload := [7] |})].
Proof. vm_compute. auto. Qed.
End Executions.
