(* ===== verification/Suite.v ===== *)
(** * Suite: replaying the crates' own tests on the model

    The [#[test]] functions of the sources are scenarios with assertions.  The
    [Tests*.v] files translate them, test by test, on the reference codec,
    clock and containers, and check the assertions by evaluation.  They are no
    proof of anything about the code, but they tie the definitions the theorems
    are about to behaviour the authors pinned down: a definition that strays
    from the source tends to fail the source's own tests. *)

From S2P Require Import Prelude External Reference Transport.

Open Scope Z_scope.

(** A group of tests: the name in the source, and the conjunction of its
    assertions. *)
Definition suite : Type := list (string * Prop).

Definition passes (s : suite) : Prop := Forall snd s.

(** Evaluate every assertion. *)
Ltac replay :=
  unfold passes;
  repeat (apply Forall_cons; split; [cbn [snd]; vm_compute; by repeat split|]);
  by apply Forall_nil.

(** [block_on]: the test executor polls once and panics on [Pending]. *)
Definition block_on {A} (o : outcome A) : option A :=
  match o with Done a => Some a | Pending | Panic => None end.

(** [String::try_from("...").unwrap()] for numbered names: [format!("{prefix}{n}")] *)
Definition digit (n : nat) : string := String.String (Ascii.ascii_of_nat (48 + n)) EmptyString.
Definition numbered (prefix : string) (n : nat) : string :=
  String.append prefix
    (if decide (n < 10)%nat then digit n else String.append (digit (n / 10)) (digit (n mod 10))).

(** A transport holding one chunk. *)
Definition fed (bytes : list Z) : Mock.MockTransport := Mock.feed Mock.new bytes.
