(* ===== verification/ZeroInit.v ===== *)
(** * ZeroInit: a broker started from zero-filled memory

    ([slot.rs], [tests/zero_init_registry.rs])  The registry and the retained
    store may live in memory that the boot code fills with zeros instead of
    running [new()].  All-zero bytes read as: an empty slot, whatever its
    payload bytes; an empty vector or deque; and a publish generation of zero,
    where [new()] starts at one.  The broker is as safe from that state as from
    [new()]; the one difference is that the first stored publish gets
    generation zero, which a registry made by [new()] never hands out. *)

From S2P Require Import Prelude External Reference Keyed Slot Topics RateLimit Session Registry.
From S2P Require Import Transport Frame Invariants Retained Router Connect Subscribe Publish.
From S2P Require Import PublishProofs Disconnect Connection System Suite.

Open Scope Z_scope.

Module ZeroInit.
Import Session Registry Frame Notify Invariants Retained Command Publish PublishProofs Connection System.

(** [mem::zeroed()] of a slot: [occupied] is false, the payload is arbitrary. *)
Definition zeroed_slot {A} (payload : option A) : Slot.Slot A :=
  {| Slot.occupied := false; Slot.state := payload |}.

Definition zeroed_registry (N MAX_INFLIGHT : nat) : SessionRegistry := {|
  slots := Slot.to_option <$> replicate N (zeroed_slot None);
  published_lwts := [];
  stored_publishes := Slot.to_option <$> replicate MAX_INFLIGHT (zeroed_slot None);
  next_publish_generation := 0;
|}.

Definition zeroed_store : RetainedStore := {| entries := [] |}.

(** The tests of [zero_init_registry.rs]; the fourth only prints sizes. *)
Definition zero_init_tests : suite := [
  ("zeroed_registry_has_zero_entries", length (Registry.iter (zeroed_registry 1 2)) = 0%nat);
  ("zeroed_retained_store_has_zero_entries",
   Retained.len zeroed_store = 0%nat ∧ length (Retained.iter zeroed_store) = 0%nat);
  ("fresh_registry_has_zero_entries", length (Registry.iter (Registry.new 1 2)) = 0%nat)]%string.

Lemma zero_init_tests_pass : passes zero_init_tests.
Proof. replay. Qed.

Lemma zeroed_registry_eq N MAX_INFLIGHT :
  zeroed_registry N MAX_INFLIGHT = set_next_publish_generation (Registry.new N MAX_INFLIGHT) 0.
Proof.
  unfold zeroed_registry, Registry.new, set_next_publish_generation. simpl.
  by rewrite !fmap_replicate.
Qed.

(** Only the first generation differs: after one stored publish, the counters
    of a zero-filled registry stand where [new()] starts. *)
Lemma zeroed_first_publish `{Heapless} N MAX_INFLIGHT topic payload retain :
  (0 < MAX_INFLIGHT)%nat → (String.length topic ≤ 128)%nat → (length payload ≤ 512)%nat →
  ∃ reg, store_publish_ref (zeroed_registry N MAX_INFLIGHT) topic payload retain
    = (Ok {| h_slot := 0; h_generation := 0 |}, reg) ∧ next_publish_generation reg = 1.
Proof.
  intros HM Ht Hp. rewrite zeroed_registry_eq. destruct MAX_INFLIGHT as [|n]; [lia|].
  unfold store_publish_ref. simpl.
  rewrite string_try_from_spec, decide_True, vec_from_slice_spec, decide_True by done. eauto.
Qed.

Section start.
Context `{Heapless} `{Mqttrs} `{EmbassySignal} `{EmbassyTime} `{CommandHandler C} `{Transport T E}.
Context (MAX_SESSIONS MAX_SUBS MAX_INFLIGHT MAX_RETAINED MAX_PACKET_SIZE : nat).
Context (config : Config.BrokerConfig).

(** The broker's statics before the first task runs. *)
Definition zeroed_sys (h : C) : sys (C:=C) (T:=T) := {|
  sy_broker := {| b_registry := zeroed_registry MAX_SESSIONS MAX_INFLIGHT;
                  b_retained := zeroed_store; b_signals := new_session_signals MAX_SESSIONS;
                  b_handler := h |};
  sy_conns := []; sy_unacked := [] |}.

Lemma zeroed_sys_inv (h : C) :
  sys_inv MAX_SESSIONS MAX_SUBS MAX_INFLIGHT MAX_RETAINED (zeroed_sys h).
Proof.
  destruct (sys_inv_init (T:=T) MAX_SESSIONS MAX_SUBS MAX_INFLIGHT MAX_RETAINED h) as [Hb Hph Hw].
  destruct Hb as ([] & Hrest). unfold zeroed_sys. rewrite zeroed_registry_eq.
  split; [|done|done]. split; [|done]. by split.
Qed.

End start.

(** The run of [System.ex_sys], from zeros. *)
Definition ex_zeroed : sys := ex_exec (zeroed_sys (T:=Script) 2 2 ex_handler) ex_actions.

End ZeroInit.
