(* ===== verification/TestsCore.v ===== *)
(** * TestsCore: the unit tests of the codec, transports, sessions and router

    [codec/frame.rs], [transport/mod.rs], [transport/tls.rs], [slot.rs],
    [session/*.rs], [router/*.rs] and [handler/pingreq.rs]; see [Suite.v]. *)

From S2P Require Import Prelude External Reference Keyed Slot Transport Frame Topics RateLimit.
From S2P Require Import Session Registry Retained Router Subscribe Suite.

Open Scope Z_scope.

Module TestsCore.
Import Topics Session Registry Frame Notify Router.

(** ** [codec/frame.rs] *)
Definition encode_packet (packet : Packet) : list Z :=
  match encode_slice packet 1024 with Ok bytes => bytes | Err _ => [] end.

Definition decode_packet (bytes : list Z) : option Packet :=
  match decode_slice bytes with Ok (Some packet) => Some packet | _ => None end.

(** What [read_packet] answers on a transport holding [bytes]. *)
Definition reads (MAX : nat) (bytes : list Z) : option (result (ReadError mqtt_error unit) Packet) :=
  block_on (read_packet MAX (fed bytes)).1.

Definition assert_round_trip (packet : Packet) : Prop :=
  let '(r, writer) := write_packet 512 Mock.new packet in
  r = Ok tt ∧ (reads 512 <$> head (Mock.tx_log writer)) = Some (Some (Ok packet)).

Definition connect_of (keep_alive : Z) (cid : string) (user : option string)
  (pass : option (list Z)) : Packet :=
  PConnect {| cn_protocol := MQTT311; cn_keep_alive := keep_alive; cn_client_id := cid;
              cn_clean_session := true; cn_last_will := None; cn_username := user;
              cn_password := pass |}.
Definition publish_of (qospid : QosPid) (retain : bool) (topic : string) (payload : list Z) : Packet :=
  PPublish {| pub_dup := false; pub_qospid := qospid; pub_retain := retain;
              pub_topic_name := topic; pub_payload := payload |}.

Definition subscribe_bytes : list Z :=
  [0x82; 0x09; 0x00; 0x01; 0x00; 0x04; 116; 101; 115; 116; 0x00].

Definition read_tests : suite := [
  ("read_connect_minimal_packet",
   let expected := connect_of 30 "cid" None None in
   reads 512 (encode_packet expected) = Some (Ok expected));
  ("read_connect_with_username_and_password",
   let expected := connect_of 45 "client-1" (Some "user") (Some (as_bytes "secret")) in
   match reads 512 (encode_packet expected) with
   | Some (Ok (PConnect c)) =>
       cn_username c = Some "user" ∧ cn_password c = Some (as_bytes "secret") ∧
       cn_client_id c = "client-1"
   | _ => False
   end);
  ("read_publish_qos0_packet",
   let expected := publish_of QP_AtMostOnce false "test" (as_bytes "hello") in
   reads 128 (encode_packet expected) = Some (Ok expected));
  ("read_publish_qos1_packet",
   let expected := publish_of (QP_AtLeastOnce 1) false "test" (as_bytes "hello") in
   reads 128 (encode_packet expected) = Some (Ok expected));
  ("read_subscribe_single_topic_qos0",
   match reads 128 subscribe_bytes with
   | Some (Ok (PSubscribe s)) =>
       sub_pid s = 1 ∧ sub_topics s = [{| st_topic_path := "test"; st_qos := AtMostOnce |}]
   | _ => False
   end)]%string.

Definition read_more_tests : suite := [
  ("read_pingreq_packet", reads 16 [0xC0; 0x00] = Some (Ok PPingreq));
  ("read_disconnect_packet", reads 16 [0xE0; 0x00] = Some (Ok PDisconnect));
  ("read_empty_transport_returns_eof",
   block_on (read_packet 16 Mock.new).1 = Some (Err Eof));
  ("read_truncated_packet_returns_eof",
   let encoded := encode_packet (connect_of 30 "cid" None None) in
   reads 128 (take (length encoded - 1) encoded) = Some (Err Eof));
  ("read_packet_too_large_returns_error",
   reads 512 [0x30; 0xB0; 0x09] = Some (Err (PacketTooLarge 1203 512)));
  ("read_multibyte_remaining_length_packet",
   match reads 512 (encode_packet (publish_of QP_AtMostOnce false "big/topic" (replicate 200 97))) with
   | Some (Ok (PPublish p)) =>
       pub_topic_name p = "big/topic" ∧ length (pub_payload p) = 200%nat ∧
       forallb (Z.eqb 97) (pub_payload p) = true
   | _ => False
   end)]%string.

(** The bytes [write_packet] puts on a fresh transport. *)
Definition writes (MAX : nat) (packet : Packet) : list (list Z) :=
  Mock.tx_log (write_packet MAX Mock.new packet).2.

Definition write_and_round_trip_tests : suite := [
  ("write_connack_packet",
   writes 16 (PConnack {| ca_session_present := false; ca_code := Accepted |})
     = [[0x20; 0x02; 0x00; 0x00]]);
  ("write_connack_bad_username_password_packet",
   writes 16 (PConnack {| ca_session_present := false; ca_code := BadUsernamePassword |})
     = [[0x20; 0x02; 0x00; 0x04]]);
  ("write_suback_packet",
   writes 16 <$> decode_packet [0x90; 0x03; 0x00; 0x01; 0x00]
     = Some [[0x90; 0x03; 0x00; 0x01; 0x00]]);
  ("write_puback_packet", writes 16 (PPuback 5) = [[0x40; 0x02; 0x00; 0x05]]);
  ("write_pingresp_packet", writes 16 PPingresp = [[0xD0; 0x00]]);
  ("write_publish_retain_packet_sets_retain_bit",
   (head (writes 64 (publish_of QP_AtMostOnce true "test" (as_bytes "hello"))) ≫= head)
     = Some 0x31);
  ("round_trip_connect_packet",
   assert_round_trip (connect_of 30 "cid" (Some "user") (Some (as_bytes "pw"))));
  ("round_trip_connack_packet",
   assert_round_trip (PConnack {| ca_session_present := false; ca_code := Accepted |}));
  ("round_trip_publish_qos0_packet",
   assert_round_trip (publish_of QP_AtMostOnce false "topic/a" (as_bytes "hello")));
  ("round_trip_publish_qos1_packet",
   assert_round_trip (publish_of (QP_AtLeastOnce 7) false "topic/b" (as_bytes "hello")));
  ("round_trip_subscribe_packet",
   from_option assert_round_trip False (decode_packet subscribe_bytes));
  ("round_trip_suback_packet",
   from_option assert_round_trip False (decode_packet [0x90; 0x03; 0x00; 0x01; 0x00]));
  ("round_trip_puback_packet", assert_round_trip (PPuback 5));
  ("round_trip_pingreq_packet", assert_round_trip PPingreq);
  ("round_trip_pingresp_packet", assert_round_trip PPingresp);
  ("round_trip_disconnect_packet", assert_round_trip PDisconnect)]%string.

Lemma frame_tests_pass :
  passes read_tests ∧ passes read_more_tests ∧ passes write_and_round_trip_tests.
Proof. split_and!; replay. Qed.

(** ** [slot.rs] *)
Definition after_replace (s : Slot.Slot Z) (v : Z) : Slot.Slot Z := (Slot.replace s v).2.

(** All-zero memory: the flag is clear, the value bits are whatever zero means
    for the type. *)
Definition zeroed (bits : option Z) : Slot.Slot Z :=
  {| Slot.occupied := false; Slot.state := bits |}.

(** [Rc::strong_count]: one for the counter and one for each live clone; a
    slot that is dropped drops the value it holds. *)
Definition strong_count (slot : option (Slot.Slot Z)) : nat :=
  match slot with
  | Some s => match Slot.drop s with Val (Some _) => 2 | _ => 1 end
  | None => 1
  end.

Definition slot_tests : suite := [
  ("empty_is_none", Slot.is_none (Slot.EMPTY (T := Z)) = true ∧
                    Slot.as_ref (Slot.EMPTY (T := Z)) = Val None);
  ("replace_returns_none_first_time",
   let '(old, s) := Slot.replace Slot.EMPTY 42 in old = Val None ∧ Slot.as_ref s = Val (Some 42));
  ("replace_returns_old_value",
   let '(old, s) := Slot.replace (after_replace Slot.EMPTY 1) 2 in
   old = Val (Some 1) ∧ Slot.as_ref s = Val (Some 2));
  ("take_returns_value_and_empties_slot",
   let '(old, s) := Slot.take (after_replace Slot.EMPTY 42) in
   old = Val (Some 42) ∧ Slot.is_none s = true);
  ("zeroed_slot_is_empty", Slot.is_none (zeroed (Some 0)) = true);
  ("zeroed_slot_with_drop_type_is_empty", Slot.drop (zeroed None) = Val None);
  ("drop_calls_inner_drop_when_occupied",
   strong_count (Some (after_replace Slot.EMPTY 7)) = 2%nat ∧ strong_count None = 1%nat)]%string.

Lemma slot_tests_pass : passes slot_tests.
Proof. replay. Qed.

(** ** [transport/mod.rs] *)
Definition mock_transport_tests : suite := [
  ("feed_then_read_returns_bytes_in_order",
   let '(r1, t) := Mock.mock_read (fed (as_bytes "hello")) 3 in
   let '(r2, _) := Mock.mock_read t 3 in
   r1 = Some (Ok (as_bytes "hel")) ∧ r2 = Some (Ok (as_bytes "lo")));
  ("write_appends_to_tx_log",
   let t := (Mock.mock_write Mock.new (as_bytes "pong")).2 in
   let t := (Mock.mock_write t (as_bytes "ack")).2 in
   Mock.tx_log t = [as_bytes "pong"; as_bytes "ack"])]%string.

Lemma mock_transport_tests_pass : passes mock_transport_tests.
Proof. replay. Qed.

(** ** [transport/tls.rs] *)
Record MockTlsSession := {
  mt_rx : list (list Z);
  mt_tx : list (list Z);
  mt_accepted : bool;
  mt_closed : bool;
  mt_write_chunk : option nat;
  mt_fail_accept : bool;
  mt_fail_read : bool;
  mt_fail_write : bool;
  mt_fail_flush : bool;
}.

Definition mt_new (rx : list (list Z)) (write_chunk : option nat)
  (fail_accept fail_read fail_write fail_flush : bool) : MockTlsSession :=
  {| mt_rx := rx; mt_tx := []; mt_accepted := false; mt_closed := false;
     mt_write_chunk := write_chunk; mt_fail_accept := fail_accept; mt_fail_read := fail_read;
     mt_fail_write := fail_write; mt_fail_flush := fail_flush |}.

Definition mt_set (s : MockTlsSession) (rx tx : list (list Z)) (accepted closed : bool)
  : MockTlsSession :=
  {| mt_rx := rx; mt_tx := tx; mt_accepted := accepted; mt_closed := closed;
     mt_write_chunk := mt_write_chunk s; mt_fail_accept := mt_fail_accept s;
     mt_fail_read := mt_fail_read s; mt_fail_write := mt_fail_write s;
     mt_fail_flush := mt_fail_flush s |}.

Definition mt_accept (s : MockTlsSession) : option (result string unit) * MockTlsSession :=
  if mt_fail_accept s then (Some (Err "accept failed"), s)
  else (Some (Ok tt), mt_set s (mt_rx s) (mt_tx s) true (mt_closed s)).

Definition mt_read (s : MockTlsSession) (n : nat)
  : option (result string (list Z)) * MockTlsSession :=
  if mt_fail_read s then (Some (Err "read failed"), s)
  else match mt_rx s with
       | [] => (Some (Ok []), s)
       | chunk :: rest =>
           let read_len := Nat.min n (length chunk) in
           let rx := if decide (read_len < length chunk)%nat
                     then drop read_len chunk :: rest else rest in
           (Some (Ok (take read_len chunk)),
            mt_set s rx (mt_tx s) (mt_accepted s) (mt_closed s))
       end.

Definition mt_write (s : MockTlsSession) (buf : list Z) : result string nat * MockTlsSession :=
  if mt_fail_write s then (Err "write failed", s)
  else
    let consumed := match mt_write_chunk s with
                    | Some n => Nat.min n (length buf) | None => length buf end in
    (Ok consumed,
     mt_set s (mt_rx s)
       (if decide (0 < consumed)%nat then mt_tx s ++ [take consumed buf] else mt_tx s)
       (mt_accepted s) (mt_closed s)).

Definition mt_flush (s : MockTlsSession) : result string unit * MockTlsSession :=
  if mt_fail_flush s then (Err "flush failed", s) else (Ok tt, s).

Definition mt_close (s : MockTlsSession) : MockTlsSession :=
  mt_set s (mt_rx s) (mt_tx s) (mt_accepted s) true.

#[global] Instance mt_writer : PartialWriter MockTlsSession string.
Proof.
  refine {| pw_write := mt_write; sent s := concat (mt_tx s) |}.
  - intros s bs n s'. unfold mt_write. destruct (mt_fail_write s); [done|]. intros [= <- <-].
    split; [destruct (mt_write_chunk s); lia|]. simpl. case_decide as Hc.
    + rewrite concat_app. simpl. by rewrite app_nil_r.
    + assert (match mt_write_chunk s with Some n => Nat.min n (length bs) | None => length bs end
              = 0%nat) as -> by lia. by rewrite app_nil_r.
  - intros s bs e s'. unfold mt_write. destruct (mt_fail_write s); [|done]. by intros [= _ <-].
Defined.

#[global] Instance mt_session : TlsSession MockTlsSession string.
Proof.
  refine {| tls_accept := mt_accept; tls_read := mt_read; tls_flush := mt_flush;
            tls_close := mt_close |}.
  - intros s n bs s'. unfold mt_read. destruct (mt_fail_read s); [done|].
    destruct (mt_rx s); intros; simplify_eq/=; [lia|]. rewrite length_take. lia.
  - intros s. unfold mt_flush. by destruct (mt_fail_flush s).
Defined.

Definition over (s : MockTlsSession) : Tls.TlsTransport MockTlsSession := {| Tls.session := s |}.

Definition tls_transport_tests : suite := [
  ("accept_delegates_to_session_and_sets_accepted_flag",
   let '(r, t) := Tls.accept (over (mt_new [] None false false false false)) in
   r = Some (Ok tt) ∧ mt_accepted (Tls.session t) = true);
  ("accept_propagates_session_error",
   (Tls.accept (over (mt_new [] None true false false false))).1 = Some (Err "accept failed"));
  ("read_delegates_to_session",
   (Tls.tlst_read (over (mt_new [as_bytes "hello"] None false false false false)) 5).1
     = Some (Ok (as_bytes "hello")));
  ("read_returns_zero_on_eof",
   (Tls.tlst_read (over (mt_new [] None false false false false)) 4).1 = Some (Ok []));
  ("read_maps_session_error_to_tls_error",
   (Tls.tlst_read (over (mt_new [] None false true false false)) 4).1
     = Some (Err (Tls.TlsErr "read failed")));
  ("write_sends_all_bytes_in_one_chunk_and_flushes",
   let '(r, t) := Tls.tlst_write (over (mt_new [] None false false false false)) (as_bytes "hello") in
   r = Ok tt ∧ mt_tx (Tls.session t) = [as_bytes "hello"]);
  ("write_loops_when_session_write_returns_partial_bytes",
   let '(r, t) :=
     Tls.tlst_write (over (mt_new [] (Some 3%nat) false false false false)) (as_bytes "hello") in
   r = Ok tt ∧ concat (mt_tx (Tls.session t)) = as_bytes "hello");
  ("write_returns_write_zero_when_session_accepts_zero_bytes",
   (Tls.tlst_write (over (mt_new [] (Some 0%nat) false false false false)) (as_bytes "hello")).1
     = Err Tls.WriteZero);
  ("write_maps_session_write_error_to_tls_error",
   (Tls.tlst_write (over (mt_new [] None false false true false)) (as_bytes "hello")).1
     = Err (Tls.TlsErr "write failed"));
  ("write_maps_flush_error_to_tls_error",
   (Tls.tlst_write (over (mt_new [] None false false false true)) (as_bytes "hello")).1
     = Err (Tls.TlsErr "flush failed"));
  ("close_delegates_to_session",
   mt_closed (Tls.session (Tls.tlst_close (over (mt_new [] None false false false false))))
     = true)]%string.

Lemma tls_transport_tests_pass : passes tls_transport_tests.
Proof. replay. Qed.

(** ** [session/notify.rs] *)
Definition notify_tests : suite := [
  ("reset_session_signal_clears_queued_notification",
   let signals := signal_session (new_session_signals 2) 1 in
   signaled signals 1 = true ∧
   signaled (reset_session_signal (signal_session signals 1) 1) 1 = false)]%string.

(** ** [session/rate_limit.rs] *)
Definition secs (n : Z) : Instant := n * 1000000.
Definition millis (n : Z) : Instant := n * 1000.

(** [n] calls at one instant: the answers and the bucket. *)
Fixpoint consume_times (n : nat) (now : Instant) (b : RateLimit.TokenBucket)
  : list bool * RateLimit.TokenBucket :=
  match n with
  | O => ([], b)
  | S n =>
      let '(r, b) := RateLimit.try_consume b now in
      let '(rs, b) := consume_times n now b in (r :: rs, b)
  end.

Definition rate_limit_tests : suite := [
  ("starts_with_full_capacity_and_allows_initial_burst",
   let '(rs, b) := consume_times 20 (secs 0) (RateLimit.new 20 10) in
   rs = replicate 20 true ∧ RateLimit.tokens b = 0 ∧ RateLimit.violations b = 0);
  ("twenty_first_consume_fails_and_increments_violations",
   let '(rs, b) := consume_times 20 (secs 0) (RateLimit.new 20 10) in
   let '(r, b) := RateLimit.try_consume b (secs 0) in
   rs = replicate 20 true ∧ r = false ∧ RateLimit.violations b = 1);
  ("one_second_refills_rate_tokens",
   let '(rs, b) := consume_times 20 (secs 0) (RateLimit.new 20 10) in
   let '(r, b) := RateLimit.try_consume b (secs 1) in
   rs = replicate 20 true ∧ r = true ∧ RateLimit.tokens b = 9 ∧ RateLimit.violations b = 0);
  ("refill_does_not_exceed_capacity",
   let '(rs, b) := consume_times 5 (secs 0) (RateLimit.new 20 10) in
   let '(r, b) := RateLimit.try_consume b (secs 10) in
   rs = replicate 5 true ∧ r = true ∧ RateLimit.tokens b = 19);
  ("fifty_consecutive_violations_are_counted",
   let '(r, b) := RateLimit.try_consume (RateLimit.new 1 0) (secs 0) in
   let '(rs, b) := consume_times 50 (secs 0) b in
   r = true ∧ rs = replicate 50 false ∧ RateLimit.violations b = 50);
  ("successful_consume_resets_violations",
   let '(rs, b) := consume_times 3 (secs 0) (RateLimit.new 1 1) in
   let '(r, b') := RateLimit.try_consume b (secs 1) in
   rs = [true; false; false] ∧ RateLimit.violations b = 2 ∧ r = true ∧
   RateLimit.violations b' = 0);
  ("reset_violations_clears_counter",
   let '(rs, b) := consume_times 2 (secs 0) (RateLimit.new 1 0) in
   rs = [true; false] ∧ RateLimit.violations b = 1 ∧
   RateLimit.violations (RateLimit.reset_violations b) = 0)]%string.

Lemma notify_and_rate_tests_pass : passes notify_tests ∧ passes rate_limit_tests.
Proof. split; replay. Qed.

(** ** [session/state.rs] *)
Definition inflight_entry (packet_id : Z) (sent_at : Instant) : InflightEntry :=
  {| ie_packet_id := packet_id; ie_publish := {| h_slot := 0; h_generation := 1 |};
     ie_qos := AtLeastOnce; ie_sent_at := sent_at; ie_retries := 0 |}.

(** [inflight_add(...).unwrap()] for each entry in turn. *)
Fixpoint add_entries (s : SessionState) (es : list InflightEntry) : option SessionState :=
  match es with
  | [] => Some s
  | e :: es => match inflight_add 16 s e with (Ok _, s) => add_entries s es | (Err _, _) => None end
  end.

Definition mobile : SessionState := Session.new "mobile-app" 60.

Definition session_and_inflight_tests : suite := [
  ("session_state_new_initializes_empty_fields",
   client_id mobile = "mobile-app"%string ∧ subscriptions mobile = [] ∧ inflight mobile = [] ∧
   outbox mobile = [] ∧ keepalive_secs mobile = 60 ∧ last_activity mobile = 0 ∧
   lwt mobile = None ∧ outbox_drops mobile = 0 ∧ quarantined mobile = false);
  ("update_activity_sets_last_activity",
   last_activity (update_activity_at mobile (secs 42)) = secs 42);
  ("keepalive_deadline_uses_one_and_a_half_keepalive_window",
   keepalive_deadline (update_activity_at mobile (secs 100)) = secs 190);
  ("keepalive_expiration_is_false_before_deadline_and_true_after",
   let s := update_activity_at mobile (secs 100) in
   is_keepalive_expired s (secs 190) = false ∧ is_keepalive_expired s (secs 191) = true);
  ("keepalive_zero_disables_expiration",
   let s := update_activity_at (Session.new "mobile-app" 0) (secs 100) in
   keepalive_deadline s = U64_MAX ∧ is_keepalive_expired s (secs 10000) = false);
  ("inflight_add_accepts_up_to_capacity",
   match add_entries mobile
           ((λ n, inflight_entry (Z.of_nat n) (millis (Z.of_nat n))) <$> seq 1 16) with
   | Some s => length (inflight s) = 16%nat ∧
               is_ok (inflight_add 16 s (inflight_entry 17 (millis 17))).1 = false
   | None => False
   end);
  ("inflight_ack_removes_matching_entry",
   match add_entries mobile
           [inflight_entry 1 (millis 1); inflight_entry 3 (millis 3); inflight_entry 5 (millis 5)] with
   | Some s => let '(acked, s) := inflight_ack s 3 in
       acked = true ∧ length (inflight s) = 2%nat ∧
       forallb (λ e, negb (Z.eqb (ie_packet_id e) 3)) (inflight s) = true
   | None => False
   end);
  ("inflight_ack_returns_false_for_missing_packet_id",
   match add_entries mobile [inflight_entry 1 (millis 1)] with
   | Some s => let '(acked, s) := inflight_ack s 999 in
       acked = false ∧ length (inflight s) = 1%nat
   | None => False
   end);
  ("inflight_expired_returns_only_entries_older_than_timeout",
   match add_entries mobile [inflight_entry 1 (millis 100); inflight_entry 2 (millis 180)] with
   | Some s => (ie_packet_id <$> inflight_expired_at s (millis 200) 50) = [1]
   | None => False
   end)]%string.

Definition client60 (last : Instant) : SessionState :=
  update_activity_at (Session.new "client" 60) last.

Definition wakeup_tests : suite := [
  ("next_wakeup_no_keepalive_returns_max_wait",
   next_wakeup_after (Session.new "client" 0) (secs 100) 5000 (millis 50) = millis 50);
  ("next_wakeup_keepalive_far_away_returns_max_wait",
   next_wakeup_after (client60 (secs 100)) (secs 100) 5000 (millis 50) = millis 50);
  ("next_wakeup_keepalive_close_returns_remaining",
   next_wakeup_after (client60 (millis 0)) (millis 89990) 5000 (millis 50) = millis 10);
  ("next_wakeup_expired_keepalive_returns_one_tick",
   next_wakeup_after (client60 (secs 0)) (secs 200) 5000 (millis 50) = 1);
  ("next_wakeup_inflight_retry_closer_than_keepalive_returns_retry_time",
   match add_entries (client60 (secs 100)) [inflight_entry 1 (millis 99900)] with
   | Some s => next_wakeup_after s (millis 100000) 5000 (millis 50) = millis 50
   | None => False
   end);
  ("next_wakeup_inflight_retry_overdue_returns_one_tick",
   match add_entries (client60 (secs 100)) [inflight_entry 1 (millis 90000)] with
   | Some s => next_wakeup_after s (millis 100000) 5000 (millis 50) = 1
   | None => False
   end);
  ("next_packet_id_wraps_and_skips_zero",
   let '(a, s) := next_packet_id (set_next_packet_id mobile (U16_MAX - 1)) in
   a = U16_MAX ∧ (next_packet_id s).1 = 1)]%string.

Lemma state_tests_pass : passes session_and_inflight_tests ∧ passes wakeup_tests.
Proof. split_and!; replay. Qed.

(** ** [session/registry.rs] *)
Definition session (cid : string) (keepalive : Z) : SessionState := Session.new cid keepalive.

(** [insert(...).unwrap()] for each session in turn: the identifiers. *)
Fixpoint insert_all (reg : SessionRegistry) (l : list SessionState)
  : option (list SessionId * SessionRegistry) :=
  match l with
  | [] => Some ([], reg)
  | s :: l =>
      match Registry.insert reg s with
      | (Ok id, reg) => (λ '(ids, reg), (id :: ids, reg)) <$> insert_all reg l
      | (Err _, _) => None
      end
  end.

Definition registry_of (N MAX_INFLIGHT : nat) (l : list SessionState)
  : option (list SessionId * SessionRegistry) := insert_all (Registry.new N MAX_INFLIGHT) l.

Definition eight : option (list SessionId * SessionRegistry) :=
  registry_of 8 2 ((λ idx, session (numbered "client-" idx) 30) <$> seq 0 8).

Definition registry_tests : suite := [
  ("insert_eight_sessions_sets_len_to_eight",
   match eight with
   | Some (_, reg) => Registry.len reg = 8%nat ∧ Registry.is_full 8 reg = true
   | None => False
   end);
  ("ninth_insert_returns_full_error",
   match eight with
   | Some (_, reg) => (Registry.insert reg (session "client-overflow" 30)).1 = Err Full
   | None => False
   end);
  ("remove_then_insert_reuses_same_slot",
   match registry_of 8 2 [session "client-a" 30; session "client-b" 30] with
   | Some ([first_id; second_id], reg) =>
       let '(removed, reg) := Registry.remove reg first_id in
       (client_id <$> removed) = Some "client-a"%string ∧ second_id = 1%nat ∧
       (Registry.insert reg (session "client-c" 30)).1 = Ok first_id
   | _ => False
   end);
  ("find_by_client_id_returns_matching_session_id",
   match registry_of 8 2 [session "mobile-app" 45; session "web-panel" 45] with
   | Some ([expected_id; _], reg) => find_by_client_id reg "mobile-app" = Some expected_id
   | _ => False
   end);
  ("find_by_client_id_returns_none_for_missing_client",
   match registry_of 8 2 [session "mobile-app" 45] with
   | Some (_, reg) => find_by_client_id reg "missing-client" = None
   | _ => False
   end);
  ("duplicate_client_ids_are_allowed",
   match registry_of 8 2 [session "mobile-app" 45; session "mobile-app" 90] with
   | Some ([first_id; second_id], reg) =>
       bool_decide (first_id = second_id) = false ∧ Registry.len reg = 2%nat
   | _ => False
   end);
  ("iter_skips_empty_slots",
   match registry_of 8 2 [session "client-0" 30; session "client-1" 30; session "client-2" 30] with
   | Some ([id0; id1; id2], reg) =>
       (Registry.iter (Registry.remove reg id1).2).*1 = [id0; id2]
   | _ => False
   end);
  ("remove_nonexistent_id_returns_none",
   match registry_of 8 2 [session "client-0" 30] with
   | Some (_, reg) => (Registry.remove reg 9).1 = None ∧ (Registry.remove reg 4).1 = None
   | _ => False
   end);
  ("get_mut_persists_changes_in_registry",
   match registry_of 8 2 [session "mobile-app" 30] with
   | Some ([id], reg) =>
       match get reg id with
       | Some state => (keepalive_secs <$> get (put reg id (set_keepalive_secs state 120)) id)
                         = Some 120
       | None => False
       end
   | _ => False
   end)]%string.

Lemma registry_tests_pass : passes registry_tests.
Proof. replay. Qed.

(** ** [router/subscriptions.rs] *)
Definition subscribed (cid : string) (subs : list (string * QoS)) : SessionState :=
  set_subscriptions (Session.new cid 60)
    ((λ '(f, q), {| sub_filter := f; sub_qos := q |}) <$> subs).

Definition subscription_tests : suite := [
  ("topic_matches_test_exact_true", topic_matches "test" "test" = true);
  ("topic_matches_test_exact_false", topic_matches "test" "other" = false);
  ("topic_matches_multilevel_exact_true", topic_matches "a/b/c" "a/b/c" = true);
  ("topic_matches_multilevel_exact_false", topic_matches "a/b/c" "a/b/d" = false);
  ("topic_matches_plus_cases",
   topic_matches "a/+/c" "a/b/c" = true ∧ topic_matches "a/+/c" "a/X/c" = true ∧
   topic_matches "a/+/c" "a/b/d" = false ∧ topic_matches "a/+/c" "a/b/c/d" = false ∧
   topic_matches "a/+" "a/b" = true ∧ topic_matches "a/+" "a/b/c" = false ∧
   topic_matches "+" "a" = true ∧ topic_matches "+" "a/b" = false);
  ("plus_does_not_match_empty_level",
   topic_matches "a/+/c" "a//c" = false ∧ topic_matches "+" EmptyString = false);
  ("realistic_smartbox_filter_matches",
   topic_matches "sb/+/device/+/state" "sb/house1/device/relay-1/state" = true);
  ("sys_topics_do_not_match_wildcards",
   topic_matches "$SYS/broker" "$SYS/broker" = true ∧ topic_matches "+" "$SYS/broker" = false);
  ("hash_wildcard_matches_all_levels_below",
   topic_matches "#" "a" = true ∧ topic_matches "#" "a/b/c" = true ∧
   topic_matches "a/#" "a/b" = true ∧ topic_matches "a/#" "a/b/c/d" = true ∧
   topic_matches "sb/#" "sb/house1/device/relay-1/state" = true);
  ("hash_wildcard_matches_parent_level_alone", topic_matches "a/#" "a" = true);
  ("hash_wildcard_does_not_match_different_prefix",
   topic_matches "a/#" "b/c" = false ∧ topic_matches "a/b/#" "a/c/d" = false);
  ("hash_wildcard_does_not_match_dollar_topics", topic_matches "#" "$SYS/broker" = false);
  ("collect_subscribers_deduplicates_sessions_with_multiple_matching_filters",
   match registry_of 8 4
     [subscribed "mobile-app" [("devices/+/temp", AtMostOnce); ("devices/kitchen/temp", AtLeastOnce)];
      subscribed "wall-panel" [("devices/living/temp", AtMostOnce)]] with
   | Some ([first_id; second_id], reg) =>
       collect_subscribers 8 reg "devices/kitchen/temp" = [first_id]
   | _ => False
   end)]%string.

(** ** [router/dispatcher.rs] *)
Definition all_dispatcher_tests : suite := [
  ("excludes_sender_from_delivery_list",
   match registry_of 8 4 [subscribed "sender" [("devices/+/temp", AtMostOnce)];
                          subscribed "receiver" [("devices/+/temp", AtLeastOnce)]] with
   | Some ([sender_id; receiver_id], reg) =>
       find_subscribers 8 reg "devices/kitchen/temp" sender_id = [(receiver_id, AtLeastOnce)]
   | _ => False
   end);
  ("collects_matching_subscribers_only",
   match registry_of 8 4 [subscribed "sender" [];
                          subscribed "exact" [("devices/kitchen/temp", AtMostOnce)];
                          subscribed "wildcard" [("devices/+/temp", AtLeastOnce)];
                          subscribed "other" [("devices/living/humidity", ExactlyOnce)]] with
   | Some ([sender_id; exact_id; wildcard_id; _], reg) =>
       find_subscribers 8 reg "devices/kitchen/temp" sender_id
         = [(exact_id, AtMostOnce); (wildcard_id, AtLeastOnce)]
   | _ => False
   end);
  ("multiple_matching_filters_use_maximum_qos_for_session",
   match registry_of 8 4 [subscribed "sender" [];
                          subscribed "receiver" [("devices/+/temp", AtMostOnce);
                            ("devices/kitchen/temp", ExactlyOnce); ("devices/#", AtLeastOnce)]] with
   | Some ([sender_id; matched_id], reg) =>
       find_subscribers 8 reg "devices/kitchen/temp" sender_id = [(matched_id, ExactlyOnce)]
   | _ => False
   end);
  ("returns_empty_when_no_matching_subscribers",
   match registry_of 8 4 [subscribed "sender" [];
                          subscribed "receiver" [("devices/living/humidity", AtMostOnce)]] with
   | Some ([sender_id; _], reg) => find_subscribers 8 reg "devices/kitchen/temp" sender_id = []
   | _ => False
   end);
  ("find_all_includes_every_matching_session_without_exclusion",
   match registry_of 8 4 [subscribed "a" [("devices/+/temp", AtMostOnce)];
                          subscribed "b" [("devices/kitchen/temp", AtLeastOnce)]] with
   | Some ([a; b], reg) =>
       let ids := (find_all_subscribers 8 reg "devices/kitchen/temp").*1 in
       length ids = 2%nat ∧ bool_decide (a ∈ ids) = true ∧ bool_decide (b ∈ ids) = true
   | _ => False
   end);
  ("find_all_returns_empty_when_no_matching_subscribers",
   match registry_of 8 4 [subscribed "a" [("other/topic", AtMostOnce)]] with
   | Some (_, reg) => find_all_subscribers 8 reg "devices/kitchen/temp" = []
   | _ => False
   end);
  ("find_all_handles_more_than_sixteen_matching_sessions",
   match registry_of 20 4 ((λ index, subscribed (numbered "client-" index)
                                       [("devices/+/temp"%string, AtMostOnce)]) <$> seq 0 20) with
   | Some (_, reg) => length (find_all_subscribers 20 reg "devices/kitchen/temp") = 20%nat
   | _ => False
   end)]%string.

Lemma router_tests_pass :
  passes subscription_tests ∧ passes all_dispatcher_tests.
Proof. split_and!; replay. Qed.

(** ** [router/retained.rs] *)
Import Retained.

(** [set(...).unwrap()] for each call in turn. *)
Fixpoint store_of (st : RetainedStore) (calls : list (string * list Z * QoS)) : option RetainedStore :=
  match calls with
  | [] => Some st
  | (topic, payload, qos) :: calls =>
      match Retained.set 64 st topic payload qos with
      | (Ok _, st) => store_of st calls
      | (Err _, _) => None
      end
  end.

Definition sixty_four : list (string * list Z * QoS) :=
  (λ idx, (numbered "a/" idx, [Z.of_nat idx], AtMostOnce)) <$> seq 0 64.

(** [set] returning [Full]: the store's error for a new entry over capacity. *)
Definition retained_tests : suite := [
  ("set_new_entry_increases_len",
   (Retained.len <$> store_of Retained.new [("a/b", [1; 2; 3], AtMostOnce)]) = Some 1%nat);
  ("set_existing_entry_updates_payload_and_qos",
   match store_of Retained.new [("a/b", [1; 2; 3], AtMostOnce); ("a/b", [4; 5; 6], AtLeastOnce)] with
   | Some st => Retained.len st = 1%nat ∧
       ((λ e, (re_payload e, re_qos e)) <$> head (Retained.matching st "a/b"))
         = Some ([4; 5; 6], AtLeastOnce)
   | None => False
   end);
  ("set_empty_payload_deletes_existing_entry",
   (Retained.len <$> store_of Retained.new [("a/b", [1; 2; 3], AtMostOnce); ("a/b", [], AtMostOnce)])
     = Some 0%nat);
  ("set_empty_payload_for_missing_entry_is_noop",
   (Retained.len <$> store_of Retained.new [("a/b", [], AtMostOnce)]) = Some 0%nat);
  ("set_new_entry_over_capacity_returns_full",
   match store_of Retained.new sixty_four with
   | Some st => (Retained.set 64 st "a/overflow" [255] AtMostOnce).1 = Err StoreFull
   | None => False
   end);
  ("set_existing_entry_when_full_updates_in_place",
   match store_of Retained.new (sixty_four ++ [("a/10", [9; 9], AtLeastOnce)]) with
   | Some st => Retained.len st = 64%nat ∧
       ((λ e, (re_payload e, re_qos e)) <$> head (Retained.matching st "a/10"))
         = Some ([9; 9], AtLeastOnce)
   | None => False
   end);
  ("matching_plus_finds_only_single_level_matches",
   match store_of Retained.new
           [("a/b", [1], AtMostOnce); ("a/c", [2], AtMostOnce); ("a/b/c", [3], AtMostOnce)] with
   | Some st => (re_topic <$> Retained.matching st "a/+") = ["a/b"; "a/c"]
   | None => False
   end);
  ("matching_exact_finds_only_exact_topic",
   match store_of Retained.new [("a/b", [1], AtMostOnce); ("a/c", [2], AtMostOnce)] with
   | Some st => (re_topic <$> Retained.matching st "a/b") = ["a/b"]
   | None => False
   end);
  ("iter_returns_all_entries",
   match store_of Retained.new [("a/b", [1], AtMostOnce); ("c/d", [2], AtLeastOnce)] with
   | Some st => (re_topic <$> Retained.iter st) = ["a/b"; "c/d"]
   | None => False
   end);
  ("matching_missing_topic_returns_empty_iterator",
   match store_of Retained.new [("a/b", [1], AtMostOnce)] with
   | Some st => Retained.matching st "missing/topic" = []
   | None => False
   end)]%string.

(** ** [handler/pingreq.rs]: the clock reads [now] during the call *)
Definition pingreq_test (before now after : Instant) : Prop :=
  let '(r, s, t) := Subscribe.handle_pingreq 32 Mock.new mobile now in
  r = Ok tt ∧ Mock.tx_log t = [[0xD0; 0x00]] ∧
  bool_decide (before ≤ last_activity s) = true ∧ bool_decide (last_activity s ≤ after) = true.

Lemma retained_and_ping_tests_pass :
  passes retained_tests ∧ pingreq_test 5 6 7.
Proof. split; [replay|by vm_compute]. Qed.
End TestsCore.
