(* ===== verification/TestsConnect.v ===== *)
(** * TestsConnect: the unit tests of the CONNECT handler

    [handler/connect.rs], [mod tests]; see [Suite.v]. *)

From S2P Require Import Prelude External Reference Transport Frame Topics RateLimit.
From S2P Require Import Session Registry Connect Suite TestsCore.

Open Scope Z_scope.

Module TestsConnect.
Import Frame Session Registry Connect TestsCore.

Abbreviation MAX_SESSIONS := 8%nat (only parsing).
Abbreviation MAX_INFLIGHT := 16%nat (only parsing).
Abbreviation MAX_PACKET_SIZE := 512%nat (only parsing).

Definition house_token : HouseToken := {| ht_username := "house"; ht_password := "secret" |}.

(** [valid_connect] with the fields the tests overwrite. *)
Definition connect_with (protocol : Protocol) (keep_alive : Z) (cid : string) (clean : bool)
  (will : option LastWill) (user : option string) (pass : option string) : Connect :=
  {| cn_protocol := protocol; cn_keep_alive := keep_alive; cn_client_id := cid;
     cn_clean_session := clean; cn_last_will := will; cn_username := user;
     cn_password := as_bytes <$> pass |}.

Definition valid_connect : Connect :=
  connect_with MQTT311 60 "mobile-app" true None (Some "house"%string) (Some "secret"%string).
(** [packet.client_id = cid], [packet.clean_session = false]. *)
Definition valid_connect_of (cid : string) : Connect :=
  connect_with MQTT311 60 cid true None (Some "house"%string) (Some "secret"%string).
Definition resuming_connect : Connect :=
  connect_with MQTT311 60 "mobile-app" false None (Some "house"%string) (Some "secret"%string).

Definition registry : SessionRegistry := Registry.new MAX_SESSIONS MAX_INFLIGHT.

(** [block_on(handle_connect(&mut MockTransport::new(), ...))]: the answer, the
    registry and the transport afterwards. *)
Definition connect (reg : SessionRegistry) (packet : Connect)
  : option (result (ConnectError (WriteError mqtt_error unit)) SessionId)
    * SessionRegistry * Mock.MockTransport :=
  let '(r, reg, t) := handle_connect MAX_SESSIONS MAX_PACKET_SIZE Mock.new reg packet house_token in
  (block_on r, reg, t).

(** The CONNECT is refused with [code], the CONNACK [wire] is the only frame
    written and the transport is closed. *)
Definition rejected (reg : SessionRegistry) (packet : Connect) (code : ConnectReturnCode)
  (wire : list Z) : Prop :=
  let '(r, _, transport) := connect reg packet in
  r = Some (Err (CeRejected code)) ∧ Mock.tx_log transport = [wire] ∧ Mock.closed transport = true.

(** The registry the test builds with [insert(...).unwrap()]. *)
Definition holding (l : list SessionState) : SessionRegistry :=
  match insert_all registry l with Some (_, reg) => reg | None => registry end.

Definition connect_tests : suite := [
  ("connect_with_valid_token_is_accepted",
   let '(r, _, transport) := connect registry valid_connect in
   r = Some (Ok 0%nat) ∧ Mock.tx_log transport = [[0x20; 0x02; 0x00; 0x00]] ∧
   Mock.closed transport = false);
  ("wrong_password_is_rejected_and_transport_closed",
   rejected registry
     (connect_with MQTT311 60 "mobile-app" true None (Some "house") (Some "wrong"))
     BadUsernamePassword [0x20; 0x02; 0x00; 0x04]);
  ("wrong_username_is_rejected_and_transport_closed",
   rejected registry
     (connect_with MQTT311 60 "mobile-app" true None (Some "wrong") (Some "secret"))
     BadUsernamePassword [0x20; 0x02; 0x00; 0x04]);
  ("empty_client_id_is_rejected",
   rejected registry (valid_connect_of EmptyString)
     RefusedIdentifierRejected [0x20; 0x02; 0x00; 0x02]);
  ("unsupported_protocol_is_rejected",
   rejected registry
     (connect_with MQIsdp 60 "mobile-app" true None (Some "house") (Some "secret"))
     RefusedProtocolVersion [0x20; 0x02; 0x00; 0x01])]%string.

(** Connecting [client-0] to [client-(n-1)] in turn; each gets its index, an
    accepting CONNACK and an open transport. *)
Fixpoint connect_each (reg : SessionRegistry) (idxs : list nat) : Prop * SessionRegistry :=
  match idxs with
  | [] => (True, reg)
  | idx :: idxs =>
      let '(r, reg, transport) := connect reg (valid_connect_of (numbered "client-" idx)) in
      let '(rest, reg) := connect_each reg idxs in
      ((r = Some (Ok idx) ∧ Mock.tx_log transport = [[0x20; 0x02; 0x00; 0x00]] ∧
        Mock.closed transport = false) ∧ rest, reg)
  end.

Definition capacity_tests : suite := [
  ("full_registry_is_rejected_with_service_unavailable",
   rejected (holding ((λ idx, Session.new (numbered "client-" idx) 30) <$> seq 0 8))
     (valid_connect_of "new-client") ServerUnavailable [0x20; 0x02; 0x00; 0x03]);
  ("nine_valid_connect_attempts_keep_registry_bounded_to_eight_sessions",
   let '(all_accepted, reg) := connect_each registry (seq 0 8) in
   let '(r, reg, transport) := connect reg (valid_connect_of "client-8") in
   all_accepted ∧ r = Some (Err (CeRejected ServerUnavailable)) ∧
   Registry.len reg = MAX_SESSIONS ∧ Registry.is_full MAX_SESSIONS reg = true ∧
   find_by_client_id reg "client-8" = None ∧
   Mock.tx_log transport = [[0x20; 0x02; 0x00; 0x03]] ∧ Mock.closed transport = true)]%string.

Definition device_will (topic : string) : LastWill :=
  {| lw_topic := topic; lw_message := as_bytes "offline"; lw_qos := AtLeastOnce; lw_retain := true |}.
Definition device_lwt (topic : string) : LwtMessage :=
  {| lwt_topic := topic; lwt_payload := as_bytes "offline"; lwt_qos := AtLeastOnce;
     lwt_retain := true |}.

Definition will_tests : suite := [
  ("connect_with_lwt_stores_it_in_session_state",
   match connect registry (connect_with MQTT311 60 "mobile-app" true
           (Some (device_will "house/device/status")) (Some "house") (Some "secret")) with
   | (Some (Ok session_id), reg, _) =>
       (get reg session_id ≫= lwt) = Some (device_lwt "house/device/status")
   | _ => False
   end);
  ("duplicate_client_id_removes_old_session_and_records_old_lwt",
   match insert_all registry
           [set_lwt (Session.new "mobile-app" 30) (Some (device_lwt "house/device/status"))] with
   | Some ([old_session_id], reg) =>
       match handle_connect_with_outcome MAX_SESSIONS MAX_PACKET_SIZE Mock.new reg
               valid_connect house_token with
       | (Done (Ok o), reg, _) =>
           Registry.len reg = 1%nat ∧ co_session_id o = old_session_id ∧
           bool_decide (is_Some (get reg old_session_id)) = true ∧
           published_lwts reg = [device_lwt "house/device/status"] ∧
           (lwt_payload <$> co_displaced_lwt o) = Some (as_bytes "offline")
       | _ => False
       end
   | _ => False
   end);
  ("missing_username_and_password_is_rejected",
   rejected registry (connect_with MQTT311 60 "mobile-app" true None None None)
     BadUsernamePassword [0x20; 0x02; 0x00; 0x04])]%string.

Definition clean_session_tests : suite := [
  ("clean_session_true_always_creates_fresh_session_and_sends_no_session_present",
   match connect (holding [Session.new "mobile-app" 30]) valid_connect with
   | (Some (Ok id), reg, transport) =>
       Mock.tx_log transport = [[0x20; 0x02; 0x00; 0x00]] ∧ Registry.len reg = 1%nat ∧
       (client_id <$> get reg id) = Some "mobile-app"%string
   | _ => False
   end);
  ("clean_session_false_no_existing_session_creates_fresh_and_returns_no_session_present",
   match connect registry resuming_connect with
   | (Some (Ok _), reg, transport) =>
       Mock.tx_log transport = [[0x20; 0x02; 0x00; 0x00]] ∧ Registry.len reg = 1%nat
   | _ => False
   end);
  ("clean_session_false_resumes_existing_session_and_sends_session_present_true",
   match connect (holding [Session.new "mobile-app" 30]) resuming_connect with
   | (Some (Ok _), reg, transport) =>
       Mock.tx_log transport = [[0x20; 0x02; 0x01; 0x00]] ∧ Registry.len reg = 1%nat
   | _ => False
   end)]%string.

Definition resume_tests : suite := [
  ("clean_session_false_preserves_subscriptions_on_resume",
   match insert_all registry [set_subscriptions (Session.new "mobile-app" 30)
           [{| sub_filter := "sb/house1/device/+/state"; sub_qos := AtLeastOnce |}]] with
   | Some ([old_id], reg) =>
       match connect reg resuming_connect with
       | (Some (Ok resumed_id), reg, _) =>
           resumed_id = old_id ∧
           ((λ s, sub_filter <$> subscriptions s) <$> get reg resumed_id)
             = Some ["sb/house1/device/+/state"%string]
       | _ => False
       end
   | _ => False
   end);
  ("clean_session_false_updates_lwt_and_keepalive_on_resume",
   match connect (holding [Session.new "mobile-app" 30])
           (connect_with MQTT311 120 "mobile-app" false
              (Some (device_will "sb/house1/device/app/state")) (Some "house") (Some "secret")) with
   | (Some (Ok resumed_id), reg, _) =>
       match get reg resumed_id with
       | Some s => keepalive_secs s = 120 ∧
           ((λ l, (lwt_topic l, lwt_payload l)) <$> lwt s)
             = Some ("sb/house1/device/app/state"%string, as_bytes "offline")
       | None => False
       end
   | _ => False
   end);
  ("clean_session_false_resets_quarantine_flag_on_resume",
   match connect (holding [set_outbox_drops (set_quarantined (Session.new "mobile-app" 30) true) 99])
           resuming_connect with
   | (Some (Ok resumed_id), reg, _) =>
       ((λ s, (quarantined s, outbox_drops s)) <$> get reg resumed_id) = Some (false, 0)
   | _ => False
   end);
  ("ct_eq_matches_only_identical_inputs",
   ct_eq (as_bytes "secret") (as_bytes "secret") = true ∧
   ct_eq (as_bytes "secret") (as_bytes "secreu") = false ∧
   ct_eq (as_bytes "secret") (as_bytes "secret-2") = false)]%string.

Lemma connect_tests_pass :
  passes connect_tests ∧ passes capacity_tests ∧ passes will_tests ∧
  passes clean_session_tests ∧ passes resume_tests.
Proof. split_and!; replay. Qed.
End TestsConnect.
