(* ===== verification/TestsSubscribe.v ===== *)
(** * TestsSubscribe: the unit tests of SUBSCRIBE and UNSUBSCRIBE

    [handler/subscribe.rs], [mod tests]; see [Suite.v]. *)

From S2P Require Import Prelude External Reference Transport Frame Topics RateLimit.
From S2P Require Import Session Registry Retained Router Subscribe Suite TestsCore.

Open Scope Z_scope.

Module TestsSubscribe.
Import Frame Session Registry Router Subscribe TestsCore.

Abbreviation MAX_SESSIONS := 8%nat (only parsing).
Abbreviation MAX_SUBS := 32%nat (only parsing).
Abbreviation MAX_INFLIGHT := 16%nat (only parsing).
Abbreviation MAX_RETAINED := 8%nat (only parsing).
Abbreviation MAX_PACKET_SIZE := 512%nat (only parsing).

Definition registry_with_session : SessionRegistry * SessionId :=
  match Registry.insert (Registry.new MAX_SESSIONS MAX_INFLIGHT) (Session.new "mobile-app" 60) with
  | (Ok session_id, reg) => (reg, session_id)
  | (Err _, reg) => (reg, 0%nat)
  end.

Definition subscribe_packet_many (items : list (string * QoS)) (pid : Z) : Subscribe :=
  {| sub_pid := pid;
     sub_topics := (λ '(filter, qos), {| st_topic_path := filter; st_qos := qos |}) <$> items |}.
Definition subscribe_packet (filter : string) (qos : QoS) (pid : Z) : Subscribe :=
  subscribe_packet_many [(filter, qos)] pid.
Definition unsubscribe_packet (filter : string) (pid : Z) : Unsubscribe :=
  {| un_pid := pid; un_topics := [filter] |}.

(** The test's two variables. *)
Definition env : Type := SessionRegistry * Mock.MockTransport.
Definition start : env := (registry_with_session.1, Mock.new).
Definition session_id : SessionId := registry_with_session.2.

(** [block_on(handle_subscribe(&mut transport, registry.get_mut(session_id).unwrap(), ...)).unwrap()]:
    [None] when an [unwrap] panics. *)
Definition subscribe (retained : Retained.RetainedStore) (e : env) (packet : Subscribe) : option env :=
  let '(reg, transport) := e in
  session ← get reg session_id;
  match handle_subscribe MAX_SUBS MAX_RETAINED MAX_PACKET_SIZE transport session packet retained with
  | (Done (Ok _), session, transport) => Some (put reg session_id session, transport)
  | _ => None
  end.

Definition subscribe_all (e : env) (packets : list Subscribe) : option env :=
  foldl (λ e packet, e ≫= λ e, subscribe Retained.new e packet) (Some e) packets.

Definition unsubscribe (e : env) (packet : Unsubscribe) : option env :=
  let '(reg, transport) := e in
  session ← get reg session_id;
  match handle_unsubscribe MAX_PACKET_SIZE transport session packet with
  | (Ok _, session, transport) => Some (put reg session_id session, transport)
  | _ => None
  end.

Definition unsubscribe_for_id (e : env) (packet : Unsubscribe) : option env :=
  let '(reg, transport) := e in
  match handle_unsubscribe_for_session_id MAX_PACKET_SIZE transport reg session_id packet with
  | (Ok _, reg, transport) => Some (reg, transport)
  | _ => None
  end.

(** [transport.tx_log.clear()] *)
Definition clear_log (e : env) : env :=
  (e.1, {| Mock.tx_log := []; Mock.rx_queue := Mock.rx_queue e.2; Mock.closed := Mock.closed e.2 |}).

Definition subs_of (e : option env) : option (list (string * QoS)) :=
  e ≫= λ e, (λ s, (λ x, (sub_filter x, sub_qos x)) <$> subscriptions s) <$> get e.1 session_id.
Definition log_of (e : option env) : option (list (list Z)) := (λ e, Mock.tx_log e.2) <$> e.
Definition matched (e : option env) (topic : string) : option (list SessionId) :=
  (λ e, collect_subscribers MAX_SESSIONS e.1 topic) <$> e.

Definition subscribe_tests : suite := [
  ("subscribe_stores_exact_filter_and_sends_suback",
   let e := subscribe_all start [subscribe_packet "devices/kitchen/temp" AtMostOnce 1] in
   subs_of e = Some [("devices/kitchen/temp", AtMostOnce)] ∧
   log_of e = Some [[0x90; 0x03; 0x00; 0x01; 0x00]]);
  ("subscribe_single_topic_qos1_returns_qos1_suback",
   log_of (subscribe_all start [subscribe_packet "devices/+/temp" AtLeastOnce 12])
     = Some [[0x90; 0x03; 0x00; 0x0C; 0x01]]);
  ("subscribe_three_topics_returns_three_codes",
   log_of (subscribe_all start [subscribe_packet_many
             [("a/one", AtMostOnce); ("a/two", AtLeastOnce); ("a/three", ExactlyOnce)] 1])
     = Some [[0x90; 0x05; 0x00; 0x01; 0x00; 0x01; 0x02]]);
  ("subscribe_with_plus_filter_is_matched_by_router",
   matched (subscribe_all start [subscribe_packet "devices/+/temp" AtLeastOnce 2])
     "devices/kitchen/temp" = Some [session_id])]%string.

Definition upsert_tests : suite := [
  ("subscribe_over_capacity_returns_failure_code_and_keeps_existing_entries",
   let e := subscribe_all start
     ((λ idx, subscribe_packet (String.append (numbered "devices/" idx) "/temp") AtMostOnce
                (Z.of_nat idx + 1)) <$> seq 0 MAX_SUBS) in
   let e := e ≫= λ e, subscribe Retained.new (clear_log e)
                        (subscribe_packet "devices/c/temp" AtLeastOnce 3) in
   (length <$> subs_of e) = Some MAX_SUBS ∧ log_of e = Some [[0x90; 0x03; 0x00; 0x03; 0x80]]);
  ("duplicate_subscribe_updates_qos_without_duplicate_entries",
   subs_of (subscribe_all start [subscribe_packet "devices/kitchen/temp" AtMostOnce 1;
                                 subscribe_packet "devices/kitchen/temp" AtLeastOnce 2])
     = Some [("devices/kitchen/temp", AtLeastOnce)])]%string.

Definition filter_tests : suite := [
  ("invalid_empty_filter_returns_failure_code",
   log_of (subscribe_all start [subscribe_packet EmptyString AtMostOnce 4])
     = Some [[0x90; 0x03; 0x00; 0x04; 0x80]]);
  ("invalid_hash_not_at_end_returns_failure_code",
   log_of (subscribe_all start [subscribe_packet "a/#/b" AtMostOnce 5])
     = Some [[0x90; 0x03; 0x00; 0x05; 0x80]]);
  ("valid_hash_at_end_is_accepted",
   (length <$> subs_of (subscribe_all start [subscribe_packet "sb/#" AtMostOnce 10;
      subscribe_packet "#" AtMostOnce 11; subscribe_packet "sb/house1/#" AtMostOnce 12]))
     = Some 3%nat);
  ("embedded_hash_not_preceded_by_slash_returns_failure_code",
   log_of (subscribe_all start [subscribe_packet "ab#" AtMostOnce 13])
     = Some [[0x90; 0x03; 0x00; 0x0D; 0x80]]);
  ("embedded_plus_not_a_complete_level_returns_failure_code",
   log_of (subscribe_all start [subscribe_packet "a+b/c" AtMostOnce 14])
     = Some [[0x90; 0x03; 0x00; 0x0E; 0x80]])]%string.

(** [retained.set(...).unwrap()] for each call, in a store of capacity [n]. *)
Definition retained_with (n : nat) (calls : list (string * list Z)) : Retained.RetainedStore :=
  foldl (λ st '(topic, payload), (Retained.set n st topic payload AtMostOnce).2) Retained.new calls.

Definition retained_delivery_tests : suite := [
  ("retained_messages_are_delivered_after_subscribe",
   let retained := retained_with MAX_RETAINED [("devices/kitchen/temp", as_bytes "21.5");
                                               ("devices/living/humidity", as_bytes "45")] in
   match log_of (subscribe retained start (subscribe_packet "devices/+/temp" AtMostOnce 6)) with
   | Some (suback :: publish :: _) =>
       suback = [0x90; 0x03; 0x00; 0x06; 0x00] ∧
       match decode_packet publish with
       | Some (PPublish p) =>
           pub_qospid p = QP_AtMostOnce ∧ pub_retain p = true ∧
           pub_topic_name p = "devices/kitchen/temp"%string ∧ pub_payload p = as_bytes "21.5"
       | _ => False
       end
   | _ => False
   end);
  ("prepared_subscribe_keeps_more_than_sixteen_retained_deliveries",
   let retained := retained_with 20
     ((λ index, (String.append (numbered "devices/" index) "/temp", [Z.of_nat index])) <$> seq 0 20) in
   match (prepare_subscribe MAX_SUBS 20 (Session.new "mobile-app" 60)
            (subscribe_packet "devices/+/temp" AtMostOnce 15) retained).1 with
   | Done prepared => length (ps_retained_deliveries prepared) = 20%nat
   | _ => False
   end);
  ("subscribe_to_missing_session_returns_error",
   let '(r, _, transport) :=
     handle_subscribe_for_session_id MAX_SUBS MAX_RETAINED MAX_PACKET_SIZE Mock.new
       (Registry.new MAX_SESSIONS MAX_INFLIGHT) 99
       (subscribe_packet "devices/kitchen/temp" AtMostOnce 7) Retained.new in
   block_on r = Some (Err (SessionNotFound 99)) ∧ Mock.tx_log transport = [])]%string.

Definition unsubscribe_tests : suite := [
  ("unsubscribe_removes_filter_and_sends_unsuback",
   let e := subscribe_all start [subscribe_packet "devices/+/temp" AtLeastOnce 2] in
   let e := e ≫= λ e, unsubscribe (clear_log e) (unsubscribe_packet "devices/+/temp" 9) in
   subs_of e = Some [] ∧ log_of e = Some [[0xB0; 0x02; 0x00; 0x09]]);
  ("unsubscribe_missing_filter_still_sends_unsuback",
   let e := unsubscribe start (unsubscribe_packet "devices/missing/temp" 11) in
   subs_of e = Some [] ∧ log_of e = Some [[0xB0; 0x02; 0x00; 0x0B]]);
  ("unsubscribe_stops_router_matching_for_topic",
   let e := subscribe_all start [subscribe_packet "devices/+/temp" AtLeastOnce 2] in
   let e := e ≫= λ e, unsubscribe_for_id e (unsubscribe_packet "devices/+/temp" 9) in
   matched e "devices/kitchen/temp" = Some [])]%string.

Lemma subscribe_tests_pass :
  passes subscribe_tests ∧ passes upsert_tests ∧ passes filter_tests ∧
  passes retained_delivery_tests ∧ passes unsubscribe_tests.
Proof. split_and!; replay. Qed.
End TestsSubscribe.
