(* ===== verification/TestsPublish.v ===== *)
(** * TestsPublish: the unit tests of PUBLISH, PUBACK and the retries

    [handler/publish.rs], [mod tests]; see [Suite.v]. *)

From S2P Require Import Prelude External Reference Transport Frame Topics RateLimit.
From S2P Require Import Session Registry Retained Router Publish Suite TestsCore.

Open Scope Z_scope.

Module TestsPublish.
Import Frame Session Registry Notify Router Command Publish TestsCore.

Abbreviation MAX_SESSIONS := 8%nat (only parsing).
Abbreviation MAX_INFLIGHT := 4%nat (only parsing).
Abbreviation MAX_RETAINED := 64%nat (only parsing).
Abbreviation MAX_PACKET_SIZE := 512%nat (only parsing).

(** [session]: the client with its subscriptions. *)
Definition client (cid : string) (subs : list (string * QoS)) : SessionState := subscribed cid subs.

Definition fake_publish_handle : StoredPublishHandle := {| h_slot := 0; h_generation := 1 |}.
Definition inflight_with (h : StoredPublishHandle) (packet_id : Z) (sent_at : Instant) (retries : Z)
  : InflightEntry :=
  {| ie_packet_id := packet_id; ie_publish := h; ie_qos := AtLeastOnce; ie_sent_at := sent_at;
     ie_retries := retries |}.

Definition publish (topic : string) (payload : list Z) (retain : bool) : External.Publish :=
  {| pub_dup := false; pub_qospid := QP_AtMostOnce; pub_retain := retain; pub_topic_name := topic;
     pub_payload := payload |}.
Definition publish_qos1 (topic : string) (payload : list Z) : External.Publish :=
  {| pub_dup := false; pub_qospid := QP_AtLeastOnce 1; pub_retain := false;
     pub_topic_name := topic; pub_payload := payload |}.

Definition decode_publish (bytes : list Z) : option External.Publish :=
  match decode_packet bytes with Some (PPublish p) => Some p | _ => None end.

(** The test's variables: the clients are inserted in turn, so client [i] has
    session id [i]; the store is empty, nothing is signalled. *)
Definition state : Type := Broker MockCommandHandler.
Definition with_clients (overloaded : bool) (clients : list SessionState) : state :=
  {| b_registry := match registry_of MAX_SESSIONS MAX_INFLIGHT clients with
                   | Some (_, reg) => reg | None => Registry.new MAX_SESSIONS MAX_INFLIGHT end;
     b_retained := Retained.new; b_signals := new_session_signals MAX_SESSIONS;
     b_handler := {| received := []; overloaded := overloaded |} |}.
Definition broker : list SessionState → state := with_clients false.

(** [handle_publish(...).await.unwrap()]; the clock of the tests reads zero. *)
Definition published (b : state) (sender : SessionId) (p : External.Publish) : option state :=
  match handle_publish MAX_SESSIONS MAX_INFLIGHT MAX_RETAINED b sender p 0 with
  | (Ok _, b) => Some b | (Err _, _) => None
  end.

Definition at_session {A} (f : SessionState → A) (b : option state) (id : SessionId) : option A :=
  b ≫= λ b, f <$> get (b_registry b) id.
Definition outbox_len : option state → SessionId → option nat := at_session (λ s, length (outbox s)).
Definition front_publish (b : option state) (id : SessionId) : option External.Publish :=
  at_session outbox b id ≫= λ q, head q ≫= λ f, decode_publish (ob_bytes f).

Definition routing_tests : suite := [
  ("publish_routes_to_matching_subscriber",
   let b := published (broker [client "a" []; client "b" [("test/topic", AtMostOnce)]]) 0
              (publish "test/topic" (as_bytes "hello") false) in
   ((λ p, (pub_topic_name p, pub_payload p)) <$> front_publish b 1)
     = Some ("test/topic", as_bytes "hello") ∧
   at_session (λ s, RateLimit.violations (rate s)) b 0 = Some 0);
  ("sender_does_not_receive_own_publish",
   let b := published (broker [client "a" [("test/topic", AtMostOnce)];
                               client "b" [("test/topic", AtMostOnce)]]) 0
              (publish "test/topic" (as_bytes "hello") false) in
   outbox_len b 0 = Some 0%nat ∧ outbox_len b 1 = Some 1%nat);
  ("publish_with_no_subscribers_is_ok",
   outbox_len (published (broker [client "a" []]) 0 (publish "test/topic" (as_bytes "hello") false)) 0
     = Some 0%nat)]%string.

(** [retained.set("test/topic", b"one", AtMostOnce).unwrap()] before the call *)
Definition seeded (b : state) : state :=
  {| b_registry := b_registry b;
     b_retained := (Retained.set MAX_RETAINED (b_retained b) "test/topic" (as_bytes "one") AtMostOnce).2;
     b_signals := b_signals b; b_handler := b_handler b |}.

Definition retain_tests : suite := [
  ("retain_true_sets_and_updates_retained_store",
   let b := published (broker [client "a" []]) 0 (publish "test/topic" (as_bytes "one") true) in
   let b := b ≫= λ b, published b 0 (publish "test/topic" (as_bytes "two") true) in
   ((λ b, Retained.len (b_retained b)) <$> b) = Some 1%nat ∧
   ((λ b, Retained.re_payload <$> head (Retained.matching (b_retained b) "test/topic")) <$> b)
     = Some (Some (as_bytes "two")));
  ("retain_true_empty_payload_deletes_retained_entry",
   ((λ b, Retained.len (b_retained b)) <$>
      published (seeded (broker [client "a" []])) 0 (publish "test/topic" [] true)) = Some 0%nat);
  ("retain_false_does_not_modify_retained_store",
   ((λ b, Retained.len (b_retained b)) <$>
      published (broker [client "a" []]) 0 (publish "test/topic" (as_bytes "one") false))
     = Some 0%nat)]%string.

Definition relay_set : string := "sb/house1/device/relay-1/set".

Definition command_tests : suite := [
  ("command_topic_is_delivered_to_command_handler",
   ((λ b, received (b_handler b)) <$>
      published (broker [client "a" []]) 0 (publish relay_set (as_bytes "on") false))
     = Some [{| mi_topic := relay_set; mi_payload := as_bytes "on"; mi_qos := AtMostOnce |}]);
  ("state_topic_does_not_reach_command_handler",
   ((λ b, received (b_handler b)) <$>
      published (broker [client "a" []]) 0
        (publish "sb/house1/device/relay-1/state" (as_bytes "on") false)) = Some []);
  ("qos0_command_overloaded_handler_drops_silently",
   ((λ b, received (b_handler b)) <$>
      published (with_clients true [client "a" []]) 0 (publish relay_set (as_bytes "on") false))
     = Some []);
  ("qos1_command_overloaded_handler_disconnects",
   (handle_publish MAX_SESSIONS MAX_INFLIGHT MAX_RETAINED (with_clients true [client "a" []]) 0
      (publish_qos1 relay_set (as_bytes "on")) 0).1 = Err CommandHandlerOverloaded)]%string.

(** ** Rate limiting: the sender has an empty bucket that never refills *)
Definition limited (qos : QoS) : state :=
  broker [set_rate (client "a" []) (RateLimit.new 0 0); client "b" [("test/topic"%string, qos)]].

Definition published_at (max_violations max_outbox_drops : Z) (sender : SessionId)
  (b : state) (p : External.Publish) : result PublishError unit * state :=
  handle_publish_at MAX_SESSIONS MAX_INFLIGHT MAX_RETAINED b sender p 0
    max_violations max_outbox_drops.

(** The same publish [n] times, each [unwrap]ped. *)
Fixpoint repeated (max_violations max_outbox_drops : Z) (sender : SessionId) (p : External.Publish)
  (n : nat) (b : state) : option state :=
  match n with
  | O => Some b
  | S n => match published_at max_violations max_outbox_drops sender b p with
           | (Ok _, b) => repeated max_violations max_outbox_drops sender p n b
           | (Err _, _) => None
           end
  end.

Definition hello : External.Publish := publish "test/topic" (as_bytes "hello") false.

Definition limit_tests : suite := [
  ("rate_limiter_drops_publish_without_disconnect_before_threshold",
   let b := repeated 50 16 0 hello 1 (limited AtMostOnce) in
   outbox_len b 1 = Some 0%nat ∧ at_session (λ s, RateLimit.violations (rate s)) b 0 = Some 1);
  ("repeated_rate_limited_publishes_request_disconnect_at_max_violations",
   match repeated 50 16 0 hello 49 (limited AtMostOnce) with
   | Some b =>
       let '(r, b) := published_at 50 16 0 b hello in
       r = Err RateLimitDisconnect ∧ outbox_len (Some b) 1 = Some 0%nat ∧
       at_session (λ s, RateLimit.violations (rate s)) (Some b) 0 = Some 50
   | None => False
   end);
  ("qos1_rate_limited_publish_disconnects_immediately",
   let '(r, b) := published_at 50 16 0 (limited AtLeastOnce)
                    (publish_qos1 "test/topic" (as_bytes "hello")) in
   r = Err RateLimitDisconnect ∧ outbox_len (Some b) 1 = Some 0%nat);
  ("qos0_rate_limited_publish_is_silently_dropped_before_threshold",
   let b := repeated 50 16 0 hello 1 (limited AtMostOnce) in
   outbox_len b 1 = Some 0%nat ∧ at_session (λ s, RateLimit.violations (rate s)) b 0 = Some 1)]%string.

Lemma publish_tests_pass :
  passes routing_tests ∧ passes retain_tests ∧ passes command_tests ∧ passes limit_tests.
Proof. split_and!; replay. Qed.

(** ** PUBACK: in the test build, [log_unknown_puback] counts the warnings *)
Definition puback_counting (warnings : Z) (s : SessionState) (packet_id : Z)
  : option StoredPublishHandle * SessionState * Z :=
  let '(r, s) := handle_puback s packet_id in
  (r, s, match r with Some _ => warnings | None => warnings + 1 end).

(** ** Retries *)
Definition registry_with_inflight (packet_id : Z) (sent_at : Instant) (retries : Z)
  : SessionRegistry :=
  let reg := b_registry (broker [client "a" []]) in
  match store_publish_ref reg "devices/kitchen/temp" (as_bytes "hello") false with
  | (Ok h, reg) =>
      match get reg 0 with
      | Some s => put reg 0 (inflight_add MAX_INFLIGHT s (inflight_with h packet_id sent_at retries)).2
      | None => reg
      end
  | (Err _, reg) => reg
  end.

Definition retried (reg : SessionRegistry) :=
  process_inflight_retries_at MAX_PACKET_SIZE 0 reg Mock.new 50 3 (millis 200).

Definition first_entry (reg : SessionRegistry) : option (Z * Instant) :=
  get reg 0 ≫= λ s, (λ e, (ie_retries e, ie_sent_at e)) <$> head (inflight s).

Definition puback_and_retry_tests : suite := [
  ("puback_for_existing_packet_id_removes_inflight_entry",
   let s := (inflight_add MAX_INFLIGHT (client "a" [])
               (inflight_with fake_publish_handle 3 (millis 100) 0)).2 in
   let s := (inflight_add MAX_INFLIGHT s (inflight_with fake_publish_handle 5 (millis 110) 0)).2 in
   let '(r, s) := handle_puback s 3 in
   r = Some fake_publish_handle ∧ (ie_packet_id <$> inflight s) = [5]);
  ("puback_for_missing_packet_id_logs_warning_without_panicking",
   let '(r, s, warnings) := puback_counting 0 (client "a" []) 999 in
   r = None ∧ warnings = 1 ∧ inflight s = []);
  ("expired_qos1_entry_is_retried_with_dup_bit_set",
   let '(r, reg, transport) := retried (registry_with_inflight 7 (millis 100) 0) in
   r = Ok tt ∧ first_entry reg = Some (1, millis 200) ∧
   ((λ f, (λ p, (pub_dup p, pub_qospid p, pub_payload p)) <$> decode_publish f)
      <$> Mock.tx_log transport) = [Some (true, QP_AtLeastOnce 7, as_bytes "hello")]);
  ("expired_entry_past_max_retries_requests_disconnect",
   let '(r, _, transport) := retried (registry_with_inflight 7 (millis 100) 3) in
   r = Err (MaxRetriesExceeded 7 4) ∧ Mock.tx_log transport = []);
  ("non_expired_entry_is_not_retried",
   let '(r, reg, transport) := retried (registry_with_inflight 7 (millis 180) 0) in
   r = Ok tt ∧ (fst <$> first_entry reg) = Some 0 ∧ Mock.tx_log transport = [])]%string.

(** ** Publishes of the device itself *)
Definition device_publish (topic payload : string) (retain : bool) : MqttPublish :=
  {| mp_topic := topic; mp_payload := as_bytes payload; mp_qos := AtMostOnce; mp_retain := retain |}.
Definition outbound (b : state) (p : MqttPublish) : option state :=
  match process_outbound_publish MAX_SESSIONS MAX_INFLIGHT MAX_RETAINED b p 0 with
  | (Ok _, b) => Some b | (Err _, _) => None
  end.

Definition outbound_tests : suite := [
  ("outbound_publish_routes_to_all_matching_subscribers",
   let b := outbound (broker [client "a" [("devices/+/temp", AtMostOnce)];
                              client "b" [("devices/kitchen/temp", AtLeastOnce)]])
              (device_publish "devices/kitchen/temp" "22" false) in
   outbox_len b 0 = Some 1%nat ∧ outbox_len b 1 = Some 1%nat);
  ("outbound_publish_includes_all_sessions_no_sender_exclusion",
   outbox_len (outbound (broker [client "a" [("test/topic", AtMostOnce)]])
                 (device_publish "test/topic" "payload" false)) 0 = Some 1%nat);
  ("outbound_publish_with_retain_updates_retained_store",
   let b := outbound (broker []) (device_publish "devices/kitchen/temp" "22" true) in
   ((λ b, Retained.len (b_retained b)) <$> b) = Some 1%nat ∧
   ((λ b, Retained.re_payload <$> head (Retained.matching (b_retained b) "devices/kitchen/temp"))
      <$> b) = Some (Some (as_bytes "22")));
  ("outbound_publish_with_no_subscribers_is_ok",
   bool_decide (is_Some (outbound (broker []) (device_publish "devices/kitchen/temp" "22" false)))
     = true)]%string.

(** ** Full outboxes *)
Definition dummy_frame : OutboundPacket := {| ob_bytes := [] |}.
Definition clogged (s : SessionState) : SessionState :=
  set_outbox s (repeat dummy_frame MAX_OUTBOX_DEPTH).

Definition backpressure_tests : suite := [
  ("slow_subscriber_is_quarantined_after_repeated_outbox_drops",
   let b := broker [client "sender" []; clogged (client "slow" [("test/topic", AtMostOnce)])] in
   let x := publish "test/topic" (as_bytes "x") false in
   let before := repeated U8_MAX 4 0 x 3 b in
   let after := repeated U8_MAX 4 0 x 4 b in
   at_session (λ s, (quarantined s, outbox_drops s)) before 1 = Some (false, 3) ∧
   at_session (λ s, (quarantined s, outbox_drops s)) after 1 = Some (true, 4));
  ("outbox_drops_reset_when_subscriber_catches_up",
   let s := set_outbox_drops
              (set_outbox_drops (client "sub" [("test/topic", AtMostOnce)]) 10) 0 in
   outbox_drops s = 0 ∧ quarantined s = false);
  ("full_outbox_on_one_subscriber_does_not_block_delivery_to_others",
   let b := published (broker [clogged (client "a" [("test/topic", AtMostOnce)]);
                               client "b" [("test/topic", AtMostOnce)]; client "sender" []]) 2 hello in
   outbox_len b 0 = Some MAX_OUTBOX_DEPTH ∧ outbox_len b 1 = Some 1%nat)]%string.

Lemma delivery_tests_pass :
  passes puback_and_retry_tests ∧ passes outbound_tests ∧ passes backpressure_tests.
Proof. split_and!; replay. Qed.

(** ** The QoS 1 pipeline *)
Definition hello_qos1 : External.Publish := publish_qos1 "test/topic" (as_bytes "hello").

Definition qos1_pid (p : option External.Publish) : option Z :=
  p ≫= λ p, match pub_qospid p with QP_AtLeastOnce pid => Some pid | _ => None end.

(** A sender and subscribers of [test/topic]; the sender is session 0. *)
Definition routed (subs : list (string * QoS)) (p : External.Publish) : option state :=
  published (broker (client "sender" [] ::
    ((λ '(cid, qos), client cid [("test/topic"%string, qos)]) <$> subs))) 0 p.

Definition entry_of (b : option state) (id : SessionId) : option InflightEntry :=
  at_session inflight b id ≫= head.

(** PUBACK of [packet_id] by [id], and the release of the stored publish. *)
Definition acked (b : option state) (id : SessionId) (packet_id : Z)
  : option (StoredPublishHandle * state) :=
  b ≫= λ b, s ← get (b_registry b) id;
  let '(r, s) := handle_puback s packet_id in
  h ← r;
  Some (h, {| b_registry := release_stored_publish (put (b_registry b) id s) h;
              b_retained := b_retained b; b_signals := b_signals b; b_handler := b_handler b |}).

Definition stored_in (b : option state) (h : StoredPublishHandle) : option (string * list Z) :=
  b ≫= λ b, (λ sp, (sp_topic sp, sp_payload sp)) <$> stored_publish (b_registry b) h.

Definition qos1_tracking_tests : suite := [
  ("qos1_routed_outbound_encodes_receiver_packet_id_in_bytes",
   let b := routed [("a", AtLeastOnce); ("b", AtLeastOnce)] hello_qos1 in
   match qos1_pid (front_publish b 1), qos1_pid (front_publish b 2) with
   | Some pid_a, Some pid_b => bool_decide (pid_a = 0) = false ∧ bool_decide (pid_b = 0) = false
   | _, _ => False
   end);
  ("qos1_routed_outbound_adds_inflight_entry_to_receiver_session",
   let b := routed [("sub", AtLeastOnce)] hello_qos1 in
   at_session (λ s, length (inflight s)) b 1 = Some 1%nat ∧
   match entry_of b 1 with
   | Some entry =>
       stored_in b (ie_publish entry) = Some ("test/topic"%string, as_bytes "hello") ∧
       ie_qos entry = AtLeastOnce ∧ ie_retries entry = 0 ∧
       qos1_pid (front_publish b 1) = Some (ie_packet_id entry)
   | None => False
   end)]%string.

Definition qos1_release_tests : suite := [
  ("qos1_fanout_shares_stored_publish_until_all_pubacks",
   let b := routed [("sub-a", AtLeastOnce); ("sub-b", AtLeastOnce)] hello_qos1 in
   match entry_of b 1, entry_of b 2 with
   | Some ea, Some eb =>
       ie_publish ea = ie_publish eb ∧
       bool_decide (is_Some (stored_in b (ie_publish ea))) = true ∧
       match acked b 1 (ie_packet_id ea) with
       | Some (_, b) =>
           bool_decide (is_Some (stored_in (Some b) (ie_publish ea))) = true ∧
           match acked (Some b) 2 (ie_packet_id eb) with
           | Some (_, b) => stored_in (Some b) (ie_publish ea) = None
           | None => False
           end
       | None => False
       end
   | _, _ => False
   end);
  ("qos1_routed_outbound_puback_removes_inflight_entry",
   let b := routed [("sub", AtLeastOnce)] hello_qos1 in
   match acked b 1 (default 0 (ie_packet_id <$> entry_of b 1)) with
   | Some (h, b) => at_session inflight (Some b) 1 = Some [] ∧ stored_in (Some b) h = None
   | None => False
   end);
  ("qos0_routed_outbound_does_not_add_inflight_entry",
   let b := routed [("sub", AtMostOnce)] hello in
   at_session inflight b 1 = Some [] ∧ outbox_len b 1 = Some 1%nat);
  ("qos1_downgraded_to_qos0_by_subscription_does_not_add_inflight",
   let b := routed [("sub", AtMostOnce)] hello_qos1 in
   at_session inflight b 1 = Some [] ∧ outbox_len b 1 = Some 1%nat ∧
   ((λ p, qospid_qos (pub_qospid p)) <$> front_publish b 1) = Some AtMostOnce)]%string.

Lemma qos1_tests_pass : passes qos1_tracking_tests ∧ passes qos1_release_tests.
Proof. split; replay. Qed.
End TestsPublish.
