(* ===== verification/TestsDisconnect.v ===== *)
(** * TestsDisconnect: the unit tests of the last will

    [handler/disconnect.rs], [mod tests]; see [Suite.v]. *)

From S2P Require Import Prelude External Reference Transport Frame Topics RateLimit.
From S2P Require Import Session Registry Retained Router Disconnect Suite TestsCore.

Open Scope Z_scope.

Module TestsDisconnect.
Import Session Registry Router Disconnect TestsCore.

Abbreviation MAX_SESSIONS := 8%nat (only parsing).
Abbreviation MAX_INFLIGHT := 4%nat (only parsing).
Abbreviation MAX_RETAINED := 64%nat (only parsing).

(** The broadcaster that remembers its calls, and the one that fails. *)
Record BroadcastRecord := {
  br_deliveries : list (SessionId * QoS);
  br_topic : string;
  br_payload : list Z;
  br_qos : QoS;
  br_retain : bool;
}.
Record RecordingBroadcaster := { records : list BroadcastRecord }.

Definition record_broadcast (b : RecordingBroadcaster) (deliveries : list (SessionId * QoS))
  (l : LwtMessage) : result LwtBroadcastError unit * RecordingBroadcaster :=
  (Ok tt, {| records := records b ++ [{| br_deliveries := deliveries; br_topic := lwt_topic l;
     br_payload := lwt_payload l; br_qos := lwt_qos l; br_retain := lwt_retain l |}] |}).
#[global] Instance recording_broadcaster : LwtBroadcaster RecordingBroadcaster :=
  {| broadcast := record_broadcast |}.

Inductive FailingBroadcaster := AlwaysFails.
#[global] Instance failing_broadcaster : LwtBroadcaster FailingBroadcaster :=
  {| broadcast b _ _ := (Err DeliveryFailed, b) |}.

Definition relay_state : string := "sb/house1/device/relay-1/state".
Definition offline (retain : bool) : LwtMessage :=
  {| lwt_topic := relay_state; lwt_payload := as_bytes "offline"; lwt_qos := AtLeastOnce;
     lwt_retain := retain |}.
Definition leaving (cid : string) (l : option LwtMessage) : SessionState :=
  set_lwt (subscribed cid []) l.

Definition table (n : nat) (clients : list SessionState) : SessionRegistry :=
  match registry_of n MAX_INFLIGHT clients with
  | Some (_, reg) => reg | None => Registry.new n MAX_INFLIGHT
  end.

(** [block_on(publish_lwt_if_needed(...)).unwrap()] on an empty retained store:
    the store and the broadcasts. *)
Definition leaves (n : nat) (s : SessionState) (clients : list SessionState)
  (reason : DisconnectReason) : option (Retained.RetainedStore * list BroadcastRecord) :=
  match publish_lwt_if_needed n MAX_RETAINED s (table n clients) Retained.new
          {| records := [] |} reason with
  | (Ok _, store, b) => Some (store, records b)
  | (Err _, _, _) => None
  end.

Definition lwt_tests : suite := [
  ("clean_disconnect_does_not_publish_lwt",
   leaves 8 (leaving "mobile-app" (Some (offline false))) [] ClientDisconnect
     = Some (Retained.new, []));
  ("keepalive_timeout_disconnect_publishes_lwt_to_matching_subscribers",
   match leaves 8 (leaving "sensor-1" (Some (offline false)))
           [subscribed "dashboard" [(relay_state, AtMostOnce)];
            subscribed "mobile" [("sb/+/device/+/state", AtLeastOnce)];
            subscribed "other" [("sb/+/device/+/set", ExactlyOnce)]] KeepaliveTimeout with
   | Some (_, [r]) =>
       br_deliveries r = [(0%nat, AtMostOnce); (1%nat, AtLeastOnce)] ∧
       br_topic r = relay_state ∧ br_payload r = as_bytes "offline"
   | _ => False
   end);
  ("disconnect_without_lwt_does_not_publish_anything",
   leaves 8 (leaving "sensor-1" None) [subscribed "dashboard" [(relay_state, AtMostOnce)]]
     ConnectionClosed = Some (Retained.new, []))]%string.

Definition lwt_delivery_tests : suite := [
  ("retained_lwt_updates_retained_store",
   match leaves 8 (leaving "sensor-1" (Some (offline true))) [] ConnectionClosed with
   | Some (store, _) =>
       Retained.len store = 1%nat ∧
       ((λ e, (Retained.re_payload e, Retained.re_qos e))
          <$> head (Retained.matching store relay_state))
         = Some (as_bytes "offline", AtLeastOnce)
   | None => False
   end);
  ("broadcaster_error_is_returned",
   (publish_lwt_if_needed 8 MAX_RETAINED (leaving "sensor-1" (Some (offline false)))
      (table 8 [subscribed "dashboard" [(relay_state, AtMostOnce)]]) Retained.new AlwaysFails
      ConnectionClosed).1.1 = Err (DeBroadcast DeliveryFailed));
  ("lwt_reaches_more_than_sixteen_matching_sessions",
   match leaves 20 (leaving "sensor-1" (Some (offline false)))
           ((λ index, subscribed (numbered "dashboard-" index) [(relay_state, AtMostOnce)])
              <$> seq 0 20) ConnectionClosed with
   | Some (_, [r]) => length (br_deliveries r) = 20%nat
   | _ => False
   end)]%string.

Lemma disconnect_tests_pass : passes lwt_tests ∧ passes lwt_delivery_tests.
Proof. split; replay. Qed.
End TestsDisconnect.
