(* ===== verification/TestsConnection.v ===== *)
(** * TestsConnection: the unit tests of the connection task

    [handler/connection.rs], [mod tests]; see [Suite.v].  Three tests start a
    thread that waits for the session to appear, changes it and signals it.
    The thread runs under the registry lock, so it acts between two steps of
    the task; the tests are replayed with the thread acting after every
    possible number of steps. *)

From S2P Require Import Prelude External Reference Keyed Transport Frame Topics RateLimit.
From S2P Require Import Session Registry Invariants Retained Router Connect Subscribe Publish.
From S2P Require Import Disconnect Connection Suite TestsCore.

Open Scope Z_scope.

Module TestsConnection.
Import Frame Session Registry Notify Command Publish Connection TestsCore.

Abbreviation MAX_SESSIONS := 8%nat (only parsing).
Abbreviation MAX_SUBS := 32%nat (only parsing).
Abbreviation MAX_INFLIGHT := 16%nat (only parsing).
Abbreviation MAX_RETAINED := 64%nat (only parsing).
Abbreviation INBOUND_N := 8%nat (only parsing).
Abbreviation MAX_PACKET_SIZE := 512%nat (only parsing).

(** ** The transport: reads wait for data until the test calls [finish] *)
Record AsyncMockTransport := {
  am_rx : list (list Z);
  am_tx : list (list Z);
  am_eof : bool;
  am_closed : bool;
}.
Definition am_new : AsyncMockTransport :=
  {| am_rx := []; am_tx := []; am_eof := false; am_closed := false |}.
Definition am_feed (t : AsyncMockTransport) (data : list Z) : AsyncMockTransport :=
  {| am_rx := am_rx t ++ [data]; am_tx := am_tx t; am_eof := am_eof t; am_closed := am_closed t |}.
Definition am_finish (t : AsyncMockTransport) : AsyncMockTransport :=
  {| am_rx := am_rx t; am_tx := am_tx t; am_eof := true; am_closed := am_closed t |}.

Definition am_read (t : AsyncMockTransport) (n : nat)
  : option (result unit (list Z)) * AsyncMockTransport :=
  match am_rx t with
  | chunk :: queue =>
      let read_len := Nat.min n (length chunk) in
      let queue := if decide (read_len < length chunk)%nat
                   then drop read_len chunk :: queue else queue in
      (Some (Ok (take read_len chunk)),
       {| am_rx := queue; am_tx := am_tx t; am_eof := am_eof t; am_closed := am_closed t |})
  | [] => (if am_eof t then Some (Ok []) else None, t)
  end.
Definition am_write (t : AsyncMockTransport) (buf : list Z) : result unit unit * AsyncMockTransport :=
  (Ok tt, {| am_rx := am_rx t; am_tx := am_tx t ++ [buf]; am_eof := am_eof t;
             am_closed := am_closed t |}).
Definition am_close (t : AsyncMockTransport) : AsyncMockTransport :=
  {| am_rx := am_rx t; am_tx := am_tx t; am_eof := true; am_closed := true |}.

#[global] Instance async_mock_transport : Transport AsyncMockTransport unit.
Proof.
  refine {| t_read := am_read; t_write := am_write; t_close := am_close |}.
  intros t n bs t'. unfold am_read. destruct (am_rx t); [destruct (am_eof t)|];
    intros; simplify_eq; simpl; [lia|]. rewrite length_take. lia.
Defined.

(** The command channel. *)
Definition inbound_send (c : list MqttIntent) (i : MqttIntent) : result unit unit * list MqttIntent :=
  if decide (length c < INBOUND_N)%nat then (Ok tt, c ++ [i]) else (Err tt, c).
#[global] Instance inbound_channel : EmbassyChannel (list MqttIntent).
Proof.
  refine {| chan_cap := INBOUND_N; chan_contents c := c; chan_try_send := inbound_send |}.
  intros c i. unfold inbound_send. by case_decide.
Defined.

Definition config : Config.BrokerConfig := {|
  Config.house_token_username := "house"; Config.house_token_password := "secret";
  Config.rate_capacity := 20; Config.rate_per_sec := 10; Config.max_violations := 50;
  Config.max_outbox_drops := 16; Config.qos1_retry_ms := 5000; Config.qos1_max_retries := 3 |}.
(** [cfg.rate_capacity = 0; cfg.rate_per_sec = 0; cfg.max_violations = 50] *)
Definition limited_config : Config.BrokerConfig := {|
  Config.house_token_username := "house"; Config.house_token_password := "secret";
  Config.rate_capacity := 0; Config.rate_per_sec := 0; Config.max_violations := 50;
  Config.max_outbox_drops := 16; Config.qos1_retry_ms := 5000; Config.qos1_max_retries := 3 |}.
(** [cfg.qos1_retry_ms = 1; cfg.qos1_max_retries = 3] *)
Definition impatient_config : Config.BrokerConfig := {|
  Config.house_token_username := "house"; Config.house_token_password := "secret";
  Config.rate_capacity := 20; Config.rate_per_sec := 10; Config.max_violations := 50;
  Config.max_outbox_drops := 16; Config.qos1_retry_ms := 1; Config.qos1_max_retries := 3 |}.

Definition relay_state : string := "sb/house1/device/relay-1/state".
Definition connect_with_password (cid : string) (keep_alive : Z) (password : string) : Packet :=
  PConnect {| cn_protocol := MQTT311; cn_keep_alive := keep_alive; cn_client_id := cid;
    cn_clean_session := true;
    cn_last_will := Some {| lw_topic := relay_state; lw_message := as_bytes "offline";
                            lw_qos := AtLeastOnce; lw_retain := true |};
    cn_username := Some "house"%string; cn_password := Some (as_bytes password) |}.
Definition connect_packet (cid : string) (keep_alive : Z) : Packet :=
  connect_with_password cid keep_alive "secret".
Definition subscribe_packet (filter : string) (pid : Z) : Packet :=
  PSubscribe {| sub_pid := pid;
                sub_topics := [{| st_topic_path := filter; st_qos := AtMostOnce |}] |}.
Definition publish_packet (topic payload : string) (qospid : QosPid) : Packet :=
  PPublish {| pub_dup := false; pub_qospid := qospid; pub_retain := false;
              pub_topic_name := topic; pub_payload := as_bytes payload |}.

(** ** Running [connection_loop] *)
Definition shared : Type := Broker (list MqttIntent).
Definition machine : Type := shared * AsyncMockTransport * phase.

Definition fresh (clients : list SessionState) : shared :=
  {| b_registry := match registry_of MAX_SESSIONS MAX_INFLIGHT clients with
                   | Some (_, reg) => reg | None => Registry.new MAX_SESSIONS MAX_INFLIGHT end;
     b_retained := Retained.new; b_signals := new_session_signals MAX_SESSIONS; b_handler := [] |}.

(** The client's packets, each fed as one chunk. *)
Definition sends (packets : list Packet) : AsyncMockTransport :=
  foldl (λ t p, am_feed t (encode_packet p)) am_new packets.

(** The clock: 1000 s at the start, 2 ms per step; wake-ups come from the
    signal when it is raised. *)
Definition clock (j : nat) : Instant := secs 1000 + millis (2 * Z.of_nat j).
Definition tick (j : nat) : input := {| in_now := clock j; in_now2 := clock j; in_signal := true |}.

(** Steps [j] to [j + n - 1] of the task. *)
Definition run (cfg : Config.BrokerConfig) (m : machine) (j n : nat) : machine :=
  let '(b, t, p) := m in
  run_conn MAX_SESSIONS MAX_SUBS MAX_INFLIGHT MAX_RETAINED MAX_PACKET_SIZE cfg b t p (tick <$> seq j n).

(** [block_on(connection_loop(...))]: the loop has returned after [n] steps. *)
Definition connection_loop (cfg : Config.BrokerConfig) (b : shared) (t : AsyncMockTransport) (n : nat)
  : option (shared * AsyncMockTransport) :=
  match run cfg (b, t, PhConnect) 0 n with
  | (b, t, PhDone) => Some (b, t)
  | _ => None
  end.

Definition sessions (b : shared) : nat := Registry.len (b_registry b).
Definition find (b : shared) (cid : string) : option SessionId := find_by_client_id (b_registry b) cid.

Definition first_packet_tests : suite := [
  ("reset_empty_session_signals_keeps_active_session_notifications",
   match registry_of MAX_SESSIONS MAX_INFLIGHT [Session.new "active" 60] with
   | Some ([active_id], reg) =>
       let empty_id := S active_id in
       let signals := signal_session (signal_session (new_session_signals MAX_SESSIONS) active_id)
                        empty_id in
       let signals := reset_empty_session_signals MAX_SESSIONS reg signals in
       signaled signals active_id = true ∧ signaled signals empty_id = false
   | _ => False
   end);
  ("non_connect_first_packet_closes_transport",
   match connection_loop config (fresh []) (am_finish (sends [PPingreq])) 20 with
   | Some (b, t) => am_closed t = true ∧ sessions b = 0%nat
   | None => False
   end);
  ("connect_with_invalid_token_leaves_no_session",
   match connection_loop config (fresh [])
           (am_finish (sends [connect_with_password "mobile-app" 60 "wrong"])) 20 with
   | Some (b, t) => head (am_tx t) = Some [0x20; 0x02; 0x00; 0x04] ∧ sessions b = 0%nat
   | None => False
   end);
  ("disconnect_removes_session_from_registry",
   match connection_loop config (fresh [])
           (am_finish (sends [connect_packet "mobile-app" 60; PDisconnect])) 30 with
   | Some (b, _) => find b "mobile-app" = None
   | None => False
   end)]%string.

Definition session_end_tests : suite := [
  ("rate_limit_disconnect_removes_session",
   match connection_loop limited_config (fresh [])
           (am_finish (sends (connect_packet "mobile-app" 60 ::
              repeat (publish_packet "test/topic" "hello" QP_AtMostOnce) 50))) 300 with
   | Some (b, _) => find b "mobile-app" = None
   | None => False
   end);
  ("qos1_publish_sends_puback_to_sender",
   match connection_loop config (fresh [])
           (am_finish (sends [connect_packet "mobile-app" 60;
              publish_packet "test/topic" "hello" (QP_AtLeastOnce 5); PDisconnect])) 40 with
   | Some (_, t) => bool_decide ([0x40; 0x02; 0x00; 0x05] ∈ am_tx t) = true
   | None => False
   end)]%string.

(** ** The tests with a second thread

    The thread's critical section: [None] when it finds nothing to do and
    sleeps, otherwise the broker state it leaves. *)
Definition thread : Type := Instant → shared → option shared.

(** Storing [s] in slot [id] and [outbox_signals[id].signal(())]. *)
Definition poke (b : shared) (reg : SessionRegistry) (id : SessionId) (s : SessionState) : shared :=
  set_signals (set_registry b (put reg id s)) (signal_session (b_signals b) id).

(** The thread acts after [k] steps; [n] more steps follow.  [None]: it found
    nothing to do then. *)
Definition with_thread (cfg : Config.BrokerConfig) (act : thread) (m : machine) (k n : nat)
  : option machine :=
  let '(b, t, p) := run cfg m 0 k in
  b ← act (clock k) b; Some (run cfg (b, t, p) k n).

(** However many of the first [bound] steps the task takes before the thread
    gets hold of the registry: it does get to act, and then [post] holds once
    the loop has returned. *)
Definition for_every_moment (cfg : Config.BrokerConfig) (act : thread) (m : machine)
  (bound n : nat) (post : shared → AsyncMockTransport → bool) : Prop :=
  existsb (λ k, bool_decide (is_Some (with_thread cfg act m k n))) (seq 0 bound) = true ∧
  forallb (λ k, match with_thread cfg act m k n with
                | Some (b, t, PhDone) => post b t
                | Some _ => false
                | None => true
                end) (seq 0 bound) = true.

Definition watcher : SessionState := subscribed "watcher" [(relay_state, AtMostOnce)].

(** [last_activity = now - 120 s] *)
Definition age_session : thread := λ now b,
  id ← find b "mobile-app"; s ← get (b_registry b) id;
  Some (poke b (b_registry b) id (set_last_activity s (now - secs 120))).

(** An unacknowledged publish, sent two seconds ago. *)
Definition plant_inflight : thread := λ now b,
  id ← find b "mobile-app";
  match store_publish_ref (b_registry b) "devices/kitchen/temp" (as_bytes "hello") false with
  | (Ok h, reg) =>
      s ← get reg id;
      match inflight_add MAX_INFLIGHT s {| ie_packet_id := 7; ie_publish := h; ie_qos := AtLeastOnce;
              ie_sent_at := now - secs 2; ie_retries := 0 |} with
      | (Ok _, s) => Some (poke b reg id s)
      | (Err _, _) => None
      end
  | (Err _, _) => None
  end.

Definition keepalive_tests : suite := [
  ("keepalive_expire_publishes_lwt_and_removes_session",
   for_every_moment config age_session
     (fresh [watcher], sends [connect_packet "mobile-app" 60], PhConnect) 20 20
     (λ b _, bool_decide (find b "mobile-app" = None) &&
        match find b "watcher" ≫= get (b_registry b) with
        | Some s => negb (bool_decide (outbox s = []))
        | None => false
        end && bool_decide (Retained.len (b_retained b) = 1%nat)))]%string.

Definition retry_limit_tests : suite := [
  ("qos1_retry_disconnect_removes_session",
   for_every_moment impatient_config plant_inflight
     (fresh [], sends [connect_packet "mobile-app" 60], PhConnect) 20 40
     (λ b _, bool_decide (find b "mobile-app" = None)))]%string.

(** The thread pushes a frame once the subscription is there; when the task has
    written it, the thread disconnects the client. *)
Definition push_hello : thread := λ _ b,
  id ← find b "mobile-app"; s ← get (b_registry b) id;
  if bool_decide (subscriptions s = []) then None
  else
    frame ← vec_from_slice MAX_OUTBOUND_FRAME_SIZE
              (encode_packet (publish_packet "test/topic" "hello" QP_AtMostOnce));
    q ← deque_push_back MAX_OUTBOX_DEPTH (outbox s) {| ob_bytes := frame |};
    Some (poke b (b_registry b) id (set_outbox s q)).

Definition happy_path (k : nat) : option machine :=
  m ← with_thread config push_hello (fresh [], sends [connect_packet "mobile-app" 60;
        subscribe_packet "test/topic" 1], PhConnect) k 20;
  let '(b, t, p) := m in
  if bool_decide (encode_packet (publish_packet "test/topic" "hello" QP_AtMostOnce) ∈ am_tx t)
  then Some (run config (b, am_finish (am_feed t (encode_packet PDisconnect)), p) (k + 20) 20)
  else Some m.

Definition happy_path_tests : suite := [
  ("happy_path_connect_subscribe_outbound_disconnect",
   existsb (λ k, bool_decide (is_Some (happy_path k))) (seq 0 25) = true ∧
   forallb (λ k, match happy_path k with
                 | Some (b, t, PhDone) =>
                     bool_decide ([0x20; 0x02; 0x00; 0x00] ∈ am_tx t) &&
                     bool_decide ([0x90; 0x03; 0x00; 0x01; 0x00] ∈ am_tx t) &&
                     existsb (λ frame, match decode_packet frame with
                       | Some (PPublish p) => bool_decide (pub_topic_name p = "test/topic") &&
                                              bool_decide (pub_payload p = as_bytes "hello")
                       | _ => false
                       end) (am_tx t)
                 | Some _ => false
                 | None => true
                 end) (seq 0 25) = true)]%string.

Lemma connection_tests_pass :
  passes first_packet_tests ∧ passes session_end_tests ∧ passes keepalive_tests ∧
  passes retry_limit_tests ∧ passes happy_path_tests.
Proof. split_and!; replay. Qed.
End TestsConnection.
