(* ===== verification/Schema.v ===== *)
(** * Schema: the SmartBox configuration ([smartbox-config/src/ids.rs],
    [schema.rs])

    The identifiers and the canonical configuration.  A [Vec<T, N>] is the
    list of its elements; [fits] is the type invariant the const generics
    give: no list is longer than its capacity, no host name than 32 bytes,
    and every integer is in the range of its width. *)

From S2P Require Import Prelude.

Module Schema.

(** ** Identifiers *)
Abbreviation HouseId := Z.
Abbreviation BoardId := Z.
Abbreviation ControllerId := Z.
Abbreviation DeviceId := Z.
Abbreviation RuleId := Z.

Definition house_is_valid (id : HouseId) : bool := bool_decide (id ≠ 0).
Definition board_is_valid (id : BoardId) : bool := bool_decide (id ≠ 0).
Definition device_is_valid (id : DeviceId) : bool := bool_decide (id ≠ 0).
Definition rule_is_valid (id : RuleId) : bool := bool_decide (id ≠ 0).

(** ** Boards, controllers, devices *)
Definition SUPPORTED_SCHEMA_VERSION : Z := 1.

Inductive BoardRole := Coordinator | Standby | Zone.

Inductive ControllerFamily := XController | IRGate | Dimmer | PWM | SmartBox.

Inductive DeviceKind :=
| Relay | DiscreteInput | Adc | Dht | Ds18B20 | DaliLight | DaliGroup | Pwm | TriacDimmer
| IButton | IrGate | TuyaRelay | TasmotaIrGate | AquaProtect | ClimateControl | Curtains | Fan
| GateValve.

Inductive PropertyKind :=
| State | Brightness | PropValue | Temperature | Humidity | Counter | LastKey | Position | Mode.

Inductive Value :=
| VBool (b : bool)
| VU8 (n : Z)
| VI16 (n : Z)
| VU16 (n : Z)
| VI32 (n : Z)
| VU32 (n : Z).

Record DeviceProperty := { dp_device_id : DeviceId; dp_property : PropertyKind }.

Record PortRef := { pr_controller_id : ControllerId; pr_port : Z }.

Record BoardConfig := { bc_board_id : BoardId; bc_role : BoardRole }.

Record ControllerConfig := {
  cc_controller_id : ControllerId;
  cc_owner_board_id : BoardId;
  cc_family : ControllerFamily;
}.

Record DeviceConfig := {
  dc_device_id : DeviceId;
  dc_owner_board_id : BoardId;
  dc_kind : DeviceKind;
  dc_port : option PortRef;
}.

(** ** Rules *)
Inductive RuleScope := BoardLocal (board_id : BoardId) | HouseLevel.

Inductive Trigger :=
| DeviceChanged (property : DeviceProperty)
| Schedule (schedule_id : Z)
| BoardEvent (board_id : BoardId) (event_code : Z).

Inductive CompareOp := CmpEq | NotEq | Greater | GreaterOrEq | Less | LessOrEq.

Inductive Condition :=
| CondDeviceProperty (property : DeviceProperty) (op : CompareOp) (value : Value).

Inductive Action :=
| SetDevice (device_id : DeviceId) (property : PropertyKind) (value : Value)
| SendBoardCommand (board_id : BoardId) (action_code : Z)
| PublishEvent (event_code : Z).

Record Step := {
  st_delay_ms : Z;
  st_actions : list Action;
  st_precondition : option Condition;
}.

Inductive RuleBody :=
| Act (actions : list Action)
| Steps (steps : list Step).

Record RuleConfig := {
  ru_rule_id : RuleId;
  ru_scope : RuleScope;
  ru_enabled : bool;
  ru_trigger : option Trigger;
  ru_condition : option Condition;
  ru_body : RuleBody;
  ru_cooldown_ms : Z;
  ru_version : Z;
}.

(** ** STM32 dependencies *)
Inductive DependencySourceCode := SrcDeviceProperty | SrcControllerEvent.

Inductive DependencyDestinationCode := SetDeviceProperty | DisableDevice | EnableDevice.

Inductive DependencyTagType :=
| TagGeneric | TagAquaProtect | TagClimateControl | TagCurtains | TagFan | TagGateValve.

Record Stm32DependencyConfig := {
  sd_owner_board_id : BoardId;
  sd_source : DeviceProperty;
  sd_source_code : DependencySourceCode;
  sd_destination : DeviceProperty;
  sd_destination_code : DependencyDestinationCode;
  sd_tag : DependencyTagType;
}.

(** ** The canonical configuration *)
Record BrokerConfig := { br_host_name : string; br_tls_required : bool }.

Record NetworkConfig := { nc_dhcp : bool; nc_static_ipv4 : option (Z * Z * Z * Z) }.

Record CanonicalConfig := {
  schema_version : Z;
  config_version : Z;
  house_id : HouseId;
  boards : list BoardConfig;
  controllers : list ControllerConfig;
  devices : list DeviceConfig;
  dependencies : list Stm32DependencyConfig;
  rules : list RuleConfig;
  broker : BrokerConfig;
  network : NetworkConfig;
}.

#[global] Instance BoardRole_eq_dec : EqDecision BoardRole.
Proof. solve_decision. Defined.
#[global] Instance PropertyKind_eq_dec : EqDecision PropertyKind.
Proof. solve_decision. Defined.

(** ** The invariant of the types *)
Definition is_i16 (x : Z) : Prop := -32768 ≤ x ≤ 32767.
Definition is_i32 (x : Z) : Prop := -2147483648 ≤ x ≤ 2147483647.

Definition value_fits (v : Value) : Prop :=
  match v with
  | VBool _ => True
  | VU8 n => is_u8 n
  | VI16 n => is_i16 n
  | VU16 n => is_u16 n
  | VI32 n => is_i32 n
  | VU32 n => is_u32 n
  end.

Definition condition_fits (c : Condition) : Prop :=
  let 'CondDeviceProperty p _ v := c in is_u32 (dp_device_id p) ∧ value_fits v.

Definition trigger_fits (t : Trigger) : Prop :=
  match t with
  | DeviceChanged p => is_u32 (dp_device_id p)
  | Schedule n => is_u32 n
  | BoardEvent b n => is_u32 b ∧ is_u16 n
  end.

Definition action_fits (a : Action) : Prop :=
  match a with
  | SetDevice d _ v => is_u32 d ∧ value_fits v
  | SendBoardCommand b n => is_u32 b ∧ is_u16 n
  | PublishEvent n => is_u16 n
  end.

Definition scope_fits (s : RuleScope) : Prop :=
  match s with BoardLocal b => is_u32 b | HouseLevel => True end.

Definition opt_fits {A} (P : A → Prop) (o : option A) : Prop :=
  match o with Some a => P a | None => True end.

Definition vec_fits {A} (cap : nat) (P : A → Prop) (l : list A) : Prop :=
  (length l ≤ cap)%nat ∧ Forall P l.

Definition board_fits (b : BoardConfig) : Prop := is_u32 (bc_board_id b).

Definition controller_fits (c : ControllerConfig) : Prop :=
  is_u8 (cc_controller_id c) ∧ is_u32 (cc_owner_board_id c).

Definition device_fits (d : DeviceConfig) : Prop :=
  is_u32 (dc_device_id d) ∧ is_u32 (dc_owner_board_id d) ∧
  opt_fits (λ p, is_u8 (pr_controller_id p) ∧ is_u8 (pr_port p)) (dc_port d).

Definition dependency_fits (d : Stm32DependencyConfig) : Prop :=
  is_u32 (sd_owner_board_id d) ∧ is_u32 (dp_device_id (sd_source d)) ∧
  is_u32 (dp_device_id (sd_destination d)).

Definition broker_fits (b : BrokerConfig) : Prop := (String.length (br_host_name b) ≤ 32)%nat.

Definition network_fits (n : NetworkConfig) : Prop :=
  opt_fits (λ '(a, b, c, d), is_u8 a ∧ is_u8 b ∧ is_u8 c ∧ is_u8 d) (nc_static_ipv4 n).

(** The const generics of [CanonicalConfig]. *)
Record Caps := {
  MAX_BOARDS : nat;
  MAX_CONTROLLERS : nat;
  MAX_DEVICES : nat;
  MAX_DEPENDENCIES : nat;
  MAX_RULES : nat;
  MAX_ACTIONS : nat;
  MAX_STEPS : nat;
}.

Section fits.
Context (caps : Caps).

Definition step_fits (s : Step) : Prop :=
  is_u32 (st_delay_ms s) ∧ vec_fits (MAX_ACTIONS caps) action_fits (st_actions s) ∧
  opt_fits condition_fits (st_precondition s).

Definition body_fits (b : RuleBody) : Prop :=
  match b with
  | Act actions => vec_fits (MAX_ACTIONS caps) action_fits actions
  | Steps steps => vec_fits (MAX_STEPS caps) step_fits steps
  end.

Record rule_fits (r : RuleConfig) : Prop := {
  rf_id : is_u32 (ru_rule_id r);
  rf_scope : scope_fits (ru_scope r);
  rf_trigger : opt_fits trigger_fits (ru_trigger r);
  rf_condition : opt_fits condition_fits (ru_condition r);
  rf_body : body_fits (ru_body r);
  rf_cooldown : is_u32 (ru_cooldown_ms r);
  rf_version : is_u16 (ru_version r);
}.

Record fits (c : CanonicalConfig) : Prop := {
  fit_schema : is_u16 (schema_version c);
  fit_version : is_u32 (config_version c);
  fit_house : is_u32 (house_id c);
  fit_boards : vec_fits (MAX_BOARDS caps) board_fits (boards c);
  fit_controllers : vec_fits (MAX_CONTROLLERS caps) controller_fits (controllers c);
  fit_devices : vec_fits (MAX_DEVICES caps) device_fits (devices c);
  fit_dependencies : vec_fits (MAX_DEPENDENCIES caps) dependency_fits (dependencies c);
  fit_rules : vec_fits (MAX_RULES caps) rule_fits (rules c);
  fit_broker : broker_fits (broker c);
  fit_network : network_fits (network c);
}.
End fits.

Lemma vec_fits_filter {A} cap (P Q : A → Prop) `{∀ x, Decision (Q x)} (l : list A) :
  vec_fits cap P l → vec_fits cap P (filter Q l).
Proof.
  intros [Hlen Hall]. split; [pose proof (length_filter Q l); lia|].
  apply Forall_forall. intros x [_ Hx]%list_elem_of_filter. by eapply Forall_forall in Hall.
Qed.

Lemma vec_fits_fmap {A B} cap (P : A → Prop) (Q : B → Prop) (f : A → B) (l : list A) :
  (∀ x, P x → Q (f x)) → vec_fits cap P l → vec_fits cap Q (f <$> l).
Proof.
  intros Hf [Hlen Hall]. split; [by rewrite length_fmap|].
  apply Forall_fmap. eapply Forall_impl; [exact Hall|]. intros; by apply Hf.
Qed.
End Schema.
