(* ===== verification/Compiler.v ===== *)
(** * Compiler: validating and compiling a configuration
    ([smartbox-config/src/compiler.rs])

    The checks in the order of the source, each with its error, and the
    projection of a canonical configuration onto one board.  The theorems:
    validation accepts exactly the configurations [config_valid] describes;
    an error names a defect the configuration really has, and the vectors of
    the result never overflow; what a board receives is closed under
    reference; every rule is placed on exactly one board. *)

From S2P Require Import Prelude External Reference Schema.

Module Compiler.
Import Schema.

Inductive CompileError :=
| UnsupportedSchemaVersion (found supported : Z)
| EmptyHouseId
| EmptyBoardId
| EmptyDeviceId
| EmptyRuleId
| MissingBoard (b : BoardId)
| MissingTargetBoard (b : BoardId)
| MissingCoordinator
| MultipleCoordinators
| DuplicateBoardId (b : BoardId)
| DuplicateDeviceId (d : DeviceId)
| DuplicateRuleId (r : RuleId)
| ControllerBoardMissing (b : BoardId)
| DeviceBoardMissing (b : BoardId)
| DeviceControllerMissing
| DependencyBoardMissing (b : BoardId)
| DependencyCrossesBoards
| UnknownDevice (d : DeviceId)
| RuleScopeBoardMissing (b : BoardId)
| BoardLocalRuleTargetsRemoteDevice (rule_board_id : BoardId) (device_id : DeviceId)
| HouseLevelRuleOnZoneBoard
| EmptyRuleBody
| CapacityExceeded.

(** ** Compiled artifacts *)
Record LocalBoardInventory := {
  li_board : BoardConfig;
  li_controllers : list ControllerConfig;
  li_devices : list DeviceConfig;
}.

Record Stm32DependencyLayout := { records : list Stm32DependencyConfig }.

Record CompiledRule := { rule : RuleConfig }.

Record TopologyEntry := { te_device_id : DeviceId; te_owner_board_id : BoardId }.

Record TopologyCatalog := { entries : list TopologyEntry }.

Record CompiledConfig := {
  co_config_version : Z;
  co_local_inventory : LocalBoardInventory;
  co_stm32_dependencies : Stm32DependencyLayout;
  co_rules : list CompiledRule;
  co_topology : TopologyCatalog;
}.

(** ** Loops

    [for x in l { f(x)?; }], and the same with the elements that come after
    [x], which the source reaches with [iter().skip(index + 1)]. *)
Fixpoint try_each {A} (f : A → result CompileError unit) (l : list A)
  : result CompileError unit :=
  match l with
  | [] => Ok tt
  | x :: l => _ ← f x; try_each f l
  end.

Fixpoint try_each_rest {A} (f : A → list A → result CompileError unit) (l : list A)
  : result CompileError unit :=
  match l with
  | [] => Ok tt
  | x :: l => _ ← f x l; try_each_rest f l
  end.

Definition any {A} (P : A → Prop) `{∀ x, Decision (P x)} (l : list A) : bool :=
  bool_decide (Exists P l).

Definition require (b : bool) (e : CompileError) : result CompileError unit :=
  if b then Ok tt else Err e.

(** ** Lookups *)
Definition find_board (c : CanonicalConfig) (id : BoardId) : option BoardConfig :=
  snd <$> list_find (λ b, bc_board_id b = id) (boards c).

Definition owner_of (c : CanonicalConfig) (id : DeviceId) : result CompileError BoardId :=
  ok_or (UnknownDevice id)
    (dc_owner_board_id ∘ snd <$> list_find (λ d, dc_device_id d = id) (devices c)).

(** ** Validation *)
Section validate.
Context (c : CanonicalConfig).

Definition board_exists (id : BoardId) : bool :=
  match find_board c id with Some _ => true | None => false end.

Fixpoint board_loop (bs : list BoardConfig) (coordinator_count : nat)
  : result CompileError nat :=
  match bs with
  | [] => Ok coordinator_count
  | b :: rest =>
      if negb (board_is_valid (bc_board_id b)) then Err EmptyBoardId
      else if any (λ other, bc_board_id other = bc_board_id b) rest
           then Err (DuplicateBoardId (bc_board_id b))
      else board_loop rest
             (if decide (bc_role b = Coordinator) then S coordinator_count else coordinator_count)
  end.

Definition validate_boards : result CompileError unit :=
  coordinator_count ← board_loop (boards c) 0;
  match coordinator_count with
  | 0%nat => Err MissingCoordinator
  | 1%nat => Ok tt
  | _ => Err MultipleCoordinators
  end.

Definition validate_controllers : result CompileError unit :=
  try_each (λ k, require (board_exists (cc_owner_board_id k))
                   (ControllerBoardMissing (cc_owner_board_id k))) (controllers c).

Definition validate_device (d : DeviceConfig) (rest : list DeviceConfig)
  : result CompileError unit :=
  _ ← require (device_is_valid (dc_device_id d)) EmptyDeviceId;
  _ ← require (negb (any (λ other, dc_device_id other = dc_device_id d) rest))
        (DuplicateDeviceId (dc_device_id d));
  _ ← require (board_exists (dc_owner_board_id d)) (DeviceBoardMissing (dc_owner_board_id d));
  match dc_port d with
  | Some port =>
      if decide (Forall (λ k, cc_controller_id k ≠ pr_controller_id port ∨
                              cc_owner_board_id k ≠ dc_owner_board_id d) (controllers c))
      then Err DeviceControllerMissing else Ok tt
  | None => Ok tt
  end.

Definition validate_devices : result CompileError unit :=
  try_each_rest validate_device (devices c).

Definition validate_dependency (d : Stm32DependencyConfig) : result CompileError unit :=
  _ ← require (board_exists (sd_owner_board_id d)) (DependencyBoardMissing (sd_owner_board_id d));
  source_owner ← owner_of c (dp_device_id (sd_source d));
  destination_owner ← owner_of c (dp_device_id (sd_destination d));
  if decide (source_owner ≠ sd_owner_board_id d ∨ destination_owner ≠ sd_owner_board_id d)
  then Err DependencyCrossesBoards else Ok tt.

Definition validate_dependencies : result CompileError unit :=
  try_each validate_dependency (dependencies c).

Definition validate_property (p : DeviceProperty) : result CompileError unit :=
  _ ← owner_of c (dp_device_id p); Ok tt.

Definition validate_condition (k : Condition) : result CompileError unit :=
  let 'CondDeviceProperty p _ _ := k in validate_property p.

Definition validate_trigger (t : option Trigger) : result CompileError unit :=
  match t with
  | Some (DeviceChanged p) => validate_property p
  | Some (BoardEvent b _) => if board_exists b then Ok tt else Err (MissingBoard b)
  | Some (Schedule _) | None => Ok tt
  end.

Definition validate_action (scope : RuleScope) (a : Action) : result CompileError unit :=
  match a with
  | SetDevice d _ _ =>
      owner_board_id ← owner_of c d;
      match scope with
      | BoardLocal b =>
          if decide (owner_board_id ≠ b) then Err (BoardLocalRuleTargetsRemoteDevice b d)
          else Ok tt
      | HouseLevel => Ok tt
      end
  | SendBoardCommand b _ => require (board_exists b) (MissingBoard b)
  | PublishEvent _ => Ok tt
  end.

Definition validate_actions (scope : RuleScope) (actions : list Action)
  : result CompileError unit := try_each (validate_action scope) actions.

Definition validate_step (scope : RuleScope) (s : Step) : result CompileError unit :=
  match st_actions s with
  | [] => Err EmptyRuleBody
  | _ :: _ =>
      _ ← match st_precondition s with Some k => validate_condition k | None => Ok tt end;
      validate_actions scope (st_actions s)
  end.

Definition validate_rule_body (r : RuleConfig) : result CompileError unit :=
  match ru_body r with
  | Act [] => Err EmptyRuleBody
  | Act actions => validate_actions (ru_scope r) actions
  | Steps [] => Err EmptyRuleBody
  | Steps steps => try_each (validate_step (ru_scope r)) steps
  end.

Definition validate_rule (r : RuleConfig) (rest : list RuleConfig) : result CompileError unit :=
  _ ← require (rule_is_valid (ru_rule_id r)) EmptyRuleId;
  _ ← require (negb (any (λ other, ru_rule_id other = ru_rule_id r) rest))
        (DuplicateRuleId (ru_rule_id r));
  _ ← match ru_scope r with
      | BoardLocal b => require (board_exists b) (RuleScopeBoardMissing b)
      | HouseLevel => Ok tt
      end;
  _ ← validate_trigger (ru_trigger r);
  _ ← match ru_condition r with Some k => validate_condition k | None => Ok tt end;
  validate_rule_body r.

Definition validate_rules : result CompileError unit := try_each_rest validate_rule (rules c).

Definition validate_config : result CompileError unit :=
  if decide (schema_version c ≠ SUPPORTED_SCHEMA_VERSION)
  then Err (UnsupportedSchemaVersion (schema_version c) SUPPORTED_SCHEMA_VERSION)
  else if negb (house_is_valid (house_id c)) then Err EmptyHouseId
  else
    _ ← validate_boards;
    _ ← validate_controllers;
    _ ← validate_devices;
    _ ← validate_dependencies;
    validate_rules.
End validate.

(** ** Compilation *)
Definition rule_applies_to_board (b : BoardConfig) (r : RuleConfig) : bool :=
  match ru_scope r with
  | BoardLocal id => bool_decide (id = bc_board_id b)
  | HouseLevel => bool_decide (bc_role b = Coordinator)
  end.

Section compile.
Context `{Heapless} (caps : Caps).

(** [for x in l { out.push(x).map_err(|_| CapacityExceeded)?; }] *)
Fixpoint push_all {A} (cap : nat) (out : list A) (l : list A) : result CompileError (list A) :=
  match l with
  | [] => Ok out
  | x :: l =>
      out ← ok_or CapacityExceeded (vec_push cap out x);
      push_all cap out l
  end.

Definition topology_entry (d : DeviceConfig) : TopologyEntry :=
  {| te_device_id := dc_device_id d; te_owner_board_id := dc_owner_board_id d |}.

Definition compile_config (c : CanonicalConfig) (target_board_id : BoardId)
  : result CompileError CompiledConfig :=
  _ ← validate_config c;
  board ← ok_or (MissingTargetBoard target_board_id) (find_board c target_board_id);
  local_controllers ← push_all (MAX_CONTROLLERS caps) []
    (filter (λ k, cc_owner_board_id k = target_board_id) (controllers c));
  local_devices ← push_all (MAX_DEVICES caps) []
    (filter (λ d, dc_owner_board_id d = target_board_id) (devices c));
  stm32_dependencies ← push_all (MAX_DEPENDENCIES caps) []
    (filter (λ d, sd_owner_board_id d = target_board_id) (dependencies c));
  rules ← push_all (MAX_RULES caps) []
    (Build_CompiledRule <$> filter (λ r, rule_applies_to_board board r) (rules c));
  topology_entries ← push_all (MAX_DEVICES caps) [] (topology_entry <$> devices c);
  Ok {| co_config_version := config_version c;
        co_local_inventory := {| li_board := board; li_controllers := local_controllers;
                                 li_devices := local_devices |};
        co_stm32_dependencies := {| records := stm32_dependencies |};
        co_rules := rules;
        co_topology := {| entries := topology_entries |} |}.
End compile.

(** ** What a valid configuration is *)
Definition body_actions (b : RuleBody) : list Action :=
  match b with Act actions => actions | Steps steps => steps ≫= st_actions end.

Definition body_conditions (b : RuleBody) : list Condition :=
  match b with Act _ => [] | Steps steps => omap st_precondition steps end.

(** A rule has something to do, in each of its steps. *)
Definition body_complete (b : RuleBody) : Prop :=
  body_actions b ≠ [] ∧
  match b with Act _ => True | Steps steps => Forall (λ s, st_actions s ≠ []) steps end.

Definition condition_device (k : Condition) : DeviceId :=
  let 'CondDeviceProperty p _ _ := k in dp_device_id p.

Definition trigger_device (t : Trigger) : option DeviceId :=
  match t with DeviceChanged p => Some (dp_device_id p) | _ => None end.

Definition trigger_board (t : Trigger) : option BoardId :=
  match t with BoardEvent b _ => Some b | _ => None end.

Definition action_device (a : Action) : option DeviceId :=
  match a with SetDevice d _ _ => Some d | _ => None end.

Definition action_board (a : Action) : option BoardId :=
  match a with SendBoardCommand b _ => Some b | _ => None end.

(** The devices a rule reads, the devices it sets, the boards it names. *)
Definition rule_reads (r : RuleConfig) : list DeviceId :=
  omap trigger_device (option_list (ru_trigger r)) ++
  (condition_device <$> option_list (ru_condition r) ++ body_conditions (ru_body r)).

Definition rule_sets (r : RuleConfig) : list DeviceId :=
  omap action_device (body_actions (ru_body r)).

Definition rule_boards (r : RuleConfig) : list BoardId :=
  omap trigger_board (option_list (ru_trigger r)) ++ omap action_board (body_actions (ru_body r)).

Section valid.
Context (c : CanonicalConfig).

Definition has_board (id : BoardId) : Prop := ∃ b, b ∈ boards c ∧ bc_board_id b = id.

Definition owned_by (d : DeviceId) (b : BoardId) : Prop :=
  ∃ dev, dev ∈ devices c ∧ dc_device_id dev = d ∧ dc_owner_board_id dev = b.

Definition known (d : DeviceId) : Prop := ∃ b, owned_by d b.

Definition port_wired (d : DeviceConfig) : Prop :=
  ∀ p, dc_port d = Some p →
  ∃ k, k ∈ controllers c ∧ cc_controller_id k = pr_controller_id p ∧
       cc_owner_board_id k = dc_owner_board_id d.

Record rule_valid (r : RuleConfig) : Prop := {
  rv_id : ru_rule_id r ≠ 0;
  rv_scope : ∀ b, ru_scope r = BoardLocal b → has_board b;
  rv_body : body_complete (ru_body r);
  rv_reads : Forall known (rule_reads r);
  rv_sets : Forall known (rule_sets r);
  rv_local : ∀ b, ru_scope r = BoardLocal b → Forall (λ d, owned_by d b) (rule_sets r);
  rv_boards : Forall has_board (rule_boards r);
}.

Record dependency_valid (d : Stm32DependencyConfig) : Prop := {
  dv_board : has_board (sd_owner_board_id d);
  dv_source : owned_by (dp_device_id (sd_source d)) (sd_owner_board_id d);
  dv_destination : owned_by (dp_device_id (sd_destination d)) (sd_owner_board_id d);
}.

Record config_valid : Prop := {
  cv_schema : schema_version c = SUPPORTED_SCHEMA_VERSION;
  cv_house : house_id c ≠ 0;
  cv_boards : NoDup (bc_board_id <$> boards c) ∧ Forall (λ b, bc_board_id b ≠ 0) (boards c);
  cv_coordinator : length (filter (λ b, bc_role b = Coordinator) (boards c)) = 1%nat;
  cv_controllers : Forall (λ k, has_board (cc_owner_board_id k)) (controllers c);
  cv_devices : NoDup (dc_device_id <$> devices c) ∧
    Forall (λ d, dc_device_id d ≠ 0 ∧ has_board (dc_owner_board_id d) ∧ port_wired d) (devices c);
  cv_dependencies : Forall dependency_valid (dependencies c);
  cv_rules : NoDup (ru_rule_id <$> rules c) ∧ Forall rule_valid (rules c);
}.

(** The defect an error of [compile_config] for board [t] stands for.  Two
    errors of the enumeration are never returned. *)
Definition blames (t : BoardId) (e : CompileError) : Prop :=
  match e with
  | UnsupportedSchemaVersion found supported =>
      found = schema_version c ∧ supported = SUPPORTED_SCHEMA_VERSION ∧ found ≠ supported
  | EmptyHouseId => house_id c = 0
  | EmptyBoardId => ∃ b, b ∈ boards c ∧ bc_board_id b = 0
  | EmptyDeviceId => ∃ d, d ∈ devices c ∧ dc_device_id d = 0
  | EmptyRuleId => ∃ r, r ∈ rules c ∧ ru_rule_id r = 0
  | MissingBoard b => ¬ has_board b ∧ ∃ r, r ∈ rules c ∧ b ∈ rule_boards r
  | MissingTargetBoard b => b = t ∧ ¬ has_board t
  | MissingCoordinator => Forall (λ b, bc_role b ≠ Coordinator) (boards c)
  | MultipleCoordinators =>
      (2 ≤ length (filter (λ b, bc_role b = Coordinator) (boards c)))%nat
  | DuplicateBoardId id => ∃ i j, i ≠ j ∧ (bc_board_id <$> boards c) !! i = Some id ∧
                                  (bc_board_id <$> boards c) !! j = Some id
  | DuplicateDeviceId id => ∃ i j, i ≠ j ∧ (dc_device_id <$> devices c) !! i = Some id ∧
                                   (dc_device_id <$> devices c) !! j = Some id
  | DuplicateRuleId id => ∃ i j, i ≠ j ∧ (ru_rule_id <$> rules c) !! i = Some id ∧
                                 (ru_rule_id <$> rules c) !! j = Some id
  | ControllerBoardMissing b =>
      ¬ has_board b ∧ ∃ k, k ∈ controllers c ∧ cc_owner_board_id k = b
  | DeviceBoardMissing b => ¬ has_board b ∧ ∃ d, d ∈ devices c ∧ dc_owner_board_id d = b
  | DeviceControllerMissing => ∃ d, d ∈ devices c ∧ ¬ port_wired d
  | DependencyBoardMissing b =>
      ¬ has_board b ∧ ∃ d, d ∈ dependencies c ∧ sd_owner_board_id d = b
  | DependencyCrossesBoards =>
      ∃ d, d ∈ dependencies c ∧
        (¬ owned_by (dp_device_id (sd_source d)) (sd_owner_board_id d) ∨
         ¬ owned_by (dp_device_id (sd_destination d)) (sd_owner_board_id d))
  | UnknownDevice d =>
      ¬ known d ∧ ((∃ r, r ∈ rules c ∧ (d ∈ rule_reads r ∨ d ∈ rule_sets r)) ∨
                   ∃ k, k ∈ dependencies c ∧
                     (d = dp_device_id (sd_source k) ∨ d = dp_device_id (sd_destination k)))
  | RuleScopeBoardMissing b => ¬ has_board b ∧ ∃ r, r ∈ rules c ∧ ru_scope r = BoardLocal b
  | BoardLocalRuleTargetsRemoteDevice b d =>
      ¬ owned_by d b ∧ ∃ r, r ∈ rules c ∧ ru_scope r = BoardLocal b ∧ d ∈ rule_sets r
  | EmptyRuleBody => ∃ r, r ∈ rules c ∧ ¬ body_complete (ru_body r)
  | HouseLevelRuleOnZoneBoard | CapacityExceeded => False
  end.
End valid.

(** ** The invariant of the compiled types *)
Record compiled_fits (caps : Caps) (o : CompiledConfig) : Prop := {
  cf_version : is_u32 (co_config_version o);
  cf_board : board_fits (li_board (co_local_inventory o));
  cf_controllers : vec_fits (MAX_CONTROLLERS caps) controller_fits
                     (li_controllers (co_local_inventory o));
  cf_devices : vec_fits (MAX_DEVICES caps) device_fits (li_devices (co_local_inventory o));
  cf_dependencies : vec_fits (MAX_DEPENDENCIES caps) dependency_fits
                      (records (co_stm32_dependencies o));
  cf_rules : vec_fits (MAX_RULES caps) (λ r, rule_fits caps (rule r)) (co_rules o);
  cf_topology : vec_fits (MAX_DEVICES caps)
                  (λ e, is_u32 (te_device_id e) ∧ is_u32 (te_owner_board_id e))
                  (entries (co_topology o));
}.

(** ** Checks

    [checks r P B]: the check [r] passes exactly when [P] holds, and an error
    it returns satisfies [B]. *)
Definition checks (r : result CompileError unit) (P : Prop) (B : CompileError → Prop) : Prop :=
  match r with Ok _ => P | Err e => ¬ P ∧ B e end.

Lemma checks_iff r P Q B : (P ↔ Q) → checks r P B → checks r Q B.
Proof. destruct r; simpl; naive_solver. Qed.

Lemma checks_Ok r P B : checks r P B → (r = Ok tt ↔ P).
Proof. destruct r as [[]|e]; simpl; naive_solver. Qed.

Lemma checks_pass (P : Prop) B : P → checks (Ok tt) P B.
Proof. done. Qed.

Lemma checks_require b e (P : Prop) B :
  (b = true ↔ P) → (¬ P → B e) → checks (require b e) P B.
Proof. destruct b; simpl; naive_solver. Qed.

Lemma checks_bind r k (P Q : Prop) B :
  checks r P B → (P → checks (k tt) Q B) → checks (_ ← r; k tt) (P ∧ Q) B.
Proof. destruct r as [[]|e]; simpl; [|tauto]. intros HP Hk. specialize (Hk HP).
  destruct (k tt); simpl in *; tauto. Qed.

Lemma checks_each {A} f (l : list A) (P : A → Prop) B :
  (∀ x, x ∈ l → checks (f x) (P x) B) → checks (try_each f l) (Forall P l) B.
Proof.
  induction l as [|x l IH]; simpl; intros Hf; [constructor|].
  eapply checks_iff; [by rewrite Forall_cons|]. apply (checks_bind (f x) (λ _, try_each f l)).
  - apply Hf. left.
  - intros _. apply IH. intros y ?. apply Hf. by right.
Qed.

Fixpoint Forall_rest {A} (P : A → list A → Prop) (l : list A) : Prop :=
  match l with [] => True | x :: l => P x l ∧ Forall_rest P l end.

Lemma checks_each_rest {A} f (l : list A) (P : A → list A → Prop) B :
  (∀ l1 x l2, l = l1 ++ x :: l2 → checks (f x l2) (P x l2) B) →
  checks (try_each_rest f l) (Forall_rest P l) B.
Proof.
  induction l as [|x l IH]; simpl; intros Hf; [done|].
  apply (checks_bind (f x l) (λ _, try_each_rest f l)).
  - by apply (Hf []).
  - intros _. apply IH. intros l1 y l2 ->. by apply (Hf (x :: l1)).
Qed.

Lemma Forall_rest_NoDup {A B} (key : A → B) (Q : A → Prop) (l : list A) :
  Forall_rest (λ x rest, key x ∉ key <$> rest ∧ Q x) l ↔ NoDup (key <$> l) ∧ Forall Q l.
Proof.
  induction l as [|x l IH]; simpl.
  - split; [split; constructor|done].
  - rewrite IH, NoDup_cons, Forall_cons. tauto.
Qed.

Lemma any_key {A B} `{EqDecision B} (key : A → B) (k : B) (l : list A) :
  any (λ x, key x = k) l = true ↔ k ∈ key <$> l.
Proof.
  unfold any. rewrite bool_decide_eq_true, Exists_exists, list_elem_of_fmap. naive_solver.
Qed.

Lemma any_key_false {A B} `{EqDecision B} (key : A → B) (k : B) (l : list A) :
  negb (any (λ x, key x = k) l) = true ↔ k ∉ key <$> l.
Proof. rewrite negb_true_iff, <-not_true_iff_false, any_key. done. Qed.

Lemma duplicate_keys {A B} (key : A → B) l1 x l2 :
  key x ∈ key <$> l2 →
  ∃ i j, i ≠ j ∧ (key <$> l1 ++ x :: l2) !! i = Some (key x) ∧
         (key <$> l1 ++ x :: l2) !! j = Some (key x).
Proof.
  intros [j Hj]%list_elem_of_lookup. exists (length l1), (length l1 + S j)%nat.
  split; [lia|]. rewrite fmap_app, fmap_cons.
  rewrite !lookup_app_r, length_fmap by (rewrite length_fmap; lia).
  rewrite Nat.sub_diag. replace (length l1 + S j - length l1)%nat with (S j) by lia. done.
Qed.

Lemma elem_of_option_list {A} (x : A) (o : option A) : x ∈ option_list o ↔ o = Some x.
Proof. destruct o; simpl; [rewrite list_elem_of_singleton|rewrite elem_of_nil]; naive_solver. Qed.

Lemma is_valid_true (id : Z) : bool_decide (id ≠ 0) = true ↔ id ≠ 0.
Proof. apply bool_decide_eq_true. Qed.

Section validators.
Context (c : CanonicalConfig) (t : BoardId).
Local Abbreviation blame := (blames c t).

Lemma find_board_Some id b :
  find_board c id = Some b → b ∈ boards c ∧ bc_board_id b = id.
Proof.
  unfold find_board. intros ([i b'] & (Hb & Hp & _)%list_find_Some & ->)%fmap_Some.
  eauto using list_elem_of_lookup_2.
Qed.

Lemma find_board_None id : find_board c id = None ↔ ¬ has_board c id.
Proof.
  unfold find_board, has_board. rewrite fmap_None, list_find_None, Forall_forall. naive_solver.
Qed.

Lemma board_exists_true id : board_exists c id = true ↔ has_board c id.
Proof.
  unfold board_exists. destruct (find_board c id) as [b|] eqn:Hf.
  - apply find_board_Some in Hf. unfold has_board. naive_solver.
  - apply find_board_None in Hf. naive_solver.
Qed.

Lemma find_board_unique id b :
  NoDup (bc_board_id <$> boards c) → b ∈ boards c → bc_board_id b = id →
  find_board c id = Some b.
Proof.
  intros Hnd Hb Hid. destruct (find_board c id) as [b'|] eqn:Hf.
  - apply find_board_Some in Hf as [Hb' Hid'].
    apply list_elem_of_lookup in Hb as [i Hi], Hb' as [j Hj].
    assert (i = j) as ->; [|congruence].
    eapply (NoDup_lookup _ _ _ id Hnd); rewrite list_lookup_fmap; rewrite ?Hi, ?Hj; simpl; congruence.
  - apply find_board_None in Hf. destruct Hf. by exists b.
Qed.

Lemma validate_boards_checks :
  checks (validate_boards c)
    ((NoDup (bc_board_id <$> boards c) ∧ Forall (λ b, bc_board_id b ≠ 0) (boards c)) ∧
     length (filter (λ b, bc_role b = Coordinator) (boards c)) = 1%nat) blame.
Proof.
  assert (∀ l1 l2 n, boards c = l1 ++ l2 →
    match board_loop l2 n with
    | Ok m => m = (n + length (filter (λ b, bc_role b = Coordinator) l2))%nat ∧
        NoDup (bc_board_id <$> l2) ∧ Forall (λ b, bc_board_id b ≠ 0) l2
    | Err e => ¬ (NoDup (bc_board_id <$> l2) ∧ Forall (λ b, bc_board_id b ≠ 0) l2) ∧ blame e
    end) as Hloop.
  { intros l1 l2. revert l1. induction l2 as [|b l2 IH]; intros l1 n Hl; simpl.
    { split; [lia|]. split; constructor. }
    unfold board_is_valid. destruct (bool_decide_reflect (bc_board_id b ≠ 0)) as [Hz|Hz]; simpl.
    2:{ rewrite Forall_cons. split; [tauto|]. exists b. rewrite Hl. split; [set_solver|lia]. }
    destruct (any _ l2) eqn:Hany.
    { apply any_key in Hany. rewrite NoDup_cons. split; [tauto|]. simpl. rewrite Hl.
      by apply duplicate_keys. }
    assert (bc_board_id b ∉ bc_board_id <$> l2).
    { apply any_key_false. by rewrite Hany. }
    specialize (IH (l1 ++ [b]) (if decide (bc_role b = Coordinator) then S n else n)).
    rewrite <-app_assoc in IH. specialize (IH Hl).
    destruct (board_loop l2 _) as [m|e]; rewrite NoDup_cons, Forall_cons; [|tauto].
    destruct IH as (-> & ? & ?). rewrite filter_cons. repeat case_decide; simpl; auto with lia. }
  specialize (Hloop [] (boards c) 0%nat eq_refl). unfold validate_boards.
  destruct (board_loop (boards c) 0) as [m|e]; simpl; [|naive_solver].
  destruct Hloop as (-> & Hok). simpl.
  destruct (length (filter _ (boards c))) as [|[|n]] eqn:Hn; simpl; [|done|].
  - split; [naive_solver|]. apply nil_length_inv in Hn. apply Forall_forall. intros b Hb Hr.
    apply (not_elem_of_nil b). rewrite <-Hn. by apply list_elem_of_filter.
  - split; [naive_solver|]. rewrite Hn. lia.
Qed.

Lemma validate_controllers_checks :
  checks (validate_controllers c)
    (Forall (λ k, has_board c (cc_owner_board_id k)) (controllers c)) blame.
Proof.
  apply checks_each. intros k Hk. apply checks_require; [apply board_exists_true|].
  simpl. naive_solver.
Qed.

Lemma port_check d p :
  dc_port d = Some p →
  checks (if decide (Forall (λ k, cc_controller_id k ≠ pr_controller_id p ∨
                                  cc_owner_board_id k ≠ dc_owner_board_id d) (controllers c))
          then Err DeviceControllerMissing else Ok tt) (port_wired c d) (λ e, e = DeviceControllerMissing).
Proof.
  intros Hp. case_decide as Hall; simpl.
  - split; [|done]. intros Hw. destruct (Hw _ Hp) as (k & Hk & ? & ?).
    eapply Forall_forall in Hall; [|done]. naive_solver.
  - intros p' Hp'. apply not_Forall_Exists in Hall; [|apply _].
    apply Exists_exists in Hall as (k & Hk & Hne). exists k. simplify_eq/=.
    split; [done|]. split; apply dec_stable; tauto.
Qed.

Lemma validate_devices_checks :
  checks (validate_devices c)
    (NoDup (dc_device_id <$> devices c) ∧
     Forall (λ d, dc_device_id d ≠ 0 ∧ has_board c (dc_owner_board_id d) ∧ port_wired c d)
       (devices c)) blame.
Proof.
  eapply checks_iff; [apply (Forall_rest_NoDup dc_device_id)|].
  apply checks_each_rest. intros l1 d l2 Hl. assert (d ∈ devices c) by (rewrite Hl; set_solver).
  eapply checks_iff; [|apply checks_bind with (P := dc_device_id d ≠ 0)
    (Q := dc_device_id d ∉ dc_device_id <$> l2 ∧ has_board c (dc_owner_board_id d) ∧ port_wired c d)
    (k := λ _, _)].
  - tauto.
  - apply checks_require; [apply is_valid_true|]. intros ?%Z.eq_dne. by exists d.
  - intros _. apply (checks_bind _ (λ _, _)).
    { apply checks_require; [apply any_key_false|]. intros Hin%dec_stable. simpl. rewrite Hl.
      by apply duplicate_keys. }
    intros _. apply (checks_bind _ (λ _, _)).
    { apply checks_require; [apply board_exists_true|]. simpl. naive_solver. }
    intros _. destruct (dc_port d) as [p|] eqn:Hp; [|intros p Hp'; congruence].
    pose proof (port_check d p Hp) as Hw. case_decide; simpl in *; [|done]. naive_solver.
Qed.

Section references.
Context (Hnd : NoDup (dc_device_id <$> devices c)).

Lemma owner_of_Ok d b : owner_of c d = Ok b ↔ owned_by c d b.
Proof.
  unfold owner_of, owned_by. split.
  - destruct (list_find _ (devices c)) as [[i dev]|] eqn:Hf; simpl; [|done].
    intros [= <-]. apply list_find_Some in Hf as (Hi & Hd & _).
    exists dev. eauto using list_elem_of_lookup_2.
  - intros (dev & [i Hi]%list_elem_of_lookup & Hd & <-).
    destruct (list_find _ (devices c)) as [[j dev']|] eqn:Hf; simpl.
    + apply list_find_Some in Hf as (Hj & Hd' & _). assert (i = j) as ->; [|congruence].
      eapply (NoDup_lookup _ _ _ d Hnd); rewrite list_lookup_fmap; rewrite ?Hi, ?Hj; simpl;
        congruence.
    + apply list_find_None in Hf. eapply Forall_lookup_1 in Hf; [|done]. done.
Qed.

Lemma owner_of_Err d e : owner_of c d = Err e → e = UnknownDevice d ∧ ¬ known c d.
Proof.
  intros He. split.
  - unfold owner_of in He. destruct (list_find _ _) as [[]|]; simpl in He; congruence.
  - intros [b Hb%owner_of_Ok]. congruence.
Qed.

Lemma owned_by_unique d b b' : owned_by c d b → owned_by c d b' → b = b'.
Proof. rewrite <-!owner_of_Ok. congruence. Qed.

(** A reference to device [d] whose failure to resolve is worth reporting. *)
Lemma owner_checks d (k : BoardId → result CompileError unit) (Q : Prop) :
  (¬ known c d → blame (UnknownDevice d)) →
  (Q → known c d) → (∀ b, owned_by c d b → checks (k b) Q blame) →
  checks (b ← owner_of c d; k b) Q blame.
Proof.
  intros Hun HQ Hk. destruct (owner_of c d) as [b|e] eqn:Ho; simpl.
  - by apply Hk, owner_of_Ok.
  - apply owner_of_Err in Ho as [-> Hno]. split; [tauto|]. by apply Hun.
Qed.

Lemma property_checks p :
  (¬ known c (dp_device_id p) → blame (UnknownDevice (dp_device_id p))) →
  checks (validate_property c p) (known c (dp_device_id p)) blame.
Proof. intros Hun. apply owner_checks; auto. intros b Hb. by exists b. Qed.

Lemma validate_dependencies_checks :
  checks (validate_dependencies c) (Forall (dependency_valid c) (dependencies c)) blame.
Proof.
  apply checks_each. intros d Hd.
  eapply checks_iff with (P := has_board c (sd_owner_board_id d) ∧
    owned_by c (dp_device_id (sd_source d)) (sd_owner_board_id d) ∧
    owned_by c (dp_device_id (sd_destination d)) (sd_owner_board_id d)).
  { split; [intros (? & ? & ?)|intros []]; by repeat split. }
  apply (checks_bind _ (λ _, _)).
  { apply checks_require; [apply board_exists_true|]. simpl. naive_solver. }
  intros _. apply owner_checks; [simpl; naive_solver|unfold known; naive_solver|].
  intros bs Hs. apply owner_checks; [simpl; naive_solver|unfold known; naive_solver|].
  intros bd Hbd. case_decide as Hne; simpl.
  - assert (¬ (owned_by c (dp_device_id (sd_source d)) (sd_owner_board_id d) ∧
               owned_by c (dp_device_id (sd_destination d)) (sd_owner_board_id d))).
    { intros [H1 H2]. pose proof (owned_by_unique _ _ _ Hs H1).
      pose proof (owned_by_unique _ _ _ Hbd H2). tauto. }
    split; [done|]. exists d. split; [done|]. destruct Hne as [Hne|Hne]; [left|right];
      intros Ho; apply Hne; eauto using owned_by_unique.
  - destruct (decide (bs = sd_owner_board_id d)) as [->|]; [|tauto].
    destruct (decide (bd = sd_owner_board_id d)) as [->|]; [|tauto]. done.
Qed.

Section rule.
Context (r : RuleConfig) (Hr : r ∈ rules c).

Definition action_ok (a : Action) : Prop :=
  (∀ d, action_device a = Some d →
     known c d ∧ ∀ b, ru_scope r = BoardLocal b → owned_by c d b) ∧
  (∀ b, action_board a = Some b → has_board c b).

Definition condition_ok (k : Condition) : Prop := known c (condition_device k).

Lemma action_checks a :
  a ∈ body_actions (ru_body r) → checks (validate_action c (ru_scope r) a) (action_ok a) blame.
Proof.
  intros Ha. unfold action_ok. destruct a as [d p v|b n|n]; simpl.
  - assert (d ∈ rule_sets r) by (apply list_elem_of_omap; by exists (SetDevice d p v)).
    apply owner_checks; [simpl; naive_solver|naive_solver|]. intros b Hb.
    destruct (ru_scope r) as [b'|] eqn:Hs; [case_decide as Hne|]; simpl.
    + assert (¬ owned_by c d b') by (intros Hb'; by destruct Hne; eauto using owned_by_unique).
      split; [naive_solver|]. split; [done|]. by exists r.
    + rewrite <-Hne in *. unfold known. naive_solver.
    + unfold known. naive_solver.
  - eapply checks_iff with (P := has_board c b); [naive_solver|].
    apply checks_require; [apply board_exists_true|]. intros Hno. split; [done|]. exists r.
    split; [done|]. unfold rule_boards. apply elem_of_app. right. apply list_elem_of_omap.
    by exists (SendBoardCommand b n).
  - naive_solver.
Qed.

Lemma condition_checks k :
  k ∈ option_list (ru_condition r) ++ body_conditions (ru_body r) →
  checks (validate_condition c k) (condition_ok k) blame.
Proof.
  intros Hk. destruct k as [p op v]. apply property_checks. intros Hno. split; [done|]. left.
  exists r. split; [done|]. left. unfold rule_reads. apply elem_of_app. right.
  apply list_elem_of_fmap. by exists (CondDeviceProperty p op v).
Qed.

Lemma opt_condition_checks o :
  (∀ k, o = Some k → k ∈ option_list (ru_condition r) ++ body_conditions (ru_body r)) →
  checks (match o with Some k => validate_condition c k | None => Ok tt end)
    (Forall condition_ok (option_list o)) blame.
Proof.
  intros Ho. destruct o as [k|]; simpl; [|constructor].
  eapply checks_iff; [symmetry; apply Forall_singleton|]. by apply condition_checks, Ho.
Qed.

Lemma body_complete_steps steps :
  body_complete (Steps steps) ↔ steps ≠ [] ∧ Forall (λ s, st_actions s ≠ []) steps.
Proof.
  unfold body_complete. simpl. destruct steps as [|s steps]; [naive_solver|].
  rewrite bind_cons, Forall_cons. split; [naive_solver|]. intros (_ & Hs & ?).
  split; [|done]. by intros [? _]%app_eq_nil.
Qed.

Lemma step_checks s steps :
  ru_body r = Steps steps → s ∈ steps →
  checks (validate_step c (ru_scope r) s)
    (st_actions s ≠ [] ∧ Forall condition_ok (option_list (st_precondition s)) ∧
     Forall action_ok (st_actions s)) blame.
Proof.
  intros Hb Hs. unfold validate_step. destruct (st_actions s) as [|a actions] eqn:Ha.
  - split; [naive_solver|]. exists r. split; [done|]. rewrite Hb, body_complete_steps.
    intros [_ Hall]. by eapply Forall_forall in Hall.
  - eapply checks_iff; [|apply (checks_bind _ (λ _, _))].
    + instantiate (1 := Forall action_ok (a :: actions)). instantiate (1 := Forall condition_ok _).
      naive_solver.
    + apply opt_condition_checks. intros k Hk. apply elem_of_app. right. rewrite Hb. simpl.
      apply list_elem_of_omap. eauto.
    + intros _. apply checks_each. intros a' Ha'. apply action_checks. rewrite Hb. simpl.
      apply list_elem_of_bind. exists s. by rewrite Ha.
Qed.

Lemma rule_body_checks :
  checks (validate_rule_body c r)
    (body_complete (ru_body r) ∧ Forall condition_ok (body_conditions (ru_body r)) ∧
     Forall action_ok (body_actions (ru_body r))) blame.
Proof.
  unfold validate_rule_body. destruct (ru_body r) as [actions|steps] eqn:Hb.
  - destruct actions as [|a actions].
    + split; [unfold body_complete; naive_solver|]. exists r. rewrite Hb. split; [done|].
      unfold body_complete. naive_solver.
    + eapply checks_iff with (P := Forall action_ok (a :: actions)).
      { unfold body_complete. simpl. split; [|naive_solver]. by repeat split. }
      apply checks_each. intros a' Ha'. apply action_checks. by rewrite Hb.
  - destruct steps as [|s steps].
    { split; [rewrite body_complete_steps; naive_solver|]. exists r. rewrite Hb. split; [done|].
      rewrite body_complete_steps. naive_solver. }
    eapply checks_iff; [|apply checks_each; intros s' Hs'; by eapply step_checks].
    rewrite body_complete_steps. unfold body_conditions, body_actions.
    assert (s :: steps ≠ []) as Hne by done. revert Hne. generalize (s :: steps) as l.
    intros l Hne. rewrite !Forall_forall. setoid_rewrite list_elem_of_omap.
    setoid_rewrite list_elem_of_bind. setoid_rewrite Forall_forall.
    setoid_rewrite elem_of_option_list. split.
    + intros Hall. split; [split; [done|]|split].
      * intros x Hx. by apply Hall.
      * intros k (x & Hx & Hk). destruct (Hall _ Hx) as (_ & Hc & _). eauto.
      * intros a (x & Ha & Hx). destruct (Hall _ Hx) as (_ & _ & Hc). eauto.
    + intros ((_ & Hall) & Hc & Ha) x Hx. split; [by apply Hall|]. split; eauto.
Qed.

Lemma trigger_checks :
  checks (validate_trigger c (ru_trigger r))
    (Forall (known c) (omap trigger_device (option_list (ru_trigger r))) ∧
     Forall (has_board c) (omap trigger_board (option_list (ru_trigger r)))) blame.
Proof.
  assert (∀ p, ru_trigger r = Some (DeviceChanged p) → dp_device_id p ∈ rule_reads r) as Hreads.
  { intros p Hp. unfold rule_reads. rewrite Hp. left. }
  assert (∀ b n, ru_trigger r = Some (BoardEvent b n) → b ∈ rule_boards r) as Hboards.
  { intros b n Hb. unfold rule_boards. rewrite Hb. left. }
  destruct (ru_trigger r) as [[p|n|b n]|]; simpl.
  - eapply checks_iff with (P := known c (dp_device_id p)).
    { rewrite Forall_singleton, Forall_nil. tauto. }
    apply property_checks. simpl. naive_solver.
  - by split; constructor.
  - eapply checks_iff with (P := has_board c b).
    { rewrite Forall_singleton, Forall_nil. tauto. }
    apply checks_require; [apply board_exists_true|]. simpl. naive_solver.
  - by split; constructor.
Qed.

Lemma rule_valid_parts :
  (ru_rule_id r ≠ 0 ∧
   (∀ b, ru_scope r = BoardLocal b → has_board c b) ∧
   (Forall (known c) (omap trigger_device (option_list (ru_trigger r))) ∧
    Forall (has_board c) (omap trigger_board (option_list (ru_trigger r)))) ∧
   Forall condition_ok (option_list (ru_condition r)) ∧
   body_complete (ru_body r) ∧ Forall condition_ok (body_conditions (ru_body r)) ∧
   Forall action_ok (body_actions (ru_body r))) ↔ rule_valid c r.
Proof.
  assert (Forall action_ok (body_actions (ru_body r)) ↔
    Forall (known c) (rule_sets r) ∧
    (∀ b, ru_scope r = BoardLocal b → Forall (λ d, owned_by c d b) (rule_sets r)) ∧
    Forall (has_board c) (omap action_board (body_actions (ru_body r)))) as Hact.
  { unfold rule_sets, action_ok. setoid_rewrite Forall_forall.
    setoid_rewrite list_elem_of_omap. split.
    - intros Ha. split; [|split]; intros; destruct_and?; naive_solver.
    - intros (H1 & H2 & H3) a Ha. split; [|naive_solver]. intros d Hd. split; naive_solver. }
  unfold condition_ok in *. split.
  - intros (? & ? & [? ?] & ? & ? & ? & (? & ? & ?)%Hact). split; try done.
    + unfold rule_reads. rewrite fmap_app, !Forall_app, !Forall_fmap. done.
    + unfold rule_boards. by rewrite Forall_app.
  - intros [Hid Hsc Hbody Hreads Hsets Hloc Hbs]. unfold rule_reads, rule_boards in *.
    rewrite fmap_app, !Forall_app, !Forall_fmap in Hreads. rewrite Forall_app in Hbs.
    rewrite Hact. naive_solver.
Qed.

Lemma rule_checks rest :
  (ru_rule_id r ∈ ru_rule_id <$> rest → blame (DuplicateRuleId (ru_rule_id r))) →
  checks (validate_rule c r rest) (ru_rule_id r ∉ ru_rule_id <$> rest ∧ rule_valid c r) blame.
Proof.
  intros Hdup. eapply checks_iff.
  { rewrite <-rule_valid_parts. instantiate (1 := _ ∧ ru_rule_id r ∉ ru_rule_id <$> rest ∧ _).
    split; [intros (H1 & H2 & H3); exact (conj H2 (conj H1 H3))|intros (H2 & H1 & H3); eauto]. }
  apply (checks_bind _ (λ _, _)).
  { apply checks_require; [apply is_valid_true|]. intros ?%Z.eq_dne. by exists r. }
  intros _. apply (checks_bind _ (λ _, _)).
  { apply checks_require; [apply any_key_false|]. intros Hin%dec_stable. by apply Hdup. }
  intros _. apply (checks_bind _ (λ _, _)).
  { destruct (ru_scope r) as [b|] eqn:Hs; [|by simpl].
    eapply checks_iff with (P := has_board c b); [naive_solver|].
    apply checks_require; [apply board_exists_true|]. simpl. naive_solver. }
  intros _. apply (checks_bind _ (λ _, _)); [apply trigger_checks|].
  intros _. apply (checks_bind _ (λ _, _)).
  { apply opt_condition_checks. intros k Hk. apply elem_of_app. left.
    by apply elem_of_option_list. }
  intros _. apply rule_body_checks.
Qed.
End rule.

Lemma validate_rules_checks :
  checks (validate_rules c) (NoDup (ru_rule_id <$> rules c) ∧ Forall (rule_valid c) (rules c))
    blame.
Proof.
  eapply checks_iff; [apply (Forall_rest_NoDup ru_rule_id)|].
  apply checks_each_rest. intros l1 r l2 Hl. apply rule_checks; [rewrite Hl; set_solver|].
  intros Hin. simpl. rewrite Hl. by apply duplicate_keys.
Qed.
End references.

Lemma validate_checks : checks (validate_config c) (config_valid c) blame.
Proof.
  unfold validate_config. destruct (decide (schema_version c ≠ _)) as [Hs|Hs].
  { split; [by intros []|done]. }
  unfold house_is_valid. destruct (bool_decide_reflect (house_id c ≠ 0)) as [Hh|Hh].
  2:{ split; [by intros []|]. simpl. lia. }
  simpl. eapply checks_iff; cycle 1.
  { apply (checks_bind _ (λ _, _)); [apply validate_boards_checks|]. intros _.
    apply (checks_bind _ (λ _, _)); [apply validate_controllers_checks|]. intros _.
    apply (checks_bind _ (λ _, _)); [apply validate_devices_checks|]. intros [Hnd _].
    apply (checks_bind _ (λ _, _)); [by apply validate_dependencies_checks|]. intros _.
    by apply validate_rules_checks. }
  apply dec_stable in Hs. split; [intros ([? ?] & ? & ? & ? & ?); by split|intros []; tauto].
Qed.
End validators.

(** C23: validation is exact.  [validate_config] accepts a configuration if and
    only if it is valid: the supported schema, non-zero and unique ids, one
    coordinator, every controller, device, dependency and rule on an existing
    board, every port wired to a controller of the same board, both ends of a
    dependency on its board, and rules that do something, name only known
    devices and boards and, when local, set only devices of their board. *)
Theorem validate_config_spec (c : CanonicalConfig) :
  validate_config c = Ok tt ↔ config_valid c.
Proof. exact (checks_Ok _ _ _ (validate_checks c 0)). Qed.

Section compiled.
Context `{Heapless} (caps : Caps).

Lemma push_all_Ok {A} cap (l : list A) : (length l ≤ cap)%nat → push_all cap [] l = Ok l.
Proof.
  enough (∀ out, (length out + length l ≤ cap)%nat → push_all cap out l = Ok (out ++ l)) as Hp
    by (intros; by apply Hp).
  induction l as [|x l IH]; intros out Hlen; simpl in *; [by rewrite app_nil_r|].
  destruct (vec_push cap out x) as [out'|] eqn:Hv; simpl.
  - apply vec_push_Some in Hv as [_ ->]. rewrite IH, <-app_assoc; [done|].
    rewrite length_app. simpl. lia.
  - apply vec_push_None in Hv. lia.
Qed.

(** What the compiler keeps of a configuration for one board. *)
Definition project (c : CanonicalConfig) (b : BoardConfig) : CompiledConfig := {|
  co_config_version := config_version c;
  co_local_inventory := {|
    li_board := b;
    li_controllers := filter (λ k, cc_owner_board_id k = bc_board_id b) (controllers c);
    li_devices := filter (λ d, dc_owner_board_id d = bc_board_id b) (devices c) |};
  co_stm32_dependencies :=
    {| records := filter (λ d, sd_owner_board_id d = bc_board_id b) (dependencies c) |};
  co_rules := Build_CompiledRule <$> filter (λ r, rule_applies_to_board b r) (rules c);
  co_topology := {| entries := topology_entry <$> devices c |} |}.

Lemma compile_config_cases c t :
  fits caps c →
  match compile_config caps c t with
  | Ok out => config_valid c ∧ ∃ b, b ∈ boards c ∧ bc_board_id b = t ∧ out = project c b
  | Err e => ¬ (config_valid c ∧ has_board c t) ∧ blames c t e
  end.
Proof.
  intros Hfits. unfold compile_config. pose proof (validate_checks c t) as Hv.
  destruct (validate_config c) as [[]|e]; simpl in *; [|tauto].
  destruct (find_board c t) as [b|] eqn:Hb; simpl.
  2:{ apply find_board_None in Hb. tauto. }
  apply find_board_Some in Hb as [Hb <-].
  destruct (fit_controllers _ _ Hfits) as [Hk _], (fit_devices _ _ Hfits) as [Hd _],
    (fit_dependencies _ _ Hfits) as [Hs _], (fit_rules _ _ Hfits) as [Hr _].
  pose proof (length_filter (λ k, cc_owner_board_id k = bc_board_id b) (controllers c)).
  pose proof (length_filter (λ d, dc_owner_board_id d = bc_board_id b) (devices c)).
  pose proof (length_filter (λ d, sd_owner_board_id d = bc_board_id b) (dependencies c)).
  pose proof (length_filter (λ r, rule_applies_to_board b r) (rules c)).
  rewrite !push_all_Ok by (rewrite ?length_fmap; lia). simpl. eauto.
Qed.

Lemma compile_config_project c t b :
  fits caps c → config_valid c → b ∈ boards c → bc_board_id b = t →
  compile_config caps c t = Ok (project c b).
Proof.
  intros Hfits Hv Hb Ht. pose proof (compile_config_cases c t Hfits) as Hc.
  destruct (compile_config caps c t) as [out|e].
  - destruct Hc as (_ & b' & Hb' & Ht' & ->). destruct (cv_boards _ Hv) as [Hnd _].
    pose proof (find_board_unique c t b Hnd Hb Ht).
    pose proof (find_board_unique c t b' Hnd Hb' Ht'). congruence.
  - destruct Hc as [[] _]. split; [done|]. by exists b.
Qed.

Lemma project_fits c b : fits caps c → b ∈ boards c → compiled_fits caps (project c b).
Proof.
  intros Hfits Hb. destruct Hfits. split; simpl; try done; try by apply vec_fits_filter.
  - destruct fit_boards0 as [_ Hbs]. by eapply Forall_forall in Hbs.
  - eapply vec_fits_fmap; [|by apply vec_fits_filter]. done.
  - eapply vec_fits_fmap; [|done]. intros d (? & ? & _). done.
Qed.

Lemma compile_config_fits c t out :
  fits caps c → compile_config caps c t = Ok out →
  compiled_fits caps out ∧ schema_version c = SUPPORTED_SCHEMA_VERSION ∧
  co_config_version out = config_version c.
Proof.
  intros Hfits Hc. pose proof (compile_config_cases c t Hfits) as Hp. rewrite Hc in Hp.
  destruct Hp as (Hv & b & Hb & _ & ->). split; [by apply project_fits|].
  split; [apply (cv_schema _ Hv)|done].
Qed.

(** C15: compiling succeeds exactly for the boards of a valid configuration,
    and gives that board's share of it.  The result vectors have the
    capacities of the input, so they never overflow; any error names a defect
    the configuration has, and [HouseLevelRuleOnZoneBoard] and
    [CapacityExceeded] are never returned. *)
Theorem compile_config_spec (c : CanonicalConfig) (t : BoardId) :
  fits caps c →
  match compile_config caps c t with
  | Ok out => config_valid c ∧ ∃ b, b ∈ boards c ∧ bc_board_id b = t ∧ out = project c b
  | Err e => ¬ (config_valid c ∧ has_board c t) ∧ blames c t e
  end.
Proof. apply compile_config_cases. Qed.

(** What a board receives is closed under reference.  Every port of a
    local device is on a local controller, both ends of a dependency are local
    devices, every device a rule mentions is in the topology with its owner,
    and the devices a local rule sets are local. *)
Lemma compiled_config_closed (c : CanonicalConfig) (t : BoardId) (out : CompiledConfig) :
  fits caps c → compile_config caps c t = Ok out →
  let local d := ∃ dev, dev ∈ li_devices (co_local_inventory out) ∧ dc_device_id dev = d in
  (∀ d p, d ∈ li_devices (co_local_inventory out) → dc_port d = Some p →
     ∃ k, k ∈ li_controllers (co_local_inventory out) ∧
          cc_controller_id k = pr_controller_id p) ∧
  (∀ s, s ∈ records (co_stm32_dependencies out) →
     local (dp_device_id (sd_source s)) ∧ local (dp_device_id (sd_destination s))) ∧
  (∀ r d, r ∈ co_rules out → d ∈ rule_reads (rule r) ∨ d ∈ rule_sets (rule r) →
     exists! e, e ∈ entries (co_topology out) ∧ te_device_id e = d) ∧
  (∀ r b d, r ∈ co_rules out → ru_scope (rule r) = BoardLocal b → d ∈ rule_sets (rule r) →
     local d).
Proof.
  intros Hfits Hc. pose proof (compile_config_cases c t Hfits) as Hp. rewrite Hc in Hp.
  destruct Hp as (Hv & b & Hb & <- & ->). simpl.
  destruct (cv_devices _ Hv) as [Hnd Hdev], (cv_rules _ Hv) as [_ Hrules].
  pose proof (cv_dependencies _ Hv) as Hdeps.
  assert (∀ d, owned_by c d (bc_board_id b) → ∃ dev,
    dev ∈ filter (λ d, dc_owner_board_id d = bc_board_id b) (devices c) ∧ dc_device_id dev = d)
    as Hlocal.
  { intros d (dev & Hdin & Hd & Ho). exists dev. by rewrite list_elem_of_filter. }
  split; [|split; [|split]].
  - intros d p [Ho Hd]%list_elem_of_filter Hport. eapply Forall_forall in Hdev; [|done].
    destruct Hdev as (_ & _ & Hw). destruct (Hw _ Hport) as (k & Hk & Hid & Hko).
    exists k. rewrite list_elem_of_filter. naive_solver congruence.
  - intros s [Ho Hs]%list_elem_of_filter. eapply Forall_forall in Hdeps; [|done].
    destruct Hdeps as [_ H1 H2]. rewrite Ho in H1, H2. auto.
  - intros r d (r' & -> & [_ Hr]%list_elem_of_filter)%list_elem_of_fmap Hd. simpl in Hd.
    eapply Forall_forall in Hrules; [|done]. destruct Hrules as [_ _ _ Hre Hse _ _].
    rewrite Forall_forall in Hre, Hse.
    assert (known c d) as [o (dev & Hdin & <- & <-)] by naive_solver.
    exists (topology_entry dev). split.
    { split; [|done]. apply list_elem_of_fmap. eauto. }
    intros e [(dev' & -> & Hd')%list_elem_of_fmap Hid]. simpl in Hid.
    apply list_elem_of_lookup in Hdin as [i Hi], Hd' as [j Hj].
    assert (i = j) as ->; [|congruence].
    eapply (NoDup_lookup _ _ _ (dc_device_id dev) Hnd); rewrite list_lookup_fmap;
      rewrite ?Hi, ?Hj; simpl; congruence.
  - intros r b' d (r' & -> & [Happ Hr]%list_elem_of_filter)%list_elem_of_fmap Hs Hd.
    simpl in *. eapply Forall_forall in Hrules; [|done].
    pose proof (rv_local _ _ Hrules _ Hs) as Hl. rewrite Forall_forall in Hl.
    unfold rule_applies_to_board in Happ. rewrite Hs in Happ.
    apply bool_decide_unpack in Happ as ->. auto.
Qed.

(** Something that only the share of board [b] contains. *)
Lemma placed_on (c : CanonicalConfig) (P : CompiledConfig → Prop) (b : BoardConfig) :
  fits caps c → config_valid c → b ∈ boards c →
  (∀ b', b' ∈ boards c → P (project c b') ↔ bc_board_id b' = bc_board_id b) →
  exists! t, ∃ out, compile_config caps c t = Ok out ∧ P out.
Proof.
  intros Hfits Hv Hb HP. exists (bc_board_id b). split.
  - exists (project c b). split; [by apply compile_config_project|]. by apply HP.
  - intros t (out & Hc & Hout). pose proof (compile_config_cases c t Hfits) as Hp.
    rewrite Hc in Hp. destruct Hp as (_ & b' & Hb' & <- & ->). symmetry. by apply HP.
Qed.

Lemma coordinator_unique (c : CanonicalConfig) :
  config_valid c →
  ∃ b, b ∈ boards c ∧ bc_role b = Coordinator ∧
       ∀ b', b' ∈ boards c → bc_role b' = Coordinator ↔ bc_board_id b' = bc_board_id b.
Proof.
  intros Hv. destruct (cv_boards _ Hv) as [Hnd _]. pose proof (cv_coordinator _ Hv) as Hlen.
  destruct (filter _ (boards c)) as [|b [|]] eqn:Hf; try done.
  assert (∀ b', b' ∈ boards c ∧ bc_role b' = Coordinator ↔ b' = b) as Hin.
  { intros b'. rewrite <-(list_elem_of_singleton b' b), <-Hf, list_elem_of_filter. tauto. }
  destruct (proj2 (Hin b) eq_refl) as [Hb Hrole]. exists b. split; [done|]. split; [done|].
  intros b' Hb'. split; [intros ?; f_equal; naive_solver|]. intros Hid.
  pose proof (find_board_unique c _ b Hnd Hb eq_refl).
  pose proof (find_board_unique c _ b' Hnd Hb' Hid). congruence.
Qed.

(** C30: nothing of a valid configuration is lost or duplicated.  Every rule,
    device, controller and dependency is in the compiled configuration of
    exactly one board; a house-level rule is in the coordinator's. *)
Theorem compilation_partitions (c : CanonicalConfig) :
  fits caps c → validate_config c = Ok tt →
  let on (P : CompiledConfig → Prop) t := ∃ out, compile_config caps c t = Ok out ∧ P out in
  (∀ r, r ∈ rules c → exists! t, on (λ out, Build_CompiledRule r ∈ co_rules out) t) ∧
  (∀ d, d ∈ devices c → exists! t, on (λ out, d ∈ li_devices (co_local_inventory out)) t) ∧
  (∀ k, k ∈ controllers c →
     exists! t, on (λ out, k ∈ li_controllers (co_local_inventory out)) t) ∧
  (∀ s, s ∈ dependencies c → exists! t, on (λ out, s ∈ records (co_stm32_dependencies out)) t).
Proof.
  intros Hfits Hv%(checks_Ok _ _ _ (validate_checks c 0)) on.
  destruct (cv_devices _ Hv) as [_ Hdev], (cv_rules _ Hv) as [_ Hrules].
  pose proof (cv_controllers _ Hv) as Hcs. pose proof (cv_dependencies _ Hv) as Hdeps.
  rewrite Forall_forall in Hdev. rewrite Forall_forall in Hrules.
  rewrite Forall_forall in Hcs. rewrite Forall_forall in Hdeps. split; [|split; [|split]].
  - intros r Hr. assert (∀ b', Build_CompiledRule r ∈ co_rules (project c b') ↔
      rule_applies_to_board b' r = true) as Happ.
    { intros b'. simpl. rewrite list_elem_of_fmap. setoid_rewrite list_elem_of_filter.
      rewrite <-Is_true_true. naive_solver. }
    destruct (ru_scope r) as [id|] eqn:Hs.
    + destruct (rv_scope _ _ (Hrules _ Hr) _ Hs) as (b & Hb & <-).
      apply (placed_on c _ b); try done. intros b' Hb'. rewrite Happ. unfold rule_applies_to_board.
      rewrite Hs, bool_decide_eq_true. done.
    + destruct (coordinator_unique c Hv) as (b & Hb & _ & Huniq).
      apply (placed_on c _ b); try done. intros b' Hb'. rewrite Happ. unfold rule_applies_to_board.
      rewrite Hs, bool_decide_eq_true. by apply Huniq.
  - intros d Hd. destruct (Hdev _ Hd) as (_ & (b & Hb & Ho) & _).
    apply (placed_on c _ b); try done. intros b' _. simpl. rewrite list_elem_of_filter.
    rewrite Ho. naive_solver.
  - intros k Hk. destruct (Hcs _ Hk) as (b & Hb & Ho).
    apply (placed_on c _ b); try done. intros b' _. simpl. rewrite list_elem_of_filter.
    rewrite Ho. naive_solver.
  - intros s Hs. destruct (dv_board _ _ (Hdeps _ Hs)) as (b & Hb & Ho).
    apply (placed_on c _ b); try done. intros b' _. simpl. rewrite list_elem_of_filter.
    rewrite Ho. naive_solver.
Qed.
End compiled.

(** ** An example: a house of two boards *)
Definition ex_caps : Caps := {|
  MAX_BOARDS := 2; MAX_CONTROLLERS := 1; MAX_DEVICES := 3; MAX_DEPENDENCIES := 1; MAX_RULES := 2;
  MAX_ACTIONS := 2; MAX_STEPS := 1 |}.

Definition ex_set (d : DeviceId) : Action := SetDevice d State (VBool true).
Definition ex_when (d : DeviceId) : Condition :=
  CondDeviceProperty {| dp_device_id := d; dp_property := State |} CmpEq (VI16 (-1)).

Definition ex_local_rule : RuleConfig := {|
  ru_rule_id := 1; ru_scope := BoardLocal 2; ru_enabled := true;
  ru_trigger := Some (DeviceChanged {| dp_device_id := 11; dp_property := Counter |});
  ru_condition := Some (ex_when 11);
  ru_body := Steps [{| st_delay_ms := 500; st_actions := [ex_set 20; ex_set 21];
                       st_precondition := Some (ex_when 20) |}];
  ru_cooldown_ms := 0; ru_version := 1 |}.

Definition ex_house_rule : RuleConfig := {|
  ru_rule_id := 2; ru_scope := HouseLevel; ru_enabled := true;
  ru_trigger := Some (BoardEvent 2 7); ru_condition := None;
  ru_body := Act [ex_set 20; SendBoardCommand 2 300];
  ru_cooldown_ms := 1000; ru_version := 1 |}.

Definition ex_house : CanonicalConfig := {|
  schema_version := 1; config_version := 5; house_id := 77;
  boards := [{| bc_board_id := 1; bc_role := Coordinator |};
             {| bc_board_id := 2; bc_role := Zone |}];
  controllers := [{| cc_controller_id := 9; cc_owner_board_id := 2; cc_family := XController |}];
  devices := [{| dc_device_id := 11; dc_owner_board_id := 1; dc_kind := DiscreteInput;
                 dc_port := None |};
              {| dc_device_id := 20; dc_owner_board_id := 2; dc_kind := Relay;
                 dc_port := Some {| pr_controller_id := 9; pr_port := 3 |} |};
              {| dc_device_id := 21; dc_owner_board_id := 2; dc_kind := Fan; dc_port := None |}];
  dependencies := [{| sd_owner_board_id := 2;
                      sd_source := {| dp_device_id := 20; dp_property := State |};
                      sd_source_code := SrcDeviceProperty;
                      sd_destination := {| dp_device_id := 21; dp_property := Mode |};
                      sd_destination_code := EnableDevice; sd_tag := TagFan |}];
  rules := [ex_local_rule; ex_house_rule];
  broker := {| br_host_name := "house"; br_tls_required := true |};
  network := {| nc_dhcp := false; nc_static_ipv4 := Some (10, 0, 0, 2) |} |}.

Ltac solve_fits :=
  repeat first [done | split | apply Forall_cons | apply Forall_nil];
  vm_compute; first [discriminate | lia].

Lemma ex_house_fits : fits ex_caps ex_house.
Proof. solve_fits. Qed.

Lemma compile_config_spec_witness :
  match compile_config ex_caps ex_house 3 with
  | Ok out => config_valid ex_house ∧
      ∃ b, b ∈ boards ex_house ∧ bc_board_id b = 3 ∧ out = project ex_house b
  | Err e => ¬ (config_valid ex_house ∧ has_board ex_house 3) ∧ blames ex_house 3 e
  end.
Proof. exact (compile_config_spec ex_caps ex_house 3 ex_house_fits). Defined.

Lemma ex_house_compiles :
  compile_config ex_caps ex_house 2 = Ok (project ex_house {| bc_board_id := 2; bc_role := Zone |}).
Proof. reflexivity. Qed.

Lemma compiled_config_closed_witness :
  ∃ e, e ∈ entries (co_topology (project ex_house {| bc_board_id := 2; bc_role := Zone |})) ∧
       te_device_id e = 11.
Proof.
  pose proof (compiled_config_closed ex_caps ex_house 2 _ ex_house_fits ex_house_compiles)
    as (_ & _ & Hrules & _).
  destruct (Hrules {| rule := ex_local_rule |} 11) as (e & He & _); [left|left; left|].
  exists e. exact He.
Defined.

Lemma compilation_partitions_witness :
  ∃ t, ∃ out, compile_config ex_caps ex_house t = Ok out ∧ {| rule := ex_house_rule |} ∈ co_rules out.
Proof.
  destruct (compilation_partitions ex_caps ex_house ex_house_fits eq_refl) as [Hrules _].
  destruct (Hrules ex_house_rule) as (t & Ht & _); [right; left|]. exists t. exact Ht.
Defined.
End Compiler.
