(* ===== verification/Crc.v ===== *)
(** * Crc: the checksum of the configuration envelope
    ([crc32] of [smartbox-config/src/serialization.rs])

    The bitwise CRC-32 of the source.  One round is linear over exclusive or
    and, because the polynomial has its top bit set, loses no information; so
    two inputs of the same length that differ only inside a window of four
    bytes never have the same checksum. *)

From S2P Require Import Prelude.

Module Crc.

Definition POLY : Z := 0xEDB88320.

(** [let mask = 0u32.wrapping_sub(crc & 1); crc = (crc >> 1) ^ (POLY & mask)] *)
Definition round (crc : Z) : Z :=
  let mask := (0 - Z.land crc 1) mod (U32_MAX + 1) in
  Z.lxor (Z.shiftr crc 1) (Z.land POLY mask).

Definition update (crc byte : Z) : Z := Nat.iter 8 round (Z.lxor crc byte).

(** [!crc] of a [u32] flips its 32 bits. *)
Definition not32 (x : Z) : Z := Z.lxor x U32_MAX.

Definition crc32 (bytes : list Z) : Z := not32 (foldl update 0xFFFFFFFF bytes).

(** ** Exclusive or on 32-bit words *)
Definition is_word (x : Z) : Prop := 0 ≤ x < 2 ^ 32.

Lemma lxor_bound n a b : 0 ≤ n → 0 ≤ a < 2 ^ n → 0 ≤ b < 2 ^ n → 0 ≤ Z.lxor a b < 2 ^ n.
Proof.
  intros Hn [Ha Ha'] [Hb Hb']. split; [by apply Z.lxor_nonneg|].
  destruct (decide (Z.lxor a b = 0)) as [->|Hne]; [by apply Z.pow_pos_nonneg|].
  assert (0 ≤ Z.lxor a b) by by apply Z.lxor_nonneg. apply Z.log2_lt_pow2; [lia|].
  pose proof (Z.log2_lxor a b Ha Hb) as Hlog.
  assert (∀ x, 0 ≤ x < 2 ^ n → 0 < n → Z.log2 x < n) as Hlt.
  { intros x [? ?] ?. destruct (decide (x = 0)) as [->|]; [done|]. apply Z.log2_lt_pow2; lia. }
  destruct (decide (n = 0)) as [->|]; [|pose proof (Hlt a); pose proof (Hlt b); lia].
  assert (a = 0) as -> by lia. assert (b = 0) as -> by lia. done.
Qed.

Lemma lxor_eq_0 a b : Z.lxor a b = 0 ↔ a = b.
Proof. apply Z.lxor_eq_0_iff. Qed.

(** ** One round *)
Lemma round_alt x : round x = Z.lxor (x / 2) (if Z.odd x then POLY else 0).
Proof.
  unfold round. rewrite Z.shiftr_div_pow2 by done. change 1 with (Z.ones 1) at 2.
  rewrite Z.land_ones, Zmod_odd by done. by destruct (Z.odd x).
Qed.

Lemma round_linear x y : round (Z.lxor x y) = Z.lxor (round x) (round y).
Proof.
  rewrite !round_alt, <-!Z.div2_div, !Z.div2_spec, Z.shiftr_lxor, <-!Z.bit0_odd, Z.lxor_spec.
  destruct (Z.testbit x 0), (Z.testbit y 0); simpl; rewrite ?Z.lxor_0_r.
  - rewrite (Z.lxor_assoc (Z.shiftr x 1)), (Z.lxor_comm POLY), Z.lxor_assoc, Z.lxor_nilpotent.
    by rewrite Z.lxor_0_r.
  - by rewrite !Z.lxor_assoc, (Z.lxor_comm (Z.shiftr y 1)).
  - by rewrite Z.lxor_assoc.
  - done.
Qed.

Lemma round_word x : is_word x → is_word (round x).
Proof.
  unfold is_word. intros Hx. rewrite round_alt. apply lxor_bound; [done| |].
  - split; [apply Z.div_pos; lia|apply Z.div_lt_upper_bound; lia].
  - destruct (Z.odd x); vm_compute; split; (discriminate || done).
Qed.

(** The bit that a round shifts out reappears at the top. *)
Lemma round_small x : is_word x → round x < 2 ^ 31 → x = 2 * round x.
Proof.
  intros [Hx Hx']. rewrite round_alt. destruct (Z.odd x) eqn:Ho.
  - intros Hlt. exfalso. assert (0 ≤ x / 2 < 2 ^ 31) as Hd.
    { split; [apply Z.div_pos; lia|apply Z.div_lt_upper_bound; lia]. }
    assert (Z.testbit (Z.lxor (x / 2) POLY) 31 = true) as Hbit.
    { rewrite Z.lxor_spec. replace (Z.testbit (x / 2) 31) with false; [done|]. symmetry.
      destruct (decide (x / 2 = 0)) as [->|]; [done|]. apply Z.bits_above_log2; [lia|].
      apply Z.log2_lt_pow2; lia. }
    apply (Z.testbit_true _ 31 ltac:(lia)) in Hbit. rewrite Z.div_small in Hbit; [done|].
    split; [|done]. apply Z.lxor_nonneg. unfold POLY. lia.
  - rewrite Z.lxor_0_r. intros _. pose proof (Z.div_mod x 2 ltac:(lia)).
    rewrite Zmod_odd, Ho in *. lia.
Qed.

Lemma rounds_word n x : is_word x → is_word (Nat.iter n round x).
Proof. intros Hx. induction n; simpl; [done|]. by apply round_word. Qed.

Lemma rounds_linear n x y :
  Nat.iter n round (Z.lxor x y) = Z.lxor (Nat.iter n round x) (Nat.iter n round y).
Proof. induction n as [|n IH]; simpl; [done|]. by rewrite IH, round_linear. Qed.

Lemma rounds_small n x :
  is_word x → (n ≤ 32)%nat → Nat.iter n round x < 2 ^ (32 - Z.of_nat n) →
  x = 2 ^ Z.of_nat n * Nat.iter n round x.
Proof.
  intros Hx. induction n as [|n IH]; intros Hn Hlt; [change (2 ^ Z.of_nat 0) with 1; simpl; lia|].
  rewrite Nat.iter_succ in *. set (z := Nat.iter n round x) in *.
  assert (is_word z) as Hz by by apply rounds_word.
  assert (2 ^ (32 - Z.of_nat (S n)) ≤ 2 ^ 31) by (apply Z.pow_le_mono_r; lia).
  pose proof (round_small z Hz ltac:(lia)) as Hr.
  assert (2 ^ (32 - Z.of_nat n) = 2 * 2 ^ (32 - Z.of_nat (S n))).
  { rewrite <-Z.pow_succ_r by lia. f_equal. lia. }
  rewrite IH by lia. rewrite Hr at 1. rewrite Nat2Z.inj_succ, Z.pow_succ_r by lia. lia.
Qed.

#[local] Opaque round.

(** ** Differences

    Feeding two inputs in parallel, the exclusive or of the states evolves by
    the exclusive or of the bytes alone. *)
Definition advance (diff : Z) (bytes : list Z) : Z := foldl update diff bytes.

Lemma update_linear s s' b b' :
  Z.lxor (update s b) (update s' b') = update (Z.lxor s s') (Z.lxor b b').
Proof.
  unfold update. rewrite <-rounds_linear. f_equal.
  rewrite !Z.lxor_assoc. f_equal. rewrite <-!Z.lxor_assoc. f_equal. apply Z.lxor_comm.
Qed.

Lemma advance_linear s s' bs bs' :
  length bs = length bs' →
  Z.lxor (advance s bs) (advance s' bs') = advance (Z.lxor s s') (zip_with Z.lxor bs bs').
Proof.
  revert s s' bs'. induction bs as [|b bs IH]; intros s s' [|b' bs'] Hlen; simplify_eq/=; [done|].
  unfold advance in *. simpl. rewrite IH by done. by rewrite update_linear.
Qed.

Lemma update_word s b : is_word s → is_u8 b → is_word (update s b).
Proof. intros Hs Hb. apply rounds_word, lxor_bound; [done|done|]. int_lia. Qed.

Lemma advance_word s bs : is_word s → Forall is_u8 bs → is_word (advance s bs).
Proof.
  intros Hs Hbs. revert s Hs. induction Hbs as [|b bs Hb _ IH]; intros s Hs; [done|].
  by apply IH, update_word.
Qed.

Lemma update_inj_0 d b : is_word d → is_u8 b → update d b < 2 ^ 24 → Z.lxor d b = 256 * update d b.
Proof.
  intros Hd Hb Hlt. unfold update in *. apply (rounds_small 8); [|lia|exact Hlt].
  apply lxor_bound; [done|done|int_lia].
Qed.

Lemma advance_zeros d n : is_word d → advance d (replicate n 0) = 0 → d = 0.
Proof.
  revert d. induction n as [|n IH]; intros d Hd H0; [done|]. simpl in H0.
  assert (is_u8 0) as Hz by int_lia. assert (is_word (update d 0)) by by apply update_word.
  pose proof (update_inj_0 d 0 Hd Hz) as Hi. rewrite (IH (update d 0)), Z.lxor_0_r in Hi by done.
  by apply Hi.
Qed.

(** The little-endian word of up to four bytes. *)
Fixpoint word (bytes : list Z) : Z :=
  match bytes with [] => 0 | b :: bytes => Z.lxor b (256 * word bytes) end.

Lemma word_bound bs : Forall is_u8 bs → 0 ≤ word bs < 2 ^ (8 * Z.of_nat (length bs)).
Proof.
  induction 1 as [|b bs Hb _ IH]; simpl length; [by split|].
  assert (2 ^ (8 * Z.of_nat (S (length bs))) = 256 * 2 ^ (8 * Z.of_nat (length bs))) as Hpow.
  { replace (8 * Z.of_nat (S (length bs))) with (8 + 8 * Z.of_nat (length bs)) by lia.
    rewrite Z.pow_add_r by lia. done. }
  cbn [word].
  apply lxor_bound; [lia| |rewrite Hpow; lia].
  assert (1 ≤ 2 ^ (8 * Z.of_nat (length bs))) by (apply (Z.pow_le_mono_r 2 0); lia).
  rewrite Hpow. int_lia.
Qed.

Lemma word_0 bs : Forall is_u8 bs → word bs = 0 → bs = replicate (length bs) 0.
Proof.
  induction 1 as [|b bs Hb Hbs IH]; cbn [word length replicate]; [done|]. intros Hw%Z.lxor_eq.
  pose proof (word_bound bs Hbs) as [Hw0 _]. clear Hbs.
  assert (word bs = 0) as H0 by int_lia. rewrite H0 in Hw. rewrite Hw. f_equal. by apply IH.
Qed.

Lemma advance_burst d bs :
  is_word d → Forall is_u8 bs → (length bs ≤ 4)%nat → advance d bs = 0 → d = word bs.
Proof.
  intros Hd Hbs. revert d Hd. induction Hbs as [|b bs Hb Hbs IH]; intros d Hd Hlen H0; [done|].
  cbn [length word] in *. assert (is_word (update d b)) as Hu by by apply update_word.
  specialize (IH (update d b) Hu ltac:(lia) H0). pose proof (word_bound bs Hbs) as [_ Hw].
  assert (2 ^ (8 * Z.of_nat (length bs)) ≤ 2 ^ 24) by (apply Z.pow_le_mono_r; lia).
  pose proof (update_inj_0 d b Hd Hb ltac:(lia)) as Hx. rewrite IH in Hx. rewrite <-Hx.
  by rewrite (Z.lxor_comm b), Z.lxor_assoc, Z.lxor_nilpotent, Z.lxor_0_r.
Qed.

Lemma zip_lxor_u8 bs bs' :
  Forall is_u8 bs → Forall is_u8 bs' → Forall is_u8 (zip_with Z.lxor bs bs').
Proof.
  intros Hbs. revert bs'. induction Hbs as [|b bs Hb _ IH]; intros [|b' bs'] Hbs'; simpl;
    try constructor; decompose_Forall_hyps; [|by apply IH].
  pose proof (lxor_bound 8 b b'). int_lia.
Qed.

Lemma zip_lxor_0 bs bs' :
  length bs = length bs' → zip_with Z.lxor bs bs' = replicate (length bs) 0 ↔ bs = bs'.
Proof.
  revert bs'. induction bs as [|b bs IH]; intros [|b' bs'] Hlen; simplify_eq/=; [done|].
  split.
  - intros [= ->%Z.lxor_eq H0]. f_equal. by apply IH.
  - intros [= -> ->]. rewrite Z.lxor_nilpotent. f_equal. by apply IH.
Qed.

(** The checksum detects every burst of up to 32 bits: two byte strings of the
    same length that differ only inside a window of at most four bytes have
    different checksums. *)
Lemma burst_crc pre mid mid' post :
  Forall is_u8 (pre ++ mid ++ post) → Forall is_u8 (pre ++ mid' ++ post) →
  length mid = length mid' → (length mid ≤ 4)%nat → mid ≠ mid' →
  crc32 (pre ++ mid ++ post) ≠ crc32 (pre ++ mid' ++ post).
Proof.
  rewrite !Forall_app. intros (Hpre & Hmid & Hpost) (_ & Hmid' & _) Hlen H4 Hne Hcrc. apply Hne.
  unfold crc32, not32 in Hcrc. rewrite !foldl_app in Hcrc.
  set (s := foldl update _ pre) in Hcrc.
  assert (Z.lxor (advance (advance s mid) post) (advance (advance s mid') post) = 0) as H0.
  { apply lxor_eq_0. apply (f_equal (λ x, Z.lxor x U32_MAX)) in Hcrc.
    by rewrite !Z.lxor_assoc, Z.lxor_nilpotent, !Z.lxor_0_r in Hcrc. }
  rewrite advance_linear, advance_linear, Z.lxor_nilpotent in H0 by done.
  rewrite (proj2 (zip_lxor_0 post post eq_refl) eq_refl) in H0.
  assert (Forall is_u8 (zip_with Z.lxor mid mid')) by by apply zip_lxor_u8.
  apply advance_zeros in H0; [|by apply advance_word].
  apply advance_burst in H0; [|done|done|rewrite length_zip_with; lia].
  symmetry in H0. apply word_0 in H0; [|done].
  rewrite length_zip_with, Hlen, Nat.min_id, <-Hlen in H0. by apply zip_lxor_0.
Qed.

(** The check value of CRC-32 (ISO-HDLC), the checksum of "123456789". *)
Example crc32_check : crc32 (as_bytes "123456789") = 0xCBF43926.
Proof. vm_compute. reflexivity. Qed.
End Crc.
