(* ===== verification/PostcardRef.v ===== *)
(** * PostcardRef: a concrete postcard codec for the configuration types

    The wire format of the public postcard specification (little-endian
    base-128 integers, zig-zag signed integers, length-prefixed sequences,
    tagged options and enumerations), as combinators, and the instances of
    [Postcard] for the two configuration types.  No theorem about the
    repository depends on it: it shows that the laws of [Postcard] are
    satisfiable, and the witnesses evaluate with it. *)

From S2P Require Import Prelude External Reference Schema Compiler.

Module PostcardRef.
Import Schema Compiler.

(** ** Combinators *)
Record codec (A : Type) (valid : A → Prop) := {
  enc : A → list Z;
  dec : list Z → option (A * list Z);
  dec_enc a rest : valid a → dec (enc a ++ rest) = Some (a, rest);
}.
Arguments enc {A valid} _ _.
Arguments dec {A valid} _ _.
Arguments dec_enc {A valid} _ _ _ _.

Definition c_u8 : codec Z is_u8.
Proof. refine {| enc x := [x]; dec bs := match bs with b :: r => Some (b, r) | [] => None end |}. done. Defined.

Fixpoint enc_var (fuel : nat) (n : Z) : list Z :=
  match fuel with
  | O => []
  | S fuel => if decide (n < 128) then [n] else (n mod 128 + 128) :: enc_var fuel (n / 128)
  end.

Fixpoint dec_var (fuel : nat) (bs : list Z) : option (Z * list Z) :=
  match fuel, bs with
  | S fuel, b :: bs =>
      if decide (b < 128) then Some (b, bs)
      else '(n, r) ← dec_var fuel bs; Some (b - 128 + 128 * n, r)
  | _, _ => None
  end.

Lemma dec_enc_var fuel n rest :
  0 ≤ n < 128 ^ (1 + Z.of_nat fuel) →
  dec_var (S fuel) (enc_var (S fuel) n ++ rest) = Some (n, rest).
Proof.
  revert n. induction fuel as [|fuel IH]; intros n Hn.
  { change (128 ^ (1 + Z.of_nat 0)) with 128 in Hn. cbn [enc_var dec_var].
    rewrite decide_True by lia. simpl. by rewrite decide_True by lia. }
  remember (S fuel) as f. cbn [enc_var].
  destruct (decide (n < 128)) as [Hlt|Hge]; cbn [dec_var app]; [by rewrite decide_True|].
  pose proof (Z.mod_pos_bound n 128). rewrite decide_False by lia. rewrite IH.
  - cbn. pose proof (Z.div_mod n 128 ltac:(lia)). f_equal. f_equal. lia.
  - rewrite Heqf, Nat2Z.inj_succ, <-Z.add_1_l, Z.pow_add_r in Hn by lia.
    split; [apply Z.div_pos; lia|apply Z.div_lt_upper_bound; lia].
Qed.

Definition c_var (max : Z) (Hmax : max < 128 ^ 5) : codec Z (λ n, 0 ≤ n ≤ max).
Proof.
  refine {| enc := enc_var 5; dec := dec_var 5 |}. intros a rest Ha. apply (dec_enc_var 4).
  change (1 + Z.of_nat 4) with 5. lia.
Defined.
Definition c_u16 : codec Z is_u16 := c_var U16_MAX eq_refl.
Definition c_u32 : codec Z is_u32 := c_var U32_MAX eq_refl.

(** Change the type, and the values considered. *)
Definition c_iso {A B} {va : A → Prop} (vb : B → Prop) (c : codec A va) (to : B → A) (back : A → B)
  (Hv : ∀ b, vb b → va (to b)) (Hof : ∀ b, vb b → back (to b) = b) : codec B vb.
Proof.
  refine {| enc b := enc c (to b); dec bs := '(a, r) ← dec c bs; Some (back a, r) |}.
  intros b rest Hb. rewrite (dec_enc c) by auto. simpl. by rewrite Hof.
Defined.

Definition zigzag (n : Z) : Z := if decide (0 ≤ n) then 2 * n else - 2 * n - 1.
Definition unzigzag (n : Z) : Z := if Z.even n then n / 2 else - (n + 1) / 2.

Lemma unzigzag_zigzag n : unzigzag (zigzag n) = n.
Proof.
  unfold zigzag, unzigzag. case_decide.
  - rewrite Z.even_mul. simpl. by rewrite Z.mul_comm, Z.div_mul.
  - replace (-2 * n - 1) with (2 * (- n - 1) + 1) by lia. rewrite Z.even_add, Z.even_mul. simpl.
    replace (- (2 * (- n - 1) + 1 + 1)) with (n * 2) by lia. by rewrite Z.div_mul.
Qed.

Definition c_i16 : codec Z is_i16.
Proof.
  refine (c_iso _ c_u16 zigzag unzigzag _ (λ n _, unzigzag_zigzag n)).
  unfold is_i16, zigzag. intros n Hn. case_decide; int_lia.
Defined.
Definition c_i32 : codec Z is_i32.
Proof.
  refine (c_iso _ c_u32 zigzag unzigzag _ (λ n _, unzigzag_zigzag n)).
  unfold is_i32, zigzag. intros n Hn. case_decide; int_lia.
Defined.

Definition c_bool : codec bool (λ _, True).
Proof.
  refine (c_iso _ c_u8 (λ b : bool, if b then 1 else 0) (λ n, bool_decide (n = 1)) _ _).
  - intros [] _; int_lia.
  - by intros [].
Defined.

Definition c_pair {A B} {va : A → Prop} {vb : B → Prop} (ca : codec A va) (cb : codec B vb)
  : codec (A * B) (λ p, va p.1 ∧ vb p.2).
Proof.
  refine {| enc p := enc ca p.1 ++ enc cb p.2;
            dec bs := '(a, r) ← dec ca bs; '(b, r) ← dec cb r; Some ((a, b), r) |}.
  intros [a b] rest [Ha Hb]. rewrite <-app_assoc, (dec_enc ca) by done. simpl.
  by rewrite (dec_enc cb).
Defined.

Definition c_opt {A} {va : A → Prop} (c : codec A va) : codec (option A) (opt_fits va).
Proof.
  refine {| enc o := match o with None => [0] | Some a => 1 :: enc c a end;
            dec bs := match bs with
                      | 0 :: r => Some (None, r)
                      | 1 :: r => '(a, r) ← dec c r; Some (Some a, r)
                      | _ => None
                      end |}.
  intros [a|] rest Ha; [|done]. simpl. by rewrite (dec_enc c).
Defined.

Fixpoint dec_n {A} {va : A → Prop} (c : codec A va) (n : nat) (bs : list Z)
  : option (list A * list Z) :=
  match n with
  | O => Some ([], bs)
  | S n => '(a, r) ← dec c bs; '(l, r) ← dec_n c n r; Some (a :: l, r)
  end.

Lemma dec_n_enc {A} {va : A → Prop} (c : codec A va) l rest :
  Forall va l → dec_n c (length l) ((l ≫= enc c) ++ rest) = Some (l, rest).
Proof.
  induction 1 as [|a l Ha _ IH]; [done|]. cbn [length dec_n]. rewrite bind_cons, <-app_assoc.
  rewrite (dec_enc c) by done. simpl. by rewrite IH.
Qed.

Definition small (cap : nat) : Prop := Z.of_nat cap ≤ U32_MAX.

Definition c_vec {A} {va : A → Prop} (cap : nat) (Hcap : small cap) (c : codec A va)
  : codec (list A) (vec_fits cap va).
Proof.
  refine {| enc l := enc c_u32 (Z.of_nat (length l)) ++ (l ≫= enc c);
            dec bs := '(n, r) ← dec c_u32 bs;
                      if decide (n ≤ Z.of_nat cap) then dec_n c (Z.to_nat n) r else None |}.
  intros l rest [Hlen Hall]. unfold small in Hcap.
  rewrite <-app_assoc, (dec_enc c_u32) by int_lia. simpl.
  rewrite decide_True by lia. rewrite Nat2Z.id. by apply dec_n_enc.
Defined.

(** An enumeration, given by the list of its variants. *)
Definition c_enum {A} (index : A → nat) (all : list A) (d : A)
  (Hi : ∀ a, (index a ≤ 255)%nat ∧ all !! index a = Some a) : codec A (λ _, True).
Proof.
  refine (c_iso _ c_u8 (λ a, Z.of_nat (index a)) (λ n, default d (all !! Z.to_nat n)) _ _).
  - intros a _. destruct (Hi a) as [? _]. int_lia.
  - intros a _. destruct (Hi a) as [_ Ha]. by rewrite Nat2Z.id, Ha.
Defined.

(** A tagged union: the tag, and a body whose codec depends on it. *)
Definition c_tagged {A} (va : A → Prop) (tag : A → Z) (body : A → list Z)
  (dec_body : Z → list Z → option (A * list Z)) (Ht : ∀ a, is_u8 (tag a))
  (Hb : ∀ a rest, va a → dec_body (tag a) (body a ++ rest) = Some (a, rest)) : codec A va.
Proof.
  refine {| enc a := tag a :: body a;
            dec bs := match bs with t :: r => dec_body t r | [] => None end |}.
  intros a rest Ha. simpl. by apply Hb.
Defined.

(** Read with [c], then build. *)
Definition build {A B} {va : A → Prop} (c : codec A va) (f : A → B) (bs : list Z)
  : option (B * list Z) := '(a, r) ← dec c bs; Some (f a, r).

Lemma build_enc {A B} {va : A → Prop} (c : codec A va) (f : A → B) a rest :
  va a → build c f (enc c a ++ rest) = Some (f a, rest).
Proof. intros Ha. unfold build. by rewrite (dec_enc c). Qed.

(** ** The enumerations of the schema *)
Definition c_BoardRole : codec BoardRole (λ _, True).
Proof.
  refine (c_enum (λ a, match a with | Coordinator => 0 | Standby => 1 | Zone => 2 end)%nat
    [Coordinator; Standby; Zone] Coordinator _).
  intros []; (split; [lia|done]).
Defined.
Definition c_ControllerFamily : codec ControllerFamily (λ _, True).
Proof.
  refine (c_enum (λ a, match a with | XController => 0 | IRGate => 1 | Dimmer => 2 | PWM => 3 |
      SmartBox => 4 end)%nat
    [XController; IRGate; Dimmer; PWM; SmartBox] XController _).
  intros []; (split; [lia|done]).
Defined.
Definition c_DeviceKind : codec DeviceKind (λ _, True).
Proof.
  refine (c_enum (λ a, match a with | Relay => 0 | DiscreteInput => 1 | Adc => 2 | Dht => 3 |
      Ds18B20 => 4 | DaliLight => 5 | DaliGroup => 6 | Pwm => 7 | TriacDimmer => 8 | IButton =>
      9 | IrGate => 10 | TuyaRelay => 11 | TasmotaIrGate => 12 | AquaProtect => 13 |
      ClimateControl => 14 | Curtains => 15 | Fan => 16 | GateValve => 17 end)%nat
    [Relay; DiscreteInput; Adc; Dht; Ds18B20; DaliLight; DaliGroup; Pwm; TriacDimmer; IButton;
        IrGate; TuyaRelay; TasmotaIrGate; AquaProtect; ClimateControl; Curtains; Fan; GateValve]
        Relay _).
  intros []; (split; [lia|done]).
Defined.
Definition c_PropertyKind : codec PropertyKind (λ _, True).
Proof.
  refine (c_enum (λ a, match a with | State => 0 | Brightness => 1 | PropValue => 2 |
      Temperature => 3 | Humidity => 4 | Counter => 5 | LastKey => 6 | Position => 7 | Mode => 8
      end)%nat
    [State; Brightness; PropValue; Temperature; Humidity; Counter; LastKey; Position; Mode]
        State _).
  intros []; (split; [lia|done]).
Defined.
Definition c_CompareOp : codec CompareOp (λ _, True).
Proof.
  refine (c_enum (λ a, match a with | CmpEq => 0 | NotEq => 1 | Greater => 2 | GreaterOrEq => 3
      | Less => 4 | LessOrEq => 5 end)%nat
    [CmpEq; NotEq; Greater; GreaterOrEq; Less; LessOrEq] CmpEq _).
  intros []; (split; [lia|done]).
Defined.
Definition c_DependencySourceCode : codec DependencySourceCode (λ _, True).
Proof.
  refine (c_enum (λ a, match a with | SrcDeviceProperty => 0 | SrcControllerEvent => 1 end)%nat
    [SrcDeviceProperty; SrcControllerEvent] SrcDeviceProperty _).
  intros []; (split; [lia|done]).
Defined.
Definition c_DependencyDestinationCode : codec DependencyDestinationCode (λ _, True).
Proof.
  refine (c_enum (λ a, match a with | SetDeviceProperty => 0 | DisableDevice => 1 | EnableDevice
      => 2 end)%nat
    [SetDeviceProperty; DisableDevice; EnableDevice] SetDeviceProperty _).
  intros []; (split; [lia|done]).
Defined.
Definition c_DependencyTagType : codec DependencyTagType (λ _, True).
Proof.
  refine (c_enum (λ a, match a with | TagGeneric => 0 | TagAquaProtect => 1 | TagClimateControl
      => 2 | TagCurtains => 3 | TagFan => 4 | TagGateValve => 5 end)%nat
    [TagGeneric; TagAquaProtect; TagClimateControl; TagCurtains; TagFan; TagGateValve]
        TagGeneric _).
  intros []; (split; [lia|done]).
Defined.

(** ** The structures and unions of the schema *)
Definition c_Value : codec Value value_fits.
Proof.
  refine (c_tagged _
    (λ v, match v with VBool _ => 0 | VU8 _ => 1 | VI16 _ => 2 | VU16 _ => 3 | VI32 _ => 4 | VU32 _ => 5 end)
    (λ v, match v with
          | VBool b => enc c_bool b | VU8 n => enc c_u8 n | VI16 n => enc c_i16 n
          | VU16 n => enc c_u16 n | VI32 n => enc c_i32 n | VU32 n => enc c_u32 n
          end)
    (λ t, match t with
          | 0 => build c_bool VBool | 1 => build c_u8 VU8 | 2 => build c_i16 VI16
          | 3 => build c_u16 VU16 | 4 => build c_i32 VI32 | _ => build c_u32 VU32
          end) _ _).
  - intros []; int_lia.
  - intros [] rest Hv; by rewrite build_enc.
Defined.

Definition property_fits (p : DeviceProperty) : Prop := is_u32 (dp_device_id p).

Definition c_DeviceProperty : codec DeviceProperty property_fits.
Proof.
  refine (c_iso _ (c_pair c_u32 c_PropertyKind) (λ p, (dp_device_id p, dp_property p))
    (λ '(d, k), {| dp_device_id := d; dp_property := k |}) _ _); [done|by intros []].
Defined.

Definition c_Condition : codec Condition condition_fits.
Proof.
  refine (c_tagged _ (λ _, 0)
    (λ '(CondDeviceProperty p o v), enc (c_pair c_DeviceProperty (c_pair c_CompareOp c_Value)) (p, (o, v)))
    (λ _, build (c_pair c_DeviceProperty (c_pair c_CompareOp c_Value))
            (λ '(p, (o, v)), CondDeviceProperty p o v)) _ _).
  - intros; int_lia.
  - intros [p o v] rest [Hp Hv]. by rewrite build_enc.
Defined.

Definition c_Trigger : codec Trigger trigger_fits.
Proof.
  refine (c_tagged _
    (λ t, match t with DeviceChanged _ => 0 | Schedule _ => 1 | BoardEvent _ _ => 2 end)
    (λ t, match t with
          | DeviceChanged p => enc c_DeviceProperty p | Schedule n => enc c_u32 n
          | BoardEvent b n => enc (c_pair c_u32 c_u16) (b, n)
          end)
    (λ t, match t with
          | 0 => build c_DeviceProperty DeviceChanged | 1 => build c_u32 Schedule
          | _ => build (c_pair c_u32 c_u16) (λ '(b, n), BoardEvent b n)
          end) _ _).
  - intros []; int_lia.
  - intros [p|n|b n] rest Ht; [by rewrite build_enc..|]. by rewrite build_enc.
Defined.

Definition c_Action : codec Action action_fits.
Proof.
  refine (c_tagged _
    (λ a, match a with SetDevice _ _ _ => 0 | SendBoardCommand _ _ => 1 | PublishEvent _ => 2 end)
    (λ a, match a with
          | SetDevice d p v => enc (c_pair c_u32 (c_pair c_PropertyKind c_Value)) (d, (p, v))
          | SendBoardCommand b n => enc (c_pair c_u32 c_u16) (b, n)
          | PublishEvent n => enc c_u16 n
          end)
    (λ t, match t with
          | 0 => build (c_pair c_u32 (c_pair c_PropertyKind c_Value)) (λ '(d, (p, v)), SetDevice d p v)
          | 1 => build (c_pair c_u32 c_u16) (λ '(b, n), SendBoardCommand b n)
          | _ => build c_u16 PublishEvent
          end) _ _).
  - intros []; int_lia.
  - intros [d p v|b n|n] rest Ha; [|by rewrite build_enc|by rewrite build_enc].
    destruct Ha. by rewrite build_enc.
Defined.

Definition c_RuleScope : codec RuleScope scope_fits.
Proof.
  refine (c_tagged _ (λ s, match s with BoardLocal _ => 0 | HouseLevel => 1 end)
    (λ s, match s with BoardLocal b => enc c_u32 b | HouseLevel => [] end)
    (λ t, match t with 0 => build c_u32 BoardLocal | _ => λ bs, Some (HouseLevel, bs) end) _ _).
  - intros []; int_lia.
  - intros [b|] rest Hs; [by rewrite build_enc|done].
Defined.

Definition c_PortRef : codec PortRef (λ p, is_u8 (pr_controller_id p) ∧ is_u8 (pr_port p)).
Proof.
  refine (c_iso _ (c_pair c_u8 c_u8) (λ p, (pr_controller_id p, pr_port p))
    (λ '(k, n), {| pr_controller_id := k; pr_port := n |}) _ _); [done|by intros []].
Defined.

Definition c_BoardConfig : codec BoardConfig board_fits.
Proof.
  refine (c_iso _ (c_pair c_u32 c_BoardRole) (λ b, (bc_board_id b, bc_role b))
    (λ '(i, r), {| bc_board_id := i; bc_role := r |}) _ _); [done|by intros []].
Defined.

Definition c_ControllerConfig : codec ControllerConfig controller_fits.
Proof.
  refine (c_iso _ (c_pair c_u8 (c_pair c_u32 c_ControllerFamily))
    (λ k, (cc_controller_id k, (cc_owner_board_id k, cc_family k)))
    (λ '(i, (b, f)), {| cc_controller_id := i; cc_owner_board_id := b; cc_family := f |}) _ _);
    [by intros k []|by intros []].
Defined.

Definition c_DeviceConfig : codec DeviceConfig device_fits.
Proof.
  refine (c_iso _ (c_pair c_u32 (c_pair c_u32 (c_pair c_DeviceKind (c_opt c_PortRef))))
    (λ d, (dc_device_id d, (dc_owner_board_id d, (dc_kind d, dc_port d))))
    (λ '(i, (b, (k, p))), {| dc_device_id := i; dc_owner_board_id := b; dc_kind := k;
                             dc_port := p |}) _ _);
    [by intros d (? & ? & ?)|by intros []].
Defined.

Definition c_Dependency : codec Stm32DependencyConfig dependency_fits.
Proof.
  refine (c_iso _
    (c_pair c_u32 (c_pair c_DeviceProperty (c_pair c_DependencySourceCode
      (c_pair c_DeviceProperty (c_pair c_DependencyDestinationCode c_DependencyTagType)))))
    (λ d, (sd_owner_board_id d, (sd_source d, (sd_source_code d, (sd_destination d,
             (sd_destination_code d, sd_tag d))))))
    (λ '(b, (s, (sc, (d, (dc, t))))), {| sd_owner_board_id := b; sd_source := s;
       sd_source_code := sc; sd_destination := d; sd_destination_code := dc; sd_tag := t |}) _ _);
    [by intros d (? & ? & ?)|by intros []].
Defined.

Lemma small_32 : small 32.
Proof. vm_compute. discriminate. Qed.

Definition c_BrokerConfig : codec BrokerConfig broker_fits.
Proof.
  refine (c_iso _ (c_pair (c_vec 32 small_32 c_u8) c_bool)
    (λ b, (as_bytes (br_host_name b), br_tls_required b))
    (λ '(h, t), {| br_host_name := RefCodec.str_of_bytes h; br_tls_required := t |}) _ _).
  - intros b Hb. split; [|done]. split; simpl; [by rewrite length_as_bytes|apply as_bytes_u8].
  - intros [h t] _. simpl. by rewrite RefCodec.str_of_bytes_as_bytes.
Defined.

Definition c_NetworkConfig : codec NetworkConfig network_fits.
Proof.
  refine (c_iso _ (c_pair c_bool (c_opt (c_pair (c_pair (c_pair c_u8 c_u8) c_u8) c_u8)))
    (λ n, (nc_dhcp n, nc_static_ipv4 n))
    (λ '(d, a), {| nc_dhcp := d; nc_static_ipv4 := a |}) _ _); [|by intros []].
  intros [d [[[[a b] c] e]|]] Hn; simpl in *; (split; [done|]); [|done].
  destruct Hn as (? & ? & ? & ?). done.
Defined.

(** ** The configurations *)
Section configs.
Context (caps : Caps).

Record caps_small : Prop := {
  small_boards : small (MAX_BOARDS caps);
  small_controllers : small (MAX_CONTROLLERS caps);
  small_devices : small (MAX_DEVICES caps);
  small_dependencies : small (MAX_DEPENDENCIES caps);
  small_rules : small (MAX_RULES caps);
  small_actions : small (MAX_ACTIONS caps);
  small_steps : small (MAX_STEPS caps);
}.
Context (Hs : caps_small).

Definition c_actions : codec (list Action) (vec_fits (MAX_ACTIONS caps) action_fits) :=
  c_vec _ (small_actions Hs) c_Action.

Definition c_Step : codec Step (step_fits caps).
Proof.
  refine (c_iso _ (c_pair c_u32 (c_pair c_actions (c_opt c_Condition)))
    (λ s, (st_delay_ms s, (st_actions s, st_precondition s)))
    (λ '(d, (a, p)), {| st_delay_ms := d; st_actions := a; st_precondition := p |}) _ _);
    [by intros s (? & ? & ?)|by intros []].
Defined.

Definition c_steps : codec (list Step) (vec_fits (MAX_STEPS caps) (step_fits caps)) :=
  c_vec _ (small_steps Hs) c_Step.

Definition c_RuleBody : codec RuleBody (body_fits caps).
Proof.
  refine (c_tagged _ (λ b, match b with Act _ => 0 | Steps _ => 1 end)
    (λ b, match b with Act a => enc c_actions a | Steps s => enc c_steps s end)
    (λ t, match t with 0 => build c_actions Act | _ => build c_steps Steps end) _ _).
  - intros []; int_lia.
  - intros [] rest Hb; by rewrite build_enc.
Defined.

Definition c_RuleConfig : codec RuleConfig (rule_fits caps).
Proof.
  refine (c_iso _
    (c_pair c_u32 (c_pair c_RuleScope (c_pair c_bool (c_pair (c_opt c_Trigger)
      (c_pair (c_opt c_Condition) (c_pair c_RuleBody (c_pair c_u32 c_u16)))))))
    (λ r, (ru_rule_id r, (ru_scope r, (ru_enabled r, (ru_trigger r, (ru_condition r,
             (ru_body r, (ru_cooldown_ms r, ru_version r))))))))
    (λ '(i, (s, (e, (t, (c, (b, (m, v))))))), {| ru_rule_id := i; ru_scope := s;
       ru_enabled := e; ru_trigger := t; ru_condition := c; ru_body := b; ru_cooldown_ms := m;
       ru_version := v |}) _ _);
    [by intros r []|by intros []].
Defined.

Definition c_CanonicalConfig : codec CanonicalConfig (fits caps).
Proof.
  refine (c_iso _
    (c_pair c_u16 (c_pair c_u32 (c_pair c_u32
      (c_pair (c_vec _ (small_boards Hs) c_BoardConfig)
      (c_pair (c_vec _ (small_controllers Hs) c_ControllerConfig)
      (c_pair (c_vec _ (small_devices Hs) c_DeviceConfig)
      (c_pair (c_vec _ (small_dependencies Hs) c_Dependency)
      (c_pair (c_vec _ (small_rules Hs) c_RuleConfig)
      (c_pair c_BrokerConfig c_NetworkConfig)))))))))
    (λ c, (schema_version c, (config_version c, (house_id c, (boards c, (controllers c,
             (devices c, (dependencies c, (rules c, (broker c, network c))))))))))
    (λ '(s, (v, (h, (bs, (ks, (ds, (sds, (rs, (b, n))))))))), {| schema_version := s;
       config_version := v; house_id := h; boards := bs; controllers := ks; devices := ds;
       dependencies := sds; rules := rs; broker := b; network := n |}) _ _);
    [by intros c []|by intros []].
Defined.

Definition c_CompiledRule : codec CompiledRule (λ r, rule_fits caps (rule r)).
Proof. refine (c_iso _ c_RuleConfig rule Build_CompiledRule _ _); [done|by intros []]. Defined.

Definition c_TopologyEntry
  : codec TopologyEntry (λ e, is_u32 (te_device_id e) ∧ is_u32 (te_owner_board_id e)).
Proof.
  refine (c_iso _ (c_pair c_u32 c_u32) (λ e, (te_device_id e, te_owner_board_id e))
    (λ '(d, b), {| te_device_id := d; te_owner_board_id := b |}) _ _); [done|by intros []].
Defined.

Definition c_CompiledConfig : codec CompiledConfig (compiled_fits caps).
Proof.
  refine (c_iso _
    (c_pair c_u32
      (c_pair (c_pair c_BoardConfig (c_pair (c_vec _ (small_controllers Hs) c_ControllerConfig)
                                            (c_vec _ (small_devices Hs) c_DeviceConfig)))
      (c_pair (c_vec _ (small_dependencies Hs) c_Dependency)
      (c_pair (c_vec _ (small_rules Hs) c_CompiledRule)
              (c_vec _ (small_devices Hs) c_TopologyEntry)))))
    (λ o, (co_config_version o, ((li_board (co_local_inventory o),
             (li_controllers (co_local_inventory o), li_devices (co_local_inventory o))),
             (records (co_stm32_dependencies o), (co_rules o, entries (co_topology o))))))
    (λ '(v, ((b, (ks, ds)), (sds, (rs, es)))), {| co_config_version := v;
       co_local_inventory := {| li_board := b; li_controllers := ks; li_devices := ds |};
       co_stm32_dependencies := {| records := sds |}; co_rules := rs;
       co_topology := {| entries := es |} |}) _ _);
    [by intros o []|by intros [? [] [] ? []]].
Defined.
End configs.

(** ** The instances *)
#[global] Instance is_u8_dec x : Decision (is_u8 x).
Proof. unfold is_u8. apply _. Defined.

Definition postcard_of {A} {va : A → Prop} (c : codec A va) : Postcard A va.
Proof.
  refine {| to_slice a n := if decide (length (enc c a) ≤ n ∧ Forall is_u8 (enc c a))%nat
                            then Some (enc c a) else None;
            from_bytes bs := fst <$> dec c bs |}.
  - intros v n bs. case_decide as Hd; [|done]. by intros [= <-].
  - intros v n bs Hv. case_decide; [|done]. intros [= <-].
    rewrite <-(app_nil_r (enc c v)), (dec_enc c) by done. done.
Defined.

Lemma ex_caps_small : caps_small ex_caps.
Proof. split; vm_compute; discriminate. Qed.

#[global] Instance postcard_canonical : Postcard CanonicalConfig (fits ex_caps) :=
  postcard_of (c_CanonicalConfig ex_caps ex_caps_small).
#[global] Instance postcard_compiled : Postcard CompiledConfig (compiled_fits ex_caps) :=
  postcard_of (c_CompiledConfig ex_caps ex_caps_small).
End PostcardRef.
