(* ===== verification/Serialization.v ===== *)
(** * Serialization: the configuration envelope
    ([smartbox-config/src/serialization.rs])

    A blob is a twenty-byte header (magic, format, kind, schema and
    configuration version, payload length, checksum) followed by the postcard
    payload.  The theorems: what was encoded decodes to what went in, and only
    as its own kind; an input is accepted only if it is, byte for byte, the
    encoding of what is returned. *)

From S2P Require Import Prelude External Reference Schema Compiler Crc PostcardRef.

Module Serialization.
Import Crc.

Definition MAGIC : list Z := [83; 66; 67; 70].  (* b"SBCF" *)
Definition HEADER_LEN : nat := 20.
Definition FORMAT_VERSION : Z := 1.

Inductive BlobKind := CanonicalBlob | CompiledArtifacts.
#[global] Instance BlobKind_eq_dec : EqDecision BlobKind.
Proof. solve_decision. Defined.

(** [kind as u8] and its inverse. *)
Definition kind_u8 (k : BlobKind) : Z :=
  match k with CanonicalBlob => 1 | CompiledArtifacts => 2 end.

Definition from_u8 (value : Z) : option BlobKind :=
  if decide (value = 1) then Some CanonicalBlob
  else if decide (value = 2) then Some CompiledArtifacts
  else None.

Record DecodedBlob (T : Type) := {
  db_kind : BlobKind;
  db_schema_version : Z;
  db_config_version : Z;
  db_value : T;
}.
Arguments db_kind {T} _.
Arguments db_schema_version {T} _.
Arguments db_config_version {T} _.
Arguments db_value {T} _.

Inductive CodecError :=
| BufferTooSmall
| BadMagic
| UnsupportedFormatVersion (v : Z)
| UnexpectedKind (expected found : BlobKind)
| UnknownKind (k : Z)
| LengthMismatch
| CrcMismatch (expected actual : Z)
| PostcardSerialize
| PostcardDeserialize.

(** ** Big-endian integers: [to_be_bytes] and [from_be_bytes] *)
Fixpoint to_be (n : nat) (x : Z) : list Z :=
  match n with O => [] | S n => (x / 256 ^ Z.of_nat n) mod 256 :: to_be n x end.

Definition from_be (bytes : list Z) : Z := foldl (λ a b, a * 256 + b) 0 bytes.

(** [input[i]]; every use below is guarded by the length check. *)
Definition byte_at (input : list Z) (i : nat) : Z := default 0 (input !! i).

Definition slice (input : list Z) (a b : nat) : list Z := take (b - a) (drop a input).

Section codec.
Context (USIZE_MAX : Z) `{Postcard T valid}.

(** The bytes [encode_enveloped] leaves at the front of [out]. *)
Definition envelope (kind : BlobKind) (schema_version config_version : Z) (payload : list Z)
  : list Z :=
  MAGIC ++ [FORMAT_VERSION; kind_u8 kind] ++ to_be 2 schema_version ++ to_be 4 config_version ++
  to_be 4 (Z.of_nat (length payload) mod (U32_MAX + 1)) ++ to_be 4 (crc32 payload) ++ payload.

(** [out] is given by its length: everything returned has been written. *)
Definition encode_enveloped (kind : BlobKind) (schema_version config_version : Z) (value : T)
    (out_len : nat) : result CodecError (list Z) :=
  if decide (out_len < HEADER_LEN)%nat then Err BufferTooSmall
  else
    payload ← ok_or PostcardSerialize (to_slice value (out_len - HEADER_LEN));
    Ok (envelope kind schema_version config_version payload).

Definition decode_enveloped (expected_kind : BlobKind) (input : list Z)
  : result CodecError (DecodedBlob T) :=
  if decide (length input < HEADER_LEN)%nat then Err BufferTooSmall
  else if decide (slice input 0 4 ≠ MAGIC) then Err BadMagic
  else if decide (byte_at input 4 ≠ FORMAT_VERSION)
       then Err (UnsupportedFormatVersion (byte_at input 4))
  else
    kind ← ok_or (UnknownKind (byte_at input 5)) (from_u8 (byte_at input 5));
    if decide (kind ≠ expected_kind) then Err (UnexpectedKind expected_kind kind)
    else
      let schema_version := from_be [byte_at input 6; byte_at input 7] in
      let config_version :=
        from_be [byte_at input 8; byte_at input 9; byte_at input 10; byte_at input 11] in
      let payload_len :=
        from_be [byte_at input 12; byte_at input 13; byte_at input 14; byte_at input 15] in
      let expected_crc :=
        from_be [byte_at input 16; byte_at input 17; byte_at input 18; byte_at input 19] in
      total_len ← ok_or LengthMismatch (checked_add USIZE_MAX (Z.of_nat HEADER_LEN) payload_len);
      if decide (Z.of_nat (length input) ≠ total_len) then Err LengthMismatch
      else
        let payload := slice input HEADER_LEN (Z.to_nat total_len) in
        let actual_crc := crc32 payload in
        if decide (actual_crc ≠ expected_crc) then Err (CrcMismatch expected_crc actual_crc)
        else
          value ← ok_or PostcardDeserialize (from_bytes payload);
          Ok {| db_kind := kind; db_schema_version := schema_version;
                db_config_version := config_version; db_value := value |}.
End codec.

(** ** Big-endian round trips *)
Lemma foldl_to_be n x a :
  foldl (λ a b, a * 256 + b) a (to_be n x) = a * 256 ^ Z.of_nat n + x mod 256 ^ Z.of_nat n.
Proof.
  revert a. induction n as [|n IH]; intros a.
  - simpl. rewrite Z.mod_1_r. lia.
  - cbn [to_be foldl]. rewrite IH, Nat2Z.inj_succ, Z.pow_succ_r by lia.
    pose proof (Z.pow_pos_nonneg 256 (Z.of_nat n) ltac:(lia) ltac:(lia)) as Hp.
    rewrite (Z.mul_comm 256), Z.rem_mul_r by lia. lia.
Qed.

Lemma from_to_be n x : 0 ≤ x < 256 ^ Z.of_nat n → from_be (to_be n x) = x.
Proof. intros. unfold from_be. rewrite foldl_to_be, Z.mod_small by done. lia. Qed.

Lemma length_to_be n x : length (to_be n x) = n.
Proof. induction n; simpl; congruence. Qed.

Lemma to_be_u8 n x : Forall is_u8 (to_be n x).
Proof.
  induction n; simpl; constructor; [|done]. pose proof (Z.mod_pos_bound (x / 256 ^ Z.of_nat n) 256).
  int_lia.
Qed.

Lemma from_be_app bs b : from_be (bs ++ [b]) = from_be bs * 256 + b.
Proof. unfold from_be. by rewrite foldl_app. Qed.

Lemma from_be_bound bs : Forall is_u8 bs → 0 ≤ from_be bs < 256 ^ Z.of_nat (length bs).
Proof.
  induction bs as [|b bs IH] using rev_ind; [by split|]. intros [Hbs Hb]%Forall_app.
  rewrite Forall_singleton in Hb. rewrite from_be_app, length_app, Nat2Z.inj_add.
  rewrite Z.pow_add_r by lia. change (256 ^ Z.of_nat (length [b])) with 256.
  specialize (IH Hbs). int_lia.
Qed.

Lemma to_be_app n x b :
  0 ≤ x → is_u8 b → to_be (S n) (x * 256 + b) = to_be n x ++ [b].
Proof.
  intros Hx Hb. induction n as [|n IH].
  - simpl. f_equal. rewrite Z.div_1_r. rewrite Z.add_comm, Z.mod_add by lia.
    apply Z.mod_small. int_lia.
  - cbn [to_be] in *. rewrite IH. simpl. f_equal. f_equal.
    rewrite Nat2Z.inj_succ, Z.pow_succ_r, <-Z.div_div by lia. f_equal.
    rewrite Z.div_add_l, (Z.div_small b) by int_lia. lia.
Qed.

Lemma to_from_be bs : Forall is_u8 bs → to_be (length bs) (from_be bs) = bs.
Proof.
  induction bs as [|b bs IH] using rev_ind; [done|]. intros [Hbs Hb]%Forall_app.
  rewrite Forall_singleton in Hb. rewrite from_be_app, length_app, Nat.add_comm.
  pose proof (from_be_bound bs Hbs). cbn [length Nat.add]. rewrite to_be_app by (done || lia).
  by rewrite IH.
Qed.

Lemma from_kind_u8 k : from_u8 (kind_u8 k) = Some k.
Proof. by destruct k. Qed.

Lemma from_u8_Some x k : from_u8 x = Some k → x = kind_u8 k.
Proof. unfold from_u8. repeat case_decide; intros [= <-]; done. Qed.

Lemma crc32_word bs : Forall is_u8 bs → 0 ≤ crc32 bs < 256 ^ Z.of_nat 4.
Proof.
  intros Hbs. assert (is_word 0xFFFFFFFF) as Hw by (split; [done|reflexivity]).
  apply (lxor_bound 32); [done|by apply advance_word|]. split; [done|reflexivity].
Qed.

(** The header fields of an input that is long enough. *)
Lemma header_split input :
  (HEADER_LEN ≤ length input)%nat →
  input = slice input 0 4 ++ [byte_at input 4; byte_at input 5] ++
    [byte_at input 6; byte_at input 7] ++
    [byte_at input 8; byte_at input 9; byte_at input 10; byte_at input 11] ++
    [byte_at input 12; byte_at input 13; byte_at input 14; byte_at input 15] ++
    [byte_at input 16; byte_at input 17; byte_at input 18; byte_at input 19] ++
    drop HEADER_LEN input.
Proof.
  intros Hlen. unfold HEADER_LEN in *.
  do 20 (destruct input as [|? input]; [simpl in Hlen; lia|]). reflexivity.
Qed.

Section codec_lemmas.
Context (USIZE_MAX : Z) `{Postcard T valid}.
Local Abbreviation decode := (decode_enveloped USIZE_MAX (T:=T) (valid:=valid)).

Lemma length_envelope k s v payload : length (envelope k s v payload) = (20 + length payload)%nat.
Proof. unfold envelope. rewrite !length_app, !length_to_be. simpl. lia. Qed.

Lemma envelope_u8 k s v payload :
  Forall is_u8 payload → Forall is_u8 (envelope k s v payload).
Proof.
  intros Hp. unfold envelope. rewrite !Forall_app. repeat split; try apply to_be_u8; try done.
  - repeat constructor; vm_compute; discriminate.
  - repeat constructor; destruct k; vm_compute; discriminate.
Qed.

Lemma decode_envelope k k' s v payload :
  is_u16 s → is_u32 v → Forall is_u8 payload →
  20 + Z.of_nat (length payload) ≤ Z.min U32_MAX USIZE_MAX →
  decode k' (envelope k s v payload) =
    if decide (k = k') then
      match from_bytes payload with
      | Some x => Ok {| db_kind := k; db_schema_version := s; db_config_version := v; db_value := x |}
      | None => Err PostcardDeserialize
      end
    else Err (UnexpectedKind k' k).
Proof.
  intros Hs Hv Hp Hlen. set (e := envelope k s v payload).
  assert (length e = (20 + length payload)%nat) as He by apply length_envelope.
  assert (slice e 0 4 = MAGIC ∧ byte_at e 4 = FORMAT_VERSION ∧ byte_at e 5 = kind_u8 k ∧
    drop HEADER_LEN e = payload) as (Hm & Hf & Hk & Hdrop) by done.
  assert ([byte_at e 6; byte_at e 7] = to_be 2 s ∧
    [byte_at e 8; byte_at e 9; byte_at e 10; byte_at e 11] = to_be 4 v ∧
    [byte_at e 12; byte_at e 13; byte_at e 14; byte_at e 15] =
      to_be 4 (Z.of_nat (length payload) mod (U32_MAX + 1)) ∧
    [byte_at e 16; byte_at e 17; byte_at e 18; byte_at e 19] = to_be 4 (crc32 payload))
    as (Hfs & Hfv & Hfl & Hfc) by done.
  clearbody e. unfold decode_enveloped. rewrite Hm, Hf, Hk, Hfs, Hfv, Hfl, Hfc, from_kind_u8.
  rewrite !decide_False by (unfold HEADER_LEN; auto with lia). cbn [ok_or mbind result_bind].
  destruct (decide (k = k')) as [<-|Hne]; [|by rewrite decide_True by congruence].
  rewrite (decide_False (P := k ≠ k)) by auto.
  assert (checked_add USIZE_MAX (Z.of_nat HEADER_LEN) (Z.of_nat (length payload)) =
    Some (Z.of_nat (length e))) as Hadd.
  { apply checked_add_Some. unfold HEADER_LEN. lia. }
  assert (slice e HEADER_LEN (length e) = payload) as Hsl.
  { unfold slice. rewrite Hdrop. apply take_ge. unfold HEADER_LEN. lia. }
  rewrite (Z.mod_small (Z.of_nat _)) by int_lia.
  rewrite !from_to_be by (first [by apply crc32_word | int_lia]).
  rewrite Hadd. cbn [ok_or mbind result_bind].
  rewrite decide_False by auto. rewrite Nat2Z.id, Hsl, decide_False by auto.
  by destruct (from_bytes payload).
Qed.

Lemma decode_inv k input blob :
  Forall is_u8 input → Z.of_nat (length input) ≤ U32_MAX → decode k input = Ok blob →
  ∃ payload, input = envelope k (db_schema_version blob) (db_config_version blob) payload ∧
    from_bytes payload = Some (db_value blob) ∧ db_kind blob = k ∧
    is_u16 (db_schema_version blob) ∧ is_u32 (db_config_version blob).
Proof.
  intros Hin Hmax Hd. unfold decode_enveloped in Hd.
  destruct (decide (length input < HEADER_LEN)%nat) as [|Hlen]; [done|].
  pose proof (header_split input ltac:(lia)) as Hsplit.
  destruct (decide (slice input 0 4 ≠ MAGIC)) as [|Hm%dec_stable]; [done|].
  destruct (decide (byte_at input 4 ≠ _)) as [|Hf%dec_stable]; [done|].
  destruct (from_u8 (byte_at input 5)) as [k'|] eqn:Hk; simpl in Hd; [|done].
  apply from_u8_Some in Hk. case_decide as Hkk; [done|]. rewrite Hkk in Hk, Hd.
  set (fs := [byte_at input 6; byte_at input 7]) in *.
  set (fv := [byte_at input 8; _; _; _]) in *. set (fl := [byte_at input 12; _; _; _]) in *.
  set (fc := [byte_at input 16; _; _; _]) in *. rewrite Hm, Hf, Hk in Hsplit.
  pose proof Hin as Hall. rewrite Hsplit, !Forall_app in Hall.
  destruct Hall as (_ & _ & Hfs & Hfv & Hfl & Hfc & Hp).
  destruct (checked_add _ _ _) as [total|] eqn:Hadd; simpl in Hd; [|done].
  apply checked_add_Some in Hadd as [-> _]. case_decide as Htot; [done|].
  pose proof (from_be_bound fs Hfs). pose proof (from_be_bound fv Hfv).
  pose proof (from_be_bound fl Hfl) as Hbl. change (length fl) with 4%nat in Hbl.
  assert (slice input HEADER_LEN (Z.to_nat (Z.of_nat HEADER_LEN + from_be fl)) =
    drop HEADER_LEN input) as Hsl.
  { unfold slice. rewrite <-Htot, Nat2Z.id. apply take_ge. by rewrite length_drop. }
  rewrite Hsl in Hd. case_decide as Hcrc; [done|].
  destruct (from_bytes _) as [x|] eqn:Hx; simpl in Hd; [|done]. injection Hd as <-. simpl.
  exists (drop HEADER_LEN input). split; [|by repeat split; try (cbn in *; int_lia)].
  unfold envelope. rewrite Hcrc. assert (Z.of_nat (length (drop HEADER_LEN input)) = from_be fl)
    as -> by (rewrite length_drop; lia).
  rewrite Z.mod_small by int_lia. rewrite (to_from_be fs Hfs : to_be 2 _ = _).
  rewrite (to_from_be fv Hfv : to_be 4 _ = _), (to_from_be fl Hfl : to_be 4 _ = _),
    (to_from_be fc Hfc : to_be 4 _ = _). exact Hsplit.
Qed.

Lemma encode_inv k s v (x : T) out_len bytes :
  encode_enveloped k s v x out_len = Ok bytes →
  ∃ payload, to_slice x (out_len - HEADER_LEN) = Some payload ∧ bytes = envelope k s v payload ∧
    Forall is_u8 payload ∧ (HEADER_LEN + length payload ≤ out_len)%nat.
Proof.
  unfold encode_enveloped. case_decide as Hlen; [done|].
  destruct (to_slice x _) as [payload|] eqn:Hp; simpl; [|done]. intros [= <-].
  destruct (to_slice_bytes _ _ _ Hp) as [Hfit Hu8]. exists payload. unfold HEADER_LEN in *. repeat split; try done. lia.
Qed.

Lemma encode_decode k s v (x : T) out_len bytes :
  valid x → is_u16 s → is_u32 v → Z.of_nat out_len ≤ Z.min U32_MAX USIZE_MAX →
  encode_enveloped k s v x out_len = Ok bytes →
  (length bytes ≤ out_len)%nat ∧
  decode k bytes =
    Ok {| db_kind := k; db_schema_version := s; db_config_version := v; db_value := x |}.
Proof.
  intros Hx Hs Hv Hmax (payload & Hp & -> & Hu8 & Hlen)%encode_inv.
  unfold HEADER_LEN in *. split; [rewrite length_envelope; lia|].
  rewrite decode_envelope, decide_True by (done || lia).
  by rewrite (from_bytes_to_slice _ _ _ Hx Hp).
Qed.

(** C32: the envelope round-trips.  Whatever [encode_enveloped] wrote fits the
    buffer and decodes to the same kind, versions and value, and decoding it
    as any other kind is refused. *)
Theorem envelope_round_trip (k : BlobKind) (s v : Z) (x : T) (out_len : nat) (bytes : list Z) :
  valid x → is_u16 s → is_u32 v → Z.of_nat out_len ≤ Z.min U32_MAX USIZE_MAX →
  encode_enveloped k s v x out_len = Ok bytes →
  (length bytes ≤ out_len)%nat ∧
  decode k bytes =
    Ok {| db_kind := k; db_schema_version := s; db_config_version := v; db_value := x |} ∧
  ∀ k', k' ≠ k → decode k' bytes = Err (UnexpectedKind k' k).
Proof.
  intros Hx Hs Hv Hmax He. destruct (encode_decode k s v x out_len bytes) as [Hl Hd]; try done.
  split; [done|]. split; [done|]. intros k' Hk'.
  apply encode_inv in He as (payload & Hp & -> & Hu8 & Hlen). unfold HEADER_LEN in *.
  rewrite decode_envelope by (done || lia). by rewrite decide_False by congruence.
Qed.

(** Only encodings are accepted.  If an input decodes, it is byte for byte
    the envelope of the returned kind, versions and some payload that
    deserialises to the returned value: no header field is ignored, nothing
    follows the payload. *)
Lemma decode_accepts_only_envelopes (k : BlobKind) (input : list Z) (blob : DecodedBlob T) :
  Forall is_u8 input → Z.of_nat (length input) ≤ U32_MAX → decode k input = Ok blob →
  ∃ payload,
    input = envelope (db_kind blob) (db_schema_version blob) (db_config_version blob) payload ∧
    from_bytes payload = Some (db_value blob) ∧ db_kind blob = k.
Proof.
  intros Hin Hmax Hd. destruct (decode_inv k input blob Hin Hmax Hd) as (p & He & Hf & Hk & _).
  exists p. by rewrite Hk.
Qed.
End codec_lemmas.

(** The example house, in its envelope. *)
Definition ex_payload : list Z :=
  default [] (to_slice (valid := Schema.fits Compiler.ex_caps) Compiler.ex_house 300).
Definition ex_blob : list Z := envelope CanonicalBlob 1 5 ex_payload.

Lemma envelope_round_trip_witness :
  (length ex_blob ≤ 320)%nat ∧
  decode_enveloped (valid := Schema.fits Compiler.ex_caps) U32_MAX CanonicalBlob ex_blob =
    Ok {| db_kind := CanonicalBlob; db_schema_version := 1; db_config_version := 5;
          db_value := Compiler.ex_house |} ∧
  ∀ k', k' ≠ CanonicalBlob →
    decode_enveloped (valid := Schema.fits Compiler.ex_caps) U32_MAX k' ex_blob =
      Err (UnexpectedKind k' CanonicalBlob).
Proof.
  apply (envelope_round_trip U32_MAX CanonicalBlob 1 5 Compiler.ex_house 320 ex_blob).
  - exact Compiler.ex_house_fits.
  - split; vm_compute; discriminate.
  - split; vm_compute; discriminate.
  - vm_compute. discriminate.
  - vm_compute. reflexivity.
Defined.

Lemma decode_accepts_only_envelopes_witness :
  ∃ payload, ex_blob = envelope CanonicalBlob 1 5 payload ∧
    from_bytes (valid := Schema.fits Compiler.ex_caps) payload = Some Compiler.ex_house ∧
    CanonicalBlob = CanonicalBlob.
Proof.
  apply (decode_accepts_only_envelopes U32_MAX (valid := Schema.fits Compiler.ex_caps)
    CanonicalBlob ex_blob {| db_kind := CanonicalBlob; db_schema_version := 1;
      db_config_version := 5; db_value := Compiler.ex_house |}).
  - apply (bool_decide_unpack _). vm_compute. exact I.
  - vm_compute. discriminate.
  - vm_compute. reflexivity.
Defined.
End Serialization.
