(* ===== verification/Storage.v ===== *)
(** * Storage: slots and blobs ([smartbox-config/src/active_slot.rs],
    [storage.rs])

    The trait [ConfigStore] as a class with the contract a backend has to
    meet, the in-memory backend of the source as an instance, the functions
    that move blobs through a store, and the active-slot state machine.  The
    theorem about the latter: whatever operations run, a candidate is always
    newer than the active configuration and the active version never goes
    back. *)

From S2P Require Import Prelude External Serialization.

Module Storage.
Import Serialization.

Definition ConfigSlotId := Z.

(** ** The storage trait

    [&self] methods read the state, [&mut self] methods thread it.  A scratch
    buffer is given by its length.  The laws are what the callers rely on:
    blobs and the pointer are independent cells, and a write that reports
    success is read back. *)
Class ConfigStore (S E : Type) := {
  cs_active_slot : S → outcome (result E ConfigSlotId);
  cs_write_active_slot : ConfigSlotId → prog S E unit;
  cs_read_blob : ConfigSlotId → BlobKind → nat → S → outcome (result E (list Z));
  cs_write_blob : ConfigSlotId → BlobKind → list Z → prog S E unit;
  cs_discard_slot : ConfigSlotId → prog S E unit;
  write_blob_active slot k bs s :
    cs_active_slot (cs_write_blob slot k bs s).2 = cs_active_slot s;
  discard_active slot s : cs_active_slot (cs_discard_slot slot s).2 = cs_active_slot s;
  write_blob_read slot k bs s s' n :
    cs_write_blob slot k bs s = (Done (Ok tt), s') → (length bs ≤ n)%nat →
    cs_read_blob slot k n s' = Done (Ok bs);
  write_blob_frame slot k bs s slot' k' n :
    (slot', k') ≠ (slot, k) →
    cs_read_blob slot' k' n (cs_write_blob slot k bs s).2 = cs_read_blob slot' k' n s;
  discard_frame slot s slot' k n :
    slot' ≠ slot → cs_read_blob slot' k n (cs_discard_slot slot s).2 = cs_read_blob slot' k n s;
  write_active_read slot s s' :
    cs_write_active_slot slot s = (Done (Ok tt), s') → cs_active_slot s' = Done (Ok slot);
  write_active_frame slot s slot' k n :
    cs_read_blob slot' k n (cs_write_active_slot slot s).2 = cs_read_blob slot' k n s;
}.

Inductive ConfigStoreError (E : Type) := StoreErr (e : E) | CodecErr (c : CodecError).
Arguments StoreErr {E} e.
Arguments CodecErr {E} c.

Section ops.
Context (USIZE_MAX : Z) `{ConfigStore K E} `{Postcard T valid}.

Definition load_active_blob (scratch : nat) (expected_kind : BlobKind) (store : K)
  : outcome (result (ConfigStoreError E) (DecodedBlob T)) :=
  match cs_active_slot store with
  | Done (Ok slot) =>
      match cs_read_blob slot expected_kind scratch store with
      | Done (Ok bytes) => Done (map_err CodecErr (decode_enveloped USIZE_MAX expected_kind bytes))
      | Done (Err e) => Done (Err (StoreErr e))
      | Pending => Pending
      | Panic => Panic
      end
  | Done (Err e) => Done (Err (StoreErr e))
  | Pending => Pending
  | Panic => Panic
  end.

Definition prepare_candidate_slot (slot : ConfigSlotId) (kind : BlobKind)
    (schema_version config_version : Z) (value : T) (scratch : nat)
  : prog K (ConfigStoreError E) unit :=
  match encode_enveloped kind schema_version config_version value scratch with
  | Err e => io_fail (CodecErr e)
  | Ok encoded => io_map_err StoreErr (cs_write_blob slot kind encoded)
  end.

Definition commit_candidate_slot (slot : ConfigSlotId) : prog K (ConfigStoreError E) unit :=
  io_map_err StoreErr (cs_write_active_slot slot).
End ops.

(** ** [MockStore]: two slots in memory *)
Record MockStore := {
  active : Z;
  slot_1_canonical : list Z;
  slot_1_compiled : list Z;
  slot_2_canonical : list Z;
  slot_2_compiled : list Z;
  fail_write_kind : option BlobKind;
  discard_count : nat;
  active_write_count : nat;
}.

Definition mock_default : MockStore := {|
  active := 0; slot_1_canonical := []; slot_1_compiled := []; slot_2_canonical := [];
  slot_2_compiled := []; fail_write_kind := None; discard_count := 0; active_write_count := 0 |}.

(** [blob]: a slot that is not 1 or 2 panics. *)
Definition blob (s : MockStore) (slot : ConfigSlotId) (k : BlobKind) : option (list Z) :=
  match slot, k with
  | 1, CanonicalBlob => Some (slot_1_canonical s)
  | 1, CompiledArtifacts => Some (slot_1_compiled s)
  | 2, CanonicalBlob => Some (slot_2_canonical s)
  | 2, CompiledArtifacts => Some (slot_2_compiled s)
  | _, _ => None
  end.

(** [*blob_mut(slot, kind) = bytes] *)
Definition set_blob (s : MockStore) (slot : ConfigSlotId) (k : BlobKind) (bytes : list Z)
  : MockStore :=
  let pick slot' k' old := if decide (slot = slot' ∧ k = k') then bytes else old in
  {| active := active s;
     slot_1_canonical := pick 1 CanonicalBlob (slot_1_canonical s);
     slot_1_compiled := pick 1 CompiledArtifacts (slot_1_compiled s);
     slot_2_canonical := pick 2 CanonicalBlob (slot_2_canonical s);
     slot_2_compiled := pick 2 CompiledArtifacts (slot_2_compiled s);
     fail_write_kind := fail_write_kind s; discard_count := discard_count s;
     active_write_count := active_write_count s |}.

Definition mock_active_slot (s : MockStore) : outcome (result unit ConfigSlotId) :=
  Done (Ok (active s)).

Definition mock_write_active_slot (slot : ConfigSlotId) : prog MockStore unit unit := λ s,
  (Done (Ok tt),
   {| active := slot; slot_1_canonical := slot_1_canonical s;
      slot_1_compiled := slot_1_compiled s; slot_2_canonical := slot_2_canonical s;
      slot_2_compiled := slot_2_compiled s; fail_write_kind := fail_write_kind s;
      discard_count := discard_count s; active_write_count := S (active_write_count s) |}).

(** [out[..stored.len()]] panics on a scratch buffer that is too short. *)
Definition mock_read_blob (slot : ConfigSlotId) (k : BlobKind) (out_len : nat) (s : MockStore)
  : outcome (result unit (list Z)) :=
  match blob s slot k with
  | None => Panic
  | Some stored => if decide (length stored ≤ out_len)%nat then Done (Ok stored) else Panic
  end.

Definition mock_write_blob (slot : ConfigSlotId) (k : BlobKind) (bytes : list Z)
  : prog MockStore unit unit := λ s,
  if decide (fail_write_kind s = Some k) then (Done (Err tt), s)
  else match blob s slot k with
       | None => (Panic, s)
       | Some _ =>
           if decide (length bytes ≤ 1024)%nat then (Done (Ok tt), set_blob s slot k bytes)
           else (Done (Err tt), set_blob s slot k [])
       end.

Definition mock_discard_slot (slot : ConfigSlotId) : prog MockStore unit unit := λ s,
  let s := {| active := active s; slot_1_canonical := slot_1_canonical s;
              slot_1_compiled := slot_1_compiled s; slot_2_canonical := slot_2_canonical s;
              slot_2_compiled := slot_2_compiled s; fail_write_kind := fail_write_kind s;
              discard_count := S (discard_count s);
              active_write_count := active_write_count s |} in
  match blob s slot CanonicalBlob with
  | None => (Panic, s)
  | Some _ => (Done (Ok tt), set_blob (set_blob s slot CanonicalBlob []) slot CompiledArtifacts [])
  end.

Lemma blob_set_blob s slot k bs slot' k' :
  blob (set_blob s slot k bs) slot' k' =
    if decide (slot = slot' ∧ k = k') then (λ _, bs) <$> blob s slot k else blob s slot' k'.
Proof.
  destruct (decide (slot = slot' ∧ k = k')) as [[-> ->]|Hne].
  - unfold blob, set_blob. destruct slot' as [|[[]|[]|]|], k'; simpl; try done;
      rewrite decide_True; done.
  - unfold blob, set_blob. destruct slot' as [|[[]|[]|]|], k'; simpl; try done;
      by rewrite decide_False.
Qed.

#[global] Instance mock_store : ConfigStore MockStore unit.
Proof.
  refine {| cs_active_slot := mock_active_slot; cs_write_active_slot := mock_write_active_slot;
            cs_read_blob := mock_read_blob; cs_write_blob := mock_write_blob;
            cs_discard_slot := mock_discard_slot |}.
  - intros slot k bs s. unfold mock_write_blob. by case_goal.
  - intros slot s. unfold mock_discard_slot. by case_goal.
  - intros slot k bs s s' n. unfold mock_write_blob, mock_read_blob. case_decide; [done|].
    destruct (blob s slot k) as [old|] eqn:Hb; [|done]. case_decide; [|done]. intros [= <-] Hlen.
    rewrite blob_set_blob, decide_True, Hb by done. simpl. by rewrite decide_True.
  - intros slot k bs s slot' k' n Hne. unfold mock_write_blob, mock_read_blob.
    case_decide; [done|]. destruct (blob s slot k); [|done].
    destruct (decide (length bs ≤ 1024)%nat); cbn [snd];
      rewrite blob_set_blob, decide_False; naive_solver.
  - intros slot s slot' k n Hne. unfold mock_discard_slot, mock_read_blob.
    destruct (blob _ slot CanonicalBlob); [|done]. cbn [snd].
    rewrite !blob_set_blob, !decide_False by naive_solver. done.
  - intros slot s s' [= <-]. done.
  - done.
Defined.

(** ** The active-slot state machine *)
Inductive ActiveSlotError :=
| InvalidSlot | CandidateAlreadyOpen | NoCandidateOpen | CandidateVersionNotNewer.

Record ActiveSlotState := {
  active_slot : ConfigSlotId;
  active_config_version : Z;
  candidate : option (ConfigSlotId * Z);
}.

Definition slot_new (slot : ConfigSlotId) (version : Z) : ActiveSlotState :=
  {| active_slot := slot; active_config_version := version; candidate := None |}.

Definition begin_candidate (s : ActiveSlotState) (slot : ConfigSlotId) (config_version : Z)
  : result ActiveSlotError unit * ActiveSlotState :=
  if decide (slot = 0) then (Err InvalidSlot, s)
  else match candidate s with
       | Some _ => (Err CandidateAlreadyOpen, s)
       | None =>
           if decide (config_version ≤ active_config_version s)
           then (Err CandidateVersionNotNewer, s)
           else (Ok tt, {| active_slot := active_slot s;
                           active_config_version := active_config_version s;
                           candidate := Some (slot, config_version) |})
       end.

Definition commit_candidate (s : ActiveSlotState)
  : result ActiveSlotError ConfigSlotId * ActiveSlotState :=
  match candidate s with
  | None => (Err NoCandidateOpen, s)
  | Some (slot, version) =>
      (Ok slot, {| active_slot := slot; active_config_version := version; candidate := None |})
  end.

Definition discard_candidate (s : ActiveSlotState) : result ActiveSlotError unit * ActiveSlotState :=
  match candidate s with
  | None => (Err NoCandidateOpen, s)
  | Some _ => (Ok tt, slot_new (active_slot s) (active_config_version s))
  end.

(** A run of the machine. *)
Inductive slot_op := Begin (slot : ConfigSlotId) (version : Z) | Commit | Discard.

Definition slot_step (s : ActiveSlotState) (op : slot_op) : ActiveSlotState :=
  match op with
  | Begin slot version => (begin_candidate s slot version).2
  | Commit => (commit_candidate s).2
  | Discard => (discard_candidate s).2
  end.

Definition slot_run (s : ActiveSlotState) (ops : list slot_op) : ActiveSlotState :=
  foldl slot_step s ops.

Definition slot_inv (s : ActiveSlotState) : Prop :=
  ∀ slot v, candidate s = Some (slot, v) → slot ≠ 0 ∧ active_config_version s < v.

Lemma slot_step_inv s op :
  slot_inv s →
  slot_inv (slot_step s op) ∧
  (slot_step s op = s ∨ active_config_version s < active_config_version (slot_step s op) ∨
   (active_slot (slot_step s op) = active_slot s ∧
    active_config_version (slot_step s op) = active_config_version s)).
Proof.
  unfold slot_inv. destruct s as [a v [[c w]|]], op as [slot n| |]; simpl; intros Hi;
    unfold begin_candidate, commit_candidate, discard_candidate; simpl;
    repeat case_decide; simpl; naive_solver lia.
Qed.

(** The active version never goes back.  Over any sequence of operations
    from a fresh state, an open candidate names a real slot and is strictly
    newer than the active configuration, and the active slot changes only by a
    commit that makes the active version strictly larger. *)
Lemma active_version_monotone (slot : ConfigSlotId) (version : Z) (ops more : list slot_op) :
  let s := slot_run (slot_new slot version) ops in
  let s' := slot_run s more in
  slot_inv s ∧ active_config_version s ≤ active_config_version s' ∧
  (active_config_version s' = active_config_version s → active_slot s' = active_slot s).
Proof.
  intros s s'. assert (slot_inv s) as Hs.
  { assert (slot_inv (slot_new slot version)) as Hn by done. revert Hn. unfold s.
    generalize (slot_new slot version). induction ops as [|op ops IH]; intros s0 H0; [done|].
    by apply IH, slot_step_inv. }
  split; [done|]. clearbody s. unfold s'. clear s'. revert s Hs.
  induction more as [|op more IH]; intros s Hs; simpl; [naive_solver lia|].
  destruct (slot_step_inv s op Hs) as [Hi Hstep]. specialize (IH _ Hi).
  unfold slot_run in *. simpl.
  destruct Hstep as [Heq|Hstep]; [by rewrite Heq in *|]. naive_solver lia.
Qed.
End Storage.
