(* ===== verification/ConfigManager.v ===== *)
(** * ConfigManager: preparing, activating and booting a configuration
    ([smartbox-config/src/pipeline.rs], [manager.rs])

    The update pipeline over any [ConfigStore] and any postcard codec.  The
    theorems: preparing a candidate never moves the active pointer and never
    touches another slot, whatever fails; a prepared and activated update
    boots into exactly the compiled configuration of the board; a damaged
    blob boots into safe mode, never into another configuration. *)

From S2P Require Import Prelude External Reference Schema Compiler Crc Serialization PostcardRef.
From S2P Require Import Storage.

Module Manager.
Import Schema Compiler Crc Serialization Storage.

Record PreparedCandidate := {
  pc_slot : ConfigSlotId;
  pc_schema_version : Z;
  pc_config_version : Z;
}.

Inductive PrepareCandidateError (E : Type) :=
| PrepareCompile (e : CompileError)
| PrepareStore (e : ConfigStoreError E)
| DiscardAfterStoreFailure (store : ConfigStoreError E) (discard : E).
Arguments PrepareCompile {E} e.
Arguments PrepareStore {E} e.
Arguments DiscardAfterStoreFailure {E} store discard.

Inductive SafeBootReason (E : Type) :=
| BootStore (e : E)
| BootCodec (e : CodecError)
| SchemaVersionMismatch (expected found : Z)
| ConfigVersionMismatch (expected found : Z).
Arguments BootStore {E} e.
Arguments BootCodec {E} e.
Arguments SchemaVersionMismatch {E} expected found.
Arguments ConfigVersionMismatch {E} expected found.

Inductive BootConfigResult (T E : Type) :=
| Ready (compiled : T) (schema_version config_version : Z)
| SafeBoot (reason : SafeBootReason E).
Arguments Ready {T E} compiled schema_version config_version.
Arguments SafeBoot {T E} reason.

Inductive ActivatePreparedError (E : Type) :=
| ActivateStore (e : ConfigStoreError E)
| SlotMismatch (prepared requested : ConfigSlotId).
Arguments ActivateStore {E} e.
Arguments SlotMismatch {E} prepared requested.

Record ConfigManager (K : Type) := { cm_store : K }.
Arguments cm_store {K} _.
Arguments Build_ConfigManager {K} cm_store.

(** ** Pipeline *)
Section pipeline.
Context (USIZE_MAX : Z) (caps : Caps) `{Heapless} `{ConfigStore K E}
  `{!Postcard CanonicalConfig (fits caps)} `{!Postcard CompiledConfig (compiled_fits caps)}.

Definition discard_after_store_failure {A} (slot : ConfigSlotId) (error : ConfigStoreError E)
  : prog K (PrepareCandidateError E) A := λ s,
  match cs_discard_slot slot s with
  | (Done (Ok _), s) => (Done (Err (PrepareStore error)), s)
  | (Done (Err discard), s) => (Done (Err (DiscardAfterStoreFailure error discard)), s)
  | (Pending, s) => (Pending, s)
  | (Panic, s) => (Panic, s)
  end.

Definition prepare_candidate_blob `{Postcard T valid} (slot : ConfigSlotId) (kind : BlobKind)
    (schema_version config_version : Z) (value : T) (scratch : nat)
  : prog K (PrepareCandidateError E) unit := λ s,
  match prepare_candidate_slot slot kind schema_version config_version value scratch s with
  | (Done (Ok _), s) => (Done (Ok tt), s)
  | (Done (Err error), s) => discard_after_store_failure slot error s
  | (Pending, s) => (Pending, s)
  | (Panic, s) => (Panic, s)
  end.

Definition compile_and_prepare_candidate (c : CanonicalConfig) (target_board_id : BoardId)
    (candidate_slot : ConfigSlotId) (scratch : nat)
  : prog K (PrepareCandidateError E) PreparedCandidate :=
  io_bind (io_lift (map_err PrepareCompile (compile_config caps c target_board_id))) (λ compiled,
  io_bind (prepare_candidate_blob candidate_slot CanonicalBlob (schema_version c)
             (config_version c) c scratch) (λ _,
  io_bind (prepare_candidate_blob candidate_slot CompiledArtifacts (schema_version c)
             (config_version c) compiled scratch) (λ _,
  io_ret {| pc_slot := candidate_slot; pc_schema_version := schema_version c;
            pc_config_version := config_version c |}))).

Definition load_active_compiled_config (expected_schema_version expected_config_version : Z)
    (scratch : nat) (s : K) : outcome (BootConfigResult CompiledConfig E) :=
  match load_active_blob USIZE_MAX scratch CompiledArtifacts s with
  | Done (Ok decoded) =>
      Done
        (if decide (db_schema_version decoded ≠ expected_schema_version)
         then SafeBoot (SchemaVersionMismatch expected_schema_version (db_schema_version decoded))
         else if decide (db_config_version decoded ≠ expected_config_version)
         then SafeBoot (ConfigVersionMismatch expected_config_version (db_config_version decoded))
         else Ready (db_value decoded) (db_schema_version decoded) (db_config_version decoded))
  | Done (Err (StoreErr error)) => Done (SafeBoot (BootStore error))
  | Done (Err (CodecErr error)) => Done (SafeBoot (BootCodec error))
  | Pending => Pending
  | Panic => Panic
  end.

(** ** Manager *)
Definition prepare_update (c : CanonicalConfig) (target_board_id : BoardId)
    (candidate_slot : ConfigSlotId) (scratch : nat)
  : prog (ConfigManager K) (PrepareCandidateError E) PreparedCandidate := λ m,
  let '(r, s) :=
    compile_and_prepare_candidate c target_board_id candidate_slot scratch (cm_store m) in
  (r, {| cm_store := s |}).

Definition activate_prepared (prepared : PreparedCandidate) (requested_slot : ConfigSlotId)
  : prog (ConfigManager K) (ActivatePreparedError E) unit := λ m,
  if decide (pc_slot prepared ≠ requested_slot)
  then (Done (Err (SlotMismatch (pc_slot prepared) requested_slot)), m)
  else
    let '(r, s) :=
      io_map_err ActivateStore (commit_candidate_slot (pc_slot prepared)) (cm_store m) in
    (r, {| cm_store := s |}).

Definition boot_load (expected_schema_version expected_config_version : Z) (scratch : nat)
    (m : ConfigManager K) : outcome (BootConfigResult CompiledConfig E) :=
  load_active_compiled_config expected_schema_version expected_config_version scratch (cm_store m).

(** ** What preparing leaves alone *)
Definition elsewhere (slot : ConfigSlotId) (s s' : K) : Prop :=
  cs_active_slot s' = cs_active_slot s ∧
  ∀ slot' k n, slot' ≠ slot → cs_read_blob slot' k n s' = cs_read_blob slot' k n s.

#[local] Instance elsewhere_trans slot : Transitive (elsewhere slot).
Proof. intros s1 s2 s3 [Ha Hb] [Ha' Hb']. split; [congruence|]. intros. by rewrite Hb', Hb. Qed.

Lemma prepare_blob_elsewhere `{Postcard T valid} slot k sv cv (x : T) n s :
  elsewhere slot s (prepare_candidate_blob slot k sv cv x n s).2.
Proof.
  assert (∀ A e s0, elsewhere slot s0 (discard_after_store_failure (A := A) slot e s0).2)
    as Hdisc.
  { intros A e s0. assert (elsewhere slot s0 (cs_discard_slot slot s0).2) as Hd.
    { split; [apply discard_active|]. intros. by apply discard_frame. }
    unfold discard_after_store_failure. by destruct (cs_discard_slot slot s0) as [[[]| |] s1]. }
  unfold prepare_candidate_blob, prepare_candidate_slot.
  destruct (encode_enveloped k sv cv x n) as [bs|e]; [|apply Hdisc]. unfold io_map_err.
  assert (elsewhere slot s (cs_write_blob slot k bs s).2) as Hw.
  { split; [apply write_blob_active|]. intros. apply write_blob_frame. congruence. }
  destruct (cs_write_blob slot k bs s) as [[[u|e]| |] s1]; simpl in *; try done.
  etrans; [exact Hw|apply Hdisc].
Qed.

(** Preparing an update never activates anything.  Whatever the
    configuration, whatever the store answers and wherever the pipeline stops
    (compile error, failed write, failed discard, panic), the active pointer
    and the blobs of every slot but the candidate are what they were. *)
Lemma prepare_update_never_activates (m : ConfigManager K) (c : CanonicalConfig)
  (t : BoardId) (slot : ConfigSlotId) (scratch : nat) :
  let '(_, m') := prepare_update c t slot scratch m in
  cs_active_slot (cm_store m') = cs_active_slot (cm_store m) ∧
  ∀ slot' k n, slot' ≠ slot →
    cs_read_blob slot' k n (cm_store m') = cs_read_blob slot' k n (cm_store m).
Proof.
  unfold prepare_update.
  assert (elsewhere slot (cm_store m)
    (compile_and_prepare_candidate c t slot scratch (cm_store m)).2) as He.
  { unfold compile_and_prepare_candidate. apply (io_bind_rel (elsewhere slot)); [done|]. intros compiled s1.
    apply (io_bind_rel (elsewhere slot)); [apply prepare_blob_elsewhere|]. intros u s2.
    apply (io_bind_rel (elsewhere slot)); [apply prepare_blob_elsewhere|]. done. }
  by destruct (compile_and_prepare_candidate c t slot scratch (cm_store m)) as [r s].
Qed.

(** ** From a prepared update to a boot *)
Lemma io_bind_Ok {Er A B} (c : prog K Er A) (k : A → prog K Er B) s b s' :
  io_bind c k s = (Done (Ok b), s') →
  ∃ a s1, c s = (Done (Ok a), s1) ∧ k a s1 = (Done (Ok b), s').
Proof. unfold io_bind. destruct (c s) as [[[a|e]| |] s1]; naive_solver. Qed.

Lemma prepare_blob_Ok `{Postcard T valid} slot k sv cv (x : T) n s s' :
  prepare_candidate_blob slot k sv cv x n s = (Done (Ok tt), s') →
  ∃ bs, encode_enveloped k sv cv x n = Ok bs ∧ cs_write_blob slot k bs s = (Done (Ok tt), s').
Proof.
  unfold prepare_candidate_blob, prepare_candidate_slot, discard_after_store_failure.
  destruct (encode_enveloped k sv cv x n) as [bs|e]; simpl.
  - unfold io_map_err. destruct (cs_write_blob slot k bs s) as [[[[]|e]| |] s1] eqn:Hw; simpl;
      try done; [by intros [= <-]; eauto|].
    destruct (cs_discard_slot slot s1) as [[[]| |] s2]; done.
  - destruct (cs_discard_slot slot s) as [[[]| |] s2]; done.
Qed.

(** C13: an update that was prepared and activated boots.  If both calls
    succeed, [boot_load] with the versions of the update and a buffer at least
    as large returns [Ready] with exactly what [compile_config] makes of the
    configuration for the target board. *)
Theorem activated_update_boots (m m1 m2 : ConfigManager K) (c : CanonicalConfig) (t : BoardId)
  (slot : ConfigSlotId) (scratch boot_scratch : nat) (p : PreparedCandidate) :
  fits caps c → Z.of_nat scratch ≤ Z.min U32_MAX USIZE_MAX → (scratch ≤ boot_scratch)%nat →
  prepare_update c t slot scratch m = (Done (Ok p), m1) →
  activate_prepared p slot m1 = (Done (Ok tt), m2) →
  ∃ out, compile_config caps c t = Ok out ∧
    boot_load (schema_version c) (config_version c) boot_scratch m2 =
      Done (Ready out (schema_version c) (config_version c)).
Proof.
  intros Hfits Hmax Hboot Hprep Hact. unfold prepare_update in Hprep.
  destruct (compile_and_prepare_candidate _ _ _ _ _) as [r s1] eqn:Hc. injection Hprep as -> <-.
  unfold compile_and_prepare_candidate, io_lift in Hc.
  apply io_bind_Ok in Hc as (out & s2 & Hcomp & Hc). injection Hcomp as Hcomp <-.
  apply io_bind_Ok in Hc as ([] & s3 & _ & Hc).
  apply io_bind_Ok in Hc as ([] & s4 & (bs & Henc & Hw)%prepare_blob_Ok & Hc).
  injection Hc as <- <-. destruct (compile_config caps c t) as [out'|e] eqn:Hout; [|done].
  injection Hcomp as ->. exists out. split; [done|].
  destruct (compile_config_fits caps c t out Hfits Hout) as (Hof & _ & _).
  destruct (encode_decode USIZE_MAX CompiledArtifacts _ _ out scratch bs Hof
    (fit_schema _ _ Hfits) (fit_version _ _ Hfits) Hmax Henc) as [Hl Hdec].
  unfold activate_prepared in Hact. simpl in Hact. rewrite decide_False in Hact by auto.
  unfold commit_candidate_slot, io_map_err in Hact.
  pose proof (write_active_frame slot s4 slot CompiledArtifacts boot_scratch) as Hframe.
  destruct (cs_write_active_slot slot s4) as [[[[]|e]| |] s5] eqn:Ha; try done.
  injection Hact as <-. unfold boot_load, load_active_compiled_config, load_active_blob. simpl in *.
  rewrite (write_active_read _ _ _ Ha), Hframe, (write_blob_read _ _ _ _ _ _ Hw), Hdec by lia.
  simpl. by rewrite !decide_False by auto.
Qed.

(** ** Damaged blobs *)
Lemma boot_load_cases sv cv scratch m slot stored :
  cs_active_slot (cm_store m) = Done (Ok slot) →
  cs_read_blob slot CompiledArtifacts scratch (cm_store m) = Done (Ok stored) →
  (∃ reason, boot_load sv cv scratch m = Done (SafeBoot reason)) ∨
  (∃ blob, decode_enveloped (T := CompiledConfig) USIZE_MAX CompiledArtifacts stored = Ok blob ∧
           db_schema_version blob = sv ∧ db_config_version blob = cv).
Proof.
  intros Ha Hr. unfold boot_load, load_active_compiled_config, load_active_blob. rewrite Ha, Hr.
  destruct (decode_enveloped _ _ stored) as [blob|e]; simpl; [|eauto].
  repeat case_decide; [eauto..|]. right. by exists blob.
Qed.

(** The stored bytes differ from the intact ones in the header only, or in a
    window of at most four bytes of the payload. *)
Definition damaged (payload intact stored : list Z) : Prop :=
  stored ≠ intact ∧
  (drop HEADER_LEN stored = payload ∨
   (take HEADER_LEN stored = take HEADER_LEN intact ∧
    ∃ pre mid mid' post, payload = pre ++ mid ++ post ∧
      drop HEADER_LEN stored = pre ++ mid' ++ post ∧
      length mid = length mid' ∧ (length mid ≤ 4)%nat)).

Lemma envelope_crc k sv cv p p' :
  Forall is_u8 p → Forall is_u8 p' →
  take HEADER_LEN (envelope k sv cv p) = take HEADER_LEN (envelope k sv cv p') →
  crc32 p = crc32 p'.
Proof.
  intros Hp Hp' Ht. assert (to_be 4 (crc32 p) = to_be 4 (crc32 p')) as Hc.
  { exact (f_equal (drop 16) Ht). }
  rewrite <-(from_to_be 4 (crc32 p)), Hc, from_to_be by by apply crc32_word. done.
Qed.

(** C31: a damaged configuration is never run.  If the compiled blob of the
    active slot differs from the one that was written, by any change confined
    to the header or by a change inside four consecutive payload bytes,
    [boot_load] returns [SafeBoot]. *)
Theorem damaged_blob_boots_safe (m : ConfigManager K) (slot : ConfigSlotId) (scratch : nat)
  (sv cv : Z) (payload stored : list Z) :
  cs_active_slot (cm_store m) = Done (Ok slot) →
  cs_read_blob slot CompiledArtifacts scratch (cm_store m) = Done (Ok stored) →
  Forall is_u8 payload → Forall is_u8 stored → Z.of_nat (length stored) ≤ U32_MAX →
  damaged payload (envelope CompiledArtifacts sv cv payload) stored →
  ∃ reason, boot_load sv cv scratch m = Done (SafeBoot reason).
Proof.
  intros Ha Hr Hp Hst Hmax [Hne Hdam].
  destruct (boot_load_cases sv cv scratch m slot stored Ha Hr) as [?|(blob & Hd & <- & <-)]; [done|].
  exfalso. apply Hne. destruct (decode_inv _ _ _ _ Hst Hmax Hd) as (p' & Heq & _).
  set (h := envelope CompiledArtifacts (db_schema_version blob) (db_config_version blob)) in *.
  assert (drop HEADER_LEN (h p') = p') as Hdrop by done.
  destruct Hdam as [<-|(Ht & pre & mid & mid' & post & -> & Hd' & Hlen & H4)].
  { by rewrite Heq, Hdrop. }
  rewrite Heq, Hdrop in Hd'. rewrite Heq in Ht, Hst. rewrite Heq, Hd' in *.
  destruct (decide (mid = mid')) as [->|Hmid]; [done|]. exfalso.
  assert (Forall is_u8 (pre ++ mid' ++ post)) as Hp'.
  { rewrite <-Hdrop. by apply Forall_drop. }
  apply (burst_crc pre mid mid' post); try done. symmetry. by eapply envelope_crc.
Qed.
End pipeline.

(** ** Examples: the two-slot store, slot 1 active *)
Definition ex_manager : ConfigManager MockStore := {| cm_store :=
  {| active := 1; slot_1_canonical := []; slot_1_compiled := []; slot_2_canonical := [];
     slot_2_compiled := []; fail_write_kind := None; discard_count := 0;
     active_write_count := 0 |} |}.

Definition ex_prepared : ConfigManager MockStore :=
  (prepare_update ex_caps ex_house 2 2 320 ex_manager).2.
Definition ex_candidate : PreparedCandidate :=
  {| pc_slot := 2; pc_schema_version := 1; pc_config_version := 5 |}.
Definition ex_activated : ConfigManager MockStore :=
  (activate_prepared ex_candidate 2 ex_prepared).2.

Lemma activated_update_boots_witness :
  ∃ out, compile_config ex_caps ex_house 2 = Ok out ∧
    boot_load U32_MAX ex_caps 1 5 512 ex_activated = Done (Ready out 1 5).
Proof.
  apply (activated_update_boots U32_MAX ex_caps ex_manager ex_prepared ex_activated ex_house 2 2
    320 512 ex_candidate).
  - exact ex_house_fits.
  - vm_compute. discriminate.
  - apply Nat.leb_le. vm_compute. reflexivity.
  - vm_compute. reflexivity.
  - vm_compute. reflexivity.
Defined.

(** The same store after a bit of the third payload byte has flipped. *)
Definition ex_compiled_blob : list Z := slot_2_compiled (cm_store ex_activated).
Definition ex_flipped : list Z :=
  <[22%nat := Z.lxor 1 (byte_at ex_compiled_blob 22)]> ex_compiled_blob.
Definition ex_damaged : ConfigManager MockStore :=
  {| cm_store := set_blob (cm_store ex_activated) 2 CompiledArtifacts ex_flipped |}.

Lemma damaged_blob_boots_safe_witness :
  ∃ reason, boot_load U32_MAX ex_caps 1 5 512 ex_damaged = Done (SafeBoot reason).
Proof.
  apply (damaged_blob_boots_safe U32_MAX ex_caps ex_damaged 2 512 1 5
    (drop HEADER_LEN ex_compiled_blob) ex_flipped).
  - vm_compute. reflexivity.
  - vm_compute. reflexivity.
  - apply (bool_decide_unpack _). vm_compute. exact I.
  - apply (bool_decide_unpack _). vm_compute. exact I.
  - vm_compute. discriminate.
  - split; [vm_compute; discriminate|]. right. split; [vm_compute; reflexivity|].
    exists (take 2 (drop 20 ex_flipped)), (slice ex_compiled_blob 22 23),
      (slice ex_flipped 22 23), (drop 23 ex_flipped).
    repeat split; vm_compute; (reflexivity || lia).
Defined.

(** ** What the manager does not check

    The candidate slot may be the active one.  An update aimed at it whose
    second write fails is rolled back by discarding the slot: the running
    configuration is gone, although nothing was activated. *)
Definition ex_failing : ConfigManager MockStore :=
  let s := cm_store ex_activated in
  {| cm_store := {| active := active s; slot_1_canonical := slot_1_canonical s;
       slot_1_compiled := slot_1_compiled s; slot_2_canonical := slot_2_canonical s;
       slot_2_compiled := slot_2_compiled s; fail_write_kind := Some CompiledArtifacts;
       discard_count := discard_count s; active_write_count := active_write_count s |} |}.

Lemma failed_update_erases_active_slot :
  let '(r, m) := prepare_update ex_caps ex_house 2 2 320 ex_failing in
  (∃ out, boot_load U32_MAX ex_caps 1 5 512 ex_failing = Done (Ready out 1 5)) ∧
  r = Done (Err (PrepareStore (StoreErr tt))) ∧
  boot_load U32_MAX ex_caps 1 5 512 m = Done (SafeBoot (BootCodec BufferTooSmall)).
Proof. vm_compute. split; [|done]. eexists. reflexivity. Qed.

(** The pointer moves to an older configuration just as well: the version
    check of [ActiveSlotState::begin_candidate] is not part of this path. *)
Definition ex_older : CanonicalConfig := {|
  schema_version := 1; config_version := 4; house_id := house_id ex_house;
  boards := boards ex_house; controllers := controllers ex_house; devices := devices ex_house;
  dependencies := dependencies ex_house; rules := rules ex_house; broker := broker ex_house;
  network := network ex_house |}.

Lemma older_update_is_activated :
  let m := (prepare_update ex_caps ex_older 2 1 320 ex_activated).2 in
  let '(r, m') := activate_prepared
    {| pc_slot := 1; pc_schema_version := 1; pc_config_version := 4 |} 1 m in
  r = Done (Ok tt) ∧ ∃ out, boot_load U32_MAX ex_caps 1 4 512 m' = Done (Ready out 1 4).
Proof. vm_compute. split; [done|]. eexists. reflexivity. Qed.
End Manager.
