(* ===== verification/TestsConfig.v ===== *)
(** * TestsConfig: the unit tests of the configuration crate

    [compiler.rs], [active_slot.rs], [serialization.rs], [storage.rs],
    [pipeline.rs] and [manager.rs] of [smartbox-config], on the reference
    postcard codec; see [Suite.v]. *)

From S2P Require Import Prelude External Reference Schema Compiler Crc PostcardRef Serialization.
From S2P Require Import Storage ConfigManager Suite.

Open Scope Z_scope.

Module TestsConfig.
Import Schema Compiler Serialization Storage Manager PostcardRef.

(** ** The capacities of the tests' types *)
Definition test_caps : Caps := {|
  MAX_BOARDS := 4; MAX_CONTROLLERS := 4; MAX_DEVICES := 8; MAX_DEPENDENCIES := 4; MAX_RULES := 4;
  MAX_ACTIONS := 4; MAX_STEPS := 4 |}.
Definition tiny_caps : Caps := {|
  MAX_BOARDS := 1; MAX_CONTROLLERS := 1; MAX_DEVICES := 1; MAX_DEPENDENCIES := 1; MAX_RULES := 1;
  MAX_ACTIONS := 1; MAX_STEPS := 1 |}.

Lemma test_caps_small : caps_small test_caps.
Proof. split; vm_compute; discriminate. Qed.
Lemma tiny_caps_small : caps_small tiny_caps.
Proof. split; vm_compute; discriminate. Qed.

#[local] Instance test_canonical : Postcard CanonicalConfig (fits test_caps) :=
  postcard_of (c_CanonicalConfig test_caps test_caps_small).
#[local] Instance test_compiled : Postcard CompiledConfig (compiled_fits test_caps) :=
  postcard_of (c_CompiledConfig test_caps test_caps_small).
#[local] Instance tiny_canonical : Postcard CanonicalConfig (fits tiny_caps) :=
  postcard_of (c_CanonicalConfig tiny_caps tiny_caps_small).

(** ** [compiler.rs] *)
Definition board (id : BoardId) (role : BoardRole) : BoardConfig :=
  {| bc_board_id := id; bc_role := role |}.
Definition controller (id : ControllerId) (owner : BoardId) : ControllerConfig :=
  {| cc_controller_id := id; cc_owner_board_id := owner; cc_family := SmartBox |}.
Definition relay (id : DeviceId) (owner : BoardId) (ctrl : ControllerId) (port : Z) : DeviceConfig :=
  {| dc_device_id := id; dc_owner_board_id := owner; dc_kind := Relay;
     dc_port := Some {| pr_controller_id := ctrl; pr_port := port |} |}.
Definition dependency (dest : DeviceId) : Stm32DependencyConfig :=
  {| sd_owner_board_id := 1; sd_source := {| dp_device_id := 10; dp_property := State |};
     sd_source_code := SrcDeviceProperty;
     sd_destination := {| dp_device_id := dest; dp_property := State |};
     sd_destination_code := SetDeviceProperty; sd_tag := TagGeneric |}.
Definition switch_on (scope : RuleScope) (target : DeviceId) : RuleConfig :=
  {| ru_rule_id := 1; ru_scope := scope; ru_enabled := true; ru_trigger := None;
     ru_condition := None; ru_body := Act [SetDevice target State (VBool true)];
     ru_cooldown_ms := 0; ru_version := 1 |}.

(** The tests' [CanonicalConfig]s differ in these fields. *)
Definition house (version : Z) (id : HouseId) (bs : list BoardConfig) (cs : list ControllerConfig)
  (ds : list DeviceConfig) (deps : list Stm32DependencyConfig) (rs : list RuleConfig)
  (host : string) : CanonicalConfig :=
  {| schema_version := SUPPORTED_SCHEMA_VERSION; config_version := version; house_id := id;
     boards := bs; controllers := cs; devices := ds; dependencies := deps; rules := rs;
     broker := {| br_host_name := host; br_tls_required := true |};
     network := {| nc_dhcp := true; nc_static_ipv4 := None |} |}.

(** [base_config], with the devices, dependencies and rules the tests change. *)
Definition base_config (ds : list DeviceConfig) (deps : list Stm32DependencyConfig)
  (rs : list RuleConfig) : CanonicalConfig :=
  house 42 100 [board 1 Coordinator; board 2 Zone] [controller 1 1; controller 2 2] ds deps rs
    "smartbox-coordinator".
Definition base_devices : list DeviceConfig := [relay 10 1 1 1; relay 20 2 2 1].
Definition base_rules : list RuleConfig := [switch_on (BoardLocal 1) 10].

Definition compiler_tests : suite := [
  ("compile_extracts_local_inventory_dependencies_rules_and_topology",
   match compile_config test_caps (base_config base_devices [dependency 10] base_rules) 1 with
   | Ok o =>
       co_config_version o = 42 ∧ bc_board_id (li_board (co_local_inventory o)) = 1 ∧
       length (li_controllers (co_local_inventory o)) = 1%nat ∧
       length (li_devices (co_local_inventory o)) = 1%nat ∧
       length (records (co_stm32_dependencies o)) = 1%nat ∧ length (co_rules o) = 1%nat ∧
       length (entries (co_topology o)) = 2%nat
   | Err _ => False
   end);
  ("duplicate_device_id_is_rejected",
   compile_config test_caps
     (base_config (base_devices ++ [relay 10 1 1 1]) [dependency 10] base_rules) 1
     = Err (DuplicateDeviceId 10));
  ("board_local_rule_cannot_target_remote_device",
   compile_config test_caps
     (base_config base_devices [dependency 10] [switch_on (BoardLocal 1) 20]) 1
     = Err (BoardLocalRuleTargetsRemoteDevice 1 20));
  ("dependency_cannot_cross_boards",
   compile_config test_caps (base_config base_devices [dependency 20] base_rules) 1
     = Err DependencyCrossesBoards);
  ("coordinator_receives_house_level_rule",
   match compile_config test_caps
           (base_config base_devices [dependency 10] [switch_on HouseLevel 10]) 1 with
   | Ok o => length (co_rules o) = 1%nat
   | Err _ => False
   end);
  ("zone_board_ignores_house_level_rule",
   match compile_config test_caps
           (base_config base_devices [dependency 10] [switch_on HouseLevel 10]) 2 with
   | Ok o => co_rules o = [] ∧ length (li_devices (co_local_inventory o)) = 1%nat
   | Err _ => False
   end);
  ("device_port_must_reference_controller_on_same_board",
   compile_config test_caps
     (base_config [relay 10 1 1 1; relay 20 2 1 9] [dependency 10] base_rules) 2
     = Err DeviceControllerMissing)]%string.

(** ** [active_slot.rs] *)
Definition active_slot_tests : suite := [
  ("commit_advances_active_pointer",
   let '(r, s) := begin_candidate (slot_new 1 7) 2 8 in
   let '(c, s) := commit_candidate s in
   r = Ok tt ∧ c = Ok 2 ∧ active_slot s = 2 ∧ active_config_version s = 8 ∧ candidate s = None);
  ("discard_keeps_active_pointer",
   let '(r, s) := begin_candidate (slot_new 1 7) 2 8 in
   let '(d, s) := discard_candidate s in
   r = Ok tt ∧ d = Ok tt ∧ active_slot s = 1 ∧ active_config_version s = 7);
  ("stale_candidate_is_rejected",
   (begin_candidate (slot_new 1 7) 2 7).1 = Err CandidateVersionNotNewer)]%string.

(** ** [serialization.rs] *)
Definition tiny_config (version : Z) (id : HouseId) : CanonicalConfig :=
  house version id [board 1 Coordinator] [] [] [] [] "smartbox".

Definition encode_tiny : result CodecError (list Z) :=
  encode_enveloped (valid:=fits tiny_caps) CanonicalBlob SUPPORTED_SCHEMA_VERSION 11
    (tiny_config 11 7) 512.
Definition decode_tiny (kind : BlobKind) (bytes : list Z)
  : result CodecError (DecodedBlob CanonicalConfig) :=
  decode_enveloped U64_MAX (valid:=fits tiny_caps) kind bytes.

Definition serialization_tests : suite := [
  ("envelope_round_trip_preserves_config",
   match encode_tiny with
   | Ok encoded =>
       match decode_tiny CanonicalBlob encoded with
       | Ok decoded => db_schema_version decoded = SUPPORTED_SCHEMA_VERSION ∧
                       db_config_version decoded = 11 ∧ db_value decoded = tiny_config 11 7
       | Err _ => False
       end
   | Err _ => False
   end);
  ("wrong_kind_is_rejected",
   match encode_tiny with
   | Ok encoded => decode_tiny CompiledArtifacts encoded
                     = Err (UnexpectedKind CompiledArtifacts CanonicalBlob)
   | Err _ => False
   end);
  ("corrupt_payload_is_rejected_by_crc",
   match encode_tiny with
   | Ok encoded =>
       let last := (length encoded - 1)%nat in
       match decode_tiny CanonicalBlob (alter (Z.lxor 0x55) last encoded) with
       | Err (CrcMismatch _ _) => True
       | _ => False
       end
   | Err _ => False
   end)]%string.

Lemma config_unit_tests_pass :
  passes compiler_tests ∧ passes active_slot_tests ∧ passes serialization_tests.
Proof. split_and!; replay. Qed.

(** ** [storage.rs] *)
Definition stored_tiny (slot : ConfigSlotId) : option MockStore :=
  match prepare_candidate_slot (valid:=fits tiny_caps) slot CanonicalBlob
          SUPPORTED_SCHEMA_VERSION 3 (tiny_config 3 9) 512 mock_default with
  | (Done (Ok _), store) =>
      match commit_candidate_slot slot store with
      | (Done (Ok _), store) => Some store
      | _ => None
      end
  | _ => None
  end.

Definition storage_tests : suite := [
  ("prepare_then_commit_then_load_reads_candidate",
   match stored_tiny 2 ≫= λ store, block_on
           (load_active_blob U64_MAX (valid:=fits tiny_caps) 512 CanonicalBlob store) with
   | Some (Ok decoded) => db_value decoded = tiny_config 3 9
   | _ => False
   end);
  ("loading_wrong_kind_returns_codec_error",
   match stored_tiny 1 ≫= λ store, block_on
           (load_active_blob U64_MAX (valid:=fits tiny_caps) 512 CompiledArtifacts store) with
   | Some (Err (CodecErr _)) => True
   | _ => False
   end)]%string.

(** ** [pipeline.rs] *)
Definition test_config (version : Z) (id : HouseId) : CanonicalConfig :=
  house version id [board 1 Coordinator] [controller 1 1] [relay 10 1 1 1] [] base_rules
    "smartbox-coordinator".

(** [MockStore { active, fail_write_kind, ..MockStore::default() }] *)
Definition store_with (active : Z) (fail : option BlobKind) : MockStore :=
  {| active := active; slot_1_canonical := []; slot_1_compiled := []; slot_2_canonical := [];
     slot_2_compiled := []; fail_write_kind := fail; discard_count := 0; active_write_count := 0 |}.
(** [store.active = slot] *)
Definition set_active (s : MockStore) (slot : Z) : MockStore :=
  {| active := slot; slot_1_canonical := slot_1_canonical s; slot_1_compiled := slot_1_compiled s;
     slot_2_canonical := slot_2_canonical s; slot_2_compiled := slot_2_compiled s;
     fail_write_kind := fail_write_kind s; discard_count := discard_count s;
     active_write_count := active_write_count s |}.

Definition prepare (c : CanonicalConfig) (store : MockStore) :=
  compile_and_prepare_candidate test_caps c 1 2 2048 store.

Definition pipeline_tests : suite := [
  ("pipeline_writes_canonical_and_compiled_without_committing_active_slot",
   match prepare (test_config 9 100) (store_with 1 None) with
   | (Done (Ok prepared), store) =>
       pc_slot prepared = 2 ∧ pc_config_version prepared = 9 ∧
       active store = 1 ∧ active_write_count store = 0%nat ∧
       bool_decide (slot_2_canonical store = []) = false ∧
       bool_decide (slot_2_compiled store = []) = false ∧
       match load_active_blob U64_MAX (valid:=fits test_caps) 2048 CanonicalBlob
               (set_active store 2),
             load_active_blob U64_MAX (valid:=compiled_fits test_caps) 2048 CompiledArtifacts
               (set_active store 2) with
       | Done (Ok canonical), Done (Ok compiled) =>
           db_value canonical = test_config 9 100 ∧
           length (li_devices (co_local_inventory (db_value compiled))) = 1%nat ∧
           length (co_rules (db_value compiled)) = 1%nat
       | _, _ => False
       end
   | _ => False
   end);
  ("compile_error_does_not_touch_candidate_or_active_slot",
   match prepare (test_config 9 0) (store_with 1 None) with
   | (Done (Err (PrepareCompile _)), store) =>
       active store = 1 ∧ active_write_count store = 0%nat ∧
       slot_2_canonical store = [] ∧ slot_2_compiled store = []
   | _ => False
   end);
  ("compiled_write_failure_discards_candidate_and_keeps_active_slot",
   match prepare (test_config 9 100) (store_with 1 (Some CompiledArtifacts)) with
   | (Done (Err e), store) =>
       e = PrepareStore (StoreErr tt) ∧ active store = 1 ∧ active_write_count store = 0%nat ∧
       discard_count store = 1%nat ∧ slot_2_canonical store = [] ∧ slot_2_compiled store = []
   | _ => False
   end)]%string.

(** Prepared and committed to slot 2. *)
Definition committed : option MockStore :=
  match prepare (test_config 9 100) (store_with 1 None) with
  | (Done (Ok _), store) =>
      match commit_candidate_slot 2 store with (Done (Ok _), store) => Some store | _ => None end
  | _ => None
  end.
Definition load (version : Z) (store : MockStore) :=
  block_on (load_active_compiled_config U64_MAX test_caps SUPPORTED_SCHEMA_VERSION version 2048 store).

Definition boot_tests : suite := [
  ("boot_load_ready_returns_compiled_artifacts",
   match committed ≫= load 9 with
   | Some (Ready compiled schema version) =>
       schema = SUPPORTED_SCHEMA_VERSION ∧ version = 9 ∧
       length (li_devices (co_local_inventory compiled)) = 1%nat
   | _ => False
   end);
  ("boot_load_schema_mismatch_returns_safe_boot",
   match compile_config test_caps (test_config 9 100) 1 with
   | Ok compiled =>
       match prepare_candidate_slot (valid:=compiled_fits test_caps) 1 CompiledArtifacts
               (SUPPORTED_SCHEMA_VERSION + 1) 9 compiled 2048 mock_default with
       | (Done (Ok _), store) =>
           match commit_candidate_slot 1 store with
           | (Done (Ok _), store) => load 9 store = Some (SafeBoot (SchemaVersionMismatch
               SUPPORTED_SCHEMA_VERSION (SUPPORTED_SCHEMA_VERSION + 1)))
           | _ => False
           end
       | _ => False
       end
   | Err _ => False
   end);
  ("boot_load_config_version_mismatch_returns_safe_boot",
   (committed ≫= load 10) = Some (SafeBoot (ConfigVersionMismatch 10 9)));
  ("boot_load_corrupt_compiled_blob_returns_safe_boot",
   match committed with
   | Some store =>
       let last := (length (slot_2_compiled store) - 1)%nat in
       match load 9 (set_blob store 2 CompiledArtifacts
                       (alter (Z.lxor 0x33) last (slot_2_compiled store))) with
       | Some (SafeBoot (BootCodec _)) => True
       | _ => False
       end
   | None => False
   end)]%string.

(** ** [manager.rs] *)
Definition manager_config : CanonicalConfig := test_config 14 100.

Definition manager_tests : suite := [
  ("manager_prepares_activates_and_loads_config",
   match prepare_update test_caps manager_config 1 2 2048 {| cm_store := store_with 1 None |} with
   | (Done (Ok prepared), manager) =>
       active (cm_store manager) = 1 ∧ active_write_count (cm_store manager) = 0%nat ∧
       match activate_prepared prepared 2 manager with
       | (Done (Ok _), manager) =>
           active (cm_store manager) = 2 ∧ active_write_count (cm_store manager) = 1%nat ∧
           match boot_load U64_MAX test_caps SUPPORTED_SCHEMA_VERSION 14 2048 manager with
           | Done (Ready compiled _ _) =>
               length (li_devices (co_local_inventory compiled)) = 1%nat ∧
               length (co_rules compiled) = 1%nat
           | _ => False
           end
       | _ => False
       end
   | _ => False
   end);
  ("manager_rejects_activation_of_unexpected_slot",
   match prepare_update test_caps manager_config 1 2 2048 {| cm_store := mock_default |} with
   | (Done (Ok prepared), manager) =>
       match activate_prepared prepared 1 manager with
       | (Done (Err e), manager) => e = SlotMismatch 2 1 ∧ active_write_count (cm_store manager) = 0%nat
       | _ => False
       end
   | _ => False
   end)]%string.

Lemma config_flow_tests_pass :
  passes storage_tests ∧ passes pipeline_tests ∧ passes boot_tests ∧ passes manager_tests.
Proof. split_and!; replay. Qed.
End TestsConfig.
