(* ===== verification/TlsIdentity.v ===== *)
(** * TlsIdentity: the broker's certificate and key ([tls/mod.rs])

    Storing an identity, reading it back, obtaining one at boot and printing
    its fingerprint.  The theorems: the storage format is a bijection between
    identities and the byte strings the decoder accepts; once an identity has
    been obtained every later boot presents the same one; the fingerprint is
    printed in full and different fingerprints print differently. *)

From S2P Require Import Prelude External Reference.

Module TlsIdentity.

Definition FINGERPRINT_HEX_LEN : nat := 95.
Definition STORAGE_MAGIC : list Z := [71; 77; 84; 76].  (* b"GMTL" *)
Definition STORAGE_VERSION : Z := 1.

Record TlsIdentity := { certificate_der : list Z; private_key_der : list Z }.
#[global] Instance TlsIdentity_eq_dec : EqDecision TlsIdentity.
Proof. solve_decision. Defined.

Inductive IdentityError :=
| CertificateTooLarge
| PrivateKeyTooLarge
| StorageBufferTooSmall
| InvalidStorageMagic
| UnsupportedStorageVersion (v : Z)
| CorruptedStorage.

Inductive BootstrapError (Es Eg : Type) :=
| BootstrapLoad (e : Es)
| BootstrapSave (e : Es)
| BootstrapGenerate (e : Eg).
Arguments BootstrapLoad {Es Eg} e.
Arguments BootstrapSave {Es Eg} e.
Arguments BootstrapGenerate {Es Eg} e.

Record BootstrappedIdentity := {
  bi_identity : TlsIdentity;
  bi_fingerprint_sha256 : list Z;
  bi_generated : bool;
}.

Section codec.
Context `{Heapless} (CERT_MAX KEY_MAX : nat).

(** What the type [TlsIdentity<CERT_MAX, KEY_MAX>] guarantees. *)
Definition identity_fits (i : TlsIdentity) : Prop :=
  (length (certificate_der i) ≤ CERT_MAX)%nat ∧ (length (private_key_der i) ≤ KEY_MAX)%nat.

Definition identity_new (certificate_der private_key_der : list Z)
  : result IdentityError TlsIdentity :=
  c ← ok_or CertificateTooLarge (vec_from_slice CERT_MAX certificate_der);
  k ← ok_or PrivateKeyTooLarge (vec_from_slice KEY_MAX private_key_der);
  Ok {| certificate_der := c; private_key_der := k |}.

(** [u16::to_le_bytes], [u16::from_le_bytes] and [usize::try_into] to [u16]. *)
Definition u16_to_le (x : Z) : list Z := [x mod 256; x / 256 mod 256].
Definition u16_from_le (lo hi : Z) : Z := lo + 256 * hi.
Definition u16_try_from (n : nat) : option Z :=
  if decide (Z.of_nat n ≤ U16_MAX) then Some (Z.of_nat n) else None.

Definition identity_encode (STORAGE_MAX : nat) (i : TlsIdentity)
  : result IdentityError (list Z) :=
  cert_len ← ok_or CertificateTooLarge (u16_try_from (length (certificate_der i)));
  key_len ← ok_or PrivateKeyTooLarge (u16_try_from (length (private_key_der i)));
  if decide (Z.of_nat STORAGE_MAX < 9 + cert_len + key_len) then Err StorageBufferTooSmall
  else
    out ← ok_or StorageBufferTooSmall (vec_extend STORAGE_MAX [] STORAGE_MAGIC);
    out ← ok_or StorageBufferTooSmall (vec_push STORAGE_MAX out STORAGE_VERSION);
    out ← ok_or StorageBufferTooSmall (vec_extend STORAGE_MAX out (u16_to_le cert_len));
    out ← ok_or StorageBufferTooSmall (vec_extend STORAGE_MAX out (u16_to_le key_len));
    out ← ok_or StorageBufferTooSmall (vec_extend STORAGE_MAX out (certificate_der i));
    ok_or StorageBufferTooSmall (vec_extend STORAGE_MAX out (private_key_der i)).

Definition identity_decode (storage : list Z) : result IdentityError TlsIdentity :=
  match storage with
  | b0 :: b1 :: b2 :: b3 :: version :: c0 :: c1 :: k0 :: k1 :: rest =>
      if decide ([b0; b1; b2; b3] ≠ STORAGE_MAGIC) then Err InvalidStorageMagic
      else if decide (version ≠ STORAGE_VERSION) then Err (UnsupportedStorageVersion version)
      else
        let cert_len := Z.to_nat (u16_from_le c0 c1) in
        let key_len := Z.to_nat (u16_from_le k0 k1) in
        if decide (length storage ≠ 9 + cert_len + key_len)%nat then Err CorruptedStorage
        else identity_new (take cert_len rest) (take key_len (drop cert_len rest))
  | _ => Err CorruptedStorage
  end.

(** The stored form. *)
Definition identity_bytes (i : TlsIdentity) : list Z :=
  STORAGE_MAGIC ++ [STORAGE_VERSION] ++
  u16_to_le (Z.of_nat (length (certificate_der i))) ++
  u16_to_le (Z.of_nat (length (private_key_der i))) ++ certificate_der i ++ private_key_der i.

Lemma length_identity_bytes i :
  length (identity_bytes i) = (9 + length (certificate_der i) + length (private_key_der i))%nat.
Proof. unfold identity_bytes. simpl. rewrite length_app. lia. Qed.

Lemma identity_encode_spec STORAGE_MAX i bytes :
  identity_encode STORAGE_MAX i = Ok bytes ↔
  bytes = identity_bytes i ∧ (length (certificate_der i) ≤ Z.to_nat U16_MAX)%nat ∧
  (length (private_key_der i) ≤ Z.to_nat U16_MAX)%nat ∧ (length bytes ≤ STORAGE_MAX)%nat.
Proof.
  unfold identity_encode, u16_try_from. pose proof (length_identity_bytes i) as Hlen.
  destruct (decide (Z.of_nat (length (certificate_der i)) ≤ U16_MAX)); simpl.
  2:{ split; [done|]. int_lia. }
  destruct (decide (Z.of_nat (length (private_key_der i)) ≤ U16_MAX)); simpl.
  2:{ split; [done|]. int_lia. }
  case_decide as Hsz; [split; [done|]; intros (-> & _ & _ & ?); lia|].
  rewrite vec_extend_spec, decide_True by (simpl; lia). simpl.
  rewrite vec_push_spec, decide_True by (simpl; lia). simpl.
  rewrite !vec_extend_spec. rewrite decide_True by (simpl; lia). simpl.
  rewrite !vec_extend_spec. rewrite decide_True by (simpl; lia). simpl.
  rewrite !vec_extend_spec. rewrite decide_True by (simpl; lia). simpl.
  rewrite !vec_extend_spec. rewrite decide_True by (simpl; rewrite ?length_app; lia). simpl.
  rewrite <-?app_assoc.
  transitivity (Ok (E := IdentityError) (identity_bytes i) = Ok bytes); [reflexivity|].
  split; [intros [= <-]; split; [done|]; int_lia|]. by intros (-> & _).
Qed.

Lemma u16_le_round_trip x : is_u16 x → u16_from_le (x mod 256) (x / 256 mod 256) = x.
Proof.
  intros Hx. unfold u16_from_le. pose proof (Z.div_mod x 256 ltac:(lia)).
  rewrite (Z.mod_small (x / 256)); [lia|]. split; [apply Z.div_pos; int_lia|].
  apply Z.div_lt_upper_bound; int_lia.
Qed.

Lemma u16_from_le_range lo hi : is_u8 lo → is_u8 hi → is_u16 (u16_from_le lo hi).
Proof. unfold u16_from_le. int_lia. Qed.

Lemma u16_to_from_le lo hi : is_u8 lo → is_u8 hi → u16_to_le (u16_from_le lo hi) = [lo; hi].
Proof.
  intros Hl Hh. unfold u16_to_le, u16_from_le. rewrite (Z.mul_comm 256), Z.mod_add by lia.
  rewrite Z.div_add, (Z.div_small lo), !Z.mod_small by int_lia. done.
Qed.

Lemma identity_decode_bytes i :
  identity_fits i → (length (certificate_der i) ≤ Z.to_nat U16_MAX)%nat →
  (length (private_key_der i) ≤ Z.to_nat U16_MAX)%nat → identity_decode (identity_bytes i) = Ok i.
Proof.
  intros [Hc Hk] Hc' Hk'. pose proof (length_identity_bytes i) as Hlen. unfold identity_decode.
  unfold identity_bytes at 1. cbn [app STORAGE_MAGIC u16_to_le].
  rewrite !decide_False by auto. rewrite !u16_le_round_trip, !Nat2Z.id by int_lia.
  change (_ :: _ :: _ :: _ :: _ :: _ :: _ :: _ :: _ :: _) with (identity_bytes i).
  rewrite decide_False by lia. unfold identity_new.
  rewrite take_app_length, drop_app_length, take_ge by done.
  rewrite !vec_from_slice_spec, decide_True by done. simpl. rewrite decide_True by done.
  by destruct i.
Qed.

Lemma identity_decode_Ok storage i :
  Forall is_u8 storage → identity_decode storage = Ok i →
  storage = identity_bytes i ∧ identity_fits i ∧
  (length (certificate_der i) ≤ Z.to_nat U16_MAX)%nat ∧
  (length (private_key_der i) ≤ Z.to_nat U16_MAX)%nat.
Proof.
  intros Hall. unfold identity_decode.
  destruct storage as [|b0 [|b1 [|b2 [|b3 [|v [|c0 [|c1 [|k0 [|k1 storage]]]]]]]]]; try done.
  decompose_Forall_hyps.
  case_decide as Hm; [done|]. case_decide as Hv; [done|]. case_decide as Hl; [done|].
  unfold identity_new. destruct (vec_from_slice CERT_MAX _) as [c|] eqn:Hc; simpl; [|done].
  destruct (vec_from_slice KEY_MAX _) as [k|] eqn:Hk; simpl; [|done]. intros [= <-].
  apply vec_from_slice_Some in Hc as [Hcl ->], Hk as [Hkl ->]. simpl in Hl.
  set (cl := u16_from_le c0 c1) in *. set (kl := u16_from_le k0 k1) in *.
  assert (is_u16 cl ∧ is_u16 kl) as [Hcu Hku] by (split; by apply u16_from_le_range).
  assert (length (take (Z.to_nat cl) storage) = Z.to_nat cl) as Hct by (rewrite length_take; lia).
  assert (take (Z.to_nat kl) (drop (Z.to_nat cl) storage) = drop (Z.to_nat cl) storage) as Hkt
    by (apply take_ge; rewrite length_drop; lia).
  assert (length (drop (Z.to_nat cl) storage) = Z.to_nat kl) as Hdl by (rewrite length_drop; lia).
  split; [|split; [done|]]; simpl; rewrite ?Hkt, ?Hct, ?Hdl; [|int_lia].
  unfold identity_bytes. simpl certificate_der. simpl private_key_der.
  rewrite Hct, Hdl, !Z2Nat.id by int_lia. unfold cl at 1, kl at 1.
  rewrite !u16_to_from_le, take_drop by done. rewrite Hv, <-Hm. done.
Qed.

(** The storage format is exact.  For identities of the declared sizes and
    byte strings within the storage bound, [encode] gives a string if and only
    if [decode] of that string gives the identity back: nothing is lost, and
    no other string decodes to the same identity. *)
Lemma identity_storage_exact (STORAGE_MAX : nat) (i : TlsIdentity) (bytes : list Z) :
  identity_fits i → Forall is_u8 bytes → (length bytes ≤ STORAGE_MAX)%nat →
  identity_encode STORAGE_MAX i = Ok bytes ↔ identity_decode bytes = Ok i.
Proof.
  intros Hi Hb Hlen. rewrite identity_encode_spec. split.
  - intros (-> & ? & ? & _). by apply identity_decode_bytes.
  - intros Hd. by destruct (identity_decode_Ok bytes i Hb Hd) as (-> & _ & ? & ?).
Qed.
End codec.

(** ** The fingerprint *)
Section fingerprint.
Context `{Heapless}.

Definition fingerprint_sha256 `{Sha2} (certificate_der : list Z) : list Z := sha256 certificate_der.

Definition hex_nibble (nibble : Z) : Ascii.ascii :=
  if decide (nibble ≤ 9) then Ascii.ascii_of_N (Z.to_N (48 + nibble))
  else Ascii.ascii_of_N (Z.to_N (65 + (nibble - 10))).

(** [let _ = out.push(c)] *)
Definition push_char (out : string) (c : Ascii.ascii) : string :=
  default out (string_push FINGERPRINT_HEX_LEN out c).

Definition push_hex_byte (out : string) (byte : Z) : string :=
  push_char (push_char out (hex_nibble (Z.shiftr byte 4))) (hex_nibble (Z.land byte 15)).

Fixpoint hex_loop (index : nat) (out : string) (bytes : list Z) : string :=
  match bytes with
  | [] => out
  | byte :: bytes =>
      let out := if decide (0 < index)%nat then push_char out ":"%char else out in
      hex_loop (S index) (push_hex_byte out byte) bytes
  end.

Definition fingerprint_hex (fingerprint : list Z) : string := hex_loop 0 EmptyString fingerprint.

Definition identity_fingerprint_hex `{Sha2} (i : TlsIdentity) : string :=
  fingerprint_hex (fingerprint_sha256 (certificate_der i)).

(** The text of one byte, and of the bytes from position [index] on. *)
Definition hex_byte (byte : Z) : list Ascii.ascii :=
  [hex_nibble (Z.shiftr byte 4); hex_nibble (Z.land byte 15)].

Fixpoint hex_text (index : nat) (bytes : list Z) : list Ascii.ascii :=
  match bytes with
  | [] => []
  | byte :: bytes =>
      (if decide (0 < index)%nat then [":"%char] else []) ++ hex_byte byte ++
      hex_text (S index) bytes
  end.

Local Abbreviation chars := String.list_ascii_of_string.

Lemma chars_push out c :
  (String.length out < FINGERPRINT_HEX_LEN)%nat → chars (push_char out c) = chars out ++ [c].
Proof.
  intros Hlen. unfold push_char. rewrite string_push_spec, decide_True by done. simpl.
  clear Hlen. induction out as [|d out IH]; [done|]. simpl. by f_equal.
Qed.

Lemma length_chars s : length (chars s) = String.length s.
Proof. induction s; simpl; congruence. Qed.

Lemma hex_loop_text index out bytes :
  (String.length out + length (hex_text index bytes) ≤ FINGERPRINT_HEX_LEN)%nat →
  chars (hex_loop index out bytes) = chars out ++ hex_text index bytes.
Proof.
  revert index out. induction bytes as [|b bytes IH]; intros index out Hlen;
    [by rewrite app_nil_r|]. cbn [hex_loop hex_text] in *. rewrite !length_app in Hlen.
  set (out1 := if decide _ then _ else out).
  assert (chars out1 = chars out ++ (if decide (0 < index)%nat then [":"%char] else [])) as H1.
  { unfold out1. case_decide; [|by rewrite app_nil_r]. apply chars_push. simpl in Hlen. lia. }
  assert (String.length out1 = String.length out +
    length (if decide (0 < index)%nat then [":"%char] else []))%nat as Hl1.
  { by rewrite <-!length_chars, H1, length_app. }
  unfold push_hex_byte. simpl length in Hlen. set (out2 := push_char out1 _).
  assert (chars out2 = chars out1 ++ [hex_nibble (Z.shiftr b 4)]) as H2 by (apply chars_push; lia).
  assert (String.length out2 = S (String.length out1)) as Hl2.
  { rewrite <-!length_chars, H2, length_app. simpl. lia. }
  set (out3 := push_char out2 _).
  assert (chars out3 = chars out2 ++ [hex_nibble (Z.land b 15)]) as H3 by (apply chars_push; lia).
  assert (String.length out3 = S (String.length out2)) as Hl3.
  { rewrite <-!length_chars, H3, length_app. simpl. lia. }
  rewrite IH by lia. rewrite H3, H2, H1. by rewrite <-!app_assoc.
Qed.

Lemma length_hex_text index bytes :
  length (hex_text index bytes) = (3 * length bytes - (if decide (index = 0) then
    (if decide (bytes = []) then 0 else 1) else 0))%nat.
Proof.
  revert index. induction bytes as [|b bytes IH]; intros index; cbn [hex_text].
  - by destruct index.
  - rewrite !length_app, IH. destruct index as [|index]; simpl; lia.
Qed.

Lemma hex_nibble_inj a b : 0 ≤ a < 16 → 0 ≤ b < 16 → hex_nibble a = hex_nibble b → a = b.
Proof.
  assert (Forall (λ a, Forall (λ b, hex_nibble a = hex_nibble b → a = b) (seqZ 0 16)) (seqZ 0 16))
    as Hall by (apply (bool_decide_unpack _); by vm_compute).
  intros Ha Hb. rewrite Forall_forall in Hall. specialize (Hall a). rewrite Forall_forall in Hall.
  apply Hall; apply elem_of_seqZ; lia.
Qed.

Lemma hex_byte_inj a b : is_u8 a → is_u8 b → hex_byte a = hex_byte b → a = b.
Proof.
  intros Ha Hb [= Hhi Hlo]. assert (∀ x, is_u8 x → 0 ≤ x / 16 < 16) as Hr.
  { intros x Hx. split; [apply Z.div_pos; int_lia|apply Z.div_lt_upper_bound; int_lia]. }
  rewrite !Z.shiftr_div_pow2 in Hhi by done. change 15 with (Z.ones 4) in Hlo.
  rewrite !Z.land_ones in Hlo by done. change (2 ^ 4) with 16 in *.
  apply hex_nibble_inj in Hhi, Hlo; auto using Z.mod_pos_bound with lia.
  pose proof (Z.div_mod a 16). pose proof (Z.div_mod b 16). lia.
Qed.

Lemma hex_text_inj index fp fp' :
  Forall is_u8 fp → Forall is_u8 fp' → length fp = length fp' →
  hex_text index fp = hex_text index fp' → fp = fp'.
Proof.
  intros Hfp. revert index fp'. induction Hfp as [|b fp Hb _ IH]; intros index [|b' fp'] Hfp' Hl Ht;
    try done. apply Forall_cons in Hfp' as [Hb' Hfp']. injection Hl as Hl. cbn [hex_text] in Ht.
  apply app_inv_head in Ht. injection Ht as H1 H2 Ht. f_equal; [|by eapply IH].
  apply hex_byte_inj; try done. unfold hex_byte. congruence.
Qed.

(** A fingerprint is printed in full.  The text of a 32-byte digest is
    exactly the 95 characters of its bytes in hexadecimal separated by colons
    (nothing is cut off by the fixed-size string), and two digests with the
    same text are the same digest. *)
Lemma fingerprint_hex_faithful (fp fp' : list Z) :
  Forall is_u8 fp → Forall is_u8 fp' → length fp = 32%nat → length fp' = 32%nat →
  String.list_ascii_of_string (fingerprint_hex fp) = hex_text 0 fp ∧
  String.length (fingerprint_hex fp) = 95%nat ∧
  (fingerprint_hex fp = fingerprint_hex fp' → fp = fp').
Proof.
  intros Hu Hu' Hl Hl'.
  assert (∀ f, length f = 32%nat → length (hex_text 0 f) = 95%nat ∧
    chars (fingerprint_hex f) = hex_text 0 f) as Hhex.
  { intros f Hf. assert (length (hex_text 0 f) = 95%nat) as Hlen.
    { rewrite length_hex_text, Hf. simpl. by rewrite decide_False by by destruct f. }
    split; [done|]. unfold fingerprint_hex. apply hex_loop_text. rewrite Hlen. done. }
  destruct (Hhex fp Hl) as [Hlen Htext], (Hhex fp' Hl') as [_ Htext'].
  split; [done|]. split; [by rewrite <-length_chars, Htext|].
  intros Heq. apply (hex_text_inj 0); congruence.
Qed.
End fingerprint.

(** ** Bootstrap

    The traits, with what a working store guarantees: it does not forget what
    it loaded, and it loads what it saved. *)
Class TlsIdentityStore (K Es : Type) := {
  ids_load : K → result Es (option TlsIdentity) * K;
  ids_save : TlsIdentity → K → result Es unit * K;
  ids_load_load s o s1 o' s2 :
    ids_load s = (Ok o, s1) → ids_load s1 = (Ok o', s2) → o' = o;
  ids_save_load i s s1 o s2 :
    ids_save i s = (Ok tt, s1) → ids_load s1 = (Ok o, s2) → o = Some i;
}.

Class TlsIdentityGenerator (G Eg : Type) := { idg_generate : G → result Eg TlsIdentity * G }.

Section bootstrap.
Context `{Sha2} `{TlsIdentityStore K Es} `{TlsIdentityGenerator G Eg}.

Definition bootstrapped (i : TlsIdentity) (generated : bool) : BootstrappedIdentity :=
  {| bi_identity := i; bi_fingerprint_sha256 := fingerprint_sha256 (certificate_der i);
     bi_generated := generated |}.

Definition ensure_tls_identity (store : K) (generator : G)
  : result (BootstrapError Es Eg) BootstrappedIdentity * K * G :=
  match ids_load store with
  | (Err e, store) => (Err (BootstrapLoad e), store, generator)
  | (Ok (Some identity), store) => (Ok (bootstrapped identity false), store, generator)
  | (Ok None, store) =>
      match idg_generate generator with
      | (Err e, generator) => (Err (BootstrapGenerate e), store, generator)
      | (Ok identity, generator) =>
          match ids_save identity store with
          | (Err e, store) => (Err (BootstrapSave e), store, generator)
          | (Ok _, store) => (Ok (bootstrapped identity true), store, generator)
          end
      end
  end.

(** The identity survives a reboot.  After a boot that obtained an
    identity, every later boot that obtains one obtains the same certificate,
    key and fingerprint, from the store, without generating or saving. *)
Lemma identity_is_stable (s s1 s2 : K) (g g1 g' g2 : G) (b b' : BootstrappedIdentity) :
  ensure_tls_identity s g = (Ok b, s1, g1) → ensure_tls_identity s1 g' = (Ok b', s2, g2) →
  bi_identity b' = bi_identity b ∧ bi_fingerprint_sha256 b' = bi_fingerprint_sha256 b ∧
  bi_generated b' = false ∧ g2 = g'.
Proof.
  intros Hb Hb'. assert (∀ o s2, ids_load s1 = (Ok o, s2) → o = Some (bi_identity b) ∧
    b = bootstrapped (bi_identity b) (bi_generated b)) as Hload.
  { unfold ensure_tls_identity in Hb. intros o s3 Ho.
    destruct (ids_load s) as [[[i|]|e] s0] eqn:Hl; [| |done].
    - injection Hb as <- <- <-. by rewrite (ids_load_load _ _ _ _ _ Hl Ho).
    - destruct (idg_generate g) as [[i|e] g0]; [|done].
      destruct (ids_save i s0) as [[[]|e] s4] eqn:Hs; [|done]. injection Hb as <- <- <-.
      by rewrite (ids_save_load _ _ _ _ _ Hs Ho). }
  unfold ensure_tls_identity in Hb'. destruct (ids_load s1) as [[o|e] s3]; [|done].
  destruct (Hload _ _ eq_refl) as [-> ->]. by injection Hb' as <- <- <-.
Qed.
End bootstrap.

(** ** The store and generator of the test suite *)
Record MockStore := {
  identity : option TlsIdentity;
  save_calls : nat;
  fail_load : bool;
  fail_save : bool;
}.

Definition mock_load (s : MockStore) : result string (option TlsIdentity) * MockStore :=
  if fail_load s then (Err "load failed", s) else (Ok (identity s), s).

Definition mock_save (i : TlsIdentity) (s : MockStore) : result string unit * MockStore :=
  if fail_save s then (Err "save failed", s)
  else (Ok tt, {| identity := Some i; save_calls := S (save_calls s); fail_load := fail_load s;
                  fail_save := fail_save s |}).

#[global] Instance mock_identity_store : TlsIdentityStore MockStore string.
Proof.
  refine {| ids_load := mock_load; ids_save := mock_save |}; unfold mock_load, mock_save.
  - intros s o s1 o' s2. destruct (fail_load s) eqn:Hf; intros [= <- <-]. rewrite Hf. congruence.
  - intros i s s1 o s2. destruct (fail_save s); intros [= <-]. simpl.
    destruct (fail_load s); congruence.
Defined.

Record MockGenerator := { gen_identity : TlsIdentity; gen_calls : nat; gen_fail : bool }.

Definition mock_generate (g : MockGenerator) : result string TlsIdentity * MockGenerator :=
  if gen_fail g then (Err "generate failed", g)
  else (Ok (gen_identity g),
        {| gen_identity := gen_identity g; gen_calls := S (gen_calls g); gen_fail := gen_fail g |}).

#[global] Instance mock_generator : TlsIdentityGenerator MockGenerator string :=
  {| idg_generate := mock_generate |}.

(** ** Examples *)
Definition ex_identity : TlsIdentity :=
  {| certificate_der := as_bytes "fake-cert-der"; private_key_der := as_bytes "fake-key-der" |}.

Lemma identity_storage_exact_witness :
  identity_encode 64 ex_identity = Ok (identity_bytes ex_identity) ↔
  identity_decode 128 64 (identity_bytes ex_identity) = Ok ex_identity.
Proof.
  apply (identity_storage_exact 128 64 64 ex_identity (identity_bytes ex_identity)).
  - split; apply Nat.leb_le; vm_compute; reflexivity.
  - repeat constructor; vm_compute; discriminate.
  - apply Nat.leb_le. vm_compute. reflexivity.
Defined.

Lemma fingerprint_hex_faithful_witness :
  String.list_ascii_of_string (fingerprint_hex (seqZ 0 32)) = hex_text 0 (seqZ 0 32) ∧
  String.length (fingerprint_hex (seqZ 0 32)) = 95%nat ∧
  (fingerprint_hex (seqZ 0 32) = fingerprint_hex (seqZ 1 32) → seqZ 0 32 = seqZ 1 32).
Proof.
  apply (fingerprint_hex_faithful (seqZ 0 32) (seqZ 1 32)); try reflexivity;
    repeat constructor; vm_compute; discriminate.
Defined.

Definition ex_store : MockStore :=
  {| identity := None; save_calls := 0; fail_load := false; fail_save := false |}.
Definition ex_generator : MockGenerator :=
  {| gen_identity := ex_identity; gen_calls := 0; gen_fail := false |}.
Definition ex_other_generator : MockGenerator :=
  {| gen_identity := {| certificate_der := [1]; private_key_der := [2] |}; gen_calls := 0;
     gen_fail := false |}.

(** A digest that is not SHA-256, only of the right size. *)
#[local] Instance ex_sha2 : Sha2.
Proof.
  refine {| sha256 bs := take 32 ((λ b, b mod 256) <$> bs ++ replicate 32 0) |}.
  - intros bs. rewrite length_take, length_fmap, length_app, length_replicate. lia.
  - intros bs. apply Forall_take, Forall_fmap, Forall_true. intros x. simpl.
    pose proof (Z.mod_pos_bound x 256). int_lia.
Defined.

Lemma identity_is_stable_witness :
  let '(_, s1, g1) := ensure_tls_identity ex_store ex_generator in
  bi_identity (bootstrapped ex_identity false) = bi_identity (bootstrapped ex_identity true) ∧
  bi_fingerprint_sha256 (bootstrapped ex_identity false) =
    bi_fingerprint_sha256 (bootstrapped ex_identity true) ∧
  bi_generated (bootstrapped ex_identity false) = false ∧
  (ensure_tls_identity s1 ex_other_generator).2 = ex_other_generator.
Proof.
  apply (identity_is_stable ex_store (ensure_tls_identity ex_store ex_generator).1.2
    (ensure_tls_identity ex_store ex_generator).1.2 ex_generator
    (ensure_tls_identity ex_store ex_generator).2 ex_other_generator ex_other_generator
    (bootstrapped ex_identity true) (bootstrapped ex_identity false)); vm_compute; reflexivity.
Defined.
End TlsIdentity.
