(* ===== verification/TlsPsk.v ===== *)
(** * TlsPsk: the TLS-PSK session ([tls/embedded_tls_psk.rs])

    The adapter that drives the server handshake, decrypts incoming records
    and encrypts outgoing data over any [Transport].  The TLS engine itself is
    another crate and stays a parameter.  The theorems: reads hand out the
    decrypted plaintext in order, once and completely; no application data
    passes in either direction before a client Finished has been verified; a
    waiting record is delivered whatever chunks it arrives in and however many
    dummy records precede it; the adapter meets the contract of [TlsSession],
    so what is proved of [TlsTransport] holds over it. *)

From S2P Require Import Prelude External Reference Transport Frame.

(** ** GatoPSKTLS

    The I/O-free engine: each call takes the record or the plaintext, and the
    length of the output buffer it may fill. *)
Inductive HandshakeOutput := FirstFlight (bytes : list Z) | HelloRetryRequest (bytes : list Z).

Inductive AlertLevel := Warning | Fatal.

Inductive AppDataOrAlert :=
| AppData (plaintext : list Z)
| Alert (level : AlertLevel) (description : Z).

Class GatoPskTls := {
  TlsError : Type;
  InsufficientSpace : TlsError;
  InvalidHandshake : TlsError;
  DheKeyShare : Type;
  TlsServerSession : Type;
  server_session_new : TlsServerSession;
  (** [process_client_hello hello (psk, server_random, dhe_keypair) out] *)
  process_client_hello : TlsServerSession → list Z →
    ((list Z * list Z) * list Z * option DheKeyShare) → nat →
    result TlsError HandshakeOutput * TlsServerSession;
  process_client_finished : TlsServerSession → list Z → result TlsError unit * TlsServerSession;
  decrypt_app_data_or_alert : TlsServerSession → list Z → nat →
    result TlsError AppDataOrAlert * TlsServerSession;
  encrypt_app_data : TlsServerSession → list Z → nat →
    result TlsError (list Z) * TlsServerSession;
  encrypt_alert : TlsServerSession → AlertLevel → Z → nat →
    result TlsError (list Z) * TlsServerSession;
}.

Module TlsPsk.

Definition RECORD_HEADER_LEN : nat := 5.
Definition TLS_CT_CHANGE_CIPHER_SPEC : Z := 20.
Definition TLS_CT_ALERT : Z := 21.
Definition TLS_CT_HANDSHAKE : Z := 22.
Definition TLS_CT_APPLICATION_DATA : Z := 23.
(** [AlertDescription::CloseNotify] *)
Definition CLOSE_NOTIFY : Z := 0.

Inductive SessionError (M E : Type) :=
| SessTransport (e : E)
| SessTls (e : M)
| SessEof
| RecordTooLarge (advertised capacity : nat)
| UnexpectedRecordType (ct : Z)
| HandshakeIncomplete
| Closed.
Arguments SessTransport {M E} e.
Arguments SessTls {M E} e.
Arguments SessEof {M E}.
Arguments RecordTooLarge {M E} advertised capacity.
Arguments UnexpectedRecordType {M E} ct.
Arguments HandshakeIncomplete {M E}.
Arguments Closed {M E}.

Section session.
Context `{GatoPskTls} `{Transport T E} (BUF : nat).

Record PskConfig := {
  pk_identity : list Z;
  pk_secret : list Z;
  pk_dhe_keypair : option DheKeyShare;
}.

(** [ps_record] is [record_buf[..record_len]], [ps_plain] is
    [plain_buf[..plain_len]].  [ps_sent] is a ghost: the plaintext [write] has
    taken so far. *)
Record PskSession := {
  ps_transport : T;
  ps_inner : TlsServerSession;
  ps_config : PskConfig;
  ps_server_random : list Z;
  ps_record : list Z;
  ps_plain : list Z;
  ps_plain_offset : nat;
  ps_handshake_done : bool;
  ps_closed : bool;
  ps_sent : list Z;
}.

Definition psk_new (transport : T) (config : PskConfig) (server_random : list Z) : PskSession := {|
  ps_transport := transport; ps_inner := server_session_new; ps_config := config;
  ps_server_random := server_random; ps_record := []; ps_plain := []; ps_plain_offset := 0;
  ps_handshake_done := false; ps_closed := false; ps_sent := [] |}.

Definition set_transport (s : PskSession) (t : T) : PskSession := {|
  ps_transport := t; ps_inner := ps_inner s; ps_config := ps_config s;
  ps_server_random := ps_server_random s; ps_record := ps_record s; ps_plain := ps_plain s;
  ps_plain_offset := ps_plain_offset s; ps_handshake_done := ps_handshake_done s;
  ps_closed := ps_closed s; ps_sent := ps_sent s |}.
Definition set_inner (s : PskSession) (i : TlsServerSession) : PskSession := {|
  ps_transport := ps_transport s; ps_inner := i; ps_config := ps_config s;
  ps_server_random := ps_server_random s; ps_record := ps_record s; ps_plain := ps_plain s;
  ps_plain_offset := ps_plain_offset s; ps_handshake_done := ps_handshake_done s;
  ps_closed := ps_closed s; ps_sent := ps_sent s |}.
Definition set_record (s : PskSession) (r : list Z) : PskSession := {|
  ps_transport := ps_transport s; ps_inner := ps_inner s; ps_config := ps_config s;
  ps_server_random := ps_server_random s; ps_record := r; ps_plain := ps_plain s;
  ps_plain_offset := ps_plain_offset s; ps_handshake_done := ps_handshake_done s;
  ps_closed := ps_closed s; ps_sent := ps_sent s |}.
Definition set_plain (s : PskSession) (p : list Z) (offset : nat) : PskSession := {|
  ps_transport := ps_transport s; ps_inner := ps_inner s; ps_config := ps_config s;
  ps_server_random := ps_server_random s; ps_record := ps_record s; ps_plain := p;
  ps_plain_offset := offset; ps_handshake_done := ps_handshake_done s;
  ps_closed := ps_closed s; ps_sent := ps_sent s |}.
Definition set_done (s : PskSession) : PskSession := {|
  ps_transport := ps_transport s; ps_inner := ps_inner s; ps_config := ps_config s;
  ps_server_random := ps_server_random s; ps_record := ps_record s; ps_plain := ps_plain s;
  ps_plain_offset := ps_plain_offset s; ps_handshake_done := true;
  ps_closed := ps_closed s; ps_sent := ps_sent s |}.
Definition set_closed (s : PskSession) : PskSession := {|
  ps_transport := ps_transport s; ps_inner := ps_inner s; ps_config := ps_config s;
  ps_server_random := ps_server_random s; ps_record := ps_record s; ps_plain := ps_plain s;
  ps_plain_offset := ps_plain_offset s; ps_handshake_done := ps_handshake_done s;
  ps_closed := true; ps_sent := ps_sent s |}.
Definition set_sent (s : PskSession) (bs : list Z) : PskSession := {|
  ps_transport := ps_transport s; ps_inner := ps_inner s; ps_config := ps_config s;
  ps_server_random := ps_server_random s; ps_record := ps_record s; ps_plain := ps_plain s;
  ps_plain_offset := ps_plain_offset s; ps_handshake_done := ps_handshake_done s;
  ps_closed := ps_closed s; ps_sent := bs |}.

Local Abbreviation error := (SessionError TlsError E).
Local Abbreviation psk := (prog PskSession error).

(** ** Calls on the two fields *)
Definition on_inner {A} (f : TlsServerSession → result TlsError A * TlsServerSession) : psk A :=
  λ s, let '(r, i) := f (ps_inner s) in (Done (map_err SessTls r), set_inner s i).

Definition psk_send (bytes : list Z) : psk unit :=
  λ s, let '(r, t) := t_write (ps_transport s) bytes in
       (Done (map_err SessTransport r), set_transport s t).

(** ** Reading records

    The loop of [read_exact_into], on the bytes still missing; every round
    that goes on has read a byte, so [n] rounds are enough. *)
Fixpoint fill (fuel n : nat) (acc : list Z) (t : T) : outcome (result error (list Z)) * T :=
  match n with
  | O => (Done (Ok acc), t)
  | S _ =>
      match fuel with
      | O => (Pending, t)
      | S fuel =>
          match t_read t n with
          | (None, t) => (Pending, t)
          | (Some (Err e), t) => (Done (Err (SessTransport e)), t)
          | (Some (Ok bs), t) =>
              if decide (length bs = 0%nat) then (Done (Err SessEof), t)
              else fill fuel (n - length bs) (acc ++ bs) t
          end
      end
  end.

Definition read_exact_into (start len : nat) : psk (list Z) := λ s,
  if decide (BUF < start + len)%nat then (Done (Err (RecordTooLarge (start + len) BUF)), s)
  else let '(r, t) := fill len len [] (ps_transport s) in (r, set_transport s t).

Definition body_length (header : list Z) : nat :=
  Z.to_nat (256 * default 0 (header !! 3%nat) + default 0 (header !! 4%nat)).

Definition fetch_record : psk unit :=
  io_bind (read_exact_into 0 RECORD_HEADER_LEN) (λ header,
  let body_len := body_length header in
  let total := (RECORD_HEADER_LEN + body_len)%nat in
  if decide (BUF < total)%nat then io_fail (RecordTooLarge total BUF)
  else io_bind (read_exact_into RECORD_HEADER_LEN body_len) (λ body s,
         (Done (Ok tt), set_record s (header ++ body)))).

Definition record_type (s : PskSession) : Z := default 0 (ps_record s !! 0%nat).

(** [loop { fetch_record; match record_type { CCS => continue, ... } }]: the
    type of the first record that is not a dummy.  The peer decides how many
    rounds this takes; [fuel] is how many the executor has run, and a loop
    that is still running is [Pending]. *)
Fixpoint next_record (fuel : nat) : psk Z :=
  match fuel with
  | O => λ s, (Pending, s)
  | S fuel =>
      io_bind fetch_record (λ _ s,
        if decide (record_type s = TLS_CT_CHANGE_CIPHER_SPEC) then next_record fuel s
        else (Done (Ok (record_type s)), s))
  end.

Definition expect (want ct : Z) : psk unit :=
  if decide (ct = want) then io_ret tt else io_fail (UnexpectedRecordType ct).

(** ** The handshake *)
Definition client_hello : psk HandshakeOutput := λ s,
  on_inner (λ i, process_client_hello i (drop RECORD_HEADER_LEN (ps_record s))
    ((pk_identity (ps_config s), pk_secret (ps_config s)), ps_server_random s,
     pk_dhe_keypair (ps_config s)) BUF) s.

Definition do_accept (fuel : nat) : psk unit :=
  io_bind fetch_record (λ _,
  io_bind (λ s, expect TLS_CT_HANDSHAKE (record_type s) s) (λ _,
  io_bind client_hello (λ out,
  io_bind (match out with
           | FirstFlight bytes => io_ret bytes
           | HelloRetryRequest bytes =>
               io_bind (psk_send bytes) (λ _,
               io_bind (next_record fuel) (λ ct,
               io_bind (expect TLS_CT_HANDSHAKE ct) (λ _,
               io_bind client_hello (λ out,
               match out with
               | FirstFlight bytes => io_ret bytes
               | HelloRetryRequest _ => io_fail (SessTls InvalidHandshake)
               end))))
           end) (λ flight,
  io_bind (psk_send flight) (λ _,
  io_bind (next_record fuel) (λ ct,
  io_bind (expect TLS_CT_APPLICATION_DATA ct) (λ _,
  io_bind (λ s, on_inner (λ i, process_client_finished i (ps_record s)) s) (λ _ s,
  (Done (Ok tt), set_done s))))))))).

Definition psk_accept (fuel : nat) : psk unit := λ s,
  if ps_handshake_done s then (Done (Ok tt), s) else do_accept fuel s.

(** ** Application data *)
Definition refill_plaintext (fuel : nat) : psk unit :=
  io_bind (next_record fuel) (λ ct s,
  if decide (ct = TLS_CT_APPLICATION_DATA) then
    io_bind (λ s, on_inner (λ i, decrypt_app_data_or_alert i (ps_record s) BUF) s) (λ data s,
      match data with
      | AppData plaintext => (Done (Ok tt), set_plain s plaintext 0)
      | Alert _ _ => (Done (Err Closed), set_closed s)
      end) s
  else if decide (ct = TLS_CT_ALERT) then (Done (Err Closed), set_closed s)
  else (Done (Err (UnexpectedRecordType ct)), s)).

(** The tail of [read]: hand out what is buffered. *)
Definition hand_out (n : nat) : psk (list Z) := λ s,
  let available := (length (ps_plain s) - ps_plain_offset s)%nat in
  let n := Nat.min n available in
  (Done (Ok (take n (drop (ps_plain_offset s) (ps_plain s)))),
   set_plain s (ps_plain s) (ps_plain_offset s + n)).

Definition psk_read (fuel n : nat) : psk (list Z) := λ s,
  if negb (ps_handshake_done s) then (Done (Err HandshakeIncomplete), s)
  else if ps_closed s then (Done (Ok []), s)
  else if decide (length (ps_plain s) ≤ ps_plain_offset s)%nat then
    match refill_plaintext fuel s with
    | (Done (Ok _), s) => hand_out n s
    | (Done (Err Closed), s) | (Done (Err SessEof), s) => (Done (Ok []), s)
    | (Done (Err other), s) => (Done (Err other), s)
    | (Pending, s) => (Pending, s)
    | (Panic, s) => (Panic, s)
    end
  else hand_out n s.

Definition psk_write (buf : list Z) : psk nat := λ s,
  if negb (ps_handshake_done s) then (Done (Err HandshakeIncomplete), s)
  else if ps_closed s then (Done (Err Closed), s)
  else
    let max_chunk := (BUF - (RECORD_HEADER_LEN + 1 + 16))%nat in
    let chunk := Nat.min (length buf) max_chunk in
    if decide (chunk = 0%nat) then (Done (Err (SessTls InsufficientSpace)), s)
    else
      io_bind (on_inner (λ i, encrypt_app_data i (take chunk buf) BUF)) (λ record,
      io_bind (psk_send record) (λ _ s,
      (Done (Ok chunk), set_sent s (ps_sent s ++ take chunk buf)))) s.

Definition psk_flush : psk unit := io_ret tt.

Definition psk_close (s : PskSession) : PskSession :=
  if ps_closed s then s
  else
    let s := set_closed s in
    if negb (ps_handshake_done s) then set_transport s (t_close (ps_transport s))
    else
      let s := match on_inner (λ i, encrypt_alert i Warning CLOSE_NOTIFY BUF) s with
               | (Done (Ok record), s) => (psk_send record s).2
               | (_, s) => s
               end in
      set_transport s (t_close (ps_transport s)).

(** ** What the record layer leaves alone *)
Definition keeps (s s' : PskSession) : Prop :=
  ps_plain s' = ps_plain s ∧ ps_plain_offset s' = ps_plain_offset s ∧
  ps_handshake_done s' = ps_handshake_done s ∧ ps_closed s' = ps_closed s ∧
  ps_sent s' = ps_sent s ∧ ps_inner s' = ps_inner s.

#[local] Instance keeps_refl : Reflexive keeps.
Proof. done. Qed.
#[local] Instance keeps_trans : Transitive keeps.
Proof.
  unfold keeps. intros s1 s2 s3 (-> & -> & -> & -> & -> & ->) (-> & -> & -> & -> & -> & ->).
  done.
Qed.

Lemma send_keeps bytes s : keeps s (psk_send bytes s).2.
Proof. unfold psk_send. by destruct (t_write (ps_transport s) bytes). Qed.

Lemma read_exact_keeps a n s : keeps s (read_exact_into a n s).2.
Proof. unfold read_exact_into. case_decide; [done|]. by destruct (fill n n [] (ps_transport s)). Qed.

Lemma fetch_keeps s : keeps s (fetch_record s).2.
Proof.
  apply (io_bind_rel keeps); [apply read_exact_keeps|]. intros h s1. cbv zeta.
  case_decide; [done|].
  apply (io_bind_rel keeps); [apply read_exact_keeps|]. done.
Qed.

Lemma next_record_keeps fuel s : keeps s (next_record fuel s).2.
Proof.
  revert s. induction fuel as [|fuel IH]; intros s; [done|].
  apply (io_bind_rel keeps); [apply fetch_keeps|]. intros _ s1. case_decide; [apply IH|done].
Qed.

(** The record layer never panics. *)
Lemma fill_no_panic fuel n acc t : (fill fuel n acc t).1 ≠ Panic.
Proof.
  revert n acc t. induction fuel as [|fuel IH]; intros [|n] acc t; try done. cbn [fill].
  destruct (t_read t (S n)) as [[[bs|e]|] t']; try done. case_decide; [done|apply IH].
Qed.

Lemma fetch_no_panic s : (fetch_record s).1 ≠ Panic.
Proof.
  assert (∀ a n s0, (read_exact_into a n s0).1 ≠ Panic) as Hr.
  { intros a n s0. unfold read_exact_into. case_decide; [done|].
    pose proof (fill_no_panic n n [] (ps_transport s0)). by destruct (fill n n [] (ps_transport s0)). }
  apply io_bind_no_panic; [apply Hr|]. intros h s1 _. cbv zeta. case_decide; [done|].
  by apply io_bind_no_panic.
Qed.

Lemma next_record_no_panic fuel s : (next_record fuel s).1 ≠ Panic.
Proof.
  revert s. induction fuel as [|fuel IH]; intros s; [done|].
  apply io_bind_no_panic; [apply fetch_no_panic|]. intros _ s1 _. case_decide; [apply IH|done].
Qed.

(** ** Reading *)
Definition unread (s : PskSession) : list Z := drop (ps_plain_offset s) (ps_plain s).

Lemma hand_out_spec n s :
  ∃ s', hand_out n s = (Done (Ok (take n (unread s))), s') ∧ unread s' = drop n (unread s) ∧
    ps_record s' = ps_record s ∧ ps_transport s' = ps_transport s ∧ ps_inner s' = ps_inner s ∧
    ps_handshake_done s' = ps_handshake_done s ∧ ps_closed s' = ps_closed s.
Proof.
  unfold hand_out, unread. rewrite <-length_drop, take_min_length. eexists. split; [done|].
  split; [|done]. simpl. by rewrite <-drop_drop, drop_min_length.
Qed.

(** What one call of [refill_plaintext] can do. *)
Lemma refill_cases fuel s :
  match refill_plaintext fuel s with
  | (Done (Ok _), s') => ps_plain_offset s' = 0%nat ∧
      ∃ i i', decrypt_app_data_or_alert i (ps_record s') BUF = (Ok (AppData (ps_plain s')), i')
  | (Panic, _) => False
  | (_, s') => unread s' = unread s
  end.
Proof.
  unfold refill_plaintext. unfold io_bind at 1. pose proof (next_record_keeps fuel s) as Hk.
  pose proof (next_record_no_panic fuel s) as Hp.
  destruct Hk as (Hpl & Ho & _). unfold unread.
  destruct (next_record fuel s) as [[[ct|e]| |] s1]; simpl in *;
    [|by rewrite Hpl, Ho..|by destruct Hp].
  case_decide; [|case_decide; simpl; by rewrite Hpl, Ho]. unfold io_bind, on_inner.
  destruct (decrypt_app_data_or_alert (ps_inner s1) (ps_record s1) BUF) as [[[p|l d]|e] i] eqn:Hd;
    simpl; [eauto|by rewrite Hpl, Ho..].
Qed.

(** Reads deliver the plaintext in order, once and completely.  What a
    [read] returns, followed by what stays buffered, is what was buffered
    before followed by the plaintext of at most one record, fetched and
    decrypted only when nothing was left; it never exceeds the caller's
    buffer, never happens before the handshake, and a read that fails or is
    dropped leaves the buffer alone. *)
Lemma psk_read_faithful (fuel n : nat) (s : PskSession) :
  let '(r, s') := psk_read fuel n s in
  match r with
  | Done (Ok bs) =>
      ps_handshake_done s = true ∧ (length bs ≤ n)%nat ∧
      (ps_closed s = false → unread s ≠ [] → bs = take n (unread s)) ∧
      ∃ fresh, bs ++ unread s' = unread s ++ fresh ∧
        (fresh = [] ∨ unread s = [] ∧ ∃ i i',
           decrypt_app_data_or_alert i (ps_record s') BUF = (Ok (AppData fresh), i'))
  | Done (Err _) | Pending => unread s' = unread s
  | Panic => False
  end.
Proof.
  assert (∀ s0, let '(r, s') := hand_out n s0 in
    r = Done (Ok (take n (unread s0))) ∧ unread s' = drop n (unread s0) ∧
    ps_record s' = ps_record s0) as Hout.
  { intros s0. destruct (hand_out_spec n s0) as (s' & -> & ? & ? & _). done. }
  unfold psk_read. destruct (ps_handshake_done s) eqn:Hdone; simpl; [|done].
  destruct (ps_closed s) eqn:Hcl; simpl.
  { split; [done|]. split; [lia|]. split; [done|]. exists []. rewrite app_nil_r. auto. }
  destruct (decide (length (ps_plain s) ≤ ps_plain_offset s)%nat) as [Hempty|Hne].
  - assert (unread s = []) as Hnil by by apply drop_ge. pose proof (refill_cases fuel s) as Hre.
    destruct (refill_plaintext fuel s) as [[[[]|[]]| |] s1]; rewrite ?Hnil in *; try done;
      try (split; [done|]; split; [simpl; lia|]; split; [done|]; exists []; by rewrite Hre; auto).
    destruct Hre as [Ho (i & i' & Hd)]. specialize (Hout s1).
    assert (unread s1 = ps_plain s1) as Hun by (unfold unread; by rewrite Ho).
    destruct (hand_out n s1) as [r s2]. destruct Hout as (-> & Hu & Hrec).
    split; [done|]. rewrite length_take. split; [lia|]. split; [done|].
    exists (unread s1). rewrite Hu, take_drop. split; [done|]. right. split; [done|].
    exists i, i'. by rewrite Hrec, Hun.
  - specialize (Hout s). destruct (hand_out n s) as [r s2]. destruct Hout as (-> & Hu & _).
    split; [done|]. rewrite length_take. split; [lia|]. split; [done|].
    exists []. rewrite Hu, take_drop, app_nil_r. auto.
Qed.

(** ** Writing *)
Lemma psk_write_cases buf s :
  match psk_write buf s with
  | (Done (Ok n), s') =>
      ps_handshake_done s = true ∧ (n ≤ length buf)%nat ∧ n ≠ 0%nat ∧
      ps_sent s' = ps_sent s ++ take n buf ∧ ps_handshake_done s' = ps_handshake_done s
  | (Done (Err _), s') =>
      ps_sent s' = ps_sent s ∧ ps_handshake_done s' = ps_handshake_done s
  | _ => False
  end.
Proof.
  unfold psk_write. destruct (ps_handshake_done s) eqn:Hd; simpl; [|done].
  destruct (ps_closed s); [done|]. case_decide as Hc; [done|].
  unfold io_bind, on_inner, psk_send.
  destruct (encrypt_app_data _ _ _) as [[record|e] i]; simpl; [|done].
  destruct (t_write _ record) as [[u|e] t']; simpl; [|done]. split_and!; try done. lia.
Qed.

Lemma psk_read_bound fuel n s bs s' :
  psk_read fuel n s = (Done (Ok bs), s') → (length bs ≤ n)%nat.
Proof.
  assert (∀ s0, hand_out n s0 = (Done (Ok bs), s') → (length bs ≤ n)%nat) as Hout.
  { intros s0. destruct (hand_out_spec n s0) as (s1 & -> & _). intros [= <- <-].
    rewrite length_take. lia. }
  unfold psk_read. destruct (ps_handshake_done s); simpl; [|done].
  destruct (ps_closed s); [intros [= <- <-]; simpl; lia|]. case_decide; [|apply Hout].
  destruct (refill_plaintext fuel s) as [[[[]|[]]| |] s1]; try done; try apply Hout;
    intros [= <- <-]; simpl; lia.
Qed.

(** ** The contract of [TlsSession]

    A write always completes ([psk_write_cases]); an accept or a read is
    [None] while it is pending. *)
Definition completed {A} (r : outcome (result error A)) : option (result error A) :=
  match r with Done r => Some r | _ => None end.

#[global] Instance psk_writer : PartialWriter PskSession error.
Proof.
  refine {| pw_write s buf := let '(r, s') := psk_write buf s in
                              (default (Err HandshakeIncomplete) (completed r), s');
            sent := ps_sent |}.
  - intros s bs n s'. pose proof (psk_write_cases bs s) as Hw.
    destruct (psk_write bs s) as [[[m|e]| |] s1]; try done. intros [= <- <-]. naive_solver.
  - intros s bs e s'. pose proof (psk_write_cases bs s) as Hw.
    destruct (psk_write bs s) as [[[m|e']| |] s1]; try done. intros [= <- <-]. naive_solver.
Defined.

Definition psk_session (fuel : nat) : TlsSession PskSession error.
Proof.
  refine {| tls_writer := psk_writer;
            tls_accept s := let '(r, s') := psk_accept fuel s in (completed r, s');
            tls_read s n := let '(r, s') := psk_read fuel n s in (completed r, s');
            tls_flush s := let '(r, s') := psk_flush s in
                           (default (Ok tt) (completed r), s');
            tls_close := psk_close |}.
  - intros s n bs s'. destruct (psk_read fuel n s) as [[[bs'|e]| |] s1] eqn:Hr; intros [= <- <-].
    by eapply psk_read_bound.
  - done.
Defined.

(** ** Before the handshake

    The calls a client of the session can make, in any order, with the bytes
    that reads have delivered so far. *)
Inductive psk_op := OpAccept (fuel : nat) | OpRead (fuel n : nat) | OpWrite (buf : list Z) | OpClose.

Definition psk_step (st : PskSession * list Z) (op : psk_op) : PskSession * list Z :=
  let '(s, delivered) := st in
  match op with
  | OpAccept fuel => ((psk_accept fuel s).2, delivered)
  | OpRead fuel n =>
      match psk_read fuel n s with
      | (Done (Ok bs), s') => (s', delivered ++ bs)
      | (_, s') => (s', delivered)
      end
  | OpWrite buf => ((psk_write buf s).2, delivered)
  | OpClose => (psk_close s, delivered)
  end.

Definition psk_run (s : PskSession) (ops : list psk_op) : PskSession * list Z :=
  foldl psk_step (s, []) ops.

Section locked.
Context (P : TlsServerSession → Prop).
Context (P_hello : ∀ i hello cfg n, P i → P (process_client_hello i hello cfg n).2).
Context (P_finished : ∀ i record, P i →
  (process_client_finished i record).1 ≠ Ok tt ∧ P (process_client_finished i record).2).

(** The session has not authenticated its peer. *)
Definition locked (s : PskSession) : Prop :=
  P (ps_inner s) ∧ ps_handshake_done s = false ∧ ps_sent s = [].

Definition stays_locked (s s' : PskSession) : Prop := locked s → locked s'.
#[local] Instance stays_locked_trans : Transitive stays_locked.
Proof. intros s1 s2 s3 H12 H23 H1. auto. Qed.

Lemma keeps_locked s s' : keeps s s' → stays_locked s s'.
Proof.
  intros (_ & _ & Hd & _ & Hs & Hi) (Hp & Hdone & Hsent). unfold locked. by rewrite Hi, Hd, Hs.
Qed.

Lemma client_hello_locked s : stays_locked s (client_hello s).2.
Proof.
  intros (Hp & Hd & Hs). unfold client_hello, on_inner.
  pose proof (P_hello _ (drop RECORD_HEADER_LEN (ps_record s))
    ((pk_identity (ps_config s), pk_secret (ps_config s)), ps_server_random s,
     pk_dhe_keypair (ps_config s)) BUF Hp) as Hp'.
  by destruct (process_client_hello _ _ _ _) as [r i].
Qed.

Lemma finish_locked s :
  stays_locked s (io_bind (λ s, on_inner (λ i, process_client_finished i (ps_record s)) s)
    (λ _ s, (Done (Ok tt), set_done s)) s).2.
Proof.
  intros (Hp & Hd & Hs). destruct (P_finished _ (ps_record s) Hp) as [Hno Hp'].
  unfold io_bind, on_inner. by destruct (process_client_finished _ _) as [[[]|e] i].
Qed.

Lemma next_record_locked fuel s : stays_locked s (next_record fuel s).2.
Proof. apply keeps_locked, next_record_keeps. Qed.

Lemma expect_locked want ct s : stays_locked s (expect want ct s).2.
Proof. unfold expect. case_decide; intros Hl; exact Hl. Qed.

Lemma send_locked bytes s : stays_locked s (psk_send bytes s).2.
Proof. apply keeps_locked, send_keeps. Qed.

Lemma do_accept_locked fuel s : stays_locked s (do_accept fuel s).2.
Proof.
  unfold do_accept.
  apply (io_bind_rel stays_locked); [apply keeps_locked, fetch_keeps|intros _ s1].
  apply (io_bind_rel stays_locked); [apply expect_locked|intros _ s2].
  apply (io_bind_rel stays_locked); [apply client_hello_locked|intros out s3].
  apply (io_bind_rel stays_locked); [ |intros flight s4].
  { destruct out as [bytes|bytes]; [by intros ?|].
    apply (io_bind_rel stays_locked); [apply send_locked|intros _ s5].
    apply (io_bind_rel stays_locked); [apply next_record_locked|intros ct s6].
    apply (io_bind_rel stays_locked); [apply expect_locked|intros _ s7].
    apply (io_bind_rel stays_locked); [apply client_hello_locked|intros [] s8; by intros ?]. }
  apply (io_bind_rel stays_locked); [apply send_locked|intros _ s5].
  apply (io_bind_rel stays_locked); [apply next_record_locked|intros ct s6].
  apply (io_bind_rel stays_locked); [apply expect_locked|intros _ s7]. apply finish_locked.
Qed.

Lemma psk_step_locked s delivered op :
  locked s → locked (psk_step (s, delivered) op).1 ∧ (psk_step (s, delivered) op).2 = delivered.
Proof.
  intros Hl. pose proof Hl as (Hp & Hd & Hs). destruct op as [fuel|fuel n|buf|]; simpl.
  - unfold psk_accept. rewrite Hd. split; [by apply do_accept_locked|done].
  - unfold psk_read. rewrite Hd. by split.
  - unfold psk_write. rewrite Hd. by split.
  - unfold psk_close. destruct (ps_closed s); [by split|]. simpl. rewrite Hd. by split.
Qed.

(** C33: no data without a verified peer.  If the engine never verifies a
    client Finished (for any invariant of its handshake states that excludes
    it), then whatever calls are made in whatever order, the session stays in
    the handshake, reads deliver nothing and writes take nothing. *)
Theorem no_data_before_handshake (t : T) (config : PskConfig) (server_random : list Z)
  (ops : list psk_op) :
  P server_session_new →
  let '(s, delivered) := psk_run (psk_new t config server_random) ops in
  ps_handshake_done s = false ∧ ps_sent s = [] ∧ delivered = [].
Proof.
  intros Hnew. assert (locked (psk_new t config server_random)) as Hl by done. unfold psk_run.
  revert Hl. generalize (psk_new t config server_random) as s0.
  induction ops as [|op ops IH]; intros s0 Hl; cbn [foldl]; [by destruct Hl as (_ & ? & ?)|].
  destruct (psk_step_locked s0 [] op Hl) as [Hl' Hdel].
  destruct (psk_step (s0, []) op) as [s1 d]. simpl in *. rewrite Hdel. by apply IH.
Qed.
End locked.
End session.

(** ** Records in a byte stream *)
Definition tls_record (ct : Z) (body : list Z) : list Z :=
  [ct; 3; 3; Z.of_nat (length body) / 256; Z.of_nat (length body) mod 256] ++ body.

Section delivery.
Context `{GatoPskTls} `{Link T E link} (BUF : nat).
Local Abbreviation session := (PskSession (T := T)).

Lemma fill_link m bs rest out t acc :
  length bs = m → link t (bs ++ rest) out →
  ∃ t', fill m m acc t = (Done (Ok (acc ++ bs)), t') ∧ link t' rest out.
Proof.
  enough (∀ fuel m bs t acc, (m ≤ fuel)%nat → length bs = m → link t (bs ++ rest) out →
    ∃ t', fill fuel m acc t = (Done (Ok (acc ++ bs)), t') ∧ link t' rest out) as Hgen by eauto.
  clear m bs t acc. induction fuel as [|fuel IH]; intros m bs t acc Hf Hm Hst.
  { assert (m = 0%nat) as -> by lia. destruct bs; [|done]. rewrite app_nil_r. exists t. done. }
  destruct m as [|m]; [destruct bs; [|done]; rewrite app_nil_r; exists t; done|].
  destruct (link_read t (bs ++ rest) out (S m) Hst)
    as (k & t' & Hk & _ & Hr & Hst'); [by destruct bs|done|].
  cbn [fill]. rewrite Hr.
  rewrite take_app_le by lia. rewrite drop_app_le in Hst' by lia.
  assert (length (take k bs) = k) as Hlen by (rewrite length_take; lia).
  rewrite decide_False by lia. rewrite Hlen.
  destruct (IH (S m - k)%nat (drop k bs) t' (acc ++ take k bs)) as (t'' & Heq & Hst''); try done.
  - lia.
  - rewrite length_drop. lia.
  - exists t''. by rewrite Heq, <-app_assoc, take_drop.
Qed.

Definition fits (body : list Z) : Prop :=
  Z.of_nat (length body) ≤ U16_MAX ∧ (5 + length body ≤ BUF)%nat.

(** A record that fits the buffer is fetched whole, whatever the chunks. *)
Lemma fetch_link (s : session) ct body rest out :
  Z.of_nat (length body) ≤ U16_MAX → (5 + length body ≤ BUF)%nat →
  link (ps_transport s) (tls_record ct body ++ rest) out →
  ∃ t', fetch_record BUF s = (Done (Ok tt), set_record (set_transport s t') (tls_record ct body)) ∧
        link t' rest out.
Proof.
  intros Hlen Hbuf Hst. unfold tls_record in Hst. rewrite <-app_assoc in Hst.
  set (header := [ct; 3; 3; Z.of_nat (length body) / 256; Z.of_nat (length body) mod 256]) in *.
  destruct (fill_link 5 header (body ++ rest) out _ [] eq_refl Hst) as (t1 & Hf1 & Hst1).
  destruct (fill_link (length body) body rest out t1 [] eq_refl Hst1) as (t2 & Hf2 & Hst2).
  assert (body_length header = length body) as Hbl.
  { unfold body_length. simpl. rewrite <-Z.div_mod by lia. lia. }
  exists t2. split; [|done]. unfold fetch_record.
  rewrite (io_bind_ok _ _ s (set_transport s t1) header).
  2:{ unfold read_exact_into, RECORD_HEADER_LEN. rewrite decide_False by lia. by rewrite Hf1. }
  cbv zeta. rewrite Hbl. unfold RECORD_HEADER_LEN. rewrite decide_False by lia.
  rewrite (io_bind_ok _ _ _ (set_transport s t2) body); [done|].
  unfold read_exact_into. rewrite decide_False by lia. simpl. by rewrite Hf2.
Qed.

Lemma next_record_link fuel (s : session) dummies ct body rest out :
  (length dummies < fuel)%nat → ct ≠ TLS_CT_CHANGE_CIPHER_SPEC →
  Forall fits (body :: dummies) →
  link (ps_transport s)
    ((dummies ≫= tls_record TLS_CT_CHANGE_CIPHER_SPEC) ++ tls_record ct body ++ rest) out →
  ∃ t', next_record BUF fuel s =
          (Done (Ok ct), set_record (set_transport s t') (tls_record ct body)) ∧
        link t' rest out.
Proof.
  intros Hf Hct [[Hb Hb'] Hds]%Forall_cons. revert fuel s Hf.
  induction Hds as [|d ds [Hd Hd'] _ IH]; intros [|fuel] s Hf Hst; try (simpl in Hf; lia);
    cbn [next_record].
  - destruct (fetch_link s ct body rest out Hb Hb' Hst) as (t1 & Hf1 & Hst1). exists t1.
    split; [|done]. rewrite (io_bind_ok _ _ _ _ _ Hf1). by rewrite decide_False.
  - rewrite bind_cons, <-app_assoc in Hst.
    destruct (fetch_link s TLS_CT_CHANGE_CIPHER_SPEC d _ out Hd Hd' Hst) as (t1 & Hf1 & Hst1).
    rewrite (io_bind_ok _ _ _ _ _ Hf1). rewrite decide_True by done.
    destruct (IH fuel (set_record (set_transport s t1) (tls_record TLS_CT_CHANGE_CIPHER_SPEC d)))
      as (t2 & Hn & Hst2); [simpl in Hf; lia|done|]. exists t2. by rewrite Hn.
Qed.

(** A session past its handshake, with nothing left of earlier records. *)
Definition at_record (s : session) : Prop :=
  ps_handshake_done s = true ∧ ps_closed s = false ∧ unread s = [].

(** A waiting record is delivered.  If a working connection holds any
    number of dummy ChangeCipherSpec records followed by an application-data
    record that fits the buffer, in whatever pieces they arrive, a [read] that
    runs as many rounds decrypts exactly that record, returns the first [n]
    bytes of its plaintext, keeps the others for the next call and leaves
    exactly the bytes after the record on the transport. *)
Lemma psk_read_delivers fuel n (s : session) dummies body rest plain i out :
  at_record s → (length dummies < fuel)%nat → Forall fits (body :: dummies) →
  link (ps_transport s)
    ((dummies ≫= tls_record TLS_CT_CHANGE_CIPHER_SPEC) ++
     tls_record TLS_CT_APPLICATION_DATA body ++ rest) out →
  decrypt_app_data_or_alert (ps_inner s) (tls_record TLS_CT_APPLICATION_DATA body) BUF =
    (Ok (AppData plain), i) →
  ∃ s', psk_read BUF fuel n s = (Done (Ok (take n plain)), s') ∧ unread s' = drop n plain ∧
        link (ps_transport s') rest out ∧ ps_inner s' = i ∧
        ps_handshake_done s' = true ∧ ps_closed s' = false.
Proof.
  intros (Hdone & Hcl & Hun) Hf Hfit Hst Hdec.
  destruct (next_record_link fuel s dummies TLS_CT_APPLICATION_DATA body rest out Hf)
    as (t' & Hn & Hst'); try done.
  unfold psk_read. rewrite Hdone, Hcl. cbn [negb]. rewrite decide_True.
  2:{ unfold unread in Hun. apply (f_equal length) in Hun. rewrite length_drop in Hun.
      simpl in Hun. lia. }
  unfold refill_plaintext. rewrite (io_bind_ok _ _ _ _ _ Hn). rewrite decide_True by done.
  unfold io_bind, on_inner. simpl. rewrite Hdec. simpl.
  match goal with |- context [hand_out n ?x] =>
    destruct (hand_out_spec (E := E) n x) as (s' & Hs' & Hu & _ & Ht & Hi & Hd & Hc) end.
  rewrite Hs'. exists s'. rewrite Hu, Ht, Hi, Hd, Hc. unfold unread. simpl. by rewrite drop_0.
Qed.
End delivery.

(** ** An engine without cryptography, for the examples *)
Definition toy (accepts : bool) : GatoPskTls := {|
  TlsError := unit; InsufficientSpace := tt; InvalidHandshake := tt; DheKeyShare := unit;
  TlsServerSession := unit; server_session_new := tt;
  process_client_hello _ _ _ _ := (Ok (FirstFlight [TLS_CT_HANDSHAKE]), tt);
  process_client_finished _ _ := (if accepts then Ok tt else Err tt, tt);
  decrypt_app_data_or_alert _ record _ := (Ok (AppData (drop RECORD_HEADER_LEN record)), tt);
  encrypt_app_data _ plain _ := (Ok (tls_record TLS_CT_APPLICATION_DATA plain), tt);
  encrypt_alert _ _ d _ := (Ok (tls_record TLS_CT_APPLICATION_DATA [1; d]), tt) |}.

Definition ex_handshake : list Z :=
  tls_record TLS_CT_HANDSHAKE [1; 2] ++ tls_record TLS_CT_CHANGE_CIPHER_SPEC [1] ++
  tls_record TLS_CT_APPLICATION_DATA [42].

Definition ex_psk (accepts : bool) (bytes : list Z) : PskSession (H := toy accepts) :=
  psk_new (H := toy accepts) (Mock.feed Mock.new bytes)
    {| pk_identity := [1]; pk_secret := [2]; pk_dhe_keypair := None |} [].

Lemma no_data_before_handshake_witness :
  let '(s, delivered) := psk_run (H := toy false) 64 (ex_psk false ex_handshake)
    [OpAccept 4; OpRead 4 10; OpWrite [1; 2; 3]] in
  ps_handshake_done s = false ∧ ps_sent s = [] ∧ delivered = [].
Proof.
  apply (no_data_before_handshake (H := toy false) 64 (λ _, True)); try done.
Defined.

(** The same bytes complete the handshake with an engine that accepts them;
    then a dummy and a record arrive, the header cut in two. *)
Definition ex_open : PskSession (H := toy true) :=
  (psk_accept (H := toy true) 64 4 (ex_psk true ex_handshake)).2.
Definition ex_waiting_session : PskSession (H := toy true) :=
  set_transport (H := toy true) ex_open
    (Mock.feed (Mock.feed (ps_transport (H := toy true) ex_open) [20; 3; 3])
       [0; 1; 1; 23; 3; 3; 0; 4; 7; 8; 9; 10; 99]).

Lemma psk_read_delivers_witness :
  ∃ s', psk_read (H := toy true) 64 2 3 ex_waiting_session = (Done (Ok [7; 8; 9]), s') ∧
    unread (H := toy true) s' = [10] ∧
    Mock.stream (ps_transport (H := toy true) s') [99] [TLS_CT_HANDSHAKE] ∧
    ps_inner (H := toy true) s' = tt ∧ ps_handshake_done (H := toy true) s' = true ∧
    ps_closed (H := toy true) s' = false.
Proof.
  apply (psk_read_delivers (H := toy true) 64 2 3 ex_waiting_session [[1]] [7; 8; 9; 10] [99]
    [7; 8; 9; 10] tt [TLS_CT_HANDSHAKE]).
  - vm_compute. done.
  - simpl. lia.
  - repeat (constructor; [split; [vm_compute; discriminate|simpl; lia]|]). constructor.
  - repeat split; try (vm_compute; reflexivity). repeat constructor; discriminate.
  - vm_compute. reflexivity.
Defined.

(** ** An empty record reads as end of stream

    A record with an empty plaintext is legal, and [read] returns zero bytes
    for it, which its trait documents as "clean EOF", while the session is
    open and the next record is waiting. *)
Definition ex_empty_record : PskSession (H := toy true) :=
  set_transport (H := toy true) ex_open
    (Mock.feed (ps_transport (H := toy true) ex_open)
       (tls_record TLS_CT_APPLICATION_DATA [] ++ tls_record TLS_CT_APPLICATION_DATA [7])).

Lemma empty_record_reads_as_eof :
  let '(r, s) := psk_read (H := toy true) 64 2 10 ex_empty_record in
  r = Done (Ok []) ∧ ps_closed (H := toy true) s = false ∧
  (psk_read (H := toy true) 64 2 10 s).1 = Done (Ok [7]).
Proof. vm_compute. done. Qed.
End TlsPsk.
