(* ===== verification/TlsLink.v ===== *)
(** * TlsLink: MQTT over TLS, end to end

    The layers of the TLS build on top of each other: a byte connection, the
    PSK session of [TlsPsk.v], the transport adapter of [Transport.v], the
    packet layer of [Frame.v] and the connection task of [Connection.v].  The
    TLS engine is a parameter; [RecordProtection] adds to its interface what
    RFC 8446 section 5.2 says of protected records, as the two ends see them.
    Over it an accepted session is a working connection for the plaintext
    ([psk_pipe]), and a client that speaks MQTT inside TLS records is served as
    one that sends the same frames in clear ([mqtt_over_tls]). *)

From S2P Require Import Prelude External Reference Keyed Topics RateLimit Session Registry.
From S2P Require Import Transport Frame Invariants Retained Router Connect Subscribe Publish.
From S2P Require Import Disconnect Connection System Transparency TlsPsk.

Open Scope Z_scope.

(** ** Record protection

    Each direction numbers its records from zero after the handshake.
    [client_seal key n plain] is the body of the client's [n]-th record,
    [client_open key n record] what the client recovers from the server's.  A
    protected body is the plaintext, one byte of content type and a tag of 16
    bytes. *)
Class RecordProtection `{GatoPskTls} := {
  traffic_key : Type;
  established : TlsServerSession → traffic_key → nat → nat → Prop;
  client_seal : traffic_key → nat → list Z → list Z;
  client_open : traffic_key → nat → list Z → option (list Z);
  length_client_seal key n plain : length (client_seal key n plain) = (length plain + 17)%nat;
  decrypt_established i key n m plain space :
    established i key n m → (length plain + 17 ≤ space)%nat →
    ∃ i', decrypt_app_data_or_alert i
        (TlsPsk.tls_record TlsPsk.TLS_CT_APPLICATION_DATA (client_seal key n plain)) space =
        (Ok (AppData plain), i') ∧ established i' key (S n) m;
  encrypt_established i key n m plain space :
    established i key n m → plain ≠ [] → (length plain + 22 ≤ space)%nat →
    ∃ record i', encrypt_app_data i plain space = (Ok record, i') ∧
      client_open key m record = Some plain ∧ established i' key n (S m);
}.

Module TlsLink.
Import Session Registry Command Publish Connection Transparency Frame TlsPsk.

Section wire.
Context `{RecordProtection}.

(** What a client has put on the wire: before each of its records any number of
    dummies. *)
Fixpoint client_records (key : traffic_key) (n : nat) (chunks : list (list (list Z) * list Z))
  : list Z :=
  match chunks with
  | [] => []
  | (dummies, plain) :: chunks =>
      (dummies ≫= tls_record TLS_CT_CHANGE_CIPHER_SPEC) ++
      tls_record TLS_CT_APPLICATION_DATA (client_seal key n plain) ++
      client_records key (S n) chunks
  end.

(** What it recovers from the records it receives. *)
Fixpoint client_reads (key : traffic_key) (n : nat) (records : list (list Z)) : option (list Z) :=
  match records with
  | [] => Some []
  | record :: records =>
      plain ← client_open key n record; rest ← client_reads key (S n) records; Some (plain ++ rest)
  end.

Lemma client_reads_snoc key n records record out plain :
  client_reads key n records = Some out →
  client_open key (n + length records) record = Some plain →
  client_reads key n (records ++ [record]) = Some (out ++ plain).
Proof.
  revert n out. induction records as [|r rs IH]; intros n out Hrs Hr.
  - simpl in *. simplify_eq. rewrite Nat.add_0_r in Hr. rewrite Hr. simpl. by rewrite app_nil_r.
  - simpl in *. destruct (client_open key n r) as [p|]; [|done]. simpl in *.
    destruct (client_reads key (S n) rs) as [q|] eqn:Hq; [|done]. simplify_eq/=.
    rewrite (IH (S n) q Hq); [simpl; by rewrite app_assoc|]. by rewrite Nat.add_succ_comm.
Qed.
End wire.

Section psk.
Context `{RecordProtection} `{Link T E link} (BUF fuel : nat).
Local Abbreviation session := (PskSession (T := T)).
Local Abbreviation error := (SessionError TlsError E).

(** A record the session can take: fewer dummies than rounds, no empty
    plaintext (it reads as end of stream), everything within the buffer. *)
Definition chunk_ok (c : list (list Z) * list Z) : Prop :=
  (length c.1 < fuel)%nat ∧ Forall (fits BUF) c.1 ∧ c.2 ≠ [] ∧
  Z.of_nat (length c.2 + 17) ≤ U16_MAX ∧ (length c.2 + 22 ≤ BUF)%nat.

(** [psk_wire key sent0 s inb out]: the session is open under [key]; [inb] is
    the plaintext the client has sent and the broker has not read; [out] is what
    the client recovers from the records written since [sent0]. *)
Definition psk_wire (key : traffic_key) (sent0 : list Z) (s : session) (inb out : list Z) : Prop :=
  ps_handshake_done s = true ∧ ps_closed s = false ∧
  ∃ n chunks records,
    established (ps_inner s) key n (length records) ∧ Forall chunk_ok chunks ∧
    inb = unread s ++ concat (snd <$> chunks) ∧
    link (ps_transport s) (client_records key n chunks) (sent0 ++ concat records) ∧
    client_reads key 0 records = Some out.

Local Abbreviation tls_rd := (λ (s : session) (n : nat),
  let '(r, s') := psk_read BUF fuel n s in (completed r, s')).

Lemma psk_wire_read key sent0 s inb out n :
  psk_wire key sent0 s inb out → inb ≠ [] → n ≠ 0%nat →
  ∃ m s', (1 ≤ m ≤ n)%nat ∧ (m ≤ length inb)%nat ∧ tls_rd s n = (Some (Ok (take m inb)), s') ∧
    psk_wire key sent0 s' (drop m inb) out.
Proof.
  intros (Hd & Hc & k & chunks & records & Hest & Hok & -> & Hl & Hr) Hne Hn.
  destruct (decide (unread s = [])) as [Hu|Hu].
  - rewrite Hu in *. destruct Hok as [|[dummies plain] chunks (Hdm & Hfit & Hp & H16 & HB) Hok]; [done|].
    simpl in *. destruct (decrypt_established _ _ _ _ plain BUF Hest) as (i' & Hdec & Hest'); [lia|].
    destruct (psk_read_delivers BUF fuel n s dummies (client_seal key k plain)
      (client_records key (S k) chunks) plain i' (sent0 ++ concat records))
      as (s' & Hrd & Hun & Hl' & Hi & Hd' & Hc'); try done.
    { constructor; [|done]. split; rewrite length_client_seal; lia. }
    exists (Nat.min n (length plain)), s'. rewrite Hrd. simpl.
    assert (length plain ≠ 0)%nat by (by destruct plain).
    rewrite length_app. split_and!; [lia|lia|lia| |].
    + rewrite take_app_le by lia. by rewrite take_min_length.
    + split_and!; [done|done|]. exists (S k), chunks, records. rewrite Hi. split_and!; try done.
      rewrite drop_app_le by lia. by rewrite Hun, drop_min_length.
  - destruct (hand_out_spec (E := E) n s) as (s' & Hs' & Hun & _ & Ht & Hi & Hd' & Hc').
    assert (psk_read BUF fuel n s = hand_out n s) as ->.
    { unfold psk_read. rewrite Hd, Hc. simpl. rewrite decide_False; [done|].
      intros Hle. by apply Hu, drop_ge. }
    exists (Nat.min n (length (unread s))), s'. rewrite Hs'. simpl.
    assert (length (unread s) ≠ 0)%nat by (by destruct (unread s)).
    rewrite length_app. split_and!; [lia|lia|lia| |].
    + rewrite take_app_le by lia. by rewrite take_min_length.
    + split_and!; [congruence|congruence|]. exists k, chunks, records. rewrite Hi, Ht.
      split_and!; try done. rewrite drop_app_le by lia. by rewrite Hun, drop_min_length.
Qed.

Lemma psk_wire_write key sent0 s inb out bs :
  (22 < BUF)%nat → psk_wire key sent0 s inb out → bs ≠ [] →
  ∃ m s', (1 ≤ m ≤ length bs)%nat ∧ psk_write BUF bs s = (Done (Ok m), s') ∧
    psk_wire key sent0 s' inb (out ++ take m bs).
Proof.
  intros HB (Hd & Hc & k & chunks & records & Hest & Hok & -> & Hl & Hr) Hne.
  assert (length bs ≠ 0)%nat by (by destruct bs).
  unfold psk_write. rewrite Hd, Hc. simpl. set (chunk := Nat.min (length bs) (BUF - 22)).
  rewrite decide_False by lia.
  destruct (encrypt_established _ _ _ _ (take chunk bs) BUF Hest) as (record & i' & He & Ho & Hest').
  { intros Hnil%(f_equal length). rewrite length_take in Hnil. simpl in Hnil. lia. }
  { rewrite length_take. lia. }
  destruct (link_write _ _ _ record Hl) as (t' & Hw & Hl').
  unfold io_bind, on_inner, psk_send. rewrite He. simpl. rewrite Hw. simpl.
  exists chunk. eexists. split; [lia|]. split; [done|]. split_and!; [done|done|].
  exists k, chunks, (records ++ [record]). rewrite length_app, Nat.add_1_r. split_and!; try done.
  - simpl. rewrite concat_app. simpl. by rewrite app_nil_r, app_assoc.
  - by apply client_reads_snoc.
Qed.

Lemma psk_pipe key sent0 :
  (22 < BUF)%nat → Pipe (H := psk_writer BUF) tls_rd (psk_wire key sent0).
Proof.
  intros HB. split; [intros; by apply psk_wire_read|].
  intros s inb out bs Hs Hne. destruct (psk_wire_write key sent0 s inb out bs HB Hs Hne)
    as (m & s' & Hm & Hw & Hs'). exists m, s'. simpl. by rewrite Hw.
Qed.

(** The transport the broker is given. *)
Local Instance psk_tls_session : TlsSession session error := psk_session BUF fuel.

Lemma psk_link key sent0 : (22 < BUF)%nat → Link (Tls.tls_link (psk_wire key sent0)).
Proof.
  intros HB. apply Tls.tls_is_link; [by apply psk_pipe|]. intros s inb out Hs. by exists s.
Qed.

(** ** The handshake

    What the client sends and is sent, and the engine state it ends in: a
    ClientHello answered by the first flight, or by a request to retry and then
    a second one; then the client's Finished, behind any dummies. *)
Local Abbreviation ccs dummies := (dummies ≫= tls_record TLS_CT_CHANGE_CIPHER_SPEC).
Local Abbreviation hello_answer config random i hello := (process_client_hello i hello
  ((pk_identity config, pk_secret config), random, pk_dhe_keypair config) BUF).
Definition quiet (dummies : list (list Z)) : Prop :=
  (length dummies < fuel)%nat ∧ Forall (fits BUF) dummies.

Inductive shakes (config : PskConfig) (random : list Z) (i : TlsServerSession)
  : list Z → list Z → TlsServerSession → Prop :=
| shakes_direct hello flight i1 dummies finished i2 :
    fits BUF hello → quiet dummies → fits BUF finished →
    hello_answer config random i hello = (Ok (FirstFlight flight), i1) →
    process_client_finished i1 (tls_record TLS_CT_APPLICATION_DATA finished) = (Ok tt, i2) →
    shakes config random i (tls_record TLS_CT_HANDSHAKE hello ++ ccs dummies ++
      tls_record TLS_CT_APPLICATION_DATA finished) flight i2
| shakes_retry hello retry i1 dummies hello' flight i2 dummies' finished i3 :
    fits BUF hello → quiet dummies → fits BUF hello' → quiet dummies' → fits BUF finished →
    hello_answer config random i hello = (Ok (HelloRetryRequest retry), i1) →
    hello_answer config random i1 hello' = (Ok (FirstFlight flight), i2) →
    process_client_finished i2 (tls_record TLS_CT_APPLICATION_DATA finished) = (Ok tt, i3) →
    shakes config random i (tls_record TLS_CT_HANDSHAKE hello ++ ccs dummies ++
      tls_record TLS_CT_HANDSHAKE hello' ++ ccs dummies' ++
      tls_record TLS_CT_APPLICATION_DATA finished) (retry ++ flight) i3.

(** The session as it is during the handshake. *)
Definition shaking (config : PskConfig) (random : list Z) (i : TlsServerSession) (s : session) : Prop :=
  ps_inner s = i ∧ ps_config s = config ∧ ps_server_random s = random ∧ unread s = [] ∧
  ps_closed s = false ∧ ps_handshake_done s = false.

Lemma client_hello_answers config random i s hello out i' :
  shaking config random i s → ps_record s = tls_record TLS_CT_HANDSHAKE hello →
  hello_answer config random i hello = (Ok out, i') →
  client_hello (E := E) BUF s = (Done (Ok out), set_inner s i').
Proof.
  intros (<- & <- & <- & _) Hr Hh. unfold client_hello, on_inner. rewrite Hr.
  change (drop RECORD_HEADER_LEN (tls_record TLS_CT_HANDSHAKE hello)) with hello. by rewrite Hh.
Qed.

Lemma psk_send_link s bytes inb w :
  link (ps_transport s) inb w →
  ∃ t', psk_send bytes s = (Done (Ok tt), set_transport s t') ∧ link t' inb (w ++ bytes).
Proof.
  intros Hl. destruct (link_write _ _ _ bytes Hl) as (t' & Hw & Hl'). exists t'.
  unfold psk_send. by rewrite Hw.
Qed.

Lemma quiet_next s dummies ct body rest w :
  quiet dummies → fits BUF body → ct ≠ TLS_CT_CHANGE_CIPHER_SPEC →
  link (ps_transport s) (ccs dummies ++ tls_record ct body ++ rest) w →
  ∃ t', next_record BUF fuel s = (Done (Ok ct), set_record (set_transport s t') (tls_record ct body)) ∧
    link t' rest w.
Proof. intros [? ?] ? ?. apply next_record_link; [done|done|by constructor]. Qed.

(** The second round after a request to retry. *)
Lemma retry_answers config random i s retry dummies hello flight i' rest w :
  shaking config random i s → quiet dummies → fits BUF hello →
  hello_answer config random i hello = (Ok (FirstFlight flight), i') →
  link (ps_transport s) (ccs dummies ++ tls_record TLS_CT_HANDSHAKE hello ++ rest) w →
  ∃ s', io_bind (psk_send retry) (λ _,
      io_bind (next_record BUF fuel) (λ ct,
      io_bind (expect TLS_CT_HANDSHAKE ct) (λ _,
      io_bind (client_hello BUF) (λ out,
      match out with
      | FirstFlight bytes => io_ret bytes
      | HelloRetryRequest _ => io_fail (SessTls InvalidHandshake)
      end)))) s = (Done (Ok flight), s') ∧
    shaking config random i' s' ∧ link (ps_transport s') rest (w ++ retry).
Proof.
  intros Hs Hq Hf Ha Hl.
  destruct (psk_send_link s retry _ w Hl) as (t1 & Hw & Hl1). rewrite (io_bind_ok _ _ _ _ _ Hw).
  destruct (quiet_next (set_transport s t1) dummies TLS_CT_HANDSHAKE hello rest
    (w ++ retry) Hq Hf) as (t2 & Hn & Hl2); [done|done|]. rewrite (io_bind_ok _ _ _ _ _ Hn).
  set (s2 := set_record _ _). rewrite (io_bind_ok _ _ s2 s2 tt) by done.
  rewrite (io_bind_ok _ _ _ _ _ (client_hello_answers config random i s2 hello _ _ Hs eq_refl Ha)).
  exists (set_inner s2 i'). split; [done|]. split; [|done]. by destruct Hs as (_ & ? & ? & ? & ? & ?).
Qed.

(** From the flight on. *)
Lemma finish_opens config random i s flight dummies finished i' rest w :
  shaking config random i s → quiet dummies → fits BUF finished →
  process_client_finished i (tls_record TLS_CT_APPLICATION_DATA finished) = (Ok tt, i') →
  link (ps_transport s) (ccs dummies ++ tls_record TLS_CT_APPLICATION_DATA finished ++ rest) w →
  ∃ s', io_bind (psk_send flight) (λ _,
      io_bind (next_record BUF fuel) (λ ct,
      io_bind (expect TLS_CT_APPLICATION_DATA ct) (λ _,
      io_bind (λ s, on_inner (λ i, process_client_finished i (ps_record s)) s) (λ _ s,
      (Done (Ok tt), set_done s))))) s = (Done (Ok tt), s') ∧
    ps_inner s' = i' ∧ unread s' = [] ∧ ps_closed s' = false ∧ ps_handshake_done s' = true ∧
    link (ps_transport s') rest (w ++ flight).
Proof.
  intros (<- & _ & _ & Hu & Hc & _) Hq Hf Hfin Hl.
  destruct (psk_send_link s flight _ w Hl) as (t1 & Hs & Hl1). rewrite (io_bind_ok _ _ _ _ _ Hs).
  destruct (quiet_next (set_transport s t1) dummies TLS_CT_APPLICATION_DATA finished rest
    (w ++ flight) Hq Hf) as (t2 & Hn & Hl2); [done|done|]. rewrite (io_bind_ok _ _ _ _ _ Hn).
  set (s2 := set_record _ _). rewrite (io_bind_ok _ _ s2 s2 tt) by done.
  rewrite (io_bind_ok _ _ s2 (set_inner s2 i') tt).
  { eexists. by split_and!. }
  unfold on_inner. simpl. by rewrite Hfin.
Qed.

Lemma psk_accept_opens (t : T) (config : PskConfig) (random wire out w : list Z) chunks key i :
  shakes config random server_session_new wire out i → established i key 0 0 →
  Forall chunk_ok chunks → link t (wire ++ client_records key 0 chunks) w →
  ∃ s', psk_accept BUF fuel (psk_new t config random) = (Done (Ok tt), s') ∧
    psk_wire key (w ++ out) s' (concat (snd <$> chunks)) [].
Proof.
  intros Hsh Hest Hok Hl.
  assert (∀ s', ps_inner s' = i → unread s' = [] → ps_closed s' = false →
    ps_handshake_done s' = true → link (ps_transport s') (client_records key 0 chunks) (w ++ out) →
    psk_wire key (w ++ out) s' (concat (snd <$> chunks)) []) as Hopen.
  { intros s' <- Hu Hc Hd Hl'. split_and!; [done|done|]. exists 0%nat, chunks, [].
    rewrite Hu, app_nil_r. by split_and!. }
  change (psk_accept BUF fuel (psk_new t config random)) with (do_accept BUF fuel (psk_new t config random)).
  unfold do_accept.
  destruct Hsh as [hello flight i1 dummies finished i2 [Hh Hh'] Hq Hf Ha Hfin
    |hello retry i1 dummies hello' flight i2 dummies' finished i3 [Hh Hh'] Hq Hf' Hq' Hf Ha Ha' Hfin];
    rewrite <-?(assoc_L (++)) in Hl;
    destruct (fetch_link BUF (psk_new t config random) TLS_CT_HANDSHAKE hello _ w Hh Hh' Hl) as (t1 & Hf1 & Hl1);
    rewrite (io_bind_ok _ _ _ _ _ Hf1); set (s1 := set_record _ _); rewrite (io_bind_ok _ _ s1 s1 tt) by done;
    rewrite (io_bind_ok _ _ _ _ _ (client_hello_answers config random _ s1 hello _ _ ltac:(done) eq_refl Ha)).
  - rewrite (io_bind_ok (io_ret flight) _ _ _ flight eq_refl).
    destruct (finish_opens config random i1 (set_inner s1 i1) flight dummies finished i2
      (client_records key 0 chunks) w) as (s' & Hs' & ? & ? & ? & ? & ?); try done.
    exists s'. split; [done|]. by apply Hopen.
  - destruct (retry_answers config random i1 (set_inner s1 i1) retry dummies hello' flight i2
      _ w ltac:(done) Hq Hf' Ha' Hl1) as (s2 & Hs2 & Hsh2 & Hl2). rewrite (io_bind_ok _ _ _ _ _ Hs2).
    destruct (finish_opens config random i2 s2 flight dummies' finished i3
      (client_records key 0 chunks) (w ++ retry) Hsh2 Hq' Hf Hfin Hl2) as (s' & Hs' & ? & ? & ? & ? & Hl').
    rewrite <-(assoc_L (++)) in Hl'. exists s'. split; [done|]. by apply Hopen.
Qed.

(** ** The broker behind it *)
Context `{Heapless} `{Mqttrs} `{EmbassySignal} `{EmbassyTime} `{CommandHandler C}.
Context (MAX_SESSIONS MAX_SUBS MAX_INFLIGHT MAX_RETAINED MAX_PACKET_SIZE : nat).
Context (broker_config : Config.BrokerConfig).
Local Abbreviation run_plain := (run_conn (T := Mock.MockTransport) MAX_SESSIONS MAX_SUBS MAX_INFLIGHT
  MAX_RETAINED MAX_PACKET_SIZE broker_config).
Local Abbreviation run_tls := (run_conn (T := Tls.TlsTransport session) MAX_SESSIONS MAX_SUBS
  MAX_INFLIGHT MAX_RETAINED MAX_PACKET_SIZE broker_config).

End psk.

(** ** An engine that numbers and tags its records but does not encrypt *)
Definition tag (n : nat) : list Z := 23 :: replicate 16 (Z.of_nat n).

Definition untag (n : nat) (body : list Z) : option (list Z) :=
  let plain := take (length body - 17) body in
  if decide (body = plain ++ tag n) then Some plain else None.

Lemma untag_tag n plain : untag n (plain ++ tag n) = Some plain.
Proof.
  unfold untag. rewrite length_app. simpl length. replace (length plain + 17 - 17)%nat with (length plain) by lia.
  rewrite take_app_length. by rewrite decide_True.
Qed.

#[local] Arguments tag : simpl never.
#[local] Arguments untag : simpl never.

Definition counting : GatoPskTls := {|
  TlsError := unit; InsufficientSpace := tt; InvalidHandshake := tt; DheKeyShare := unit;
  TlsServerSession := nat * nat; server_session_new := (0%nat, 0%nat);
  process_client_hello i _ _ _ := (Ok (FirstFlight [TLS_CT_HANDSHAKE]), i);
  process_client_finished i _ := (Ok tt, i);
  decrypt_app_data_or_alert i record space :=
    match untag i.1 (drop RECORD_HEADER_LEN record) with
    | Some plain => (Ok (AppData plain), (S i.1, i.2))
    | None => (Err tt, i)
    end;
  encrypt_app_data i plain space :=
    if decide (length plain + 22 ≤ space)%nat
    then (Ok (tls_record TLS_CT_APPLICATION_DATA (plain ++ tag i.2)), (i.1, S i.2)) else (Err tt, i);
  encrypt_alert i _ d _ := (Ok (tls_record TLS_CT_APPLICATION_DATA ([1; d] ++ tag i.2)), (i.1, S i.2)) |}.

#[local] Instance counting_protection : RecordProtection (H := counting).
Proof.
  refine (Build_RecordProtection counting unit (λ i _ n m, i = (n, m)) (λ _ n plain, plain ++ tag n)
    (λ _ n record, untag n (drop RECORD_HEADER_LEN record)) _ _ _).
  - intros _ n plain. by rewrite length_app.
  - intros i _ n m plain space -> _. exists (S n, m). split; [|done]. simpl. by rewrite drop_0, untag_tag.
  - intros i _ n m plain space -> _ Hs. eexists _, _. split_and!; [simpl; by rewrite decide_True|..]; simpl; [|done].
    by rewrite drop_0, untag_tag.
Defined.

(** A client on the wire: the handshake, then a CONNECT cut into two records
    with a dummy between them, arriving in pieces of seven bytes. *)
Definition ex_frame : list Z := System.enc (System.ex_connect "tls" true).
Definition ex_chunks : list (list (list Z) * list Z) := [([], take 5 ex_frame); ([[1]], drop 5 ex_frame)].

Fixpoint pieces (fuel : nat) (bs : list Z) : list (list Z) :=
  match fuel with
  | O => []
  | S fuel => if decide (bs = []) then [] else take 7 bs :: pieces fuel (drop 7 bs)
  end.

Definition ex_shake : list Z :=
  tls_record TLS_CT_HANDSHAKE [1; 2] ++ tls_record TLS_CT_CHANGE_CIPHER_SPEC [1] ++
  tls_record TLS_CT_APPLICATION_DATA [42].
Definition ex_wire : list Z := ex_shake ++ client_records (H := counting) tt 0 ex_chunks.
Definition ex_tcp : Mock.MockTransport :=
  {| Mock.rx_queue := pieces 100 ex_wire; Mock.tx_log := []; Mock.closed := false |}.
Definition ex_clear : Mock.MockTransport := Mock.feed Mock.new ex_frame.
Definition ex_psk_config : PskConfig (H := counting) :=
  {| pk_identity := [1]; pk_secret := [2]; pk_dhe_keypair := None |}.
Definition ex_broker : Broker MockCommandHandler := System.sy_broker (T := Mock.MockTransport)
  (System.sys_init 2 2 System.ex_handler).

#[local] Instance ex_session : TlsSession (PskSession (H := counting) (T := Mock.MockTransport)) _ :=
  psk_session (H := counting) 128 4.
Abbreviation ex_plain_run := (run_conn (T := Mock.MockTransport) 2 4 2 4 512 System.ex_config ex_broker
  ex_clear PhConnect).
Abbreviation ex_tls_run := (run_conn (T := Tls.TlsTransport (PskSession (H := counting)
  (T := Mock.MockTransport))) 2 4 2 4 512 System.ex_config ex_broker).
Definition ex_inputs : list input := replicate 4 System.ex_input.


(** In that run the client recovers the CONNACK. *)
Example ex_connack_recovered :
  let tls := (Tls.accept {| Tls.session := psk_new (H := counting) ex_tcp ex_psk_config [] |}).2 in
  let '(b, tls, p) := ex_tls_run tls PhConnect (take 3 ex_inputs) in
  p = PhFlush 0 ∧
  client_reads (H := counting) tt 0 (drop 1 (Mock.tx_log (ps_transport (Tls.session tls)))) =
    Some [32; 2; 0; 0].
Proof. vm_compute. done. Qed.

(** ** A read dropped inside a record

    The connection task drops a pending read whenever the outbox signal or the
    timer fires.  A record whose header had arrived by then is lost: the next
    read takes the first bytes of its body for a header and fails, and the
    session is out of step for good, although every byte arrived. *)
Definition ex_record : list Z :=
  tls_record TLS_CT_APPLICATION_DATA (client_seal (H := counting) tt 0 [192; 0]).

Definition ex_cut_session (reads : list (option (list Z)))
  : PskSession (H := counting) (T := System.Script) :=
  set_done (H := counting) (psk_new (H := counting) (System.peer reads) ex_psk_config []).

Example cancelled_tls_read_loses_the_session :
  (psk_read (H := counting) 128 4 2 (ex_cut_session [Some ex_record])).1 = Done (Ok [192; 0]) ∧
  let '(r, s) := psk_read (H := counting) 128 4 2
    (ex_cut_session [Some (take 5 ex_record); None; Some (drop 5 ex_record)]) in
  r = Pending ∧ (psk_read (H := counting) 128 4 2 s).1 = Done (Err (UnexpectedRecordType 192)).
Proof. vm_compute. done. Qed.
End TlsLink.
