(* ===== verification/Firmware.v ===== *)
(** * Firmware: the worker pool of the example firmware
    ([examples/esp32c3_mqtt_server/src/main.rs], [tls_support.rs])

    One accept task hands sockets to a fixed set of TLS worker tasks, each with
    its own statically allocated buffers, a busy flag behind a mutex, a socket
    cell and a signal.  The tasks run on one cooperative executor, so the unit
    of interleaving is a stretch of code between two awaits; [accept_step] and
    [worker_step] are one stretch each.  A worker that serves a connection
    advances the broker of [System.v].

    The cells and buffers are [UnsafeCell]s handed out as [&'static mut]; the
    theorems show that the protocol around them makes that sound: no two live
    sockets ever use the buffers of one worker, no socket in a cell is
    overwritten, and the busy flags are exact, so a worker is never lost. *)

From S2P Require Import Prelude External Reference Keyed Topics RateLimit Session Registry.
From S2P Require Import Transport Frame Invariants Retained Router Publish Connection System.
From S2P Require Import PublishProofs TlsPsk.

(** ** embassy-net: what the firmware needs of a socket besides [TcpSocket] *)
Class EmbassyNet (K E : Type) := {
  #[global] net_tcp :: TcpSocket K E;
  sock_set_timeout : K → Duration → K;
  (** [accept]: [None] while no peer has connected. *)
  sock_accept : K → Z → option (result unit unit) * K;
}.

(** ** esp-hal: the random number generator, 32 bits at a time *)
Class Trng (R : Type) := {
  trng_random : R → Z * R;
  trng_random_u32 r : is_u32 (trng_random r).1;
}.

Module Firmware.
Import Notify.

(** ** The two build profiles *)
Section profile.
Context (tls : bool).
Definition MAX_TLS_CONNECTIONS : nat := 4.
Definition MAX_PLAIN_CONNECTIONS : nat := 10.
Definition MQTT_PORT : Z := if tls then 8883 else 1883.
Definition MAX_PACKET_SIZE : nat := 768.
Definition TCP_BUFFER_SIZE : nat := 512.
Definition TLS_SESSION_BUF : nat := 4096.
Definition MAX_SESSIONS : nat := if tls then MAX_TLS_CONNECTIONS else MAX_PLAIN_CONNECTIONS.
Definition MAX_SUBS : nat := if tls then 1 else 4.
Definition MAX_INFLIGHT : nat := if tls then 0 else 2.
Definition MAX_RETAINED : nat := if tls then 0 else 8.
Definition INBOUND_N : nat := if tls then 1 else 4.
Definition STACK_SOCKETS : nat := if tls then MAX_SESSIONS + 1 else MAX_SESSIONS + 2.
End profile.

(** ** The pre-shared key ([tls_support.rs]) *)
Definition MQTT_PSK_IDENTITY : list Z := as_bytes "gatomqtt-psk".
Definition MQTT_PSK_KEY : list Z :=
  [154; 63; 193; 82; 216; 107; 23; 164; 227; 41; 124; 16; 181; 77; 142; 98;
   19; 247; 169; 60; 88; 222; 113; 36; 139; 198; 74; 145; 5; 239; 54; 125].

(** The source leaves out [dhe_keypair]; [None] is the documented value for
    the plain pre-shared-key exchange it sets up. *)
Definition psk_config `{GatoPskTls} : TlsPsk.PskConfig :=
  {| TlsPsk.pk_identity := MQTT_PSK_IDENTITY; TlsPsk.pk_secret := MQTT_PSK_KEY;
     TlsPsk.pk_dhe_keypair := None |}.

(** ** The random of a ServerHello *)
Section trng.
Context `{Trng R}.

Definition u32_to_le_bytes (x : Z) : list Z :=
  [x mod 256; (x / 256) mod 256; (x / 65536) mod 256; (x / 16777216) mod 256].

Fixpoint random_chunks (n : nat) (r : R) : list Z * R :=
  match n with
  | O => ([], r)
  | S n =>
      let '(x, r) := trng_random r in
      let '(bytes, r) := random_chunks n r in
      (u32_to_le_bytes x ++ bytes, r)
  end.

Definition fresh_server_random (trng : R) : list Z * R := random_chunks 8 trng.

Lemma fresh_server_random_bytes (trng : R) :
  length (fresh_server_random trng).1 = 32%nat ∧ Forall is_u8 (fresh_server_random trng).1.
Proof.
  assert (∀ n r, length (random_chunks n r).1 = (4 * n)%nat ∧
                 Forall is_u8 (random_chunks n r).1) as Hn; [|apply (Hn 8%nat)].
  induction n as [|n IH]; intros r; [done|]. cbn [random_chunks].
  destruct (trng_random r) as [x r1]. specialize (IH r1).
  destruct (random_chunks n r1) as [bs r2]. cbn [fst] in *. destruct IH as [Hl Hb]. split.
  - rewrite length_app, Hl. simpl. lia.
  - apply Forall_app. split; [|done]. unfold u32_to_le_bytes, is_u8, U8_MAX.
    repeat constructor; apply Z.mod_pos_bound || (match goal with |- ?a mod 256 ≤ _ =>
      pose proof (Z.mod_pos_bound a 256) end; lia); lia.
Qed.
End trng.

(** ** The TLS pool *)
Section pool.
Context `{Heapless} `{Mqttrs} `{EmbassySignal} `{EmbassyTime} `{Command.CommandHandler C}.
Context `{GatoPskTls} `{EmbassyNet K E} `{Trng R}.
Context (fuel : nat).

Abbreviation TcpT := (Tcp.TcpTransport K).
Abbreviation PskT := (TlsPsk.PskSession (T := TcpT)).
Abbreviation TlsT := (Tls.TlsTransport PskT).
#[local] Instance worker_session :
  TlsSession PskT (TlsPsk.SessionError TlsError (Tcp.TcpTransportError E)) :=
  TlsPsk.psk_session TLS_SESSION_BUF fuel.

(** Where a worker task is: about to look into its cell, waiting for its
    signal, in the handshake, serving connection [conn] of the broker, or about
    to release its slot. *)
Inductive worker_phase :=
| WkLook
| WkWait
| WkHandshake (transport : TlsT)
| WkServe (conn : nat)
| WkRelease.

(** [WORKER_BUSY[slot]] (and whether its guard is held across an await),
    [WORKER_SOCKETS[slot]], [WORKER_SIGNALS[slot]] and the task of the slot. *)
Record WorkerSlot := {
  ws_busy : bool;
  ws_locked : bool;
  ws_socket : option K;
  ws_ready : Signal;
  ws_task : worker_phase;
}.

(** Where the accept task is.  The socket it holds uses the buffers of the
    worker [slot]. *)
Inductive accept_phase :=
| AcReserve (all_busy_logged : bool)
| AcSleep
| AcListen (slot : nat) (socket : K)
| AcBackoff (slot : nat) (socket : K).

Record firmware := {
  fw_sys : System.sys (C := C) (T := TlsT);
  fw_workers : list WorkerSlot;
  fw_accept : accept_phase;
  fw_trng : R;
}.

Definition set_busy (w : WorkerSlot) (b : bool) : WorkerSlot :=
  {| ws_busy := b; ws_locked := ws_locked w; ws_socket := ws_socket w; ws_ready := ws_ready w;
     ws_task := ws_task w |}.
Definition set_locked (w : WorkerSlot) (b : bool) : WorkerSlot :=
  {| ws_busy := ws_busy w; ws_locked := b; ws_socket := ws_socket w; ws_ready := ws_ready w;
     ws_task := ws_task w |}.
Definition set_ready (w : WorkerSlot) (s : Signal) : WorkerSlot :=
  {| ws_busy := ws_busy w; ws_locked := ws_locked w; ws_socket := ws_socket w; ws_ready := s;
     ws_task := ws_task w |}.
Definition set_task (w : WorkerSlot) (p : worker_phase) : WorkerSlot :=
  {| ws_busy := ws_busy w; ws_locked := ws_locked w; ws_socket := ws_socket w;
     ws_ready := ws_ready w; ws_task := p |}.

(** [WorkerSocketSlot::put] and [take] *)
Definition slot_put (w : WorkerSlot) (k : K) : WorkerSlot :=
  {| ws_busy := ws_busy w; ws_locked := ws_locked w; ws_socket := Some k; ws_ready := ws_ready w;
     ws_task := ws_task w |}.
Definition slot_take (w : WorkerSlot) : option K * WorkerSlot :=
  (ws_socket w,
   {| ws_busy := ws_busy w; ws_locked := ws_locked w; ws_socket := None; ws_ready := ws_ready w;
      ws_task := ws_task w |}).

Definition worker_new : WorkerSlot :=
  {| ws_busy := false; ws_locked := false; ws_socket := None; ws_ready := signal_new;
     ws_task := WkLook |}.

Definition set_workers (f : firmware) (ws : list WorkerSlot) : firmware :=
  {| fw_sys := fw_sys f; fw_workers := ws; fw_accept := fw_accept f; fw_trng := fw_trng f |}.
Definition set_accept (f : firmware) (a : accept_phase) : firmware :=
  {| fw_sys := fw_sys f; fw_workers := fw_workers f; fw_accept := a; fw_trng := fw_trng f |}.
Definition set_sys (f : firmware) (s : System.sys (C := C) (T := TlsT)) : firmware :=
  {| fw_sys := s; fw_workers := fw_workers f; fw_accept := fw_accept f; fw_trng := fw_trng f |}.
Definition set_trng (f : firmware) (r : R) : firmware :=
  {| fw_sys := fw_sys f; fw_workers := fw_workers f; fw_accept := fw_accept f; fw_trng := r |}.

(** *** Reserving a worker

    The flags are locked one after the other; a lock that is free is taken
    without yielding. *)
Fixpoint try_reserve_from (slot : nat) (ws : list WorkerSlot)
  : outcome (option nat) * list WorkerSlot :=
  match ws with
  | [] => (Done None, [])
  | w :: rest =>
      if ws_locked w then (Pending, w :: rest)
      else if negb (ws_busy w) then (Done (Some slot), set_busy w true :: rest)
      else let '(r, rest) := try_reserve_from (S slot) rest in (r, w :: rest)
  end.

Definition try_reserve_worker_slot (ws : list WorkerSlot) : outcome (option nat) * list WorkerSlot :=
  try_reserve_from 0 ws.

(** *** [mqtt_accept_task]: [fresh] is the socket [TcpSocket::new] makes of the
    buffers of the reserved worker *)
Definition accept_step (f : firmware) (fresh : K) : outcome firmware :=
  let ws := fw_workers f in
  match fw_accept f with
  | AcReserve _ =>
      match try_reserve_worker_slot ws with
      | (Done None, ws) => Done (set_accept (set_workers f ws) AcSleep)
      | (Done (Some slot), ws) =>
          Done (set_accept (set_workers f ws)
                  (AcListen slot (sock_set_timeout fresh (duration_from_secs 30))))
      | (Pending, _) => Pending
      | (Panic, _) => Panic
      end
  | AcSleep => Done (set_accept f (AcReserve true))
  | AcListen slot socket =>
      match ws !! slot with
      | None => Panic
      | Some w =>
          match sock_accept socket (MQTT_PORT true) with
          | (None, _) => Pending
          | (Some (Err _), socket) =>
              if ws_locked w then Pending
              else Done (set_accept (set_workers f (<[slot := set_locked (set_busy w false) true]> ws))
                           (AcBackoff slot socket))
          | (Some (Ok _), socket) =>
              let w := slot_put w socket in
              let w := set_ready w (signal_signal (ws_ready w)) in
              Done (set_accept (set_workers f (<[slot := w]> ws)) (AcReserve false))
          end
      end
  | AcBackoff slot socket =>
      match ws !! slot with
      | None => Panic
      | Some w => Done (set_accept (set_workers f (<[slot := set_locked w false]> ws))
                          (AcReserve false))
      end
  end.

(** *** [release_worker_slot], and the end of the iteration that drops the
    transport and the socket without yielding in between *)
Definition release_worker_slot (w : WorkerSlot) : option WorkerSlot :=
  if ws_locked w then None else Some (set_task (set_busy w false) WkLook).

(** *** [wait_for_worker_socket] and the set-up of the session *)
Definition start_session (socket : K) (trng : R) : TlsT * R :=
  let '(server_random, trng) := fresh_server_random trng in
  ({| Tls.session := TlsPsk.psk_new {| Tcp.socket := socket |} psk_config server_random |}, trng).

Definition wait_for_worker_socket (f : firmware) (slot : nat) (w : WorkerSlot) : firmware :=
  match slot_take w with
  | (Some socket, w) =>
      let '(transport, trng) := start_session socket (fw_trng f) in
      set_trng (set_workers f (<[slot := set_task w (WkHandshake transport)]> (fw_workers f))) trng
  | (None, w) => set_workers f (<[slot := set_task w WkWait]> (fw_workers f))
  end.

(** *** One stretch of [connection_loop] *)
Abbreviation tls_step := (Connection.conn_step (MAX_SESSIONS true) (MAX_SUBS true)
  (MAX_INFLIGHT true) (MAX_RETAINED true) MAX_PACKET_SIZE Config.GATOMQTT_CONFIG).

Definition serve (f : firmware) (slot : nat) (w : WorkerSlot) (conn : nat) (i : Connection.input)
  : outcome firmware :=
  let s := fw_sys f in
  match System.sy_conns s !! conn with
  | None => Panic
  | Some (_, Connection.PhPanic) => Panic
  | Some (_, Connection.PhDone) =>
      Done (set_workers f (<[slot := set_task w WkRelease]> (fw_workers f)))
  | Some (t, p) =>
      let '(b', t', p') := tls_step (System.sy_broker s) t p i in
      Done (set_sys f {| System.sy_broker := b';
              System.sy_conns := <[conn := (t', p')]> (System.sy_conns s);
              System.sy_unacked := System.unacked_by p p' ++ System.sy_unacked s |})
  end.

(** *** [mqtt_tls_worker_body] *)
Definition worker_step (f : firmware) (slot : nat) (i : Connection.input) : outcome firmware :=
  let ws := fw_workers f in
  match ws !! slot with
  | None => Panic
  | Some w =>
      match ws_task w with
      | WkLook => Done (wait_for_worker_socket f slot w)
      | WkWait =>
          if signal_signaled (ws_ready w)
          then Done (set_workers f (<[slot := set_task (set_ready w (signal_reset (ws_ready w)))
                                                WkLook]> ws))
          else Pending
      | WkHandshake transport =>
          match Tls.accept transport with
          | (None, _) => Pending
          | (Some (Err _), _) => (* closed, and dropped with the iteration *)
              Done (set_workers f (<[slot := set_task w WkRelease]> ws))
          | (Some (Ok _), transport) =>
              let s := fw_sys f in
              let s' := {| System.sy_broker := System.sy_broker s;
                System.sy_conns := System.sy_conns s ++ [(transport, Connection.PhConnect)];
                System.sy_unacked := System.sy_unacked s |} in
              Done (set_sys (set_workers f
                      (<[slot := set_task w (WkServe (length (System.sy_conns s)))]> ws)) s')
          end
      | WkServe conn => serve f slot w conn i
      | WkRelease =>
          match release_worker_slot w with
          | None => Pending
          | Some w => Done (set_workers f (<[slot := w]> ws))
          end
      end
  end.

(** *** [tls_runtime_task]: four workers and the accept task *)
Definition tls_runtime_task (inbound : C) (trng : R) : firmware :=
  {| fw_sys := System.sys_init (MAX_SESSIONS true) (MAX_INFLIGHT true) inbound;
     fw_workers := replicate MAX_TLS_CONNECTIONS worker_new;
     fw_accept := AcReserve false; fw_trng := trng |}.

Inductive fw_step : firmware → firmware → Prop :=
| fw_accept_task f fresh f' : accept_step f fresh = Done f' → fw_step f f'
| fw_worker_task f slot i f' :
    (slot < MAX_TLS_CONNECTIONS)%nat → System.input_wf i → worker_step f slot i = Done f' →
    fw_step f f'.

Definition fw_reachable (inbound : C) (trng : R) (f : firmware) : Prop :=
  rtc fw_step (tls_runtime_task inbound trng) f.

(** ** Who uses the buffers of a worker *)
Definition listens (a : accept_phase) (slot : nat) : bool :=
  match a with AcListen j _ => bool_decide (j = slot) | _ => false end.
Definition backs_off (a : accept_phase) (slot : nat) : bool :=
  match a with AcBackoff j _ => bool_decide (j = slot) | _ => false end.
Definition works (p : worker_phase) : bool :=
  match p with WkLook | WkWait => false | _ => true end.
Definition serves (w : WorkerSlot) (conn : nat) : bool :=
  match ws_task w with WkServe c => bool_decide (c = conn) | _ => false end.

(** The live sockets that use the buffers of [slot]: the accept task's, the one
    in the cell, the worker's. *)
Definition users (f : firmware) (slot : nat) : nat :=
  (Nat.b2n (listens (fw_accept f) slot || backs_off (fw_accept f) slot) +
   match fw_workers f !! slot with
   | Some w => Nat.b2n (bool_decide (is_Some (ws_socket w))) + Nat.b2n (works (ws_task w))
   | None => 0
   end)%nat.

(** ** The invariant of one slot *)
Record slot_inv (listening backing_off : bool) (w : WorkerSlot) : Prop := {
  sl_busy : ws_busy w = true ↔
            listening = true ∨ is_Some (ws_socket w) ∨ works (ws_task w) = true;
  sl_locked : ws_locked w = backing_off;
  sl_accept : listening = true ∨ backing_off = true → ws_socket w = None ∧ works (ws_task w) = false;
  sl_cell : is_Some (ws_socket w) →
            ws_task w = WkLook ∨ ws_task w = WkWait ∧ signal_signaled (ws_ready w) = true;
}.

(** Every connection that has not ended is served by exactly one worker. *)
Record serving_inv (conns : list (TlsT * Connection.phase)) (ws : list WorkerSlot) : Prop := {
  sv_conn : ∀ slot w c, ws !! slot = Some w → serves w c = true → (c < length conns)%nat;
  sv_one : ∀ i j w w' c, ws !! i = Some w → ws !! j = Some w' →
           serves w c = true → serves w' c = true → i = j;
  sv_all : ∀ c t p, conns !! c = Some (t, p) → p ≠ Connection.PhDone →
           ∃ slot w, ws !! slot = Some w ∧ serves w c = true;
}.

Abbreviation sys_reachable := (System.reachable (MAX_SESSIONS true) (MAX_SUBS true)
  (MAX_INFLIGHT true) (MAX_RETAINED true) MAX_PACKET_SIZE Config.GATOMQTT_CONFIG).

Record fw_inv (inbound : C) (f : firmware) : Prop := {
  fi_sys : sys_reachable inbound (fw_sys f);
  fi_length : length (fw_workers f) = MAX_TLS_CONNECTIONS;
  fi_slots : ∀ slot w, fw_workers f !! slot = Some w →
    slot_inv (listens (fw_accept f) slot) (backs_off (fw_accept f) slot) w;
  fi_accept : ∀ slot, listens (fw_accept f) slot || backs_off (fw_accept f) slot = true →
    (slot < MAX_TLS_CONNECTIONS)%nat;
  fi_serving : serving_inv (System.sy_conns (fw_sys f)) (fw_workers f);
}.

Lemma fw_inv_init inbound trng : fw_inv inbound (tls_runtime_task inbound trng).
Proof.
  unfold tls_runtime_task. split; cbn [fw_sys fw_workers fw_accept]; try done.
  - apply rtc_refl.
  - intros slot w [-> _]%lookup_replicate. split; simpl; try done.
    split; [done|]. by intros [?|[[??]|?]].
  - split; try done.
    + by intros slot w c [-> _]%lookup_replicate.
    + by intros i j w w' c [-> _]%lookup_replicate.
Qed.

(** *** Reserving *)
Lemma try_reserve_spec n ws :
  Forall (λ w, ws_locked w = false) ws →
  try_reserve_from n ws = (Done None, ws) ∧ Forall (λ w, ws_busy w = true) ws ∨
  ∃ k w, ws !! k = Some w ∧ ws_busy w = false ∧
    try_reserve_from n ws = (Done (Some (n + k)%nat), <[k := set_busy w true]> ws).
Proof.
  revert n. induction ws as [|w ws IH]; intros n Hl; [by left|].
  apply Forall_cons in Hl as [Hw Hl]. simpl. rewrite Hw.
  destruct (ws_busy w) eqn:Hb; simpl.
  - destruct (IH (S n) Hl) as [[-> Hall]|(k & w' & Hk & Hb' & ->)].
    + left. split; [done|]. by constructor.
    + right. exists (S k), w'. split_and!; try done. do 3 f_equal. simpl. f_equal. lia.
  - right. exists 0%nat, w. split_and!; try done. do 3 f_equal. lia.
Qed.

(** *** Changing the task of one worker *)
Lemma serving_same conns ws slot w w' :
  ws !! slot = Some w → (∀ c, serves w' c = serves w c) →
  serving_inv conns ws → serving_inv conns (<[slot := w']> ws).
Proof.
  intros Hw Heq [Hc Ho Ha]. assert (∀ j v, <[slot := w']> ws !! j = Some v →
    ∃ v0, ws !! j = Some v0 ∧ ∀ c, serves v c = serves v0 c) as Hback.
  { intros j v. rewrite list_lookup_insert. case_decide as Hd; [|by eauto].
    destruct Hd as [-> _]. intros [= <-]. eauto. }
  split.
  - intros j v c (v0 & Hv & He)%Hback. rewrite He. eauto.
  - intros i j v v' c (v0 & Hv & He)%Hback (v1 & Hv' & He')%Hback. rewrite He, He'. eauto.
  - intros c t p Hp Hd. destruct (Ha c t p Hp Hd) as (j & v & Hj & Hs).
    destruct (decide (j = slot)) as [->|Hne].
    + exists slot, w'. rewrite list_lookup_insert_eq by (by eapply lookup_lt_Some).
      rewrite Heq. split; [done|]. by simplify_eq.
    + exists j, v. by rewrite list_lookup_insert_ne.
Qed.

Lemma serving_start conns ws slot w w' t p :
  ws !! slot = Some w → (∀ c, serves w c = false) →
  (∀ c, serves w' c = bool_decide (length conns = c)) →
  serving_inv conns ws → serving_inv (conns ++ [(t, p)]) (<[slot := w']> ws).
Proof.
  intros Hw Hno Heq [Hc Ho Ha]. assert (slot < length ws)%nat by (by eapply lookup_lt_Some).
  assert (∀ j v, <[slot := w']> ws !! j = Some v →
    j = slot ∧ v = w' ∨ j ≠ slot ∧ ws !! j = Some v) as Hback.
  { intros j v. rewrite list_lookup_insert. case_decide as Hd; [|naive_solver].
    intros [= <-]. left. by destruct Hd. }
  split.
  - intros j v c [[-> ->]|[_ Hv]]%Hback; rewrite length_app; simpl.
    + rewrite Heq. intros ?%bool_decide_eq_true_1. lia.
    + intros Hs. specialize (Hc _ _ _ Hv Hs). lia.
  - intros i j v v' c [[-> ->]|[Hi Hv]]%Hback [[-> ->]|[Hj Hv']]%Hback; try done.
    + rewrite Heq. intros <-%bool_decide_eq_true_1 Hs. specialize (Hc _ _ _ Hv' Hs). lia.
    + rewrite Heq. intros Hs <-%bool_decide_eq_true_1. specialize (Hc _ _ _ Hv Hs). lia.
    + eauto.
  - intros c t' p' [Hp|[Hge Hp]]%lookup_app_Some Hd.
    + destruct (Ha c t' p' Hp Hd) as (j & v & Hj & Hs). exists j, v.
      rewrite list_lookup_insert_ne; [done|]. intros <-. simplify_eq. by rewrite Hno in Hs.
    + apply list_lookup_singleton_Some in Hp as [Hc0 _]. exists slot, w'.
      rewrite list_lookup_insert_eq by done. rewrite Heq. split; [done|].
      apply bool_decide_eq_true_2. lia.
Qed.

Lemma serving_stop conns ws slot w w' c t :
  ws !! slot = Some w → conns !! c = Some (t, Connection.PhDone) →
  (∀ c', serves w c' = bool_decide (c = c')) → (∀ c', serves w' c' = false) →
  serving_inv conns ws → serving_inv conns (<[slot := w']> ws).
Proof.
  intros Hw Hdone Hs Hno [Hc Ho Ha].
  assert (∀ j v c', <[slot := w']> ws !! j = Some v → serves v c' = true → ws !! j = Some v)
    as Hback.
  { intros j v c' [->|?]%list_lookup_insert_cases Hv; [|done]. by rewrite Hno in Hv. }
  split; [eauto|intros i j v v' c' ? ? ? ?; eapply Ho; eauto|].
  intros c' t' p' Hp Hd. destruct (Ha c' t' p' Hp Hd) as (j & v & Hj & Hv). exists j, v.
  rewrite list_lookup_insert_ne; [done|]. intros <-. simplify_eq. rewrite Hs in Hv.
  apply bool_decide_eq_true_1 in Hv as ->. by simplify_eq.
Qed.

Lemma serving_step conns ws slot w c x :
  ws !! slot = Some w → serves w c = true →
  serving_inv conns ws → serving_inv (<[c := x]> conns) ws.
Proof.
  intros Hw Hs [Hc Ho Ha]. split; [|done|].
  - intros j v c' Hj Hv. rewrite length_insert. eauto.
  - intros c' t p. rewrite list_lookup_insert. case_decide as Hd; [|eauto].
    destruct Hd as [-> _]. eauto.
Qed.

(** *** The steps keep the invariant *)
Lemma fw_inv_update inbound f f' slot w w' :
  fw_inv inbound f → fw_workers f !! slot = Some w →
  fw_workers f' = <[slot := w']> (fw_workers f) →
  sys_reachable inbound (fw_sys f') →
  serving_inv (System.sy_conns (fw_sys f')) (<[slot := w']> (fw_workers f)) →
  slot_inv (listens (fw_accept f') slot) (backs_off (fw_accept f') slot) w' →
  (∀ j, j ≠ slot → listens (fw_accept f') j = listens (fw_accept f) j ∧
                   backs_off (fw_accept f') j = backs_off (fw_accept f) j) →
  fw_inv inbound f'.
Proof.
  intros [Hsys Hlen Hslots Hacc _] Hw Heq Hsys' Hsv Hslot Hne.
  assert (slot < length (fw_workers f))%nat by (by eapply lookup_lt_Some).
  split; rewrite ?Heq; try done.
  - by rewrite length_insert.
  - intros j v. rewrite list_lookup_insert. case_decide as Hd.
    + destruct Hd as [-> _]. by intros [= <-].
    + intros Hj. destruct (decide (j = slot)) as [->|Hjs]; [naive_solver|].
      destruct (Hne j Hjs) as [-> ->]. eauto.
  - intros j. destruct (decide (j = slot)) as [->|Hjs]; [intros _; lia|].
    destruct (Hne j Hjs) as [-> ->]. apply Hacc.
Qed.

Lemma fw_inv_idle inbound f a :
  fw_inv inbound f →
  (∀ j, listens a j = listens (fw_accept f) j ∧ backs_off a j = backs_off (fw_accept f) j) →
  fw_inv inbound (set_accept f a).
Proof.
  intros [Hsys Hlen Hslots Hacc Hsv] Heq. split; try done; simpl.
  - intros slot w Hw. destruct (Heq slot) as [-> ->]. auto.
  - intros slot. destruct (Heq slot) as [-> ->]. auto.
Qed.

Definition ok_after (inbound : C) (r : outcome firmware) : Prop :=
  match r with Done f => fw_inv inbound f | Pending => True | Panic => False end.

Lemma accept_step_ok inbound f fresh : fw_inv inbound f → ok_after inbound (accept_step f fresh).
Proof.
  intros Hinv. pose proof Hinv as [Hsys Hlen Hslots Hacc Hsv]. unfold accept_step.
  destruct (fw_accept f) as [logged| |slot k|slot k] eqn:Ha.
  - destruct (try_reserve_spec 0 (fw_workers f)) as [[He _]|(j & w & Hj & Hb & He)].
    { apply Forall_lookup. intros j w Hj. by destruct (Hslots j w Hj). }
    + unfold try_reserve_worker_slot. rewrite He. apply fw_inv_idle; [by destruct f|].
      intros j. simpl. by rewrite Ha.
    + unfold try_reserve_worker_slot. rewrite He. simpl.
      eapply fw_inv_update with (w' := set_busy w true); try done; simpl.
      * by eapply serving_same.
      * destruct (Hslots j w Hj) as [Hbusy Hlock _ Hcell]. rewrite Hb in Hbusy. simpl in *.
        rewrite bool_decide_eq_true_2 by done. split; simpl; try done; [by split; auto|].
        intros _. assert (¬ (is_Some (ws_socket w) ∨ works (ws_task w) = true)) as Hno.
        { intros Hu. discriminate (proj2 Hbusy (or_intror Hu)). }
        split; [apply eq_None_not_Some|apply not_true_is_false]; auto.
      * intros j' Hj'. rewrite Ha. simpl. by rewrite bool_decide_eq_false_2.
  - simpl. apply fw_inv_idle; [done|]. by rewrite Ha.
  - assert (slot < length (fw_workers f))%nat as [w Hw]%lookup_lt_is_Some_2.
    { rewrite Hlen. apply Hacc. simpl. by rewrite bool_decide_eq_true_2. }
    rewrite Hw. destruct (Hslots slot w Hw) as [Hbusy Hlock Hheld Hcell]. simpl in *.
    rewrite bool_decide_eq_true_2 in Hbusy, Hheld by done.
    destruct (Hheld (or_introl eq_refl)) as [Hsk Hwk].
    assert (∀ j, j ≠ slot → bool_decide (slot = j) = false) as Hne.
    { intros j Hj. by rewrite bool_decide_eq_false_2. }
    destruct (sock_accept k _) as [[[u|e]|] k']; [| |done].
    + simpl. eapply fw_inv_update with (slot := slot) (w := w); try done; simpl.
      * by eapply serving_same.
      * split; simpl; [|done|by intros []|].
        { split; [by eauto|]. intros _. apply Hbusy. by left. }
        intros _. rewrite signaled_signal. destruct (ws_task w); simpl in Hwk; auto; done.
      * intros j Hj. rewrite Ha. simpl. by rewrite Hne.
    + rewrite Hlock. simpl. eapply fw_inv_update with (slot := slot) (w := w); try done; simpl.
      * by eapply serving_same.
      * rewrite bool_decide_eq_true_2 by done. split; simpl; [|done|done|by rewrite Hsk; intros []].
        split; [done|]. rewrite Hsk, Hwk. by intros [|[[]|]].
      * intros j Hj. rewrite Ha. simpl. by rewrite Hne.
  - assert (slot < length (fw_workers f))%nat as [w Hw]%lookup_lt_is_Some_2.
    { rewrite Hlen. apply Hacc. simpl. by rewrite bool_decide_eq_true_2. }
    rewrite Hw. destruct (Hslots slot w Hw) as [Hbusy Hlock Hheld Hcell]. simpl in *.
    eapply fw_inv_update with (slot := slot) (w := w); try done; simpl.
    + by eapply serving_same.
    + split; simpl; [done|done|by intros []|done].
    + intros j Hj. rewrite Ha. simpl. by rewrite bool_decide_eq_false_2.
Qed.

Lemma firmware_config_wf : System.config_wf Config.GATOMQTT_CONFIG.
Proof. split; split; vm_compute; discriminate. Qed.

Lemma firmware_sys_inv inbound (s : System.sys (C := C) (T := TlsT)) :
  sys_reachable inbound s →
  System.sys_inv (MAX_SESSIONS true) (MAX_SUBS true) (MAX_INFLIGHT true) (MAX_RETAINED true) s.
Proof.
  apply System.reachable_inv; [|apply firmware_config_wf].
  apply Nat.leb_le. vm_compute. reflexivity.
Qed.

Lemma serve_ok inbound f slot w conn i :
  fw_inv inbound f → fw_workers f !! slot = Some w → ws_task w = WkServe conn →
  System.input_wf i → ok_after inbound (serve f slot w conn i).
Proof.
  intros Hinv Hw Ht Hi. pose proof Hinv as [Hsys Hlen Hslots Hacc Hsv].
  destruct (Hslots slot w Hw) as [Hbusy Hlock Hheld Hcell]. rewrite Ht in *.
  assert (∀ c, serves w c = bool_decide (conn = c)) as Hs.
  { intros c. unfold serves. by rewrite Ht. }
  assert (serves w conn = true) as Hsc by (rewrite Hs; by apply bool_decide_eq_true_2).
  destruct (lookup_lt_is_Some_2 _ _ (sv_conn _ _ Hsv _ _ _ Hw Hsc)) as [[t p] Hc].
  unfold serve. rewrite Hc.
  assert (ok_after inbound (let '(b', t', p') := tls_step (System.sy_broker (fw_sys f)) t p i in
    Done (set_sys f {| System.sy_broker := b';
      System.sy_conns := <[conn := (t', p')]> (System.sy_conns (fw_sys f));
      System.sy_unacked := System.unacked_by p p' ++ System.sy_unacked (fw_sys f) |}))) as Hrun.
  { destruct (tls_step (System.sy_broker (fw_sys f)) t p i) as [[b' t'] p'] eqn:Hstep.
    split; try done; simpl.
    - eapply rtc_r; [done|]. by eapply System.sys_conn.
    - by eapply serving_step. }
  destruct p; try exact Hrun.
  - eapply fw_inv_update with (slot := slot) (w := w); try done; simpl.
    + by eapply serving_stop.
    + split; simpl; [done|done|done|]. intros Hk. by destruct (Hcell Hk) as [|[]].
  - apply (System.si_phases _ _ _ _ _ (firmware_sys_inv _ _ Hsys) _ _ _ Hc).
Qed.

Lemma worker_step_ok inbound f slot i :
  fw_inv inbound f → (slot < MAX_TLS_CONNECTIONS)%nat → System.input_wf i →
  ok_after inbound (worker_step f slot i).
Proof.
  intros Hinv Hslot Hi. pose proof Hinv as [Hsys Hlen Hslots Hacc Hsv]. unfold worker_step.
  rewrite <-Hlen in Hslot. apply lookup_lt_is_Some_2 in Hslot as [w Hw]. rewrite Hw.
  destruct (Hslots slot w Hw) as [Hbusy Hlock Hheld Hcell].
  destruct (ws_task w) as [| |tr|conn|] eqn:Ht.
  - unfold wait_for_worker_socket, slot_take. destruct (ws_socket w) as [k|] eqn:Hsk.
    + destruct (start_session k (fw_trng f)) as [tr r]. simpl.
      eapply fw_inv_update with (slot := slot) (w := w); try done; simpl.
      * eapply serving_same; [done| |done]. intros c. unfold serves. by rewrite Ht.
      * split; simpl; [|done| |by intros []].
        -- split; [auto|]. intros _. apply Hbusy. eauto.
        -- intros Hh. by destruct (Hheld Hh).
    + simpl. eapply fw_inv_update with (slot := slot) (w := w); try done; simpl.
      * eapply serving_same; [done| |done]. intros c. unfold serves. by rewrite Ht.
      * split; simpl; [done|done|done|by intros []].
  - destruct (signal_signaled (ws_ready w)) eqn:Hsig; [|done]. simpl.
    eapply fw_inv_update with (slot := slot) (w := w); try done; simpl.
    + eapply serving_same; [done| |done]. intros c. unfold serves. by rewrite Ht.
    + split; simpl; auto.
  - assert (∀ c, serves w c = false) as Hno by (intros c; unfold serves; by rewrite Ht).
    destruct (Tls.accept tr) as [[[u|e]|] tr']; [| |done]; simpl.
    + eapply fw_inv_update with (slot := slot) (w := w); try done; simpl.
      * eapply rtc_r; [done|apply System.sys_accept].
      * eapply serving_start; done.
      * split; simpl; [done|done|done|]. intros Hs. by destruct (Hcell Hs) as [|[]].
    + eapply fw_inv_update with (slot := slot) (w := w); try done; simpl.
      * by eapply serving_same.
      * split; simpl; [done|done|done|]. intros Hs. by destruct (Hcell Hs) as [|[]].
  - by apply serve_ok.
  - unfold release_worker_slot. destruct (ws_locked w) eqn:Hl; [done|]. simpl.
    eapply fw_inv_update with (slot := slot) (w := w); try done; simpl.
    + eapply serving_same; [done| |done]. intros c. unfold serves. by rewrite Ht.
    + split; simpl; [|congruence| |auto].
      * split; [done|]. intros [Hh|[Hk|?]]; [|by destruct (Hcell Hk) as [|[]]|done].
        by destruct (Hheld (or_introl Hh)).
      * intros Hh. by destruct (Hheld Hh).
Qed.

Lemma fw_reachable_inv inbound trng f : fw_reachable inbound trng f → fw_inv inbound f.
Proof.
  intros Hr. pose proof (fw_inv_init inbound trng) as Hi. induction Hr as [|x y z Hxy _ IH]; [done|].
  apply IH. destruct Hxy as [x fresh y He|x slot i y Hs Hin He].
  - pose proof (accept_step_ok inbound x fresh Hi) as Hok. by rewrite He in Hok.
  - pose proof (worker_step_ok inbound x slot i Hi Hs Hin) as Hok. by rewrite He in Hok.
Qed.

(** ** Theorems *)

(** Connections that have not ended. *)
Definition alive (c : TlsT * Connection.phase) : bool :=
  match c.2 with Connection.PhDone => false | _ => true end.
Definition live_conns (f : firmware) : list nat :=
  filter (λ c, from_option alive false (System.sy_conns (fw_sys f) !! c) = true)
    (seq 0 (length (System.sy_conns (fw_sys f)))).

Definition served_conn (w : WorkerSlot) : option nat :=
  match ws_task w with WkServe c => Some c | _ => None end.

Lemma live_conns_bound inbound f :
  fw_inv inbound f → (length (live_conns f) ≤ MAX_TLS_CONNECTIONS)%nat.
Proof.
  intros [_ Hlen _ _ Hsv]. rewrite <-Hlen.
  assert (live_conns f ⊆+ omap served_conn (fw_workers f)) as Hsub%submseteq_length.
  { apply NoDup_submseteq; [apply NoDup_filter, NoDup_seq|]. intros c.
    unfold live_conns. rewrite list_elem_of_filter. intros [Ha _].
    destruct (System.sy_conns (fw_sys f) !! c) as [[t p]|] eqn:Hc; [|done].
    destruct (sv_all _ _ Hsv c t p Hc) as (slot & w & Hw & Hs); [by intros ->|].
    apply list_elem_of_omap. exists w. split; [by eapply list_elem_of_lookup_2|].
    unfold serves in Hs. unfold served_conn. destruct (ws_task w); try done.
    by apply bool_decide_eq_true_1 in Hs as ->. }
  etrans; [exact Hsub|]. apply Router.omap_length.
Qed.

(** C12: the unsafe buffer sharing is sound.  In every reachable state of the
    firmware at most one live socket uses the buffers of a worker, be it held
    by the accept task, waiting in the worker's cell (so a hand-off never
    overwrites a socket) or used by the worker; and the busy flag is exact: it
    is set if and only if there is such a socket, apart from the back-off after
    a failed accept, during which the flag's mutex is held. *)
Theorem worker_buffers_exclusive (inbound : C) (trng : R) (f : firmware) (slot : nat)
  (w : WorkerSlot) :
  fw_reachable inbound trng f → fw_workers f !! slot = Some w →
  (users f slot ≤ 1)%nat ∧
  (ws_busy w = true ↔ users f slot = 1%nat ∧ ws_locked w = false).
Proof.
  intros Hr%fw_reachable_inv Hw. destruct (fi_slots _ _ Hr slot w Hw) as [Hb Hl Ha Hc].
  unfold users. rewrite Hw, Hl.
  destruct (fw_accept f) as [| |j k|j k]; simpl in *; try destruct (decide (j = slot)) as [->|];
    rewrite ?bool_decide_eq_true_2, ?bool_decide_eq_false_2 in * by done;
    destruct (ws_socket w) as [k'|]; destruct (ws_task w); simpl in *;
    rewrite ?bool_decide_eq_true_2, ?bool_decide_eq_false_2 by (done || by intros []); simpl;
    naive_solver (done || lia).
Qed.

(** C9: the firmware is safe.  In every reachable state the broker invariant
    holds for the capacities of the TLS build, no task of the firmware can
    panic, and at most [MAX_TLS_CONNECTIONS] connections are in progress. *)
Theorem firmware_safe (inbound : C) (trng : R) (f : firmware) :
  fw_reachable inbound trng f →
  PublishProofs.broker_inv (MAX_SUBS true) (MAX_INFLIGHT true) (MAX_SESSIONS true)
    (MAX_RETAINED true) (System.sy_broker (fw_sys f)) ∧
  (∀ fresh, accept_step f fresh ≠ Panic) ∧
  (∀ slot i, (slot < MAX_TLS_CONNECTIONS)%nat → System.input_wf i → worker_step f slot i ≠ Panic) ∧
  (length (live_conns f) ≤ MAX_TLS_CONNECTIONS)%nat.
Proof.
  intros Hr%fw_reachable_inv. split_and!.
  - apply (System.si_broker _ _ _ _ _ (firmware_sys_inv _ _ (fi_sys _ _ Hr))).
  - intros fresh Hp. pose proof (accept_step_ok inbound f fresh Hr) as Hok. by rewrite Hp in Hok.
  - intros slot i Hs Hi Hp. pose proof (worker_step_ok inbound f slot i Hr Hs Hi) as Hok.
    by rewrite Hp in Hok.
  - by eapply live_conns_bound.
Qed.

Lemma look_takes (f : firmware) slot w k i :
  fw_workers f !! slot = Some w → ws_task w = WkLook → ws_socket w = Some k →
  ∃ f' w', worker_step f slot i = Done f' ∧ fw_workers f' !! slot = Some w' ∧
    ws_socket w' = None ∧ ws_task w' = WkHandshake (start_session k (fw_trng f)).1.
Proof.
  intros Hw Ht Hk. unfold worker_step. rewrite Hw, Ht.
  unfold wait_for_worker_socket, slot_take. rewrite Hk.
  destruct (start_session k (fw_trng f)) as [tr r]. do 2 eexists. split; [done|]. simpl.
  rewrite list_lookup_insert_eq by (by eapply lookup_lt_Some). done.
Qed.

(** A hand-off is taken.  Whenever a socket waits in a worker's cell, that
    worker, scheduled at most twice, starts the TLS session on that very
    socket. *)
Lemma handoff_is_taken (inbound : C) (trng : R) (f : firmware) (slot : nat) (w : WorkerSlot)
  (k : K) (i : Connection.input) :
  fw_reachable inbound trng f → fw_workers f !! slot = Some w → ws_socket w = Some k →
  ∃ f' w', (worker_step f slot i = Done f' ∨
            ∃ f1, worker_step f slot i = Done f1 ∧ worker_step f1 slot i = Done f') ∧
    fw_workers f' !! slot = Some w' ∧ ws_socket w' = None ∧
    ws_task w' = WkHandshake (start_session k (fw_trng f)).1.
Proof.
  intros Hr%fw_reachable_inv Hw Hk. destruct (fi_slots _ _ Hr slot w Hw) as [_ _ _ Hc].
  destruct (Hc (ex_intro _ _ Hk)) as [Ht|[Ht Hs]].
  { destruct (look_takes f slot w k i Hw Ht Hk) as (f' & w' & ?). exists f', w'. naive_solver. }
  set (w1 := set_task (set_ready w (signal_reset (ws_ready w))) WkLook).
  set (f1 := set_workers f (<[slot := w1]> (fw_workers f))).
  destruct (look_takes f1 slot w1 k i) as (f' & w' & ? & ?); [|done|done|].
  { apply list_lookup_insert_eq. by eapply lookup_lt_Some. }
  exists f', w'. split; [|done]. right. exists f1. split; [|done].
  unfold worker_step. by rewrite Hw, Ht, Hs.
Qed.

(** ** Running the firmware: a task that cannot move leaves the state alone *)
Inductive fw_action := FAccept (fresh : K) | FWorker (slot : nat) (i : Connection.input).

Definition fw_exec_action (f : firmware) (a : fw_action) : firmware :=
  match match a with
        | FAccept fresh => accept_step f fresh
        | FWorker slot i => worker_step f slot i
        end with
  | Done f' => f'
  | _ => f
  end.
Definition fw_exec (f : firmware) (l : list fw_action) : firmware := foldl fw_exec_action f l.

Definition fw_action_wf (a : fw_action) : Prop :=
  match a with
  | FAccept _ => True
  | FWorker slot i => (slot < MAX_TLS_CONNECTIONS)%nat ∧ System.input_wf i
  end.

Lemma fw_exec_reachable inbound trng f l :
  fw_reachable inbound trng f → Forall fw_action_wf l → fw_reachable inbound trng (fw_exec f l).
Proof.
  intros Hr Hall. revert f Hr. induction Hall as [|a l Ha _ IH]; intros f Hr; [done|].
  simpl. apply IH. unfold fw_exec_action. destruct a as [fresh|slot i].
  - destruct (accept_step f fresh) eqn:He; [|done|done].
    eapply rtc_r; [done|]. by eapply fw_accept_task.
  - destruct (worker_step f slot i) eqn:He; [|done|done]. destruct Ha.
    eapply rtc_r; [done|]. by eapply fw_worker_task.
Qed.
End pool.

(** ** Concrete runs: a scripted network and a counter for the generator *)
Record NetScript := {
  ns_accept : option (result unit unit);
  ns_reads : list (option (list Z));
  ns_sent : list Z;
}.

Definition ns_read (s : NetScript) (n : nat) : option (result unit (list Z)) * NetScript :=
  let next r := {| ns_accept := ns_accept s; ns_reads := r; ns_sent := ns_sent s |} in
  match ns_reads s with
  | [] => (None, s)
  | None :: rest => (None, next rest)
  | Some bs :: rest =>
      (Some (Ok (take n bs)), next (if decide (n < length bs)%nat
                                    then Some (drop n bs) :: rest else rest))
  end.

#[global] Instance ns_writer : PartialWriter NetScript unit.
Proof.
  refine {| pw_write s bs := (Ok (length bs), {| ns_accept := ns_accept s; ns_reads := ns_reads s;
                                                 ns_sent := ns_sent s ++ bs |});
            sent := ns_sent |}; [|done].
  intros s bs n s' [= <- <-]. simpl. by rewrite firstn_all.
Defined.

#[global] Instance ns_net : EmbassyNet NetScript unit.
Proof.
  refine {| net_tcp := {| sock_read := ns_read; sock_close s := s |};
            sock_set_timeout s _ := s; sock_accept s _ := (ns_accept s, s) |}.
  intros s n bs s'. unfold ns_read. destruct (ns_reads s) as [|[c|] rest]; try done.
  intros [= <- _]. rewrite length_take. lia.
Defined.

#[global] Instance counter_trng : Trng nat.
Proof.
  refine {| trng_random n := (Z.of_nat n mod 4294967296, S n) |}.
  intros n. simpl. pose proof (Z.mod_pos_bound (Z.of_nat n) 4294967296). int_lia.
Defined.

Section runs.
#[local] Instance toy_engine : GatoPskTls := TlsPsk.toy true.

(** A peer that completes the handshake, connects and subscribes. *)
Definition tls_data (bs : list Z) : list Z := TlsPsk.tls_record TlsPsk.TLS_CT_APPLICATION_DATA bs.
Definition ex_peer : NetScript := {| ns_accept := Some (Ok tt);
  ns_reads := [Some TlsPsk.ex_handshake;
    Some (tls_data (System.enc (System.ex_connect "sub" true)));
    Some (tls_data (System.enc (System.ex_subscribe "a/#")))];
  ns_sent := [] |}.

Definition ex_fw : firmware (C := Command.MockCommandHandler) (K := NetScript) (R := nat) :=
  fw_exec 4 (tls_runtime_task System.ex_handler 7%nat)
    (FWorker 0 System.ex_input :: FAccept ex_peer :: FAccept ex_peer
     :: replicate 14 (FWorker 0 System.ex_input) ++ [FAccept ex_peer; FAccept ex_peer]).
Lemma ex_fw_reachable : fw_reachable 4 System.ex_handler 7%nat ex_fw.
Proof.
  assert (fw_action_wf (K := NetScript) (FWorker 0 System.ex_input)) as Hw.
  { split; [apply Nat.ltb_lt; reflexivity|]. split; split; vm_compute; discriminate. }
  apply fw_exec_reachable; [apply rtc_refl|]. by repeat (constructor; [done|]).
Qed.

(** Worker 0 serves the peer, a second socket waits for worker 1. *)
Definition ex_worker : WorkerSlot (K := NetScript) := default worker_new (fw_workers ex_fw !! 1%nat).

Lemma worker_buffers_exclusive_witness :
  (users ex_fw 1 ≤ 1)%nat ∧
  (ws_busy ex_worker = true ↔ users ex_fw 1 = 1%nat ∧ ws_locked ex_worker = false).
Proof.
  apply (worker_buffers_exclusive 4 System.ex_handler 7%nat ex_fw 1 ex_worker);
    [exact ex_fw_reachable|vm_compute; reflexivity].
Defined.

Lemma firmware_safe_witness :
  PublishProofs.broker_inv 1 0 4 0 (System.sy_broker (fw_sys ex_fw)) ∧
  (∀ fresh, accept_step ex_fw fresh ≠ Panic) ∧
  (∀ slot i, (slot < 4)%nat → System.input_wf i → worker_step 4 ex_fw slot i ≠ Panic) ∧
  (length (live_conns ex_fw) ≤ 4)%nat.
Proof. exact (firmware_safe 4 System.ex_handler 7%nat ex_fw ex_fw_reachable). Defined.

Lemma handoff_is_taken_witness :
  ∃ f' w', (worker_step 4 ex_fw 1 System.ex_input = Done f' ∨
            ∃ f1, worker_step 4 ex_fw 1 System.ex_input = Done f1 ∧
                  worker_step 4 f1 1 System.ex_input = Done f') ∧
    fw_workers f' !! 1%nat = Some w' ∧ ws_socket w' = None ∧
    ws_task w' = WkHandshake (start_session ex_peer (fw_trng ex_fw)).1.
Proof.
  apply (handoff_is_taken 4 System.ex_handler 7%nat ex_fw 1 ex_worker ex_peer System.ex_input);
    [exact ex_fw_reachable|vm_compute; reflexivity|vm_compute; reflexivity].
Defined.

(** The peer sent its handshake, CONNECT and SUBSCRIBE in TLS records and got
    CONNACK and SUBACK back through the session. *)
Example tls_connection_end_to_end :
  (λ c, TlsPsk.ps_sent (Tls.session c.1)) <$> System.sy_conns (fw_sys ex_fw) =
  [System.enc (PConnack {| ca_session_present := false; ca_code := Accepted |}) ++
   System.enc (PSuback {| sa_pid := 1; sa_return_codes := [SrcSuccess AtLeastOnce] |})].
Proof. vm_compute. reflexivity. Qed.
End runs.
End Firmware.
