(* ===== verification/FirmwarePlain.v ===== *)
(** * FirmwarePlain: the plaintext build of the example firmware
    ([examples/esp32c3_mqtt_server/src/main.rs] without the [tls] feature,
    [transport.rs], and the inbound logger)

    Ten identical tasks, each of which allocates socket buffers, listens,
    serves one connection and starts over.  Unlike the TLS build there is no
    accept task and nothing is shared between the tasks but the broker.  The
    theorem: the broker stays safe, no task panics, and the broker's session
    table is large enough for every connection in progress.

    The last section is about the inbound channel of both builds: nothing
    reads it, so it fills up. *)

From S2P Require Import Prelude External Reference Keyed Topics RateLimit Session Registry.
From S2P Require Import Transport Frame Invariants Retained Router Publish Connection System.
From S2P Require Import PublishProofs TlsPsk Firmware.

Module FirmwarePlain.
Import Notify Firmware.

Section pool.
Context `{Heapless} `{Mqttrs} `{EmbassySignal} `{EmbassyTime} `{Command.CommandHandler C}.
Context `{EmbassyNet K E}.
Abbreviation PlainT := (Tcp.TcpTransport K).

(** [OwnedSocketBuffers::new]: [Box::into_raw] is never null and the allocator
    aborts rather than return on failure, so the constructor always succeeds. *)
Definition owned_socket_buffers_new : option (list Z * list Z) :=
  Some (replicate TCP_BUFFER_SIZE 0, replicate TCP_BUFFER_SIZE 0).

(** Where a [plain_worker] is: about to allocate, sleeping after a failed
    allocation, listening, serving. *)
Inductive plain_phase :=
| PwAlloc
| PwSleep
| PwListen (socket : K)
| PwServe (conn : nat).

Record plain_firmware := {
  pf_sys : System.sys (C := C) (T := PlainT);
  pf_workers : list plain_phase;
}.

Definition set_worker (f : plain_firmware) (k : nat) (p : plain_phase) : plain_firmware :=
  {| pf_sys := pf_sys f; pf_workers := <[k := p]> (pf_workers f) |}.

Abbreviation plain_conn_step := (Connection.conn_step (MAX_SESSIONS false) (MAX_SUBS false)
  (MAX_INFLIGHT false) (MAX_RETAINED false) MAX_PACKET_SIZE Config.GATOMQTT_CONFIG).

Definition serve_plain (f : plain_firmware) (k conn : nat) (i : Connection.input)
  : outcome plain_firmware :=
  let s := pf_sys f in
  match System.sy_conns s !! conn with
  | None => Panic
  | Some (_, Connection.PhPanic) => Panic
  | Some (_, Connection.PhDone) => Done (set_worker f k PwAlloc)
  | Some (t, p) =>
      let '(b', t', p') := plain_conn_step (System.sy_broker s) t p i in
      Done {| pf_sys := {| System.sy_broker := b';
                System.sy_conns := <[conn := (t', p')]> (System.sy_conns s);
                System.sy_unacked := System.unacked_by p p' ++ System.sy_unacked s |};
              pf_workers := pf_workers f |}
  end.

(** One stretch of [plain_worker]; [fresh] is the socket [TcpSocket::new] makes
    of the buffers just allocated. *)
Definition plain_worker_step (f : plain_firmware) (k : nat) (fresh : K) (i : Connection.input)
  : outcome plain_firmware :=
  match pf_workers f !! k with
  | None => Panic
  | Some PwAlloc =>
      match owned_socket_buffers_new with
      | None => Done (set_worker f k PwSleep)
      | Some _ =>
          Done (set_worker f k (PwListen (sock_set_timeout fresh (duration_from_secs 30))))
      end
  | Some PwSleep => Done (set_worker f k PwAlloc)
  | Some (PwListen socket) =>
      match sock_accept socket (MQTT_PORT false) with
      | (None, _) => Pending
      | (Some (Err _), _) => Done (set_worker f k PwAlloc)
      | (Some (Ok _), socket) =>
          let s := pf_sys f in
          Done {| pf_sys := {| System.sy_broker := System.sy_broker s;
                    System.sy_conns := System.sy_conns s
                      ++ [({| Tcp.socket := socket |}, Connection.PhConnect)];
                    System.sy_unacked := System.sy_unacked s |};
                  pf_workers := <[k := PwServe (length (System.sy_conns s))]> (pf_workers f) |}
      end
  | Some (PwServe conn) => serve_plain f k conn i
  end.

(** [plain_runtime_task] *)
Definition plain_runtime_task (inbound : C) : plain_firmware :=
  {| pf_sys := System.sys_init (MAX_SESSIONS false) (MAX_INFLIGHT false) inbound;
     pf_workers := replicate MAX_PLAIN_CONNECTIONS PwAlloc |}.

Inductive pf_step : plain_firmware → plain_firmware → Prop :=
| pf_worker f k fresh i f' :
    (k < MAX_PLAIN_CONNECTIONS)%nat → System.input_wf i →
    plain_worker_step f k fresh i = Done f' → pf_step f f'.

Definition pf_reachable (inbound : C) (f : plain_firmware) : Prop :=
  rtc pf_step (plain_runtime_task inbound) f.

(** ** The invariant *)
Definition serving (p : plain_phase) : option nat :=
  match p with PwServe c => Some c | _ => None end.

Abbreviation plain_sys_reachable := (System.reachable (MAX_SESSIONS false) (MAX_SUBS false)
  (MAX_INFLIGHT false) (MAX_RETAINED false) MAX_PACKET_SIZE Config.GATOMQTT_CONFIG).

Record pf_inv (inbound : C) (f : plain_firmware) : Prop := {
  pi_sys : plain_sys_reachable inbound (pf_sys f);
  pi_length : length (pf_workers f) = MAX_PLAIN_CONNECTIONS;
  pi_conn : ∀ k c, pf_workers f !! k = Some (PwServe c) →
    (c < length (System.sy_conns (pf_sys f)))%nat;
  pi_all : ∀ c t p, System.sy_conns (pf_sys f) !! c = Some (t, p) → p ≠ Connection.PhDone →
    ∃ k, pf_workers f !! k = Some (PwServe c);
}.

Lemma pf_inv_init inbound : pf_inv inbound (plain_runtime_task inbound).
Proof.
  unfold plain_runtime_task. split; cbn [pf_sys pf_workers]; try done.
  - apply rtc_refl.
  - by intros k c [? _]%lookup_replicate.
Qed.

(** A worker that serves nothing changes to another such phase. *)
Lemma pf_inv_idle inbound f k p p' :
  pf_inv inbound f → pf_workers f !! k = Some p → serving p' = None →
  (∀ c t q, serving p = Some c → System.sy_conns (pf_sys f) !! c = Some (t, q) →
     q = Connection.PhDone) →
  pf_inv inbound (set_worker f k p').
Proof.
  intros [Hsys Hlen Hconn Hall] Hp Hn Hdone. split; cbn [pf_sys pf_workers set_worker]; try done.
  - by rewrite length_insert.
  - intros j c [<-|?]%list_lookup_insert_cases; [done|eauto].
  - intros c t q Hc Hq. destruct (Hall c t q Hc Hq) as [j Hj]. exists j.
    rewrite list_lookup_insert_ne; [done|]. intros <-. simplify_eq. destruct Hq.
    by eapply Hdone.
Qed.

Definition plain_ok (inbound : C) (r : outcome plain_firmware) : Prop :=
  match r with Done f => pf_inv inbound f | Pending => True | Panic => False end.

Lemma plain_sys_inv inbound (s : System.sys (C := C) (T := PlainT)) :
  plain_sys_reachable inbound s →
  System.sys_inv (MAX_SESSIONS false) (MAX_SUBS false) (MAX_INFLIGHT false) (MAX_RETAINED false) s.
Proof.
  apply System.reachable_inv; [|apply firmware_config_wf].
  apply Nat.leb_le. vm_compute. reflexivity.
Qed.

Lemma serve_plain_ok inbound f k conn i :
  pf_inv inbound f → pf_workers f !! k = Some (PwServe conn) → System.input_wf i →
  plain_ok inbound (serve_plain f k conn i).
Proof.
  intros Hinv Hk Hi. pose proof Hinv as [Hsys Hlen Hconn Hall].
  destruct (lookup_lt_is_Some_2 _ _ (Hconn k conn Hk)) as [[t p] Hc].
  unfold serve_plain. rewrite Hc.
  assert (plain_ok inbound (let '(b', t', p') := plain_conn_step (System.sy_broker (pf_sys f)) t p i
    in Done {| pf_sys := {| System.sy_broker := b';
      System.sy_conns := <[conn := (t', p')]> (System.sy_conns (pf_sys f));
      System.sy_unacked := System.unacked_by p p' ++ System.sy_unacked (pf_sys f) |};
      pf_workers := pf_workers f |})) as Hrun.
  { destruct (plain_conn_step (System.sy_broker (pf_sys f)) t p i) as [[b' t'] p'] eqn:Hstep.
    split; cbn [pf_sys pf_workers System.sy_conns]; try done.
    - eapply rtc_r; [done|]. by eapply System.sys_conn.
    - intros j c Hj. rewrite length_insert. eauto.
    - intros c t1 q. rewrite list_lookup_insert. case_decide as Hd; [|eauto].
      destruct Hd as [-> _]. eauto. }
  destruct p; try exact Hrun.
  - eapply pf_inv_idle; [done|done|done|]. intros c t' q [= <-] ?. by simplify_eq.
  - apply (System.si_phases _ _ _ _ _ (plain_sys_inv _ _ Hsys) _ _ _ Hc).
Qed.

Lemma plain_worker_ok inbound f k fresh i :
  pf_inv inbound f → (k < MAX_PLAIN_CONNECTIONS)%nat → System.input_wf i →
  plain_ok inbound (plain_worker_step f k fresh i).
Proof.
  intros Hinv Hk Hi. pose proof Hinv as [Hsys Hlen Hconn Hall]. unfold plain_worker_step.
  rewrite <-Hlen in Hk. apply lookup_lt_is_Some_2 in Hk as [p Hp]. rewrite Hp.
  destruct p as [| |socket|conn]; try (by eapply pf_inv_idle).
  - destruct (sock_accept socket _) as [[[u|e]|] k']; [|by eapply pf_inv_idle|done].
    split; cbn [pf_sys pf_workers System.sy_conns]; try done.
    + eapply rtc_r; [done|apply System.sys_accept].
    + by rewrite length_insert.
    + intros j c. rewrite length_app. cbn [length].
      intros [[= ->]|Hj]%list_lookup_insert_cases; [lia|]. specialize (Hconn j c Hj). lia.
    + intros c t q [Hc|[Hge Hc]]%lookup_app_Some Hq.
      * destruct (Hall c t q Hc Hq) as [j Hj]. exists j. rewrite list_lookup_insert_ne; [done|].
        intros <-. by simplify_eq.
      * apply list_lookup_singleton_Some in Hc as [Hc0 _]. exists k.
        rewrite list_lookup_insert_eq by (by eapply lookup_lt_Some). do 2 f_equal. lia.
  - by apply serve_plain_ok.
Qed.

Lemma pf_reachable_inv inbound f : pf_reachable inbound f → pf_inv inbound f.
Proof.
  intros Hr. pose proof (pf_inv_init inbound) as Hi. induction Hr as [|x y z Hxy _ IH]; [done|].
  apply IH. destruct Hxy as [x k fresh i y Hk Hin He].
  pose proof (plain_worker_ok inbound x k fresh i Hi Hk Hin) as Hok. by rewrite He in Hok.
Qed.

(** Connections in progress. *)
Definition busy (c : PlainT * Connection.phase) : bool :=
  match c.2 with Connection.PhDone => false | _ => true end.
Definition in_progress (f : plain_firmware) : list nat :=
  filter (λ c, from_option busy false (System.sy_conns (pf_sys f) !! c) = true)
    (seq 0 (length (System.sy_conns (pf_sys f)))).

(** The plaintext build is safe.  In every reachable state of its ten
    workers the broker invariant holds for the capacities of that build, no
    worker can panic, and at most [MAX_PLAIN_CONNECTIONS] connections are in
    progress, which is the number of session slots. *)
Lemma plain_firmware_safe (inbound : C) (f : plain_firmware) :
  pf_reachable inbound f →
  PublishProofs.broker_inv (MAX_SUBS false) (MAX_INFLIGHT false) (MAX_SESSIONS false)
    (MAX_RETAINED false) (System.sy_broker (pf_sys f)) ∧
  (∀ k fresh i, (k < MAX_PLAIN_CONNECTIONS)%nat → System.input_wf i →
     plain_worker_step f k fresh i ≠ Panic) ∧
  (length (in_progress f) ≤ MAX_SESSIONS false)%nat.
Proof.
  intros Hr%pf_reachable_inv. pose proof Hr as [Hsys Hlen Hconn Hall]. split_and!.
  - apply (System.si_broker _ _ _ _ _ (plain_sys_inv _ _ Hsys)).
  - intros k fresh i Hk Hi Hp. pose proof (plain_worker_ok inbound f k fresh i Hr Hk Hi) as Hok.
    by rewrite Hp in Hok.
  - change (MAX_SESSIONS false) with MAX_PLAIN_CONNECTIONS. rewrite <-Hlen.
    etrans; [|apply (Router.omap_length serving)]. apply submseteq_length.
    apply NoDup_submseteq; [apply NoDup_filter, NoDup_seq|]. intros c.
    unfold in_progress. rewrite list_elem_of_filter. intros [Ha _].
    destruct (System.sy_conns (pf_sys f) !! c) as [[t p]|] eqn:Hc; [|done].
    destruct (Hall c t p Hc) as [k Hk]; [by intros ->|].
    apply list_elem_of_omap. exists (PwServe c). split; [by eapply list_elem_of_lookup_2|done].
Qed.
End pool.

(** ** A run: a peer connects and subscribes on worker 3 *)
Inductive pf_action := PfRun (k : nat) (fresh : NetScript).

Definition pf_exec_action (f : plain_firmware (C := Command.MockCommandHandler)) (a : pf_action) :=
  let '(PfRun k fresh) := a in
  match plain_worker_step f k fresh System.ex_input with Done f' => f' | _ => f end.

Definition plain_peer : NetScript := {| ns_accept := Some (Ok tt);
  ns_reads := [Some (System.enc (System.ex_connect "sub" true));
               Some (System.enc (System.ex_subscribe "a/#"))];
  ns_sent := [] |}.

Definition ex_plain : plain_firmware :=
  foldl pf_exec_action (plain_runtime_task System.ex_handler) (replicate 12 (PfRun 3 plain_peer)).

Lemma ex_plain_reachable : pf_reachable System.ex_handler ex_plain.
Proof.
  unfold ex_plain. generalize 12%nat. intros n.
  assert (∀ f, rtc pf_step f (foldl pf_exec_action f (replicate n (PfRun 3 plain_peer)))) as Hn;
    [|apply Hn].
  induction n as [|n IH]; intros f; [apply rtc_refl|]. cbn [replicate foldl].
  etrans; [|apply IH]. unfold pf_exec_action.
  destruct (plain_worker_step f 3 plain_peer System.ex_input) as [f'| |] eqn:He;
    [|apply rtc_refl..].
  apply rtc_once. apply (pf_worker f 3 plain_peer System.ex_input f'); [|split; split|exact He];
    [apply Nat.ltb_lt; reflexivity|vm_compute; discriminate..].
Qed.

Lemma plain_firmware_safe_witness :
  PublishProofs.broker_inv 4 2 10 8 (System.sy_broker (pf_sys ex_plain)) ∧
  (∀ k fresh i, (k < 10)%nat → System.input_wf i → plain_worker_step ex_plain k fresh i ≠ Panic) ∧
  (length (in_progress ex_plain) ≤ 10)%nat.
Proof. exact (plain_firmware_safe System.ex_handler ex_plain ex_plain_reachable). Defined.

Example plain_connection_end_to_end :
  ((λ c, ns_sent (Tcp.socket c.1)) <$> System.sy_conns (pf_sys ex_plain)) =
  [System.enc (PConnack {| ca_session_present := false; ca_code := Accepted |}) ++
   System.enc (PSuback {| sa_pid := 1; sa_return_codes := [SrcSuccess AtLeastOnce] |})] ∧
  in_progress ex_plain = [0%nat].
Proof. vm_compute. done. Qed.

(** ** What the profiles imply *)
Section profiles.
Context `{Heapless}.
Import Topics Router Command Publish Retained.

(** The TLS build has no room for retained messages: retaining anything fails,
    and with it the whole publish. *)
Lemma tls_build_retains_nothing topic payload qos :
  payload ≠ [] →
  ∃ e, retain_publish (MAX_RETAINED true) Retained.new true topic payload qos =
       (Err e, Retained.new).
Proof.
  intros Hp. unfold retain_publish, Retained.set.
  destruct (string_try_from 128 topic) as [t|]; [|simpl; by eauto].
  change (topic_position t (entries Retained.new)) with (@None nat). cbn [entries Retained.new].
  rewrite decide_False by done. destruct (vec_from_slice 512 payload) as [p|]; [|simpl; by eauto].
  rewrite vec_push_spec, decide_False by (simpl; lia). simpl. by eauto.
Qed.

(** [inbound_logger_task], one round: take an intent, or sleep. *)
Class ChannelReceiver (Ch : Type) `{EmbassyChannel Ch} := {
  chan_try_receive : Ch → option MqttIntent * Ch;
  chan_try_receive_spec c :
    let '(r, c') := chan_try_receive c in
    match chan_contents c with
    | [] => r = None ∧ chan_contents c' = []
    | i :: rest => r = Some i ∧ chan_contents c' = rest
    end;
}.

Definition inbound_logger_step `{ChannelReceiver Ch} (logged : list MqttIntent) (inbound : Ch)
  : list MqttIntent * Ch :=
  match chan_try_receive inbound with
  | (Some intent, inbound) => (logged ++ [intent], inbound)
  | (None, inbound) => (logged, inbound)
  end.

(** The logger loses nothing and reorders nothing. *)
Lemma inbound_logger_in_order `{ChannelReceiver Ch} logged (inbound : Ch) :
  let '(logged', inbound') := inbound_logger_step logged inbound in
  logged' ++ chan_contents inbound' = logged ++ chan_contents inbound.
Proof.
  unfold inbound_logger_step. pose proof (chan_try_receive_spec inbound) as Hs.
  destruct (chan_try_receive inbound) as [r c].
  destruct (chan_contents inbound) as [|i rest]; destruct Hs as [-> ->]; [done|].
  by rewrite <-(assoc_L (++)).
Qed.

(** Neither build runs it, and a full channel refuses commands: once
    [chan_cap] commands have arrived every later one sent at QoS 1 costs its
    client the connection. *)
Lemma full_inbound_refuses `{EmbassyChannel Ch} (inbound : Ch) packet :
  is_command_topic (pub_topic_name packet) = true →
  (String.length (pub_topic_name packet) ≤ 128)%nat → (length (pub_payload packet) ≤ 512)%nat →
  qospid_qos (pub_qospid packet) ≠ AtMostOnce →
  (chan_cap ≤ length (chan_contents inbound))%nat →
  let '(r, inbound') := forward_command inbound packet in
  r = Err CommandHandlerOverloaded ∧ chan_contents inbound' = chan_contents inbound.
Proof.
  intros Hc Ht Hp Hq Hfull. unfold forward_command. rewrite Hc.
  rewrite string_try_from_spec, decide_True by done. rewrite vec_from_slice_spec, decide_True by done.
  cbn. pose proof (chan_try_send_spec inbound {| mi_topic := pub_topic_name packet;
    mi_payload := pub_payload packet; mi_qos := qospid_qos (pub_qospid packet) |}) as Hs.
  destruct (chan_try_send inbound _) as [r c]. rewrite decide_False in Hs by lia.
  destruct Hs as [-> Hs]. by rewrite decide_True.
Qed.
End profiles.
End FirmwarePlain.
