(* ===== verification/Bootstrap.v ===== *)
(** * Bootstrap: bringing up the network ([examples/esp32c3_mqtt_server/src/bootstrap.rs])

    The seed of the network stack, the wait for an address, and the task that
    keeps the station connected.  The radio driver and the stack are other
    crates and stay parameters; what the task does with them is here: it never
    asks the radio to connect before the radio runs, whatever the radio
    answers, and its only panics are the two [unwrap]s on configuring and
    starting it. *)

From S2P Require Import Prelude External Keyed Transport Publish TlsPsk Firmware.

Open Scope Z_scope.

(** ** esp-radio: the calls of the station task *)
Class WifiController (W E : Type) := {
  wifi_is_connected : W → result E bool;
  wifi_is_started : W → result E bool;
  wifi_set_config : string → string → W → result E unit * W;
  (** The asynchronous calls: [None] while they have not completed. *)
  wifi_start : W → option (result E unit) * W;
  wifi_connect : W → option (result E unit) * W;
  wifi_disconnected : W → bool;
  (** A radio that started says so. *)
  wifi_started_after w w' : wifi_start w = (Some (Ok tt), w') → wifi_is_started w' = Ok true;
}.

Module Bootstrap.

(** ** The seed: [(trng.random() as u64) << 32 | trng.random() as u64] *)
Definition seed `{Trng R} (trng : R) : Z * R :=
  let '(hi, trng) := trng_random trng in
  let '(lo, trng) := trng_random trng in
  (Z.lor (Z.shiftl hi 32) lo, trng).

(** Both draws are in the seed, in separate halves. *)
Lemma seed_spec `{Trng R} (trng : R) :
  let hi := (trng_random trng).1 in
  let lo := (trng_random (trng_random trng).2).1 in
  (seed trng).1 = 4294967296 * hi + lo ∧ is_u64 (seed trng).1.
Proof.
  simpl. pose proof (trng_random_u32 trng) as Hhi.
  pose proof (trng_random_u32 (trng_random trng).2) as Hlo. unfold seed.
  destruct (trng_random trng) as [hi r1]. cbn [fst snd] in *.
  destruct (trng_random r1) as [lo r2]. cbn [fst] in *.
  assert (Z.lor (Z.shiftl hi 32) lo = 4294967296 * hi + lo) as Heq.
  { assert (Z.land (Z.shiftl hi 32) lo = 0) as Hl; [apply Z.bits_inj'; intros n Hn|].
    - rewrite Z.land_spec, Z.bits_0.
      destruct (decide (n < 32)).
      + by rewrite Z.shiftl_spec_low.
      + rewrite (Z.bits_above_log2 lo n), andb_false_r; [done|by destruct Hlo|].
        destruct (decide (lo = 0)) as [->|]; [simpl; lia|].
        apply Z.log2_lt_pow2; [destruct Hlo; lia|]. destruct Hlo as [_ Hlo].
        unfold U32_MAX in Hlo. assert (2 ^ 32 ≤ 2 ^ n) by (apply Z.pow_le_mono_r; lia).
        change (2 ^ 32) with 4294967296 in *. lia.
    - rewrite <-Z.lxor_lor, <-Z.add_nocarry_lxor by done. rewrite Z.shiftl_mul_pow2 by lia.
      change (2 ^ 32) with 4294967296. lia. }
  rewrite Heq. split; [done|]. unfold is_u64, is_u32, U64_MAX, U32_MAX in *. lia.
Qed.

(** ** [wait_ip]: poll the link, then the address; [polls] are the answers of
    [is_link_up] and [config_v4] at successive polls, [None] is still waiting *)
Fixpoint wait_for {A} (ready : A → bool) (polls : list A) : option (list A) :=
  match polls with
  | [] => None
  | p :: polls => if ready p then Some (p :: polls) else wait_for ready polls
  end.

Record link := { is_link_up : bool; config_v4 : option Z }.

Definition wait_ip (polls : list link) : option (list link) :=
  match wait_for is_link_up polls with
  | None => None
  | Some rest => wait_for (λ l, bool_decide (is_Some (config_v4 l))) rest
  end.

Lemma wait_for_Some {A} (ready : A → bool) polls rest :
  wait_for ready polls = Some rest →
  ∃ before p after, polls = before ++ rest ∧ rest = p :: after ∧ ready p = true ∧
    Forall (λ q, ready q = false) before.
Proof.
  induction polls as [|q polls IH]; [done|]. simpl. destruct (ready q) eqn:Hq.
  - intros [= <-]. by exists [], q, polls.
  - intros (before & p & after & -> & -> & Hp & Hall)%IH. exists (q :: before), p, after.
    split_and!; try done. by constructor.
Qed.

(** The stack is handed out only once an address is there. *)
Lemma wait_ip_has_address polls rest :
  wait_ip polls = Some rest → ∃ l after, rest = l :: after ∧ is_Some (config_v4 l) ∧
    ∃ l', l' ∈ polls ∧ is_link_up l' = true.
Proof.
  unfold wait_ip. destruct (wait_for is_link_up polls) as [mid|] eqn:Hl; [|done].
  apply wait_for_Some in Hl as (b1 & l' & a1 & -> & -> & Hup & _).
  intros (b2 & l & a2 & _ & -> & Ha%bool_decide_eq_true_1 & _)%wait_for_Some.
  exists l, a2. split_and!; [done|done|]. exists l'. split; [set_solver|done].
Qed.

(** ** The station task *)
Section station.
Context `{WifiController W E} (ssid pass : string).

(** [matches!(r, Ok(true))] *)
Definition is_ok_true (r : result E bool) : bool := match r with Ok true => true | _ => false end.

Inductive station_phase :=
| StCheck                  (* top of the loop *)
| StConnected              (* waiting for [StationDisconnected] *)
| StCooldown               (* the delay after a disconnect *)
| StStart                  (* before the [is_started] test *)
| StStarting               (* awaiting [start_async] *)
| StConnect                (* awaiting [connect_async] *)
| StRetry.                 (* the delay after a failed attempt *)

(** One stretch of [connection]. *)
Definition station_step (w : W) (p : station_phase) : outcome (W * station_phase) :=
  match p with
  | StCheck => Done (w, if is_ok_true (wifi_is_connected w) then StConnected else StStart)
  | StConnected => if wifi_disconnected w then Done (w, StCooldown) else Pending
  | StCooldown => Done (w, StStart)
  | StStart =>
      if negb (is_ok_true (wifi_is_started w)) then
        match wifi_set_config ssid pass w with
        | (Ok _, w) => Done (w, StStarting)
        | (Err _, _) => Panic
        end
      else Done (w, StConnect)
  | StStarting =>
      match wifi_start w with
      | (None, _) => Pending
      | (Some (Ok _), w) => Done (w, StConnect)
      | (Some (Err _), _) => Panic
      end
  | StConnect =>
      match wifi_connect w with
      | (None, _) => Pending
      | (Some (Ok _), w) => Done (w, StCheck)
      | (Some (Err _), w) => Done (w, StRetry)
      end
  | StRetry => Done (w, StCheck)
  end.

(** When the task asks for a connection, the radio is running; it panics only
    if the radio refuses its configuration or does not start. *)
Lemma station_connects_when_started w p :
  (p = StConnect → wifi_is_started w = Ok true) →
  match station_step w p with
  | Done (w', p') => p' = StConnect → wifi_is_started w' = Ok true
  | Pending => True
  | Panic => (p = StStart ∧ ∃ e, (wifi_set_config ssid pass w).1 = Err e) ∨
             (p = StStarting ∧ ∃ e, (wifi_start w).1 = Some (Err e))
  end.
Proof.
  intros Hp. destruct p; simpl; try done.
  - by destruct (is_ok_true _).
  - by destruct (wifi_disconnected w).
  - destruct (wifi_is_started w) as [[]|] eqn:Hs; simpl; try done;
      destruct (wifi_set_config ssid pass w) as [[]] eqn:Hc; simpl; try done; left; eauto.
  - destruct (wifi_start w) as [[[[]|e]|] w'] eqn:Hs; [|right; simpl; eauto|done].
    intros _. by eapply wifi_started_after.
  - by destruct (wifi_connect w) as [[[]|] w'].
Qed.
End station.
End Bootstrap.
