(* ===== verification/Boot.v ===== *)
(** * Boot: from reset to a serving firmware
    ([main] and the runtime tasks of [examples/esp32c3_mqtt_server/src/main.rs],
    [bootstrap_stack] of [bootstrap.rs])

    The entry point brings up the random source, the radio and the network
    stack, waits for an address and spawns the tasks that [Firmware.v],
    [FirmwarePlain.v] and [Bootstrap.v] model.  The executor is another crate:
    of a task only as many instances run as its pool has, and [must_spawn]
    panics beyond that.  The theorem: a boot ends with exactly the tasks those
    files start from, panics only if the hardware does not come up, and runs
    nothing that takes connections before there is an address. *)

From S2P Require Import Prelude External Keyed Transport Publish TlsPsk Firmware FirmwarePlain Bootstrap.

Open Scope Z_scope.

(** The tasks of the firmware. *)
Inductive task :=
| Connection
| NetTask
| InboundLogger
| RuntimeTask
| TlsWorker (slot : nat)
| AcceptTask
| PlainWorker.
#[global] Instance task_eq_dec : EqDecision task.
Proof. solve_decision. Defined.

(** [#[embassy_executor::task]], with [pool_size] where it is given. *)
Definition pool_size (t : task) : nat :=
  match t with PlainWorker => Firmware.MAX_PLAIN_CONNECTIONS | _ => 1 end.

Definition instances (t : task) (l : list task) : nat := length (filter (t =.) l).

(** ** embassy-executor: [Spawner::spawn] *)
Class Executor (X : Type) := {
  ex_running : X → list task;
  ex_spawn : task → X → option X;
  ex_spawn_free t x :
    (instances t (ex_running x) < pool_size t)%nat →
    ∃ x', ex_spawn t x = Some x' ∧ ex_running x' = ex_running x ++ [t];
  ex_spawn_busy t x : (pool_size t ≤ instances t (ex_running x))%nat → ex_spawn t x = None;
}.

(** ** The hardware: [Trng::try_new] and [esp_radio::wifi::new] *)
Class Board (B R W E : Type) := {
  bd_trng : B → option R;
  bd_wifi : B → result E W;
}.

Module Boot.

Definition wifi_ssid (env : option string) : string := default "YOUR_WIFI_SSID"%string env.
Definition wifi_pass (env : option string) : string := default "YOUR_WIFI_PASSWORD"%string env.

Section boot.
Context `{Executor X} `{Trng R} `{Board B R W E}.

(** [must_spawn] panics when the pool is exhausted. *)
Definition must_spawn (t : task) (x : X) : outcome X :=
  match ex_spawn t x with Some x => Done x | None => Panic end.

Fixpoint must_spawn_all (ts : list task) (x : X) : outcome X :=
  match ts with
  | [] => Done x
  | t :: ts => match must_spawn t x with Done x => must_spawn_all ts x | o => o end
  end.

(** [spawner.spawn(..).ok()] *)
Definition spawn_ok (t : task) (x : X) : X := default x (ex_spawn t x).

(** What [bootstrap_stack] hands out: the seed went into the stack, the random
    source behind its lock, the radio to its task. *)
Record stack := { st_seed : Z; st_trng : R; st_radio : W }.

Definition bootstrap_stack (b : B) (polls : list Bootstrap.link) (x : X) : outcome (stack * X) :=
  match bd_trng b with
  | None => Panic
  | Some trng =>
      match bd_wifi b with
      | Err _ => Panic
      | Ok controller =>
          let '(seed, trng) := Bootstrap.seed trng in
          let x := spawn_ok NetTask (spawn_ok Connection x) in
          match Bootstrap.wait_ip polls with
          | None => Pending
          | Some _ => Done ({| st_seed := seed; st_trng := trng; st_radio := controller |}, x)
          end
      end
  end.

(** The tasks the runtime task spawns, in order; the logger of the TLS build is
    switched off ([TLS_ENABLE_INBOUND_LOGGER]). *)
Definition runtime_tasks (tls : bool) : list task :=
  if tls then [TlsWorker 0; TlsWorker 1; TlsWorker 2; TlsWorker 3; AcceptTask]
  else replicate Firmware.MAX_PLAIN_CONNECTIONS PlainWorker.

(** [main], and the runtime task it spawns up to its [pending]. *)
Definition main (tls : bool) (b : B) (polls : list Bootstrap.link) (x : X) : outcome (stack * X) :=
  match bootstrap_stack b polls x with
  | Done (s, x) =>
      match must_spawn RuntimeTask x with
      | Done x =>
          match must_spawn_all (runtime_tasks tls) x with
          | Done x => Done (s, x)
          | Pending => Pending
          | Panic => Panic
          end
      | Pending => Pending
      | Panic => Panic
      end
  | Pending => Pending
  | Panic => Panic
  end.

(** ** Pools are large enough *)
Lemma spawn_done t x :
  (instances t (ex_running x) < pool_size t)%nat →
  ∃ x', ex_spawn t x = Some x' ∧ must_spawn t x = Done x' ∧ spawn_ok t x = x' ∧
        ex_running x' = ex_running x ++ [t].
Proof.
  intros (x' & Hs & Hr)%ex_spawn_free. exists x'. unfold must_spawn, spawn_ok. by rewrite Hs.
Qed.

Lemma instances_app t l l' : instances t (l ++ l') = (instances t l + instances t l')%nat.
Proof. unfold instances. by rewrite filter_app, length_app. Qed.

Lemma must_spawn_all_done ts x :
  (∀ t, instances t (ex_running x) + instances t ts ≤ pool_size t)%nat →
  ∃ x', must_spawn_all ts x = Done x' ∧ ex_running x' = ex_running x ++ ts.
Proof.
  revert x. induction ts as [|t ts IH]; intros x Hle; [exists x; by rewrite app_nil_r|].
  destruct (spawn_done t x) as (x1 & _ & Hs & _ & Hr).
  { specialize (Hle t). unfold instances in Hle at 2. rewrite filter_cons_True in Hle by done. simpl in Hle. lia. }
  destruct (IH x1) as (x' & Hall & Hr').
  { intros u. specialize (Hle u). rewrite Hr. change (t :: ts) with ([t] ++ ts) in Hle.
    rewrite !instances_app in *. lia. }
  exists x'. simpl. rewrite Hs, Hall, Hr', Hr, <-app_assoc. done.
Qed.

Lemma runtime_fits tls t :
  (instances t ([Connection; NetTask; RuntimeTask] ++ runtime_tasks tls) ≤ pool_size t)%nat.
Proof.
  destruct tls.
  - destruct t as [| | | |[|[|[|[|slot]]]]| |]; apply Nat.leb_le; vm_compute; reflexivity.
  - destruct t as [| | | |slot| |]; apply Nat.leb_le; vm_compute; reflexivity.
Qed.

(** The boot of an executor that runs nothing yet.  It panics exactly when the
    random source or the radio is missing, waits while there is no address, and
    otherwise leaves the radio's task, the stack's, the runtime task and its
    workers running, in this order and once each. *)
Lemma main_boots (tls : bool) (b : B) (polls : list Bootstrap.link) (x : X) :
  ex_running x = [] →
  match main tls b polls x with
  | Done (s, x') =>
      ex_running x' = [Connection; NetTask; RuntimeTask] ++ runtime_tasks tls ∧
      is_Some (Bootstrap.wait_ip polls) ∧
      ∃ trng, bd_trng b = Some trng ∧ Bootstrap.seed trng = (st_seed s, st_trng s) ∧
              bd_wifi b = Ok (st_radio s)
  | Pending => Bootstrap.wait_ip polls = None
  | Panic => bd_trng b = None ∨ ∃ e, bd_wifi b = Err e
  end.
Proof.
  intros Hx. unfold main, bootstrap_stack. destruct (bd_trng b) as [trng|] eqn:Ht; [|by left].
  destruct (bd_wifi b) as [w|e] eqn:Hw; [|by right; exists e].
  destruct (Bootstrap.seed trng) as [seed trng'] eqn:Hseed.
  destruct (Bootstrap.wait_ip polls) as [rest|] eqn:Hip; [|done].
  destruct (spawn_done Connection x) as (x1 & _ & _ & -> & Hr1); [rewrite Hx; vm_compute; lia|].
  destruct (spawn_done NetTask x1) as (x2 & _ & _ & -> & Hr2); [rewrite Hr1, Hx; vm_compute; lia|].
  destruct (spawn_done RuntimeTask x2) as (x3 & _ & -> & _ & Hr3); [rewrite Hr2, Hr1, Hx; vm_compute; lia|].
  rewrite Hr2, Hr1, Hx in Hr3. simpl in Hr3.
  destruct (must_spawn_all_done (runtime_tasks tls) x3) as (x4 & -> & Hr4).
  { intros t. rewrite Hr3, <-instances_app. apply runtime_fits. }
  rewrite Hr4, Hr3. split_and!; [done|done|]. exists trng. done.
Qed.
End boot.

(** An executor that keeps the list of its tasks. *)
#[global] Instance list_executor : Executor (list task).
Proof.
  refine {| ex_running x := x;
            ex_spawn t x := if decide (instances t x < pool_size t)%nat then Some (x ++ [t]) else None |}.
  - intros t x Hlt. rewrite decide_True by done. by eexists.
  - intros t x Hle. by rewrite decide_False by lia.
Defined.

(** There is a worker for every slot the accept task can reserve. *)
Lemma tls_workers_spawned :
  omap (λ t, match t with TlsWorker slot => Some slot | _ => None end) (runtime_tasks true)
  = seq 0 Firmware.MAX_TLS_CONNECTIONS.
Proof. vm_compute. reflexivity. Qed.

(** A board that works, on which an address arrives at the third poll. *)
#[local] Instance working_board : Board unit nat unit unit :=
  {| bd_trng _ := Some 1%nat; bd_wifi _ := Ok tt |}.

Lemma ex_boot :
  let poll up address := {| Bootstrap.is_link_up := up; Bootstrap.config_v4 := address |} in
  ∃ s, main true tt [poll false None; poll true None; poll true (Some 1)] [] =
    Done (s, [Connection; NetTask; RuntimeTask; TlsWorker 0; TlsWorker 1; TlsWorker 2; TlsWorker 3; AcceptTask]) ∧
    st_seed s = 4294967296 + 2.
Proof. eexists. split; vm_compute; reflexivity. Qed.
End Boot.
