(* ===== verification/HostServer.v ===== *)
(** * HostServer: the interoperability tester ([tools/host_tls_psk_server])

    A host-side echo server over the same TLS engine as the firmware: read the
    ClientHello, send the first flight, skip dummy records, verify the client's
    Finished, then answer every application-data record with an echo of its
    plaintext; [main] serves every accepted stream this way.  The theorems: whatever the peer sends and whatever fails, no
    application data is written before the Finished is verified, and what is
    written after it are the encrypted echoes of the records received, in
    order; on a stream that delivers, every record is echoed; the loops end
    with the input. *)

From S2P Require Import Prelude External Keyed Transport TlsPsk.

Open Scope Z_scope.

(** ** tokio

    [read_exact] fills the whole buffer or fails; [write_all] takes the whole
    buffer or fails after a prefix; [flush] moves nothing the peer can tell.
    [ts_input] and [ts_output] are ghosts: the bytes the peer has yet to have
    read, and the bytes it was sent.  A read that never completes is
    [Pending]. *)
Class TokioStream (K E : Type) := {
  ts_read_exact : nat → prog K E (list Z);
  ts_write_all : list Z → prog K E unit;
  ts_flush : prog K E unit;
  ts_input : K → list Z;
  ts_output : K → list Z;
  ts_read_ok n k bs k' : ts_read_exact n k = (Done (Ok bs), k') →
    length bs = n ∧ ts_input k = bs ++ ts_input k';
  ts_read_output n k : ts_output (ts_read_exact n k).2 = ts_output k;
  ts_write_ok bs k k' : ts_write_all bs k = (Done (Ok tt), k') → ts_output k' = ts_output k ++ bs;
  ts_write_prefix bs k : ∃ n, ts_output (ts_write_all bs k).2 = ts_output k ++ take n bs;
  ts_write_input bs k : ts_input (ts_write_all bs k).2 = ts_input k;
  ts_flush_same k : ts_input (ts_flush k).2 = ts_input k ∧ ts_output (ts_flush k).2 = ts_output k;
  ts_no_panic n k bs : (ts_read_exact n k).1 ≠ Panic ∧ (ts_write_all bs k).1 ≠ Panic ∧
    (ts_flush k).1 ≠ Panic;
}.

(** The engine's decryption that rejects alerts. *)
Class GatoAppData `{GatoPskTls} := {
  decrypt_app_data : TlsServerSession → list Z → nat → result TlsError (list Z) * TlsServerSession;
}.

Module HostServer.

(** The record constants have the values of the session adapter's. *)
Abbreviation RECORD_HEADER_LEN := TlsPsk.RECORD_HEADER_LEN.
Abbreviation TLS_CT_CHANGE_CIPHER_SPEC := TlsPsk.TLS_CT_CHANGE_CIPHER_SPEC.
Abbreviation TLS_CT_HANDSHAKE := TlsPsk.TLS_CT_HANDSHAKE.
Abbreviation TLS_CT_APPLICATION_DATA := TlsPsk.TLS_CT_APPLICATION_DATA.
Definition MAX_RECORD_LEN : nat := 18 * 1024.
(** [b"echo: "] *)
Abbreviation ECHO := [101; 99; 104; 111; 58; 32].

Lemma header_fits : (RECORD_HEADER_LEN ≤ MAX_RECORD_LEN)%nat.
Proof. apply Nat.leb_le. vm_compute. reflexivity. Qed.
Lemma header_pos : (0 < RECORD_HEADER_LEN)%nat.
Proof. apply Nat.ltb_lt. reflexivity. Qed.
#[local] Opaque MAX_RECORD_LEN RECORD_HEADER_LEN.

Section server.
Context `{GatoPskTls} `{!GatoAppData} `{TokioStream K E}.

(** The contexts [anyhow] attaches. *)
Inductive HostError :=
| ReadHeader (e : E)
| ReadBody (e : E)
| BodyTooLarge (body_len max : nat)
| NotHandshake (ct : Z) (len : nat)
| ClientHello (e : TlsError)
| HrrUnsupported
| WriteFlight (e : E)
| FlushFlight (e : E)
| UnexpectedRecord (ct : Z)
| ClientFinished (e : TlsError)
| Encrypt (e : TlsError)
| WriteEcho (e : E)
| FlushEcho (e : E).

(** The locals that survive an await: the stream and the TLS session. *)
Record conn := { hc_stream : K; hc_session : TlsServerSession }.
Local Abbreviation host := (prog conn HostError).

Definition on_stream {A} (err : E → HostError) (c : prog K E A) : host A := λ s,
  let '(r, k) := c (hc_stream s) in
  (match r with
   | Done r => Done (map_err err r) | Pending => Pending | Panic => Panic
   end, {| hc_stream := k; hc_session := hc_session s |}).

Definition on_session {A} (err : TlsError → HostError)
  (f : TlsServerSession → result TlsError A * TlsServerSession) : host A := λ s,
  let '(r, i) := f (hc_session s) in
  (Done (map_err err r), {| hc_stream := hc_stream s; hc_session := i |}).

Definition body_len (header : list Z) : nat :=
  Z.to_nat (256 * default 0 (header !! 3%nat) + default 0 (header !! 4%nat)).

Definition read_record : host (list Z) :=
  io_bind (on_stream ReadHeader (ts_read_exact RECORD_HEADER_LEN)) (λ header,
  let n := body_len header in
  if decide (MAX_RECORD_LEN - RECORD_HEADER_LEN < n)%nat
  then io_fail (BodyTooLarge n (MAX_RECORD_LEN - RECORD_HEADER_LEN))
  else io_bind (on_stream ReadBody (ts_read_exact n)) (λ body, io_ret (header ++ body))).

(** [rec[0]]: a record has at least its header. *)
Definition content_type (rec : list Z) : Z := default 0 (rec !! 0%nat).

(** The first record that is not a dummy.  Every round reads at least a
    header, so the input bounds the rounds ([drain_fuel]). *)
Fixpoint drain_ccs (fuel : nat) : host (list Z) :=
  match fuel with
  | O => λ s, (Pending, s)
  | S fuel =>
      io_bind read_record (λ rec,
      if decide (content_type rec = TLS_CT_CHANGE_CIPHER_SPEC) then drain_ccs fuel
      else if decide (content_type rec = TLS_CT_APPLICATION_DATA) then io_ret rec
      else io_fail (UnexpectedRecord (content_type rec)))
  end.

(** One record of the echo loop: [true] to go on, [false] to break. *)
Definition echo_record (rec : list Z) : host bool :=
  if decide (content_type rec = TLS_CT_CHANGE_CIPHER_SPEC) then io_ret true
  else if decide (content_type rec ≠ TLS_CT_APPLICATION_DATA) then io_ret false
  else λ s,
    match decrypt_app_data (hc_session s) rec MAX_RECORD_LEN with
    | (Err _, i) => (Done (Ok false), {| hc_stream := hc_stream s; hc_session := i |})
    | (Ok plaintext, i) =>
        (io_bind (on_session Encrypt (λ i, encrypt_app_data i (ECHO ++ plaintext) MAX_RECORD_LEN))
           (λ bytes,
         io_bind (on_stream WriteEcho (ts_write_all bytes)) (λ _,
         io_bind (on_stream FlushEcho ts_flush) (λ _, io_ret true))))
          {| hc_stream := hc_stream s; hc_session := i |}
    end.

Fixpoint echo_loop (fuel : nat) : host unit :=
  match fuel with
  | O => λ s, (Pending, s)
  | S fuel => λ s,
      match read_record s with
      | (Done (Err _), s) => (Done (Ok tt), s)
      | (Done (Ok rec), s) =>
          io_bind (echo_record rec) (λ go : bool, if go then echo_loop fuel else io_ret tt) s
      | (Pending, s) => (Pending, s)
      | (Panic, s) => (Panic, s)
      end
  end.

(** Steps 1 to 4 of [handle_connection]: up to the verified Finished. *)
Definition handshake (fuel : nat) (identity psk server_random : list Z) : host unit :=
  io_bind read_record (λ ch_record,
  if decide (content_type ch_record ≠ TLS_CT_HANDSHAKE)
  then io_fail (NotHandshake (content_type ch_record) (length ch_record))
  else
    io_bind (on_session ClientHello (λ i,
      process_client_hello i (drop RECORD_HEADER_LEN ch_record)
        ((identity, psk), server_random, None) (4 * 1024))) (λ out,
    match out with
    | HelloRetryRequest _ => io_fail HrrUnsupported
    | FirstFlight flight =>
        io_bind (on_stream WriteFlight (ts_write_all flight)) (λ _,
        io_bind (on_stream FlushFlight ts_flush) (λ _,
        io_bind (drain_ccs fuel) (λ finished_record,
        on_session ClientFinished (λ i, process_client_finished i finished_record))))
    end)).

Definition handle_connection (fuel : nat) (identity psk server_random : list Z) : host unit :=
  io_bind (handshake fuel identity psk server_random) (λ _, echo_loop fuel).

(** A fresh connection: [TlsServerSession::new()]. *)
Definition accept_stream (k : K) : conn := {| hc_stream := k; hc_session := server_session_new |}.

(** ** [main]

    The listener's answers, with the random bytes each connection will draw:
    every accepted stream is served by a task of its own, which owns the stream
    and copies of the identity and the key; a failed accept is skipped. *)
Record Args := { ar_psk_identity : string; ar_psk_hex : string }.

Inductive MainError (F : Type) := DecodePskHex (e : F) | BindError (e : E).
Arguments DecodePskHex {F} e.
Arguments BindError {F} e.

Definition serve (fuel : nat) (identity psk : list Z) (accepted : result E (K * list Z))
  : option (outcome (result HostError unit) * conn) :=
  match accepted with
  | Ok (stream, random) => Some (handle_connection fuel identity psk random (accept_stream stream))
  | Err _ => None
  end.

Definition main {F} (hex_decode : string → result F (list Z)) (bind : result E unit) (fuel : nat)
  (args : Args) (accepts : list (result E (K * list Z)))
  : result (MainError F) (list (outcome (result HostError unit) * conn)) :=
  psk ← map_err DecodePskHex (hex_decode (ar_psk_hex args));
  _ ← map_err BindError bind;
  mret (omap (serve fuel (as_bytes (ar_psk_identity args)) psk) accepts).

(** ** Reading *)

Local Abbreviation input s := (ts_input (hc_stream s)).
Local Abbreviation output s := (ts_output (hc_stream s)).

Definition record_wf (rec : list Z) : Prop :=
  (RECORD_HEADER_LEN ≤ length rec)%nat ∧
  length rec = (RECORD_HEADER_LEN + body_len (take RECORD_HEADER_LEN rec))%nat ∧
  (length rec ≤ MAX_RECORD_LEN)%nat.

Lemma on_stream_session {A} err (c : prog K E A) s :
  hc_session (on_stream err c s).2 = hc_session s.
Proof. unfold on_stream. by destruct (c (hc_stream s)). Qed.

Lemma on_stream_ok {A} err (c : prog K E A) s a s' :
  on_stream err c s = (Done (Ok a), s') → c (hc_stream s) = (Done (Ok a), hc_stream s').
Proof. unfold on_stream. destruct (c (hc_stream s)) as [[[]| |] ?]; intros; by simplify_eq/=. Qed.

Lemma on_stream_stream {A} err (c : prog K E A) s :
  hc_stream (on_stream err c s).2 = (c (hc_stream s)).2.
Proof. unfold on_stream. by destruct (c (hc_stream s)). Qed.

Lemma on_stream_no_panic {A} err (c : prog K E A) s :
  (c (hc_stream s)).1 ≠ Panic → (on_stream err c s).1 ≠ Panic.
Proof. unfold on_stream. by destruct (c (hc_stream s)) as [[]]. Qed.

(** A record is the next bytes of the input, well-formed; nothing is written,
    the TLS session is not involved. *)
Lemma read_record_spec s :
  let '(r, s') := read_record s in
  hc_session s' = hc_session s ∧ output s' = output s ∧ r ≠ Panic ∧
  ∀ rec, r = Done (Ok rec) → record_wf rec ∧ input s = rec ++ input s'.
Proof.
  unfold read_record, io_bind at 1.
  pose proof (on_stream_session ReadHeader (ts_read_exact RECORD_HEADER_LEN) s) as Hs.
  pose proof (on_stream_stream ReadHeader (ts_read_exact RECORD_HEADER_LEN) s) as Hk.
  pose proof (ts_read_output RECORD_HEADER_LEN (hc_stream s)) as Ho.
  pose proof (on_stream_no_panic ReadHeader _ s
    (proj1 (ts_no_panic RECORD_HEADER_LEN (hc_stream s) []))) as Hnp.
  rewrite <-Hk in Ho.
  destruct (on_stream ReadHeader _ s) as [[[header|e]| |] s1] eqn:Hr; simpl in *;
    [|by split_and!|by split_and!|done].
  apply on_stream_ok, ts_read_ok in Hr as [Hlen Hin].
  case_decide as Hbig; [by split_and!|]. unfold io_bind.
  pose proof (on_stream_session ReadBody (ts_read_exact (body_len header)) s1) as Hs1.
  pose proof (on_stream_stream ReadBody (ts_read_exact (body_len header)) s1) as Hk1.
  pose proof (ts_read_output (body_len header) (hc_stream s1)) as Ho1.
  pose proof (on_stream_no_panic ReadBody _ s1
    (proj1 (ts_no_panic (body_len header) (hc_stream s1) []))) as Hnp1.
  rewrite <-Hk1 in Ho1.
  destruct (on_stream ReadBody _ s1) as [[[body|e]| |] s2] eqn:Hr; simpl in *;
    [|by split_and!; congruence|by split_and!; congruence|done].
  apply on_stream_ok, ts_read_ok in Hr as [Hlen1 Hin1].
  split_and!; [congruence|congruence|done|]. intros rec [= <-].
  unfold record_wf. rewrite length_app, take_app_le, take_ge by lia. pose proof header_fits.
  split; [lia|]. by rewrite Hin, Hin1, (assoc_L (++)).
Qed.

(** ** The echo loop *)

(** [f] is the engine's encryption of the echo of record [rec]. *)
Definition echo_of (i : TlsServerSession) (rec f : list Z) (j : TlsServerSession) : Prop :=
  ∃ p i', content_type rec = TLS_CT_APPLICATION_DATA ∧
    decrypt_app_data i rec MAX_RECORD_LEN = (Ok p, i') ∧
    encrypt_app_data i' (ECHO ++ p) MAX_RECORD_LEN = (Ok f, j).

(** The frames answer the records one by one, dummies aside. *)
Inductive echoed : TlsServerSession → list (list Z) → list (list Z) → TlsServerSession → Prop :=
| echoed_nil i : echoed i [] [] i
| echoed_ccs i rec recs fs j :
    content_type rec = TLS_CT_CHANGE_CIPHER_SPEC → echoed i recs fs j →
    echoed i (rec :: recs) fs j
| echoed_data i rec f i' recs fs j :
    echo_of i rec f i' → echoed i' recs fs j → echoed i (rec :: recs) (f :: fs) j.

(** Bytes of an answer whose write failed half way. *)
Definition partial_echo (i : TlsServerSession) (part : list Z) : Prop :=
  part = [] ∨ ∃ rec f j, echo_of i rec f j ∧ part `prefix_of` f.

Lemma flush_spec err s :
  let '(r, s') := on_stream err ts_flush s in
  hc_session s' = hc_session s ∧ input s' = input s ∧ output s' = output s ∧ r ≠ Panic.
Proof.
  pose proof (on_stream_session err ts_flush s). pose proof (on_stream_stream err ts_flush s) as Hk.
  pose proof (on_stream_no_panic err _ s (proj2 (proj2 (ts_no_panic 0 (hc_stream s) [])))).
  pose proof (ts_flush_same (hc_stream s)) as [Hi Ho]. rewrite <-Hk in Hi, Ho.
  by destruct (on_stream err ts_flush s).
Qed.

Lemma write_spec err bs s :
  let '(r, s') := on_stream err (ts_write_all bs) s in
  hc_session s' = hc_session s ∧ input s' = input s ∧ r ≠ Panic ∧
  (∃ n, output s' = output s ++ take n bs) ∧ (r = Done (Ok tt) → output s' = output s ++ bs).
Proof.
  pose proof (on_stream_session err (ts_write_all bs) s) as Hs.
  pose proof (on_stream_stream err (ts_write_all bs) s) as Hk.
  pose proof (on_stream_no_panic err _ s (proj1 (proj2 (ts_no_panic 0 (hc_stream s) bs)))) as Hp.
  pose proof (ts_write_input bs (hc_stream s)) as Hi.
  pose proof (ts_write_prefix bs (hc_stream s)) as Ho. rewrite <-Hk in Hi, Ho.
  destruct (on_stream err (ts_write_all bs) s) as [r s'] eqn:Hr. simpl in *.
  split_and!; try done. intros ->. by apply on_stream_ok, ts_write_ok in Hr.
Qed.

Lemma take_prefix {A} n (l : list A) : take n l `prefix_of` l.
Proof. exists (drop n l). by rewrite take_drop. Qed.

Lemma echo_record_spec rec s :
  let '(r, s') := echo_record rec s in
  r ≠ Panic ∧ input s' = input s ∧
  match r with
  | Done (Ok true) => ∃ fs, echoed (hc_session s) [rec] fs (hc_session s') ∧
                            output s' = output s ++ concat fs
  | Done (Ok false) => output s' = output s
  | _ => ∃ part, partial_echo (hc_session s) part ∧ output s' = output s ++ part
  end.
Proof.
  unfold echo_record. case_decide as Hc.
  { split_and!; [done|done|]. exists []. split; [by repeat constructor|]. by rewrite app_nil_r. }
  case_decide as Ht; [done|].
  destruct (decrypt_app_data (hc_session s) rec MAX_RECORD_LEN) as [[p|e] i] eqn:Hd; [|done].
  unfold io_bind at 1, on_session. cbn [hc_session].
  destruct (encrypt_app_data i (ECHO ++ p) MAX_RECORD_LEN) as [[f|e] j] eqn:He; cbn [map_err].
  2:{ split_and!; [done|done|]. exists []. split; [by left|]. by rewrite app_nil_r. }
  assert (echo_of (hc_session s) rec f j) as Hecho by (exists p, i; done).
  pose proof (write_spec WriteEcho f {| hc_stream := hc_stream s; hc_session := j |}) as Hw.
  unfold io_bind at 1. destruct (on_stream WriteEcho _ _) as [r1 s1].
  destruct Hw as (Hs1 & Hi1 & Hp1 & (n & Ho1) & Hok1). simpl in *.
  assert (∃ part, partial_echo (hc_session s) part ∧ output s1 = output s ++ part) as Hpart.
  { exists (take n f). split; [|done]. right. exists rec, f, j. split; [done|]. apply take_prefix. }
  destruct r1 as [[[]|e]| |]; [|by split_and!..]. specialize (Hok1 eq_refl).
  pose proof (flush_spec FlushEcho s1) as Hf. unfold io_bind.
  destruct (on_stream FlushEcho _ s1) as [r2 s2]. destruct Hf as (Hs2 & Hi2 & Ho2 & Hp2).
  rewrite <-Ho2 in Hok1, Hpart.
  destruct r2 as [[[]|e]| |]; [|by split_and!; try congruence..].
  split_and!; [done|congruence|]. exists [f]. simpl. rewrite app_nil_r.
  split; [|done]. rewrite Hs2, Hs1. by repeat econstructor.
Qed.

Lemma echoed_app i recs fs j recs' fs' k :
  echoed i recs fs j → echoed j recs' fs' k → echoed i (recs ++ recs') (fs ++ fs') k.
Proof. induction 1; intros; simpl; [done|apply echoed_ccs; auto|eapply echoed_data; eauto]. Qed.

Lemma echo_loop_spec fuel s :
  let '(r, s') := echo_loop fuel s in
  r ≠ Panic ∧ ∃ recs fs i part,
    Forall record_wf recs ∧ concat recs `prefix_of` input s ∧
    echoed (hc_session s) recs fs i ∧ partial_echo i part ∧
    output s' = output s ++ concat fs ++ part ∧ (r = Done (Ok tt) → part = []).
Proof.
  revert s. induction fuel as [|fuel IH]; intros s.
  { split; [done|]. exists [], [], (hc_session s), []. simpl. rewrite app_nil_r.
    split_and!; try done; [apply prefix_nil|constructor|by left]. }
  cbn [echo_loop]. pose proof (read_record_spec s) as Hr. destruct (read_record s) as [r1 s1].
  destruct Hr as (Hs1 & Ho1 & Hp1 & Hrec).
  assert (∃ recs fs i part, Forall record_wf recs ∧ concat recs `prefix_of` input s ∧
    echoed (hc_session s) recs fs i ∧ partial_echo i part ∧
    output s1 = output s ++ concat fs ++ part ∧ part = []) as (recs0 & fs0 & i0 & part0 & Hstop).
  { exists [], [], (hc_session s), []. simpl. rewrite app_nil_r.
    split_and!; try done; [apply prefix_nil|constructor|by left]. }
  destruct r1 as [[rec|e]| |]; try done;
    [|split; [done|]; exists recs0, fs0, i0, part0; naive_solver..].
  destruct (Hrec rec eq_refl) as [Hwf Hin]. unfold io_bind.
  pose proof (echo_record_spec rec s1) as He. destruct (echo_record rec s1) as [r2 s2].
  destruct He as (Hp2 & Hi2 & He). rewrite Hs1, ?Ho1 in He.
  assert (∀ part, partial_echo (hc_session s) part → output s2 = output s ++ part →
    ∃ recs fs i part, Forall record_wf recs ∧ concat recs `prefix_of` input s ∧
      echoed (hc_session s) recs fs i ∧ partial_echo i part ∧
      output s2 = output s ++ concat fs ++ part) as Hfail.
  { intros part Hpart Ho. exists [], [], (hc_session s), part.
    split_and!; try done; [apply prefix_nil|constructor]. }
  destruct r2 as [[[|]|e]| |]; [| | | |done].
  2:{ split; [done|]. exists [], [], (hc_session s), []. simpl. rewrite app_nil_r.
      split_and!; try done; [apply prefix_nil|constructor|by left]. }
  2,3: destruct He as (part & Hpart & Ho); destruct (Hfail part Hpart Ho) as (?&?&?&?&?);
    split; [done|]; do 4 eexists; naive_solver.
  destruct He as (fs1 & Hech & Ho2). specialize (IH s2).
  destruct (echo_loop fuel s2) as [r s'].
  destruct IH as (Hp & recs & fs & i & part & Hall & Hpre & Hech2 & Hpart & Ho & Hok).
  split; [done|]. exists (rec :: recs), (fs1 ++ fs), i, part. split_and!; try done.
  - by constructor.
  - simpl. rewrite Hin. apply prefix_app. by rewrite <-Hi2.
  - by apply (echoed_app _ [rec] fs1 (hc_session s2)).
  - rewrite Ho, Ho2, concat_app. by rewrite <-!(assoc_L (++)).
Qed.

(** ** The handshake *)
Lemma drain_ccs_spec fuel s :
  let '(r, s') := drain_ccs fuel s in
  hc_session s' = hc_session s ∧ output s' = output s ∧ r ≠ Panic ∧
  ∀ rec, r = Done (Ok rec) → ∃ dummies,
    Forall (λ c, content_type c = TLS_CT_CHANGE_CIPHER_SPEC) dummies ∧
    content_type rec = TLS_CT_APPLICATION_DATA ∧
    input s = concat dummies ++ rec ++ input s'.
Proof.
  revert s. induction fuel as [|fuel IH]; intros s; [done|]. cbn [drain_ccs]. unfold io_bind.
  pose proof (read_record_spec s) as Hr. destruct (read_record s) as [[[rec|e]| |] s1];
    destruct Hr as (Hs1 & Ho1 & Hp1 & Hrec); try done.
  destruct (Hrec rec eq_refl) as [_ Hin]. case_decide as Hc.
  - specialize (IH s1). destruct (drain_ccs fuel s1) as [r s'].
    destruct IH as (Hs & Ho & Hp & Hok). split_and!; [congruence|congruence|done|].
    intros rec' Hr. destruct (Hok rec' Hr) as (ds & Hds & Hct & Hin').
    exists (rec :: ds). split_and!; [by constructor|done|]. simpl.
    by rewrite Hin, Hin', <-!(assoc_L (++)).
  - case_decide as Ht; [|done]. split_and!; try done. intros rec' [= <-]. by exists [].
Qed.

(** The handshake of a connection that got as far as a verified Finished: its
    ClientHello and Finished in the input, the first flight [flight], the
    engine's state [j] after it and the input [rest] that follows. *)
Definition handshaken (identity psk random : list Z) (k : K) (flight : list Z)
  (j : TlsServerSession) (rest : list Z) : Prop :=
  ∃ hello i dummies finished,
    ts_input k = hello ++ concat dummies ++ finished ++ rest ∧
    content_type hello = TLS_CT_HANDSHAKE ∧
    process_client_hello server_session_new (drop RECORD_HEADER_LEN hello)
      ((identity, psk), random, None) (4 * 1024) = (Ok (FirstFlight flight), i) ∧
    Forall (λ c, content_type c = TLS_CT_CHANGE_CIPHER_SPEC) dummies ∧
    process_client_finished i finished = (Ok tt, j).

(** Before the Finished is verified: nothing, or (part of) the first flight. *)
Definition unverified (identity psk random written : list Z) : Prop :=
  written = [] ∨ ∃ hello flight i,
    process_client_hello server_session_new hello ((identity, psk), random, None) (4 * 1024)
      = (Ok (FirstFlight flight), i) ∧ written `prefix_of` flight.

Lemma handshake_spec fuel identity psk random k :
  let '(r, s') := handshake fuel identity psk random (accept_stream k) in
  r ≠ Panic ∧
  (∃ written, output s' = ts_output k ++ written ∧ unverified identity psk random written) ∧
  (r = Done (Ok tt) → ∃ flight, output s' = ts_output k ++ flight ∧
     handshaken identity psk random k flight (hc_session s') (input s')).
Proof.
  unfold handshake, io_bind at 1. set (s := accept_stream k).
  assert (∀ s1, output s1 = output s → ∃ written, output s1 = ts_output k ++ written ∧
    unverified identity psk random written) as Hsilent.
  { intros s1 Ho. exists []. rewrite app_nil_r. split; [done|by left]. }
  pose proof (read_record_spec s) as Hr. destruct (read_record s) as [[[ch|e]| |] s1];
    destruct Hr as (Hs1 & Ho1 & Hp1 & Hrec); try (by split_and!; auto).
  destruct (Hrec ch eq_refl) as [_ Hin1]. case_decide as Hct; [by split_and!; auto|].
  unfold io_bind at 1, on_session at 1. rewrite Hs1. cbn [hc_session accept_stream s].
  destruct (process_client_hello _ _ _ _) as [[[flight|hrr]|e] i] eqn:Hch; cbn [map_err];
    try (by split_and!; auto).
  pose proof (write_spec WriteFlight flight {| hc_stream := hc_stream s1; hc_session := i |}) as Hw.
  unfold io_bind at 1. destruct (on_stream WriteFlight _ _) as [r2 s2].
  destruct Hw as (Hs2 & Hi2 & Hp2 & (n & Ho2) & Hok2). simpl in Hs2, Hi2, Ho2, Hok2.
  rewrite Ho1 in Ho2, Hok2.
  assert (∀ s3, output s3 = output s2 → ∃ written, output s3 = ts_output k ++ written ∧
    unverified identity psk random written) as Hflight.
  { intros s3 Ho. rewrite Ho. exists (take n flight). split; [done|]. right.
    exists (drop RECORD_HEADER_LEN ch), flight, i. split; [done|]. apply take_prefix. }
  destruct r2 as [[[]|e]| |]; try (by split_and!; auto). specialize (Hok2 eq_refl).
  unfold io_bind at 1. pose proof (flush_spec FlushFlight s2) as Hf.
  destruct (on_stream FlushFlight _ s2) as [r3 s3]. destruct Hf as (Hs3 & Hi3 & Ho3 & Hp3).
  destruct r3 as [[[]|e]| |]; try (by split_and!; auto).
  unfold io_bind. pose proof (drain_ccs_spec fuel s3) as Hd.
  destruct (drain_ccs fuel s3) as [r4 s4]. destruct Hd as (Hs4 & Ho4 & Hp4 & Hfin).
  rewrite Ho3 in Ho4. destruct r4 as [[fin|e]| |]; try (by split_and!; auto).
  destruct (Hfin fin eq_refl) as (dummies & Hdum & _ & Hin4).
  unfold on_session. rewrite Hs4, Hs3, Hs2.
  destruct (process_client_finished i fin) as [r5 j] eqn:Hv.
  split_and!; [done|by apply Hflight|]. intros Hr. exists flight. simpl. rewrite Ho4, Hok2.
  split; [done|]. exists ch, i, dummies, fin. rewrite <-Hin4, Hi3, Hi2, <-Hin1.
  destruct r5 as [[]|]; split_and!; done.
Qed.

Lemma host_no_panic fuel identity psk random k :
  (handle_connection fuel identity psk random (accept_stream k)).1 ≠ Panic.
Proof.
  apply io_bind_no_panic.
  - pose proof (handshake_spec fuel identity psk random k).
    destruct (handshake fuel identity psk random (accept_stream k)). tauto.
  - intros u s1 _. pose proof (echo_loop_spec fuel s1). destruct (echo_loop fuel s1). tauto.
Qed.

(** What a connection may have written when it ends with [r]: (part of) the
    first flight, without reporting success; or, after a client Finished that
    the engine verified, the first flight and the encrypted echoes of the
    records that followed, in order, the last one possibly cut short. *)
Definition speaks (identity psk random : list Z) (k : K) (r : outcome (result HostError unit))
  (written : list Z) : Prop :=
  (unverified identity psk random written ∧ r ≠ Done (Ok tt)) ∨
  ∃ flight j rest recs fs i part,
    handshaken identity psk random k flight j rest ∧
    Forall record_wf recs ∧ concat recs `prefix_of` rest ∧
    echoed j recs fs i ∧ partial_echo i part ∧
    written = flight ++ concat fs ++ part ∧ (r = Done (Ok tt) → part = []).

Lemma connection_speaks (fuel : nat) (identity psk random : list Z) (k : K) :
  let '(r, s') := handle_connection fuel identity psk random (accept_stream k) in
  r ≠ Panic ∧ ∃ written, ts_output (hc_stream s') = ts_output k ++ written ∧
  speaks identity psk random k r written.
Proof.
  unfold handle_connection, io_bind, speaks. pose proof (handshake_spec fuel identity psk random k) as Hh.
  destruct (handshake fuel identity psk random (accept_stream k)) as [[[[]|e]| |] s1];
    destruct Hh as (Hp1 & (w & Hw & Hu) & Hok1); try (by split; [|exists w; auto]).
  destruct (Hok1 eq_refl) as (flight & Hf & Hhs).
  pose proof (echo_loop_spec fuel s1) as Hl. destruct (echo_loop fuel s1) as [r s'].
  destruct Hl as (Hp & recs & fs & i & part & Hall & Hpre & Hech & Hpart & Ho & Hok).
  split; [done|]. exists (flight ++ concat fs ++ part). rewrite Ho, Hf, <-(assoc_L (++)).
  split; [done|]. right. exists flight, (hc_session s1), (input s1), recs, fs, i, part. done.
Qed.

(** C34: the tester speaks only the protocol.  Whatever the clients send and
    wherever an accept, a read or a write fails, the server serves exactly the
    streams it accepted, in order and each with the configured identity and
    key; no connection panics, and what it has written is (part of) its first
    flight, in which case it does not report success, or, after a client
    Finished that the engine verified, the first flight followed by the
    encrypted echoes of the records that followed, in order, dummies skipped
    (the last one possibly cut short by a failing write). *)
Theorem host_writes_only_echoes {F} (hex_decode : string → result F (list Z)) (bind : result E unit)
  (fuel : nat) (args : Args) (accepts : list (result E (K * list Z))) :
  match main hex_decode bind fuel args accepts with
  | Err (DecodePskHex e) => hex_decode (ar_psk_hex args) = Err e
  | Err (BindError e) => bind = Err e
  | Ok served => ∃ psk, hex_decode (ar_psk_hex args) = Ok psk ∧
      Forall2 (λ '(k, random) '(r, s'),
        r ≠ Panic ∧ ∃ written, ts_output (hc_stream s') = ts_output k ++ written ∧
          speaks (as_bytes (ar_psk_identity args)) psk random k r written)
        (omap result_ok accepts) served
  end.
Proof.
  unfold main. destruct (hex_decode (ar_psk_hex args)) as [psk|e]; [|done]. simpl.
  destruct bind as [[]|e]; [|done]. simpl. exists psk. split; [done|].
  induction accepts as [|[[k random]|e] accepts IH]; simpl; [constructor| |done].
  constructor; [|exact IH].
  pose proof (connection_speaks fuel (as_bytes (ar_psk_identity args)) psk random k) as Hs.
  by destruct (handle_connection _ _ _ _ _).
Qed.

(** ** The input bounds the rounds *)
Lemma on_stream_live {A} err (c : prog K E A) s :
  (c (hc_stream s)).1 ≠ Pending → (on_stream err c s).1 ≠ Pending.
Proof. unfold on_stream. by destruct (c (hc_stream s)) as [[]]. Qed.

Lemma io_bind_live {A B} (c : host A) (f : A → host B) s :
  (c s).1 ≠ Pending → (∀ a s', c s = (Done (Ok a), s') → (f a s').1 ≠ Pending) →
  (io_bind c f s).1 ≠ Pending.
Proof. unfold io_bind. destruct (c s) as [[[a|e]| |] s'] eqn:Hc; naive_solver. Qed.

Section live.
(** No read, write or flush waits forever: the peer sends or hangs up. *)
Context (Hlive : ∀ n bs (k : K), (ts_read_exact n k).1 ≠ Pending ∧
  (ts_write_all bs k).1 ≠ Pending ∧ (ts_flush k).1 ≠ Pending).

Lemma read_record_live s : (read_record s).1 ≠ Pending.
Proof using Hlive.
  apply io_bind_live; [apply on_stream_live, (Hlive _ [])|]. intros header s1 _. cbv zeta.
  case_decide; [done|]. apply io_bind_live; [apply on_stream_live, (Hlive _ [])|done].
Qed.

Lemma read_record_shorter s rec s' :
  read_record s = (Done (Ok rec), s') → (length (input s') < length (input s))%nat.
Proof.
  intros Hr. pose proof (read_record_spec s) as Hs. rewrite Hr in Hs.
  destruct Hs as (_ & _ & _ & Hrec). destruct (Hrec rec eq_refl) as [[Hlen _] ->].
  rewrite length_app. pose proof header_pos. lia.
Qed.

Lemma drain_ccs_live fuel s : (length (input s) < fuel)%nat → (drain_ccs fuel s).1 ≠ Pending.
Proof using Hlive.
  revert s. induction fuel as [|fuel IH]; intros s Hf; [lia|]. cbn [drain_ccs].
  apply io_bind_live; [apply read_record_live|]. intros rec s1 Hr%read_record_shorter.
  case_decide; [apply IH; lia|]. by case_decide.
Qed.

Lemma echo_record_live rec s : (echo_record rec s).1 ≠ Pending.
Proof using Hlive.
  unfold echo_record. case_decide; [done|]. case_decide; [done|].
  destruct (decrypt_app_data _ _ _) as [[p|e] i]; [|done].
  apply io_bind_live; [unfold on_session; by destruct (encrypt_app_data _ _ _)|].
  intros f s1 _. apply io_bind_live; [apply on_stream_live, (Hlive 0%nat)|]. intros _ s2 _.
  apply io_bind_live; [apply on_stream_live, (Hlive 0%nat [])|done].
Qed.

Lemma echo_loop_live fuel s : (length (input s) < fuel)%nat → (echo_loop fuel s).1 ≠ Pending.
Proof using Hlive.
  revert s. induction fuel as [|fuel IH]; intros s Hf; [lia|]. cbn [echo_loop].
  pose proof (read_record_live s) as Hrl.
  destruct (read_record s) as [[[rec|e]| |] s1] eqn:Hr; try done.
  apply read_record_shorter in Hr. apply io_bind_live; [apply echo_record_live|].
  intros go s2 He. destruct go; [|done]. apply IH.
  pose proof (echo_record_spec rec s1) as Hs. rewrite He in Hs. destruct Hs as (_ & -> & _). lia.
Qed.

Lemma handshake_live fuel identity psk random k :
  (length (ts_input k) < fuel)%nat →
  (handshake fuel identity psk random (accept_stream k)).1 ≠ Pending.
Proof using Hlive.
  intros Hfuel. unfold handshake. apply io_bind_live; [apply read_record_live|].
  intros ch s1 Hr%read_record_shorter. simpl in Hr. case_decide; [done|].
  apply io_bind_live; [unfold on_session; by destruct (process_client_hello _ _ _ _)|].
  intros out s2 Ho. assert (input s2 = input s1) as Hi2.
  { unfold on_session in Ho. destruct (process_client_hello _ _ _ _). by simplify_eq/=. }
  destruct out as [flight|]; [|done].
  apply io_bind_live; [apply on_stream_live, (Hlive 0%nat)|]. intros u s3 Hw.
  pose proof (write_spec WriteFlight flight s2) as Hs. rewrite Hw in Hs.
  destruct Hs as (_ & Hi3 & _).
  apply io_bind_live; [apply on_stream_live, (Hlive 0%nat [])|]. intros u' s4 Hf.
  pose proof (flush_spec FlushFlight s3) as Hs. rewrite Hf in Hs. destruct Hs as (_ & Hi4 & _).
  apply io_bind_live; [apply drain_ccs_live; rewrite Hi4, Hi3, Hi2; lia|].
  intros fin s5 _. unfold on_session. by destruct (process_client_finished _ _).
Qed.
End live.

(** A connection to the tester ends with its input.  When the peer's reads
    and writes all complete (it sends or hangs up), the server is done after at
    most as many rounds of each loop as there are bytes of input: it neither
    spins nor waits, and it does not panic. *)
Lemma host_connection_ends (fuel : nat) (identity psk random : list Z) (k : K) :
  (∀ n bs (k : K), (ts_read_exact n k).1 ≠ Pending ∧ (ts_write_all bs k).1 ≠ Pending ∧
     (ts_flush k).1 ≠ Pending) →
  (length (ts_input k) < fuel)%nat →
  ∃ r s', handle_connection fuel identity psk random (accept_stream k) = (Done r, s').
Proof.
  intros Hlive Hfuel.
  assert ((handle_connection fuel identity psk random (accept_stream k)).1 ≠ Pending) as Hp.
  { unfold handle_connection. apply io_bind_live; [by apply (handshake_live Hlive)|].
    intros [] s1 Hr. apply (echo_loop_live Hlive).
    pose proof (handshake_spec fuel identity psk random k) as Hs. rewrite Hr in Hs.
    destruct Hs as (_ & _ & Hok). destruct (Hok eq_refl) as (fl & _ & ch & i & ds & fin & Hin & _).
    rewrite Hin, !length_app in Hfuel. lia. }
  pose proof (host_no_panic fuel identity psk random k).
  destruct (handle_connection _ _ _ _ _) as [[r| |] s']; [eauto|done|done].
Qed.
End server.

(** ** A peer in memory *)
Record MemStream := { ms_input : list Z; ms_output : list Z }.

Definition mem_read (n : nat) : prog MemStream unit (list Z) := λ k,
  if decide (n ≤ length (ms_input k))%nat
  then (Done (Ok (take n (ms_input k))),
        {| ms_input := drop n (ms_input k); ms_output := ms_output k |})
  else (Done (Err tt), {| ms_input := []; ms_output := ms_output k |}).

Definition mem_write (bs : list Z) : prog MemStream unit unit := λ k,
  (Done (Ok tt), {| ms_input := ms_input k; ms_output := ms_output k ++ bs |}).

#[global] Instance mem_stream : TokioStream MemStream unit.
Proof.
  refine {| ts_read_exact := mem_read; ts_write_all := mem_write; ts_flush := io_ret tt;
            ts_input := ms_input; ts_output := ms_output |}.
  - intros n k bs k'. unfold mem_read. case_decide as Hn; [|done]. intros [= <- <-]. simpl.
    rewrite length_take_le by done. by rewrite take_drop.
  - intros n k. unfold mem_read. by case_decide.
  - by intros bs k k' [= <-].
  - intros bs k. exists (length bs). by rewrite take_ge.
  - done.
  - done.
  - intros n k bs. unfold mem_read. by case_decide.
Defined.

Lemma mem_live n bs (k : MemStream) :
  (ts_read_exact n k).1 ≠ Pending ∧ (ts_write_all bs k).1 ≠ Pending ∧ (ts_flush k).1 ≠ Pending.
Proof. simpl. unfold mem_read. by case_decide. Qed.

Section complete.
Context `{GatoPskTls} `{!GatoAppData}.

Lemma mem_read_app n h rest out :
  length h = n →
  mem_read n {| ms_input := h ++ rest; ms_output := out |} =
  (Done (Ok h), {| ms_input := rest; ms_output := out |}).
Proof.
  intros <-. unfold mem_read. simpl. rewrite length_app, decide_True by lia.
  by rewrite take_app_length, drop_app_length.
Qed.

Lemma read_record_mem rec rest out i :
  record_wf rec →
  read_record {| hc_stream := {| ms_input := rec ++ rest; ms_output := out |}; hc_session := i |} =
  (Done (Ok rec), {| hc_stream := {| ms_input := rest; ms_output := out |}; hc_session := i |}).
Proof.
  intros (Hh & Hlen & Hmax).
  assert (length (take RECORD_HEADER_LEN rec) = RECORD_HEADER_LEN) as Hl1
    by (rewrite length_take; lia).
  assert (length (drop RECORD_HEADER_LEN rec) = body_len (take RECORD_HEADER_LEN rec)) as Hl2
    by (rewrite length_drop; lia).
  rewrite <-(take_drop RECORD_HEADER_LEN rec) at 1. rewrite <-(assoc_L (++)).
  unfold read_record, io_bind, on_stream. cbn [ts_read_exact mem_stream hc_stream hc_session].
  rewrite (mem_read_app _ _ _ _ Hl1). cbn [map_err hc_stream hc_session].
  rewrite decide_False by (pose proof header_fits; lia). cbn [hc_stream hc_session].
  rewrite (mem_read_app _ _ _ _ Hl2). cbn. by rewrite take_drop.
Qed.

Lemma read_record_mem_end out i :
  read_record {| hc_stream := {| ms_input := []; ms_output := out |}; hc_session := i |} =
  (Done (Err (ReadHeader tt)),
   {| hc_stream := {| ms_input := []; ms_output := out |}; hc_session := i |}).
Proof. reflexivity. Qed.

(** After the handshake every record is echoed.  On a stream that delivers
    the records and takes the answers, the echo loop answers each
    application-data record with the encryption of its echo, in order, skips
    the dummies, and reports a clean close when the peer hangs up, after one
    round per record and one for the end. *)
Lemma host_echoes_every_record (recs fs : list (list Z)) (i j : TlsServerSession)
  (out : list Z) :
  Forall record_wf recs → echoed i recs fs j →
  echo_loop (S (length recs))
    {| hc_stream := {| ms_input := concat recs; ms_output := out |}; hc_session := i |} =
  (Done (Ok tt),
   {| hc_stream := {| ms_input := []; ms_output := out ++ concat fs |}; hc_session := j |}).
Proof.
  intros Hall Hech. revert out Hall.
  induction Hech as [i|i rec recs fs j Hc _ IH|i rec f i' recs fs j He _ IH]; intros out Hall.
  - cbn [echo_loop length concat]. rewrite read_record_mem_end, app_nil_r. done.
  - apply Forall_cons in Hall as [Hwf Hall]. cbn [length concat]. remember (S (length recs)) as n.
    cbn [echo_loop]. rewrite read_record_mem by done. unfold io_bind, echo_record.
    rewrite decide_True by done. by apply IH.
  - apply Forall_cons in Hall as [Hwf Hall]. cbn [length concat]. remember (S (length recs)) as n.
    cbn [echo_loop]. rewrite read_record_mem by done. destruct He as (p & i1 & Ht & Hd & He).
    unfold echo_record, io_bind. rewrite decide_False by (by rewrite Ht).
    rewrite decide_False by (by intros Hn). cbn [hc_session]. rewrite Hd. unfold on_session.
    cbn [hc_session]. rewrite He. cbn. rewrite IH by done. by rewrite <-(assoc_L (++)).
Qed.
End complete.

(** ** The tester with the toy engine *)
#[global] Instance toy_app_data accepts : GatoAppData (H := TlsPsk.toy accepts) :=
  @Build_GatoAppData (TlsPsk.toy accepts)
    (λ (_ : unit) (record : list Z) (_ : nat),
       (Ok (drop RECORD_HEADER_LEN record) : result unit (list Z), tt)).

(** A ClientHello, a dummy, the Finished, then two records around a dummy. *)
Definition ex_data : list (list Z) :=
  [TlsPsk.tls_record 23 [7; 8]; TlsPsk.tls_record 20 [1]; TlsPsk.tls_record 23 [9]].
Definition ex_stream : MemStream :=
  {| ms_input := TlsPsk.ex_handshake ++ concat ex_data; ms_output := [] |}.
Definition ex_answers : list (list Z) :=
  [TlsPsk.tls_record 23 (ECHO ++ [7; 8]); TlsPsk.tls_record 23 (ECHO ++ [9])].

Example host_run :
  (handle_connection (H := TlsPsk.toy true) 5 [1] [2] [] (accept_stream ex_stream)).1
    = Done (Ok tt) ∧
  ms_output (hc_stream (H := TlsPsk.toy true)
    (handle_connection (H := TlsPsk.toy true) 5 [1] [2] [] (accept_stream ex_stream)).2)
    = 22 :: concat ex_answers.
Proof. vm_compute. done. Qed.

Lemma host_connection_ends_witness :
  ∃ r s', handle_connection (H := TlsPsk.toy true) 60 [1] [2] [] (accept_stream ex_stream)
          = (Done r, s').
Proof.
  apply (host_connection_ends (H := TlsPsk.toy true) 60 [1] [2] [] ex_stream mem_live).
  apply Nat.ltb_lt. vm_compute. reflexivity.
Defined.

Definition ex_session : TlsServerSession (GatoPskTls := TlsPsk.toy true) := server_session_new.

Lemma host_echoes_every_record_witness :
  echo_loop (H := TlsPsk.toy true) 4
    {| hc_stream := {| ms_input := concat ex_data; ms_output := [] |};
       hc_session := ex_session |} =
  (Done (Ok tt),
   {| hc_stream := {| ms_input := []; ms_output := [] ++ concat ex_answers |};
      hc_session := ex_session |}).
Proof.
  apply (host_echoes_every_record (H := TlsPsk.toy true) ex_data ex_answers ex_session ex_session []).
  - repeat (constructor; [split_and!; apply Nat.leb_le || (apply Nat.eqb_eq); vm_compute;
      reflexivity|]). constructor.
  - apply (echoed_data _ _ _ ex_session); [exists [7; 8], ex_session; done|].
    apply echoed_ccs; [done|].
    apply (echoed_data _ _ _ ex_session); [exists [9], ex_session; done|]. apply echoed_nil.
Defined.
End HostServer.
