(* ===== verification/HostClient.v ===== *)
(** * HostClient: the C test client ([tools/host_tls_mqtt_client])

    A command-line client over mbedTLS: parse the options, build a CONNECT,
    shake hands, send it, read four bytes of CONNACK, send a DISCONNECT.  It is
    the other end of the TLS build, so its bytes meet the broker's model: the
    theorems say what CONNECT its hand-written encoder stands for, what it sends
    and returns for every CONNACK, and that the broker admits it exactly with
    the house token.  C strings are [string]s; sizes stay far below the width of
    [size_t].  mbedTLS is a parameter. *)

From S2P Require Import Prelude External Reference Keyed Topics RateLimit Session Registry.
From S2P Require Import Transport Frame Invariants Retained Router Connect Subscribe Publish.
From S2P Require Import PublishProofs Disconnect Connection System TlsPsk Firmware.

Open Scope Z_scope.

(** ** mbedTLS

    The calls of the set-up return zero on success.  [mbedtls_ssl_read] gives
    its return value and the bytes stored; the two WANT codes ask for the call
    to be repeated. *)
Class MbedTls := {
  Ssl : Type;
  SSL_WANT_READ : Z;
  SSL_WANT_WRITE : Z;
  SSL_CONN_EOF : Z;
  psa_crypto_init : Z;
  mbedtls_ctr_drbg_seed : string → Z;
  mbedtls_ssl_config_defaults : Z;
  mbedtls_ssl_conf_psk : list Z → string → Z;
  mbedtls_ssl_setup : Z;
  mbedtls_net_connect : string → string → Z;
  (** The context after the set-up: read timeout, key, identity, address, port. *)
  ssl_context : Z → list Z → string → string → string → Ssl;
  mbedtls_ssl_handshake : Ssl → Z * Ssl;
  mbedtls_ssl_write : Ssl → list Z → Z * Ssl;
  mbedtls_ssl_read : Ssl → nat → Z * list Z * Ssl;
  mbedtls_ssl_close_notify : Ssl → Z * Ssl;
  want_negative : SSL_WANT_READ < 0 ∧ SSL_WANT_WRITE < 0;
}.

(** ** The C library

    [strtoul text &end 10]: the value and the text at [end].  White space and a
    sign are skipped; a minus sign negates modulo the width; too large a value
    is clamped; without a digit, [end] is [text]. *)
Module CLib.
Definition isspace (c : Ascii.ascii) : bool :=
  let n := byte_of_ascii c in bool_decide (n = 32 ∨ 9 ≤ n ≤ 13).

Fixpoint skip_space (s : string) : string :=
  match s with String c s' => if isspace c then skip_space s' else s | EmptyString => s end.

Definition digit (c : Ascii.ascii) : option Z :=
  let n := byte_of_ascii c - 48 in if decide (0 ≤ n ≤ 9) then Some n else None.

(** The digits at the front: whether there is one, their value, the rest. *)
Fixpoint digits (acc : Z) (s : string) : Z * string :=
  match s with
  | String c s' => match digit c with Some d => digits (10 * acc + d) s' | None => (acc, s) end
  | EmptyString => (acc, s)
  end.

Definition strtoul (ulong_max : Z) (text : string) : Z * string :=
  let s := skip_space text in
  let '(negative, s) :=
    match s with
    | String c s' => if decide (byte_of_ascii c = 45) then (true, s')
                     else if decide (byte_of_ascii c = 43) then (false, s') else (false, s)
    | EmptyString => (false, s)
    end in
  match s with
  | String c _ =>
      match digit c with
      | None => (0, text)
      | Some _ =>
          let '(v, rest) := digits 0 s in
          (if decide (ulong_max < v) then ulong_max
           else if negative then (- v) mod (ulong_max + 1) else v, rest)
      end
  | EmptyString => (0, text)
  end.

(** [arg + strlen(key)] when [arg] starts with [key]. *)
Definition after (key arg : string) : option string :=
  if String.prefix key arg
  then Some (String.substring (String.length key) (String.length arg - String.length key) arg)
  else None.
End CLib.

Module HostClient.
Import CLib.

Record options := {
  server_addr : string;
  server_port : string;
  psk_identity : string;
  psk_hex : string;
  opt_client_id : string;
  username : string;
  password : string;
  keep_alive : Z;
  hold_ms : Z;
  read_timeout_ms : Z;
}.

Section args.
Context (ULONG_MAX : Z).

Definition parse_u32 (text : string) : option Z :=
  let '(value, rest) := strtoul ULONG_MAX text in
  if decide (text = EmptyString ∨ rest ≠ EmptyString ∨ 4294967295 < value) then None else Some value.

(** The return value of [parse_args] when it is not zero, or the options. *)
Definition parse_args : list string → result Z options :=
  (fix parse_loop (opt : options) (args : list string) : result Z options :=
  match args with
  | [] => Ok opt
  | arg :: args =>
      let '(Build_options a p i k c u w ka h rt) := opt in
      let number text f := match parse_u32 text with
                           | Some n => parse_loop (f n) args | None => Err (-1) end in
      if decide (arg = "--help" ∨ arg = "-h") then Err 1
      else if after "server_addr=" arg is Some v then parse_loop (Build_options v p i k c u w ka h rt) args
      else if after "server_port=" arg is Some v then parse_loop (Build_options a v i k c u w ka h rt) args
      else if after "psk_identity=" arg is Some v then parse_loop (Build_options a p v k c u w ka h rt) args
      else if after "psk=" arg is Some v then parse_loop (Build_options a p i v c u w ka h rt) args
      else if after "client_id=" arg is Some v then parse_loop (Build_options a p i k v u w ka h rt) args
      else if after "username=" arg is Some v then parse_loop (Build_options a p i k c v w ka h rt) args
      else if after "password=" arg is Some v then parse_loop (Build_options a p i k c u v ka h rt) args
      else if after "keep_alive=" arg is Some v then number v (λ n, Build_options a p i k c u w n h rt)
      else if after "hold_ms=" arg is Some v then number v (λ n, Build_options a p i k c u w ka n rt)
      else if after "read_timeout_ms=" arg is Some v then number v (λ n, Build_options a p i k c u w ka h n)
      else Err (-1)
  end)
  {| server_addr := "192.168.0.7"; server_port := "8883"; psk_identity := "gatomqtt-psk";
    psk_hex := "9A3FC152D86B17A4E3297C10B54D8E6213F7A93C58DE71248BC64A9105EF367D";
    opt_client_id := "tls-mqtt-client"; username := "house"; password := "secret";
    keep_alive := 30; hold_ms := 3000; read_timeout_ms := 5000 |}.
End args.

(** ** The key *)
Definition hex_nibble (c : Ascii.ascii) : option Z :=
  let n := byte_of_ascii c in
  if decide (48 ≤ n ≤ 57) then Some (n - 48)
  else if decide (97 ≤ n ≤ 102) then Some (10 + (n - 97))
  else if decide (65 ≤ n ≤ 70) then Some (10 + (n - 65))
  else None.

Fixpoint hex_bytes (hex : string) : option (list Z) :=
  match hex with
  | String h (String l hex) =>
      hi ← hex_nibble h; lo ← hex_nibble l; out ← hex_bytes hex;
      Some (Z.lor (Z.shiftl hi 4) lo :: out)
  | _ => Some []
  end.

Definition decode_hex (hex : string) (out_size : nat) : option (list Z) :=
  if decide (String.length hex mod 2 ≠ 0)%nat then None
  else if decide (out_size < String.length hex / 2)%nat then None
  else hex_bytes hex.

(** ** The CONNECT

    [buf[..offset]] is the accumulated list. *)
Definition write_u16 (value : Z) : list Z :=
  [Z.land (Z.shiftr value 8) 255; Z.land value 255].

Definition append_utf8 (buf_size : nat) (buf : list Z) (value : string) : option (list Z) :=
  let len := String.length value in
  if decide (65535 < Z.of_nat len ∨ (buf_size < length buf + 2 + len)%nat) then None
  else Some (buf ++ write_u16 (Z.of_nat len) ++ as_bytes value).

Definition build_connect_packet (opt : options) (buf_size : nat) : option (list Z) :=
  if decide (buf_size < 2)%nat then None
  else
    buf ← append_utf8 buf_size [0; 0] "MQTT";
    if decide (buf_size < length buf + 4)%nat then None
    else
      let connect_flags := 2 in
      let connect_flags :=
        if decide (username opt = EmptyString) then connect_flags else Z.lor connect_flags 128 in
      let connect_flags :=
        if decide (password opt = EmptyString) then connect_flags else Z.lor connect_flags 64 in
      let buf := buf ++ [4; connect_flags] ++ write_u16 (keep_alive opt mod 65536) in
      buf ← append_utf8 buf_size buf (opt_client_id opt);
      buf ← (if decide (username opt = EmptyString) then Some buf
             else append_utf8 buf_size buf (username opt));
      buf ← (if decide (password opt = EmptyString) then Some buf
             else append_utf8 buf_size buf (password opt));
      if decide (127 < length buf - 2)%nat then None
      else Some (16 :: Z.of_nat (length buf - 2) :: drop 2 buf).

(** ** Talking *)
Abbreviation disconnect_packet := [224; 0].

Section ssl.
Context `{MbedTls}.

Definition wants (ret : Z) : Prop := ret = SSL_WANT_READ ∨ ret = SSL_WANT_WRITE.
#[global] Instance wants_dec ret : Decision (wants ret).
Proof. unfold wants. apply _. Defined.

(** Each loop runs for as long as the library asks; [fuel] is how many calls
    have been made, and a loop that is still running is [Pending]. *)
Fixpoint ssl_write_all (fuel : nat) (ssl : Ssl) (buf : list Z) : outcome Z * Ssl :=
  match buf with
  | [] => (Done 0, ssl)
  | _ :: _ =>
      match fuel with
      | O => (Pending, ssl)
      | S fuel =>
          let '(ret, ssl) := mbedtls_ssl_write ssl buf in
          if decide (0 < ret) then ssl_write_all fuel ssl (drop (Z.to_nat ret) buf)
          else if decide (wants ret) then ssl_write_all fuel ssl buf
          else (Done ret, ssl)
      end
  end.

Fixpoint ssl_read_exact (fuel : nat) (ssl : Ssl) (len : nat) (acc : list Z) : outcome (result Z (list Z)) * Ssl :=
  match len with
  | O => (Done (Ok acc), ssl)
  | S _ =>
      match fuel with
      | O => (Pending, ssl)
      | S fuel =>
          let '(ret, bytes, ssl) := mbedtls_ssl_read ssl len in
          if decide (0 < ret) then ssl_read_exact fuel ssl (len - Z.to_nat ret) (acc ++ bytes)
          else if decide (wants ret) then ssl_read_exact fuel ssl len acc
          else (Done (Err (if decide (ret = 0) then SSL_CONN_EOF else ret)), ssl)
      end
  end.

(** [do { ret = f(&ssl); } while (ret asks again)] *)
Fixpoint repeat_call (fuel : nat) (f : Ssl → Z * Ssl) (ssl : Ssl) : outcome Z * Ssl :=
  match fuel with
  | O => (Pending, ssl)
  | S fuel => let '(ret, ssl) := f ssl in
              if decide (wants ret) then repeat_call fuel f ssl else (Done ret, ssl)
  end.

(** From the handshake on; the value is the exit code. *)
Definition talk (fuel : nat) (connect_packet : list Z) (ssl : Ssl) : outcome Z * Ssl :=
  match repeat_call fuel mbedtls_ssl_handshake ssl with
  | (Done ret, ssl) =>
      if decide (ret ≠ 0) then (Done 1, ssl)
      else
        match ssl_write_all fuel ssl connect_packet with
        | (Done ret, ssl) =>
            if decide (ret ≠ 0) then (Done 1, ssl)
            else
              match ssl_read_exact fuel ssl 4 [] with
              | (Done (Err _), ssl) => (Done 1, ssl)
              | (Done (Ok connack), ssl) =>
                  let byte i := default 0 (connack !! i) in
                  if decide (byte 0%nat ≠ 32 ∨ byte 1%nat ≠ 2) then (Done 1, ssl)
                  else if decide (byte 3%nat ≠ 0) then (Done 1, ssl)
                  else
                    match ssl_write_all fuel ssl disconnect_packet with
                    | (Done ret, ssl) =>
                        if decide (ret ≠ 0) then (Done 1, ssl)
                        else match repeat_call fuel mbedtls_ssl_close_notify ssl with
                             | (Done _, ssl) => (Done 0, ssl)
                             | (r, ssl) => (r, ssl)
                             end
                    | (r, ssl) => (r, ssl)
                    end
              | (Pending, ssl) => (Pending, ssl)
              | (Panic, ssl) => (Panic, ssl)
              end
        | (r, ssl) => (r, ssl)
        end
  | (r, ssl) => (r, ssl)
  end.

Definition main (ULONG_MAX : Z) (fuel : nat) (args : list string) : outcome Z * option Ssl :=
  match parse_args ULONG_MAX args with
  | Err _ => (Done 2, None)
  | Ok opt =>
      match decode_hex (psk_hex opt) 64 with
      | None => (Done 3, None)
      | Some psk =>
          match build_connect_packet opt 256 with
          | None => (Done 4, None)
          | Some connect_packet =>
              if decide (Forall (λ ret, ret = 0)
                   [psa_crypto_init; mbedtls_ctr_drbg_seed "tls_mqtt_client"; mbedtls_ssl_config_defaults;
                    mbedtls_ssl_conf_psk psk (psk_identity opt); mbedtls_ssl_setup;
                    mbedtls_net_connect (server_addr opt) (server_port opt)])
              then let '(code, ssl) := talk fuel connect_packet
                         (ssl_context (read_timeout_ms opt) psk (psk_identity opt) (server_addr opt)
                            (server_port opt)) in
                   (code, Some ssl)
              else (Done 1, None)
          end
      end
  end.
End ssl.

(** ** What the CONNECT stands for *)
Definition connect_of (opt : options) : Connect := {|
  cn_protocol := MQTT311; cn_keep_alive := keep_alive opt mod 65536;
  cn_client_id := opt_client_id opt; cn_clean_session := true; cn_last_will := None;
  cn_username := if decide (username opt = EmptyString) then None else Some (username opt);
  cn_password := if decide (password opt = EmptyString) then None
                 else Some (as_bytes (password opt)) |}.

Local Abbreviation body opt := (RefCodec.connect_body (connect_of opt)).

Lemma write_u16_be n : 0 ≤ n → n ≤ 65535 → write_u16 n = RefCodec.be16 n.
Proof.
  intros H0 H1. unfold write_u16, RefCodec.be16. change 255 with (Z.ones 8).
  rewrite !Z.land_ones, Z.shiftr_div_pow2 by lia. change (2 ^ 8) with 256.
  rewrite (Z.mod_small (n / 256)); [done|]. split; [apply Z.div_pos; lia|]. apply Z.div_lt_upper_bound; lia.
Qed.

Lemma append_utf8_Some size buf v buf' :
  append_utf8 size buf v = Some buf' ↔
  buf' = buf ++ RefCodec.mstr (as_bytes v) ∧ (length buf' ≤ size)%nat ∧
  Z.of_nat (String.length v) ≤ 65535.
Proof.
  unfold append_utf8, RefCodec.mstr. rewrite length_as_bytes.
  case_decide as Hd; [split; [done|]|].
  - intros (-> & Hlen & ?). rewrite !length_app, length_as_bytes in Hlen. simpl in Hlen. lia.
  - rewrite write_u16_be by lia. split; [intros [= <-]|by intros (-> & _ & _)].
    rewrite length_app. simpl. rewrite length_as_bytes. split_and!; [done|lia|lia].
Qed.

Lemma append_utf8_ok size buf v :
  (length buf + length (RefCodec.mstr (as_bytes v)) ≤ size)%nat → Z.of_nat (String.length v) ≤ 65535 →
  append_utf8 size buf v = Some (buf ++ RefCodec.mstr (as_bytes v)).
Proof. intros. apply append_utf8_Some. rewrite length_app. done. Qed.

(** The optional fields. *)
Definition optional (v : string) : list Z :=
  if decide (v = EmptyString) then [] else RefCodec.mstr (as_bytes v).

Lemma append_optional size buf v buf' :
  (length buf ≤ size)%nat →
  (if decide (v = EmptyString) then Some buf else append_utf8 size buf v) = Some buf' →
  buf' = buf ++ optional v ∧ (length buf' ≤ size)%nat.
Proof.
  unfold optional. case_decide; [intros; simplify_eq; by rewrite app_nil_r|].
  intros _ (-> & ? & _)%append_utf8_Some. done.
Qed.

Lemma append_optional_ok size buf v :
  (length (buf ++ optional v) ≤ size)%nat → (length (optional v) ≤ 127)%nat →
  (if decide (v = EmptyString) then Some buf else append_utf8 size buf v) = Some (buf ++ optional v).
Proof.
  unfold optional. case_decide; [by rewrite app_nil_r|]. intros Hs Hl. rewrite length_app in Hs.
  apply append_utf8_ok; [done|]. unfold RefCodec.mstr in Hl. rewrite length_app, length_as_bytes in Hl. lia.
Qed.

Lemma body_unfold opt :
  body opt = RefCodec.mstr (as_bytes "MQTT") ++
    [4; (if decide (username opt = EmptyString) then 0 else 128) +
        (if decide (password opt = EmptyString) then 0 else 64) + 0 + 2] ++
    RefCodec.be16 (keep_alive opt mod 65536) ++ RefCodec.mstr (as_bytes (opt_client_id opt)) ++
    optional (username opt) ++ optional (password opt).
Proof.
  unfold RefCodec.connect_body, optional, connect_of. simpl. by repeat case_decide.
Qed.

(** The fixed part of the body, as the code assembles it. *)
Definition head (opt : options) : list Z :=
  RefCodec.mstr (as_bytes "MQTT") ++
  [4; let flags := if decide (username opt = EmptyString) then 2 else Z.lor 2 128 in
      if decide (password opt = EmptyString) then flags else Z.lor flags 64] ++
  write_u16 (keep_alive opt mod 65536).

Lemma body_head opt :
  body opt = head opt ++ RefCodec.mstr (as_bytes (opt_client_id opt)) ++
    optional (username opt) ++ optional (password opt).
Proof.
  rewrite body_unfold. unfold head.
  pose proof (Z.mod_pos_bound (keep_alive opt) 65536 ltac:(lia)).
  rewrite write_u16_be by lia. by repeat case_decide.
Qed.

Lemma build_steps opt size bs :
  build_connect_packet opt size = Some bs ↔
  ∃ b1 b2 b3, (12 ≤ size)%nat ∧
    append_utf8 size ([0; 0] ++ head opt) (opt_client_id opt) = Some b1 ∧
    (if decide (username opt = EmptyString) then Some b1 else append_utf8 size b1 (username opt)) = Some b2 ∧
    (if decide (password opt = EmptyString) then Some b2 else append_utf8 size b2 (password opt)) = Some b3 ∧
    (length b3 - 2 ≤ 127)%nat ∧ bs = 16 :: Z.of_nat (length b3 - 2) :: drop 2 b3.
Proof.
  unfold build_connect_packet. destruct (decide (12 ≤ size)%nat) as [Hs|Hs].
  - rewrite decide_False by lia. rewrite (append_utf8_ok size [0; 0] "MQTT") by (simpl; lia).
    cbn [mbind option_bind]. rewrite decide_False by (simpl; lia).
    rewrite <-(assoc_L (++)). fold (head opt).
    split.
    + intros (b1 & H1 & (b2 & H2 & (b3 & H3 & Hb)%bind_Some)%bind_Some)%bind_Some.
      case_decide; [done|]. simplify_eq. exists b1, b2, b3. split_and!; try done; lia.
    + intros (b1 & b2 & b3 & _ & H1 & H2 & H3 & Hle & ->). 
      rewrite H1. cbn. rewrite H2. cbn. rewrite H3. cbn. by rewrite decide_False by lia.
  - split; [|intros (? & ? & ? & ? & _); lia]. case_decide; [done|].
    destruct (append_utf8 size [0; 0] "MQTT") as [b|] eqn:Hb; [|done]. cbn.
    apply append_utf8_Some in Hb as (-> & Hb & _). by rewrite decide_True by (simpl; lia).
Qed.

Lemma build_connect_packet_body opt size bs :
  build_connect_packet opt size = Some bs ↔
  (length (body opt) ≤ 127 ∧ length (body opt) + 2 ≤ size)%nat ∧
  bs = 16 :: Z.of_nat (length (body opt)) :: body opt.
Proof.
  rewrite build_steps, body_head. split.
  - intros (b1 & b2 & b3 & Hs & H1 & H2 & H3 & Hle & ->).
    apply append_utf8_Some in H1 as (-> & Hl1 & _).
    apply append_optional in H2 as (-> & Hl2); [|done]. apply append_optional in H3 as (-> & Hl3); [|done].
    rewrite <-!(assoc_L (++)) in *. simpl in *. rewrite ?Nat.sub_0_r in *. split; [lia|done].
  - intros [[H127 Hs] ->]. rewrite !length_app in H127, Hs.
    assert (length (head opt) = 10%nat) as Hh by done.
    assert (Z.of_nat (String.length (opt_client_id opt)) ≤ 65535).
    { unfold RefCodec.mstr in H127. rewrite length_app, length_as_bytes in H127. lia. }
    do 3 eexists. split_and!; [lia| | | | |].
    + apply append_utf8_ok; [|done]. rewrite length_app, Hh. simpl in *. lia.
    + apply append_optional_ok; rewrite ?length_app, ?Hh; simpl in *; lia.
    + apply append_optional_ok; rewrite ?length_app, ?Hh; simpl in *; lia.
    + rewrite !length_app, Hh. simpl in *. lia.
    + rewrite <-!(assoc_L (++)). simpl. by rewrite ?Nat.sub_0_r.
Qed.

Lemma take_field_mstr bs rest :
  Z.of_nat (length bs) ≤ 65535 → RefCodec.take_field (RefCodec.mstr bs ++ rest) = Some (bs, rest).
Proof.
  intros Hl. unfold RefCodec.mstr, RefCodec.be16. cbn [app RefCodec.take_field].
  assert (Z.to_nat (Z.of_nat (length bs) / 256 * 256 + Z.of_nat (length bs) mod 256) = length bs) as ->.
  { rewrite Z.mul_comm, <-Z.div_mod by lia. lia. }
  rewrite length_app, decide_True by lia. by rewrite take_app_length, drop_app_length.
Qed.

Lemma take_if_optional v rest :
  Z.of_nat (String.length v) ≤ 65535 →
  RefCodec.take_if (negb (bool_decide (v = EmptyString))) (optional v ++ rest) =
    Some (if decide (v = EmptyString) then None else Some (as_bytes v), rest).
Proof.
  intros Hl. unfold RefCodec.take_if, optional. rewrite bool_decide_decide.
  destruct (decide (v = EmptyString)); [done|]. cbn [negb]. rewrite take_field_mstr; [done|].
  by rewrite length_as_bytes.
Qed.

Lemma flags_bits (P Q : Prop) `{Decision P, Decision Q} :
  let flags := (if decide P then 0 else 128) + (if decide Q then 0 else 64) + 0 + 2 in
  Z.testbit flags 2 = false ∧ Z.testbit flags 7 = negb (bool_decide P) ∧
  Z.testbit flags 6 = negb (bool_decide Q) ∧ Z.testbit flags 1 = true ∧
  RefCodec.qos_of_bits (Z.land (Z.shiftr flags 3) 3) = Some AtMostOnce.
Proof. rewrite !bool_decide_decide. by destruct (decide P), (decide Q). Qed.

Lemma optional_short v n : (length (optional v) + n ≤ 127)%nat → Z.of_nat (String.length v) ≤ 65535.
Proof.
  unfold optional, RefCodec.mstr. case_decide; [subst; simpl; lia|].
  rewrite length_app, length_as_bytes. lia.
Qed.

Lemma decode_body opt :
  (length (body opt) ≤ 127)%nat → RefCodec.decode_connect (body opt) = Some (connect_of opt).
Proof.
  rewrite body_unfold. intros Hl. rewrite !length_app in Hl.
  destruct (flags_bits (username opt = EmptyString) (password opt = EmptyString))
    as (H2 & H7 & H6 & H1 & Hq).
  set (flags := (if decide (username opt = EmptyString) then 0 else 128) +
    (if decide (password opt = EmptyString) then 0 else 64) + 0 + 2) in *.
  unfold RefCodec.decode_connect. rewrite take_field_mstr by done. cbn [mbind option_bind].
  cbn [app RefCodec.be16]. rewrite take_field_mstr.
  2:{ unfold RefCodec.mstr in Hl. rewrite !length_app in Hl. lia. }
  cbn [mbind option_bind]. rewrite H2, H7, H6, H1, Hq. cbn [RefCodec.take_if mbind option_bind].
  rewrite take_if_optional by (apply (optional_short _ 0); lia). cbn [mbind option_bind].
  rewrite <-(app_nil_r (optional (password opt))).
  rewrite take_if_optional by (apply (optional_short _ 0); lia). cbn [mbind option_bind].
  rewrite decide_True by done. unfold connect_of. rewrite RefCodec.str_of_bytes_as_bytes. do 2 f_equal.
  - pose proof (Z.div_mod (keep_alive opt mod 65536) 256). lia.
  - destruct (decide (username opt = EmptyString)); [done|]. simpl. by rewrite RefCodec.str_of_bytes_as_bytes.
Qed.

Lemma body_decoded opt :
  (length (body opt) ≤ 127)%nat →
  RefCodec.decode (16 :: Z.of_nat (length (body opt)) :: body opt) = Ok (Some (PConnect (connect_of opt))).
Proof.
  intros H127. cbn [RefCodec.decode RefCodec.skip_varint]. rewrite decide_True by lia.
  change (Z.shiftr 16 4) with 1. cbv iota beta. rewrite decode_body by done.
  cbn [fmap option_fmap option_map]. pose proof (Z.mod_pos_bound (keep_alive opt) 65536 ltac:(lia)).
  rewrite decide_True; [done|]. unfold packet_wf, is_u16, U16_MAX. cbn [cn_keep_alive connect_of]. lia.
Qed.

(** The hand-written CONNECT is the standard one.  For every set of options
    whose CONNECT has a body of at most 127 bytes, the packet is what the codec
    of the standard makes of the client identifier, the credentials given
    (empty ones left out), a clean session and the keep-alive modulo 2^16, and
    it is decoded to exactly that; for every other set of options the packet is
    refused, and in no case is the buffer of 256 bytes overrun. *)
Lemma client_connect_standard (opt : options) :
  match build_connect_packet opt 256 with
  | Some bs =>
      encode_slice (PConnect (connect_of opt)) 256 = Ok bs ∧
      decode_slice bs = Ok (Some (PConnect (connect_of opt))) ∧ (length bs ≤ 129)%nat
  | None => (127 < length (RefCodec.connect_body (connect_of opt)))%nat
  end.
Proof.
  destruct (build_connect_packet opt 256) as [bs|] eqn:Hb.
  - apply build_connect_packet_body in Hb as [[H127 _] ->]. split_and!; [| |cbn [length]; lia].
    + cbn [encode_slice mqttrs_ref]. unfold RefCodec.encode. cbn [RefCodec.body RefCodec.varint].
      rewrite !(decide_True (P := _ < 128)) by lia. cbn [app]. rewrite decide_True by (cbn [length]; lia). done.
    + by apply body_decoded.
  - destruct (decide (127 < length (body opt))%nat) as [|Hle]; [done|].
    destruct (build_connect_packet_body opt 256 (16 :: Z.of_nat (length (body opt)) :: body opt))
      as [_ Hok]. rewrite Hok in Hb; [done|]. split; [lia|done].
Qed.

(** ** A conversation

    [conv k ssl inb out]: over the established transport the peer's bytes [inb]
    are waiting, [out] has been sent, and the library asks for at most [k] more
    repetitions. *)
Class SslLink `{MbedTls} (conv : nat → Ssl → list Z → list Z → Prop) : Prop := {
  conv_call f k ssl inb out :
    f = mbedtls_ssl_handshake ∨ f = mbedtls_ssl_close_notify → conv k ssl inb out →
    (∃ ret k' ssl', k = S k' ∧ f ssl = (ret, ssl') ∧ wants ret ∧ conv k' ssl' inb out) ∨
    (∃ ssl', f ssl = (0, ssl') ∧ conv k ssl' inb out);
  conv_write k ssl inb out bs :
    conv k ssl inb out → bs ≠ [] →
    (∃ ret k' ssl', k = S k' ∧ mbedtls_ssl_write ssl bs = (ret, ssl') ∧ wants ret ∧ conv k' ssl' inb out) ∨
    (∃ n ssl', (1 ≤ n ≤ length bs)%nat ∧ mbedtls_ssl_write ssl bs = (Z.of_nat n, ssl') ∧
       conv k ssl' inb (out ++ take n bs));
  conv_read k ssl inb out len :
    conv k ssl inb out → inb ≠ [] → len ≠ 0%nat →
    (∃ ret k' ssl', k = S k' ∧ mbedtls_ssl_read ssl len = (ret, [], ssl') ∧ wants ret ∧
       conv k' ssl' inb out) ∨
    (∃ n ssl', (1 ≤ n ≤ len)%nat ∧ (n ≤ length inb)%nat ∧
       mbedtls_ssl_read ssl len = (Z.of_nat n, take n inb, ssl') ∧ conv k ssl' (drop n inb) out);
}.

Section conversation.
Context `{SslLink conv}.

Lemma wants_neg ret : wants ret → ¬ 0 < ret.
Proof. destruct want_negative. intros [->| ->]; lia. Qed.

Lemma zero_unwanted : ¬ wants 0.
Proof. destruct want_negative. intros [?|?]; lia. Qed.

Lemma repeat_call_conv f fuel k ssl inb out :
  f = mbedtls_ssl_handshake ∨ f = mbedtls_ssl_close_notify →
  (k < fuel)%nat → conv k ssl inb out →
  ∃ k' ssl', (k' ≤ k)%nat ∧ repeat_call fuel f ssl = (Done 0, ssl') ∧ conv k' ssl' inb out.
Proof.
  intros Hf. revert k ssl. induction fuel as [|fuel IH]; intros k ssl Hk Hc; [lia|]. cbn [repeat_call].
  destruct (conv_call f k ssl inb out Hf Hc) as [(ret & k' & ssl' & -> & -> & Hw & Hc')|(ssl' & -> & Hc')].
  - rewrite decide_True by done. destruct (IH k' ssl') as (k2 & ssl2 & ? & ? & ?); [lia|done|].
    exists k2, ssl2. split_and!; [lia|done|done].
  - rewrite decide_False by apply zero_unwanted. by exists k, ssl'.
Qed.

Lemma write_all_conv fuel k ssl inb out buf :
  (k + length buf ≤ fuel)%nat → conv k ssl inb out →
  ∃ k' ssl', (k' ≤ k)%nat ∧ ssl_write_all fuel ssl buf = (Done 0, ssl') ∧ conv k' ssl' inb (out ++ buf).
Proof.
  revert k ssl out buf. induction fuel as [|fuel IH]; intros k ssl out buf Hk Hc;
    (destruct (decide (buf = [])) as [->|Hne]; [exists k, ssl; by rewrite app_nil_r|]);
    (destruct buf as [|x buf]; [done|]); [simpl in Hk; lia|]. cbn [ssl_write_all].
  destruct (conv_write k ssl inb out (x :: buf) Hc Hne)
    as [(ret & k' & ssl' & -> & -> & Hw & Hc')|(n & ssl' & Hn & -> & Hc')].
  - rewrite decide_False by (by apply wants_neg). rewrite decide_True by done.
    destruct (IH k' ssl' out (x :: buf)) as (k2 & ssl2 & ? & ? & ?); [lia|done|].
    exists k2, ssl2. split_and!; [lia|done|done].
  - rewrite decide_True by lia. rewrite Nat2Z.id.
    destruct (IH k ssl' (out ++ take n (x :: buf)) (drop n (x :: buf))) as (k2 & ssl2 & ? & ? & Hc2).
    + rewrite length_drop. simpl in *. lia.
    + done.
    + exists k2, ssl2. rewrite <-app_assoc, take_drop in Hc2. done.
Qed.

Lemma read_exact_conv fuel k ssl inb rest out acc :
  (k + length inb ≤ fuel)%nat → conv k ssl (inb ++ rest) out →
  ∃ k' ssl', (k' ≤ k)%nat ∧
    ssl_read_exact fuel ssl (length inb) acc = (Done (Ok (acc ++ inb)), ssl') ∧ conv k' ssl' rest out.
Proof.
  revert k ssl inb acc. induction fuel as [|fuel IH]; intros k ssl inb acc Hk Hc;
    (destruct inb as [|x inb]; [exists k, ssl; by rewrite app_nil_r|]); [simpl in Hk; lia|].
  cbn [ssl_read_exact length].
  destruct (conv_read k ssl ((x :: inb) ++ rest) out (S (length inb)) Hc)
    as [(ret & k' & ssl' & -> & -> & Hw & Hc')|(n & ssl' & Hn & _ & -> & Hc')]; [done|done| |].
  - rewrite decide_False by (by apply wants_neg). rewrite decide_True by done.
    destruct (IH k' ssl' (x :: inb) acc) as (k2 & ssl2 & ? & ? & ?); [lia|done|].
    exists k2, ssl2. split_and!; [lia|done|done].
  - rewrite decide_True by lia. rewrite Nat2Z.id.
    rewrite take_app_le by (simpl; lia). rewrite drop_app_le in Hc' by (simpl; lia).
    destruct (IH k ssl' (drop n (x :: inb)) (acc ++ take n (x :: inb))) as (k2 & ssl2 & ? & Hr & Hc2).
    + rewrite length_drop. simpl in *. lia.
    + done.
    + exists k2, ssl2. rewrite length_drop in Hr. cbn [length] in Hr. rewrite <-app_assoc, take_drop in Hr. done.
Qed.

(** The exit code for each CONNACK, and what was sent by then. *)
Lemma talk_verdict fuel k ssl packet h l flags code rest out :
  (k + length packet + 4 < fuel)%nat → conv k ssl ([h; l; flags; code] ++ rest) out →
  let good := bool_decide (h = 32 ∧ l = 2 ∧ code = 0) in
  ∃ k' ssl', talk fuel packet ssl = (Done (if good then 0 else 1), ssl') ∧
    conv k' ssl' rest (out ++ packet ++ if good then disconnect_packet else []).
Proof.
  intros Hf Hc good. unfold talk.
  destruct (repeat_call_conv mbedtls_ssl_handshake fuel k ssl _ out ltac:(by left) ltac:(lia) Hc)
    as (k1 & ssl1 & ? & -> & Hc1). rewrite decide_False by (by intros []).
  destruct (write_all_conv fuel k1 ssl1 _ out packet ltac:(lia) Hc1) as (k2 & ssl2 & ? & -> & Hc2).
  rewrite decide_False by (by intros []).
  destruct (read_exact_conv fuel k2 ssl2 [h; l; flags; code] rest _ [] ltac:(simpl; lia) Hc2)
    as (k3 & ssl3 & ? & Hr & Hc3). cbn [length] in Hr. rewrite Hr.
  cbn [app lookup list_lookup default from_option id]. unfold good.
  assert (conv k3 ssl3 rest (out ++ packet ++ [])) as Hc3' by (by rewrite app_nil_r).
  case_bool_decide as Hg.
  - destruct Hg as (-> & -> & ->). rewrite decide_False by (by intros [[]|[]]).
    rewrite decide_False by (by intros []).
    destruct (write_all_conv fuel k3 ssl3 rest _ disconnect_packet ltac:(simpl; lia) Hc3)
      as (k4 & ssl4 & ? & -> & Hc4). rewrite decide_False by (by intros []).
    destruct (repeat_call_conv mbedtls_ssl_close_notify fuel k4 ssl4 _ _ ltac:(by right) ltac:(lia) Hc4)
      as (k5 & ssl5 & ? & -> & Hc5). exists k5, ssl5. by rewrite app_assoc.
  - repeat (case_decide; [by exists k3, ssl3|]). destruct Hg. lia.
Qed.
End conversation.

(** ** The broker at the other end *)
Section admitted.
Import Session Registry Frame Invariants PublishProofs Command Publish Connection.
Context `{Heapless} `{EmbassySignal} `{EmbassyTime} `{CommandHandler C} `{Link T E link}.
Context (MAX_SESSIONS MAX_SUBS MAX_INFLIGHT MAX_RETAINED MAX_PACKET_SIZE : nat).
Context (config : Config.BrokerConfig).
Local Abbreviation run := (run_conn MAX_SESSIONS MAX_SUBS MAX_INFLIGHT MAX_RETAINED MAX_PACKET_SIZE config).
Local Abbreviation binv := (broker_inv MAX_SUBS MAX_INFLIGHT MAX_SESSIONS MAX_RETAINED).

Definition house (opt : options) : Prop :=
  username opt = Config.house_token_username config ∧ password opt = Config.house_token_password config.
#[global] Instance house_dec opt : Decision (house opt).
Proof. unfold house. apply _. Defined.

(** The table has room for a new client of this name. *)
Definition room (reg : SessionRegistry) (cid : string) : Prop :=
  find_by_client_id reg cid = None ∧ (len reg < MAX_SESSIONS)%nat.

Lemma matches_house opt :
  Config.house_token_username config ≠ EmptyString → Config.house_token_password config ≠ EmptyString →
  Connect.matches_house_token (connect_of opt) {| Connect.ht_username := Config.house_token_username config;
    Connect.ht_password := Config.house_token_password config |} = bool_decide (house opt).
Proof.
  intros Hu Hp. apply eq_true_iff_eq. rewrite Connect.matches_house_token_iff, bool_decide_eq_true.
  unfold house. simpl. repeat case_decide; split; intros [? ?]; simplify_eq; try done; try congruence.
  - split; [done|]. by apply as_bytes_inj.
  - split; congruence.
Qed.

Lemma prepare_fresh reg opt :
  length (slots reg) = MAX_SESSIONS → room reg (opt_client_id opt) → opt_client_id opt ≠ EmptyString →
  (String.length (opt_client_id opt) ≤ 64)%nat → house opt →
  Config.house_token_username config ≠ EmptyString → Config.house_token_password config ≠ EmptyString →
  ∃ id reg', Connect.prepare_connect MAX_SESSIONS reg (connect_of opt)
      {| Connect.ht_username := Config.house_token_username config;
         Connect.ht_password := Config.house_token_password config |} =
    (Done (Ok (Connect.PcAccepted {| Connect.co_session_id := id; Connect.co_displaced_lwt := None;
       Connect.co_session_present := false |})), reg') ∧
    ∃ s, get reg' id = Some s ∧ client_id s = opt_client_id opt.
Proof.
  intros Hsl [Hnone Hroom] Hid H64 Hh Hu Hp. unfold Connect.prepare_connect.
  rewrite decide_False by (by intros []). rewrite decide_False by done.
  rewrite matches_house by done. rewrite bool_decide_true by done. cbn [negb cn_clean_session connect_of].
  unfold Connect.fresh_session, Connect.discard_previous. cbn [cn_client_id connect_of]. rewrite Hnone.
  unfold is_full. rewrite bool_decide_false by lia.
  unfold Connect.to_client_id. rewrite string_try_from_spec, decide_True by done. cbn.
  pose proof (insert_spec reg (set_lwt (Session.new (opt_client_id opt) (keep_alive opt mod 65536)) None)) as Hi.
  destruct (insert reg _) as [[id|e] reg']; [|destruct Hi as (_ & _ & ?); lia].
  destruct Hi as (_ & _ & Hg & _). exists id, reg'. split; [done|]. eauto.
Qed.

Lemma connect_arrives opt bs t more out :
  build_connect_packet opt 256 = Some bs → (129 ≤ MAX_PACKET_SIZE)%nat → link t (bs ++ more) out →
  ∃ t', await_connect MAX_PACKET_SIZE t = (t', PhRegister (connect_of opt)) ∧ link t' more out.
Proof.
  intros [[H127 _] ->]%build_connect_packet_body HM Ht.
  assert (16 :: Z.of_nat (length (body opt)) :: body opt = frame_with 16 (body opt)) as Hfr.
  { unfold frame_with. cbn [RefCodec.varint]. by rewrite decide_True by lia. }
  rewrite Hfr in Ht.
  destruct (read_packet_link MAX_PACKET_SIZE t 16 (body opt) more out) as (t' & Hr & Ht'); [lia| |done|].
  { rewrite <-Hfr. cbn [length]. lia. }
  exists t'. split; [|done]. unfold await_connect. rewrite Hr. rewrite <-Hfr. unfold frame_answer.
  cbn [decode_slice mqttrs_ref]. by rewrite body_decoded.
Qed.

Lemma connack_written t more out code bits :
  (129 ≤ MAX_PACKET_SIZE)%nat → RefCodec.code_bits code = bits → link t more out →
  ∃ t', Connect.write_connack MAX_PACKET_SIZE t code false = (Ok tt, t') ∧
    link t' more (out ++ [32; 2; 0; bits]).
Proof.
  intros HM <- Ht. unfold Connect.write_connack.
  match goal with |- context [write_packet _ t ?q] =>
    destruct (write_packet_link MAX_PACKET_SIZE t q more out Ht) as (t' & Hw & Ht') end.
  assert (∀ c, RefCodec.encode (PConnack {| ca_session_present := false; ca_code := c |}) MAX_PACKET_SIZE =
    Ok [32; 2; 0; RefCodec.code_bits c]) as Henc.
  { intros c. unfold RefCodec.encode. simpl. rewrite decide_True by lia. done. }
  cbn [encode_slice mqttrs_ref] in *. rewrite Henc in Hw, Ht'. by exists t'.
Qed.

End admitted.

(** ** An mbedTLS in memory

    It asks for a repetition while its counter is positive and writes at most
    three bytes at a time. *)
Definition pausing {A} (ssl : Mock.MockTransport * nat) (f : Mock.MockTransport → A * Mock.MockTransport)
  (want : A) : A * (Mock.MockTransport * nat) :=
  match ssl with
  | (m, S k) => (want, (m, k))
  | (m, O) => let '(a, m) := f m in (a, (m, 0%nat))
  end.

Definition memory_tls (ssl : Mock.MockTransport * nat) : MbedTls.
Proof.
  refine {| Ssl := Mock.MockTransport * nat; SSL_WANT_READ := -26880; SSL_WANT_WRITE := -26752;
    SSL_CONN_EOF := -29312; psa_crypto_init := 0; mbedtls_ctr_drbg_seed _ := 0;
    mbedtls_ssl_config_defaults := 0; mbedtls_ssl_conf_psk _ _ := 0; mbedtls_ssl_setup := 0;
    mbedtls_net_connect _ _ := 0; ssl_context _ _ _ _ _ := ssl;
    mbedtls_ssl_handshake s := pausing s (λ m, (0, m)) (-26880);
    mbedtls_ssl_close_notify s := pausing s (λ m, (0, m)) (-26752);
    mbedtls_ssl_write s bs := pausing s (λ m, let n := Nat.min 3 (length bs) in
      (Z.of_nat n, (Mock.mock_write m (take n bs)).2)) (-26752);
    mbedtls_ssl_read s len := pausing s (λ m,
      match Mock.mock_read m len with
      | (Some (Ok bs), m) => (Z.of_nat (length bs), bs, m)
      | (_, m) => (-1, [], m)
      end) (-26880, []) |}.
  lia.
Defined.

Definition memory_conv (k : nat) (ssl : Mock.MockTransport * nat) (inb out : list Z) : Prop :=
  ssl.2 = k ∧ Mock.stream ssl.1 inb out.

#[local] Instance memory_link ssl : SslLink (H := memory_tls ssl) memory_conv.
Proof.
  split.
  - intros f k [m j] inb out Hf [<- Hm]. simpl in Hm. destruct j as [|j]; [right|left].
    + exists (m, 0%nat). by destruct Hf as [->| ->].
    + destruct Hf as [->| ->]; eexists _, j, (m, j); (split_and!; [done|done|..]; [|done]); [left|right]; done.
  - intros k [m j] inb out bs [<- Hm] Hne. simpl in Hm. destruct j as [|j]; [right|left].
    + assert (length bs ≠ 0)%nat by (by destruct bs). set (n := Nat.min 3 (length bs)).
      destruct (link_write m inb out (take n bs) Hm) as (m' & Hw & Hm'). exists n, (m', 0%nat).
      split_and!; [lia|lia| |done]. simpl in Hw |- *. unfold Mock.mock_write in Hw. by simplify_eq.
    + eexists _, j, (m, j). split_and!; [done|done|by right|done].
  - intros k [m j] inb out len [<- Hm] Hne Hl. simpl in Hm. destruct j as [|j]; [right|left].
    + destruct (link_read m inb out len Hm Hne Hl) as (n & m' & Hn & Hle & Hr & Hm'). exists n, (m', 0%nat).
      split_and!; [lia|lia|lia| |done]. simpl in Hr |- *. rewrite Hr. rewrite length_take.
      by rewrite Nat.min_l by lia.
    + eexists _, j, (m, j). split_and!; [done|done|by left|done].
Qed.

Definition ex_opt : options :=
  match parse_args 4294967295 ["client_id=probe"; "keep_alive=65"] with
  | Ok opt => opt
  | Err _ => {| server_addr := ""; server_port := ""; psk_identity := ""; psk_hex := "";
      opt_client_id := ""; username := ""; password := ""; keep_alive := 0; hold_ms := 0;
      read_timeout_ms := 0 |}
  end.
Definition ex_bs : list Z := default [] (build_connect_packet ex_opt 256).
Definition ex_ssl : Mock.MockTransport * nat :=
  ({| Mock.rx_queue := [[32; 2]; [0]; [0; 9]]; Mock.tx_log := []; Mock.closed := false |}, 3%nat).
Definition ex_at_broker : Mock.MockTransport := Mock.feed Mock.new (ex_bs ++ disconnect_packet).
Definition ex_empty_broker : Publish.Broker Command.MockCommandHandler :=
  System.sy_broker (T := Mock.MockTransport) (System.sys_init 2 2 System.ex_handler).


(** The whole program against an accepting and against a refusing server. *)
Example main_exit_codes :
  let run c := main (H := memory_tls ({| Mock.rx_queue := [[32; 2; 0; c]]; Mock.tx_log := [];
                                         Mock.closed := false |}, 2%nat)) 4294967295 64 in
  (run 0 ["client_id=probe"]).1 = Done 0 ∧ (run 4 ["client_id=probe"]).1 = Done 1 ∧
  (run 0 ["keep_alive=x"]).1 = Done 2 ∧ (run 0 ["psk=9"]).1 = Done 3.
Proof. vm_compute. done. Qed.

(** A keep-alive above 2^16 - 1 is truncated without a message: 65536 turns the
    keep-alive off.  A password without a user name is sent with the flag 0x40
    alone, which the standard forbids. *)
Example connect_corner_cases :
  let at_ args i := match parse_args 4294967295 args with
                    | Ok opt => build_connect_packet opt 256 ≫= (λ bs, bs !! i)
                    | Err _ => None
                    end in
  at_ ["keep_alive=65536"] 10%nat = Some 0 ∧ at_ ["keep_alive=65536"] 11%nat = Some 0 ∧
  at_ ["username="] 9%nat = Some 66.
Proof. vm_compute. done. Qed.

(** Started without arguments, the client uses the key, the identity and the
    token the firmware is built with. *)
Example defaults_match_the_firmware :
  match parse_args 4294967295 [] with
  | Ok opt =>
      decode_hex (psk_hex opt) 64 = Some Firmware.MQTT_PSK_KEY ∧
      as_bytes (psk_identity opt) = Firmware.MQTT_PSK_IDENTITY ∧
      house Config.GATOMQTT_CONFIG opt ∧ server_port opt = "8883"
  | Err _ => False
  end.
Proof. vm_compute. done. Qed.
End HostClient.
