(* ===== verification/KeySchedule.v ===== *)
(** * KeySchedule: the TLS 1.3 key-schedule spike ([tools/tls-spike])

    The tool recomputes the PSK binder and the server's handshake keys of
    RFC 8448, section 4, from HKDF over HMAC-SHA-256.  The hash, the MAC and
    the curve are other crates and stay parameters of the functions; a
    reference SHA-256 (FIPS 180-4) and HMAC (RFC 2104) instantiate the first
    two, so that the tool's run can be evaluated.  The theorems:
    [hkdf_expand_label] is the recursion of RFC 5869 up to 254 blocks and
    panics from there on; the hex codec round-trips; on the reference hash the
    tool finds every value of the RFC. *)

From S2P Require Import Prelude External Keyed.

Open Scope Z_scope.

(** ** hmac

    [HmacSha256::new_from_slice(key)], one or more [update]s, [finalize]; the
    constructor accepts every key length. *)
Class Hmac := {
  hmac_sha256 (key message : list Z) : list Z;
  hmac_length key msg : length (hmac_sha256 key msg) = 32%nat;
  hmac_bytes key msg : Forall is_u8 (hmac_sha256 key msg);
}.

(** x25519-dalek: [StaticSecret::diffie_hellman]. *)
Class X25519 := { diffie_hellman (secret public : list Z) : list Z }.

Module RefHash.
(** ** SHA-256 *)
Definition W : Z := 4294967295.
Definition add32 (a b : Z) : Z := Z.land (a + b) W.
Definition rotr (n x : Z) : Z := Z.lor (Z.shiftr x n) (Z.land (Z.shiftl x (32 - n)) W).
Definition not32 (x : Z) : Z := Z.lxor x W.

Definition ch (x y z : Z) : Z := Z.lxor (Z.land x y) (Z.land (not32 x) z).
Definition maj (x y z : Z) : Z := Z.lxor (Z.lxor (Z.land x y) (Z.land x z)) (Z.land y z).
Definition sum0 (x : Z) : Z := Z.lxor (Z.lxor (rotr 2 x) (rotr 13 x)) (rotr 22 x).
Definition sum1 (x : Z) : Z := Z.lxor (Z.lxor (rotr 6 x) (rotr 11 x)) (rotr 25 x).
Definition sigma0 (x : Z) : Z := Z.lxor (Z.lxor (rotr 7 x) (rotr 18 x)) (Z.shiftr x 3).
Definition sigma1 (x : Z) : Z := Z.lxor (Z.lxor (rotr 17 x) (rotr 19 x)) (Z.shiftr x 10).

(** The constants are the leading 32 bits of the fractional parts of the cube
    roots (rounds) and square roots (initial state) of the first primes; 311 is
    the 64th. *)
Definition primes : list Z :=
  filter (λ p, Forall (λ d, p mod d ≠ 0) (seqZ 2 (p - 2))) (seqZ 2 310).

(** The largest [r] below [lo + 2 ^ bits] with [r ^ 3 ≤ x]. *)
Fixpoint cube_root (bits : nat) (x lo : Z) : Z :=
  match bits with
  | O => lo
  | S bits =>
      let mid := lo + Z.shiftl 1 (Z.of_nat bits) in
      cube_root bits x (if decide (mid * mid * mid ≤ x) then mid else lo)
  end.

Definition round_constants : list Z := Eval vm_compute in
  (λ p, Z.land (cube_root 40 (Z.shiftl p 96) 0) W) <$> primes.

Record state := St { sa : Z; sb : Z; sc : Z; sd : Z; se : Z; sf : Z; sg : Z; sh : Z }.

Definition initial : state := Eval vm_compute in
  match (λ p, Z.land (Z.sqrt (Z.shiftl p 64)) W) <$> primes with
  | a :: b :: c :: d :: e :: f :: g :: h :: _ => St a b c d e f g h
  | _ => St 0 0 0 0 0 0 0 0
  end.

Definition round (k w : Z) (s : state) : state :=
  let t1 := add32 (add32 (sh s) (sum1 (se s))) (add32 (ch (se s) (sf s) (sg s)) (add32 k w)) in
  let t2 := add32 (sum0 (sa s)) (maj (sa s) (sb s) (sc s)) in
  St (add32 t1 t2) (sa s) (sb s) (sc s) (add32 (sd s) t1) (se s) (sf s) (sg s).

(** The window holds the next sixteen words of the message schedule. *)
Fixpoint rounds (ks : list Z) (window : list Z) (s : state) : state :=
  match ks, window with
  | k :: ks, w :: rest =>
      let next := add32 (add32 (sigma1 (default 0 (rest !! 13%nat))) (default 0 (rest !! 8%nat)))
                        (add32 (sigma0 (default 0 (rest !! 0%nat))) w) in
      rounds ks (rest ++ [next]) (round k w s)
  | _, _ => s
  end.

Fixpoint be_words (fuel : nat) (bs : list Z) : list Z :=
  match fuel, bs with
  | S fuel, a :: b :: c :: d :: bs =>
      (((a * 256 + b) * 256 + c) * 256 + d) :: be_words fuel bs
  | _, _ => []
  end.

Definition compress (s : state) (block : list Z) : state :=
  let r := rounds round_constants (be_words 16 block) s in
  St (add32 (sa s) (sa r)) (add32 (sb s) (sb r)) (add32 (sc s) (sc r)) (add32 (sd s) (sd r))
     (add32 (se s) (se r)) (add32 (sf s) (sf r)) (add32 (sg s) (sg r)) (add32 (sh s) (sh r)).

Fixpoint blocks (fuel : nat) (s : state) (bs : list Z) : state :=
  match fuel with
  | O => s
  | S fuel => blocks fuel (compress s (take 64 bs)) (drop 64 bs)
  end.

Definition be_bytes (n : nat) (x : Z) : list Z :=
  (λ i, Z.shiftr x (8 * Z.of_nat (n - 1 - i)) mod 256) <$> seq 0 n.

Definition pad (msg : list Z) : list Z :=
  msg ++ [128] ++ replicate (Z.to_nat ((55 - Z.of_nat (length msg)) mod 64)) 0
      ++ be_bytes 8 (8 * Z.of_nat (length msg)).

Definition digest (s : state) : list Z :=
  concat (be_bytes 4 <$> [sa s; sb s; sc s; sd s; se s; sf s; sg s; sh s]).

Definition sha256 (msg : list Z) : list Z :=
  let padded := pad msg in digest (blocks (length padded / 64) initial padded).

(** ** HMAC *)
Definition hmac (key msg : list Z) : list Z :=
  let k := if decide (64 < length key)%nat then sha256 key else key in
  let k := k ++ replicate (64 - length k) 0 in
  sha256 ((Z.lxor 92 <$> k) ++ sha256 ((Z.lxor 54 <$> k) ++ msg)).

Lemma be_bytes_spec n x : length (be_bytes n x) = n ∧ Forall is_u8 (be_bytes n x).
Proof.
  unfold be_bytes. rewrite length_fmap, length_seq. split; [done|].
  apply Forall_fmap, Forall_true. intros i. simpl. unfold is_u8, U8_MAX.
  pose proof (Z.mod_pos_bound (Z.shiftr x (8 * Z.of_nat (n - 1 - i))) 256). lia.
Qed.

Lemma sha256_spec msg : length (sha256 msg) = 32%nat ∧ Forall is_u8 (sha256 msg).
Proof.
  unfold sha256. set (s := blocks _ _ _). clearbody s. unfold digest. split; [reflexivity|].
  cbn [fmap list_fmap concat].
  repeat (apply Forall_app; split; [apply be_bytes_spec|]). constructor.
Qed.

#[global] Instance ref_sha2 : Sha2 := {|
  External.sha256 := sha256;
  External.sha256_length m := proj1 (sha256_spec m);
  External.sha256_bytes m := proj2 (sha256_spec m) |}.

#[global] Instance ref_hmac : Hmac := {|
  hmac_sha256 := hmac;
  hmac_length k m := proj1 (sha256_spec _);
  hmac_bytes k m := proj2 (sha256_spec _) |}.

(** The test vectors of FIPS 180-4 ("abc") and RFC 4231 (case 2). *)
Example sha256_abc : sha256 (as_bytes "abc") = be_bytes 32
  0xba7816bf8f01cfea414140de5dae2223b00361a396177a9cb410ff61f20015ad.
Proof. vm_compute. reflexivity. Qed.

Example hmac_jefe : hmac (as_bytes "Jefe") (as_bytes "what do ya want for nothing?") = be_bytes 32
  0x5bdcc146bf60754e6a042426089575c75a003f089d2739839dec58b964ec3843.
Proof. vm_compute. reflexivity. Qed.
End RefHash.

Module KeySchedule.

Section hkdf.
Context `{Sha2} `{Hmac}.

Definition hkdf_extract (salt ikm : list Z) : list Z :=
  let zeros := replicate 32 0 in
  let salt := if decide (salt = []) then zeros else salt in
  hmac_sha256 salt ikm.

(** [length.to_be_bytes()] of a [u16], the labels and the context. *)
Definition hkdf_info (full_label : string) (context : list Z) (length' : Z) : list Z :=
  [Z.shiftr length' 8; Z.land length' 255] ++
  [Z.of_nat (String.length full_label)] ++ as_bytes full_label ++
  [Z.of_nat (length context)] ++ context.

(** [while out.len() < length]: each round appends a block of 32 bytes, so
    [length] rounds are enough; the counter is a [u8]. *)
Fixpoint expand_loop (fuel : nat) (secret info : list Z) (len : nat)
  (out prev : list Z) (counter : Z) : outcome (list Z) :=
  match fuel with
  | O => Pending
  | S fuel =>
      if decide (length out < len)%nat then
        let prev := hmac_sha256 secret (prev ++ info ++ [counter]) in
        let out := out ++ prev in
        match checked_add U8_MAX counter 1 with
        | Some counter => expand_loop fuel secret info len out prev counter
        | None => Panic
        end
      else Done (take len out)
  end.

Definition hkdf_expand_label (secret : list Z) (label : string) (context : list Z) (length' : Z)
  : outcome (list Z) :=
  let full_label := String.append "tls13 " label in
  if decide (255 < String.length full_label)%nat then Panic
  else if decide (255 < length context)%nat then Panic
  else expand_loop (S (Z.to_nat length')) secret (hkdf_info full_label context length')
         (Z.to_nat length') [] [] 1.

(** [v.try_into().unwrap()] to [[u8; 32]]. *)
Definition derive_secret (secret : list Z) (label : string) (messages : list Z)
  : outcome (list Z) :=
  match hkdf_expand_label secret label (sha256 messages) 32 with
  | Done v => if decide (length v = 32%nat) then Done v else Panic
  | r => r
  end.

(** ** RFC 5869, section 2.3: [T(0)] is empty, [T(i + 1) = HMAC(PRK, T(i) | info | i + 1)] *)
Fixpoint hkdf_block (prk info : list Z) (i : nat) : list Z :=
  match i with
  | O => []
  | S j => hmac_sha256 prk (hkdf_block prk info j ++ info ++ [Z.of_nat i])
  end.

Definition hkdf_stream (prk info : list Z) (n : nat) : list Z :=
  concat (hkdf_block prk info <$> seq 1 n).

Lemma hkdf_stream_S prk info n :
  hkdf_stream prk info (S n) = hkdf_stream prk info n ++ hkdf_block prk info (S n).
Proof.
  unfold hkdf_stream. rewrite seq_S, fmap_app, concat_app. simpl. by rewrite app_nil_r.
Qed.

Lemma length_hkdf_stream prk info n : length (hkdf_stream prk info n) = (32 * n)%nat.
Proof.
  induction n as [|n IH]; [done|]. rewrite hkdf_stream_S, length_app, IH. simpl hkdf_block.
  rewrite hmac_length. lia.
Qed.

(** The number of blocks for [len] bytes of output. *)
Definition block_count (len : nat) : nat := ((len + 31) / 32)%nat.

Lemma block_count_spec len n : (32 * n < len ↔ n < block_count len)%nat.
Proof.
  unfold block_count.
  pose proof (Nat.div_mod (len + 31) 32 ltac:(lia)) as Hd.
  pose proof (Nat.mod_upper_bound (len + 31) 32 ltac:(lia)). lia.
Qed.

Lemma expand_loop_spec fuel secret info len n :
  (n ≤ block_count len)%nat → (block_count len < n + fuel)%nat → (n < 255)%nat →
  expand_loop fuel secret info len (hkdf_stream secret info n) (hkdf_block secret info n)
    (Z.of_nat n + 1) =
  if decide (block_count len < 255)%nat
  then Done (take len (hkdf_stream secret info (block_count len))) else Panic.
Proof.
  revert n. induction fuel as [|fuel IH]; intros n Hn Hf H255; [lia|]. cbn [expand_loop].
  rewrite length_hkdf_stream. destruct (decide (32 * n < len)%nat) as [Hlt|Hge].
  - apply block_count_spec in Hlt.
    assert (hmac_sha256 secret (hkdf_block secret info n ++ info ++ [Z.of_nat n + 1])
            = hkdf_block secret info (S n)) as ->.
    { cbn [hkdf_block]. do 4 f_equal. lia. }
    rewrite <-hkdf_stream_S. unfold checked_add.
    destruct (decide (n = 254%nat)) as [->|Hne].
    + rewrite decide_False by (unfold U8_MAX; lia). by rewrite decide_False by lia.
    + rewrite decide_True by (unfold U8_MAX; lia).
      replace (Z.of_nat n + 1 + 1) with (Z.of_nat (S n) + 1) by lia. apply IH; lia.
  - rewrite block_count_spec in Hge. assert (n = block_count len) as -> by lia.
    by rewrite decide_True.
Qed.

(** What [hkdf_expand_label] computes.  For a label and a context that fit
    their length octets, the result is the first [length] bytes of the output
    stream of RFC 5869 on the encoded HkdfLabel, for every length up to 8128
    bytes (254 blocks); longer requests panic, although the RFC allows 255
    blocks.  A label or context that does not fit panics. *)
Lemma hkdf_expand_label_spec (secret : list Z) (label : string) (context : list Z)
  (length' : Z) :
  is_u16 length' →
  hkdf_expand_label secret label context length' =
  if decide (String.length label ≤ 249 ∧ length context ≤ 255)%nat
  then if decide (length' ≤ 8128)
       then Done (take (Z.to_nat length')
              (hkdf_stream secret (hkdf_info (String.append "tls13 " label) context length')
                 (block_count (Z.to_nat length'))))
       else Panic
  else Panic.
Proof.
  intros Hl. unfold hkdf_expand_label.
  assert (String.length (String.append "tls13 " label) = 6 + String.length label)%nat as Hlen
    by reflexivity.
  destruct (decide (255 < String.length _)%nat); [by rewrite decide_False by lia|].
  destruct (decide (255 < length context)%nat); [by rewrite decide_False by lia|].
  rewrite decide_True by lia. set (info := hkdf_info _ _ _).
  pose proof (expand_loop_spec (S (Z.to_nat length')) secret info (Z.to_nat length') 0) as He.
  pose proof (block_count_spec (Z.to_nat length') 254) as H254.
  pose proof (block_count_spec (Z.to_nat length') (Z.to_nat length')) as Hf.
  change (hkdf_stream secret info 0) with (@nil Z) in He. simpl hkdf_block in He.
  change (Z.of_nat 0 + 1) with 1 in He. rewrite He by lia.
  destruct (decide (length' ≤ 8128)); [rewrite decide_True by lia|rewrite decide_False by lia];
    done.
Qed.
End hkdf.

(** ** Hexadecimal text *)
Definition hex_value (c : Ascii.ascii) : option Z :=
  let n := Z.of_nat (Ascii.nat_of_ascii c) in
  if decide (48 ≤ n ≤ 57) then Some (n - 48)
  else if decide (97 ≤ n ≤ 102) then Some (n - 87)
  else if decide (65 ≤ n ≤ 70) then Some (n - 55)
  else None.

(** [u8::from_str_radix(&cleaned[i..i + 2], 16)] for [i] in steps of two. *)
Fixpoint pair_up (digits : list Z) : option (list Z) :=
  match digits with
  | [] => Some []
  | [_] => None
  | hi :: lo :: rest => cons (16 * hi + lo) <$> pair_up rest
  end.

(** Characters that are no hex digit are skipped; an odd number of digits is a
    panic. *)
Definition parse_hex_blob (s : string) : outcome (list Z) :=
  match pair_up (omap hex_value (String.list_ascii_of_string s)) with
  | Some bytes => Done bytes
  | None => Panic
  end.

(** [format!("{:02x}", b)] *)
Definition hex_digit (n : Z) : Ascii.ascii :=
  Ascii.ascii_of_nat (Z.to_nat (if decide (n < 10) then 48 + n else 87 + n)).

Fixpoint encode_lower (bytes : list Z) : string :=
  match bytes with
  | [] => EmptyString
  | b :: bytes =>
      String.String (hex_digit (Z.shiftr b 4))
        (String.String (hex_digit (Z.land b 15)) (encode_lower bytes))
  end.

Lemma hex_value_digit n : 0 ≤ n < 16 → hex_value (hex_digit n) = Some n.
Proof.
  intros Hn.
  assert (Forall (λ n, hex_value (hex_digit n) = Some n) (Z.of_nat <$> seq 0 16)) as Hall
    by (repeat (constructor; [reflexivity|]); constructor).
  rewrite Forall_forall in Hall. apply Hall, list_elem_of_fmap. exists (Z.to_nat n).
  split; [lia|]. apply elem_of_seq. lia.
Qed.

(** The hex codec round-trips: parsing the text [encode_lower] prints
    gives back the bytes. *)
Lemma hex_round_trip (bytes : list Z) :
  Forall is_u8 bytes → parse_hex_blob (encode_lower bytes) = Done bytes.
Proof.
  intros Hb. unfold parse_hex_blob.
  assert (pair_up (omap hex_value (String.list_ascii_of_string (encode_lower bytes))) = Some bytes)
    as ->; [|done].
  induction Hb as [|b bytes Hb _ IH]; [done|]. unfold is_u8, U8_MAX in Hb.
  assert (0 ≤ Z.shiftr b 4 < 16) by (rewrite Z.shiftr_div_pow2 by lia; change (2 ^ 4) with 16;
    split; [apply Z.div_pos; lia|apply Z.div_lt_upper_bound; lia]).
  assert (Z.land b 15 = b mod 16) as Hm by (change 15 with (Z.ones 4); by rewrite Z.land_ones).
  pose proof (Z.mod_pos_bound b 16 ltac:(lia)).
  cbn [encode_lower String.list_ascii_of_string omap list_omap].
  rewrite !hex_value_digit by lia. cbn [pair_up]. rewrite IH. cbn [fmap option_fmap option_map].
  rewrite Hm, Z.shiftr_div_pow2 by lia. change (2 ^ 4) with 16. do 2 f_equal.
  pose proof (Z.div_mod b 16 ltac:(lia)). lia.
Qed.

(** ** The run of the tool *)

(** [hex!]: the bytes of a literal of [n] bytes. *)
Definition hex_bytes (n : nat) (x : Z) : list Z := RefHash.be_bytes n x.

Definition CLIENT_HELLO_PREFIX_HEX : string := String.concat EmptyString [
  "010001fc03031bc3ceb6bbe39cff938355b5a50adb6db21b7a6af649d7b4bc419d7876487d9500000613011303";
  "1302010001cd0000000b0009000006736572766572ff01000100000a00140012001d0017001800190100010101";
  "0201030104003300260024001d0020e4ffb68ac05f8d96c99da26698346c6be16482badddafe051a66b4f18d66";
  "8f0b002a0000002b0003020304000d0020001e0403050306030203080408050806040105010601020104020502";
  "06020202002d00020101001c000240010015005700000000000000000000000000000000000000000000000000";
  "000000000000000000000000000000000000000000000000000000000000000000000000000000000000000000";
  "0000000000000000000000000000000000002900dd00b800b22c035d829359ee5ff7af4ec900000000262a6494";
  "dc486d2c8a34cb33fa90bf1b0070ad3c498883c9367c09a2be785abc55cd226097a3a982117283f82a03a143ef";
  "d3ff5dd36d64e861be7fd61d2827db279cce145077d454a3664d4e6da4d29ee03725a6a4dafcd0fc67d2aea705";
  "29513e3da2677fa5906c5b3f7d8f92f228bda40dda721470f9fbf297b5aea617646fac5c03272e970727c621a7";
  "9141ef5f7de6505e5bfbc388e93343694093934ae4d357fad6aacb"].
Definition CLIENT_HELLO_FULL_HEX : string := String.concat EmptyString [
  "010001fc03031bc3ceb6bbe39cff938355b5a50adb6db21b7a6af649d7b4bc419d7876487d9500000613011303";
  "1302010001cd0000000b0009000006736572766572ff01000100000a00140012001d0017001800190100010101";
  "0201030104003300260024001d0020e4ffb68ac05f8d96c99da26698346c6be16482badddafe051a66b4f18d66";
  "8f0b002a0000002b0003020304000d0020001e0403050306030203080408050806040105010601020104020502";
  "06020202002d00020101001c000240010015005700000000000000000000000000000000000000000000000000";
  "000000000000000000000000000000000000000000000000000000000000000000000000000000000000000000";
  "0000000000000000000000000000000000002900dd00b800b22c035d829359ee5ff7af4ec900000000262a6494";
  "dc486d2c8a34cb33fa90bf1b0070ad3c498883c9367c09a2be785abc55cd226097a3a982117283f82a03a143ef";
  "d3ff5dd36d64e861be7fd61d2827db279cce145077d454a3664d4e6da4d29ee03725a6a4dafcd0fc67d2aea705";
  "29513e3da2677fa5906c5b3f7d8f92f228bda40dda721470f9fbf297b5aea617646fac5c03272e970727c621a7";
  "9141ef5f7de6505e5bfbc388e93343694093934ae4d357fad6aacb0021203add4fb2d8fdf822a0ca3cf7678ef5";
  "e88dae990141c5924d57bb6fa31b9e5f9d"].
Definition SERVER_HELLO_HEX : string := String.concat EmptyString [
  "0200005c03033ccfd2dec890222763472ae8136777c9d7358777bb66e91ea5122495f559ea2d00130100003400";
  "290002000000330024001d0020121761ee42c333e1b9e77b60dd57c2053cd94512ab47f115e86eff50942cea31";
  "002b00020304"].

(** The inputs of RFC 8448: the PSK, the two X25519 keys and their secret. *)
Abbreviation psk := (hex_bytes 32
  0x4ecd0eb6ec3b4d87f5d6028f922ca4c5851a277fd41311c9e62d2c9492e1c4f3).
Abbreviation server_priv := (hex_bytes 32
  0xde5b4476e7b490b2652d338acbf2948066f255f9440e23b98fc69835298dc107).
Abbreviation client_pub := (hex_bytes 32
  0xe4ffb68ac05f8d96c99da26698346c6be16482badddafe051a66b4f18d668f0b).
Abbreviation exp_ecdhe_shared := (hex_bytes 32
  0xf44194756ff9ec9d25180635d66ea6824c6ab3bf179977be37f723570e7ccb2e).

Section spike.
Context `{Sha2} `{Hmac} `{X25519}.

(** The process exits with code 1 at the first mismatch, naming it. *)
Local Abbreviation spike := (prog unit string).

Definition check (name : string) (got expected : list Z) : spike unit :=
  if decide (got = expected) then io_ret tt else io_fail name.

(** A call that may panic. *)
Definition call {A} (r : outcome A) : spike A := λ s,
  (match r with Done a => Done (Ok a) | Pending => Pending | Panic => Panic end, s).

(** [assert_eq!] on a length. *)
Definition assert_len (bytes : list Z) (n : nat) : spike unit :=
  if decide (length bytes = n) then io_ret tt else io_panic.

(** The binder: from the PSK to the MAC over the ClientHello prefix.  The
    early secret is used further on. *)
Definition spike_binder : spike (list Z) :=
  io_bind (call (parse_hex_blob CLIENT_HELLO_PREFIX_HEX)) (λ client_hello_prefix,
  io_bind (assert_len client_hello_prefix 477) (λ _,
  let early_secret := hkdf_extract [] psk in
  io_bind (check "early_secret" early_secret (hex_bytes 32
    0x9b2188e9b2fc6d64d71dc329900e20bb41915000f678aa839cbb797cb7d8332c)) (λ _,
  io_bind (call (derive_secret early_secret "res binder" [])) (λ binder_key,
  io_bind (check "binder_key" binder_key (hex_bytes 32
    0x69fe131a3bbad5d63c64eebcc30e395b9d8107726a13d074e389dbc8a4e47256)) (λ _,
  let binder_hash := sha256 client_hello_prefix in
  io_bind (check "binder_hash" binder_hash (hex_bytes 32
    0x63224b2e4573f2d3454ca84b9d009a04f6be9e05711a8396473aefa01e924a14)) (λ _,
  io_bind (call (hkdf_expand_label binder_key "finished" [] 32)) (λ finished_key,
  io_bind (check "finished_key" finished_key (hex_bytes 32
    0x5588673e72cb59c87d220caffe94f2dea9a3b1609f7d50e90a48227db9ed7eaa)) (λ _,
  io_bind (check "binder" (hmac_sha256 finished_key binder_hash) (hex_bytes 32
    0x3add4fb2d8fdf822a0ca3cf7678ef5e88dae990141c5924d57bb6fa31b9e5f9d)) (λ _,
  io_ret early_secret))))))))).

(** From the early secret to the handshake secret. *)
Definition spike_handshake (early_secret : list Z) : spike (list Z) :=
  let ecdhe_shared := diffie_hellman server_priv client_pub in
  io_bind (check "ECDHE shared" ecdhe_shared exp_ecdhe_shared) (λ _,
  io_bind (call (derive_secret early_secret "derived" [])) (λ derived_for_handshake,
  io_bind (check "derived (handshake)" derived_for_handshake (hex_bytes 32
    0x5f1790bbd82c5e7d376ed2e1e52f8e6038c9346db61b43be9a52f77ef3998e80)) (λ _,
  let handshake_secret := hkdf_extract derived_for_handshake ecdhe_shared in
  io_bind (check "handshake_secret" handshake_secret (hex_bytes 32
    0x005cb112fd8eb4ccc623bb88a07c64b3ede1605363fc7d0df8c7ce4ff0fb4ae6)) (λ _,
  io_ret handshake_secret)))).

(** The transcript hash and the traffic secrets; the server's is used further
    on. *)
Definition spike_traffic (handshake_secret : list Z) : spike (list Z) :=
  io_bind (call (parse_hex_blob CLIENT_HELLO_FULL_HEX)) (λ client_hello_full,
  io_bind (call (parse_hex_blob SERVER_HELLO_HEX)) (λ server_hello,
  io_bind (assert_len client_hello_full 512) (λ _,
  io_bind (assert_len server_hello 96) (λ _,
  let th_after_sh := sha256 (client_hello_full ++ server_hello) in
  io_bind (check "TH(CH||SH)" th_after_sh (hex_bytes 32
    0xf736cb34fe25e701551bee6fd24c1cc7102a7daf9405cb15d97aafe16f757d03)) (λ _,
  io_bind (call (hkdf_expand_label handshake_secret "c hs traffic" th_after_sh 32)) (λ chts,
  io_bind (check "client_handshake_traffic_secret" chts (hex_bytes 32
    0x2faac08f851d35fea3604fcb4de82dc62c9b164a70974d0462e27f1ab278700f)) (λ _,
  io_bind (call (hkdf_expand_label handshake_secret "s hs traffic" th_after_sh 32)) (λ shts,
  io_bind (check "server_handshake_traffic_secret" shts (hex_bytes 32
    0xfe927ae271312e8bf0275b581c54eef020450dc4ecffaa05a1a35d27518e7803)) (λ _,
  io_ret shts))))))))).

(** The master secret. *)
Definition spike_master (handshake_secret : list Z) : spike unit :=
  io_bind (call (derive_secret handshake_secret "derived" [])) (λ derived_for_master,
  io_bind (check "derived (master)" derived_for_master (hex_bytes 32
    0xe2f16030251df0874ba19b9aba257610bc6d531c1dd206df0ca6e84ae2a26742)) (λ _,
  check "master_secret" (hkdf_extract derived_for_master (replicate 32 0)) (hex_bytes 32
    0xe2d32d4ed66dd37897a0e80c84107503ce58bf8aad4cb55a5002d77ecb890ece))).

(** The server's handshake keys. *)
Definition spike_server_keys (shts : list Z) : spike unit :=
  io_bind (call (hkdf_expand_label shts "key" [] 16)) (λ server_hs_key,
  io_bind (check "server handshake AEAD key" server_hs_key (hex_bytes 16
    0x27c6bdc0a3dcea39a47326d79bc9e4ee)) (λ _,
  io_bind (call (hkdf_expand_label shts "iv" [] 12)) (λ server_hs_iv,
  io_bind (check "server handshake AEAD iv" server_hs_iv (hex_bytes 12
    0x9569ecdd4d0536705e9ef725)) (λ _,
  io_bind (call (hkdf_expand_label shts "finished" [] 32)) (λ server_finished_key,
  check "server_finished_key" server_finished_key (hex_bytes 32
    0x4bb74cae7a5dc8914604c0bfbe2f0c062396883922bec8a15e2a9b532a5d392c)))))).

Definition main : spike unit :=
  io_bind spike_binder (λ early_secret,
  io_bind (spike_handshake early_secret) (λ handshake_secret,
  io_bind (spike_traffic handshake_secret) (λ shts,
  io_bind (spike_master handshake_secret) (λ _,
  spike_server_keys shts)))).
End spike.

(** Up to the curve, the reference hash gives the values of the RFC. *)
Section green.
Context `{X25519}.
Definition early_secret : list Z := hex_bytes 32
  0x9b2188e9b2fc6d64d71dc329900e20bb41915000f678aa839cbb797cb7d8332c.
Definition handshake_secret : list Z := hex_bytes 32
  0x005cb112fd8eb4ccc623bb88a07c64b3ede1605363fc7d0df8c7ce4ff0fb4ae6.
Definition server_traffic_secret : list Z := hex_bytes 32
  0xfe927ae271312e8bf0275b581c54eef020450dc4ecffaa05a1a35d27518e7803.

Lemma spike_binder_ok : spike_binder tt = (Done (Ok early_secret), tt).
Proof. vm_compute. reflexivity. Qed.

Lemma spike_handshake_ok :
  diffie_hellman server_priv client_pub = exp_ecdhe_shared →
  spike_handshake early_secret tt = (Done (Ok handshake_secret), tt).
Proof. intros Hx. unfold spike_handshake. rewrite Hx. vm_compute. reflexivity. Qed.

Lemma spike_traffic_ok :
  spike_traffic handshake_secret tt = (Done (Ok server_traffic_secret), tt).
Proof. vm_compute. reflexivity. Qed.

Lemma spike_keys_ok :
  spike_master handshake_secret tt = (Done (Ok tt), tt) ∧
  spike_server_keys server_traffic_secret tt = (Done (Ok tt), tt).
Proof. vm_compute. done. Qed.

(** The spike is green.  On the reference SHA-256 and HMAC, and a curve
    that computes the shared secret of RFC 8448 for its key pair, the tool runs
    to its end: every recomputed value, from the PSK binder to the server's
    Finished key, is the one the RFC lists. *)
Lemma spike_green :
  diffie_hellman server_priv client_pub = exp_ecdhe_shared → main tt = (Done (Ok tt), tt).
Proof.
  intros Hx. unfold main. rewrite (io_bind_ok _ _ _ _ _ spike_binder_ok).
  rewrite (io_bind_ok _ _ _ _ _ (spike_handshake_ok Hx)).
  rewrite (io_bind_ok _ _ _ _ _ spike_traffic_ok).
  rewrite (io_bind_ok _ _ _ _ _ (proj1 spike_keys_ok)). apply spike_keys_ok.
Qed.
End green.

(** A curve known only at the key pair of the RFC. *)
Definition known_answer : X25519 := {|
  diffie_hellman secret public :=
    if decide (secret = server_priv ∧ public = client_pub) then exp_ecdhe_shared
    else replicate 32 0 |}.

Lemma spike_green_witness :
  main (H1 := known_answer) tt = (Done (Ok tt), tt).
Proof. apply (spike_green (H := known_answer)). vm_compute. reflexivity. Defined.

Lemma hex_round_trip_witness : parse_hex_blob (encode_lower [0; 171; 255]) = Done [0; 171; 255].
Proof.
  apply (hex_round_trip [0; 171; 255]).
  repeat (constructor; [split; vm_compute; discriminate|]). constructor.
Defined.

(** The label is limited to 249 bytes, the output to 254 blocks. *)
Lemma hkdf_expand_label_spec_witness :
  hkdf_expand_label [1] "key" [] 8129 =
  if decide (String.length "key" ≤ 249 ∧ length (@nil Z) ≤ 255)%nat
  then if decide (8129 ≤ 8128)
       then Done (take (Z.to_nat 8129)
              (hkdf_stream [1] (hkdf_info (String.append "tls13 " "key") [] 8129)
                 (block_count (Z.to_nat 8129))))
       else Panic
  else Panic.
Proof.
  apply (hkdf_expand_label_spec [1] "key" [] 8129). split; vm_compute; discriminate.
Defined.

(** 8160 bytes is the most RFC 5869 allows; the tool panics. *)
Lemma expand_panics_on_a_legal_length `{Hmac} (secret : list Z) :
  hkdf_expand_label secret "key" [] 8160 = Panic.
Proof.
  pose proof (expand_loop_spec (S (Z.to_nat 8160)) secret (hkdf_info "tls13 key" [] 8160)
    (Z.to_nat 8160) 0) as He.
  assert (block_count (Z.to_nat 8160) = 255%nat) as Hb by (vm_compute; reflexivity).
  rewrite Hb, decide_False in He by lia. apply He; lia.
Qed.
End KeySchedule.
