(* ===== verification/Pool.v ===== *)
(** * Pool: calls and guards running over shared atomics

    The setting of the [spin] crate ([examples/esp32c3_mqtt_server/vendor/
    spin-0.5.2]): atomic words, and any number of actors that work on them.  An
    actor is a method call in progress or a guard somebody holds; its steps are
    the single atomic operations of the code, interleaved in any order.  A step
    takes a choice, which is the client's (what is done with a guard) or the
    hardware's (a weak compare-exchange may fail for no reason); calls may start
    at any time.  So a theorem about the reachable pools holds for every client
    of the crate's safe interface, however many threads it has.

    The steps are sequentially consistent, as they are on the single core of the
    ESP32-C3; the acquire and release orderings of the source are not modelled. *)

From stdpp Require Import relations.
From S2P Require Import Prelude.

Open Scope Z_scope.

Module Pool.

(** ** [core::sync::atomic]

    The value an operation leaves behind; the value it returns is the one it
    found. *)
Section atomics.
Context (bits : Z).

Definition usize (x : Z) : Z := x mod 2 ^ bits.
Definition fetch_add (w n : Z) : Z := usize (w + n).
Definition fetch_sub (w n : Z) : Z := usize (w - n).
(** [!n] *)
Definition bnot (n : Z) : Z := 2 ^ bits - 1 - n.
End atomics.

(** [compare_exchange(current, new)]: the new value, when it succeeds.  The weak
    variant also fails when [lucky] is false. *)
Definition compare_exchange `{EqDecision V} (strong lucky : bool) (w current new : V) : option V :=
  if decide (w = current) then if strong || lucky then Some new else None else None.

Lemma compare_exchange_Some `{EqDecision V} strong lucky (w current new w' : V) :
  compare_exchange strong lucky w current new = Some w' → w = current ∧ w' = new.
Proof. unfold compare_exchange. case_decide; [|done]. case_match; [|done]. by intros [= ->]. Qed.

(** ** Actors over a shared state *)
Section pool.
Context {S L C : Type}.
Context (step : C → S → L → option (S * L)) (starts : L → bool).

Record pool := { shared : S; actors : list L }.

Inductive action := Start (l : L) | Run (i : nat) (c : C).

(** An action that is not possible leaves no successor. *)
Definition act (p : pool) (a : action) : option pool :=
  match a with
  | Start l => if starts l then Some {| shared := shared p; actors := actors p ++ [l] |} else None
  | Run i c =>
      match actors p !! i with
      | None => None
      | Some l =>
          match step c (shared p) l with
          | None => None
          | Some (s, l) => Some {| shared := s; actors := <[i := l]> (actors p) |}
          end
      end
  end.

(** A schedule, as long as [q] holds. *)
Fixpoint acts (q : pool → bool) (p : pool) (l : list action) : option pool :=
  match l with
  | [] => Some p
  | a :: l =>
      match act p a with
      | None => None
      | Some p => if q p then acts q p l else None
      end
  end.

Definition idle (s : S) : pool := {| shared := s; actors := [] |}.

Definition moves (p p' : pool) : Prop := ∃ a, act p a = Some p'.

(** Executions that stay within [Q]. *)
Definition reachable (Q : pool → Prop) (s : S) (p : pool) : Prop :=
  rtc (λ p p', moves p p' ∧ Q p') (idle s) p.

Lemma moves_inv p p' :
  moves p p' →
  (∃ l, starts l = true ∧ p' = {| shared := shared p; actors := actors p ++ [l] |}) ∨
  ∃ c i l s' l', actors p !! i = Some l ∧ step c (shared p) l = Some (s', l') ∧
    p' = {| shared := s'; actors := <[i := l']> (actors p) |}.
Proof.
  intros [[l|i c] Ha]; simpl in Ha.
  - left. exists l. destruct (starts l); naive_solver.
  - right. destruct (actors p !! i) as [l|] eqn:Hi; [|done].
    destruct (step c (shared p) l) as [[s' l']|] eqn:Hs; [|done].
    exists c, i, l, s', l'. naive_solver.
Qed.

(** Induction over an execution: an invariant holds initially, survives a new
    call and every step of an actor. *)
Lemma reachable_ind (Q : pool → Prop) (I : S → list L → Prop) s :
  I s [] →
  (∀ s ls l, I s ls → starts l = true → I s (ls ++ [l])) →
  (∀ c s ls i l s' l', I s ls → ls !! i = Some l → step c s l = Some (s', l') →
     Q {| shared := s'; actors := <[i := l']> ls |} → I s' (<[i := l']> ls)) →
  ∀ p, reachable Q s p → I (shared p) (actors p).
Proof.
  intros H0 Hstart Hstep p Hr. revert p Hr. apply (rtc_ind_r (λ p, I (shared p) (actors p))); [done|].
  intros p p' _ [Hm HQ] IH.
  destruct (moves_inv _ _ Hm) as [(l & Hl & ->)|(c & i & l & s' & l' & Hi & Hs & ->)]; simpl; eauto.
Qed.

Lemma acts_app q p l l' :
  acts q p (l ++ l') = match acts q p l with None => None | Some p => acts q p l' end.
Proof.
  revert p. induction l as [|a l IH]; intros p; simpl; [done|]. destruct (act p a) as [p'|]; [|done].
  by destruct (q p').
Qed.

Lemma acts_reachable (Q : pool → Prop) q s l p p' :
  (∀ p, q p = true → Q p) → reachable Q s p → acts q p l = Some p' → reachable Q s p'.
Proof.
  intros HQ. revert p. induction l as [|a l IH]; simpl; intros p Hr Hp; [by simplify_eq|].
  destruct (act p a) as [p1|] eqn:Ha; [|done]. destruct (q p1) eqn:Hq; [|done]. apply (IH p1); [|done].
  eapply rtc_r; [exact Hr|]. split; [by exists a|by apply HQ].
Qed.
End pool.
Arguments pool : clear implicits.
Arguments action : clear implicits.

(** ** Counting actors

    [sum_list_with f] adds up what each actor contributes. *)
Definition b2n (b : bool) : nat := if b then 1 else 0.

Section counting.
Context {L : Type}.
Implicit Types f g : L → nat.

Lemma sum_ge f ls i l : ls !! i = Some l → (f l ≤ sum_list_with f ls)%nat.
Proof.
  revert i. induction ls as [|x ls IH]; intros [|i] Hi; simplify_eq/=; [lia|]. pose proof (IH _ Hi). lia.
Qed.

Lemma sum_ge2 f ls i j l l' :
  ls !! i = Some l → ls !! j = Some l' → i ≠ j → (f l + f l' ≤ sum_list_with f ls)%nat.
Proof.
  revert i j. induction ls as [|x ls IH]; intros [|i] [|j] Hi Hj Hne; simplify_eq/=.
  - pose proof (sum_ge f _ _ _ Hj). lia.
  - pose proof (sum_ge f _ _ _ Hi). lia.
  - pose proof (IH i j Hi Hj). lia.
Qed.

Lemma sum_le f g ls : (∀ l, f l ≤ g l)%nat → (sum_list_with f ls ≤ sum_list_with g ls)%nat.
Proof. intros Hle. induction ls as [|l ls IH]; simpl; [done|]. pose proof (Hle l). lia. Qed.

Lemma sum_snoc f ls l : sum_list_with f (ls ++ [l]) = (sum_list_with f ls + f l)%nat.
Proof. rewrite sum_list_with_app. simpl. lia. Qed.
End counting.
End Pool.
