(* ===== verification/SpinMutex.v ===== *)
(** * SpinMutex: the mutex of the vendored [spin] crate
    ([examples/esp32c3_mqtt_server/vendor/spin-0.5.2/src/mutex.rs])

    A flag taken by compare-exchange and released by a store.  The theorems:
    the flag is set exactly while somebody holds the lock, nobody else changes
    the data meanwhile, and the counter of the crate's own [lots_and_lots] test
    is right for every number of threads and every interleaving. *)

From stdpp Require Import relations.
From S2P Require Import Prelude Pool.

Open Scope Z_scope.

Module SpinMutex.
Import Pool.

Record Mutex (T : Type) := { lock : bool; data : T }.
Arguments lock {T} _.
Arguments data {T} _.
Arguments Build_Mutex {T} _ _.

(** Where a call of [lock] or [try_lock] stands, or its guard.  [Spinning] is
    the inner loop of [obtain_lock]; a [Forgotten] guard went through
    [mem::forget]. *)
Inductive actor := Locking | Spinning | TryLocking | Guard | Forgotten | Gone.

(** The client writes through, drops or forgets a guard, or calls
    [force_unlock] for a forgotten one. *)
Inductive choice (T : Type) := Go (lucky : bool) | Store (v : T) | Drop | Forget | Force.
Arguments Go {T} lucky.
Arguments Store {T} v.
Arguments Drop {T}.
Arguments Forget {T}.
Arguments Force {T}.

Section mutex.
Context {T : Type}.
Local Abbreviation Mutex := (Mutex T).

Definition new (user_data : T) : Mutex := {| lock := false; data := user_data |}.

Definition into_inner (m : Mutex) : T := data m.

Definition set_lock (m : Mutex) (b : bool) : Mutex := {| lock := b; data := data m |}.

(** [obtain_lock]: the outer loop retries the weak compare-exchange, the inner
    one waits until the lock looks free. *)
Definition obtain_lock (lucky : bool) (m : Mutex) (waiting : bool) : Mutex * actor :=
  if waiting then (m, if lock m then Spinning else Locking)
  else match compare_exchange false lucky (lock m) false true with
       | Some b => (set_lock m b, Guard)
       | None => (m, Spinning)
       end.

Definition try_lock (m : Mutex) : Mutex * actor :=
  match compare_exchange true true (lock m) false true with
  | Some b => (set_lock m b, Guard)
  | None => (m, Gone)
  end.

(** [drop] of the guard *)
Definition unlock (m : Mutex) : Mutex := set_lock m false.

Definition force_unlock (m : Mutex) : Mutex := set_lock m false.

Definition step (c : choice T) (m : Mutex) (l : actor) : option (Mutex * actor) :=
  match l, c with
  | Locking, Go lucky => Some (obtain_lock lucky m false)
  | Spinning, Go lucky => Some (obtain_lock lucky m true)
  | TryLocking, Go _ => Some (try_lock m)
  | Guard, Store v => Some ({| lock := lock m; data := v |}, Guard)
  | Guard, Drop => Some (unlock m, Gone)
  | Guard, Forget => Some (m, Forgotten)
  | Forgotten, Force => Some (force_unlock m, Gone)
  | _, _ => None
  end.

Definition starts (l : actor) : bool :=
  match l with Locking | TryLocking => true | _ => false end.

(** ** Exclusion *)
Definition holds (l : actor) : bool := match l with Guard | Forgotten => true | _ => false end.

(** What a step does to the flag and to the holder. *)
Inductive effect (b : bool) : bool → bool → bool → Prop :=
| keep h : effect b b h h
| taken : b = false → effect b true false true
| released : effect b false true false.

Lemma step_effect c m l m' l' :
  step c m l = Some (m', l') → effect (lock m) (lock m') (holds l) (holds l').
Proof.
  intros Hs. destruct l, c; simpl in Hs; simplify_eq; unfold obtain_lock, try_lock in *;
    try match goal with H : context [compare_exchange ?a ?b ?c ?d ?e] |- _ =>
      let Hc := fresh "Hc" in destruct (compare_exchange a b c d e) eqn:Hc;
      [apply compare_exchange_Some in Hc as [? ->]|] end;
    simplify_eq; simpl; try (by constructor); by case_match; constructor.
Qed.

Lemma step_data c m l m' l' :
  step c m l = Some (m', l') → data m' = data m ∨ l = Guard ∧ l' = Guard.
Proof.
  intros Hs. destruct l, c; simpl in Hs; unfold obtain_lock, try_lock in Hs; repeat case_match;
    simplify_eq; auto.
Qed.
End mutex.

(** The flag counts the holders.  [h] tells which actors hold the lock, so that
    the lemmas also serve clients whose threads are more than calls. *)
Section holders.
Context {L : Type} (h : L → bool).
Definition holders (ls : list L) : nat := sum_list_with (λ l, b2n (h l)) ls.

Lemma holders_effect b b' ls i l l' :
  holders ls = b2n b → ls !! i = Some l → effect b b' (h l) (h l') →
  holders (<[i := l']> ls) = b2n b'.
Proof.
  intros Hn Hi He. pose proof (sum_list_with_insert (λ l, b2n (h l)) ls i l l' Hi) as Hs. simpl in Hs.
  unfold holders in *. destruct He as [x|Hb|]; simpl in *; [lia|subst b; simpl in *; lia|].
  destruct b; simpl in *; lia.
Qed.

Lemma holders_unique b ls i j l l' :
  holders ls = b2n b → ls !! i = Some l → ls !! j = Some l' → h l = true → h l' = true → i = j.
Proof.
  intros Hn Hi Hj Hl Hl'. destruct (decide (i = j)) as [|Hne]; [done|].
  pose proof (sum_ge2 (λ l, b2n (h l)) ls i j l l' Hi Hj Hne) as Hge. simpl in Hge.
  unfold holders in Hn. rewrite Hl, Hl', Hn in Hge. destruct b; simpl in Hge; lia.
Qed.

Lemma holders_lock b ls i l : holders ls = b2n b → ls !! i = Some l → h l = true → b = true.
Proof.
  intros Hn Hi Hl. pose proof (sum_ge (λ l, b2n (h l)) ls i l Hi) as Hge. simpl in Hge.
  unfold holders in Hn. rewrite Hl, Hn in Hge. destruct b; simpl in Hge; [done|lia].
Qed.

Lemma holders_exist b ls : holders ls = b2n b → b = true → ∃ i l, ls !! i = Some l ∧ h l = true.
Proof.
  intros Hn ->. unfold holders in Hn. simpl in Hn. induction ls as [|l ls IH]; simpl in Hn; [done|].
  destruct (h l) eqn:Hl; [by exists 0%nat, l|]. destruct IH as (i & l' & ? & ?); [done|].
  by exists (S i), l'.
Qed.
End holders.

Section exclusion.
Context {T : Type}.
Local Abbreviation step := (step (T := T)).
Local Abbreviation any := (λ _ : pool (Mutex T) actor, True).

Lemma mutex_holders v p :
  reachable step starts any (new v) p → holders holds (actors p) = b2n (lock (shared p)).
Proof.
  apply (reachable_ind step starts any (λ m ls, holders holds ls = b2n (lock m))); [done| |].
  - intros m ls l Hn Hl. unfold holders in *. rewrite sum_snoc, Hn. destruct l; done || simpl; lia.
  - intros c m ls i l m' l' Hn Hi Hs%step_effect _. by eapply holders_effect.
Qed.

(** C39: the mutex excludes.  Whatever the clients do with [lock], [try_lock],
    drops, forgotten guards and [force_unlock] for them, and however their
    operations interleave: two calls never hold the lock together, the flag is
    set exactly while one does, only the holder's writes change the data, and a
    call to [lock] or [try_lock] that tries while nobody holds it gets it. *)
Theorem mutex_excludes (v : T) (p p' : pool (Mutex T) actor) :
  reachable step starts any (new v) p → moves step starts p p' →
  let held i := ∃ l, actors p !! i = Some l ∧ holds l = true in
  (∀ i j, held i → held j → i = j) ∧
  (lock (shared p) = true ↔ ∃ i, held i) ∧
  (data (shared p') = data (shared p) ∨ ∃ i, held i ∧ actors p !! i = Some Guard) ∧
  ((¬ ∃ i, held i) →
   (step (Go true) (shared p) Locking = Some (set_lock (shared p) true, Guard)) ∧
   (step (Go true) (shared p) Spinning = Some (shared p, Locking)) ∧
   (∀ lucky, step (Go lucky) (shared p) TryLocking = Some (set_lock (shared p) true, Guard))).
Proof.
  intros Hp Hm held. pose proof (mutex_holders v p Hp) as Hn.
  assert (lock (shared p) = true ↔ ∃ i, held i) as Hlock.
  { split.
    - intros Hl. destruct (holders_exist _ _ _ Hn Hl) as (i & l & ? & ?). by exists i, l.
    - intros (i & l & Hi & Hl). by eapply holders_lock. }
  split_and!; [|done| |].
  - intros i j (l & Hi & Hl) (l' & Hj & Hl'). by eapply holders_unique.
  - destruct (moves_inv _ _ _ _ Hm) as [(l & _ & ->)|(c & i & l & s' & l' & Hi & Hs & ->)]; [by left|].
    destruct (step_data _ _ _ _ _ Hs) as [?|[-> ->]]; [by left|]. right. exists i. split; [|done].
    by exists Guard.
  - rewrite <-Hlock, not_true_iff_false. intros Hl.
    unfold SpinMutex.step, obtain_lock, try_lock, compare_exchange. by rewrite Hl.
Qed.
End exclusion.

(** ** The counter of [tests::lots_and_lots]

    Every thread locks a [Mutex<()>], increments a plain [static mut CNT: u32]
    and drops the guard, [J] times.  The increment is a load and a store. *)
Inductive pc := Outside | Calling (l : actor) | Inside | Loaded (c : Z) | Leaving.

Definition inc (lucky : bool) (s : Mutex unit * Z) (t : nat * pc) : option ((Mutex unit * Z) * (nat * pc)) :=
  let '(m, cnt) := s in
  match t with
  | (S n, Outside) => Some (s, (S n, Calling Locking))
  | (n, Calling l) =>
      match step (Go lucky) m l with
      | Some (m, Guard) => Some ((m, cnt), (n, Inside))
      | Some (m, l) => Some ((m, cnt), (n, Calling l))
      | None => None
      end
  | (n, Inside) => Some (s, (n, Loaded cnt))
  | (n, Loaded c) => Some ((m, wrapping_add U32_MAX c 1), (n, Leaving))
  | (S n, Leaving) =>
      match step Drop m Guard with
      | Some (m, _) => Some ((m, cnt), (n, Outside))
      | None => None
      end
  | _ => None
  end.

Section counter.
Context (J : nat).

Definition inc_starts (t : nat * pc) : bool :=
  match t with (n, Outside) => bool_decide (n = J) | _ => false end.

Definition in_section (t : nat * pc) : bool :=
  match t.2 with Inside | Loaded _ | Leaving => true | _ => false end.

(** Increments a thread has yet to make. *)
Definition todo (t : nat * pc) : nat := match t.2 with Leaving => t.1 - 1 | _ => t.1 end.

(** A thread's own part of the invariant. *)
Definition sane (cnt : Z) (t : nat * pc) : Prop :=
  match t with
  | (n, Outside) => True
  | (n, Calling l) => holds l = false ∧ (0 < n)%nat
  | (n, Loaded c) => c = cnt ∧ (0 < n)%nat
  | (n, _) => (0 < n)%nat
  end.

Lemma inc_step lucky m cnt t m' cnt' t' :
  inc lucky (m, cnt) t = Some ((m', cnt'), t') → sane cnt t →
  effect (lock m) (lock m') (in_section t) (in_section t') ∧ sane cnt' t' ∧
  (cnt' = cnt ∧ todo t' = todo t ∨
   in_section t = true ∧ cnt' = wrapping_add U32_MAX cnt 1 ∧ todo t = S (todo t')).
Proof using.
  intros Hs Ht. destruct t as [n [|l| |c|]]; simpl in Hs, Ht.
  - destruct n as [|n]; simplify_eq. split_and!; [apply (keep _ false)|split; [done|lia]|auto].
  - destruct (step (Go lucky) m l) as [[m1 l']|] eqn:Hl; [|by destruct n].
    pose proof (step_effect _ _ _ _ _ Hl) as He. destruct Ht as [Hh Hn]. rewrite Hh in He.
    assert (l' ≠ Forgotten).
    { destruct l; simpl in Hl; unfold obtain_lock, try_lock in Hl; repeat case_match; congruence. }
    destruct n as [|n]; [lia|]. destruct l'; simplify_eq; simpl in *; split_and!; auto.
  - destruct n; simplify_eq; (split_and!; [apply (keep _ true)|done|auto]).
  - destruct Ht as [-> Hn]. destruct n as [|n]; simplify_eq; [lia|].
    split_and!; [apply (keep _ true)|simpl; lia|]. right. split_and!; [done..|]. unfold todo. simpl. lia.
  - destruct n as [|n]; simplify_eq. split_and!; [apply released|done|]. left. split; [done|].
    unfold todo. simpl. lia.
Qed.

Record counting (s : Mutex unit * Z) (ts : list (nat * pc)) : Prop := {
  ct_lock : holders in_section ts = b2n (lock s.1);
  ct_sum : s.2 + Z.of_nat (sum_list_with todo ts) = Z.of_nat (J * length ts);
  ct_cnt : 0 ≤ s.2;
  ct_sane : Forall (sane s.2) ts;
}.

(** Fewer increments in all than the counter can hold. *)
Definition fits (p : pool (Mutex unit * Z) (nat * pc)) : Prop :=
  Z.of_nat (J * length (actors p)) ≤ U32_MAX.

Lemma sane_others cnt cnt' ts i t t' b :
  Forall (sane cnt) ts → holders in_section ts = b2n b → ts !! i = Some t →
  in_section t = true → sane cnt' t' → Forall (sane cnt') (<[i := t']> ts).
Proof using.
  intros Hall Hn Hi Ht Ht'. apply Forall_lookup. intros j x Hj.
  apply list_lookup_insert_Some in Hj as [(-> & <- & _)|[Hne Hj]]; [done|].
  pose proof (proj1 (Forall_lookup _ _) Hall j x Hj) as Hx.
  destruct x as [n [| | |c|]]; try done. destruct Hne. by eapply holders_unique.
Qed.

Lemma counting_step lucky s ts i t s' t' :
  counting s ts → ts !! i = Some t → inc lucky s t = Some (s', t') →
  Z.of_nat (J * length ts) ≤ U32_MAX → counting s' (<[i := t']> ts).
Proof using.
  intros [Hlock Hsum Hcnt Hsane] Hi Hs Hfit. destruct s as [m cnt], s' as [m' cnt']. simpl in *.
  destruct (inc_step _ _ _ _ _ _ _ Hs) as (He & Ht' & Hstep).
  { by apply (proj1 (Forall_lookup _ _) Hsane i). }
  pose proof (sum_list_with_insert todo ts i t t' Hi) as Ht.
  destruct Hstep as [[-> Hd]|(Hin & -> & Hd)].
  - split; simpl; [by eapply holders_effect|rewrite length_insert; lia|done|by apply Forall_insert].
  - assert (wrapping_add U32_MAX cnt 1 = cnt + 1) as Hw.
    { apply wrapping_add_small; pose proof (sum_ge todo ts i t Hi); lia. }
    split; simpl; [by eapply holders_effect|rewrite length_insert, Hw; lia|lia|].
    by eapply sane_others.
Qed.

(** C38: no increment is lost.  For any number of threads that each make [J]
    increments under the lock, started at any time and interleaved in any way,
    the counter plus what is still to be done is the total, as long as the
    total fits the counter; so when all threads are through it is exact. *)
Theorem mutex_counter_exact (p : pool (Mutex unit * Z) (nat * pc)) :
  reachable inc inc_starts fits (new tt, 0) p →
  (shared p).2 + Z.of_nat (sum_list_with todo (actors p)) = Z.of_nat (J * length (actors p)) ∧
  (Forall (λ t, t = (0%nat, Outside)) (actors p) → (shared p).2 = Z.of_nat (J * length (actors p))).
Proof using.
  intros Hp. assert (counting (shared p) (actors p)) as [_ Hsum _ _].
  { revert p Hp. apply (reachable_ind inc inc_starts fits counting).
    - split; simpl; [done|lia|done|constructor].
    - intros s ts [n []] [Hlock Hsum Hcnt Hsane] Ht; simpl in Ht; try done.
      apply bool_decide_eq_true in Ht as ->. split; [|rewrite sum_snoc, length_app; change (todo (J, Outside)) with J; simpl; lia|done|].
      + unfold holders in *. rewrite sum_snoc, Hlock. simpl. lia.
      + apply Forall_app. split; [done|]. by repeat constructor.
    - intros c s ts i t s' t' Hc Hi Hs HQ. eapply counting_step; [done..|].
      unfold fits in HQ. simpl in HQ. by rewrite length_insert in HQ. }
  split; [done|]. intros Hall. assert (sum_list_with todo (actors p) = 0%nat) as H0.
  { clear Hsum Hp. revert Hall. generalize (actors p). intros ts Hall.
    induction Hall as [|t ts -> _ IH]; [done|]. exact IH. }
  lia.
Qed.
End counter.

(** ** Examples *)
Abbreviation always := (λ _, true).

(** One call holds the lock, another waits for it. *)
Definition ex_actions : list (action actor (choice Z)) :=
  [Start Locking; Start Locking; Run 0 (Go true); Run 1 (Go true)].
Definition ex_pool : pool (Mutex Z) actor :=
  default (idle (new 0)) (acts step starts always (idle (new 7)) ex_actions).

Lemma ex_pool_reachable : reachable step starts (λ _, True) (new 7) ex_pool.
Proof.
  apply (acts_reachable step starts _ always (new 7) ex_actions (idle (new 7))); [done|constructor|].
  vm_compute. reflexivity.
Qed.

Lemma mutex_excludes_witness : lock (shared ex_pool) = true ↔ ∃ i l, actors ex_pool !! i = Some l ∧ holds l = true.
Proof.
  apply (mutex_excludes 7 ex_pool {| shared := {| lock := true; data := 8 |}; actors := actors ex_pool |}
    ex_pool_reachable). exists (Run 0 (Store 8)). vm_compute. reflexivity.
Defined.

(** Two threads make two increments each; the second finds the lock taken. *)
Definition ex_schedule : list (action (nat * pc) bool) :=
  [Start (2%nat, Outside); Start (2%nat, Outside)] ++ replicate 2 (Run 0 true) ++
  replicate 3 (Run 1 true) ++ replicate 8 (Run 0 true) ++ replicate 10 (Run 1 true).
Definition ex_fits (p : pool (Mutex unit * Z) (nat * pc)) : bool :=
  bool_decide (Z.of_nat (2 * length (actors p)) ≤ U32_MAX).
Definition ex_counted : pool (Mutex unit * Z) (nat * pc) :=
  default (idle (new tt, 0)) (acts inc (inc_starts 2) ex_fits (idle (new tt, 0)) ex_schedule).

Lemma ex_counted_reachable : reachable inc (inc_starts 2) (fits 2) (new tt, 0) ex_counted.
Proof.
  apply (acts_reachable inc (inc_starts 2) (fits 2) ex_fits (new tt, 0) ex_schedule (idle (new tt, 0)));
    [|constructor|vm_compute; reflexivity].
  intros p Hp. by apply bool_decide_eq_true in Hp.
Qed.

Lemma mutex_counter_exact_witness : (shared ex_counted).2 = 4.
Proof.
  apply (mutex_counter_exact 2 ex_counted ex_counted_reachable).
  assert (actors ex_counted = [(0%nat, Outside); (0%nat, Outside)]) as -> by (vm_compute; reflexivity).
  repeat constructor.
Defined.
End SpinMutex.
