(* ===== verification/SpinOnce.v ===== *)
(** * SpinOnce: the one-time initialisation of the vendored [spin] crate
    ([examples/esp32c3_mqtt_server/vendor/spin-0.5.2/src/once.rs])

    A state word and a cell.  The call that takes the word from INCOMPLETE to
    RUNNING runs its builder, stores the value and then COMPLETE; a panic of the
    builder stores PANICKED on the way out.  The theorems: at most one builder
    ever runs, everybody gets the value it returned, the [unreachable_unchecked]
    branches are unreachable and nobody reads the cell while it is written; and
    when the builder is done, every call returns within three operations. *)

From stdpp Require Import relations.
From S2P Require Import Prelude Pool.

Open Scope Z_scope.

Module SpinOnce.
Import Pool.

(** The states of the word. *)
Abbreviation INCOMPLETE := 0x0.
Abbreviation RUNNING := 0x1.
Abbreviation COMPLETE := 0x2.
Abbreviation PANICKED := 0x3.

(** [on_runs] and [on_built] are ghosts: how many builders were entered, and
    what they returned. *)
Record Once (T : Type) := {
  on_state : Z;
  on_data : option T;
  on_runs : nat;
  on_built : list T;
}.
Arguments on_state {T} _.
Arguments on_data {T} _.
Arguments on_runs {T} _.
Arguments on_built {T} _.
Arguments Build_Once {T} _ _ _ _.

(** Where a call of [call_once], [try] or [wait] stands.  From [Building] to
    [Completing] the guard [Finish] is armed; [Deciding status] is the loop of
    [call_once]; [Getting] is [force_get]. *)
Inductive actor (T : Type) :=
| Loading
| Claiming
| Building
| Writing (v : T)
| Completing
| Unwinding
| Deciding (status : Z)
| Trying
| Waiting
| Getting
| Returned (r : option T)
| Panicking
| Unreachable
| Undefined.
Arguments Loading {T}.
Arguments Claiming {T}.
Arguments Building {T}.
Arguments Writing {T} v.
Arguments Completing {T}.
Arguments Unwinding {T}.
Arguments Deciding {T} status.
Arguments Trying {T}.
Arguments Waiting {T}.
Arguments Getting {T}.
Arguments Returned {T} r.
Arguments Panicking {T}.
Arguments Unreachable {T}.
Arguments Undefined {T}.

(** What a running builder does: go on, return or unwind.  Everything else only
    goes on. *)
Inductive choice (T : Type) := Go | Return (v : T) | Unwind.
Arguments Go {T}.
Arguments Return {T} v.
Arguments Unwind {T}.

Section once.
Context {T : Type}.
Local Abbreviation Once := (Once T).
Local Abbreviation actor := (actor T).

Definition INIT : Once :=
  {| on_state := INCOMPLETE; on_data := None; on_runs := 0; on_built := [] |}.

Definition set_state (o : Once) (s : Z) : Once :=
  {| on_state := s; on_data := on_data o; on_runs := on_runs o; on_built := on_built o |}.

(** [self.data.get()] must be filled. *)
Definition force_get (o : Once) : actor :=
  match on_data o with None => Undefined | Some p => Returned (Some p) end.

(** The compare-exchange that elects the builder; it answers what it found. *)
Definition claim (o : Once) : Once * actor :=
  match compare_exchange true true (on_state o) INCOMPLETE RUNNING with
  | Some s =>
      ({| on_state := s; on_data := on_data o; on_runs := S (on_runs o); on_built := on_built o |},
       Building)
  | None => (o, Deciding (on_state o))
  end.

(** The builder, and the assignment of its value. *)
Definition build (o : Once) (c : choice T) : Once * actor :=
  match c with
  | Go => (o, Building)
  | Return v =>
      ({| on_state := on_state o; on_data := on_data o; on_runs := on_runs o;
          on_built := on_built o ++ [v] |}, Writing v)
  | Unwind => (o, Unwinding)
  end.

Definition write (o : Once) (v : T) : Once * actor :=
  ({| on_state := on_state o; on_data := Some v; on_runs := on_runs o; on_built := on_built o |},
   Completing).

(** [Finish::drop] with [panicked] still set. *)
Definition finish_drop (o : Once) : Once * actor := (set_state o PANICKED, Panicking).

(** One round of the loop of [call_once]. *)
Definition decide_status (o : Once) (status : Z) : actor :=
  if decide (status = INCOMPLETE) then Unreachable
  else if decide (status = RUNNING) then Deciding (on_state o)
  else if decide (status = PANICKED) then Panicking
  else if decide (status = COMPLETE) then Getting
  else Undefined.

Definition try_ (o : Once) : actor :=
  if decide (on_state o = COMPLETE) then Getting else Returned None.

Definition wait (o : Once) : actor :=
  if decide (on_state o = INCOMPLETE) then Returned None
  else if decide (on_state o = RUNNING) then Waiting
  else if decide (on_state o = COMPLETE) then Getting
  else if decide (on_state o = PANICKED) then Panicking
  else Undefined.

Definition step (c : choice T) (o : Once) (l : actor) : option (Once * actor) :=
  match l, c with
  | Loading, Go =>
      Some (o, if decide (on_state o = INCOMPLETE) then Claiming else Deciding (on_state o))
  | Claiming, Go => Some (claim o)
  | Building, c => Some (build o c)
  | Writing v, Go => Some (write o v)
  | Completing, Go => Some (set_state o COMPLETE, Getting)
  | Unwinding, Go => Some (finish_drop o)
  | Deciding status, Go => Some (o, decide_status o status)
  | Trying, Go => Some (o, try_ o)
  | Waiting, Go => Some (o, wait o)
  | Getting, Go => Some (o, force_get o)
  | _, _ => None
  end.

Definition starts (l : actor) : bool :=
  match l with Loading | Trying | Waiting => true | _ => false end.

(** ** The invariant *)
Definition runner (l : actor) : bool :=
  match l with Building | Writing _ | Completing | Unwinding => true | _ => false end.
Definition runners (ls : list actor) : nat := sum_list_with (λ l, b2n (runner l)) ls.

(** What where an actor stands says about the cell. *)
Definition sane (o : Once) (l : actor) : Prop :=
  match l with
  | Building | Unwinding => on_data o = None ∧ on_built o = []
  | Writing v => on_data o = None ∧ on_built o = [v]
  | Completing => ∃ v, on_data o = Some v ∧ on_built o = [v]
  | Deciding s =>
      s = RUNNING ∧ on_state o ≠ INCOMPLETE ∨
      s = COMPLETE ∧ on_state o = COMPLETE ∨ s = PANICKED ∧ on_state o = PANICKED
  | Getting => on_state o = COMPLETE
  | Returned (Some v) => on_state o = COMPLETE ∧ on_data o = Some v
  | Panicking => on_state o = PANICKED
  | Unreachable | Undefined => False
  | _ => True
  end.

(** What each state says about the cell and the builders. *)
Inductive stage : Once → nat → Prop :=
| st_incomplete : stage INIT 0
| st_running d b : stage {| on_state := RUNNING; on_data := d; on_runs := 1; on_built := b |} 1
| st_complete v : stage {| on_state := COMPLETE; on_data := Some v; on_runs := 1; on_built := [v] |} 0
| st_panicked : stage {| on_state := PANICKED; on_data := None; on_runs := 1; on_built := [] |} 0.

Definition oinv (o : Once) (ls : list actor) : Prop := stage o (runners ls) ∧ Forall (sane o) ls.

Lemma runner_at ls i l : ls !! i = Some l → runner l = true → (1 ≤ runners ls)%nat.
Proof. intros Hi Hl. pose proof (sum_ge (λ l, b2n (runner l)) ls i l Hi) as H. simpl in H. by rewrite Hl in H. Qed.

(** Before the builder is done, the word moves on under everybody but it. *)
Lemma sane_moved o o' l :
  on_state o = INCOMPLETE ∨ on_state o = RUNNING → runner l = false → sane o l →
  on_state o' ≠ INCOMPLETE → sane o' l.
Proof.
  intros Ho Hl Hs Ho'. destruct l as [| | | | | |x| | | |[v|]| | |]; try done; simpl in *.
  - left. destruct Hs as [[-> _]|[[_ Hs]|[_ Hs]]]; [done|lia..].
  - lia.
  - lia.
  - lia.
Qed.

Lemma once_sane_others o o' ls i l l' :
  on_state o = INCOMPLETE ∧ runners ls = 0%nat ∨ on_state o = RUNNING ∧ runners ls = 1%nat ∧ runner l = true →
  Forall (sane o) ls → ls !! i = Some l → on_state o' ≠ INCOMPLETE → sane o' l' →
  Forall (sane o') (<[i := l']> ls).
Proof.
  intros Ho Hall Hi Ho' Hl'. apply Forall_lookup. intros j x Hj.
  apply list_lookup_insert_Some in Hj as [(-> & <- & _)|[Hne Hj]]; [done|].
  apply (sane_moved o); [naive_solver| |by apply (proj1 (Forall_lookup _ _) Hall j)|done].
  destruct (runner x) eqn:Hx; [exfalso|done]. destruct Ho as [[_ H0]|(_ & H1 & Hl)].
  - pose proof (runner_at _ _ _ Hj Hx). lia.
  - pose proof (sum_ge2 (λ l, b2n (runner l)) ls i j l x Hi Hj Hne) as H2. simpl in H2.
    rewrite Hl, Hx in H2. unfold runners in H1. simpl in H2. lia.
Qed.

Lemma runners_insert ls i l l' :
  ls !! i = Some l → (runners (<[i := l']> ls) + b2n (runner l) = runners ls + b2n (runner l'))%nat.
Proof. intros Hi. apply (sum_list_with_insert (λ l, b2n (runner l)) ls i l l' Hi). Qed.

(** A step that leaves the word and the cell alone. *)
Lemma oinv_same o ls i l l' :
  oinv o ls → ls !! i = Some l → runner l = runner l' → sane o l' → oinv o (<[i := l']> ls).
Proof.
  intros [Hst Hall] Hi Hr Hl'. split; [|by apply Forall_insert].
  pose proof (runners_insert ls i l l' Hi) as Hn. rewrite Hr in Hn.
  replace (runners (<[i := l']> ls)) with (runners ls) by lia. done.
Qed.

Lemma stage_runner o n : stage o n → (1 ≤ n)%nat →
  n = 1%nat ∧ on_state o = RUNNING ∧ on_runs o = 1%nat.
Proof. intros [] Hn; simpl; (lia || done). Qed.

(** A step of the builder's call. *)
Lemma oinv_runner o ls i l o' l' :
  oinv o ls → ls !! i = Some l → runner l = true → sane o' l' → on_state o' ≠ INCOMPLETE →
  stage o' (b2n (runner l')) → oinv o' (<[i := l']> ls).
Proof.
  intros [Hst Hall] Hi Hr Hl' Ho' Hst'.
  destruct (stage_runner _ _ Hst) as (Hn & Hs & _); [by eapply runner_at|].
  pose proof (runners_insert ls i l l' Hi) as Hn'. rewrite Hr in Hn'. simpl in Hn'. split.
  - replace (runners (<[i := l']> ls)) with (b2n (runner l')) by lia. done.
  - by eapply once_sane_others; [right|..].
Qed.

Lemma oinv_step c o ls i l o' l' :
  oinv o ls → ls !! i = Some l → step c o l = Some (o', l') → oinv o' (<[i := l']> ls).
Proof.
  intros Ho Hi Hs. pose proof Ho as [Hst Hall].
  pose proof (proj1 (Forall_lookup _ _) Hall i l Hi) as Hl.
  assert (runner l = true → on_state o = RUNNING ∧ on_runs o = 1%nat) as Hrun.
  { intros Hr. destruct (stage_runner _ _ Hst) as (_ & ? & ?); [by eapply runner_at|done]. }
  destruct l as [| | |v| | |x| | | | | | |]; destruct c; simpl in Hs;
    unfold write, finish_drop in Hs; simplify_eq; simpl in Hl.
  - apply (oinv_same _ _ _ _ _ Ho Hi); [by case_decide|]. case_decide as Hd; [done|]. simpl.
    destruct Hst; naive_solver.
  - unfold claim in *. destruct (compare_exchange _ _ _ _ _) as [s|] eqn:Hc; simplify_eq.
    + apply compare_exchange_Some in Hc as [Hs ->]. inversion Hst as [Hx Hn| | |]; subst o; simpl in *; try done.
      split; [|apply (once_sane_others INIT _ _ _ Claiming); [by left|done..]].
      pose proof (runners_insert ls i _ Building Hi). simpl in *.
      replace (runners (<[i := Building]> ls)) with 1%nat by lia. constructor.
    + apply (oinv_same _ _ _ _ _ Ho Hi); [done|]. simpl. unfold compare_exchange in Hc.
      case_decide; [done|]. destruct Hst; naive_solver.
  - by apply (oinv_same _ _ _ _ _ Ho Hi).
  - destruct (Hrun eq_refl) as [Hx Hr], o as [st d r b]; simpl in *; subst.
    destruct Hl as [-> ->]. apply (oinv_runner _ _ _ _ _ _ Ho Hi); [done..|constructor].
  - by apply (oinv_same _ _ _ _ _ Ho Hi).
  - destruct (Hrun eq_refl) as [Hx Hr], o as [st d r b]; simpl in *; subst.
    destruct Hl as [-> ->]. apply (oinv_runner _ _ _ _ _ _ Ho Hi); [done|simpl; by exists v|done|constructor].
  - destruct (Hrun eq_refl) as [Hx Hr], o as [st d r b]; simpl in *; subst.
    destruct Hl as (v & -> & ->). apply (oinv_runner _ _ _ _ _ _ Ho Hi); [done..|constructor].
  - destruct (Hrun eq_refl) as [Hx Hr], o as [st d r b]; simpl in *; subst.
    destruct Hl as [-> ->]. apply (oinv_runner _ _ _ _ _ _ Ho Hi); [done..|constructor].
  - apply (oinv_same _ _ _ _ _ Ho Hi); unfold decide_status.
    + by repeat case_decide.
    + destruct Hl as [[-> Hx]|[[-> Hx]|[-> Hx]]]; simpl; [|done..]. destruct Hst; naive_solver.
  - apply (oinv_same _ _ _ _ _ Ho Hi); unfold try_; by case_decide.
  - apply (oinv_same _ _ _ _ _ Ho Hi); unfold wait; [by repeat case_decide|].
    repeat case_decide; try done. destruct Hst; naive_solver.
  - apply (oinv_same _ _ _ _ _ Ho Hi); unfold force_get; destruct Hst; simpl in *; done.
Qed.

Lemma oinv_reachable p :
  reachable step starts (λ _, True) INIT p → oinv (shared p) (actors p).
Proof.
  apply (reachable_ind step starts (λ _, True) oinv).
  - split; constructor.
  - intros o ls l [Hst Hall] Hl. split.
    + unfold runners in *. rewrite sum_snoc. destruct l; simpl in Hl |- *; try done; by rewrite Nat.add_0_r.
    + apply Forall_app. split; [done|]. repeat constructor. by destruct l.
  - intros c o ls i l o' l' Ho Hi Hs _. by eapply oinv_step.
Qed.

(** C36: once and only once.  Whatever calls to [call_once], [try] and [wait] are
    made, with builders that return or panic, and however they interleave: at
    most one builder is ever entered; every value handed out is the one it
    returned; a call panics only after it panicked; neither
    [unreachable_unchecked] nor [unreachable!] is reached; and the cell is not
    read while it is written. *)
Theorem once_runs_once (p : pool Once actor) :
  reachable step starts (λ _, True) INIT p →
  (on_runs (shared p) ≤ 1)%nat ∧
  (∀ i v, actors p !! i = Some (Returned (Some v)) →
     on_runs (shared p) = 1%nat ∧ on_built (shared p) = [v] ∧ on_data (shared p) = Some v) ∧
  (∀ i, actors p !! i = Some Panicking → on_runs (shared p) = 1%nat ∧ on_built (shared p) = []) ∧
  (∀ i l, actors p !! i = Some l → l ≠ Unreachable ∧ l ≠ Undefined) ∧
  (∀ i j v, actors p !! i = Some (Writing v) → actors p !! j ≠ Some Getting).
Proof.
  intros [Hst Hall]%oinv_reachable. rewrite Forall_lookup in Hall. split_and!.
  - destruct Hst; simpl; lia.
  - intros i v [Hs Hd]%Hall. destruct Hst; simplify_eq/=; auto; lia.
  - intros i Hs%Hall. simpl in Hs. destruct Hst; simplify_eq/=; auto; lia.
  - intros i l Hl%Hall. by destruct l.
  - intros i j v Hi Hj%Hall. simpl in Hj. pose proof (runner_at _ _ _ Hi eq_refl).
    destruct (stage_runner _ _ Hst) as (_ & ? & _); [done|]. lia.
Qed.

(** ** After the builder *)
Definition settled (o : Once) : Prop := on_state o = COMPLETE ∨ on_state o = PANICKED.

(** How many operations a call still needs. *)
Definition rank (l : actor) : nat :=
  match l with
  | Loading | Claiming => 3
  | Deciding s => if decide (s = RUNNING) then 3 else 2
  | Trying | Waiting => 2
  | Getting => 1
  | _ => 0
  end.

Definition over (l : actor) : Prop := (∃ r, l = Returned r) ∨ l = Panicking.

Lemma settled_step c o ls i l o' l' :
  oinv o ls → settled o → ls !! i = Some l → step c o l = Some (o', l') → o' = o ∧ (rank l' < rank l)%nat.
Proof.
  intros Ho Hset Hi Hs. pose proof (oinv_step _ _ _ _ _ _ _ Ho Hi Hs) as [_ Hall'].
  destruct Ho as [Hst Hall]. rewrite Forall_lookup in Hall. pose proof (Hall _ _ Hi) as Hl.
  assert (runner l = false) as Hr.
  { destruct (runner l) eqn:Hr; [exfalso|done]. destruct (stage_runner _ _ Hst) as (_ & ? & _).
    { by eapply runner_at. } destruct Hset; lia. }
  destruct l as [| | |v| | |x| | | | | | |]; destruct c; simplify_eq/=.
  - split; [done|]. rewrite decide_False by (destruct Hset; lia). simpl.
    rewrite decide_False by (destruct Hset; lia). lia.
  - unfold claim, compare_exchange in Hs. rewrite decide_False in Hs by (destruct Hset; lia).
    simplify_eq. split; [done|]. simpl. rewrite decide_False by (destruct Hset; lia). lia.
  - split; [done|]. unfold decide_status. destruct Hl as [[-> _]|[[-> _]|[-> _]]]; simpl; [|lia..].
    rewrite decide_False by (destruct Hset; lia). lia.
  - split; [done|]. unfold try_. case_decide; simpl; lia.
  - split; [done|]. unfold wait. destruct Hset as [-> | ->]; simpl; lia.
  - split; [done|]. unfold force_get. destruct (on_data _); simpl; lia.
Qed.

Local Abbreviation any := (λ _ : pool Once actor, True).
Local Abbreviation run := (acts step starts (λ _, true)).

(** The operations of call [i] in a schedule. *)
Fixpoint own_steps (i : nat) (l : list (action actor (choice T))) : nat :=
  match l with
  | [] => 0
  | Run j _ :: l => (if decide (j = i) then 1 else 0) + own_steps i l
  | _ :: l => own_steps i l
  end.

Lemma settled_acts l p p' i a :
  reachable step starts any INIT p → settled (shared p) → actors p !! i = Some a → run p l = Some p' →
  shared p' = shared p ∧ ∃ a', actors p' !! i = Some a' ∧ (rank a' + own_steps i l ≤ rank a)%nat.
Proof.
  revert p a. induction l as [|x l IH]; intros p a Hr Hset Ha Hl; simpl in Hl.
  { simplify_eq. split; [done|]. exists a. simpl. split; [done|lia]. }
  destruct (act step starts p x) as [q|] eqn:Hx; [|done].
  assert (reachable step starts any INIT q) as Hq by (eapply rtc_r; [exact Hr|]; split; [by exists x|done]).
  assert (shared q = shared p ∧ ∃ b, actors q !! i = Some b ∧
    (rank b + (match x with Run j _ => if decide (j = i) then 1 else 0 | _ => 0 end) ≤ rank a)%nat)
    as (Hs & b & Hb & Hle).
  { destruct x as [y|j c]; simpl in Hx.
    - destruct (starts y); simplify_eq/=. split; [done|]. exists a. split; [by apply lookup_app_l_Some|lia].
    - destruct (actors p !! j) as [y|] eqn:Hj; [|done].
      destruct (step c (shared p) y) as [[o y']|] eqn:Hy; simplify_eq/=.
      destruct (settled_step _ _ _ _ _ _ _ (oinv_reachable p Hr) Hset Hj Hy) as [-> Hlt]. split; [done|].
      case_decide as Hji.
      + subst j. exists y'. rewrite Ha in Hj. simplify_eq. split; [|lia].
        apply list_lookup_insert_eq. by eapply lookup_lt_Some.
      + exists a. rewrite list_lookup_insert_ne by done. split; [done|lia]. }
  destruct (IH q b Hq) as (Hs' & a' & Ha' & Hle'); [by rewrite Hs|done|done|].
  split; [congruence|]. exists a'. split; [done|]. destruct x as [|j c]; simpl; [|case_decide]; lia.
Qed.

End once.

(** ** Examples *)
Definition ex_run (l : list (action (actor Z) (choice Z))) : pool (Once Z) (actor Z) :=
  default (idle INIT) (acts step starts (λ _, true) (idle INIT) l).

Lemma ex_run_reachable l p :
  acts step starts (λ _, true) (idle INIT) l = Some p →
  reachable step starts (λ _, True) (INIT (T := Z)) p.
Proof. apply (acts_reachable step starts _ (λ _, true)); [done|constructor]. Qed.

(** Two calls race; the second waits while the builder of the first returns 5. *)
Definition ex_race : list (action (actor Z) (choice Z)) :=
  [Start Loading; Start Loading; Run 0 Go; Run 1 Go; Run 0 Go; Run 1 Go; Run 1 Go; Run 0 Go;
   Run 0 (Return 5); Run 0 Go; Run 0 Go].
Definition ex_end : list (action (actor Z) (choice Z)) := [Run 1 Go; Run 0 Go; Run 1 Go; Run 1 Go].

Lemma once_runs_once_witness :
  actors (ex_run (ex_race ++ ex_end)) = [Returned (Some 5); Returned (Some 5)] ∧
  on_built (shared (ex_run (ex_race ++ ex_end))) = [5].
Proof.
  split; [vm_compute; reflexivity|].
  apply (once_runs_once (ex_run (ex_race ++ ex_end))) with (i := 1%nat); [|vm_compute; reflexivity].
  apply (ex_run_reachable (ex_race ++ ex_end)). vm_compute. reflexivity.
Defined.

End SpinOnce.
