(* ===== verification/SpinRwLock.v ===== *)
(** * SpinRwLock: the reader-writer lock of the vendored [spin] crate
    ([examples/esp32c3_mqtt_server/vendor/spin-0.5.2/src/rw_lock.rs])

    One word holds the number of readers (from bit 2 on), the UPGRADED bit and
    the WRITER bit.  Readers add themselves first and undo it when a bit is
    set; an attempt at an upgradeable guard may leave the UPGRADED bit behind
    for the writer to clear.  The theorems: every step of every call and guard
    is a step of an abstract lock that grants guards only when they are
    compatible with those given out, as long as fewer than [2 ^ (bits - 2)]
    increments are outstanding; beyond that the count wraps and a writer is let
    in among the readers. *)

From stdpp Require Import relations.
From S2P Require Import Prelude Pool.

Open Scope Z_scope.

Module SpinRwLock.
Import Pool.

Definition READER : Z := Z.shiftl 1 2.
Definition UPGRADED : Z := Z.shiftl 1 1.
Definition WRITER : Z := 1.

Record RwLock (T : Type) := { lock : Z; data : T }.
Arguments lock {T} _.
Arguments data {T} _.
Arguments Build_RwLock {T} _ _.

(** [RwLockReadGuard], [RwLockUpgradeableGuard], [RwLockWriteGuard] *)
Inductive kind := Read | Upgradeable | Write.
#[global] Instance kind_eq_dec : EqDecision kind.
Proof. solve_decision. Defined.

(** Where a call stands, or the guard it returned.  A call that retries is
    [read], [write], [upgradeable_read] or [upgrade], one that does not is its
    [try_] variant; [strong] selects the strong compare-exchange, which the
    [try_] variants use.  [checked]: the [debug_assert] has been passed. *)
Inductive actor :=
| Reading (retry : bool)
| UndoingRead (retry : bool)
| Writing (strong : bool)
| ReadingUpgradeable (retry : bool)
| Guard (k : kind)
| Upgrading (strong : bool)
| Demoting (k : kind) (checked : bool)
| Dropping (k : kind) (checked : bool)
| Forgotten (k : kind)
| Forcing (k : kind) (checked : bool)
| Gone
| Aborted (l : actor).

(** What the client does with a guard: write through it, drop it, forget it,
    upgrade or downgrade it, or call a [force_] method for a forgotten one.
    [Go] is the next operation of a call. *)
Inductive choice (T : Type) :=
| Go (lucky : bool)
| Store (v : T)
| Drop
| Forget
| Upgrade (strong : bool)
| Downgrade
| Force.
Arguments Go {T} lucky.
Arguments Store {T} v.
Arguments Drop {T}.
Arguments Forget {T}.
Arguments Upgrade {T} strong.
Arguments Downgrade {T}.
Arguments Force {T}.

Section rwlock.
Context {T : Type} (bits : Z) (debug : bool).
Local Abbreviation RwLock := (RwLock T).
Local Abbreviation BOTH := (Z.lor WRITER UPGRADED).

Definition new (user_data : T) : RwLock := {| lock := 0; data := user_data |}.

Definition into_inner (l : RwLock) : T := data l.

(** ** The calls

    Each function is one atomic operation: from the word to the new word and
    where the call goes on. *)
Definition try_read (retry : bool) (w : Z) : Z * actor :=
  (fetch_add bits w READER,
   if decide (Z.land w BOTH ≠ 0) then UndoingRead retry else Guard Read).

Definition undo_read (retry : bool) (w : Z) : Z * actor :=
  (fetch_sub bits w READER, if retry then Reading true else Gone).

Definition try_write_internal (strong lucky : bool) (w : Z) : Z * actor :=
  match compare_exchange strong lucky w 0 WRITER with
  | Some w => (w, Guard Write)
  | None => (w, if strong then Gone else Writing false)
  end.

Definition try_upgradeable_read (retry : bool) (w : Z) : Z * actor :=
  (Z.lor w UPGRADED,
   if decide (Z.land w BOTH = 0) then Guard Upgradeable
   else if retry then ReadingUpgradeable true else Gone).

Definition try_upgrade_internal (strong lucky : bool) (w : Z) : Z * actor :=
  match compare_exchange strong lucky w UPGRADED WRITER with
  | Some w => (w, Guard Write)
  | None => (w, if strong then Guard Upgradeable else Upgrading false)
  end.

(** The new read guard exists, the old guard is about to be dropped. *)
Definition downgrade (k : kind) (w : Z) : Z * actor := (fetch_add bits w READER, Demoting k false).

(** ** The ends of the guards *)
Definition drop_assert (k : kind) (w : Z) : bool :=
  match k with
  | Read => bool_decide (Z.land w (bnot bits BOTH) > 0)
  | Upgradeable => bool_decide (Z.land w BOTH = UPGRADED)
  | Write => bool_decide (Z.land w WRITER = WRITER)
  end.

Definition drop_guard (k : kind) (w : Z) : Z :=
  match k with
  | Read => fetch_sub bits w READER
  | Upgradeable => fetch_sub bits w UPGRADED
  | Write => Z.land w (bnot bits BOTH)
  end.

(** [force_read_decrement] and [force_write_unlock] *)
Definition force_assert (k : kind) (w : Z) : bool :=
  match k with
  | Read => bool_decide (Z.land w (bnot bits WRITER) > 0)
  | _ => bool_decide (Z.land w (bnot bits BOTH) = 0)
  end.

Definition force_unlock (k : kind) (w : Z) : Z :=
  match k with
  | Read => fetch_sub bits w READER
  | _ => Z.land w (bnot bits BOTH)
  end.

(** A [debug_assert]: the load is an operation of its own. *)
Definition assert_debug (ok : bool) (l next : actor) : actor :=
  if debug && negb ok then Aborted l else next.

Definition step (c : choice T) (s : RwLock) (l : actor) : option (RwLock * actor) :=
  let w := lock s in
  let on_word '(w', l') := Some ({| lock := w'; data := data s |}, l') in
  match l, c with
  | Reading retry, Go _ => on_word (try_read retry w)
  | UndoingRead retry, Go _ => on_word (undo_read retry w)
  | Writing strong, Go lucky => on_word (try_write_internal strong lucky w)
  | ReadingUpgradeable retry, Go _ => on_word (try_upgradeable_read retry w)
  | Upgrading strong, Go lucky => on_word (try_upgrade_internal strong lucky w)
  | Guard Write, Store v => Some ({| lock := w; data := v |}, l)
  | Guard k, Drop => Some (s, Dropping k false)
  | Guard k, Forget => Some (s, Forgotten k)
  | Guard Upgradeable, Upgrade strong => Some (s, Upgrading strong)
  | Guard ((Upgradeable | Write) as k), Downgrade => on_word (downgrade k w)
  | Demoting k false, Go _ => Some (s, assert_debug (drop_assert k w) l (Demoting k true))
  | Demoting ((Upgradeable | Write) as k) true, Go _ => on_word (drop_guard k w, Guard Read)
  | Dropping k false, Go _ => Some (s, assert_debug (drop_assert k w) l (Dropping k true))
  | Dropping k true, Go _ => on_word (drop_guard k w, Gone)
  | Forgotten ((Read | Write) as k), Force => Some (s, Forcing k false)
  | Forcing ((Read | Write) as k) false, Go _ =>
      Some (s, assert_debug (force_assert k w) l (Forcing k true))
  | Forcing ((Read | Write) as k) true, Go _ => on_word (force_unlock k w, Gone)
  | _, _ => None
  end.

Definition starts (l : actor) : bool :=
  match l with Reading _ | Writing _ | ReadingUpgradeable _ => true | _ => false end.
End rwlock.

(** ** The word

    [pack r u w]: [r] increments, counted modulo the width, and the two bits. *)
Section word.
Context (bits : Z) (Hbits : 2 < bits).

Definition slots : Z := 2 ^ (bits - 2).

Definition pack (r : nat) (u w : bool) : Z := 4 * (Z.of_nat r mod slots) + 2 * Z.b2z u + Z.b2z w.

Lemma slots_pos : 0 < slots.
Proof using Hbits. apply Z.pow_pos_nonneg; lia. Qed.

Lemma width_slots : 2 ^ bits = 4 * slots.
Proof using Hbits.
  unfold slots. replace bits with (2 + (bits - 2)) at 1 by lia. by rewrite Z.pow_add_r by lia.
Qed.

Lemma small_testbit x i : 0 ≤ x < 4 → 2 ≤ i → Z.testbit x i = false.
Proof.
  intros Hx Hi. destruct (decide (x = 0)) as [->|]; [apply Z.bits_0|]. apply Z.bits_above_log2; [lia|].
  enough (Z.log2 x < 2) by lia. apply Z.log2_lt_pow2; [lia|]. change (2 ^ 2) with 4. lia.
Qed.

Lemma split_word k c : 0 ≤ c < 4 → 4 * k + c = Z.lor (Z.shiftl k 2) c.
Proof.
  intros Hc. rewrite <-Z.add_nocarry_lor; [rewrite Z.shiftl_mul_pow2 by lia; change (2 ^ 2) with 4; lia|].
  apply Z.bits_inj'. intros i Hi. rewrite Z.land_spec, Z.bits_0.
  destruct (decide (i < 2)); [by rewrite Z.shiftl_spec_low by lia|].
  rewrite (small_testbit c) by lia. apply andb_false_r.
Qed.

Lemma low_bits k c m : 0 ≤ c < 4 → 0 ≤ m < 4 → Z.land (4 * k + c) m = Z.land c m.
Proof.
  intros Hc Hm. apply Z.bits_inj'. intros i Hi. rewrite split_word by done.
  rewrite !Z.land_spec, Z.lor_spec. destruct (decide (i < 2)).
  - by rewrite Z.shiftl_spec_low.
  - rewrite (small_testbit m) by lia. by rewrite !andb_false_r.
Qed.

Lemma high_bits k c m :
  0 ≤ c < 4 → 0 ≤ k < slots → 0 ≤ m < 4 → Z.land c (3 - m) = c - Z.land c m →
  Z.land (4 * k + c) (bnot bits m) = 4 * k + Z.land c (3 - m).
Proof using Hbits.
  intros Hc Hk Hm Hcm. unfold bnot. rewrite width_slots.
  replace (4 * slots - 1 - m) with (4 * (slots - 1) + (3 - m)) by lia.
  assert (0 ≤ Z.land c (3 - m) < 4).
  { split; [apply Z.land_nonneg; lia|]. assert (0 ≤ Z.land c m) by (apply Z.land_nonneg; lia). lia. }
  rewrite !split_word by lia. apply Z.bits_inj'. intros i Hi.
  rewrite Z.land_spec, !Z.lor_spec. destruct (decide (i < 2)).
  { rewrite !Z.shiftl_spec_low, Z.land_spec by lia. done. }
  rewrite (small_testbit c), (small_testbit (3 - m)), (small_testbit (Z.land c _)) by lia.
  rewrite !orb_false_r, !Z.shiftl_spec_high by lia. rewrite <-Z.land_spec.
  f_equal. replace (slots - 1) with (Z.ones (bits - 2)) by (rewrite Z.ones_equiv; unfold slots; lia).
  rewrite Z.land_ones by lia. by apply Z.mod_small.
Qed.

Lemma count_range r : 0 ≤ Z.of_nat r mod slots < slots.
Proof using Hbits. apply Z.mod_pos_bound, slots_pos. Qed.

(** One more increment, in the word and in its count. *)
Lemma count_S r :
  Z.of_nat (S r) mod slots =
  if decide (Z.of_nat r mod slots + 1 = slots) then 0 else Z.of_nat r mod slots + 1.
Proof using Hbits.
  pose proof (count_range r). replace (Z.of_nat (S r)) with (Z.of_nat r + 1) by lia.
  rewrite <-Zplus_mod_idemp_l. generalize dependent (Z.of_nat r mod slots). intros x Hx. case_decide as Heq; [rewrite Heq; apply Z.mod_same|apply Z.mod_small]; lia.
Qed.

Lemma pack_usize r u w : usize bits (pack r u w) = pack r u w.
Proof using Hbits.
  unfold usize, pack. rewrite width_slots. pose proof (count_range r).
  apply Z.mod_small. destruct u, w; simpl; lia.
Qed.

Lemma usize_wrap x : usize bits (x + 4 * slots) = usize bits x.
Proof using Hbits.
  unfold usize. rewrite width_slots. rewrite <-(Z.mul_1_l (4 * slots)) at 1. apply Z_mod_plus_full.
Qed.

Lemma pack_add r u w : fetch_add bits (pack r u w) READER = pack (S r) u w.
Proof using Hbits.
  unfold fetch_add. change READER with 4. rewrite <-(pack_usize (S r)). unfold pack. rewrite count_S.
  case_decide; [|f_equal; lia]. rewrite <-(usize_wrap (_ + _ + Z.b2z w)). f_equal. lia.
Qed.

Lemma pack_sub r u w : fetch_sub bits (pack (S r) u w) READER = pack r u w.
Proof using Hbits.
  unfold fetch_sub. change READER with 4. rewrite <-(pack_usize r). unfold pack. rewrite count_S.
  case_decide; [|f_equal; lia]. rewrite <-(usize_wrap (_ - 4)). f_equal. lia.
Qed.

Lemma pack_clear_upgraded r w : fetch_sub bits (pack r true w) UPGRADED = pack r false w.
Proof using Hbits.
  unfold fetch_sub. change UPGRADED with 2. rewrite <-(pack_usize r false w). f_equal. unfold pack. simpl. lia.
Qed.

Lemma pack_set_upgraded r u w : Z.lor (pack r u w) UPGRADED = pack r true w.
Proof using.
  change UPGRADED with 2. unfold pack. rewrite <-!Z.add_assoc, !split_word by (destruct u, w; simpl; lia).
  rewrite <-Z.lor_assoc. f_equal. by destruct u, w.
Qed.

Lemma pack_both r u w : Z.land (pack r u w) (Z.lor WRITER UPGRADED) = 2 * Z.b2z u + Z.b2z w.
Proof using.
  change (Z.lor WRITER UPGRADED) with 3. unfold pack. rewrite <-!Z.add_assoc.
  rewrite low_bits by (destruct u, w; simpl; lia). by destruct u, w.
Qed.

Lemma pack_writer r u w : Z.land (pack r u w) WRITER = Z.b2z w.
Proof using.
  change WRITER with 1. unfold pack. rewrite <-!Z.add_assoc.
  rewrite low_bits by (destruct u, w; simpl; lia). by destruct u, w.
Qed.

Lemma pack_clear r u w : Z.land (pack r u w) (bnot bits (Z.lor WRITER UPGRADED)) = pack r false false.
Proof using Hbits.
  change (Z.lor WRITER UPGRADED) with 3. unfold pack. rewrite <-!Z.add_assoc.
  rewrite high_bits; [by destruct u, w|destruct u, w; simpl; lia|apply count_range|lia|by destruct u, w].
Qed.

Lemma pack_not_writer r u w : Z.land (pack r u w) (bnot bits WRITER) = pack r u false.
Proof using Hbits.
  change WRITER with 1. unfold pack. rewrite <-!Z.add_assoc.
  rewrite high_bits; [by destruct u, w|destruct u, w; simpl; lia|apply count_range|lia|by destruct u, w].
Qed.

Lemma pack_small r u w : Z.of_nat r < slots → pack r u w = 4 * Z.of_nat r + 2 * Z.b2z u + Z.b2z w.
Proof using. intros Hr. unfold pack. by rewrite Z.mod_small by lia. Qed.

Lemma pack_low r u w x :
  pack r u w = x → 0 ≤ x < 4 →
  Z.of_nat r mod slots = 0 ∧ u = Z.testbit x 1 ∧ w = Z.testbit x 0.
Proof using Hbits.
  unfold pack. intros <- Hx. pose proof (count_range r).
  assert (Z.of_nat r mod slots = 0) as -> by (destruct u, w; simpl in Hx; lia). by destruct u, w.
Qed.

(** ** The word against what is held

    [numbers x R U W]: [x] is the word for [R] increments, [U] upgradeable and
    [W] write guards.  While there is a writer, its UPGRADED bit means
    nothing. *)
Definition numbers (x : Z) (R U W : nat) : Prop :=
  ∃ u w, x = pack R u w ∧ W = b2n w ∧ (U + W ≤ 1)%nat ∧ (w = false → U = b2n u).

Lemma numbers_0 : numbers 0 0 0 0.
Proof using Hbits.
  exists false, false. split_and!; [|done|simpl; lia|done].
  unfold pack. rewrite Z.mod_0_l by (pose proof slots_pos; lia). done.
Qed.

Lemma numbers_eq x R U W R' U' W' :
  numbers x R U W → R' = R → U' = U → W' = W → numbers x R' U' W'.
Proof using. by intros ? -> -> ->. Qed.

Lemma numbers_le x R U W : numbers x R U W → (U + W ≤ 1)%nat.
Proof using. by intros (u & w & _ & _ & ? & _). Qed.

Lemma numbers_add x R U W : numbers x R U W → numbers (fetch_add bits x READER) (S R) U W.
Proof using Hbits. intros (u & w & -> & Hr). exists u, w. by rewrite pack_add. Qed.

Lemma numbers_sub x R U W : numbers x (S R) U W → numbers (fetch_sub bits x READER) R U W.
Proof using Hbits. intros (u & w & -> & Hr). exists u, w. by rewrite pack_sub. Qed.

(** The two bits read as 0 exactly when nobody may write. *)
Lemma numbers_both x R U W :
  numbers x R U W → Z.land x (Z.lor WRITER UPGRADED) = 0 ↔ U = 0%nat ∧ W = 0%nat.
Proof using.
  intros (u & w & -> & -> & HU & Hw). rewrite pack_both. destruct w; simpl; [split; [|lia]|].
  - destruct u; done.
  - rewrite (Hw eq_refl). destruct u; simpl; split; intros; lia.
Qed.

Lemma numbers_grant x R U W :
  numbers x R U W → Z.land x (Z.lor WRITER UPGRADED) = 0 → numbers (Z.lor x UPGRADED) R 1 0.
Proof using.
  intros Hx [-> ->]%(numbers_both _ _ _ _ Hx). destruct Hx as (u & w & -> & Hw & _).
  destruct w; [done|]. exists true, false. rewrite pack_set_upgraded. split_and!; simpl; lia || done.
Qed.

(** A refused attempt sets a bit that is set or means nothing. *)
Lemma numbers_refuse x R U W :
  numbers x R U W → Z.land x (Z.lor WRITER UPGRADED) ≠ 0 → numbers (Z.lor x UPGRADED) R U W.
Proof using.
  intros (u & w & -> & HW & HU & Hw). rewrite pack_both. intros Hne. exists true, w.
  rewrite pack_set_upgraded. split_and!; [done..|]. intros ->. specialize (Hw eq_refl).
  by destruct u.
Qed.

Lemma numbers_write x R U W :
  numbers x R U W → x = 0 → U = 0%nat ∧ W = 0%nat ∧ Z.of_nat R mod slots = 0 ∧ numbers WRITER R 0 1.
Proof using Hbits.
  intros (u & w & Hx & HW & _ & Hw) ->. symmetry in Hx.
  destruct (pack_low _ _ _ _ Hx) as (HR & -> & ->); [lia|]. rewrite (Hw eq_refl), HW.
  split_and!; [done..|]. exists false, true. unfold pack. rewrite HR. split_and!; simpl; lia || done.
Qed.

Lemma numbers_upgrade x R U W :
  numbers x R U W → x = UPGRADED →
  U = 1%nat ∧ W = 0%nat ∧ Z.of_nat R mod slots = 0 ∧ numbers WRITER R 0 1.
Proof using Hbits.
  intros (u & w & Hx & HW & _ & Hw) ->. symmetry in Hx. change UPGRADED with 2 in Hx.
  destruct (pack_low _ _ _ _ Hx) as (HR & -> & ->); [lia|]. rewrite (Hw eq_refl), HW.
  split_and!; [done..|]. exists false, true. unfold pack. rewrite HR. split_and!; simpl; lia || done.
Qed.

Lemma numbers_drop_upgradeable x R W :
  numbers x R 1 W → numbers (fetch_sub bits x UPGRADED) R 0 W.
Proof using Hbits.
  intros (u & w & -> & -> & HU & Hw). destruct w; simpl in HU; [lia|]. specialize (Hw eq_refl).
  destruct u; [|done]. exists false, false. rewrite pack_clear_upgraded. split_and!; simpl; lia || done.
Qed.

Lemma numbers_drop_write x R U :
  numbers x R U 1 → numbers (Z.land x (bnot bits (Z.lor WRITER UPGRADED))) R 0 0.
Proof using Hbits.
  intros (u & w & -> & HW & HU & Hw). exists false, false. rewrite pack_clear. split_and!; simpl; lia || done.
Qed.
End word.

(** ** What the actors hold *)
Fixpoint guard_of (l : actor) : option kind :=
  match l with
  | Guard k | Demoting k _ | Dropping k _ | Forgotten k | Forcing k _ => Some k
  | Upgrading _ => Some Upgradeable
  | Aborted l => guard_of l
  | _ => None
  end.

Definition holds (k : kind) (l : actor) : nat := b2n (bool_decide (guard_of l = Some k)).

(** Increments of the reader count without a read guard. *)
Fixpoint transient (l : actor) : nat :=
  match l with UndoingRead _ | Demoting _ _ => 1 | Aborted l => transient l | _ => 0 end.

Definition counts (l : actor) : nat := holds Read l + transient l.

Definition held (k : kind) (ls : list actor) : nat := sum_list_with (holds k) ls.
Definition outstanding (ls : list actor) : nat := sum_list_with counts ls.

Lemma held_insert k ls i l l' :
  ls !! i = Some l → (held k (<[i := l']> ls) + holds k l = held k ls + holds k l')%nat.
Proof. apply sum_list_with_insert. Qed.
Lemma outstanding_insert ls i l l' :
  ls !! i = Some l → (outstanding (<[i := l']> ls) + counts l = outstanding ls + counts l')%nat.
Proof. apply sum_list_with_insert. Qed.

Lemma read_outstanding ls : (held Read ls ≤ outstanding ls)%nat.
Proof. apply sum_le. intros l. unfold counts. lia. Qed.

(** ** The abstract lock

    The guards given out, by actor, and the data.  A read or upgradeable guard is
    granted only while all others read, a write guard only while there is no
    other, and only a write guard changes the data. *)
Definition compatible (k other : kind) : Prop :=
  match k with Write => False | _ => other = Read end.

Inductive spec_step {T} : list (option kind) * T → list (option kind) * T → Prop :=
| spec_call gs v : spec_step (gs, v) (gs ++ [None], v)
| spec_grant gs v i k :
    gs !! i = Some None → (∀ j other, gs !! j = Some (Some other) → compatible k other) →
    spec_step (gs, v) (<[i := Some k]> gs, v)
| spec_release gs v i k : gs !! i = Some (Some k) → spec_step (gs, v) (<[i := None]> gs, v)
| spec_upgrade gs v i :
    gs !! i = Some (Some Upgradeable) →
    (∀ j other, j ≠ i → gs !! j = Some (Some other) → compatible Write other) →
    spec_step (gs, v) (<[i := Some Write]> gs, v)
| spec_downgrade gs v i k :
    gs !! i = Some (Some k) → k ≠ Read → spec_step (gs, v) (<[i := Some Read]> gs, v)
| spec_store gs v i v' : gs !! i = Some (Some Write) → spec_step (gs, v) (gs, v').

(** Two guards at a time: at least one only reads, and the other does not
    write. *)
Definition exclusive (gs : list (option kind)) : Prop :=
  ∀ i j k k', i ≠ j → gs !! i = Some (Some k) → gs !! j = Some (Some k') →
  k ≠ Write ∧ k' ≠ Write ∧ (k = Read ∨ k' = Read).

Lemma exclusive_insert gs i o :
  exclusive gs →
  (∀ k j k', o = Some k → j ≠ i → gs !! j = Some (Some k') → k ≠ Write ∧ k' ≠ Write ∧ (k = Read ∨ k' = Read)) →
  exclusive (<[i := o]> gs).
Proof.
  intros Hex Ho a b k k' Hab Ha Hb.
  apply list_lookup_insert_Some in Ha as [(-> & Ha & _)|[Hai Ha]];
    apply list_lookup_insert_Some in Hb as [(-> & Hb & _)|[Hbi Hb]]; [done| | |eauto].
  - by apply (Ho k b k').
  - destruct (Ho k' a k) as (? & ? & ?); [done..|]. tauto.
Qed.

Lemma spec_exclusive {T} (a a' : list (option kind) * T) :
  spec_step a a' → exclusive a.1 → exclusive a'.1.
Proof.
  intros [gs v|gs v i k Hi Hc|gs v i k Hi|gs v i Hi Hc|gs v i k Hi Hk|gs v i v' Hi] Hex; simpl in *;
    [|apply exclusive_insert; [done|]..|done].
  - intros i j k k' Hij Hi Hj. apply lookup_snoc_Some in Hi as [[_ Hi]|[_ [=]]].
    apply lookup_snoc_Some in Hj as [[_ Hj]|[_ [=]]]. eauto.
  - intros ? j k' [= <-] Hj Hg. specialize (Hc j k' Hg). destruct k; simplify_eq/=; auto.
  - done.
  - intros ? j k' [= <-] Hj Hg. by destruct (Hc j k').
  - intros ? j k' [= <-] Hj Hg. destruct (Hex i j k k') as (? & ? & ?); [done..|]. auto.
Qed.

(** ** What a step does

    On the word, and on the guard and transient increment of the actor. *)
Definition view (l : actor) : option kind * nat := (guard_of l, transient l).

Section effects.
Context {T : Type} (bits : Z) (debug : bool).
Local Abbreviation BOTH := (Z.lor WRITER UPGRADED).

Inductive effect (x : Z) : Z → option kind * nat → option kind * nat → Prop :=
| keep v : effect x x v v
| read_granted : Z.land x BOTH = 0 → effect x (fetch_add bits x READER) (None, 0%nat) (Some Read, 0%nat)
| read_refused : Z.land x BOTH ≠ 0 → effect x (fetch_add bits x READER) (None, 0%nat) (None, 1%nat)
| read_undone : effect x (fetch_sub bits x READER) (None, 1%nat) (None, 0%nat)
| read_dropped : effect x (fetch_sub bits x READER) (Some Read, 0%nat) (None, 0%nat)
| write_granted : x = 0 → effect x WRITER (None, 0%nat) (Some Write, 0%nat)
| write_dropped : effect x (Z.land x (bnot bits BOTH)) (Some Write, 0%nat) (None, 0%nat)
| upgradeable_granted :
    Z.land x BOTH = 0 → effect x (Z.lor x UPGRADED) (None, 0%nat) (Some Upgradeable, 0%nat)
| upgradeable_refused : Z.land x BOTH ≠ 0 → effect x (Z.lor x UPGRADED) (None, 0%nat) (None, 0%nat)
| upgradeable_dropped : effect x (fetch_sub bits x UPGRADED) (Some Upgradeable, 0%nat) (None, 0%nat)
| upgraded : x = UPGRADED → effect x WRITER (Some Upgradeable, 0%nat) (Some Write, 0%nat)
| demoting k : k ≠ Read → effect x (fetch_add bits x READER) (Some k, 0%nat) (Some k, 1%nat)
| upgradeable_demoted : effect x (fetch_sub bits x UPGRADED) (Some Upgradeable, 1%nat) (Some Read, 0%nat)
| write_demoted : effect x (Z.land x (bnot bits BOTH)) (Some Write, 1%nat) (Some Read, 0%nat).

Lemma rw_step_effect (c : choice T) s l s' l' :
  step bits debug c s l = Some (s', l') → effect (lock s) (lock s') (view l) (view l').
Proof.
  intros Hs.
  destruct l as [r|r|st|r|k|st|k ch|k ch|k|k ch| |l]; destruct c; try (destruct k); try (destruct ch);
    simpl in Hs; unfold try_write_internal, try_upgrade_internal in Hs; try discriminate.
  all: try match goal with H : context [compare_exchange ?a ?b ?c ?d ?e] |- _ =>
    let Hc := fresh "Hc" in destruct (compare_exchange a b c d e) eqn:Hc;
    [apply compare_exchange_Some in Hc as [? ->]|] end.
  all: simplify_eq; simpl; unfold assert_debug; repeat case_decide; repeat case_match; simplify_eq.
  all: try match goal with H : ¬ (_ ≠ _) |- _ => apply dec_stable in H end.
  all: by constructor.
Qed.

Lemma rw_step_data (c : choice T) s l s' l' :
  step bits debug c s l = Some (s', l') →
  data s' = data s ∨ guard_of l = Some Write ∧ l' = l ∧ lock s' = lock s.
Proof.
  intros Hs.
  destruct l as [r|r|st|r|k|st|k ch|k ch|k|k ch| |l]; destruct c; try (destruct k); try (destruct ch);
    simpl in Hs; unfold try_write_internal, try_upgrade_internal in Hs; try discriminate.
  all: repeat case_match; simplify_eq; simpl; auto.
Qed.
End effects.

(** The sums after a step of actor [i] from [l] to [l'], for [lia]. *)
Lemma tally ls i l l' g t g' t' :
  ls !! i = Some l → view l = (g, t) → view l' = (g', t') →
  let one k g := b2n (bool_decide (g = Some k)) in
  (outstanding (<[i := l']> ls) + (one Read g + t) = outstanding ls + (one Read g' + t') ∧
   held Read (<[i := l']> ls) + one Read g = held Read ls + one Read g' ∧
   held Upgradeable (<[i := l']> ls) + one Upgradeable g = held Upgradeable ls + one Upgradeable g' ∧
   held Write (<[i := l']> ls) + one Write g = held Write ls + one Write g')%nat.
Proof.
  intros Hi [= <- <-] [= <- <-]. split_and!; [by apply outstanding_insert|by apply held_insert..].
Qed.

Section safety.
Context {T : Type} (bits : Z) (debug : bool) (Hbits : 2 < bits).
Local Abbreviation step := (step (T := T) bits debug).
Local Abbreviation numbers := (numbers bits).

(** The word is what the actors make of it. *)
Definition rinv (s : RwLock T) (ls : list actor) : Prop :=
  numbers (lock s) (outstanding ls) (held Upgradeable ls) (held Write ls).

(** The cases of a step of actor [i]. *)
Local Ltac by_effect Hs Hi :=
  let Hv := fresh "Hv" in let Hv' := fresh "Hv'" in let Ht := fresh "Ht" in
  match type of Hs with
  | effect _ _ ?x' (view ?l) (view ?l') =>
      remember x' eqn:Hx'; remember (view l) as v eqn:Hv; remember (view l') as v' eqn:Hv';
      destruct Hs as [[g t]|Hb|Hb| | |Hb| |Hb|Hb| |Hb|k Hb| |];
      symmetry in Hv, Hv'; pose proof (tally _ _ _ _ _ _ _ _ Hi Hv Hv') as Ht; simpl in Ht
  end.

Lemma rinv_start s ls l : rinv s ls → starts l = true → rinv s (ls ++ [l]).
Proof.
  intros Hr Hl. eapply numbers_eq; [exact Hr|..]; unfold outstanding, held; rewrite sum_snoc;
    destruct l; simpl in Hl |- *; lia || done.
Qed.

Lemma rinv_step c s ls i l s' l' :
  rinv s ls → ls !! i = Some l → step c s l = Some (s', l') → rinv s' (<[i := l']> ls).
Proof using Hbits.
  unfold rinv. intros Hr Hi Hs%rw_step_effect. pose proof (numbers_le _ _ _ _ _ Hr). by_effect Hs Hi.
  - eapply numbers_eq; [exact Hr|lia..].
  - eapply numbers_eq; [by apply numbers_add|lia..].
  - eapply numbers_eq; [by apply numbers_add|lia..].
  - apply (numbers_sub _ Hbits). eapply numbers_eq; [exact Hr|lia..].
  - apply (numbers_sub _ Hbits). eapply numbers_eq; [exact Hr|lia..].
  - destruct (numbers_write _ Hbits _ _ _ _ Hr Hb) as (? & ? & _ & Hn). eapply numbers_eq; [exact Hn|lia..].
  - eapply numbers_eq; [apply (numbers_drop_write _ Hbits _ (outstanding ls) (held Upgradeable ls));
      eapply numbers_eq; [exact Hr|lia..]|lia..].
  - pose proof (proj1 (numbers_both _ _ _ _ _ Hr) Hb).
    eapply numbers_eq; [eapply numbers_grant; [exact Hr|done]|lia..].
  - eapply numbers_eq; [eapply numbers_refuse; [exact Hr|done]|lia..].
  - eapply numbers_eq; [apply (numbers_drop_upgradeable _ Hbits _ (outstanding ls) (held Write ls));
      eapply numbers_eq; [exact Hr|lia..]|lia..].
  - destruct (numbers_upgrade _ Hbits _ _ _ _ Hr Hb) as (? & ? & _ & Hn). eapply numbers_eq; [exact Hn|lia..].
  - eapply numbers_eq; [by apply numbers_add|lia..].
  - eapply numbers_eq; [apply (numbers_drop_upgradeable _ Hbits _ (outstanding ls) (held Write ls));
      eapply numbers_eq; [exact Hr|lia..]|lia..].
  - eapply numbers_eq; [apply (numbers_drop_write _ Hbits _ (outstanding ls) (held Upgradeable ls));
      eapply numbers_eq; [exact Hr|lia..]|lia..].
Qed.

(** ** With fewer increments than the count can hold *)
Definition within (p : pool (RwLock T) actor) : Prop :=
  Z.of_nat (outstanding (actors p)) < slots bits.

(** The only assertion that can fail is that of [force_write_unlock]. *)
Definition calm (l : actor) : Prop :=
  match l with Aborted l => ∃ checked, l = Forcing Write checked | _ => True end.

Record binv (s : RwLock T) (ls : list actor) : Prop := {
  bi_word : rinv s ls;
  bi_within : Z.of_nat (outstanding ls) < slots bits;
  bi_excl : (held Write ls ≠ 0 → held Read ls = 0)%nat;
  bi_calm : Forall calm ls;
}.

Lemma held_lookup ls i l k : ls !! i = Some l → guard_of l = Some k → (1 ≤ held k ls)%nat.
Proof.
  intros Hi Hg. etrans; [|by eapply (sum_ge (holds k))]. unfold holds.
  by rewrite bool_decide_eq_true_2.
Qed.

Lemma held_two ls i j l l' k :
  ls !! i = Some l → ls !! j = Some l' → guard_of l = Some k → guard_of l' = Some k → i ≠ j →
  (2 ≤ held k ls)%nat.
Proof.
  intros Hi Hj Hg Hg' Hne. etrans; [|by eapply (sum_ge2 (holds k) ls i j)]. unfold holds.
  by rewrite !bool_decide_eq_true_2.
Qed.

Lemma no_readers ls : Z.of_nat (outstanding ls) < slots bits →
  Z.of_nat (outstanding ls) mod slots bits = 0 → held Read ls = 0%nat.
Proof using.
  intros Hlt Hm. rewrite Z.mod_small in Hm by lia. pose proof (read_outstanding ls). lia.
Qed.

Lemma assert_holds s ls i l k :
  rinv s ls → Z.of_nat (outstanding ls) < slots bits → ls !! i = Some l → guard_of l = Some k →
  drop_assert bits k (lock s) = true ∧ (k = Read → force_assert bits k (lock s) = true).
Proof using Hbits.
  intros (u & w & Hx & HW & HU & Hw) Hlt Hi Hg. pose proof (held_lookup _ _ _ _ Hi Hg) as Hk.
  pose proof (read_outstanding ls). unfold drop_assert, force_assert. rewrite Hx. destruct k.
  - rewrite pack_clear, pack_not_writer, !pack_small, !bool_decide_eq_true by done.
    destruct u; simpl; lia.
  - split; [|done]. rewrite pack_both, bool_decide_eq_true. destruct w; simpl in *; [lia|].
    rewrite (Hw eq_refl) in Hk. destruct u; simpl in *; [done|lia].
  - split; [|done]. rewrite pack_writer, bool_decide_eq_true. destruct w; simpl in *; [done|lia].
Qed.

Lemma assert_debug_true l next : assert_debug debug true l next = next.
Proof using. unfold assert_debug. by rewrite andb_false_r. Qed.

Lemma step_calm c s ls i l s' l' :
  rinv s ls → Z.of_nat (outstanding ls) < slots bits → ls !! i = Some l →
  step c s l = Some (s', l') → calm l'.
Proof using Hbits.
  intros Hr Hlt Hi Hs.
  pose proof (λ k, assert_holds s ls i l k Hr Hlt Hi) as Hok.
  destruct l as [r|r|st|r|k|st|k ch|k ch|k|k ch| |l]; destruct c; try (destruct ch);
    cbn [SpinRwLock.step] in Hs; try discriminate.
  all: try (destruct (Hok _ eq_refl) as [Hd _]; rewrite Hd, assert_debug_true in Hs).
  all: unfold try_write_internal, try_upgrade_internal in Hs; try (destruct k); try discriminate.
  all: try (destruct (Hok _ eq_refl) as [_ Hd]; rewrite (Hd eq_refl), assert_debug_true in Hs).
  all: simpl in Hs; repeat case_match; simplify_eq; try done.
  unfold assert_debug. case_match; [|done]. by exists false.
Qed.

Lemma excl_step c s ls i l s' l' :
  binv s ls → ls !! i = Some l → step c s l = Some (s', l') →
  (held Write (<[i := l']> ls) ≠ 0 → held Read (<[i := l']> ls) = 0)%nat.
Proof using Hbits.
  intros [Hr Hlt Hex _] Hi Hs%rw_step_effect. pose proof (numbers_le _ _ _ _ _ Hr).
  pose proof (no_readers _ Hlt) as Hno. by_effect Hs Hi; try (intros; lia). all: intros HW.
  - pose proof (proj1 (numbers_both _ _ _ _ _ Hr) Hb). lia.
  - destruct (numbers_write _ Hbits _ _ _ _ Hr Hb) as (_ & _ & HR & _). specialize (Hno HR). lia.
  - destruct (numbers_upgrade _ Hbits _ _ _ _ Hr Hb) as (_ & _ & HR & _). specialize (Hno HR). lia.
Qed.

Lemma binv_reachable v p :
  reachable step starts within (new v) p → binv (shared p) (actors p).
Proof using Hbits.
  apply (reachable_ind step starts within binv).
  - split; [by apply numbers_0|apply (slots_pos _ Hbits)|done|constructor].
  - intros s ls l [Hr Hlt Hex Hc] Hl. split; [by apply rinv_start| | |].
    + unfold outstanding in *. rewrite sum_snoc. destruct l; simpl in Hl |- *; try done;
        by rewrite Nat.add_0_r.
    + unfold held in *. rewrite !sum_snoc. destruct l; simpl in Hl |- *; try done;
        by rewrite !Nat.add_0_r.
    + apply Forall_app. split; [done|]. repeat constructor. by destruct l.
  - intros c s ls i l s' l' Hb Hi Hs HQ. split.
    + eapply rinv_step; [apply Hb|done..].
    + exact HQ.
    + by eapply excl_step.
    + apply Forall_insert; [apply Hb|]. eapply step_calm; [apply Hb|apply Hb|done..].
Qed.

(** ** Refinement *)
Definition abs (s : RwLock T) (ls : list actor) : list (option kind) * T := (guard_of <$> ls, data s).

Lemma rw_abs_lookup s ls i o : (abs s ls).1 !! i = Some o ↔ ∃ l, ls !! i = Some l ∧ guard_of l = o.
Proof using. simpl. rewrite list_lookup_fmap, fmap_Some. naive_solver. Qed.

(** All guards are of kind [Read] when nobody holds the others. *)
Lemma only_readers s ls j k :
  held Upgradeable ls = 0%nat → held Write ls = 0%nat → (abs s ls).1 !! j = Some (Some k) → k = Read.
Proof using.
  intros HU HW (l & Hj & Hg)%rw_abs_lookup. pose proof (held_lookup _ _ _ _ Hj Hg). destruct k; [done|lia..].
Qed.

Lemma step_sim c s ls i l s' l' :
  binv s ls → ls !! i = Some l → step c s l = Some (s', l') →
  abs s' (<[i := l']> ls) = abs s ls ∨ spec_step (abs s ls) (abs s' (<[i := l']> ls)).
Proof using Hbits.
  intros [Hr Hlt Hex _] Hi Hs.
  assert (∀ o, guard_of l = o → (guard_of <$> ls) !! i = Some o) as Hat.
  { intros o <-. rewrite list_lookup_fmap. by rewrite Hi. }
  unfold abs. rewrite list_fmap_insert.
  assert (guard_of l' = guard_of l → <[i := guard_of l']> (guard_of <$> ls) = guard_of <$> ls) as Hid.
  { intros ->. apply list_insert_id. by apply Hat. }
  destruct (rw_step_data _ _ _ _ _ _ _ Hs) as [->|(Hg & -> & _)].
  2:{ rewrite (Hid eq_refl). right. eapply spec_store. by apply Hat. }
  apply rw_step_effect in Hs. pose proof (numbers_le _ _ _ _ _ Hr).
  pose proof (no_readers _ Hlt) as Hno. pose proof (numbers_both _ _ _ _ _ Hr) as Hboth.
  pose proof (λ j k, only_readers s ls j k) as Hrd. simpl in Hrd.
  by_effect Hs Hi; injection Hv as Hg _; injection Hv' as Hg' _; rewrite Hg in *; rewrite Hg' in *.
  all: try (left; by rewrite (Hid eq_refl)).
  all: right; try (by eapply spec_release; auto); try (by eapply spec_downgrade; auto).
  - apply spec_grant; [auto|]. intros j k Hj. simpl. apply Hboth in Hb as [??]. eauto.
  - destruct (numbers_write _ Hbits _ _ _ _ Hr Hb) as (HU & HW & HR & _). specialize (Hno HR).
    apply spec_grant; [auto|]. intros j k Hj. pose proof (Hrd j k HU HW Hj) as ->.
    apply (rw_abs_lookup s) in Hj as (lj & Hj & Hgj). pose proof (held_lookup _ _ _ _ Hj Hgj). lia.
  - apply spec_grant; [auto|]. intros j k Hj. simpl. apply Hboth in Hb as [??]. eauto.
  - destruct (numbers_upgrade _ Hbits _ _ _ _ Hr Hb) as (HU & HW & HR & _). specialize (Hno HR).
    apply spec_upgrade; [auto|]. intros j k Hne (lj & Hj & Hgj)%(rw_abs_lookup s).
    pose proof (held_lookup _ _ _ _ Hj Hgj). destruct k; [lia| |lia].
    pose proof (held_two _ _ _ _ _ _ Hj Hi Hgj Hg Hne). lia.
Qed.

Lemma move_sim v p p' :
  reachable step starts within (new v) p → moves step starts p p' →
  abs (shared p') (actors p') = abs (shared p) (actors p) ∨
  spec_step (abs (shared p) (actors p)) (abs (shared p') (actors p')).
Proof using Hbits.
  intros Hp%binv_reachable [(l & Hl & ->)|(c & i & l & s' & l' & Hi & Hs & ->)]%moves_inv; simpl.
  - right. unfold abs. rewrite fmap_app. simpl.
    assert (guard_of l = None) as -> by (by destruct l). apply spec_call.
  - by eapply step_sim.
Qed.

Lemma reachable_spec v p :
  reachable step starts within (new v) p → rtc spec_step ([], v) (abs (shared p) (actors p)).
Proof using Hbits.
  intros Hp. assert (reachable step starts within (new v) p ∧ rtc spec_step ([], v) (abs (shared p) (actors p)))
    as [_ ?]; [|done]. revert p Hp. apply rtc_ind_r; [split; constructor|].
  intros p p' _ [Hm HQ] [Hp IH]. split; [by eapply rtc_r|].
  destruct (move_sim v p p' Hp Hm) as [->|Hs]; [done|]. by eapply rtc_r.
Qed.

Lemma reachable_exclusive v p :
  reachable step starts within (new v) p → exclusive (guard_of <$> actors p).
Proof using Hbits.
  intros Hp%reachable_spec. change (exclusive (abs (shared p) (actors p)).1).
  revert Hp. generalize (abs (shared p) (actors p)).
  apply (rtc_ind_r (λ a, exclusive a.1)); [intros i j k k' _ [=]|].
  intros a a' _ Hs Ha. by eapply spec_exclusive.
Qed.

(** While anybody holds a read or an upgradeable guard, no operation of anybody
    changes the data. *)
Lemma read_stable (v : T) (p p' : pool (RwLock T) actor) :
  reachable step starts within (new v) p → moves step starts p p' →
  ∀ i k, (guard_of <$> actors p) !! i = Some (Some k) → k ≠ Write → data (shared p') = data (shared p).
Proof using Hbits.
  intros Hp Hm i k Hi Hk. pose proof (reachable_exclusive v p Hp) as Hex.
  destruct (moves_inv _ _ _ _ Hm) as [(l & Hl & ->)|(c & j & l & s' & l' & Hj & Hs & ->)]; [done|]. simpl.
  destruct (rw_step_data _ _ _ _ _ _ _ Hs) as [?|(Hg & _)]; [done|].
  assert ((guard_of <$> actors p) !! j = Some (Some Write)) as Hj' by (rewrite list_lookup_fmap, Hj; simpl; by rewrite Hg).
  destruct (decide (i = j)) as [->|Hne]; [congruence|].
  by destruct (Hex i j k Write Hne Hi Hj') as (_ & ? & _).
Qed.

(** C35: the lock implements the abstract lock.  Whatever the clients do with
    [read], [write], [upgradeable_read], their [try_] variants, [upgrade],
    [downgrade], drops, forgotten guards and the [force_] methods called for
    them, and however their atomic operations interleave, the guards given out
    and the data go through a run of the abstract lock, provided that fewer
    than [2 ^ (bits - 2)] increments of the word are outstanding at any time.
    So two guards are never a writer and something else, nor two upgradeable
    ones; while somebody holds a guard that only reads, no operation of anybody
    changes the data; and no [debug_assert] of a destructor or of
    [force_read_decrement] fails. *)
Theorem rwlock_refines_spec (v : T) (p : pool (RwLock T) actor) :
  reachable step starts within (new v) p →
  rtc spec_step ([], v) (guard_of <$> actors p, data (shared p)) ∧
  exclusive (guard_of <$> actors p) ∧
  (∀ p' i k, moves step starts p p' → (guard_of <$> actors p) !! i = Some (Some k) → k ≠ Write →
     data (shared p') = data (shared p)) ∧
  ∀ i l, actors p !! i = Some (Aborted l) → ∃ checked, l = Forcing Write checked.
Proof using Hbits.
  intros Hp. split_and!; [by apply reachable_spec|by eapply reachable_exclusive|intros; by eapply read_stable|].
  intros i l Hi.
  pose proof (bi_calm _ _ (binv_reachable v p Hp)) as Hc. rewrite Forall_forall in Hc.
  apply (Hc (Aborted l)). by eapply list_elem_of_lookup_2.
Qed.

(** What is free is granted.  In every reachable state a call that asks for
    a guard gets it with its next operation when no guard stands against it and,
    for writing, no increment is outstanding; a weak compare-exchange must not
    fail for no reason.  So a refused attempt leaves nothing behind once the
    guard it met is gone. *)
Lemma rwlock_grants (v : T) (p : pool (RwLock T) actor) (lucky : bool) (l : actor) :
  reachable step starts within (new v) p →
  let granted k := ∃ s', step (Go lucky) (shared p) l = Some (s', Guard k) in
  match l with
  | Reading _ => held Upgradeable (actors p) = 0%nat → held Write (actors p) = 0%nat → granted Read
  | ReadingUpgradeable _ =>
      held Upgradeable (actors p) = 0%nat → held Write (actors p) = 0%nat → granted Upgradeable
  | Writing strong =>
      outstanding (actors p) = 0%nat → held Upgradeable (actors p) = 0%nat →
      held Write (actors p) = 0%nat → strong || lucky = true → granted Write
  | Upgrading strong =>
      outstanding (actors p) = 0%nat → held Upgradeable (actors p) = 1%nat →
      strong || lucky = true → granted Write
  | _ => True
  end.
Proof using Hbits.
  intros Hp%binv_reachable granted. destruct (bi_word _ _ Hp) as (u & w & Hx & HW & Hle & Hw).
  pose proof (slots_pos _ Hbits).
  destruct l; try done; unfold granted; simpl; [| | |].
  - intros HU H0. destruct w; simpl in *; [lia|]. specialize (Hw eq_refl). destruct u; simpl in *; [lia|].
    rewrite decide_False; [by eexists|]. rewrite Hx, pack_both. simpl. lia.
  - intros HR HU H0 Hl. unfold try_write_internal, compare_exchange. rewrite Hl, decide_True; [by eexists|].
    destruct w; simpl in *; [lia|]. specialize (Hw eq_refl). destruct u; simpl in *; [lia|].
    rewrite Hx, HR, pack_small by lia. done.
  - intros HU H0. destruct w; simpl in *; [lia|]. specialize (Hw eq_refl). destruct u; simpl in *; [lia|].
    rewrite decide_True; [by eexists|]. by rewrite Hx, pack_both.
  - intros HR HU Hl. unfold try_upgrade_internal, compare_exchange. rewrite Hl, decide_True; [by eexists|].
    destruct w; simpl in *; [lia|]. specialize (Hw eq_refl). destruct u; simpl in *; [|lia].
    rewrite Hx, HR, pack_small by lia. done.
Qed.

(** ** When the count wraps *)
Local Abbreviation any := (λ _ : pool (RwLock T) actor, True).

Lemma run_last v (s : RwLock T) ls l c s' l' :
  reachable step starts any (new v) {| shared := s; actors := ls ++ [l] |} →
  step c s l = Some (s', l') →
  reachable step starts any (new v) {| shared := s'; actors := ls ++ [l'] |}.
Proof using.
  intros Hr Hs. eapply rtc_r; [exact Hr|]. split; [|done]. exists (Run (length ls) c). simpl.
  rewrite list_lookup_middle by done. rewrite Hs. do 2 f_equal.
  by rewrite insert_app_r_alt, Nat.sub_diag.
Qed.

Lemma start_last v (s : RwLock T) ls l :
  reachable step starts any (new v) {| shared := s; actors := ls |} → starts l = true →
  reachable step starts any (new v) {| shared := s; actors := ls ++ [l] |}.
Proof using.
  intros Hr Hl. eapply rtc_r; [exact Hr|]. split; [|done]. exists (Start l). simpl. by rewrite Hl.
Qed.

Lemma read_last v n ls :
  reachable step starts any (new v) {| shared := {| lock := pack bits n false false; data := v |}; actors := ls |} →
  reachable step starts any (new v)
    {| shared := {| lock := pack bits (S n) false false; data := v |}; actors := ls ++ [Guard Read] |}.
Proof using Hbits.
  intros Hr. eapply (run_last _ _ _ _ (Go true)); [by apply (start_last _ _ _ (Reading false))|].
  simpl. rewrite pack_both, pack_add by done. done.
Qed.

(** Read guards that are forgotten are never taken off the count. *)
Lemma leak v n :
  reachable step starts any (new v)
    {| shared := {| lock := pack bits n false false; data := v |}; actors := replicate n (Forgotten Read) |}.
Proof using Hbits.
  induction n as [|n IH].
  - destruct (numbers_0 _ Hbits) as (u & w & H0 & HW & _ & Hw). destruct w; [done|].
    pose proof (Hw eq_refl). destruct u; [done|]. rewrite <-H0. constructor.
  - rewrite replicate_S_end. eapply (run_last _ _ _ _ Forget); [by apply read_last|]. done.
Qed.

End safety.

(** ** Examples, with the word of the ESP32-C3 *)
Abbreviation step32 := (step (T := Z) 32 true).
Definition within32 (p : pool (RwLock Z) actor) : bool :=
  bool_decide (Z.of_nat (outstanding (actors p)) < slots 32).
Abbreviation run32 := (acts step32 starts within32).

Lemma run32_reachable l p :
  run32 (idle (new 7)) l = Some p → reachable step32 starts (within 32) (new 7) p.
Proof.
  apply (acts_reachable step32 starts (within 32) within32); [|constructor].
  intros q Hq. by apply bool_decide_eq_true in Hq.
Qed.

(** A reader, an upgradeable guard next to it, and a reader that was refused and
    has not undone its increment. *)
Definition ex_actions : list (action actor (choice Z)) :=
  [Start (Reading true); Run 0 (Go true); Start (ReadingUpgradeable false); Run 1 (Go true);
   Start (Reading false); Run 2 (Go true)].
Definition ex_pool : pool (RwLock Z) actor :=
  default (idle (new 0)) (run32 (idle (new 7)) ex_actions).

Lemma rw_ex_pool_reachable : reachable step32 starts (within 32) (new 7) ex_pool.
Proof. apply (run32_reachable ex_actions). vm_compute. reflexivity. Qed.

Lemma rwlock_refines_spec_witness :
  rtc spec_step ([], 7) ([Some Read; Some Upgradeable; None], 7) ∧ exclusive [Some Read; Some Upgradeable; None].
Proof.
  destruct (rwlock_refines_spec 32 true eq_refl 7 ex_pool rw_ex_pool_reachable) as (Hspec & Hex & _).
  split; [exact Hspec|exact Hex].
Defined.

(** A free lock is granted to a writer. *)
Lemma ex_write_granted :
  ∃ s', step32 (Go true) (new 7) (Writing false) = Some (s', Guard Write).
Proof.
  apply (rwlock_grants 32 true eq_refl 7 (idle (new 7)) true (Writing false));
    [apply (run32_reachable []); reflexivity|reflexivity..].
Defined.


(** A writer forgets its guard and calls [force_write_unlock], as its contract
    allows; a [try_read] that has not yet undone its increment fails the
    assertion of the debug build. *)
Lemma force_write_unlock_asserts :
  ∃ p, run32 (idle (new 7))
         [Start (Writing true); Run 0 (Go true); Run 0 Forget; Start (Reading false); Run 1 (Go true);
          Run 0 Force; Run 0 (Go true)] = Some p ∧
       actors p = [Aborted (Forcing Write false); UndoingRead false].
Proof. eexists. split; vm_compute; reflexivity. Qed.

(** The assertion of [force_read_decrement] does not mask the UPGRADED bit: it
    accepts a word without a reader. *)
Lemma force_read_assert_without_readers :
  force_assert 32 Read (pack 32 0 true false) = true ∧ drop_assert 32 Read (pack 32 0 true false) = false.
Proof. split; vm_compute; reflexivity. Qed.
End SpinRwLock.
