(* ===== verification/TestsSpin.v ===== *)
(** * TestsSpin: the unit tests of the vendored [spin] crate

    The tests of [mutex.rs], [once.rs] and [rw_lock.rs] as schedules of the
    pools; see [Suite.v].  [lots_and_lots] is [mutex_counter_exact].  In the
    tests with threads one schedule stands for the many. *)

From S2P Require Import Prelude Suite Pool SpinMutex SpinOnce SpinRwLock.

Open Scope Z_scope.

Module TestsSpin.
Import Pool.

Section tests.
Import SpinMutex.

(** The state after a schedule. *)
Definition mutex_run {T} (v : T) (l : list (action actor (choice T))) : option (pool (Mutex T) actor) :=
  acts step starts (λ _, true) (idle (new v)) l.

Definition mutex_tests : suite := [
  ("smoke",
   (actors <$> mutex_run tt [Start Locking; Run 0 (Go true); Run 0 Drop;
                             Start Locking; Run 1 (Go true); Run 1 Drop]) = Some [Gone; Gone]);
  ("try_lock",
   match mutex_run 42 [Start TryLocking; Run 0 (Go true); Start TryLocking; Run 1 (Go true); Run 0 Drop;
                       Start TryLocking; Run 2 (Go true)] with
   | Some p => actors p = [Gone; Gone; Guard] ∧ data (shared p) = 42
   | None => False
   end);
  ("test_into_inner", into_inner (new 10) = 10);
  ("test_mutex_arc_access_in_unwind",
   (data ∘ shared <$> mutex_run 1 [Start Locking; Run 0 (Go true); Run 0 (Store 2); Run 0 Drop;
                                   Start Locking; Run 1 (Go true)]) = Some 2);
  ("test_mutex_unsized",
   (data ∘ shared <$> mutex_run [1; 2; 3] [Start Locking; Run 0 (Go true); Run 0 (Store [4; 2; 3]);
                                           Run 0 (Store [4; 2; 5]); Run 0 Drop; Start Locking;
                                           Run 1 (Go true)]) = Some [4; 2; 5]);
  ("test_mutex_force_lock",
   (actors <$> mutex_run tt [Start Locking; Run 0 (Go true); Run 0 Forget; Run 0 Force;
                             Start TryLocking; Run 1 (Go true)]) = Some [Gone; Guard])]%string.
End tests.

Lemma mutex_tests_pass : passes mutex_tests.
Proof. replay. Qed.

Section tests.
Import SpinOnce.

Definition once_run {T} (l : list (action (actor T) (choice T))) : option (pool (Once T) (actor T)) :=
  acts step starts (λ _, true) (idle INIT) l.

(** A call that runs its builder to the end, and one that finds the value. *)
Definition first_call {T} (i : nat) (v : T) : list (action (actor T) (choice T)) :=
  [Start Loading; Run i Go; Run i Go; Run i (Return v); Run i Go; Run i Go; Run i Go].
Definition later_call {T} (i : nat) : list (action (actor T) (choice T)) :=
  [Start Loading; Run i Go; Run i Go; Run i Go].

Definition once_tests : suite := [
  ("smoke_once, init_constant",
   (on_runs ∘ shared <$> once_run (first_call 0 tt ++ later_call 1)) = Some 1%nat);
  ("smoke_once_value",
   (actors <$> once_run (first_call 0 1 ++ later_call 1)) = Some [Returned (Some 1); Returned (Some 1)]);
  ("stampede_once",
   match once_run (replicate 11 (Start Loading) ++ ((λ i, Run i Go) <$> seq 0 11) ++
                   ((λ i, Run i Go) <$> seq 0 11) ++ [Run 0 (Return tt); Run 0 Go; Run 0 Go; Run 0 Go] ++
                   concat ((λ i, replicate 3 (Run i Go)) <$> seq 1 10)) with
   | Some p => on_runs (shared p) = 1%nat ∧ actors p = replicate 11 (Returned (Some tt))
   | None => False
   end);
  ("try",
   (actors <$> once_run ([Start Trying; Run 0 Go] ++ first_call 1 2 ++ [Start Trying; Run 2 Go; Run 2 Go])) =
   Some [Returned None; Returned (Some 2); Returned (Some 2)]);
  ("try_no_wait",
   (actors <$> once_run [Start Trying; Run 0 Go; Start Loading; Run 1 Go; Run 1 Go; Run 1 Go; Run 1 Go;
                         Start Trying; Run 2 Go]) =
   Some [Returned (T := nat) None; Building; Returned None]);
  ("wait",
   (actors <$> once_run ([Start Waiting; Run 0 Go] ++ first_call 1 3 ++ [Start Waiting; Run 2 Go; Run 2 Go])) =
   Some [Returned None; Returned (Some 3); Returned (Some 3)]);
  ("panic",
   (actors <$> once_run [Start Loading; Run 0 Go; Run 0 Go; Run 0 Unwind; Run 0 Go;
                         Start Loading; Run 1 Go; Run 1 Go]) =
   Some [Panicking (T := unit); Panicking])]%string.
End tests.

Lemma once_tests_pass : passes once_tests.
Proof. replay. Qed.

Section tests.
Import SpinRwLock.

Definition rwlock_run {T} (v : T) (l : list (action actor (choice T))) : option (pool (RwLock T) actor) :=
  acts (step 32 true) starts (λ _, true) (idle (new v)) l.

(** A call that succeeds at once, and a guard dropped with its assertion. *)
Definition take {T} (i : nat) (l : actor) : list (action actor (choice T)) := [Start l; Run i (Go true)].
Definition release {T} (i : nat) : list (action actor (choice T)) :=
  [Run i Drop; Run i (Go true); Run i (Go true)].
Definition forget {T} (i : nat) : list (action actor (choice T)) := [Run i Forget].
Definition force {T} (i : nat) : list (action actor (choice T)) :=
  [Run i Force; Run i (Go true); Run i (Go true)].

Definition rwlock_tests : suite := [
  ("smoke",
   (lock ∘ shared <$> rwlock_run tt (take 0 (Reading true) ++ release 0 ++ take 1 (Writing false) ++ release 1 ++
      take 2 (Reading true) ++ take 3 (Reading true) ++ release 2 ++ release 3 ++
      take 4 (Writing false) ++ release 4)) = Some 0);
  ("test_rw_arc",
   match rwlock_run 0 (take 0 (Writing false) ++
      concat ((λ k, [Run 0 (Store (-1)); Run 0 (Store (k + 1))]) <$> seqZ 0 10) ++
      take 1 (Reading true) ++ [Run 1 (Go true)] ++ release 0 ++ [Run 1 (Go true)]) with
   | Some p => actors p = [Gone; Guard Read] ∧ data (shared p) = 10
   | None => False
   end);
  ("test_rw_access_in_unwind",
   (data ∘ shared <$> rwlock_run 1 (take 0 (Writing false) ++ [Run 0 (Store 2)] ++ release 0 ++
      take 1 (Reading true))) = Some 2);
  ("test_rwlock_unsized",
   (data ∘ shared <$> rwlock_run [1; 2; 3] (take 0 (Writing false) ++
      [Run 0 (Store [4; 2; 3]); Run 0 (Store [4; 2; 5])] ++ release 0)) = Some [4; 2; 5]);
  ("test_rwlock_try_write",
   (actors <$> rwlock_run 0 (take 0 (Reading true) ++ take 1 (Writing true) ++ release 0)) = Some [Gone; Gone]);
  ("test_rw_try_read",
   (actors <$> rwlock_run 0 (take 0 (Writing false) ++ forget 0 ++ take 1 (Reading false) ++ [Run 1 (Go true)])) =
   Some [Forgotten Write; Gone]);
  ("test_into_inner", into_inner (new 10) = 10);
  ("test_force_read_decrement",
   (actors <$> rwlock_run tt (take 0 (Reading true) ++ forget 0 ++ take 1 (Reading true) ++ forget 1 ++
      take 2 (Reading true) ++ forget 2 ++ take 3 (Writing true) ++ force 0 ++ force 1 ++
      take 4 (Writing true) ++ force 2 ++ take 5 (Writing true))) =
   Some [Gone; Gone; Gone; Gone; Gone; Guard Write]);
  ("test_force_write_unlock",
   (actors <$> rwlock_run tt (take 0 (Writing false) ++ forget 0 ++ take 1 (Reading false) ++ [Run 1 (Go true)] ++
      force 0 ++ take 2 (Reading false))) = Some [Gone; Gone; Guard Read])]%string.

(** [test_upgrade_downgrade], block by block. *)
Definition upgrade_downgrade_tests : suite := [
  ("an upgradeable guard next to a reader",
   (actors <$> rwlock_run tt (take 0 (Reading true) ++ take 1 (ReadingUpgradeable false) ++
      take 2 (Reading false) ++ [Run 2 (Go true)] ++ take 3 (Writing true) ++
      [Run 1 (Upgrade true); Run 1 (Go true)])) = Some [Guard Read; Guard Upgradeable; Gone; Gone]);
  ("downgrading a writer",
   (actors <$> rwlock_run tt (take 0 (Writing false) ++ take 1 (ReadingUpgradeable false) ++
      [Run 0 Downgrade; Run 0 (Go true); Run 0 (Go true)] ++ take 2 (ReadingUpgradeable false) ++ release 2 ++
      take 3 (Reading false) ++ take 4 (Writing true))) =
   Some [Guard Read; Gone; Gone; Guard Read; Gone]);
  ("one upgradeable guard at a time",
   (actors <$> rwlock_run tt (take 0 (ReadingUpgradeable true) ++ take 1 (ReadingUpgradeable false))) =
   Some [Guard Upgradeable; Gone]);
  ("an uncontended upgrade",
   (actors <$> rwlock_run tt (take 0 (ReadingUpgradeable false) ++ [Run 0 (Upgrade true); Run 0 (Go true)])) =
   Some [Guard Write])]%string.
End tests.

Lemma rwlock_tests_pass : passes rwlock_tests.
Proof. replay. Qed.

Lemma upgrade_downgrade_tests_pass : passes upgrade_downgrade_tests.
Proof. replay. Qed.
End TestsSpin.
