(* ===== verification/TestsTls.v ===== *)
(** * TestsTls: the unit tests of the TLS identity and the PSK session

    [tls/mod.rs] and [tls/embedded_tls_psk.rs], [mod tests]; see [Suite.v].
    The fingerprint test runs on the reference SHA-256 of [KeySchedule.v]. *)

From S2P Require Import Prelude External Reference Transport TlsIdentity TlsPsk KeySchedule Suite.

Open Scope Z_scope.

Module TestsTls.
Import TlsIdentity TlsPsk RefHash.

(** ** [tls/mod.rs] *)
Abbreviation CERT_MAX := 128%nat (only parsing).
Abbreviation KEY_MAX := 64%nat (only parsing).
Abbreviation STORAGE_MAX := 256%nat (only parsing).

Definition fake_identity : TlsIdentity :=
  match identity_new CERT_MAX KEY_MAX (as_bytes "fake-cert-der") (as_bytes "fake-key-der") with
  | Ok i => i
  | Err _ => {| certificate_der := []; private_key_der := [] |}
  end.

Definition store_of (i : option TlsIdentity) (fail_load fail_save : bool) : MockStore :=
  {| identity := i; save_calls := 0; fail_load := fail_load; fail_save := fail_save |}.
Definition generator_of (fail : bool) : MockGenerator :=
  {| gen_identity := fake_identity; gen_calls := 0; gen_fail := fail |}.

Definition bootstrap_tests : suite := [
  ("ensure_tls_identity_loads_existing_identity_without_generation",
   let '(r, store, generator) :=
     ensure_tls_identity (store_of (Some fake_identity) false false) (generator_of false) in
   r = Ok {| bi_identity := fake_identity;
             bi_fingerprint_sha256 := fingerprint_sha256 (certificate_der fake_identity);
             bi_generated := false |} ∧
   gen_calls generator = 0%nat ∧ save_calls store = 0%nat);
  ("ensure_tls_identity_generates_and_persists_when_store_is_empty",
   let '(r, store, generator) :=
     ensure_tls_identity (store_of None false false) (generator_of false) in
   match r with
   | Ok b => bi_generated b = true ∧ bi_identity b = fake_identity
   | Err _ => False
   end ∧ gen_calls generator = 1%nat ∧ save_calls store = 1%nat ∧
   identity store = Some fake_identity);
  ("ensure_tls_identity_propagates_store_and_generator_errors",
   (ensure_tls_identity (store_of None true false) (generator_of false)).1.1
     = Err (BootstrapLoad "load failed"%string) ∧
   (ensure_tls_identity (store_of None false false) (generator_of true)).1.1
     = Err (BootstrapGenerate "generate failed"%string) ∧
   (ensure_tls_identity (store_of None false true) (generator_of false)).1.1
     = Err (BootstrapSave "save failed"%string))]%string.

Definition identity_tests : suite := [
  ("identity_storage_round_trip_preserves_certificate_and_key",
   match identity_encode STORAGE_MAX fake_identity with
   | Ok encoded => identity_decode CERT_MAX KEY_MAX encoded = Ok fake_identity
   | Err _ => False
   end);
  ("identity_decode_rejects_invalid_storage_header",
   identity_decode CERT_MAX KEY_MAX (as_bytes "NOPE" ++ repeat 0 5) = Err InvalidStorageMagic ∧
   identity_decode CERT_MAX KEY_MAX (as_bytes "GMTL" ++ 9 :: repeat 0 4)
     = Err (UnsupportedStorageVersion 9));
  ("fingerprint_hex_formats_sha256_in_uppercase_colon_separated_form",
   fingerprint_hex (fingerprint_sha256 (as_bytes "abc")) =
   String.append "BA:78:16:BF:8F:01:CF:EA:41:41:40:DE:5D:AE:22:23:"
     "B0:03:61:A3:96:17:7A:9C:B4:10:FF:61:F2:00:15:AD")]%string.

Lemma identity_tests_pass : passes bootstrap_tests ∧ passes identity_tests.
Proof. split; replay. Qed.

(** ** [tls/embedded_tls_psk.rs]

    [fresh]: the session each test builds on an empty [MockTransport].  The
    tests leave out the [dhe_keypair] field; it is [None] here. *)
Abbreviation BUF := 1024%nat (only parsing).

Definition fresh : PskSession (H := toy true) :=
  psk_new (H := toy true) Mock.new
    {| pk_identity := as_bytes "id"; pk_secret := repeat 0 32; pk_dhe_keypair := None |} (repeat 0 32).

Definition psk_tests : suite := [
  ("write_before_accept_errors",
   (psk_write (H := toy true) BUF (as_bytes "hello") fresh).1 = Done (Err HandshakeIncomplete));
  ("read_before_accept_errors",
   (psk_read (H := toy true) BUF 2 16 fresh).1 = Done (Err HandshakeIncomplete));
  ("close_marks_session_closed_and_calls_transport_close",
   let s := psk_close (H := toy true) BUF fresh in
   ps_closed (H := toy true) s = true ∧ Mock.closed (ps_transport (H := toy true) s) = true);
  ("read_returns_eof_when_transport_returns_zero_during_record_header",
   (psk_read (H := toy true) BUF 2 16 (set_done (H := toy true) fresh)).1 = Done (Ok []))]%string.

Lemma psk_tests_pass : passes psk_tests.
Proof. replay. Qed.
End TestsTls.
